(* ===== verification/_CoqProject ===== *)
-Q . S2P
Prelude.v
Async.v
Eviction.v
Peer.v
Dedup.v
Mtu.v
Reliable.v
Store.v
Routing.v
L2cap.v
RoutingFacts.v
Conns.v
Interface.v
Lanes.v
Driver.v
Registry.v
RegistryInv.v
RegistrySafety.v
RegistryTotal.v
RegistryDedup.v
RegistryTick.v
RegistrySend.v
RegistryFlow.v
RegistryTombstones.v
Hook.v
Transport.v
Events.v
Blew.v
Construct.v
Watchdog.v
Actor.v
Exec.v
MockBle.v
Node.v
ReliableFacts.v
ReliableSystem.v
ReliableDuplex.v
SendLoop.v
ReliableProgress.v
ReliableFair.v
Pipe.v
PipeFacts.v
PipeSafety.v
PipeHazards.v
PipeSystem.v
EndToEnd.v
RegistryHazards.v
ChatProtocol.v
ChatState.v
ChatImage.v
ChatApp.v
ChatStart.v
ChatRun.v
ChatFacts.v
ChatDelivery.v
