(* ===== verification/Prelude.v ===== *)
(** * iroh-ble-transport: a verification library

    ** The program

    [iroh-ble-transport] carries the datagrams of iroh, a QUIC stack, over
    Bluetooth Low Energy.  The crate is under
    [src/crates/iroh-ble-transport/src/transport/].  Its parts:

    - the peer registry ([registry.rs], [peer.rs]), an actor that owns one entry
      per BLE device and moves it through its phases; it turns commands (radio
      events, datagrams to send, completions of earlier work, timer ticks) into
      actions for the driver;
    - the driver ([driver.rs]) executes the actions: it connects, opens and
      closes data pipes, reads metadata, persists peers ([store.rs]); native work
      is queued on one lane per device.  It reaches the radio through a trait
      ([interface.rs]), which [BlewDriver] implements on the [blew] crate;
    - a data pipe ([pipe.rs]) is a supervisor with a GATT worker, which runs a
      selective-repeat ARQ ([reliable.rs], chunk size from [mtu.rs]), and an
      L2CAP worker, which writes framed datagrams to a stream ([l2cap.rs]);
    - the routing table ([routing.rs]) gives every pipe an identifier that is the
      token in the addresses iroh sees, and decides with the promotion rule which
      pipe an endpoint is reached over;
    - the handshake hook ([hook.rs]) runs that rule when iroh has verified a
      peer, and the connection registry ([conns.rs]) closes the iroh connections
      whose only path was a pipe that went away;
    - the iroh-facing side ([transport.rs]) resolves endpoints, sends and
      receives packets, forwards the hook's events to the registry and brings
      the transport up; the event pumps ([events.rs]) forward the events of the
      radio, the watchdog ([watchdog.rs]) the time;
    - [dedup.rs] is the rule by which two peers agree on one of two links;
    - [test_util.rs] is a mock of the radio for the crate's tests.

    The chat demo ([src/demos/]) is an application on top of it: a protocol crate
    ([protocol/src/lib.rs], [support/key_utils.rs]) with the messages and the
    files, and a Tauri application ([iroh-ble-chat/src-tauri/src/lib.rs],
    [image.rs]) that keeps a table of peers from gossip events and from the
    transport's snapshot, tells its web view about it, decides whom gossip is to
    join, and sends texts over gossip and images over streams of their own.

    ** Conventions

    Integers are [Z] with the width of the source written out ([checked_add]
    where an overflow panics, [wrapping_add] where it wraps); time is in
    nanoseconds.  Operations are functions of the state; [Instant::now] and
    [SystemTime::now] are arguments.  A panic is [None]: of the state monad [M]
    below for the registry, of an option elsewhere.  The iteration order of a
    [HashMap] is a parameter, the class [HashIter]; so are bounded channels
    (class [Mpsc] in [Peer]), iroh's custom addresses (class [CustomAddrApi] in
    [Routing]) and the paths of a connection ([Conns]).  Shared channels and
    clocks are identifiers into a store ([Env] in [Peer]), so two holders of a
    handle see the same contents.  A future that awaits the radio is an [Async]
    computation ([Async]): with a budget of time it returns after some time or
    not at all, which is how a hung native call is said.  A task that awaits
    other tasks is a record with the await it is parked at, and one poll of it an
    event, so a list of events (or a path of a step relation) is an interleaving.
    The [blew] crate is a parameter, the class [Blew]; so are, for the demo, the
    [postcard] codec ([Postcard]), the text form of an identity ([EndpointText])
    and the image crates ([ImageCodec]); what gossip, iroh and the file system
    answer is an argument.  A Rust string of the demo is the list of its bytes.
    Log lines are left out.

    ** Files

    - [Prelude]: integers, bytes, byte order, iteration, the monad and its
      weakest preconditions ([wp]), sorted lists.
    - [Async]: asynchronous calls, [sleep] and [timeout], and bounds on how long
      they take.
    - [Eviction]: dropping the oldest entries of a bounded map, used by the
      tombstones of [Routing] and the closed pipes of [Conns].
    - [Peer]: [peer.rs]; channels and clocks.
    - [Dedup], [Mtu], [Store], [L2cap]: the modules of the same name, with their
      theorems.
    - [Reliable]: [reliable.rs].  [ReliableFacts] relates sequence numbers modulo
      16 to absolute ones, wire bytes to fragments and fragments to datagrams.
      [ReliableSystem] composes a sending and a receiving end over a lossy link,
      [ReliableDuplex] two ends that both send; [ReliableProgress] shows that the
      former can always finish and [ReliableFair] that a link that keeps working
      makes them finish; [SendLoop] is [run_send_loop] as a task.
    - [Pipe]: [pipe.rs], the supervisor, the two workers and their tasks.
      [PipeFacts], [PipeSafety] and [PipeHazards] have its theorems;
      [PipeSystem] composes two GATT workers that send to each other over a link.
    - [EndToEnd]: two nodes, each a registry, a supervisor and a GATT worker, on
      top of [RegistryFlow] and [PipeSystem].
    - [Routing]: [routing.rs].  [RoutingFacts]: its theorems.
    - [Interface]: [interface.rs] and [error.rs]; [Blew]: [BlewDriver] of
      [driver.rs] as its instance.
    - [Lanes]: the lanes of [driver.rs] and their workers, with the specification
      they refine.  [Driver]: what opening and closing a data pipe does to the
      tables.  [Exec]: the futures of the jobs, [Driver::execute] as a whole, and
      its composition with the registry.
    - [Conns], [Hook], [Transport], [Events], [Watchdog]: the modules of the same
      name, with their theorems.  [Construct]: the builder, [construct] with its
      rollback and [bind] of [transport.rs].
    - [Registry]: [registry.rs].  A handler that works on one entry is a program
      on that entry ([EM], the part of the actor it can reach) run by
      [with_entry] or [or_insert_entry] inside a program on the registry ([RM]).
      [RegistryInv] has the invariant of a run and one preservation lemma per
      handler; [RegistrySafety], [RegistryDedup], [RegistryTick],
      [RegistrySend], [RegistryTombstones] and [RegistryTotal] have the theorems.
      [RegistryFlow] follows the data of one device through any commands, by one
      lemma per handler that tells what it puts on the channels of a pipe;
      [RegistryHazards] has runs in which an entry keeps too much.
    - [Actor]: the loop [Registry::run].  [Node]: the loop, the driver and the
      inbox the loop receives from and the driver sends to.
    - [MockBle]: [test_util.rs], the mock as an instance of the interface, and the
      fabrics that connect mocks.
    - [ChatProtocol]: the demo's protocol crate and key file, with their theorems.
      [ChatState]: the peer table of [lib.rs], its status, whom to join, how it
      follows the transport.  [ChatImage]: [image.rs] and the sending stream.
      [ChatApp]: the state of the application and one definition per command,
      gossip event and tick.  [ChatStart]: [start_node] on top of [Construct].
      [ChatRun]: the handlers interleaved, and every step seen from one peer.
      [ChatFacts] and [ChatDelivery]: the theorems.

    ** What the theorems show

    - Delivery: over a link that loses and repeats messages the ARQ delivers in
      order and exactly once; when one end sends and the other only acknowledges,
      from every state all that was accepted can still be delivered, and a bounded
      number of working round trips, whatever happens between them, delivers it.
      When both ends send, a retransmission may repeat
      an old acknowledgement; delivery stays in order and exactly once both ways as
      long as none is repeated that is more than nine fragments old, and that bound
      is exact.  The link is declared dead exactly at the deadline.  Under the same
      bound two GATT workers with all their tasks give iroh the datagrams in order
      and at most once, and so do two whole nodes, from the [SendDatagram] command
      of one registry to the packets of the other node's pipe, with any other
      commands in between; when datagrams are requested of one node only, no bound
      is needed.  Datagrams survive the L2CAP framing, and damage is
      reported.
    - Data pipes: every datagram a pipe takes is accounted for on both paths,
      queues and chunk sizes keep their bounds, a stall is reported only of a
      dead link, and a pipe can be closed within a bounded time whatever its
      workers do.
    - Native work: a lane refines one queue worked off one job at a time; lanes
      drain; whatever the radio does, clean-up, version reads and L2CAP opens are
      done with it within their limits, a connect takes as long as the radio's own,
      and a job that reports then waits for room in the inbox; composed with the
      registry, no cancellable work starts under a lifecycle retired before.
    - Construction: a failed [construct] has stopped exactly what it had started.
    - Lifecycles: over every run, work is never started under a retired identity
      and completions of retired work are ignored; the same for the actor loop,
      whose snapshot shows exactly the entries and whose published generation is
      never a reason to refuse a datagram.  No command makes the registry panic
      while its counters have room ([RegistryTotal]).
    - One link per peer: both ends compute the same verdict and exactly one of
      them dials the L2CAP channel of the link that survives, a verified endpoint
      is left with one live connection, symmetric dials converge to one link
      whatever the order of the handshakes, and an accepted handshake evicts its
      rivals from all tables.
    - Addresses: identifiers and reservations stay consistent under any
      interleaving; the address handed out before a dial is the one the pipe is
      opened under; a closed pipe routes nowhere and a connection that arrives
      late on it is closed.
    - Queues: sends keep their order through the registry and when a pipe comes
      up; over any commands a pipe is fed what was requested for its device, and the
      fragments that arrived from it, in order and at most once; [poll_send] and
      [poll_recv] account for every packet.
    - Time and budgets: a tick leaves nothing overdue, the back-off and the dial
      budget, bounded tombstones, termination of the MTU poll.
    - Metadata: tokens, advertised prefixes, PSM and version survive their round
      trips; the PSM read is retried on errors only; the last store write wins.
    - The chat demo: after any interleaving the list of peers of the web view is
      the table, but for a peer whose removal is still to be shown or was shown
      after the peer came back, and its BLE panel is the registry's snapshot; join
      nudges are
      throttled; tracked peers survive a restart; texts and images are shown
      elsewhere as they were sent, framed messages survive any fragmentation;
      [start_node] ends in a started node or in one that can be started again.
    - Some theorems and lemmas record behaviour at odds with the source's
      comments or intent: [stale_piggyback_ack] and [freshness_bound_tight] (an old
      acknowledgement is taken for a new one), [power_cycle_redials_forgotten],
      [stale_fragment_swallows_datagram], [redial_keeps_peripheral_role] and
      [power_cycle_feeds_old_pipe] (backlog, role and pipe outlive a connection),
      [gatt_worker_self_deadlock] (a full datagram channel blocks the task that
      drains it, until an L2CAP channel takes over), [l2cap_end_missed] (a notification without a waiter is lost),
      [full_inbox_deadlocks] (the actor waits for room in its own inbox),
      [job_waits_for_inbox] (a lane is held until the inbox has room),
      [construct_can_hang] (the rollback has no time limit),
      [inbound_pipe_takes_reservation], [exhausted_counter_mints_local_token]; in
      the demo [start_node_can_hang], [own_id_added], [removal_overtaken],
      [reset_undone], [broken_stream_keeps_announcement].

    ** Fuel

    [poll_mtu] takes 61 turns at most (3 s in steps of 50 ms), proved enough;
    [drain_loop] removes a buffered fragment per turn and gets the length of the
    buffer; [chunks] yields a non-empty chunk per turn and gets the length of the
    datagram; [recv_loop] consumes a byte per turn or ends and gets the length of
    the stream plus one; [trim_start] and [trim_end] remove a byte or more per
    turn and get the length of the text; [wait_for_pending] looks 21 times.

    ** Not modelled

    Metrics and their counters (with the demo's [bandwidth_tick], which formats
    their rates as floating-point numbers), getters that return a shared handle,
    formatting, tests and command-line examples, the demo's web view helper for
    iOS and the Android smoke test, which only call the platform, and the
    registration of plug-ins and log layers in [run].  [ReliableFair] takes a round
    trip (a turn and a timeout of the sender, the arrival of what is in transit, the
    acknowledgement and its arrival) as the unit in which the link works.  [EndToEnd]
    follows one GATT pipe on each node, with the event pumps and the radio as its
    lossy link, and without an L2CAP channel on those pipes; a registry command is
    one step of it, so a channel does not drain while a command fills it.  The
    spawned store tasks are modelled by the order in which they run. *)

From Stdlib Require Export ZArith Lia.
From stdpp Require Export base tactics list gmap strings numbers pretty sorting.
Open Scope Z_scope.

(** ** Machine integers, time and bytes *)

Module MachInt.

Definition u8_max : Z := 255.
Definition u16_max : Z := 65535.
Definition u32_max : Z := 4294967295.
Definition u64_max : Z := 18446744073709551615.

(** [checked_add max x y]: Rust's [checked_add] on an unsigned width. *)
Definition checked_add (max x y : Z) : option Z :=
  if x + y <=? max then Some (x + y) else None.

(** [wrapping_add max x y] and [wrapping_sub max x y]. *)
Definition wrapping_add (max x y : Z) : Z := (x + y) mod (max + 1).
Definition wrapping_sub (max x y : Z) : Z := (x - y) mod (max + 1).

(** [saturating_sub] and [saturating_mul] of unsigned integers. *)
Definition saturating_sub (x y : Z) : Z := Z.max 0 (x - y).
Definition saturating_mul (max x y : Z) : Z := Z.min max (x * y).

Lemma checked_add_Some max x y z :
  checked_add max x y = Some z <-> z = x + y /\ x + y <= max.
Proof.
  unfold checked_add. destruct (x + y <=? max) eqn:E.
  - apply Z.leb_le in E. split; [intros [= <-]; lia | by intros [-> _]].
  - apply Z.leb_gt in E. split; [discriminate | lia].
Qed.

Lemma wrapping_add_small max x y :
  0 <= x + y <= max -> wrapping_add max x y = x + y.
Proof. intros H. unfold wrapping_add. apply Z.mod_small. lia. Qed.

Lemma wrapping_add_range max x y :
  0 <= max -> 0 <= wrapping_add max x y <= max.
Proof.
  intros H. unfold wrapping_add.
  pose proof (Z.mod_pos_bound (x + y) (max + 1)). lia.
Qed.

End MachInt.
Export MachInt.

(** Instants and durations are nanoseconds. *)
Abbreviation Instant := Z (only parsing).
Abbreviation Duration := Z (only parsing).

Module Clock.
Definition from_nanos (n : Z) : Duration := n.
Definition from_millis (n : Z) : Duration := n * 1000000.
Definition from_secs (n : Z) : Duration := n * 1000000000.
(** [Instant::saturating_duration_since]. *)
Definition saturating_duration_since (a b : Instant) : Duration := Z.max 0 (a - b).
End Clock.
Export Clock.

(** A [Waker] is opaque: it is identified by a number. *)
Abbreviation Waker := Z (only parsing).

(** Byte strings: lists of 8-bit integers. *)
Abbreviation Bytes := (list Z) (only parsing).

Definition is_byte (b : Z) : Prop := 0 <= b <= u8_max.
#[global] Instance is_byte_dec b : Decision (is_byte b).
Proof. unfold is_byte. apply _. Defined.

Module LittleEndian.

(** [to_le_bytes] on an [8*n]-bit integer, and [from_le_bytes]. *)
Fixpoint to_le_bytes (n : nat) (z : Z) : Bytes :=
  match n with
  | O => []
  | S n' => z mod 256 :: to_le_bytes n' (z / 256)
  end.

Fixpoint from_le_bytes (bs : Bytes) : Z :=
  match bs with
  | [] => 0
  | b :: bs' => b + 256 * from_le_bytes bs'
  end.

Lemma length_to_le_bytes n z : length (to_le_bytes n z) = n.
Proof. revert z; induction n as [|n IH]; intros z; simpl; [done|]. by rewrite IH. Qed.

Lemma to_le_bytes_bytes n z : Forall is_byte (to_le_bytes n z).
Proof.
  revert z; induction n as [|n IH]; intros z; simpl; constructor; [|apply IH].
  unfold is_byte, u8_max. pose proof (Z.mod_pos_bound z 256). lia.
Qed.

Lemma from_to_le_bytes n z :
  0 <= z < 256 ^ Z.of_nat n -> from_le_bytes (to_le_bytes n z) = z.
Proof.
  revert z; induction n as [|n IH]; intros z Hz.
  - simpl in *. lia.
  - rewrite Nat2Z.inj_succ, Z.pow_succ_r in Hz by lia.
    cbn [to_le_bytes from_le_bytes]. rewrite IH.
    + pose proof (Z.div_mod z 256). lia.
    + split; [apply Z.div_pos; lia|]. apply Z.div_lt_upper_bound; lia.
Qed.

Lemma from_le_bytes_range bs :
  Forall is_byte bs -> 0 <= from_le_bytes bs < 256 ^ Z.of_nat (length bs).
Proof.
  unfold is_byte, u8_max.
  induction 1 as [|b bs Hb _ IH]; cbn [from_le_bytes length]; [simpl; lia|].
  rewrite Nat2Z.inj_succ, Z.pow_succ_r by lia. lia.
Qed.

Lemma to_from_le_bytes bs :
  Forall is_byte bs -> to_le_bytes (length bs) (from_le_bytes bs) = bs.
Proof.
  unfold is_byte, u8_max.
  induction 1 as [|b bs Hb _ IH]; [done|]. cbn [length to_le_bytes from_le_bytes].
  rewrite (Z.mul_comm 256), Z.mod_add, Z.div_add by lia.
  rewrite Z.mod_small, Z.div_small, Z.add_0_l by lia. by rewrite IH.
Qed.

End LittleEndian.
Export LittleEndian.

(** ** Lexicographic order of byte strings (Rust's [Ord] for slices) *)

Module Lex.

Fixpoint bytes_cmp (xs ys : Bytes) : comparison :=
  match xs, ys with
  | [], [] => Eq
  | [], _ :: _ => Lt
  | _ :: _, [] => Gt
  | x :: xs', y :: ys' =>
      match x ?= y with
      | Eq => bytes_cmp xs' ys'
      | c => c
      end
  end.

Definition bytes_ltb (xs ys : Bytes) : bool :=
  match bytes_cmp xs ys with Lt => true | _ => false end.

Lemma bytes_cmp_eq xs ys : bytes_cmp xs ys = Eq <-> xs = ys.
Proof.
  revert ys; induction xs as [|x xs IH]; intros [|y ys]; simpl; try (split; done).
  destruct (Z.compare_spec x y) as [->|Hlt|Hlt].
  - rewrite IH. split; [by intros ->|by intros [= ->]].
  - split; [done|]. intros [= -> _]; lia.
  - split; [done|]. intros [= -> _]; lia.
Qed.

Lemma bytes_cmp_antisym xs ys : bytes_cmp ys xs = CompOpp (bytes_cmp xs ys).
Proof.
  revert ys; induction xs as [|x xs IH]; intros [|y ys]; simpl; try done.
  rewrite (Z.compare_antisym x y). destruct (x ?= y) eqn:E; simpl; auto.
Qed.

Lemma bytes_ltb_asym xs ys : bytes_ltb xs ys = true -> bytes_ltb ys xs = false.
Proof.
  unfold bytes_ltb. rewrite (bytes_cmp_antisym xs ys).
  by destruct (bytes_cmp xs ys).
Qed.

Lemma bytes_ltb_total xs ys :
  xs <> ys -> bytes_ltb ys xs = negb (bytes_ltb xs ys).
Proof.
  intros Hne. unfold bytes_ltb. rewrite (bytes_cmp_antisym xs ys).
  destruct (bytes_cmp xs ys) eqn:E; try done. by apply bytes_cmp_eq in E.
Qed.

End Lex.
Export Lex.

(** ** Iteration over a [HashMap]

    The order in which Rust iterates a [HashMap] is unspecified.  Every
    definition that iterates one is parameterised by an instance of this class,
    and every theorem about it holds for all instances. *)

Class HashIter := {
  hm_iter : forall {K} `{Countable K} {A}, gmap K A -> list (K * A);
  hm_iter_perm : forall {K} `{Countable K} {A} (m : gmap K A),
    hm_iter m ≡ₚ map_to_list m;
}.

(** A concrete order, for evaluation. *)
Definition canonical_iter : HashIter :=
  {| hm_iter K _ _ A m := map_to_list m; hm_iter_perm K _ _ A m := reflexivity _ |}.

Section HashIterLemmas.
Context `{HashIter} {K : Type} `{Countable K} {A : Type}.
Implicit Types (m : gmap K A).

Definition hm_keys m : list K := (hm_iter m).*1.
Definition hm_values m : list A := (hm_iter m).*2.

Lemma elem_of_hm_iter m k v : (k, v) ∈ hm_iter m <-> m !! k = Some v.
Proof. rewrite (hm_iter_perm m). apply elem_of_map_to_list. Qed.

Lemma elem_of_hm_values m v : v ∈ hm_values m <-> exists k, m !! k = Some v.
Proof.
  unfold hm_values. rewrite list_elem_of_fmap. split.
  - intros ([k v'] & -> & Hin). exists k. by apply elem_of_hm_iter.
  - intros [k Hk]. exists (k, v). split; [done|]. by apply elem_of_hm_iter.
Qed.

Lemma elem_of_hm_keys m k : k ∈ hm_keys m <-> is_Some (m !! k).
Proof.
  unfold hm_keys. rewrite list_elem_of_fmap. split.
  - intros ([k' v'] & -> & Hin). exists v'. by apply elem_of_hm_iter.
  - intros [v Hk]. exists (k, v). split; [done|]. by apply elem_of_hm_iter.
Qed.

Lemma NoDup_hm_keys m : NoDup (hm_keys m).
Proof. unfold hm_keys. rewrite (hm_iter_perm m). apply NoDup_fst_map_to_list. Qed.

Lemma NoDup_hm_iter m : NoDup (hm_iter m).
Proof. rewrite (hm_iter_perm m). apply NoDup_map_to_list. Qed.

Lemma length_hm_iter m : length (hm_iter m) = size m.
Proof. rewrite (hm_iter_perm m). apply length_map_to_list. Qed.

End HashIterLemmas.

(** [Iterator::find] is [List.find]; its specification for membership. *)
Lemma find_is_Some {A} (p : A -> bool) (l : list A) :
  (exists x, x ∈ l /\ p x = true) -> is_Some (List.find p l).
Proof.
  intros (x & Hin & Hp). destruct (List.find p l) eqn:E; [eauto|].
  apply list_elem_of_In, (List.find_none _ _ E) in Hin. congruence.
Qed.

Lemma find_Some_elem {A} (p : A -> bool) (l : list A) x :
  List.find p l = Some x -> x ∈ l /\ p x = true.
Proof. intros E. apply List.find_some in E. by rewrite list_elem_of_In. Qed.

Lemma find_None_elem {A} (p : A -> bool) (l : list A) x :
  List.find p l = None -> x ∈ l -> p x = false.
Proof. intros E Hx. apply (List.find_none _ _ E). by apply list_elem_of_In. Qed.

(** ** A state monad with panics

    [M S A] threads a state [S]; [None] is a Rust panic ([expect], integer
    overflow under overflow checks, [debug_assert!]). *)

Definition M (S A : Type) : Type := S -> option (A * S).

#[global] Instance M_ret {S} : MRet (M S) := fun A a s => Some (a, s).
#[global] Instance M_bind {S} : MBind (M S) := fun A B f c s =>
  match c s with
  | Some (a, s') => f a s'
  | None => None
  end.

Definition panic {S A} : M S A := fun _ => None.
Definition gets {S A} (f : S -> A) : M S A := fun s => Some (f s, s).
Definition modify {S} (f : S -> S) : M S unit := fun s => Some (tt, f s).

(** [expect]: a panic on [None]. *)
Definition expect {S A} (o : option A) : M S A :=
  match o with Some a => mret a | None => panic end.

Definition when {S} (b : bool) (c : M S unit) : M S unit :=
  if b then c else mret tt.

(** [for x in l { f(x) }]. *)
Fixpoint for_each {S A} (l : list A) (f : A -> M S unit) : M S unit :=
  match l with
  | [] => mret tt
  | x :: l' => f x ;; for_each l' f
  end.

(** [wp P c Q s]: running [c] from [s] either panics, in which case [P] holds,
    or ends in a result and state that satisfy [Q].  [P := True] is partial
    correctness, [P := False] rules panics out. *)
Definition wp {S A} (P : Prop) (c : M S A) (Q : A -> S -> Prop) (s : S) : Prop :=
  match c s with
  | Some (a, s') => Q a s'
  | None => P
  end.

Section WpRules.
Context {S : Type} (P : Prop).

Lemma wp_ret {A} (a : A) (Q : A -> S -> Prop) s :
  wp P (mret a) Q s = Q a s.
Proof. reflexivity. Qed.

Lemma wp_bind {A B} (c : M S A) (f : A -> M S B) Q s :
  wp P (c ≫= f) Q s = wp P c (fun a => wp P (f a) Q) s.
Proof. unfold wp, mbind, M_bind. by destruct (c s) as [[a s']|]. Qed.

Lemma wp_bind_intro {A B} (c : M S A) (f : A -> M S B) Q s :
  wp P c (fun a => wp P (f a) Q) s -> wp P (c ≫= f) Q s.
Proof. by rewrite wp_bind. Qed.

Lemma wp_gets {A} (f : S -> A) Q s : wp P (gets f) Q s = Q (f s) s.
Proof. reflexivity. Qed.

Lemma wp_modify (f : S -> S) Q s : wp P (modify f) Q s = Q tt (f s).
Proof. reflexivity. Qed.

Lemma wp_panic {A} (Q : A -> S -> Prop) s : wp P panic Q s = P.
Proof. reflexivity. Qed.

Lemma wp_expect {A} (o : option A) (Q : A -> S -> Prop) s :
  wp P (expect o) Q s = match o with Some a => Q a s | None => P end.
Proof. by destruct o. Qed.

Lemma wp_when (b : bool) (c : M S unit) Q s :
  wp P (when b c) Q s = if b then wp P c Q s else Q tt s.
Proof. by destruct b. Qed.

Lemma wp_mono {A} (c : M S A) (Q Q' : A -> S -> Prop) s :
  wp P c Q s -> (forall a s', Q a s' -> Q' a s') -> wp P c Q' s.
Proof. unfold wp. destruct (c s) as [[a s']|]; naive_solver. Qed.

Lemma wp_for_each {A} (l : list A) (f : A -> M S unit) (I : S -> Prop) s :
  I s ->
  (forall x s', x ∈ l -> I s' -> wp P (f x) (fun _ => I) s') ->
  wp P (for_each l f) (fun _ => I) s.
Proof.
  revert s; induction l as [|x l IH]; intros s Hs Hf; [done|].
  cbn [for_each]. rewrite wp_bind.
  eapply wp_mono; [apply Hf; [left|done]|].
  intros [] s' Hs'. apply IH; [done|]. intros y s'' Hy. apply Hf. by right.
Qed.

(** The loop rule with the elements still to be visited. *)
Lemma wp_for_each_seq {A} (l : list A) (f : A -> M S unit) (I : list A -> S -> Prop) s :
  I l s ->
  (forall x l' s', x ∈ l -> I (x :: l') s' -> wp P (f x) (fun _ => I l') s') ->
  wp P (for_each l f) (fun _ => I []) s.
Proof.
  revert s; induction l as [|x l IH]; intros s Hs Hf; [done|].
  cbn [for_each]. rewrite wp_bind.
  eapply wp_mono; [apply Hf; [left|done]|].
  intros [] s' Hs'. apply IH; [done|]. intros y l' s'' Hy. apply Hf. by right.
Qed.
End WpRules.

(** Partial-correctness triples read off a run that does not panic. *)
Lemma wp_run {S A} (c : M S A) Q s a s' :
  wp True c Q s -> c s = Some (a, s') -> Q a s'.
Proof. unfold wp. intros H E. by rewrite E in H. Qed.

(** [wp False]: the program runs to an end. *)
Lemma wp_total {S A} (c : M S A) Q s :
  wp False c Q s -> exists a s', c s = Some (a, s') /\ Q a s'.
Proof. unfold wp. destruct (c s) as [[a s']|]; [eauto|done]. Qed.

(** Running a bind. *)
Lemma bind_run {S A B} (c : M S A) (f : A -> M S B) s a s' :
  c s = Some (a, s') -> (c ≫= f) s = f a s'.
Proof. intros E. unfold mbind, M_bind. by rewrite E. Qed.

Lemma bind_gets {S A B} (f : S -> A) (k : A -> M S B) s : (gets f ≫= k) s = k (f s) s.
Proof. reflexivity. Qed.

Create Rewrite HintDb wp.
#[export] Hint Rewrite @wp_ret @wp_bind @wp_gets @wp_modify @wp_panic
  @wp_expect @wp_when : wp.

(** Symbolic execution of a monadic program in a [wp] goal. *)
Ltac wp_step := progress (autorewrite with wp; cbn beta iota).
Ltac wp_steps := repeat wp_step.

(** ** Ordered lists *)

Section OrderedLists.
Context {A : Type} (R : A -> A -> Prop).

Lemma StronglySorted_snoc l y :
  StronglySorted R l -> (forall x, x ∈ l -> R x y) -> StronglySorted R (l ++ [y]).
Proof.
  induction 1 as [|x l Hl IH Hx]; intros Hy; simpl.
  - repeat constructor.
  - constructor; [apply IH; intros z Hz; apply Hy; by right|].
    apply Forall_app. split; [done|]. constructor; [|constructor]. apply Hy. left.
Qed.

Lemma StronglySorted_remove l1 x l2 :
  StronglySorted R (l1 ++ x :: l2) -> StronglySorted R (l1 ++ l2).
Proof.
  induction l1 as [|z l1 IH]; simpl; intros H.
  - by apply StronglySorted_inv in H as [H _].
  - apply StronglySorted_inv in H as [H Hz]. constructor; [auto|].
    rewrite !Forall_app, Forall_cons in *. naive_solver.
Qed.

Lemma StronglySorted_head x l y : StronglySorted R (x :: l) -> y ∈ l -> R x y.
Proof.
  intros H Hy. apply StronglySorted_inv in H as [_ H].
  rewrite Forall_forall in H. auto.
Qed.
End OrderedLists.

Lemma fmap_app_cons_inv {A B} (f : A -> B) l y1 y y2 :
  y1 ++ y :: y2 = f <$> l ->
  exists l1 x l2, l = l1 ++ x :: l2 /\ y1 = f <$> l1 /\ y = f x /\ y2 = f <$> l2.
Proof.
  intros E. symmetry in E. apply fmap_app_inv in E as (l1 & l2 & -> & E & ->).
  symmetry in E. destruct l2 as [|x l2]; [done|]. injection E as <- <-.
  by exists l1, x, l2.
Qed.
