(* ===== verification/Async.v ===== *)
(** * Async: awaiting with deadlines

    An asynchronous call on a state [I] (a native radio, say) either returns
    after some time or never does, and a caller that stops waiting
    ([tokio::time::timeout], an aborted task) leaves the state as it was when it
    was dropped.  [Async I A] is such a call: given the time its caller is
    prepared to wait ([None]: for ever) and the state, it gives the time taken and
    the result, [None] if the caller gave up first, and the state. *)

From S2P Require Import Prelude.
Open Scope Z_scope.

Definition Async (I A : Type) : Type := option Duration -> I -> option (Duration * A) * I.

(** [d] is within the budget. *)
Definition fits_in (d : Duration) (b : option Duration) : bool :=
  match b with Some b => d <=? b | None => true end.
Definition left_of (b : option Duration) (d : Duration) : option Duration :=
  (fun b => b - d) <$> b.

#[global] Instance Async_ret {I} : MRet (Async I) := fun A a b i => (Some (0, a), i).
#[global] Instance Async_bind {I} : MBind (Async I) := fun A B f c b i =>
  match c b i with
  | (Some (t, a), i') =>
      match f a (left_of b t) i' with
      | (Some (t', r), i'') => (Some (t + t', r), i'')
      | (None, i'') => (None, i'')
      end
  | (None, i') => (None, i')
  end.

(** [tokio::time::sleep]. *)
Definition sleep {I} (d : Duration) : Async I unit := fun b i =>
  if fits_in d b then (Some (d, tt), i) else (None, i).

(** [tokio::time::timeout]: the call is polled before the timer, so one that
    takes exactly [limit] still counts. *)
Definition timeout {I A} (limit : Duration) (c : Async I A) : Async I (option A) := fun b i =>
  match c (Some (match b with Some b => Z.min limit b | None => limit end)) i with
  | (Some (t, a), i') => (Some (t, Some a), i')
  | (None, i') => if fits_in limit b then (Some (limit, None), i') else (None, i')
  end.

(** Reading and writing the state takes no time. *)
Definition a_gets {I A} (f : I -> A) : Async I A := fun b i => (Some (0, f i), i).
Definition a_modify {I} (f : I -> I) : Async I unit := fun b i => (Some (0, tt), f i).

(** The [?] operator: an error ends the function. *)
Definition try_bind {I E A B} (c : Async I (E + A)) (f : A -> Async I (E + B))
    : Async I (E + B) :=
  r ← c; match r with inl e => mret (inl e) | inr a => f a end.

(** Waiting without a deadline. *)
Definition await {I A} (c : Async I A) (i : I) : option (Duration * A) * I := c None i.

(** ** Calls that respect time *)

Definition budget_ok (b : option Duration) : Prop := forall b', b = Some b' -> 0 <= b'.

(** A result is reported after a non-negative time within the budget. *)
Class Timely {I A} (c : Async I A) : Prop :=
  timely : forall b i t a i', budget_ok b -> c b i = (Some (t, a), i') ->
    0 <= t /\ forall b', b = Some b' -> t <= b'.

(** A call that always returns within [limit], with a result that satisfies [Q]. *)
Definition returns_within {I A} (limit : Duration) (c : Async I A) (Q : A -> Prop) : Prop :=
  forall i, exists t a i', c None i = (Some (t, a), i') /\ 0 <= t <= limit /\ Q a.

Section Timely.
Context {I : Type}.

#[global] Instance timely_bind {A B} (c : Async I A) (f : A -> Async I B) :
  Timely c -> (forall a, Timely (f a)) -> Timely (c ≫= f).
Proof.
  intros Hc Hf b i t r i' Hb E. unfold mbind, Async_bind in E.
  destruct (c b i) as [[[t1 a]|] i1] eqn:E1; [|done].
  destruct (f a (left_of b t1) i1) as [[[t2 r']|] i2] eqn:E2; [|done].
  injection E as <- <- <-. destruct (Hc _ _ _ _ _ Hb E1) as [H0 H1].
  assert (budget_ok (left_of b t1)) as Hb'.
  { intros b' Eb. destruct b as [b0|]; [|done]. injection Eb as <-.
    specialize (H1 _ eq_refl). lia. }
  destruct (Hf _ _ _ _ _ _ Hb' E2) as [H2 H3]. split; [lia|]. intros b' ->.
  specialize (H3 (b' - t1) eq_refl). lia.
Qed.

Lemma timely_now {A} (c : Async I A) :
  (forall b i, exists a i', c b i = (Some (0, a), i')) -> Timely c.
Proof.
  intros Hc b i t a i' Hb E. destruct (Hc b i) as (a' & i'' & E'). rewrite E' in E.
  injection E as <- _ _. split; [done|]. intros b' ->. by apply Hb.
Qed.

#[global] Instance timely_ret {A} (a : A) : Timely (mret a : Async I A).
Proof. apply timely_now. by repeat eexists. Qed.
#[global] Instance timely_gets {A} (f : I -> A) : Timely (a_gets f).
Proof. apply timely_now. by repeat eexists. Qed.
#[global] Instance timely_modify (f : I -> I) : Timely (a_modify f).
Proof. apply timely_now. by repeat eexists. Qed.

#[global] Instance timely_try {E A B} (c : Async I (E + A)) (f : A -> Async I (E + B)) :
  Timely c -> (forall a, Timely (f a)) -> Timely (try_bind c f).
Proof. intros Hc Hf. apply timely_bind; [done|]. intros [e|a]; apply _. Qed.

Lemma timely_sleep d : 0 <= d -> Timely (sleep d : Async I unit).
Proof.
  intros Hd b i t a i' Hb. unfold sleep, fits_in. destruct b as [b|].
  - destruct (Z.leb_spec d b); [|done]. intros [= <- <- <-]. split; [done|]. by intros b' [= <-].
  - by intros [= <- <- <-].
Qed.

Lemma timely_timeout {A} d (c : Async I A) : 0 <= d -> Timely c -> Timely (timeout d c).
Proof.
  intros Hd Hc b i t a i' Hb. unfold timeout.
  set (b0 := match b with Some b => Z.min d b | None => d end).
  assert (0 <= b0) as H0.
  { subst b0. destruct b as [b|]; [|done]. specialize (Hb _ eq_refl). lia. }
  destruct (c (Some b0) i) as [[[t1 a1]|] i1] eqn:E1.
  - intros [= <- <- <-]. apply Hc in E1 as [? Hle]; [|by intros ? [= <-]].
    specialize (Hle _ eq_refl). split; [done|]. intros b' ->. subst b0. lia.
  - unfold fits_in. destruct b as [b|].
    + destruct (Z.leb_spec d b); [|done]. intros [= <- <- <-]. split; [done|]. by intros ? [= <-].
    + by intros [= <- <- <-].
Qed.

(** Whatever the call does, its caller goes on after [d] at the latest. *)
Lemma timeout_returns {A} d (c : Async I A) :
  0 <= d -> Timely c -> returns_within d (timeout d c) (fun _ => True).
Proof.
  intros Hd Hc i. unfold timeout. destruct (c (Some d) i) as [[[t a]|] i'] eqn:E; cbn.
  - apply Hc in E as [H0 H1]; [|by intros ? [= <-]]. specialize (H1 _ eq_refl). by repeat eexists.
  - by repeat eexists.
Qed.

Lemma returns_bind {A B} d1 d2 (c : Async I A) (f : A -> Async I B) P Q :
  returns_within d1 c P -> (forall a, P a -> returns_within d2 (f a) Q) ->
  returns_within (d1 + d2) (c ≫= f) Q.
Proof.
  intros Hc Hf i. destruct (Hc i) as (t1 & a & i1 & E1 & H1 & HP).
  destruct (Hf a HP i1) as (t2 & r & i2 & E2 & H2 & HQ). unfold mbind, Async_bind.
  rewrite E1. cbn [left_of fmap option_fmap option_map]. rewrite E2. exists (t1 + t2), r, i2.
  split; [done|]. split; [lia|done].
Qed.

Lemma returns_ret {A} (a : A) (Q : A -> Prop) : Q a -> returns_within 0 (mret a : Async I A) Q.
Proof. intros Ha i. by repeat eexists. Qed.

Lemma returns_weaken {A} d d' (c : Async I A) (P Q : A -> Prop) :
  d <= d' -> (forall a, P a -> Q a) -> returns_within d c P -> returns_within d' c Q.
Proof.
  intros Hd HPQ Hc i. destruct (Hc i) as (t & a & i' & E & Ht & HP). exists t, a, i'.
  split; [done|]. split; [lia|auto].
Qed.
End Timely.
