(* ===== verification/Eviction.v ===== *)
(** * Eviction: keeping a map of bounded size by dropping its oldest entries

    The idiom [prune_pipe_tombstones] of [routing.rs] and [prune_closed] of
    [conns.rs] share: collect [(id, age)] pairs, [sort_by_key] on the age, remove
    the overflow from the front. *)

From S2P Require Import Prelude.
Open Scope Z_scope.

(** The order of a [sort_by_key] on the second component. *)
Definition age_le (a b : Z * Z) : Prop := a.2 <= b.2.
#[global] Instance age_le_dec a b : Decision (age_le a b).
Proof. unfold age_le. apply _. Defined.

Section Eviction.
Context {HI : HashIter} {A : Type} (age : A -> Z).

(** The entries in order of age. *)
Definition aged (m : gmap Z A) : list (Z * Z) :=
  merge_sort age_le ((fun '(id, x) => (id, age x)) <$> hm_iter m).

Definition drop_oldest (limit : nat) (m : gmap Z A) : gmap Z A :=
  if (size m <=? limit)%nat then m
  else foldl (fun m '(id, _) => delete id m) m (take (size m - limit) (aged m)).

Lemma foldl_delete_size (m : gmap Z A) (l : list (Z * Z)) :
  NoDup l.*1 -> (forall x, x ∈ l -> is_Some (m !! x.1)) ->
  size (foldl (fun m '(id, _) => delete id m) m l) = (size m - length l)%nat /\
  forall id, foldl (fun m '(id, _) => delete id m) m l !! id
    = if bool_decide (id ∈ l.*1) then None else m !! id.
Proof.
  revert m. induction l as [|[i t] l IH]; intros m Hnd Hin; cbn.
  { split; [lia|]. intros id. rewrite bool_decide_eq_false_2; [done|set_solver]. }
  apply NoDup_cons in Hnd as [Hni Hnd]. destruct (Hin (i, t) ltac:(left)) as [x Hx]. cbn in Hx.
  destruct (IH (delete i m) Hnd) as [Hs Hl].
  { intros [j tj] Hj. cbn. rewrite lookup_delete_ne; [apply (Hin (j, tj)); by right|].
    intros ->. apply Hni, list_elem_of_fmap. by exists (j, tj). }
  split.
  - rewrite Hs, (map_size_delete_Some i m) by eauto. lia.
  - intros id. rewrite Hl. destruct (Z.eq_dec id i) as [->|Hne].
    + rewrite (bool_decide_eq_true_2 (i ∈ i :: l.*1)) by set_solver.
      rewrite lookup_delete_eq. by case_bool_decide.
    + rewrite lookup_delete_ne by done.
      destruct (decide (id ∈ l.*1)).
      * rewrite !bool_decide_eq_true_2 by set_solver. done.
      * rewrite !bool_decide_eq_false_2 by set_solver. done.
Qed.

Lemma elem_of_aged m id t :
  (id, t) ∈ aged m <-> exists x, m !! id = Some x /\ t = age x.
Proof.
  unfold aged. rewrite merge_sort_Permutation, list_elem_of_fmap. split.
  - intros ([i ts] & [= -> ->] & Hin). apply elem_of_hm_iter in Hin. eauto.
  - intros (ts & Hm & ->). exists (id, ts). by rewrite elem_of_hm_iter.
Qed.

Lemma aged_keys_NoDup m : NoDup (aged m).*1.
Proof.
  unfold aged. rewrite merge_sort_Permutation, <- list_fmap_compose.
  rewrite (list_fmap_ext _ fst); [apply NoDup_hm_keys|]. by intros ? [? ?].
Qed.

Lemma aged_sorted m : StronglySorted age_le (aged m).
Proof.
  apply StronglySorted_merge_sort.
  - intros x y z. unfold age_le. lia.
  - intros x y. unfold age_le. lia.
Qed.

Lemma length_aged m : length (aged m) = size m.
Proof. unfold aged. by rewrite merge_sort_Permutation, length_fmap, length_hm_iter. Qed.

(** Elements before and after a cut of a sorted list are ordered. *)
Lemma StronglySorted_cut {B} (R : B -> B -> Prop) (l : list B) k x y :
  StronglySorted R l -> x ∈ take k l -> y ∈ drop k l -> R x y.
Proof.
  revert k. induction l as [|z l IH]; intros [|k] Hs Hx Hy; cbn in *; try set_solver.
  apply StronglySorted_inv in Hs as [Hs Hz]. apply elem_of_cons in Hx as [->|Hx]; [|eauto].
  rewrite Forall_forall in Hz. apply Hz.
  rewrite <- (take_drop k l), elem_of_app. by right.
Qed.

(** The result is bounded, a part of the map, and what is dropped is no younger
    than what is kept. *)
Lemma drop_oldest_spec limit m :
  (size (drop_oldest limit m) <= limit)%nat /\
  (forall id x, drop_oldest limit m !! id = Some x -> m !! id = Some x) /\
  (forall id x, m !! id = Some x -> drop_oldest limit m !! id = None ->
     (limit < size m)%nat /\
     forall id' x', drop_oldest limit m !! id' = Some x' -> age x <= age x').
Proof.
  unfold drop_oldest.
  destruct (Nat.leb_spec (size m) limit) as [Hle|Hgt]; cbn.
  - split_and!; [done|done|]. intros id x Hx Hn. congruence.
  - set (k := (size m - limit)%nat).
    destruct (foldl_delete_size m (take k (aged m))) as [Hs Hl].
    { rewrite fmap_take. eapply sublist_NoDup; [apply aged_keys_NoDup|apply sublist_take]. }
    { intros [id t] Hin. apply (subseteq_take k), elem_of_aged in Hin as (x & Hx & _). eauto. }
    rewrite Hs, length_take, length_aged. split_and!; [lia| |].
    + intros id x. rewrite Hl. by case_bool_decide.
    + intros id x Hx. rewrite Hl. case_bool_decide as Hin; [|congruence].
      intros _. split; [done|]. intros id' x'. rewrite Hl.
      case_bool_decide as Hin'; [done|]. intros Hx'.
      apply list_elem_of_fmap in Hin as ([i t1] & -> & Hin).
      pose proof (subseteq_take k _ _ Hin) as (y & Hy & ->)%elem_of_aged.
      cbn in Hx. simplify_eq.
      assert ((id', age x') ∈ aged m) as Ha by (apply elem_of_aged; eauto).
      rewrite <- (take_drop k (aged m)), elem_of_app in Ha. destruct Ha as [Ha|Ha].
      * destruct Hin'. apply list_elem_of_fmap. by exists (id', age x').
      * exact (StronglySorted_cut _ _ _ _ _ (aged_sorted m) Hin Ha).
Qed.

(** An entry younger than all others is kept. *)
Lemma drop_oldest_youngest limit m id x :
  (0 < limit)%nat -> m !! id = Some x ->
  (forall id' x', m !! id' = Some x' -> id' <> id -> age x' < age x) ->
  drop_oldest limit m !! id = Some x.
Proof.
  intros Hlim Hx Hmax. destruct (drop_oldest_spec limit m) as (Hsz & Hsub & Hold).
  destruct (drop_oldest limit m !! id) as [y|] eqn:E.
  { apply Hsub in E. congruence. }
  destruct (Hold id x Hx E) as [Hgt Hy].
  destruct (decide (drop_oldest limit m = ∅)) as [He|Hne].
  - exfalso. unfold drop_oldest in He. destruct (Nat.leb_spec (size m) limit); [lia|].
    destruct (foldl_delete_size m (take (size m - limit) (aged m))) as [Hs _].
    { rewrite fmap_take. eapply sublist_NoDup; [apply aged_keys_NoDup|apply sublist_take]. }
    { intros [i t] Hin. apply subseteq_take, elem_of_aged in Hin as (z & Hz & _). eauto. }
    rewrite He, length_take, length_aged in Hs. rewrite map_size_empty in Hs. lia.
  - apply map_choose in Hne as (id' & x' & Hx'). apply Hy in Hx' as Hle.
    apply Hsub in Hx' as Hm. destruct (Z.eq_dec id' id) as [->|Hd]; [congruence|].
    specialize (Hmax _ _ Hm Hd). lia.
Qed.
End Eviction.
