(* ===== verification/Peer.v ===== *)
(** * Peer: the data of the per-peer lifecycle ([transport/peer.rs])

    All types of [peer.rs], with the source's constructors and fields, plus the
    operations the source defines on them ([LivenessClock], [PeerEntry::new],
    [DisconnectReason::from]) and the two enums of [transport.rs] and the
    [PeerSnapshot] of [store.rs] that the registry carries.

    Bounded [tokio::sync::mpsc] channels belong to a third-party crate; they are
    an interface ([Mpsc]) whose laws are the documented behaviour of
    [try_send].  Handles to channels and clocks are shared (cloned [Sender]s and
    [Arc]s), so a handle is an identifier and the contents live in a store
    ([Env]) that every holder sees. *)

From S2P Require Import Prelude.

(** ** Identifiers *)

(** [blew::DeviceId], identified by the string it displays as. *)
Abbreviation DeviceId := string (only parsing).
(** [iroh_base::EndpointId], identified by [as_bytes()]. *)
Abbreviation EndpointId := (list Z) (only parsing).
(** A characteristic's [uuid::Uuid] as a 128-bit integer. *)
Abbreviation Uuid := Z (only parsing).
(** [blew::L2capChannel] is moved around, never inspected. *)
Abbreviation L2capChannel := Z (only parsing).

Definition KEY_PREFIX_LEN : nat := 12.
Abbreviation KeyPrefix := (list Z) (only parsing).

(** [routing.rs]: the first [KEY_PREFIX_LEN] bytes of an endpoint's key. *)
Definition prefix_from_endpoint (endpoint : EndpointId) : KeyPrefix :=
  take KEY_PREFIX_LEN endpoint.

Module FragmentSource.
Inductive t := CentralReceivedP2c | PeripheralReceivedC2p.
#[global] Instance t_eq_dec : EqDecision t.
Proof. solve_decision. Defined.
End FragmentSource.

Module ConnectRole.
Inductive t := Central | Peripheral.
#[global] Instance t_eq_dec : EqDecision t.
Proof. solve_decision. Defined.
End ConnectRole.

Module ConnectPath.
Inductive t := L2cap | Gatt.
#[global] Instance t_eq_dec : EqDecision t.
Proof. solve_decision. Defined.
End ConnectPath.

Module StallCause.
Inductive t := LinkDead | LocalClose.
#[global] Instance t_eq_dec : EqDecision t.
Proof. solve_decision. Defined.
End StallCause.

(** [blew::DisconnectCause]; the enum is non-exhaustive, [Other] stands for the
    variants the source does not name. *)
Module DisconnectCause.
Inductive t :=
| LocalClose | RemoteClose | LinkLoss | AdapterOff | Gatt133 | Timeout
| Unknown (c : Z) | Other.
#[global] Instance t_eq_dec : EqDecision t.
Proof. solve_decision. Defined.
End DisconnectCause.

Module DisconnectReason.
Inductive t :=
| LocalClose | RemoteClose | LinkLoss | AdapterOff | Gatt133 | Timeout
| LinkDead | ProtocolMismatch | DedupLoser | Unknown (c : Z).
#[global] Instance t_eq_dec : EqDecision t.
Proof. solve_decision. Defined.

Definition from (cause : DisconnectCause.t) : t :=
  match cause with
  | DisconnectCause.LocalClose => LocalClose
  | DisconnectCause.RemoteClose => RemoteClose
  | DisconnectCause.LinkLoss => LinkLoss
  | DisconnectCause.AdapterOff => AdapterOff
  | DisconnectCause.Gatt133 => Gatt133
  | DisconnectCause.Timeout => Timeout
  | DisconnectCause.Unknown c => Unknown c
  | DisconnectCause.Other => Unknown (-1)
  end.

(** [#[derive(Debug)]], used in the [connect_failed:] metric. *)
Definition debug (r : t) : string :=
  match r with
  | LocalClose => "LocalClose"
  | RemoteClose => "RemoteClose"
  | LinkLoss => "LinkLoss"
  | AdapterOff => "AdapterOff"
  | Gatt133 => "Gatt133"
  | Timeout => "Timeout"
  | LinkDead => "LinkDead"
  | ProtocolMismatch => "ProtocolMismatch"
  | DedupLoser => "DedupLoser"
  | Unknown c => "Unknown(" +:+ pretty c +:+ ")"
  end.
End DisconnectReason.

Module DeadReason.
Inductive t := MaxRetries | Drained | ProtocolMismatch (got want : Z) | Forgotten.
#[global] Instance t_eq_dec : EqDecision t.
Proof. solve_decision. Defined.
End DeadReason.

(** [std::io::ErrorKind], the three kinds a send is acknowledged with. *)
Module ErrorKind.
Inductive t := WouldBlock | BrokenPipe | ConnectionAborted.
#[global] Instance t_eq_dec : EqDecision t.
Proof. solve_decision. Defined.
End ErrorKind.

(** [transport.rs]: [L2capPolicy] and [BleAdapterState]. *)
Module L2capPolicy.
Inductive t := Disabled | PreferL2cap.
#[global] Instance t_eq_dec : EqDecision t.
Proof. solve_decision. Defined.
End L2capPolicy.

Module BleAdapterState.
Inductive t := PoweredOn | PoweredOff.
#[global] Instance t_eq_dec : EqDecision t.
Proof. solve_decision. Defined.
End BleAdapterState.

(** [store.rs]: what is persisted about a peer. *)
Record PeerSnapshot := mkPeerSnapshot {
  last_device_id : string;
  last_seen : Z;
}.

Record ChannelHandle := mkChannelHandle {
  ch_id : Z;
  ch_path : ConnectPath.t;
}.
#[global] Instance ChannelHandle_eq_dec : EqDecision ChannelHandle.
Proof. solve_decision. Defined.

Record PendingSend := mkPendingSend {
  ps_tx_gen : Z;
  ps_datagram : Bytes;
  ps_waker : Waker;
}.

(** Handles into [Env]. *)
Abbreviation OutboundTx := Z (only parsing).
Abbreviation InboundTx := Z (only parsing).
Abbreviation SwapTx := Z (only parsing).
Abbreviation ClockId := Z (only parsing).

Record PipeHandles := mkPipeHandles {
  outbound_tx : OutboundTx;
  inbound_tx : InboundTx;
  swap_tx : SwapTx;
  last_rx_at : ClockId;
}.

Module PeerPhase.
Inductive t :=
| Unknown
| Discovered (since : Instant)
| PendingDial (since deadline : Instant) (prefix : KeyPrefix)
| Connecting (attempt : Z) (started : Instant) (path : ConnectPath.t)
| Handshaking (since : Instant) (channel : ChannelHandle)
| Connected (since : Instant) (channel : ChannelHandle) (tx_gen : Z) (upgrading : bool)
| Draining (since : Instant) (reason : DisconnectReason.t)
| Reconnecting (attempt : Z) (next_at : Instant) (reason : DisconnectReason.t)
| Dead (reason : DeadReason.t) (at_ : Instant)
| Restoring (since : Instant).
#[global] Instance t_eq_dec : EqDecision t.
Proof. solve_decision. Defined.

(** [matches!(phase, PeerPhase::X { .. })]. *)
Definition is_connected (p : t) : bool :=
  match p with Connected _ _ _ _ => true | _ => false end.
Definition is_dead (p : t) : bool :=
  match p with Dead _ _ => true | _ => false end.
Definition is_draining (p : t) : bool :=
  match p with Draining _ _ => true | _ => false end.
Definition is_connecting (p : t) : bool :=
  match p with Connecting _ _ _ => true | _ => false end.
Definition is_restoring (p : t) : bool :=
  match p with Restoring _ => true | _ => false end.
Definition is_handshaking (p : t) : bool :=
  match p with Handshaking _ _ => true | _ => false end.

(** The channel a [Connected] or [Handshaking] phase holds. *)
Definition live_channel (p : t) : option ChannelHandle :=
  match p with
  | Connected _ ch _ _ | Handshaking _ ch => Some ch
  | _ => None
  end.
End PeerPhase.

(** [PeerEntry], with one setter per field (a Rust field assignment). *)
Record PeerEntry := mkPeerEntry {
  device_id : DeviceId;
  phase : PeerPhase.t;
  last_adv : option Instant;
  last_rx : option Instant;
  last_tx : option Instant;
  consecutive_failures : Z;
  tx_gen : Z;
  lifecycle_id : Z;
  upgrade_gen : Z;
  pending_sends : list PendingSend;
  role : ConnectRole.t;
  pipe : option PipeHandles;
  rx_backlog : list Bytes;
  l2cap_channel : option L2capChannel;
  subscribed_chars : gset Z;
  prefix : option KeyPrefix;
  target_endpoint : option EndpointId;
  verified_endpoint : option EndpointId;
  verified_at : option Instant;
  l2cap_upgrade_failed : bool;
  verified_live_suppressed_logged : bool;
  resume_after_drain : bool;
}.

Definition set_phase (v : PeerPhase.t) (e : PeerEntry) : PeerEntry :=
  mkPeerEntry (e.(device_id)) v (e.(last_adv)) (e.(last_rx)) (e.(last_tx))
    (e.(consecutive_failures)) (e.(tx_gen)) (e.(lifecycle_id)) (e.(upgrade_gen))
    (e.(pending_sends)) (e.(role)) (e.(pipe)) (e.(rx_backlog)) (e.(l2cap_channel))
    (e.(subscribed_chars)) (e.(prefix)) (e.(target_endpoint)) (e.(verified_endpoint))
    (e.(verified_at)) (e.(l2cap_upgrade_failed)) (e.(verified_live_suppressed_logged))
    (e.(resume_after_drain)).
Definition set_last_adv (v : option Instant) (e : PeerEntry) : PeerEntry :=
  mkPeerEntry (e.(device_id)) (e.(phase)) v (e.(last_rx)) (e.(last_tx))
    (e.(consecutive_failures)) (e.(tx_gen)) (e.(lifecycle_id)) (e.(upgrade_gen))
    (e.(pending_sends)) (e.(role)) (e.(pipe)) (e.(rx_backlog)) (e.(l2cap_channel))
    (e.(subscribed_chars)) (e.(prefix)) (e.(target_endpoint)) (e.(verified_endpoint))
    (e.(verified_at)) (e.(l2cap_upgrade_failed)) (e.(verified_live_suppressed_logged))
    (e.(resume_after_drain)).
Definition set_last_rx (v : option Instant) (e : PeerEntry) : PeerEntry :=
  mkPeerEntry (e.(device_id)) (e.(phase)) (e.(last_adv)) v (e.(last_tx))
    (e.(consecutive_failures)) (e.(tx_gen)) (e.(lifecycle_id)) (e.(upgrade_gen))
    (e.(pending_sends)) (e.(role)) (e.(pipe)) (e.(rx_backlog)) (e.(l2cap_channel))
    (e.(subscribed_chars)) (e.(prefix)) (e.(target_endpoint)) (e.(verified_endpoint))
    (e.(verified_at)) (e.(l2cap_upgrade_failed)) (e.(verified_live_suppressed_logged))
    (e.(resume_after_drain)).
Definition set_consecutive_failures (v : Z) (e : PeerEntry) : PeerEntry :=
  mkPeerEntry (e.(device_id)) (e.(phase)) (e.(last_adv)) (e.(last_rx)) (e.(last_tx)) v
    (e.(tx_gen)) (e.(lifecycle_id)) (e.(upgrade_gen)) (e.(pending_sends)) (e.(role))
    (e.(pipe)) (e.(rx_backlog)) (e.(l2cap_channel)) (e.(subscribed_chars)) (e.(prefix))
    (e.(target_endpoint)) (e.(verified_endpoint)) (e.(verified_at))
    (e.(l2cap_upgrade_failed)) (e.(verified_live_suppressed_logged))
    (e.(resume_after_drain)).
Definition set_tx_gen (v : Z) (e : PeerEntry) : PeerEntry :=
  mkPeerEntry (e.(device_id)) (e.(phase)) (e.(last_adv)) (e.(last_rx)) (e.(last_tx))
    (e.(consecutive_failures)) v (e.(lifecycle_id)) (e.(upgrade_gen))
    (e.(pending_sends)) (e.(role)) (e.(pipe)) (e.(rx_backlog)) (e.(l2cap_channel))
    (e.(subscribed_chars)) (e.(prefix)) (e.(target_endpoint)) (e.(verified_endpoint))
    (e.(verified_at)) (e.(l2cap_upgrade_failed)) (e.(verified_live_suppressed_logged))
    (e.(resume_after_drain)).
Definition set_lifecycle_id (v : Z) (e : PeerEntry) : PeerEntry :=
  mkPeerEntry (e.(device_id)) (e.(phase)) (e.(last_adv)) (e.(last_rx)) (e.(last_tx))
    (e.(consecutive_failures)) (e.(tx_gen)) v (e.(upgrade_gen)) (e.(pending_sends))
    (e.(role)) (e.(pipe)) (e.(rx_backlog)) (e.(l2cap_channel)) (e.(subscribed_chars))
    (e.(prefix)) (e.(target_endpoint)) (e.(verified_endpoint)) (e.(verified_at))
    (e.(l2cap_upgrade_failed)) (e.(verified_live_suppressed_logged))
    (e.(resume_after_drain)).
Definition set_upgrade_gen (v : Z) (e : PeerEntry) : PeerEntry :=
  mkPeerEntry (e.(device_id)) (e.(phase)) (e.(last_adv)) (e.(last_rx)) (e.(last_tx))
    (e.(consecutive_failures)) (e.(tx_gen)) (e.(lifecycle_id)) v (e.(pending_sends))
    (e.(role)) (e.(pipe)) (e.(rx_backlog)) (e.(l2cap_channel)) (e.(subscribed_chars))
    (e.(prefix)) (e.(target_endpoint)) (e.(verified_endpoint)) (e.(verified_at))
    (e.(l2cap_upgrade_failed)) (e.(verified_live_suppressed_logged))
    (e.(resume_after_drain)).
Definition set_pending_sends (v : list PendingSend) (e : PeerEntry) : PeerEntry :=
  mkPeerEntry (e.(device_id)) (e.(phase)) (e.(last_adv)) (e.(last_rx)) (e.(last_tx))
    (e.(consecutive_failures)) (e.(tx_gen)) (e.(lifecycle_id)) (e.(upgrade_gen)) v
    (e.(role)) (e.(pipe)) (e.(rx_backlog)) (e.(l2cap_channel)) (e.(subscribed_chars))
    (e.(prefix)) (e.(target_endpoint)) (e.(verified_endpoint)) (e.(verified_at))
    (e.(l2cap_upgrade_failed)) (e.(verified_live_suppressed_logged))
    (e.(resume_after_drain)).
Definition set_role (v : ConnectRole.t) (e : PeerEntry) : PeerEntry :=
  mkPeerEntry (e.(device_id)) (e.(phase)) (e.(last_adv)) (e.(last_rx)) (e.(last_tx))
    (e.(consecutive_failures)) (e.(tx_gen)) (e.(lifecycle_id)) (e.(upgrade_gen))
    (e.(pending_sends)) v (e.(pipe)) (e.(rx_backlog)) (e.(l2cap_channel))
    (e.(subscribed_chars)) (e.(prefix)) (e.(target_endpoint)) (e.(verified_endpoint))
    (e.(verified_at)) (e.(l2cap_upgrade_failed)) (e.(verified_live_suppressed_logged))
    (e.(resume_after_drain)).
Definition set_pipe (v : option PipeHandles) (e : PeerEntry) : PeerEntry :=
  mkPeerEntry (e.(device_id)) (e.(phase)) (e.(last_adv)) (e.(last_rx)) (e.(last_tx))
    (e.(consecutive_failures)) (e.(tx_gen)) (e.(lifecycle_id)) (e.(upgrade_gen))
    (e.(pending_sends)) (e.(role)) v (e.(rx_backlog)) (e.(l2cap_channel))
    (e.(subscribed_chars)) (e.(prefix)) (e.(target_endpoint)) (e.(verified_endpoint))
    (e.(verified_at)) (e.(l2cap_upgrade_failed)) (e.(verified_live_suppressed_logged))
    (e.(resume_after_drain)).
Definition set_rx_backlog (v : list Bytes) (e : PeerEntry) : PeerEntry :=
  mkPeerEntry (e.(device_id)) (e.(phase)) (e.(last_adv)) (e.(last_rx)) (e.(last_tx))
    (e.(consecutive_failures)) (e.(tx_gen)) (e.(lifecycle_id)) (e.(upgrade_gen))
    (e.(pending_sends)) (e.(role)) (e.(pipe)) v (e.(l2cap_channel))
    (e.(subscribed_chars)) (e.(prefix)) (e.(target_endpoint)) (e.(verified_endpoint))
    (e.(verified_at)) (e.(l2cap_upgrade_failed)) (e.(verified_live_suppressed_logged))
    (e.(resume_after_drain)).
Definition set_l2cap_channel (v : option L2capChannel) (e : PeerEntry) : PeerEntry :=
  mkPeerEntry (e.(device_id)) (e.(phase)) (e.(last_adv)) (e.(last_rx)) (e.(last_tx))
    (e.(consecutive_failures)) (e.(tx_gen)) (e.(lifecycle_id)) (e.(upgrade_gen))
    (e.(pending_sends)) (e.(role)) (e.(pipe)) (e.(rx_backlog)) v (e.(subscribed_chars))
    (e.(prefix)) (e.(target_endpoint)) (e.(verified_endpoint)) (e.(verified_at))
    (e.(l2cap_upgrade_failed)) (e.(verified_live_suppressed_logged))
    (e.(resume_after_drain)).
Definition set_subscribed_chars (v : gset Z) (e : PeerEntry) : PeerEntry :=
  mkPeerEntry (e.(device_id)) (e.(phase)) (e.(last_adv)) (e.(last_rx)) (e.(last_tx))
    (e.(consecutive_failures)) (e.(tx_gen)) (e.(lifecycle_id)) (e.(upgrade_gen))
    (e.(pending_sends)) (e.(role)) (e.(pipe)) (e.(rx_backlog)) (e.(l2cap_channel)) v
    (e.(prefix)) (e.(target_endpoint)) (e.(verified_endpoint)) (e.(verified_at))
    (e.(l2cap_upgrade_failed)) (e.(verified_live_suppressed_logged))
    (e.(resume_after_drain)).
Definition set_prefix (v : option KeyPrefix) (e : PeerEntry) : PeerEntry :=
  mkPeerEntry (e.(device_id)) (e.(phase)) (e.(last_adv)) (e.(last_rx)) (e.(last_tx))
    (e.(consecutive_failures)) (e.(tx_gen)) (e.(lifecycle_id)) (e.(upgrade_gen))
    (e.(pending_sends)) (e.(role)) (e.(pipe)) (e.(rx_backlog)) (e.(l2cap_channel))
    (e.(subscribed_chars)) v (e.(target_endpoint)) (e.(verified_endpoint))
    (e.(verified_at)) (e.(l2cap_upgrade_failed)) (e.(verified_live_suppressed_logged))
    (e.(resume_after_drain)).
Definition set_target_endpoint (v : option EndpointId) (e : PeerEntry) : PeerEntry :=
  mkPeerEntry (e.(device_id)) (e.(phase)) (e.(last_adv)) (e.(last_rx)) (e.(last_tx))
    (e.(consecutive_failures)) (e.(tx_gen)) (e.(lifecycle_id)) (e.(upgrade_gen))
    (e.(pending_sends)) (e.(role)) (e.(pipe)) (e.(rx_backlog)) (e.(l2cap_channel))
    (e.(subscribed_chars)) (e.(prefix)) v (e.(verified_endpoint)) (e.(verified_at))
    (e.(l2cap_upgrade_failed)) (e.(verified_live_suppressed_logged))
    (e.(resume_after_drain)).
Definition set_verified_endpoint (v : option EndpointId) (e : PeerEntry) : PeerEntry :=
  mkPeerEntry (e.(device_id)) (e.(phase)) (e.(last_adv)) (e.(last_rx)) (e.(last_tx))
    (e.(consecutive_failures)) (e.(tx_gen)) (e.(lifecycle_id)) (e.(upgrade_gen))
    (e.(pending_sends)) (e.(role)) (e.(pipe)) (e.(rx_backlog)) (e.(l2cap_channel))
    (e.(subscribed_chars)) (e.(prefix)) (e.(target_endpoint)) v (e.(verified_at))
    (e.(l2cap_upgrade_failed)) (e.(verified_live_suppressed_logged))
    (e.(resume_after_drain)).
Definition set_verified_at (v : option Instant) (e : PeerEntry) : PeerEntry :=
  mkPeerEntry (e.(device_id)) (e.(phase)) (e.(last_adv)) (e.(last_rx)) (e.(last_tx))
    (e.(consecutive_failures)) (e.(tx_gen)) (e.(lifecycle_id)) (e.(upgrade_gen))
    (e.(pending_sends)) (e.(role)) (e.(pipe)) (e.(rx_backlog)) (e.(l2cap_channel))
    (e.(subscribed_chars)) (e.(prefix)) (e.(target_endpoint)) (e.(verified_endpoint)) v
    (e.(l2cap_upgrade_failed)) (e.(verified_live_suppressed_logged))
    (e.(resume_after_drain)).
Definition set_l2cap_upgrade_failed (v : bool) (e : PeerEntry) : PeerEntry :=
  mkPeerEntry (e.(device_id)) (e.(phase)) (e.(last_adv)) (e.(last_rx)) (e.(last_tx))
    (e.(consecutive_failures)) (e.(tx_gen)) (e.(lifecycle_id)) (e.(upgrade_gen))
    (e.(pending_sends)) (e.(role)) (e.(pipe)) (e.(rx_backlog)) (e.(l2cap_channel))
    (e.(subscribed_chars)) (e.(prefix)) (e.(target_endpoint)) (e.(verified_endpoint))
    (e.(verified_at)) v (e.(verified_live_suppressed_logged)) (e.(resume_after_drain)).
Definition set_verified_live_suppressed_logged (v : bool) (e : PeerEntry) : PeerEntry :=
  mkPeerEntry (e.(device_id)) (e.(phase)) (e.(last_adv)) (e.(last_rx)) (e.(last_tx))
    (e.(consecutive_failures)) (e.(tx_gen)) (e.(lifecycle_id)) (e.(upgrade_gen))
    (e.(pending_sends)) (e.(role)) (e.(pipe)) (e.(rx_backlog)) (e.(l2cap_channel))
    (e.(subscribed_chars)) (e.(prefix)) (e.(target_endpoint)) (e.(verified_endpoint))
    (e.(verified_at)) (e.(l2cap_upgrade_failed)) v (e.(resume_after_drain)).
Definition set_resume_after_drain (v : bool) (e : PeerEntry) : PeerEntry :=
  mkPeerEntry (e.(device_id)) (e.(phase)) (e.(last_adv)) (e.(last_rx)) (e.(last_tx))
    (e.(consecutive_failures)) (e.(tx_gen)) (e.(lifecycle_id)) (e.(upgrade_gen))
    (e.(pending_sends)) (e.(role)) (e.(pipe)) (e.(rx_backlog)) (e.(l2cap_channel))
    (e.(subscribed_chars)) (e.(prefix)) (e.(target_endpoint)) (e.(verified_endpoint))
    (e.(verified_at)) (e.(l2cap_upgrade_failed)) (e.(verified_live_suppressed_logged))
    v.

(** [PeerEntry::new]. *)
Definition PeerEntry_new (device_id : DeviceId) : PeerEntry := {|
  device_id := device_id;
  phase := PeerPhase.Unknown;
  last_adv := None;
  last_rx := None;
  last_tx := None;
  consecutive_failures := 0;
  tx_gen := 0;
  lifecycle_id := 0;
  upgrade_gen := 0;
  pending_sends := [];
  role := ConnectRole.Central;
  pipe := None;
  rx_backlog := [];
  l2cap_channel := None;
  subscribed_chars := ∅;
  prefix := None;
  target_endpoint := None;
  verified_endpoint := None;
  verified_at := None;
  l2cap_upgrade_failed := false;
  verified_live_suppressed_logged := false;
  resume_after_drain := false
|}.
#[global] Arguments set_phase v e /.
#[global] Arguments set_last_adv v e /.
#[global] Arguments set_last_rx v e /.
#[global] Arguments set_consecutive_failures v e /.
#[global] Arguments set_tx_gen v e /.
#[global] Arguments set_lifecycle_id v e /.
#[global] Arguments set_upgrade_gen v e /.
#[global] Arguments set_pending_sends v e /.
#[global] Arguments set_role v e /.
#[global] Arguments set_pipe v e /.
#[global] Arguments set_rx_backlog v e /.
#[global] Arguments set_l2cap_channel v e /.
#[global] Arguments set_subscribed_chars v e /.
#[global] Arguments set_prefix v e /.
#[global] Arguments set_target_endpoint v e /.
#[global] Arguments set_verified_endpoint v e /.
#[global] Arguments set_verified_at v e /.
#[global] Arguments set_l2cap_upgrade_failed v e /.
#[global] Arguments set_verified_live_suppressed_logged v e /.
#[global] Arguments set_resume_after_drain v e /.

Module PeerCommand.
Inductive t :=
| Advertised (prefix : KeyPrefix) (device_id : DeviceId) (rssi : option Z)
| CentralConnected (device_id : DeviceId)
| CentralDisconnected (device_id : DeviceId) (cause : DisconnectCause.t)
| InboundGattFragment (device_id : DeviceId) (source : FragmentSource.t) (bytes : Bytes)
| InboundL2capChannel (device_id : DeviceId) (channel : L2capChannel)
| AdapterStateChanged (powered : bool)
| SendDatagram (device_id : DeviceId) (target_endpoint : option EndpointId) (tx_gen : Z)
    (datagram : Bytes) (waker : Waker)
| Tick (now : Instant)
| ConnectSucceeded (device_id : DeviceId) (lifecycle_id : Z) (channel : ChannelHandle)
| ConnectFailed (device_id : DeviceId) (lifecycle_id : Z) (error : string)
| OpenL2capSucceeded (device_id : DeviceId) (lifecycle_id upgrade_gen : Z)
    (channel : L2capChannel)
| OpenL2capFailed (device_id : DeviceId) (lifecycle_id upgrade_gen : Z) (error : string)
| ProtocolVersionMismatch (device_id : DeviceId) (lifecycle_id got want : Z)
| Stalled (device_id : DeviceId) (cause : StallCause.t)
| Forget (device_id : DeviceId)
| DataPipeReady (device_id : DeviceId) (tx_gen : Z) (outbound_tx : OutboundTx)
    (inbound_tx : InboundTx) (swap_tx : SwapTx) (last_rx_at : ClockId)
| VerifiedEndpoint (endpoint_id : EndpointId) (token : option Z)
| PeripheralClientSubscribed (client_id : DeviceId) (char_uuid : Uuid)
    (prefix : option KeyPrefix)
| PeripheralClientUnsubscribed (client_id : DeviceId) (char_uuid : Uuid)
| L2capHandoverTimeout (device_id : DeviceId)
| Shutdown.
End PeerCommand.

Module PeerAction.
Inductive t :=
| StartConnect (device_id : DeviceId) (attempt lifecycle_id : Z)
| ReadVersion (device_id : DeviceId) (lifecycle_id : Z)
| RetireLifecycle (device_id : DeviceId) (lifecycle_id : Z)
| CloseChannel (device_id : DeviceId) (lifecycle_id : Z) (channel : ChannelHandle)
    (reason : DisconnectReason.t)
| CloseNativeConnection (device_id : DeviceId) (lifecycle_id : Z)
| Refresh (device_id : DeviceId) (lifecycle_id : Z)
| AckSend (tx_gen : Z) (waker : Waker) (result : unit + ErrorKind.t)
| RestorePeripheral (restart_l2cap : bool)
| RestartScan
| StartDataPipe (device_id : DeviceId) (lifecycle_id tx_gen : Z) (role : ConnectRole.t)
    (target_endpoint : option EndpointId) (path : ConnectPath.t)
    (l2cap_channel : option L2capChannel)
| UpgradeToL2cap (device_id : DeviceId) (lifecycle_id upgrade_gen : Z)
| SwapPipeToL2cap (device_id : DeviceId) (channel : L2capChannel) (swap_tx : SwapTx)
| PutPeerStore (prefix : KeyPrefix) (snapshot : PeerSnapshot)
| ForgetPeerStore (prefix : KeyPrefix)
| EmitMetric (ev : string).
End PeerAction.

(** ** Bounded channels and liveness clocks *)

Module TrySend.
Inductive t (A : Type) := Ok | Full (x : A) | Closed (x : A).
#[global] Arguments Ok {A}.
#[global] Arguments Full {A} x.
#[global] Arguments Closed {A} x.
End TrySend.

(** [tokio::sync::mpsc], as documented: [try_send] either queues the value at
    the tail, or gives the value back ([Full], [Closed]) and changes nothing. *)
Class Mpsc := {
  chan : Type -> Type;
  chan_items : forall {A}, chan A -> list A;
  chan_try_send : forall {A}, chan A -> A -> TrySend.t A * chan A;
  chan_try_send_spec : forall {A} (c : chan A) (x : A),
    match chan_try_send c x with
    | (TrySend.Ok, c') => chan_items c' = chan_items c ++ [x]
    | (TrySend.Full y, c') => y = x /\ c' = c
    | (TrySend.Closed y, c') => y = x /\ c' = c
    end;
  (** [mpsc::channel(capacity)] *)
  chan_new : forall {A}, nat -> chan A;
  chan_new_items : forall {A} cap, chan_items (chan_new (A:=A) cap) = [];
  (** being full does not depend on the value offered *)
  chan_try_send_full : forall {A} (c : chan A) (x y x' : A) c',
    chan_try_send c x = (TrySend.Full x', c') -> (chan_try_send c y).1 = TrySend.Full y;
}.

(** A concrete bounded channel: capacity, queue, and whether the receiver is
    still there. *)
Record BoundedChan (A : Type) := mkBoundedChan {
  bc_cap : nat;
  bc_items : list A;
  bc_open : bool;
}.
#[global] Arguments mkBoundedChan {A} _ _ _.
#[global] Arguments bc_cap {A} _.
#[global] Arguments bc_items {A} _.
#[global] Arguments bc_open {A} _.

Definition bounded_try_send {A} (c : BoundedChan A) (x : A)
    : TrySend.t A * BoundedChan A :=
  if bc_open c then
    if (length (bc_items c) <? bc_cap c)%nat
    then (TrySend.Ok, mkBoundedChan (bc_cap c) (bc_items c ++ [x]) true)
    else (TrySend.Full x, c)
  else (TrySend.Closed x, c).

#[global, refine] Instance bounded_mpsc : Mpsc := {
  chan := BoundedChan;
  chan_items A c := bc_items c;
  chan_try_send A c x := bounded_try_send c x;
  chan_new A cap := mkBoundedChan cap [] true;
}.
Proof.
  - intros A c x. unfold bounded_try_send.
    destruct (bc_open c); [destruct (_ <? _)%nat|]; done.
  - done.
  - intros A c x y x' c'. unfold bounded_try_send.
    destruct (bc_open c); [destruct (_ <? _)%nat|]; done.
Defined.

(** The shared store behind the handles. *)
Record Env `{Mpsc} := mkEnv {
  out_chans : gmap Z (chan PendingSend);
  in_chans : gmap Z (chan Bytes);
  clocks : gmap Z Instant;
}.

Section EnvOps.
Context `{Mpsc}.

(** [Sender::try_send] through a handle.  A handle whose channel is not in the
    store has lost its receiver. *)
Definition out_try_send (h : OutboundTx) (x : PendingSend) (env : Env)
    : TrySend.t PendingSend * Env :=
  match out_chans env !! h with
  | Some c =>
      let '(r, c') := chan_try_send c x in
      (r, mkEnv _ (<[h := c']> (out_chans env)) (in_chans env) (clocks env))
  | None => (TrySend.Closed x, env)
  end.

Definition in_try_send (h : InboundTx) (x : Bytes) (env : Env)
    : TrySend.t Bytes * Env :=
  match in_chans env !! h with
  | Some c =>
      let '(r, c') := chan_try_send c x in
      (r, mkEnv _ (out_chans env) (<[h := c']> (in_chans env)) (clocks env))
  | None => (TrySend.Closed x, env)
  end.

(** [LivenessClock::new], [bump] and [last]. *)
Definition clock_new (id : ClockId) (now : Instant) (env : Env) : Env :=
  mkEnv _ (out_chans env) (in_chans env) (<[id := now]> (clocks env)).
Definition clock_bump (id : ClockId) (now : Instant) (env : Env) : Env :=
  mkEnv _ (out_chans env) (in_chans env) (<[id := now]> (clocks env)).
Definition clock_last (id : ClockId) (env : Env) : Instant :=
  default 0 (clocks env !! id).

(** Items queued in an outbound channel. *)
Definition out_items (h : OutboundTx) (env : Env) : list PendingSend :=
  from_option chan_items [] (out_chans env !! h).

Lemma out_try_send_spec h x env :
  match out_try_send h x env with
  | (TrySend.Ok, env') => out_items h env' = out_items h env ++ [x]
  | (TrySend.Full y, env') => y = x /\ out_items h env' = out_items h env
  | (TrySend.Closed y, env') => y = x /\ out_items h env' = out_items h env
  end.
Proof.
  unfold out_try_send, out_items. destruct (out_chans env !! h) as [c|] eqn:E.
  - pose proof (chan_try_send_spec c x) as Hs.
    destruct (chan_try_send c x) as [[|y|y] c']; cbn; rewrite lookup_insert_eq; cbn.
    + done.
    + by destruct Hs as [-> ->].
    + by destruct Hs as [-> ->].
  - by rewrite E.
Qed.

Lemma out_try_send_full h x y x' env env' :
  out_try_send h x env = (TrySend.Full x', env') ->
  (out_try_send h y env').1 = TrySend.Full y.
Proof.
  unfold out_try_send. destruct (out_chans env !! h) as [c|] eqn:E; [|done].
  destruct (chan_try_send c x) as [r c'] eqn:Ec. intros [= -> <-]. cbn.
  rewrite lookup_insert_eq. pose proof (chan_try_send_spec c x) as Hs. rewrite Ec in Hs.
  destruct Hs as [_ ->]. apply (chan_try_send_full c x y) in Ec.
  by destruct (chan_try_send c y) as [r' c''].
Qed.

Lemma out_try_send_clocks h x env : clocks (out_try_send h x env).2 = clocks env.
Proof.
  unfold out_try_send. destruct (out_chans env !! h); [|done].
  by destruct (chan_try_send _ _).
Qed.

Lemma in_try_send_out_items h x env h' :
  out_items h' (in_try_send h x env).2 = out_items h' env.
Proof.
  unfold in_try_send, out_items. destruct (in_chans env !! h); [|done].
  by destruct (chan_try_send _ _).
Qed.
End EnvOps.
