(* ===== verification/Dedup.v ===== *)
(** * Dedup: the tie-breaker between duplicate connections ([transport/dedup.rs])

    [should_win] and [should_dial_l2cap], and the fact that makes them a
    tie-breaker: the two ends of a pair, computing on their own, agree. *)

From S2P Require Import Prelude Peer.

Definition FAIRNESS_WINDOW : Duration := from_millis 800.
Definition FAIRNESS_JITTER : Duration := from_millis 150.
Definition L2CAP_HANDOVER_TIMEOUT : Duration := from_secs 1.

Definition should_win (this_role : ConnectRole.t) (my_endpoint peer_endpoint : EndpointId)
    : bool :=
  match bytes_cmp my_endpoint peer_endpoint with
  | Gt | Eq => match this_role with ConnectRole.Central => true | _ => false end
  | Lt => match this_role with ConnectRole.Peripheral => true | _ => false end
  end.

Definition should_dial_l2cap (this_role : ConnectRole.t)
    (my_endpoint peer_endpoint : EndpointId) : bool :=
  match this_role with
  | ConnectRole.Central => should_win this_role my_endpoint peer_endpoint
  | ConnectRole.Peripheral => false
  end.

(** The role the other end of the same physical connection plays. *)
Definition opposite (r : ConnectRole.t) : ConnectRole.t :=
  match r with
  | ConnectRole.Central => ConnectRole.Peripheral
  | ConnectRole.Peripheral => ConnectRole.Central
  end.

Lemma should_win_opposite r a b :
  should_win (opposite r) a b = negb (should_win r a b).
Proof. unfold should_win. by destruct r, (bytes_cmp a b). Qed.

Lemma should_win_swap r a b :
  a <> b -> should_win (opposite r) b a = should_win r a b.
Proof.
  intros Hne. unfold should_win. rewrite (bytes_cmp_antisym a b).
  destruct (bytes_cmp a b) eqn:E; [by apply bytes_cmp_eq in E|..]; by destruct r.
Qed.

(** C31. The two ends of a connection agree on it.  For distinct endpoints, on the
    connection on which [a] plays [r] and [b] the opposite role: it survives on
    [a]'s side iff it survives on [b]'s, exactly one of [a]'s two roles wins, and
    the survivor is the connection the higher endpoint dialled.  On a surviving
    connection exactly one end dials the L2CAP channel, the one that dialled the
    connection; on one that does not survive neither end dials it. *)
Theorem should_win_agreement (a b : EndpointId) (r : ConnectRole.t) :
  a <> b ->
  should_win r a b = should_win (opposite r) b a /\
  should_win r a b = negb (should_win (opposite r) a b) /\
  should_win ConnectRole.Central a b = bytes_ltb b a /\
  (should_win r a b = true ->
     should_dial_l2cap r a b = negb (should_dial_l2cap (opposite r) b a) /\
     (should_dial_l2cap r a b = true <-> r = ConnectRole.Central)) /\
  (should_win r a b = false ->
     should_dial_l2cap r a b = false /\ should_dial_l2cap (opposite r) b a = false).
Proof.
  intros Hne. split_and!.
  - by rewrite should_win_swap.
  - by rewrite should_win_opposite, negb_involutive.
  - unfold should_win, bytes_ltb. rewrite (bytes_cmp_antisym a b).
    destruct (bytes_cmp a b) eqn:E; [by apply bytes_cmp_eq in E|done..].
  - pose proof (should_win_swap r a b Hne) as Hs. intros Hw. rewrite Hw in Hs.
    unfold should_dial_l2cap. by destruct r; cbn in *; rewrite ?Hs, ?Hw.
  - pose proof (should_win_swap r a b Hne) as Hs. intros Hw. rewrite Hw in Hs.
    unfold should_dial_l2cap. by destruct r; cbn in *; rewrite ?Hs, ?Hw.
Qed.

Lemma should_win_agreement_witness :
  [255; 1] <> [1; 255] /\
  should_win ConnectRole.Peripheral [1; 255] [255; 1] = true /\
  should_dial_l2cap ConnectRole.Central [255; 1] [1; 255] = true /\
  should_dial_l2cap ConnectRole.Peripheral [1; 255] [255; 1] = false.
Proof.
  assert ([255; 1] <> [1; 255]) as Hne by discriminate.
  destruct (should_win_agreement [255; 1] [1; 255] ConnectRole.Central Hne) as (H & _ & _ & Hd & _).
  destruct (Hd eq_refl) as [He Hc]. split; [exact Hne|]. split; [exact (eq_sym H)|].
  assert (should_dial_l2cap ConnectRole.Central [255; 1] [1; 255] = true) as Hd1 by (by apply Hc).
  split; [exact Hd1|]. rewrite Hd1 in He. apply negb_true_iff. exact (eq_sym He).
Defined.
