(* ===== verification/Mtu.v ===== *)
(** * Mtu: from an ATT MTU to a chunk size ([transport/mtu.rs])

    [resolve_chunk_size] polls the platform until the reading is sane or a
    deadline has passed.  The platform ([BleInterface::mtu]) and the clock are
    the environment: poll number [i] observes the reading [mtu_at i] and, when
    the reading is not sane, the instant [now_at i]. *)

From S2P Require Import Prelude Peer.

Definition MAX_CHUNK_SIZE : Z := 509.
Definition MIN_SANE_MTU : Z := 24.
Definition DEFAULT_FALLBACK_MTU : Z := 512.
Definition MTU_READY_DEADLINE : Duration := from_secs 3.
Definition MTU_POLL_INTERVAL : Duration := from_millis 50.
Definition ATT_OVERHEAD : Z := 3.
Definition MAX_DATAGRAM_SIZE : Z := 1472.

Section Resolve.
Variable mtu_at : nat -> Z.
Variable now_at : nat -> Instant.

(** The polling loop from poll [i] on; [None] is "still polling when the fuel
    ran out". *)
Fixpoint poll_mtu (fuel i : nat) (deadline : Instant) : option Z :=
  match fuel with
  | O => None
  | S fuel' =>
      let m := mtu_at i in
      if MIN_SANE_MTU <=? m then Some m
      else if deadline <=? now_at i then Some DEFAULT_FALLBACK_MTU
      else poll_mtu fuel' (S i) deadline
  end.

Definition chunk_of_mtu (mtu : Z) : Z :=
  Z.min (saturating_sub mtu ATT_OVERHEAD) MAX_CHUNK_SIZE.

Definition resolve_chunk_size (fuel : nat) (start : Instant) : option Z :=
  chunk_of_mtu <$> poll_mtu fuel 0 (start + MTU_READY_DEADLINE).

End Resolve.

(** The number of polls that fit before the deadline, plus the one that sees it
    passed. *)
Definition POLL_BOUND : nat := 61.

Lemma poll_mtu_sane mtu_at now_at fuel i deadline m :
  poll_mtu mtu_at now_at fuel i deadline = Some m ->
  m = DEFAULT_FALLBACK_MTU \/ (MIN_SANE_MTU <= m /\ exists j, m = mtu_at j).
Proof.
  revert i; induction fuel as [|fuel IH]; intros i; [done|]. cbn [poll_mtu].
  destruct (MIN_SANE_MTU <=? mtu_at i) eqn:E1.
  - intros [= <-]. right. split; [by apply Z.leb_le|eauto].
  - destruct (deadline <=? now_at i) eqn:E2; [|by apply IH].
    intros [= <-]. by left.
Qed.

Lemma poll_mtu_terminates mtu_at now_at fuel i deadline :
  (forall j, now_at j + MTU_POLL_INTERVAL <= now_at (S j)) ->
  deadline <= now_at i + Z.of_nat fuel * MTU_POLL_INTERVAL ->
  is_Some (poll_mtu mtu_at now_at (S fuel) i deadline).
Proof.
  intros Hsleep. revert i; induction fuel as [|fuel IH]; intros i Hd.
  - cbn. destruct (_ <=? mtu_at i); [by eauto|].
    destruct (Z.leb_spec deadline (now_at i)); [by eauto|lia].
  - change (is_Some (if MIN_SANE_MTU <=? mtu_at i then Some (mtu_at i)
      else if deadline <=? now_at i then Some DEFAULT_FALLBACK_MTU
      else poll_mtu mtu_at now_at (S fuel) (S i) deadline)).
    destruct (_ <=? mtu_at i); [by eauto|].
    destruct (_ <=? now_at i); [by eauto|].
    apply IH. specialize (Hsleep i). lia.
Qed.

(** Resolving the chunk size terminates within 61 polls when every sleep
    lasts at least the poll interval, and the chunk size is always in
    [21, 509]: it leaves room for the 2-byte header and the canary, and never
    exceeds the audited cap. *)
Theorem resolve_chunk_size_total (mtu_at : nat -> Z) (now_at : nat -> Instant)
    (start : Instant) :
  start <= now_at 0%nat ->
  (forall j, now_at j + MTU_POLL_INTERVAL <= now_at (S j)) ->
  exists chunk,
    resolve_chunk_size mtu_at now_at POLL_BOUND start = Some chunk /\
    MIN_SANE_MTU - ATT_OVERHEAD <= chunk <= MAX_CHUNK_SIZE.
Proof.
  intros Hstart Hsleep.
  destruct (poll_mtu_terminates mtu_at now_at 60 0 (start + MTU_READY_DEADLINE) Hsleep)
    as [m Hm].
  { unfold MTU_READY_DEADLINE, MTU_POLL_INTERVAL, from_secs, from_millis. lia. }
  exists (chunk_of_mtu m). unfold resolve_chunk_size, POLL_BOUND. rewrite Hm.
  split; [done|].
  apply poll_mtu_sane in Hm.
  unfold chunk_of_mtu, saturating_sub, MAX_CHUNK_SIZE, ATT_OVERHEAD,
    MIN_SANE_MTU, DEFAULT_FALLBACK_MTU in *. lia.
Qed.

Lemma resolve_chunk_size_total_witness :
  exists chunk,
    resolve_chunk_size (fun i => if (i <? 3)%nat then 23 else 185)
      (fun i => Z.of_nat i * from_millis 50) POLL_BOUND 0 = Some chunk /\
    MIN_SANE_MTU - ATT_OVERHEAD <= chunk <= MAX_CHUNK_SIZE.
Proof.
  apply (resolve_chunk_size_total _ (fun i => Z.of_nat i * from_millis 50) 0).
  - vm_compute. discriminate.
  - intros j. unfold MTU_POLL_INTERVAL, from_millis. lia.
Defined.
