(* ===== verification/Reliable.v ===== *)
(** * Reliable: Selective-Repeat ARQ over GATT ([transport/reliable.rs])

    One end of a [ReliableChannel]: header codec, sender window, receiver
    window and reassembly, delayed acknowledgements, retransmission and the
    link-dead deadline.  Every method that takes the channel's lock is one
    function on [ReliableChannel]; the instants the source reads with
    [Instant::now()] are arguments.  The datagram channel to the pipe is the
    list [delivered]; [Notify] and [AtomicWaker] are a permit and the list of
    wakers woken. *)

From S2P Require Import Prelude Peer Mtu.

Definition HEADER_SIZE : nat := 2.
Definition FRAGMENT_CANARY : Z := 0x5A.
Definition SEQ_MASK : Z := 0x0F.
Definition FLAG_FIRST : Z := 0x10.
Definition FLAG_LAST : Z := 0x20.
Definition ACK_SEQ_MASK : Z := 0x0F.
Definition FLAG_ACK : Z := 0x10.
Definition SEQ_MODULUS : Z := 16.
Definition WINDOW_SIZE : Z := 6.
Definition INTER_FRAME_GAP : Duration := from_millis 3.
Definition ACK_TIMEOUT : Duration := from_millis 300.
Definition ACK_TIMEOUT_MAX : Duration := from_secs 5.
Definition ACK_DELAY : Duration := from_millis 15.
Definition LINK_DEAD_DEADLINE : Duration := from_secs 6.
Definition SEND_QUEUE_CAPACITY : nat := 32.

(** ** Header codec *)

Definition make_header (seq : Z) (first last : bool) : Bytes :=
  [Z.lor (Z.lor (Z.land seq SEQ_MASK) (if first then FLAG_FIRST else 0))
     (if last then FLAG_LAST else 0); 0].

(** [header[1] = ...]; the callers pass at least two bytes. *)
Definition set_ack (header : Bytes) (ack_seq : Z) : Bytes :=
  <[1%nat := Z.lor (Z.land ack_seq ACK_SEQ_MASK) FLAG_ACK]> header.

Definition seq_dist (a b : Z) : Z := wrapping_sub u8_max b a mod SEQ_MODULUS.

(** ** State *)

Record InFlightFragment := mkInFlight { if_seq : Z; wire_msg : Bytes }.
Record FragmentEntry := mkFrag { fr_payload : Bytes; fr_first : bool; fr_last : bool }.
Record BufferedFragment := mkBuffered {
  bf_seq : Z; bf_first : bool; bf_last : bool; bf_payload : Bytes }.

Record ChannelState := mkChannelState {
  send_queue : list Bytes;
  frag_queue : list FragmentEntry;
  send_next : Z;
  send_base : Z;
  in_flight : list InFlightFragment;
  recv_next : Z;
  reassembly : Bytes;
  reassembly_overflow : bool;
  recv_buf : list BufferedFragment;
  ack_pending : option Z;
  ack_deadline : option Instant;
  last_progress_at : Instant;
  link_dead : bool;
}.

Record ReliableChannel := mkReliableChannel {
  state : ChannelState;
  wake : bool;
  delivered : list Bytes;
  chunk_size : Z;
  send_waker : option Waker;
  woken : list Waker;
  retransmit_counter : Z;
  truncation_counter : Z;
}.

(** Field assignments. *)
Definition set_send_queue (v : list Bytes) (c : ChannelState) : ChannelState :=
  mkChannelState v c.(frag_queue) c.(send_next) c.(send_base) c.(in_flight)
    c.(recv_next) c.(reassembly) c.(reassembly_overflow) c.(recv_buf) c.(ack_pending)
    c.(ack_deadline) c.(last_progress_at) c.(link_dead).
Definition set_frag_queue (v : list FragmentEntry) (c : ChannelState) : ChannelState :=
  mkChannelState c.(send_queue) v c.(send_next) c.(send_base) c.(in_flight)
    c.(recv_next) c.(reassembly) c.(reassembly_overflow) c.(recv_buf) c.(ack_pending)
    c.(ack_deadline) c.(last_progress_at) c.(link_dead).
Definition set_send_next (v : Z) (c : ChannelState) : ChannelState :=
  mkChannelState c.(send_queue) c.(frag_queue) v c.(send_base) c.(in_flight)
    c.(recv_next) c.(reassembly) c.(reassembly_overflow) c.(recv_buf) c.(ack_pending)
    c.(ack_deadline) c.(last_progress_at) c.(link_dead).
Definition set_send_base (v : Z) (c : ChannelState) : ChannelState :=
  mkChannelState c.(send_queue) c.(frag_queue) c.(send_next) v c.(in_flight)
    c.(recv_next) c.(reassembly) c.(reassembly_overflow) c.(recv_buf) c.(ack_pending)
    c.(ack_deadline) c.(last_progress_at) c.(link_dead).
Definition set_in_flight (v : list InFlightFragment) (c : ChannelState) : ChannelState :=
  mkChannelState c.(send_queue) c.(frag_queue) c.(send_next) c.(send_base) v
    c.(recv_next) c.(reassembly) c.(reassembly_overflow) c.(recv_buf) c.(ack_pending)
    c.(ack_deadline) c.(last_progress_at) c.(link_dead).
Definition set_recv_next (v : Z) (c : ChannelState) : ChannelState :=
  mkChannelState c.(send_queue) c.(frag_queue) c.(send_next) c.(send_base) c.(in_flight)
    v c.(reassembly) c.(reassembly_overflow) c.(recv_buf) c.(ack_pending)
    c.(ack_deadline) c.(last_progress_at) c.(link_dead).
Definition set_reassembly (v : Bytes) (c : ChannelState) : ChannelState :=
  mkChannelState c.(send_queue) c.(frag_queue) c.(send_next) c.(send_base) c.(in_flight)
    c.(recv_next) v c.(reassembly_overflow) c.(recv_buf) c.(ack_pending)
    c.(ack_deadline) c.(last_progress_at) c.(link_dead).
Definition set_reassembly_overflow (v : bool) (c : ChannelState) : ChannelState :=
  mkChannelState c.(send_queue) c.(frag_queue) c.(send_next) c.(send_base) c.(in_flight)
    c.(recv_next) c.(reassembly) v c.(recv_buf) c.(ack_pending) c.(ack_deadline)
    c.(last_progress_at) c.(link_dead).
Definition set_recv_buf (v : list BufferedFragment) (c : ChannelState) : ChannelState :=
  mkChannelState c.(send_queue) c.(frag_queue) c.(send_next) c.(send_base) c.(in_flight)
    c.(recv_next) c.(reassembly) c.(reassembly_overflow) v c.(ack_pending)
    c.(ack_deadline) c.(last_progress_at) c.(link_dead).
Definition set_ack_pending (v : option Z) (c : ChannelState) : ChannelState :=
  mkChannelState c.(send_queue) c.(frag_queue) c.(send_next) c.(send_base) c.(in_flight)
    c.(recv_next) c.(reassembly) c.(reassembly_overflow) c.(recv_buf) v c.(ack_deadline)
    c.(last_progress_at) c.(link_dead).
Definition set_ack_deadline (v : option Instant) (c : ChannelState) : ChannelState :=
  mkChannelState c.(send_queue) c.(frag_queue) c.(send_next) c.(send_base) c.(in_flight)
    c.(recv_next) c.(reassembly) c.(reassembly_overflow) c.(recv_buf) c.(ack_pending) v
    c.(last_progress_at) c.(link_dead).
Definition set_last_progress_at (v : Instant) (c : ChannelState) : ChannelState :=
  mkChannelState c.(send_queue) c.(frag_queue) c.(send_next) c.(send_base) c.(in_flight)
    c.(recv_next) c.(reassembly) c.(reassembly_overflow) c.(recv_buf) c.(ack_pending)
    c.(ack_deadline) v c.(link_dead).
Definition set_link_dead (v : bool) (c : ChannelState) : ChannelState :=
  mkChannelState c.(send_queue) c.(frag_queue) c.(send_next) c.(send_base) c.(in_flight)
    c.(recv_next) c.(reassembly) c.(reassembly_overflow) c.(recv_buf) c.(ack_pending)
    c.(ack_deadline) c.(last_progress_at) v.
Definition set_state (v : ChannelState) (c : ReliableChannel) : ReliableChannel :=
  mkReliableChannel v c.(wake) c.(delivered) c.(chunk_size) c.(send_waker) c.(woken)
    c.(retransmit_counter) c.(truncation_counter).
Definition set_wake (v : bool) (c : ReliableChannel) : ReliableChannel :=
  mkReliableChannel c.(state) v c.(delivered) c.(chunk_size) c.(send_waker) c.(woken)
    c.(retransmit_counter) c.(truncation_counter).
Definition set_delivered (v : list Bytes) (c : ReliableChannel) : ReliableChannel :=
  mkReliableChannel c.(state) c.(wake) v c.(chunk_size) c.(send_waker) c.(woken)
    c.(retransmit_counter) c.(truncation_counter).
Definition set_chunk_size_field (v : Z) (c : ReliableChannel) : ReliableChannel :=
  mkReliableChannel c.(state) c.(wake) c.(delivered) v c.(send_waker) c.(woken)
    c.(retransmit_counter) c.(truncation_counter).
Definition set_send_waker (v : option Waker) (c : ReliableChannel) : ReliableChannel :=
  mkReliableChannel c.(state) c.(wake) c.(delivered) c.(chunk_size) v c.(woken)
    c.(retransmit_counter) c.(truncation_counter).
Definition set_woken (v : list Waker) (c : ReliableChannel) : ReliableChannel :=
  mkReliableChannel c.(state) c.(wake) c.(delivered) c.(chunk_size) c.(send_waker) v
    c.(retransmit_counter) c.(truncation_counter).
Definition set_retransmit_counter (v : Z) (c : ReliableChannel) : ReliableChannel :=
  mkReliableChannel c.(state) c.(wake) c.(delivered) c.(chunk_size) c.(send_waker)
    c.(woken) v c.(truncation_counter).
Definition set_truncation_counter (v : Z) (c : ReliableChannel) : ReliableChannel :=
  mkReliableChannel c.(state) c.(wake) c.(delivered) c.(chunk_size) c.(send_waker)
    c.(woken) c.(retransmit_counter) v.

(** [self.wake.notify_one()] and [self.send_waker.wake()]. *)
Definition notify_one (c : ReliableChannel) : ReliableChannel := set_wake true c.
Definition wake_sender (c : ReliableChannel) : ReliableChannel :=
  set_woken (woken c ++ option_list (send_waker c)) (set_send_waker None c).
Definition upd_state (f : ChannelState -> ChannelState) (c : ReliableChannel)
    : ReliableChannel := set_state (f (state c)) c.

(** ** [impl ChannelState] *)

Definition in_flight_count (st : ChannelState) : Z := seq_dist (send_base st) (send_next st).
Definition can_send (st : ChannelState) : bool := in_flight_count st <? WINDOW_SIZE.
Definition in_recv_window (seq : Z) (st : ChannelState) : bool :=
  seq_dist (recv_next st) seq <? WINDOW_SIZE.
Definition is_buffered (seq : Z) (st : ChannelState) : bool :=
  existsb (fun f => bf_seq f =? seq) (recv_buf st).

Definition schedule_ack (now : Instant) (seq : Z) (st : ChannelState) : ChannelState :=
  let st := set_ack_pending (Some seq) st in
  match ack_deadline st with
  | None => set_ack_deadline (Some (now + ACK_DELAY)) st
  | Some _ => st
  end.

Definition take_ack (st : ChannelState) : option Z * ChannelState :=
  (ack_pending st, set_ack_pending None (set_ack_deadline None st)).

(** ** [impl ReliableChannel] *)

Definition ReliableChannel_new (now : Instant) (chunk_size : Z) : ReliableChannel :=
  mkReliableChannel
    (mkChannelState [] [] 0 0 [] 0 [] false [] None None now false)
    false [] chunk_size None [] 0 0.

Definition set_chunk_size (n : Z) (c : ReliableChannel) : ReliableChannel :=
  set_chunk_size_field n c.

Definition mark_dead (c : ReliableChannel) : ReliableChannel :=
  notify_one (upd_state (set_link_dead true) c).

Definition enqueue_datagram (data : Bytes) (c : ReliableChannel) : bool * ReliableChannel :=
  if (SEND_QUEUE_CAPACITY <=? length (send_queue (state c)) + length (frag_queue (state c)))%nat
  then (false, c)
  else (true, notify_one (upd_state (fun st => set_send_queue (send_queue st ++ [data]) st) c)).

(** The lock may be contended ([locked]); then nothing happens. *)
Definition try_enqueue_datagram (locked : bool) (data : Bytes) (c : ReliableChannel)
    : option bool * ReliableChannel :=
  if locked then (None, c)
  else let '(b, c') := enqueue_datagram data c in (Some b, c').

Definition register_send_waker (w : Waker) (c : ReliableChannel) : ReliableChannel :=
  set_send_waker (Some w) c.

(** The position just before [recv_next], modulo the sequence space. *)
Definition prev_seq (n : Z) : Z := (n + SEQ_MODULUS - 1) mod SEQ_MODULUS.

Definition reassemble (first : bool) (payload : Bytes) (st : ChannelState) : ChannelState :=
  let st := if first then set_reassembly_overflow false (set_reassembly [] st) else st in
  if reassembly_overflow st then st
  else
    let st := set_reassembly (reassembly st ++ payload) st in
    if MAX_DATAGRAM_SIZE <? Z.of_nat (length (reassembly st))
    then set_reassembly_overflow true (set_reassembly [] st)
    else st.

Definition accept_and_deliver (now : Instant) (first last : bool) (payload : Bytes)
    (c : ReliableChannel) : ReliableChannel :=
  let c := upd_state (reassemble first payload) c in
  let c :=
    if last then
      let complete := reassembly (state c) in
      let c := upd_state (fun st => set_reassembly [] (set_reassembly_overflow false st)) c in
      match complete with
      | [] => c
      | _ => set_delivered (delivered c ++ [complete]) c
      end
    else c in
  let c := upd_state (fun st =>
    let st := set_recv_next ((recv_next st + 1) mod SEQ_MODULUS) st in
    schedule_ack now (prev_seq (recv_next st)) st) c in
  notify_one c.

(** [recv_buf.iter().position(p)] followed by [recv_buf.remove(idx)]. *)
Fixpoint remove_first (p : BufferedFragment -> bool) (l : list BufferedFragment)
    : option (BufferedFragment * list BufferedFragment) :=
  match l with
  | [] => None
  | f :: l' =>
      if p f then Some (f, l')
      else match remove_first p l' with
           | Some (g, l'') => Some (g, f :: l'')
           | None => None
           end
  end.

(** Every iteration removes a buffered fragment, so the length of the buffer is
    enough fuel. *)
Fixpoint drain_loop (fuel : nat) (now : Instant) (c : ReliableChannel) : ReliableChannel :=
  match fuel with
  | O => c
  | S fuel' =>
      match remove_first (fun f => bf_seq f =? recv_next (state c)) (recv_buf (state c)) with
      | Some (frag, rest) =>
          drain_loop fuel' now
            (accept_and_deliver now (bf_first frag) (bf_last frag) (bf_payload frag)
               (upd_state (set_recv_buf rest) c))
      | None => c
      end
  end.

Definition drain_recv_buf (now : Instant) (c : ReliableChannel) : ReliableChannel :=
  drain_loop (length (recv_buf (state c))) now c.

Definition receive_ack (now : Instant) (ack_seq : Z) (c : ReliableChannel) : ReliableChannel :=
  let st := state c in
  let acked_count := seq_dist (send_base st) ((ack_seq + 1) mod SEQ_MODULUS) in
  if (0 <? acked_count) && (acked_count <=? WINDOW_SIZE)
     && (acked_count <=? in_flight_count st)
  then
    let c := upd_state (fun st =>
      set_last_progress_at now
        (set_send_base ((ack_seq + 1) mod SEQ_MODULUS)
           (set_in_flight (drop (Z.to_nat acked_count) (in_flight st)) st))) c in
    notify_one (wake_sender c)
  else c.

Definition receive_data (now : Instant) (seq : Z) (first last : bool) (payload : Bytes)
    (c : ReliableChannel) : ReliableChannel :=
  let st := state c in
  if seq =? recv_next st then
    drain_recv_buf now (accept_and_deliver now first last payload c)
  else if in_recv_window seq st && negb (is_buffered seq st) then
    let c := upd_state (fun st =>
      schedule_ack now (prev_seq (recv_next st))
        (set_recv_buf (recv_buf st ++ [mkBuffered seq first last payload]) st)) c in
    notify_one c
  else if negb (in_recv_window seq st) then
    notify_one (upd_state (fun st => schedule_ack now (prev_seq (recv_next st)) st) c)
  else c.

(** [receive_fragment] from the header on ([value] has at least two bytes). *)
Definition receive_parsed (now : Instant) (value : Bytes) (c : ReliableChannel)
    : ReliableChannel :=
  let b0 := nth 0 value 0 in
  let b1 := nth 1 value 0 in
  let payload := drop HEADER_SIZE value in
  let seq := Z.land b0 SEQ_MASK in
  let first := negb (Z.land b0 FLAG_FIRST =? 0) in
  let last := negb (Z.land b0 FLAG_LAST =? 0) in
  let has_ack := negb (Z.land b1 FLAG_ACK =? 0) in
  let ack_seq := Z.land b1 ACK_SEQ_MASK in
  let c := if has_ack then receive_ack now ack_seq c else c in
  let has_data := first || last || negb (length payload =? 0)%nat in
  if has_data then receive_data now seq first last payload c else c.

Definition receive_fragment (now : Instant) (value : Bytes) (c : ReliableChannel)
    : ReliableChannel :=
  if (length value <? HEADER_SIZE)%nat then c
  else if (HEADER_SIZE <? length value)%nat then
    if negb (List.last value 0 =? FRAGMENT_CANARY)
    then set_truncation_counter (wrapping_add u64_max (truncation_counter c) 1) c
    else receive_parsed now (take (length value - 1) value) c
  else receive_parsed now value c.

Module SendAction.
Inductive t := Send (msg : Bytes) | Wait | Dead.
End SendAction.

(** [slice::chunks(n)], for [n] positive; [fuel] bounds the number of chunks. *)
Fixpoint chunks (fuel n : nat) (l : Bytes) : list Bytes :=
  match fuel with
  | O => []
  | S fuel' =>
      match l with
      | [] => []
      | _ => take n l :: chunks fuel' n (drop n l)
      end
  end.

(** Chunk number [i] of [n] becomes a fragment. *)
Fixpoint number_chunks (i last_idx : nat) (cs : list Bytes) : list FragmentEntry :=
  match cs with
  | [] => []
  | ch :: cs' =>
      mkFrag ch (i =? 0)%nat (i =? last_idx)%nat :: number_chunks (S i) last_idx cs'
  end.

(** [fragment_into]: [chunk_size - HEADER_SIZE - 1] underflows, and [chunks(0)]
    panics, for a chunk size below 4; both are [None]. *)
Definition fragments_of (chunk_size : Z) (datagram : Bytes) : option (list FragmentEntry) :=
  let max_payload := chunk_size - Z.of_nat HEADER_SIZE - 1 in
  if max_payload <? 0 then None
  else if Z.of_nat (length datagram) <=? max_payload then
    Some [mkFrag datagram true true]
  else if max_payload =? 0 then None
  else
    let cs := chunks (length datagram) (Z.to_nat max_payload) datagram in
    Some (number_chunks 0 (length cs - 1) cs).

Definition fragment_into (datagram : Bytes) (c : ReliableChannel) : option ReliableChannel :=
  fs ← fragments_of (chunk_size c) datagram;
  Some (upd_state (fun st => set_frag_queue (frag_queue st ++ fs) st) c).

(** Refill the fragment queue from the next datagram, if it is empty. *)
Definition refill (c : ReliableChannel) : option ReliableChannel :=
  match frag_queue (state c), send_queue (state c) with
  | [], datagram :: rest =>
      c ← fragment_into datagram (upd_state (set_send_queue rest) c);
      Some (wake_sender c)
  | _, _ => Some c
  end.

Definition send_fragment (now : Instant) (frag : FragmentEntry) (rest : list FragmentEntry)
    (c : ReliableChannel) : Bytes * ReliableChannel :=
  let st := set_frag_queue rest (state c) in
  let seq := send_next st in
  let hdr := make_header seq (fr_first frag) (fr_last frag) in
  let '(ack, st) := take_ack st in
  let hdr := match ack with Some a => set_ack hdr a | None => hdr end in
  let msg := hdr ++ fr_payload frag ++ [FRAGMENT_CANARY] in
  let st := match in_flight st with [] => set_last_progress_at now st | _ => st end in
  let st := set_in_flight (in_flight st ++ [mkInFlight seq msg]) st in
  let st := set_send_next ((send_next st + 1) mod SEQ_MODULUS) st in
  (msg, set_state st c).

(** The delayed pure acknowledgement. *)
Definition pure_ack (now : Instant) (c : ReliableChannel) : SendAction.t * ReliableChannel :=
  match ack_pending (state c) with
  | None => (SendAction.Wait, c)
  | Some _ =>
      if from_option (fun dl => dl <=? now) true (ack_deadline (state c)) then
        match take_ack (state c) with
        | (Some ack_seq, st) => (SendAction.Send (set_ack [0; 0] ack_seq), set_state st c)
        | (None, _) => (SendAction.Wait, c)
        end
      else (SendAction.Wait, c)
  end.

Definition next_send_action (now : Instant) (c : ReliableChannel)
    : option (SendAction.t * ReliableChannel) :=
  if link_dead (state c) then Some (SendAction.Dead, c)
  else
    c ← refill c;
    if can_send (state c) then
      c ← refill c;
      match frag_queue (state c) with
      | frag :: rest =>
          let '(msg, c) := send_fragment now frag rest c in Some (SendAction.Send msg, c)
      | [] => Some (pure_ack now c)
      end
    else Some (pure_ack now c).

(** ** The send loop *)

Record LoopState := mkLoopState {
  timeout : Duration;
  tracked_progress_at : option Instant;
}.

Definition loop_init : LoopState := mkLoopState ACK_TIMEOUT None.

(** What the loop does after [SendAction::Wait]. *)
Module WaitPlan.
Inductive t :=
| LinkDead
| SleepUntil (sleep_until retransmit_at : Instant)
| Idle (sleep_until : option Instant).
End WaitPlan.

Definition on_wait (now : Instant) (ls : LoopState) (c : ReliableChannel)
    : WaitPlan.t * LoopState * ReliableChannel :=
  let st := state c in
  match in_flight st with
  | _ :: _ =>
      let progressed :=
        from_option (fun prev => negb (prev =? last_progress_at st)) false
          (tracked_progress_at ls) in
      let t := if progressed then ACK_TIMEOUT else timeout ls in
      let ls := mkLoopState t (Some (last_progress_at st)) in
      let dead_at := last_progress_at st + LINK_DEAD_DEADLINE in
      if dead_at <=? now then (WaitPlan.LinkDead, ls, upd_state (set_link_dead true) c)
      else
        let retransmit_at := now + t in
        let sleep_until :=
          match ack_deadline st with
          | Some dl => Z.min (Z.min dl retransmit_at) dead_at
          | None => Z.min retransmit_at dead_at
          end in
        (WaitPlan.SleepUntil sleep_until retransmit_at, ls, c)
  | [] => (WaitPlan.Idle (ack_deadline st), mkLoopState ACK_TIMEOUT None, c)
  end.

(** The timer fired at [now]: retransmit the oldest fragment unless only the
    acknowledgement delay expired. *)
Definition on_timeout (now retransmit_at : Instant) (ls : LoopState) (c : ReliableChannel)
    : option Bytes * LoopState * ReliableChannel :=
  if now <? retransmit_at then (None, ls, c)
  else
    let ls' := mkLoopState (Z.min (timeout ls * 2) ACK_TIMEOUT_MAX) (tracked_progress_at ls) in
    match in_flight (state c) with
    | [] => (None, ls', c)
    | f :: _ =>
        let '(ack, st) := take_ack (state c) in
        let msg :=
          match ack with
          | Some ack_seq =>
              if (HEADER_SIZE <=? length (wire_msg f))%nat
              then set_ack (wire_msg f) ack_seq else wire_msg f
          | None => wire_msg f
          end in
        (Some msg, ls', 
          set_retransmit_counter (wrapping_add u64_max (retransmit_counter c) 1) (set_state st c))
    end.
