(* ===== verification/Store.v ===== *)
(** * Store: peer persistence ([transport/store.rs])

    The trait [PeerStore] is an interface, the class [PeerStore] below, whose
    laws say what its clients (the driver, which runs the registry's
    [PutPeerStore] and [ForgetPeerStore] actions) rely on;
    [InMemoryPeerStore] discharges it.  [BleResult] of a persistent
    implementation may be an error; the in-memory operations never fail. *)

From S2P Require Import Prelude Peer.
Open Scope Z_scope.

Module BleResult.
Inductive t (A : Type) := Ok (x : A) | Err (e : string).
#[global] Arguments Ok {A} x.
#[global] Arguments Err {A} e.
End BleResult.

(** [PeerSnapshot::new]. *)
Definition PeerSnapshot_new (last_device_id : string) (last_seen : Z) : PeerSnapshot :=
  mkPeerSnapshot last_device_id last_seen.

(** The trait: four operations on a store [S].  A failed operation leaves the
    contents alone; a successful one behaves as a map. *)
Class PeerStore (S : Type) := {
  put : KeyPrefix -> PeerSnapshot -> S -> BleResult.t () * S;
  get : KeyPrefix -> S -> BleResult.t (option PeerSnapshot);
  list_peers : S -> BleResult.t (list (KeyPrefix * PeerSnapshot));
  forget : KeyPrefix -> S -> BleResult.t () * S;

  (** What the store holds. *)
  contents : S -> gmap KeyPrefix PeerSnapshot;
  put_spec p v s :
    contents (put p v s).2
    = match (put p v s).1 with BleResult.Ok _ => <[p := v]> (contents s) | _ => contents s end;
  forget_spec p s :
    contents (forget p s).2
    = match (forget p s).1 with BleResult.Ok _ => delete p (contents s) | _ => contents s end;
  get_spec p s r : get p s = BleResult.Ok r -> r = contents s !! p;
  list_spec s l :
    list_peers s = BleResult.Ok l ->
    NoDup l.*1 /\ forall p v, (p, v) ∈ l <-> contents s !! p = Some v;
}.

(** ** The in-memory store *)

Record InMemoryPeerStore := mkInMemoryPeerStore {
  inner : gmap KeyPrefix PeerSnapshot;
}.

Module InMemory.
Definition new : InMemoryPeerStore := mkInMemoryPeerStore ∅.
Definition put (prefix : KeyPrefix) (snapshot : PeerSnapshot) (s : InMemoryPeerStore)
    : BleResult.t () * InMemoryPeerStore :=
  (BleResult.Ok (), mkInMemoryPeerStore (<[prefix := snapshot]> (inner s))).
Definition get (prefix : KeyPrefix) (s : InMemoryPeerStore) : BleResult.t (option PeerSnapshot) :=
  BleResult.Ok (inner s !! prefix).
Definition list (s : InMemoryPeerStore) : BleResult.t (list (KeyPrefix * PeerSnapshot)) :=
  BleResult.Ok (map_to_list (inner s)).
Definition forget (prefix : KeyPrefix) (s : InMemoryPeerStore)
    : BleResult.t () * InMemoryPeerStore :=
  (BleResult.Ok (), mkInMemoryPeerStore (delete prefix (inner s))).
End InMemory.

#[global, program] Instance in_memory_store : PeerStore InMemoryPeerStore := {|
  put := InMemory.put; get := InMemory.get; list_peers := InMemory.list;
  forget := InMemory.forget; contents := inner;
|}.
Next Obligation. done. Qed.
Next Obligation. done. Qed.
Next Obligation. by intros p s r [= <-]. Qed.
Next Obligation.
  intros s l [= <-]. split; [apply NoDup_fst_map_to_list|]. intros p v. apply elem_of_map_to_list.
Qed.

(** ** The driver's use of it *)

(** [Driver::execute] on [PutPeerStore] and [ForgetPeerStore]: a failure is
    logged and dropped; no other action touches the store.  The driver runs each
    of them in a task of its own, so a run of the store is the actions in the
    order in which the tasks got to it. *)
Definition execute_store {S} `{PeerStore S} (s : S) (a : PeerAction.t) : S :=
  match a with
  | PeerAction.PutPeerStore prefix snapshot => (put prefix snapshot s).2
  | PeerAction.ForgetPeerStore prefix => (forget prefix s).2
  | _ => s
  end.

(** What an action writes at a prefix: [Some (Some v)] stores [v], [Some None]
    forgets it, [None] leaves it alone. *)
Definition writes_at (prefix : KeyPrefix) (a : PeerAction.t) : option (option PeerSnapshot) :=
  match a with
  | PeerAction.PutPeerStore p v => if decide (p = prefix) then Some (Some v) else None
  | PeerAction.ForgetPeerStore p => if decide (p = prefix) then Some None else None
  | _ => None
  end.

Section Replay.
Context {S : Type} `{PeerStore S}.
(** An implementation whose writes succeed. *)
Context (put_ok : forall p v s, (put p v s).1 = BleResult.Ok ()).
Context (forget_ok : forall p s, (forget p s).1 = BleResult.Ok ()).

Lemma execute_store_lookup s a prefix :
  contents (execute_store s a) !! prefix
  = default (contents s !! prefix) (writes_at prefix a).
Proof using put_ok forget_ok.
  destruct a; cbn [execute_store writes_at]; try done.
  - rewrite put_spec, put_ok. case_decide as E; [subst; by rewrite lookup_insert_eq|].
    by rewrite lookup_insert_ne.
  - rewrite forget_spec, forget_ok. case_decide as E; [subst; by rewrite lookup_delete_eq|].
    by rewrite lookup_delete_ne.
Qed.

Lemma replay_lookup acts s prefix :
  contents (foldl execute_store s acts) !! prefix
  = default (contents s !! prefix) (last (omap (writes_at prefix) acts)).
Proof using put_ok forget_ok.
  induction acts as [|a acts IH] using rev_ind; [done|].
  rewrite foldl_snoc, execute_store_lookup, IH, omap_app, last_app. cbn.
  by destruct (writes_at prefix a).
Qed.

(** The last write to a prefix wins, and writes to other prefixes do not
    matter: whatever order the spawned store tasks run in, [get] of a prefix
    returns what the last of the writes to that prefix left there (its initial
    contents if there was none), and [list] shows exactly those peers, each
    once.  Proved for every implementation of [PeerStore] whose writes succeed. *)
Theorem store_last_write_wins (acts : list PeerAction.t) (s : S) (prefix : KeyPrefix)
    (r : option PeerSnapshot) (l : list (KeyPrefix * PeerSnapshot)) :
  get prefix (foldl execute_store s acts) = BleResult.Ok r ->
  list_peers (foldl execute_store s acts) = BleResult.Ok l ->
  r = default (contents s !! prefix) (last (omap (writes_at prefix) acts)) /\
  NoDup l.*1 /\ (forall v, (prefix, v) ∈ l <-> r = Some v).
Proof using put_ok forget_ok.
  intros ->%get_spec [Hnd Hl]%list_spec. rewrite replay_lookup in *. split_and!; [done..|].
  intros v. by rewrite Hl, replay_lookup.
Qed.
End Replay.

Lemma store_last_write_wins_witness :
  let p := replicate KEY_PREFIX_LEN 7 in
  let s := foldl execute_store InMemory.new
    [PeerAction.PutPeerStore p (PeerSnapshot_new "a" 1);
     PeerAction.PutPeerStore [9] (PeerSnapshot_new "b" 2);
     PeerAction.PutPeerStore p (PeerSnapshot_new "c" 3)] in
  get p s = BleResult.Ok (Some (PeerSnapshot_new "c" 3)) /\
  NoDup (map_to_list (inner s)).*1.
Proof.
  cbv zeta.
  destruct (store_last_write_wins (S := InMemoryPeerStore) (H := in_memory_store)
    (fun _ _ _ => eq_refl) (fun _ _ => eq_refl)
    [PeerAction.PutPeerStore (replicate KEY_PREFIX_LEN 7) (PeerSnapshot_new "a" 1);
     PeerAction.PutPeerStore [9] (PeerSnapshot_new "b" 2);
     PeerAction.PutPeerStore (replicate KEY_PREFIX_LEN 7) (PeerSnapshot_new "c" 3)]
    InMemory.new (replicate KEY_PREFIX_LEN 7) _ _ eq_refl eq_refl) as (Hr & Hnd & _).
  split; [|exact Hnd]. cbn [get in_memory_store]. unfold InMemory.get. rewrite Hr. reflexivity.
Defined.
