(* ===== verification/Routing.v ===== *)
(** * Routing: the routing table ([transport/routing.rs])

    The table behind [Mutex<RoutingInner>] and the counter [next_id]; every
    public method is a function of the state, since each one runs under the
    lock.  A method that reads [Instant::now] several times takes one reading.
    Wakers a method wakes are appended to [woken]. *)

From S2P Require Import Prelude Eviction Peer.
Open Scope Z_scope.

Definition PIPE_TOMBSTONE_TTL : Duration := from_secs 30.
Definition MAX_PIPE_TOMBSTONES : nat := 128.
Definition TOKEN_LEN : nat := 8.
Definition LOCAL_ADDR_TOKEN : Z := 0.
(** [transport.rs]: ["BLE"] in the low bytes. *)
Definition BLE_TRANSPORT_ID : Z := 0x424C45.

(** ** Tokens in addresses *)

(** [iroh_base::CustomAddr]: a transport id and an opaque payload. *)
Class CustomAddrApi := {
  CustomAddr : Type;
  from_parts : Z -> Bytes -> CustomAddr;
  addr_id : CustomAddr -> Z;
  addr_data : CustomAddr -> Bytes;
  addr_id_from_parts : forall id data, addr_id (from_parts id data) = id;
  addr_data_from_parts : forall id data, addr_data (from_parts id data) = data;
}.

#[refine] Definition pair_addr : CustomAddrApi := {|
  CustomAddr := Z * Bytes;
  from_parts := pair;
  addr_id := fst;
  addr_data := snd;
|}.
Proof. all: reflexivity. Defined.

Section Tokens.
Context `{CustomAddrApi}.

Definition token_custom_addr (token : Z) : CustomAddr :=
  from_parts BLE_TRANSPORT_ID (to_le_bytes TOKEN_LEN token).

Definition local_custom_addr : CustomAddr := token_custom_addr LOCAL_ADDR_TOKEN.

(** [io::Result<u64>], the error as its message. *)
Definition parse_token_addr (addr : CustomAddr) : string + Z :=
  if negb (addr_id addr =? BLE_TRANSPORT_ID) then inl "not a BLE transport address"%string
  else if negb (length (addr_data addr) =? TOKEN_LEN)%nat
  then inl "BLE custom addr has wrong length"%string
  else inr (from_le_bytes (addr_data addr)).
End Tokens.

(** ** Data *)

Abbreviation StableConnId := Z (only parsing).

Module Direction.
Inductive t := Outbound | Inbound.
#[global] Instance t_eq_dec : EqDecision t.
Proof. solve_decision. Defined.
End Direction.

Module Dialer.
Inductive t := Low | High.
#[global] Instance t_eq_dec : EqDecision t.
Proof. solve_decision. Defined.

Definition compute (self_id remote_id : EndpointId) (direction : Direction.t) : t :=
  let self_is_lower := bytes_ltb self_id remote_id in
  match self_is_lower, direction with
  | true, Direction.Outbound => Low
  | true, Direction.Inbound => High
  | false, Direction.Outbound => High
  | false, Direction.Inbound => Low
  end.
End Dialer.

Record Pipe := mkPipe {
  p_id : StableConnId;
  p_device_id : DeviceId;
  p_direction : Direction.t;
  p_created_at : Instant;
}.

Record Pending := mkPending {
  pend_pipe : StableConnId;
  pend_target_endpoint : option EndpointId;
  pend_created_at : Instant;
}.

Record Routable := mkRoutable {
  r_pipe : StableConnId;
  r_endpoint_id : EndpointId;
  r_dialer : Dialer.t;
  r_verified_at : Instant;
}.

Record PipeTombstone := mkPipeTombstone {
  t_device_id : DeviceId;
  t_direction : Direction.t;
  t_pipe_lifetime : Duration;
  t_evicted_at : Instant;
  t_dropped_transmits : Z;
}.

Record TombstonedTransmit := mkTombstonedTransmit {
  tombstone : PipeTombstone;
  dropped_count : Z;
}.

Record Reservation := mkReservation {
  res_stable_id : StableConnId;
  res_endpoint_id : EndpointId;
  res_reserved_at : Instant;
}.

(** [Routing] with its [RoutingInner]. *)
Record Routing := mkRouting {
  pipes : gmap Z Pipe;
  pipe_tombstones : gmap Z PipeTombstone;
  scan_hint : gmap KeyPrefix DeviceId;
  pending : gmap Z Pending;
  routable : gmap EndpointId Routable;
  reservations : gmap KeyPrefix Reservation;
  reserved_stable_ids : gmap Z KeyPrefix;
  endpoint_wakers : gmap EndpointId (list Waker);
  next_id : Z;
  woken : list Waker;
}.

Definition Routing_new : Routing := mkRouting ∅ ∅ ∅ ∅ ∅ ∅ ∅ ∅ 0 [].

Definition set_pipes (v : gmap Z Pipe) (r : Routing) : Routing :=
  mkRouting v (pipe_tombstones r) (scan_hint r) (pending r) (routable r) (reservations r)
    (reserved_stable_ids r) (endpoint_wakers r) (next_id r) (woken r).
Definition set_pipe_tombstones (v : gmap Z PipeTombstone) (r : Routing) : Routing :=
  mkRouting (pipes r) v (scan_hint r) (pending r) (routable r) (reservations r)
    (reserved_stable_ids r) (endpoint_wakers r) (next_id r) (woken r).
Definition set_scan_hint (v : gmap KeyPrefix DeviceId) (r : Routing) : Routing :=
  mkRouting (pipes r) (pipe_tombstones r) v (pending r) (routable r) (reservations r)
    (reserved_stable_ids r) (endpoint_wakers r) (next_id r) (woken r).
Definition set_pending (v : gmap Z Pending) (r : Routing) : Routing :=
  mkRouting (pipes r) (pipe_tombstones r) (scan_hint r) v (routable r) (reservations r)
    (reserved_stable_ids r) (endpoint_wakers r) (next_id r) (woken r).
Definition set_routable (v : gmap EndpointId Routable) (r : Routing) : Routing :=
  mkRouting (pipes r) (pipe_tombstones r) (scan_hint r) (pending r) v (reservations r)
    (reserved_stable_ids r) (endpoint_wakers r) (next_id r) (woken r).
Definition set_reservations (v : gmap KeyPrefix Reservation) (r : Routing) : Routing :=
  mkRouting (pipes r) (pipe_tombstones r) (scan_hint r) (pending r) (routable r) v
    (reserved_stable_ids r) (endpoint_wakers r) (next_id r) (woken r).
Definition set_reserved_stable_ids (v : gmap Z KeyPrefix) (r : Routing) : Routing :=
  mkRouting (pipes r) (pipe_tombstones r) (scan_hint r) (pending r) (routable r)
    (reservations r) v (endpoint_wakers r) (next_id r) (woken r).
Definition set_endpoint_wakers (v : gmap EndpointId (list Waker)) (r : Routing) : Routing :=
  mkRouting (pipes r) (pipe_tombstones r) (scan_hint r) (pending r) (routable r)
    (reservations r) (reserved_stable_ids r) v (next_id r) (woken r).
Definition set_next_id (v : Z) (r : Routing) : Routing :=
  mkRouting (pipes r) (pipe_tombstones r) (scan_hint r) (pending r) (routable r)
    (reservations r) (reserved_stable_ids r) (endpoint_wakers r) v (woken r).
Definition set_woken (v : list Waker) (r : Routing) : Routing :=
  mkRouting (pipes r) (pipe_tombstones r) (scan_hint r) (pending r) (routable r)
    (reservations r) (reserved_stable_ids r) (endpoint_wakers r) (next_id r) v.

Module ScanHintUpdate.
Inductive t :=
| New
| Unchanged
| Replaced (previous : DeviceId)
| ActivelyBound (bound : DeviceId).
End ScanHintUpdate.

Record Contender := mkContender { c_pipe : StableConnId; c_dialer : Dialer.t }.

Module Decision.
Inductive t := Accept | AcceptEvictingAll | Reject.
End Decision.

Module PromoteOutcome.
Inductive t := Accepted (evicted : list StableConnId) | Rejected.
End PromoteOutcome.

Record RoutableSnapshot := mkRoutableSnapshot {
  rs_endpoint_id : EndpointId;
  rs_stable_id : StableConnId;
  rs_device_id : DeviceId;
  rs_verified_at : Instant;
}.

Record RoutingSnapshot := mkRoutingSnapshot {
  sn_pipes : nat;
  sn_pipe_tombstones : nat;
  sn_scan_hints : nat;
  sn_pending : nat;
  sn_routable : nat;
  sn_reservations : nat;
}.

(** ** Pure rules *)

Module Rule.
Definition decide (new_dialer : Dialer.t) (contenders : list Contender) : Decision.t :=
  match contenders with
  | [] => Decision.Accept
  | _ =>
      let any_existing_is_high :=
        existsb (fun c => bool_decide (c_dialer c = Dialer.High)) contenders in
      match new_dialer, any_existing_is_high with
      | Dialer.High, false => Decision.AcceptEvictingAll
      | Dialer.Low, true => Decision.Reject
      | _, _ => Decision.AcceptEvictingAll
      end
  end.
End Rule.

(** ** Operations *)

Section Ops.
Context {HI : HashIter}.

(** [prune_pipe_tombstones]: expired tombstones go; beyond the limit the oldest
    go ([sort_by_key] on the eviction time, then the overflow). *)
Definition prune_pipe_tombstones (now : Instant) (r : Routing) : Routing :=
  let live := filter (fun '(_, t) =>
    saturating_duration_since now (t_evicted_at t) <= PIPE_TOMBSTONE_TTL) (pipe_tombstones r) in
  set_pipe_tombstones (drop_oldest t_evicted_at MAX_PIPE_TOMBSTONES live) r.

(** [next_id.fetch_add(1).wrapping_add(1)]: the counter wraps, and so does the
    identifier made from its old value. *)
Definition mint (r : Routing) : StableConnId * Routing :=
  (wrapping_add u64_max (next_id r) 1, set_next_id (wrapping_add u64_max (next_id r) 1) r).

Definition register_pipe (now : Instant) (d : DeviceId) (dir : Direction.t) (r : Routing)
    : StableConnId * Routing :=
  let '(id, r) := mint r in
  let r := prune_pipe_tombstones now r in
  (id, set_pipes (<[id := mkPipe id d dir now]> (pipes r)) r).

Definition evict_pipe (now : Instant) (id : StableConnId) (r : Routing) : Routing :=
  match pipes r !! id with
  | Some p =>
      let r := set_pipes (delete id (pipes r)) r in
      let r := prune_pipe_tombstones now r in
      set_pipe_tombstones
        (<[id := mkPipeTombstone (p_device_id p) (p_direction p)
                   (saturating_duration_since now (p_created_at p)) now 0]>
          (pipe_tombstones r)) r
  | None => r
  end.

Definition snapshot (r : Routing) : RoutingSnapshot :=
  mkRoutingSnapshot (size (pipes r)) (size (pipe_tombstones r)) (size (scan_hint r))
    (size (pending r)) (size (routable r)) (size (reservations r)).

Definition pipes_for_debug (r : Routing) : list Pipe := hm_values (pipes r).

(** [wake_endpoint_waiters] and its variant over a prefix. *)
Definition wake_endpoint_waiters (ep : EndpointId) (r : Routing) : Routing :=
  set_woken (woken r ++ default [] (endpoint_wakers r !! ep))
    (set_endpoint_wakers (delete ep (endpoint_wakers r)) r).

Definition wake_endpoint_waiters_for_prefix (p : KeyPrefix) (r : Routing) : Routing :=
  let to_wake := List.filter (fun ep => bool_decide (prefix_from_endpoint ep = p))
    (hm_keys (endpoint_wakers r)) in
  foldl (fun r ep => wake_endpoint_waiters ep r) r to_wake.

(** The device of the live pipe that is routable for a prefix. *)
Definition bound_device (p : KeyPrefix) (r : Routing) : option DeviceId :=
  rt ← List.find (fun rt => bool_decide (prefix_from_endpoint (r_endpoint_id rt) = p))
         (hm_values (routable r));
  p_device_id <$> pipes r !! r_pipe rt.

Definition note_scan_hint (p : KeyPrefix) (device : DeviceId) (r : Routing)
    : ScanHintUpdate.t * Routing :=
  let insert_hint :=
    let r' := set_scan_hint (<[p := device]> (scan_hint r)) r in
    match scan_hint r !! p with
    | None => (ScanHintUpdate.New, wake_endpoint_waiters_for_prefix p r')
    | Some prev =>
        if bool_decide (prev = device) then (ScanHintUpdate.Unchanged, r')
        else (ScanHintUpdate.Replaced prev, wake_endpoint_waiters_for_prefix p r')
    end in
  match bound_device p r with
  | Some bound =>
      if bool_decide (bound = device) then insert_hint
      else (ScanHintUpdate.ActivelyBound bound, r)
  | None => insert_hint
  end.

Definition forget_scan_hint (p : KeyPrefix) (r : Routing) : Routing :=
  set_scan_hint (delete p (scan_hint r)) r.

Definition scan_hint_for_prefix (p : KeyPrefix) (r : Routing) : option DeviceId :=
  scan_hint r !! p.

Definition prefix_for_device (d : DeviceId) (r : Routing) : option KeyPrefix :=
  fst <$> List.find (fun '(_, d') => bool_decide (d' = d)) (hm_iter (scan_hint r)).

Definition device_for_endpoint (ep : EndpointId) (r : Routing) : option DeviceId :=
  match rt ← routable r !! ep; pipes r !! r_pipe rt with
  | Some p => Some (p_device_id p)
  | None => scan_hint r !! prefix_from_endpoint ep
  end.

Definition register_pending (now : Instant) (id : StableConnId)
    (target : option EndpointId) (r : Routing) : Routing :=
  let r := set_pending (<[id := mkPending id target now]> (pending r)) r in
  match target with
  | Some ep => wake_endpoint_waiters ep r
  | None => r
  end.

Definition evict_pending (id : StableConnId) (r : Routing) : option Pending * Routing :=
  (pending r !! id, set_pending (delete id (pending r)) r).

Definition insert_routable (now : Instant) (ep : EndpointId) (id : StableConnId)
    (dialer : Dialer.t) (r : Routing) : option Routable * Routing :=
  let prev := routable r !! ep in
  let r := set_pending (delete id (pending r)) r in
  let r := set_routable (<[ep := mkRoutable id ep dialer now]> (routable r)) r in
  (prev, wake_endpoint_waiters ep r).

Definition evict_routable (ep : EndpointId) (r : Routing) : option Routable * Routing :=
  match routable r !! ep with
  | Some rt => (Some rt, wake_endpoint_waiters ep (set_routable (delete ep (routable r)) r))
  | None => (None, r)
  end.

Definition evict_routable_if_pipe (ep : EndpointId) (id : StableConnId) (r : Routing)
    : option Routable * Routing :=
  match routable r !! ep with
  | Some current =>
      if r_pipe current =? id
      then (Some current, wake_endpoint_waiters ep (set_routable (delete ep (routable r)) r))
      else (None, r)
  | None => (None, r)
  end.

(** The endpoint some routable entry of which runs over [id]. *)
Definition endpoint_of_pipe (id : StableConnId) (r : Routing) : option EndpointId :=
  fst <$> List.find (fun '(_, rt) => r_pipe rt =? id) (hm_iter (routable r)).

Definition evict_pipe_state (id : StableConnId) (r : Routing) : bool * Routing :=
  let pend := pending r !! id in
  let r := set_pending (delete id (pending r)) r in
  let routable_endpoint := endpoint_of_pipe id r in
  let r := match routable_endpoint with
           | Some ep => set_routable (delete ep (routable r)) r
           | None => r
           end in
  let r := match pend ≫= pend_target_endpoint with
           | Some ep => wake_endpoint_waiters ep r
           | None => r
           end in
  let r := match routable_endpoint with
           | Some ep => wake_endpoint_waiters ep r
           | None => r
           end in
  (bool_decide (is_Some pend) || bool_decide (is_Some routable_endpoint), r).

Definition routable_pipe_for (ep : EndpointId) (r : Routing) : option StableConnId :=
  r_pipe <$> routable r !! ep.

Definition pending_pipe_for (ep : EndpointId) (r : Routing) : option StableConnId :=
  pend_pipe <$> List.find (fun p => bool_decide (pend_target_endpoint p = Some ep))
    (hm_values (pending r)).

Definition device_for_pipe (id : StableConnId) (r : Routing) : option DeviceId :=
  p_device_id <$> pipes r !! id.

(** [None] in the outer option is the overflow of [dropped_transmits += 1]. *)
Definition note_tombstoned_transmit (now : Instant) (id : StableConnId) (r : Routing)
    : option (option TombstonedTransmit * Routing) :=
  let r := prune_pipe_tombstones now r in
  match pipe_tombstones r !! id with
  | None => Some (None, r)
  | Some t =>
      n ← checked_add u64_max (t_dropped_transmits t) 1;
      let t' := mkPipeTombstone (t_device_id t) (t_direction t) (t_pipe_lifetime t)
                  (t_evicted_at t) n in
      Some (Some (mkTombstonedTransmit t' n),
            set_pipe_tombstones (<[id := t']> (pipe_tombstones r)) r)
  end.

Definition routable_entries (r : Routing) : list RoutableSnapshot :=
  omap (fun rt =>
    p ← pipes r !! r_pipe rt;
    Some (mkRoutableSnapshot (r_endpoint_id rt) (r_pipe rt) (p_device_id p) (r_verified_at rt)))
    (hm_values (routable r)).

(** ** Reservations *)

Definition reserve_outbound (now : Instant) (ep : EndpointId) (r : Routing)
    : StableConnId * Routing :=
  let p := prefix_from_endpoint ep in
  let r := prune_pipe_tombstones now r in
  match reservations r !! p with
  | Some existing => (res_stable_id existing, r)
  | None =>
      let '(id, r) := mint r in
      let r := set_reservations (<[p := mkReservation id ep now]> (reservations r)) r in
      (id, set_reserved_stable_ids (<[id := p]> (reserved_stable_ids r)) r)
  end.

Definition reservation_target (id : StableConnId) (r : Routing)
    : option (EndpointId * KeyPrefix) :=
  p ← reserved_stable_ids r !! id;
  res ← reservations r !! p;
  Some (res_endpoint_id res, p).

Definition reservation_for_prefix (p : KeyPrefix) (r : Routing) : option Reservation :=
  reservations r !! p.

Definition consume_reservation_for_prefix (p : KeyPrefix) (r : Routing)
    : option Reservation * Routing :=
  match reservations r !! p with
  | None => (None, r)
  | Some res =>
      let r := set_reservations (delete p (reservations r)) r in
      let r := set_reserved_stable_ids
                 (delete (res_stable_id res) (reserved_stable_ids r)) r in
      (Some res, set_pipe_tombstones (delete (res_stable_id res) (pipe_tombstones r)) r)
  end.

Definition consume_reservation_for_endpoint (ep : EndpointId) (r : Routing)
    : option Reservation * Routing :=
  consume_reservation_for_prefix (prefix_from_endpoint ep) r.

Definition consume_reservation_for_device (d : DeviceId) (r : Routing)
    : option Reservation * Routing :=
  match prefix_for_device d r with
  | Some p => consume_reservation_for_prefix p r
  | None => (None, r)
  end.

(** [None] is the [debug_assert!] on a live identifier. *)
Definition register_pipe_with_id (now : Instant) (id : StableConnId) (d : DeviceId)
    (dir : Direction.t) (r : Routing) : option Routing :=
  let r := prune_pipe_tombstones now r in
  let r := set_pipe_tombstones (delete id (pipe_tombstones r)) r in
  match pipes r !! id with
  | Some _ => None
  | None => Some (set_pipes (<[id := mkPipe id d dir now]> (pipes r)) r)
  end.

(** [Waker::will_wake] compares the identity of the waker. *)
Definition register_endpoint_waker (ep : EndpointId) (w : Waker) (r : Routing) : Routing :=
  let l := default [] (endpoint_wakers r !! ep) in
  set_endpoint_wakers
    (<[ep := if existsb (Z.eqb w) l then l else l ++ [w]]> (endpoint_wakers r)) r.

(** ** Promotion *)

(** The contenders for the slot of [remote]: the routable entry, if it is not
    the pipe itself, and the other live pending pipes that target [remote]. *)
Definition contenders (id : StableConnId) (self remote : EndpointId) (r : Routing)
    : list Contender :=
  match routable r !! remote with
  | Some existing =>
      if r_pipe existing =? id then []
      else [mkContender (r_pipe existing) (r_dialer existing)]
  | None => []
  end
  ++ omap (fun '(pid, p) =>
       if pid =? id then None
       else if negb (bool_decide (pend_target_endpoint p = Some remote)) then None
       else other ← pipes r !! pid;
            Some (mkContender pid (Dialer.compute self remote (p_direction other))))
       (hm_iter (pending r)).

(** One iteration of the eviction loop. *)
Definition evict_contender (r : Routing) (pid : StableConnId) : Routing :=
  let r := set_pending (delete pid (pending r)) r in
  match endpoint_of_pipe pid r with
  | Some ep => set_routable (delete ep (routable r)) r
  | None => r
  end.

Definition promote (now : Instant) (id : StableConnId) (self remote : EndpointId) (r : Routing)
    : PromoteOutcome.t * Routing :=
  match pipes r !! id with
  | None => (PromoteOutcome.Rejected, r)
  | Some p =>
      let new_dialer := Dialer.compute self remote (p_direction p) in
      let cs := contenders id self remote r in
      match Rule.decide new_dialer cs with
      | Decision.Accept | Decision.AcceptEvictingAll =>
          let evicted := c_pipe <$> cs in
          let r := foldl evict_contender r evicted in
          let r := set_routable (delete remote (routable r)) r in
          let r := set_pending (delete id (pending r)) r in
          let r := set_routable (<[remote := mkRoutable id remote new_dialer now]> (routable r)) r in
          (PromoteOutcome.Accepted evicted, wake_endpoint_waiters remote r)
      | Decision.Reject => (PromoteOutcome.Rejected, r)
      end
  end.
End Ops.
