(* ===== verification/L2cap.v ===== *)
(** * L2cap: length-prefixed datagrams on a byte stream ([transport/l2cap.rs])

    Framing, and the two loops of [spawn_l2cap_io_tasks].  A reader is the
    bytes it will still deliver and how it ends (end of file, or an error); a
    writer is what was written, how many more bytes it takes before it fails
    and whether [flush] fails.  Log lines are left out. *)

From S2P Require Import Prelude Peer Mtu Routing.
Open Scope Z_scope.

Module IoError.
Inductive t := InvalidInput | InvalidData | UnexpectedEof | Other (k : Z).
#[global] Instance t_eq_dec : EqDecision t.
Proof. solve_decision. Defined.
End IoError.

(** [AsyncWrite]. *)
Record Writer := mkWriter {
  written : Bytes;
  capacity : option nat;      (* [None]: writing never fails *)
  write_error : IoError.t;
  flush_error : option IoError.t;
}.

Definition set_written (bs : Bytes) (n : option nat) (w : Writer) : Writer :=
  mkWriter bs n (write_error w) (flush_error w).

(** [write_all]: everything is written, or an error after a part of it. *)
Definition write_all (bs : Bytes) (w : Writer) : option IoError.t * Writer :=
  match capacity w with
  | Some n =>
      if (length bs <=? n)%nat
      then (None, set_written (written w ++ bs) (Some (n - length bs)%nat) w)
      else (Some (write_error w), set_written (written w ++ take n bs) (Some O) w)
  | None => (None, set_written (written w ++ bs) None w)
  end.

(** [AsyncRead]: the bytes to come, then end of file or an error. *)
Record Reader := mkReader {
  stream : Bytes;
  read_error : option IoError.t;
}.

(** [read] of a one-byte buffer: [inr None] is 0 bytes, the end of file. *)
Definition read_byte (r : Reader) : (IoError.t + option Z) * Reader :=
  match stream r, read_error r with
  | b :: rest, e => (inr (Some b), mkReader rest e)
  | [], None => (inr None, r)
  | [], Some e => (inl e, r)
  end.

Definition read_exact (n : nat) (r : Reader) : (IoError.t + Bytes) * Reader :=
  if (n <=? length (stream r))%nat
  then (inr (take n (stream r)), mkReader (drop n (stream r)) (read_error r))
  else (inl (default IoError.UnexpectedEof (read_error r)), mkReader [] (read_error r)).

(** ** Framing *)

(** [write_framed_datagram]; the length fits [u16] by the first check. *)
Definition write_framed_datagram (payload : Bytes) (w : Writer) : option IoError.t * Writer :=
  if MAX_DATAGRAM_SIZE <? Z.of_nat (length payload) then (Some IoError.InvalidInput, w)
  else
    match write_all (to_le_bytes 2 (Z.of_nat (length payload))) w with
    | (Some e, w) => (Some e, w)
    | (None, w) =>
        match write_all payload w with
        | (Some e, w) => (Some e, w)
        | (None, w) => (flush_error w, w)
        end
    end.

Definition read_framed_datagram (r : Reader) : (IoError.t + option Bytes) * Reader :=
  match read_byte r with
  | (inl e, r) => (inl e, r)
  | (inr None, r) => (inr None, r)
  | (inr (Some b0), r) =>
      match read_exact 1 r with
      | (inl e, r) => (inl e, r)
      | (inr bs, r) =>
          let len := from_le_bytes (b0 :: bs) in
          if MAX_DATAGRAM_SIZE <? len then (inl IoError.InvalidData, r)
          else
            match read_exact (Z.to_nat len) r with
            | (inl e, r) => (inl e, r)
            | (inr buf, r) => (inr (Some buf), r)
            end
      end
  end.

(** ** The receive task *)

(** [IncomingPacket] of [driver.rs]. *)
Record IncomingPacket := mkIncomingPacket {
  ip_device_id : DeviceId;
  ip_stable_conn_id : StableConnId;
  ip_data : Bytes;
}.

Module RecvExit.
Inductive t := Eof | ReadError (e : IoError.t) | IncomingClosed | OutOfFuel.
End RecvExit.

(** What the receive task changes: the shared liveness clock, the shared
    counter of empty frames ([AtomicU64]), and the packets sent on
    [incoming_tx]. *)
Record RecvState := mkRecvState {
  last_rx_at : Instant;
  empty_frames : Z;
  delivered : list IncomingPacket;
}.

Definition bump (now : Instant) (st : RecvState) : RecvState :=
  mkRecvState now (empty_frames st) (delivered st).
Definition count_empty (st : RecvState) : RecvState :=
  mkRecvState (last_rx_at st) (wrapping_add u64_max (empty_frames st) 1) (delivered st).
Definition deliver (p : IncomingPacket) (st : RecvState) : RecvState :=
  mkRecvState (last_rx_at st) (empty_frames st) (delivered st ++ [p]).

Section RecvTask.
Context (device_id : DeviceId) (stable_conn_id : StableConnId).
(** The time at which the [i]-th frame has been read, and whether the send on
    [incoming_tx] then finds a receiver. *)
Context (now : nat -> Instant) (accepts : nat -> bool).

(** The loop of [recv_task].  Every iteration consumes at least one byte or
    ends, so the length of the stream plus one is fuel enough. *)
Fixpoint recv_loop (fuel i : nat) (r : Reader) (st : RecvState) : RecvExit.t * RecvState :=
  match fuel with
  | O => (RecvExit.OutOfFuel, st)
  | S fuel' =>
      match read_framed_datagram r with
      | (inr (Some data), r) =>
          let st := bump (now i) st in
          if decide (data = []) then recv_loop fuel' (S i) r (count_empty st)
          else if accepts i
          then recv_loop fuel' (S i) r
                 (deliver (mkIncomingPacket device_id stable_conn_id data) st)
          else (RecvExit.IncomingClosed, st)
      | (inr None, _) => (RecvExit.Eof, st)
      | (inl e, _) => (RecvExit.ReadError e, st)
      end
  end.

Definition recv_task (r : Reader) (st : RecvState) : RecvExit.t * RecvState :=
  recv_loop (S (length (stream r))) O r st.
End RecvTask.

(** The loop of [send_task] over the datagrams queued before the sender is
    dropped: it stops at the first error. *)
Fixpoint send_task (ds : list Bytes) (w : Writer) : option IoError.t * Writer :=
  match ds with
  | [] => (None, w)
  | d :: ds' =>
      match write_framed_datagram d w with
      | (Some e, w) => (Some e, w)
      | (None, w) => send_task ds' w
      end
  end.

(** ** Facts *)

Definition fits (d : Bytes) : Prop := Z.of_nat (length d) <= MAX_DATAGRAM_SIZE.

Definition frame (d : Bytes) : Bytes := to_le_bytes 2 (Z.of_nat (length d)) ++ d.

Lemma write_framed_ok d w :
  capacity w = None -> flush_error w = None -> fits d ->
  write_framed_datagram d w = (None, set_written (written w ++ frame d) None w).
Proof.
  unfold fits, write_framed_datagram, write_all, frame, set_written. intros Hc Hf Hd. rewrite Hc.
  destruct (Z.ltb_spec MAX_DATAGRAM_SIZE (Z.of_nat (length d))); [lia|].
  cbn [capacity written flush_error write_error]. by rewrite Hf, app_assoc.
Qed.

Lemma send_task_ok ds w :
  capacity w = None -> flush_error w = None -> Forall fits ds ->
  send_task ds w = (None, set_written (written w ++ mjoin (frame <$> ds)) None w).
Proof.
  intros Hc He Hf. revert w Hc He.
  induction Hf as [|d ds Hd _ IH]; intros w Hc He; cbn [send_task].
  - cbn. rewrite app_nil_r. destruct w; cbn in *. by subst.
  - rewrite write_framed_ok, IH by done. cbn. unfold set_written. cbn. by rewrite <- app_assoc.
Qed.

(** The two length bytes as the reader sees them. *)
Lemma len_bytes n : 0 <= n <= u16_max ->
  exists b0 b1, to_le_bytes 2 n = [b0; b1] /\ from_le_bytes [b0; b1] = n.
Proof.
  intros Hn. exists (n mod 256), (n / 256 mod 256). split; [done|].
  change [n mod 256; n / 256 mod 256] with (to_le_bytes 2 n).
  apply from_to_le_bytes. unfold u16_max in Hn. cbn. lia.
Qed.

(** Reading a length and what follows it. *)
Lemma read_framed_len n body err :
  0 <= n <= u16_max ->
  read_framed_datagram (mkReader (to_le_bytes 2 n ++ body) err)
  = if MAX_DATAGRAM_SIZE <? n then (inl IoError.InvalidData, mkReader body err)
    else match read_exact (Z.to_nat n) (mkReader body err) with
         | (inl e, r) => (inl e, r)
         | (inr buf, r) => (inr (Some buf), r)
         end.
Proof.
  intros (b0 & b1 & -> & Hrt)%len_bytes. unfold read_framed_datagram, read_byte.
  cbn [app stream read_error]. unfold read_exact at 1. cbn [length stream Nat.leb].
  change (from_le_bytes (b0 :: take 1 (b1 :: body))) with (from_le_bytes [b0; b1]).
  cbn [read_error drop]. by rewrite Hrt.
Qed.

Lemma fits_u16 d : fits d -> 0 <= Z.of_nat (length d) <= u16_max.
Proof. unfold fits, MAX_DATAGRAM_SIZE, u16_max. lia. Qed.

Lemma read_frame_ok d rest err :
  fits d ->
  read_framed_datagram (mkReader (frame d ++ rest) err) = (inr (Some d), mkReader rest err).
Proof.
  intros Hd. unfold frame. rewrite <- app_assoc, read_framed_len by by apply fits_u16.
  unfold fits in Hd. destruct (Z.ltb_spec MAX_DATAGRAM_SIZE (Z.of_nat (length d))); [lia|].
  unfold read_exact. cbn [stream read_error]. rewrite Nat2Z.id, length_app.
  rewrite (proj2 (Nat.leb_le _ _)) by lia. by rewrite take_app_length, drop_app_length.
Qed.

(** What the receive task owes for a run of datagrams. *)
Definition nonempty (ds : list Bytes) : list Bytes :=
  List.filter (fun d => negb (bool_decide (d = []))) ds.
Definition empties (ds : list Bytes) : Z :=
  Z.of_nat (length (List.filter (fun d => bool_decide (d = [])) ds)).

Lemma recv_loop_frames dev pipe now fuel i ds st :
  (length ds < fuel)%nat -> Forall fits ds -> 0 <= empty_frames st ->
  empty_frames st + empties ds <= u64_max ->
  recv_loop dev pipe now (fun _ => true) fuel i (mkReader (mjoin (frame <$> ds)) None) st
  = (RecvExit.Eof,
     mkRecvState (if ds is [] then last_rx_at st else now (i + length ds - 1)%nat)
       (empty_frames st + empties ds)
       (delivered st ++ (mkIncomingPacket dev pipe <$> nonempty ds))).
Proof.
  revert fuel i st. induction ds as [|d ds IH]; intros [|fuel] i st Hl Hf H0 Hm;
    try (cbn in Hl; lia).
  { cbn. rewrite app_nil_r. unfold empties. cbn. rewrite Z.add_0_r. by destruct st. }
  apply Forall_cons in Hf as [Hd Hf]. cbn [fmap list_fmap mjoin list_join recv_loop].
  rewrite read_frame_ok by done. cbn [length] in Hl |- *.
  unfold empties, nonempty in *. cbn [List.filter] in *.
  replace (i + S (length ds) - 1)%nat with (i + length ds)%nat by lia.
  assert (forall t : Instant, t = now i ->
    (match ds with [] => t | _ => now (S i + length ds - 1)%nat end) = now (i + length ds)%nat)
    as Hnow.
  { intros t ->. destruct ds; f_equal; cbn; lia. }
  destruct (decide (d = [])) as [->|Hne].
  - rewrite bool_decide_eq_true_2 in * by done. cbn [negb length] in *.
    rewrite IH; cbn [count_empty bump empty_frames delivered last_rx_at];
      rewrite ?wrapping_add_small by lia; try done; try lia.
    rewrite Hnow by done. do 2 f_equal. lia.
  - rewrite bool_decide_eq_false_2 in * by done. cbn [negb] in *.
    rewrite IH; cbn [deliver bump empty_frames delivered last_rx_at]; try done; try lia.
    rewrite Hnow by done. cbn. by rewrite <- app_assoc.
Qed.

Lemma length_frames ds : (length ds <= length (mjoin (frame <$> ds)))%nat.
Proof.
  induction ds as [|d ds IH]; [done|].
  change (mjoin (frame <$> (d :: ds))) with (frame d ++ mjoin (frame <$> ds)).
  assert (2 <= length (frame d))%nat.
  { unfold frame. rewrite length_app, length_to_le_bytes. lia. }
  rewrite length_app. cbn [length]. lia.
Qed.

(** C32. Datagrams survive the L2CAP stream.  Writing any datagrams of at most
    [MAX_DATAGRAM_SIZE] bytes succeeds, and the receive task at the other end of
    the stream ends at the end of the stream having passed on exactly the
    non-empty ones, in order and tagged with its own device and pipe, having
    counted the empty ones and stamped the liveness clock with the time of the
    last frame. *)
Theorem l2cap_stream_roundtrip (dev : DeviceId) (pipe : StableConnId) (now : nat -> Instant)
    (d : Bytes) (ds : list Bytes) (e : IoError.t) (st : RecvState) :
  Forall fits (d :: ds) ->
  0 <= empty_frames st -> empty_frames st + empties (d :: ds) <= u64_max ->
  exists w, send_task (d :: ds) (mkWriter [] None e None) = (None, w) /\
    recv_task dev pipe now (fun _ => true) (mkReader (written w) None) st
    = (RecvExit.Eof,
       mkRecvState (now (length ds)) (empty_frames st + empties (d :: ds))
         (delivered st ++ (mkIncomingPacket dev pipe <$> nonempty (d :: ds)))).
Proof.
  intros Hf H0 Hm. eexists. split; [by apply send_task_ok|]. cbn [written app set_written].
  unfold recv_task. rewrite recv_loop_frames; try done.
  - do 2 f_equal. f_equal. cbn. lia.
  - cbn [stream]. pose proof (length_frames (d :: ds)). lia.
Qed.

Lemma l2cap_stream_roundtrip_witness :
  exists w, send_task [[1; 2]; []; [3]] (mkWriter [] None IoError.InvalidData None) = (None, w) /\
    recv_task "dev" 4 (fun i => 10 + Z.of_nat i) (fun _ => true) (mkReader (written w) None)
      (mkRecvState 0 0 [])
    = (RecvExit.Eof,
       mkRecvState 12 1 [mkIncomingPacket "dev" 4 [1; 2]; mkIncomingPacket "dev" 4 [3]]).
Proof.
  apply (l2cap_stream_roundtrip "dev" 4 (fun i => 10 + Z.of_nat i) [1; 2] [[]; [3]]
           IoError.InvalidData (mkRecvState 0 0 [])); [|vm_compute; discriminate..].
  repeat constructor; vm_compute; discriminate.
Defined.

(** Damage is reported.  A stream that ends inside a frame gives
    [UnexpectedEof], never a shorter datagram; a length above
    [MAX_DATAGRAM_SIZE] gives [InvalidData]; and an oversized datagram is
    refused before anything is written. *)
Theorem l2cap_damage_reported (d rest : Bytes) (n : nat) (len : Z) (w : Writer)
    (err : option IoError.t) :
  (fits d -> (0 < n < length (frame d))%nat ->
     (read_framed_datagram (mkReader (take n (frame d)) None)).1 = inl IoError.UnexpectedEof) /\
  (MAX_DATAGRAM_SIZE < len <= u16_max ->
     (read_framed_datagram (mkReader (to_le_bytes 2 len ++ rest) err)).1
       = inl IoError.InvalidData) /\
  (~ fits d -> write_framed_datagram d w = (Some IoError.InvalidInput, w)).
Proof.
  split_and!.
  - intros Hd Hn. unfold frame in *. destruct n as [|[|n]]; [lia|done|].
    rewrite length_app, length_to_le_bytes in Hn.
    rewrite take_app_ge, length_to_le_bytes by (rewrite length_to_le_bytes; lia).
    rewrite read_framed_len by by apply fits_u16. unfold fits in Hd.
    destruct (Z.ltb_spec MAX_DATAGRAM_SIZE (Z.of_nat (length d))); [lia|].
    unfold read_exact. cbn [stream read_error]. rewrite Nat2Z.id, length_take.
    destruct (Nat.leb_spec (length d) ((S (S n) - 2) `min` length d)); [lia|done].
  - intros Hl. rewrite read_framed_len by (unfold MAX_DATAGRAM_SIZE in Hl; lia).
    by destruct (Z.ltb_spec MAX_DATAGRAM_SIZE len); [|lia].
  - unfold fits, write_framed_datagram. intros Hd.
    by destruct (Z.ltb_spec MAX_DATAGRAM_SIZE (Z.of_nat (length d))); [|lia].
Qed.

Lemma l2cap_damage_reported_witness :
  (read_framed_datagram (mkReader (take 3 (frame [7; 8])) None)).1
    = inl IoError.UnexpectedEof /\
  (read_framed_datagram (mkReader (to_le_bytes 2 65535 ++ []) None)).1
    = inl IoError.InvalidData.
Proof.
  destruct (l2cap_damage_reported [7; 8] [] 3 65535 (mkWriter [] None IoError.InvalidData None)
              None) as (H1 & H2 & _). split.
  - apply H1; [vm_compute; discriminate | cbn; lia].
  - apply H2. split; [reflexivity | vm_compute; discriminate].
Defined.
