(* ===== verification/RoutingFacts.v ===== *)
(** * RoutingFacts: what the routing table guarantees

    Tokens survive the trip through an address; identifiers are fresh and
    reservations consistent under any interleaving of the methods; promotion
    resolves a symmetric dial the same way on both ends, in any order. *)

From S2P Require Import Prelude Eviction Peer Routing.
Open Scope Z_scope.

(** ** Tokens *)

Section Tokens.
Context `{CustomAddrApi}.

(** A token survives the round trip through an address, and an address
    that parses is exactly the one its token is wrapped in: the transport id is
    the BLE one and the payload the 8 little-endian bytes of the token. *)
Theorem token_addr_roundtrip (t : Z) (a : CustomAddr) :
  (0 <= t <= u64_max -> parse_token_addr (token_custom_addr t) = inr t) /\
  (Forall is_byte (addr_data a) -> parse_token_addr a = inr t ->
     addr_id a = BLE_TRANSPORT_ID /\ addr_data a = to_le_bytes TOKEN_LEN t /\
     0 <= t <= u64_max).
Proof.
  unfold parse_token_addr, token_custom_addr, u64_max. split.
  - intros Ht. rewrite addr_id_from_parts, addr_data_from_parts, Z.eqb_refl,
      length_to_le_bytes, Nat.eqb_refl. cbn [negb].
    rewrite from_to_le_bytes; [done|]. change (256 ^ Z.of_nat TOKEN_LEN) with (2 ^ 64). lia.
  - intros Hb. destruct (Z.eqb_spec (addr_id a) BLE_TRANSPORT_ID) as [Hid|]; [|done].
    destruct (Nat.eqb_spec (length (addr_data a)) TOKEN_LEN) as [Hl|]; [|done].
    cbn [negb]. intros [= <-]. split; [done|]. split.
    + rewrite <- Hl. by rewrite to_from_le_bytes.
    + pose proof (from_le_bytes_range _ Hb) as Hr. rewrite Hl in Hr.
      change (256 ^ Z.of_nat TOKEN_LEN) with (2 ^ 64) in Hr. lia.
Qed.
End Tokens.

Lemma token_addr_roundtrip_witness :
  let a : @CustomAddr pair_addr := @token_custom_addr pair_addr 258 in
  @parse_token_addr pair_addr (@token_custom_addr pair_addr 258) = inr 258 /\
  (@addr_id pair_addr a = BLE_TRANSPORT_ID /\
   @addr_data pair_addr a = to_le_bytes TOKEN_LEN 258 /\ 0 <= 258 <= u64_max).
Proof.
  intros a. destruct (@token_addr_roundtrip pair_addr 258 a) as [H1 H2]. split.
  - apply H1. by split.
  - apply H2; [|reflexivity]. vm_compute. repeat constructor; discriminate.
Defined.

(** ** Who dialled *)

Lemma dialer_symmetric a b :
  a <> b ->
  Dialer.compute a b Direction.Outbound = Dialer.compute b a Direction.Inbound /\
  Dialer.compute a b Direction.Inbound = Dialer.compute b a Direction.Outbound.
Proof.
  intros Hne. unfold Dialer.compute. rewrite (bytes_ltb_total a b Hne).
  by destruct (bytes_ltb a b).
Qed.

(** ** Frames: what the bookkeeping does not touch *)

Section Frames.
Context {HI : HashIter}.

(** The part of the table the guarantees speak of. *)
Definition core (r : Routing) :=
  (pipes r, pending r, routable r, reservations r, reserved_stable_ids r, next_id r).

Lemma prune_core now r : core (prune_pipe_tombstones now r) = core r.
Proof. done. Qed.

Lemma wake_core ep r : core (wake_endpoint_waiters ep r) = core r.
Proof. done. Qed.

Lemma wake_prefix_core p r : core (wake_endpoint_waiters_for_prefix p r) = core r.
Proof.
  unfold wake_endpoint_waiters_for_prefix.
  generalize (List.filter (fun ep => bool_decide (prefix_from_endpoint ep = p))
    (hm_keys (endpoint_wakers r))). intros l. revert r.
  induction l as [|ep l IH]; intros r; cbn; [done|]. by rewrite IH.
Qed.

Lemma note_scan_hint_core p d r : core (note_scan_hint p d r).2 = core r.
Proof.
  unfold note_scan_hint. repeat case_match; cbn; rewrite ?wake_prefix_core; done.
Qed.
End Frames.

(** ** Identifiers and reservations, under any interleaving *)

Section Ids.
Context {HI : HashIter}.

(** The methods of the table, one per step.  [held] are the identifiers of
    reservations that were consumed and whose pipe is not registered yet: the
    driver calls [register_pipe_with_id] with exactly those.  Steps that mint
    assume the counter is not exhausted. *)
Inductive rstep : Routing * gset Z -> Routing * gset Z -> Prop :=
| rs_register_pipe r held now d dir id r' :
    next_id r < u64_max -> register_pipe now d dir r = (id, r') -> rstep (r, held) (r', held)
| rs_reserve r held now ep id r' :
    next_id r < u64_max -> reserve_outbound now ep r = (id, r') -> rstep (r, held) (r', held)
| rs_consume_prefix r held p res r' :
    consume_reservation_for_prefix p r = (Some res, r') ->
    rstep (r, held) (r', {[ res_stable_id res ]} ∪ held)
| rs_consume_device r held d res r' :
    consume_reservation_for_device d r = (Some res, r') ->
    rstep (r, held) (r', {[ res_stable_id res ]} ∪ held)
| rs_register_with_id r held now id d dir r' :
    id ∈ held -> register_pipe_with_id now id d dir r = Some r' ->
    rstep (r, held) (r', held ∖ {[ id ]})
| rs_evict_pipe r held now id : rstep (r, held) (evict_pipe now id r, held)
| rs_evict_pipe_state r held id b r' :
    evict_pipe_state id r = (b, r') -> rstep (r, held) (r', held)
| rs_pending r held now id target : rstep (r, held) (register_pending now id target r, held)
| rs_evict_pending r held id o r' : evict_pending id r = (o, r') -> rstep (r, held) (r', held)
| rs_insert_routable r held now ep id dl o r' :
    insert_routable now ep id dl r = (o, r') -> rstep (r, held) (r', held)
| rs_evict_routable r held ep o r' : evict_routable ep r = (o, r') -> rstep (r, held) (r', held)
| rs_evict_routable_if r held ep id o r' :
    evict_routable_if_pipe ep id r = (o, r') -> rstep (r, held) (r', held)
| rs_promote r held now id self remote o r' :
    promote now id self remote r = (o, r') -> rstep (r, held) (r', held)
| rs_scan_hint r held p d u r' : note_scan_hint p d r = (u, r') -> rstep (r, held) (r', held)
| rs_forget_hint r held p : rstep (r, held) (forget_scan_hint p r, held)
| rs_transmit r held now id o r' :
    note_tombstoned_transmit now id r = Some (o, r') -> rstep (r, held) (r', held)
| rs_waker r held ep w : rstep (r, held) (register_endpoint_waker ep w r, held).

Record IdInv (st : Routing * gset Z) : Prop := {
  id_pipes : forall id p, pipes st.1 !! id = Some p -> 0 < id <= next_id st.1 /\ p_id p = id;
  id_res : forall p res, reservations st.1 !! p = Some res ->
    prefix_from_endpoint (res_endpoint_id res) = p /\
    reserved_stable_ids st.1 !! res_stable_id res = Some p;
  id_rev : forall id p, reserved_stable_ids st.1 !! id = Some p ->
    0 < id <= next_id st.1 /\ pipes st.1 !! id = None /\ (id ∉ st.2) /\
    exists res, reservations st.1 !! p = Some res /\ res_stable_id res = id;
  id_held : forall id, id ∈ st.2 -> 0 < id <= next_id st.1 /\ pipes st.1 !! id = None;
  id_next : 0 <= next_id st.1;
}.

(** Fields the invariant reads. *)
Definition idcore (r : Routing) :=
  (pipes r, reservations r, reserved_stable_ids r, next_id r).

Lemma core_idcore r r' : core r = core r' -> idcore r = idcore r'.
Proof. unfold core, idcore. congruence. Qed.

Lemma IdInv_idcore r r' held : idcore r' = idcore r -> IdInv (r, held) -> IdInv (r', held).
Proof.
  unfold idcore. intros [= E1 E2 E3 E4] []. cbn in *.
  constructor; cbn; rewrite ?E1, ?E2, ?E3, ?E4; done.
Qed.

Lemma evict_contender_idcore r pid : idcore (evict_contender r pid) = idcore r.
Proof. unfold evict_contender. by case_match. Qed.

Lemma evict_all_idcore l r : idcore (foldl evict_contender r l) = idcore r.
Proof.
  revert r. induction l as [|pid l IH]; intros r; cbn; [done|].
  by rewrite IH, evict_contender_idcore.
Qed.

Lemma promote_idcore now id self remote r : idcore (promote now id self remote r).2 = idcore r.
Proof.
  unfold promote. destruct (pipes r !! id) as [p|]; [|done].
  destruct (Rule.decide _ _); cbn; try done;
    unfold idcore; cbn; exact (evict_all_idcore _ r).
Qed.

(** Minting. *)
Lemma mint_next r : 0 <= next_id r < u64_max ->
  mint r = (next_id r + 1, set_next_id (next_id r + 1) r).
Proof. intros Hr. unfold mint. by rewrite wrapping_add_small by lia. Qed.

Lemma IdInv_unused r held id :
  IdInv (r, held) -> next_id r < id ->
  pipes r !! id = None /\ reserved_stable_ids r !! id = None /\ id ∉ held.
Proof.
  intros [Hp _ Hv Hh _] Hid. cbn in *. split_and!.
  - destruct (pipes r !! id) eqn:E; [|done]. apply Hp in E. lia.
  - destruct (reserved_stable_ids r !! id) eqn:E; [|done]. apply Hv in E. lia.
  - intros E. apply Hh in E. lia.
Qed.

Lemma IdInv_register_pipe r held now d dir :
  IdInv (r, held) -> next_id r < u64_max ->
  IdInv ((register_pipe now d dir r).2, held) /\ (register_pipe now d dir r).1 = next_id r + 1.
Proof.
  intros Hi Hn. destruct (IdInv_unused r held (next_id r + 1) Hi ltac:(lia)) as (U1 & U2 & U3).
  pose proof (id_next _ Hi) as H0. cbn in H0. unfold register_pipe. rewrite mint_next by done.
  split; [|done]. set (r1 := set_next_id _ _).
  destruct Hi as [Hp Hr Hv Hh _]. cbn in *.
  constructor; cbn.
  - intros id p [[<- <-]|[_ Hd]]%lookup_insert_Some; cbn; [lia|]. apply Hp in Hd. lia.
  - done.
  - intros id p Hid. destruct (Hv _ _ Hid) as (Hlt & Hpi & Hn' & Hex).
    split_and!; try done; try lia. rewrite lookup_insert_ne; [done|congruence].
  - intros id Hid. destruct (Hh _ Hid) as [Hlt Hpi]. split; [lia|].
    rewrite lookup_insert_ne; [done|]. intros <-. done.
  - lia.
Qed.

Lemma IdInv_reserve r held now ep :
  IdInv (r, held) -> next_id r < u64_max -> IdInv ((reserve_outbound now ep r).2, held).
Proof.
  intros Hi Hn. unfold reserve_outbound. cbn zeta.
  pose proof (prune_core now r) as Hc. apply core_idcore in Hc.
  set (r1 := prune_pipe_tombstones now r) in *.
  apply (IdInv_idcore r r1) in Hi; [|done]. assert (next_id r1 = next_id r) as E4 by done. rewrite <- E4 in Hn.
  destruct (reservations r1 !! _) as [res|] eqn:Er; [done|].
  pose proof (id_next _ Hi) as H0. cbn in H0. rewrite mint_next by done.
  destruct (IdInv_unused r1 held (next_id r1 + 1) Hi ltac:(lia)) as (U1 & U2 & U3).
  destruct Hi as [Hp Hr Hv Hh _]. cbn in *.
  constructor; cbn.
  - intros id p Hd. apply Hp in Hd. lia.
  - intros p res [[<- <-]|[Hne Hd]]%lookup_insert_Some; cbn.
    + by rewrite lookup_insert_eq.
    + destruct (Hr _ _ Hd) as [Hpre Hst]. split; [done|].
      rewrite lookup_insert_ne; [done|]. intros E. rewrite <- E in Hst. congruence.
  - intros id p [[<- <-]|[Hne Hd]]%lookup_insert_Some.
    + split_and!; [lia|lia|done|done|]. eexists. by rewrite lookup_insert_eq.
    + destruct (Hv _ _ Hd) as (Hlt & Hpi & Hnh & res & Hres & Hst).
      split_and!; [lia|lia|done|done|]. exists res. split; [|done].
      rewrite lookup_insert_ne; [done|]. intros <-. congruence.
  - intros id Hid. apply Hh in Hid. split; [lia|tauto].
  - lia.
Qed.

Lemma IdInv_consume r held p res :
  IdInv (r, held) -> (consume_reservation_for_prefix p r).1 = Some res ->
  IdInv ((consume_reservation_for_prefix p r).2, {[ res_stable_id res ]} ∪ held).
Proof.
  intros [Hp Hr Hv Hh H0] E. unfold consume_reservation_for_prefix in *.
  destruct (reservations r !! p) as [res'|] eqn:Er; [|done]. cbn in *. injection E as ->.
  destruct (Hr _ _ Er) as [_ Hst]. destruct (Hv _ _ Hst) as (Hlt & Hpi & Hnh & _).
  constructor; cbn; [done| | | |done].
  - intros p' res' [Hne Hd]%lookup_delete_Some. destruct (Hr _ _ Hd) as [Hpre Hst'].
    split; [done|]. rewrite lookup_delete_ne; [done|]. intros E. rewrite E in Hst. congruence.
  - intros id p' [Hne Hd]%lookup_delete_Some.
    destruct (Hv _ _ Hd) as (Hlt' & Hpi' & Hnh' & res' & Hres & Hst').
    split_and!; [lia|lia|done|set_solver|]. exists res'. split; [|done].
    rewrite lookup_delete_ne; [done|]. intros <-. congruence.
  - intros id [Hid%elem_of_singleton|Hid]%elem_of_union; [by subst|eauto].
Qed.

Lemma IdInv_register_with_id r held now id d dir :
  IdInv (r, held) -> id ∈ held ->
  exists r', register_pipe_with_id now id d dir r = Some r' /\ IdInv (r', held ∖ {[ id ]}).
Proof.
  intros Hi Hid. unfold register_pipe_with_id. cbn zeta.
  pose proof (prune_core now r) as Hc. apply core_idcore in Hc.
  set (r1 := prune_pipe_tombstones now r) in *.
  apply (IdInv_idcore r r1) in Hi; [|done].
  destruct Hi as [Hp Hr Hv Hh H0]. cbn in *. destruct (Hh _ Hid) as [Hlt Hpi]. rewrite Hpi.
  eexists. split; [done|]. constructor; cbn; [|done| | |done].
  - intros id' p [[<- <-]|[_ Hd]]%lookup_insert_Some; cbn; [lia|eauto].
  - intros id' p Hd. destruct (Hv _ _ Hd) as (Hlt' & Hpi' & Hnh & Hex).
    split_and!; [lia|lia| |set_solver|done]. rewrite lookup_insert_ne; [done|]. intros <-. done.
  - intros id' Hd. assert (id' ∈ held /\ id' <> id) as [Hd' Hne] by set_solver.
    rewrite lookup_insert_ne by done. eauto.
Qed.

Lemma IdInv_evict_pipe r held now id : IdInv (r, held) -> IdInv (evict_pipe now id r, held).
Proof.
  intros Hi. unfold evict_pipe. destruct (pipes r !! id) as [p|] eqn:E; [|done]. cbn zeta.
  set (r1 := set_pipes _ _).
  assert (IdInv (r1, held)) as Hi1.
  { destruct Hi as [Hp Hr Hv Hh H0]. cbn in *. constructor; cbn; [|done| | |done].
    - intros id' p' [_ Hd]%lookup_delete_Some. eauto.
    - intros id' p' Hd. destruct (Hv _ _ Hd) as (? & ? & ? & ?).
      rewrite lookup_delete_None. auto.
    - intros id' Hd. destruct (Hh _ Hd). rewrite lookup_delete_None. auto. }
  eapply IdInv_idcore; [|exact Hi1]. apply core_idcore.
  exact (prune_core now r1).
Qed.

Lemma IdInv_step st st' : rstep st st' -> IdInv st -> IdInv st'.
Proof.
  destruct 1 as [r held now d dir id r' Hn E|r held now ep id r' Hn E|r held p res r' E
    |r held d res r' E|r held now id d dir r' Hid E|r held now id|r held id b r' E
    |r held now id t|r held id o r' E|r held now ep id dl o r' E|r held ep o r' E
    |r held ep id o r' E|r held now id self remote o r' E|r held p d u r' E|r held p
    |r held now id o r' E|r held ep w]; intros Hi.
  - destruct (IdInv_register_pipe r held now d dir Hi Hn) as [H _]. by rewrite E in H.
  - pose proof (IdInv_reserve r held now ep Hi Hn) as H. by rewrite E in H.
  - pose proof (IdInv_consume r held p res Hi) as H. rewrite E in H. auto.
  - unfold consume_reservation_for_device in E. destruct (prefix_for_device d r) as [p|]; [|done].
    pose proof (IdInv_consume r held p res Hi) as H. rewrite E in H. auto.
  - destruct (IdInv_register_with_id r held now id d dir Hi Hid) as (r'' & E' & H). congruence.
  - by apply IdInv_evict_pipe.
  - eapply IdInv_idcore, Hi. injection E as _ <-. unfold evict_pipe_state; cbn.
    by repeat case_match.
  - eapply IdInv_idcore, Hi. unfold register_pending. by case_match.
  - eapply IdInv_idcore, Hi. by injection E as _ <-.
  - eapply IdInv_idcore, Hi. by injection E as _ <-.
  - eapply IdInv_idcore, Hi. unfold evict_routable in E. by case_match; simplify_eq.
  - eapply IdInv_idcore, Hi. unfold evict_routable_if_pipe in E. by repeat case_match; simplify_eq.
  - eapply IdInv_idcore, Hi. pose proof (promote_idcore now id self remote r) as H.
    by rewrite E in H.
  - eapply IdInv_idcore, Hi. pose proof (note_scan_hint_core p d r) as H. rewrite E in H.
    by apply core_idcore.
  - by eapply IdInv_idcore, Hi.
  - eapply IdInv_idcore, Hi. unfold note_tombstoned_transmit in E. cbn zeta in E.
    pose proof (core_idcore _ _ (prune_core now r)) as Hc.
    destruct (pipe_tombstones _ !! id) as [t|]; [|injection E as _ <-; exact Hc].
    destruct (checked_add _ _ _); cbn in E; [|done]. injection E as _ <-. exact Hc.
  - by eapply IdInv_idcore, Hi.
Qed.

Definition rreachable (st : Routing * gset Z) : Prop := rtc rstep (Routing_new, ∅) st.

Lemma rreachable_inv st : rreachable st -> IdInv st.
Proof.
  intros Hr. unfold rreachable in Hr.
  assert (IdInv (Routing_new, ∅)) as H0 by (constructor; cbn; set_solver).
  induction Hr as [|? ? ? Hs _ IH]; [done|]. by apply IH, (IdInv_step _ _ Hs).
Qed.

(** C23. Identifiers and reservations.  Whatever order the methods are called in,
    until the counter is exhausted: the two reservation maps are inverse to each
    other, in both directions, so the target of a reserved identifier is the
    endpoint the reservation was made for, under its own prefix, and an identifier
    is reserved exactly while its reservation is there, which ends when it is
    consumed; a reserved identifier is neither live nor waiting to be bound; a new
    pipe gets an identifier that no live pipe, reservation or pending binding has; and
    binding a consumed reservation never meets a live pipe, so the assertion in
    [register_pipe_with_id] holds. *)
Theorem identifiers_consistent (r : Routing) (held : gset Z) :
  rreachable (r, held) ->
  (forall p res, reservations r !! p = Some res ->
     reservation_target (res_stable_id res) r = Some (res_endpoint_id res, p) /\
     prefix_from_endpoint (res_endpoint_id res) = p /\
     pipes r !! res_stable_id res = None) /\
  (forall id p, reserved_stable_ids r !! id = Some p ->
     pipes r !! id = None /\ (id ∉ held) /\
     exists res, reservations r !! p = Some res /\ res_stable_id res = id) /\
  (next_id r < u64_max -> forall now d dir,
     let id := (register_pipe now d dir r).1 in
     pipes r !! id = None /\ reserved_stable_ids r !! id = None /\ id ∉ held) /\
  (forall id now d dir, id ∈ held -> is_Some (register_pipe_with_id now id d dir r)).
Proof.
  intros Hr%rreachable_inv. split_and!.
  - intros p res Hp. destruct (id_res _ Hr _ _ Hp) as [Hpre Hst]. cbn in *.
    destruct (id_rev _ Hr _ _ Hst) as (_ & Hpi & _). split_and!; [|done|done].
    unfold reservation_target. rewrite Hst. cbn. by rewrite Hp.
  - intros id p Hd. by apply (id_rev _ Hr) in Hd as (_ & ?).
  - intros Hn now d dir id. destruct (IdInv_register_pipe r held now d dir Hr Hn) as [_ E].
    subst id. rewrite E. apply (IdInv_unused r held); [done|lia].
  - intros id now d dir Hid.
    destruct (IdInv_register_with_id r held now id d dir Hr Hid) as (r' & -> & _). eauto.
Qed.
End Ids.

(** ** Promotion *)

Section Promotion.
Context {HI : HashIter}.

Lemma decide_reject d cs :
  Rule.decide d cs = Decision.Reject <->
  d = Dialer.Low /\ exists c, c ∈ cs /\ c_dialer c = Dialer.High.
Proof.
  unfold Rule.decide. destruct cs as [|c0 cs].
  - split; [done|]. intros (_ & c & Hc & _). set_solver.
  - set (b := existsb _ _).
    assert (b = true <-> exists c, c ∈ c0 :: cs /\ c_dialer c = Dialer.High) as Hb.
    { unfold b. rewrite existsb_exists. setoid_rewrite bool_decide_eq_true.
      by setoid_rewrite list_elem_of_In. }
    destruct d, b; split; try done; try (by intros [? _]).
    + intros _. split; [done|]. by apply Hb.
    + intros [_ Hc]. apply Hb in Hc. done.
Qed.

(** A live pipe that the rule does not reject takes the slot and leaves the
    pending pool, and its rivals leave both pools' slots for [remote]. *)
Lemma promote_accept now id self remote r p :
  pipes r !! id = Some p ->
  Rule.decide (Dialer.compute self remote (p_direction p)) (contenders id self remote r)
    <> Decision.Reject ->
  let '(o, r') := promote now id self remote r in
  o = PromoteOutcome.Accepted (c_pipe <$> contenders id self remote r) /\
  routable r' !! remote
    = Some (mkRoutable id remote (Dialer.compute self remote (p_direction p)) now) /\
  pending r' !! id = None /\ pipes r' = pipes r.
Proof.
  intros Hp Hd. pose proof (promote_idcore now id self remote r) as Hc.
  unfold promote in *. rewrite Hp in *.
  destruct (Rule.decide _ _); [..|done]; cbn in *; rewrite lookup_insert_eq, lookup_delete_eq;
    injection Hc as E _ _ _; by rewrite E.
Qed.

Lemma promote_reject now id self remote r p :
  pipes r !! id = Some p ->
  Rule.decide (Dialer.compute self remote (p_direction p)) (contenders id self remote r)
    = Decision.Reject ->
  promote now id self remote r = (PromoteOutcome.Rejected, r).
Proof. intros Hp Hd. unfold promote. by rewrite Hp, Hd. Qed.

Lemma incumbent_contends id self remote r rt :
  routable r !! remote = Some rt -> r_pipe rt <> id ->
  mkContender (r_pipe rt) (r_dialer rt) ∈ contenders id self remote r.
Proof.
  intros Hr Hne. unfold contenders. rewrite Hr, (proj2 (Z.eqb_neq _ _) Hne). set_solver.
Qed.

(** A pipe dialled by the higher endpoint always gets the slot. *)
Lemma promote_high now id self remote r p :
  pipes r !! id = Some p -> Dialer.compute self remote (p_direction p) = Dialer.High ->
  let r' := (promote now id self remote r).2 in
  routable r' !! remote = Some (mkRoutable id remote Dialer.High now) /\ pipes r' = pipes r.
Proof.
  intros Hp Hh. pose proof (promote_accept now id self remote r p Hp) as H. rewrite Hh in H.
  destruct (promote now id self remote r) as [o r']. cbn.
  destruct H as (_ & Hr & _ & E); [|done]. rewrite decide_reject. by intros [? _].
Qed.

(** A pipe dialled by the lower endpoint does not displace it. *)
Lemma promote_low_loses now id self remote r p rt :
  pipes r !! id = Some p -> Dialer.compute self remote (p_direction p) = Dialer.Low ->
  routable r !! remote = Some rt -> r_pipe rt <> id -> r_dialer rt = Dialer.High ->
  promote now id self remote r = (PromoteOutcome.Rejected, r).
Proof.
  intros Hp Hl Hr Hne Hh. eapply promote_reject; [done|]. apply decide_reject.
  split; [done|]. eexists. split; [by apply incumbent_contends|done].
Qed.

Lemma promote_pipes now id self remote r : pipes (promote now id self remote r).2 = pipes r.
Proof. pose proof (promote_idcore now id self remote r) as Hc. by injection Hc. Qed.

(** Two handshakes complete at one end, in either order. *)
Definition promote_two (first_hi : bool) (t1 t2 : Instant) (hi lo : StableConnId)
    (self remote : EndpointId) (r : Routing) : Routing :=
  let '(x, y) := if first_hi then (hi, lo) else (lo, hi) in
  (promote t2 y self remote (promote t1 x self remote r).2).2.

Lemma promote_two_high first_hi t1 t2 hi lo self remote r ph pl :
  pipes r !! hi = Some ph -> pipes r !! lo = Some pl -> hi <> lo ->
  Dialer.compute self remote (p_direction ph) = Dialer.High ->
  Dialer.compute self remote (p_direction pl) = Dialer.Low ->
  routable_pipe_for remote (promote_two first_hi t1 t2 hi lo self remote r) = Some hi.
Proof.
  intros Hh Hl Hne Dh Dl. unfold promote_two, routable_pipe_for. destruct first_hi.
  - destruct (promote_high t1 hi self remote r ph Hh Dh) as [Hr Hp]. cbn zeta in *.
    erewrite (promote_low_loses t2 lo); [| |exact Dl|exact Hr|done|done].
    + cbn. by rewrite Hr.
    + by rewrite Hp.
  - pose proof (promote_pipes t1 lo self remote r) as Hp.
    destruct (promote_high t2 hi self remote (promote t1 lo self remote r).2 ph) as [Hr _];
      [by rewrite Hp|done|]. by rewrite Hr.
Qed.

(** C16. A symmetric dial converges.  Two peers dialled each other, so each end
    has two live pipes to the other, one per link.  Whatever else is in the two
    tables, in whatever order each end's two handshakes complete, and whichever
    identifiers the pipes have, both ends end up routing over the same link: the
    one the peer with the higher endpoint id dialled. *)
Theorem symmetric_dial_converges (a b : EndpointId) (ra rb : Routing)
    (a_out a_in b_out b_in : StableConnId) (pao pai pbo pbi : Pipe)
    (oa ob : bool) (t1 t2 t3 t4 : Instant) :
  a <> b -> a_out <> a_in -> b_out <> b_in ->
  pipes ra !! a_out = Some pao -> p_direction pao = Direction.Outbound ->
  pipes ra !! a_in = Some pai -> p_direction pai = Direction.Inbound ->
  pipes rb !! b_out = Some pbo -> p_direction pbo = Direction.Outbound ->
  pipes rb !! b_in = Some pbi -> p_direction pbi = Direction.Inbound ->
  let higher_is_a := bytes_ltb b a in
  let at_a := if higher_is_a then promote_two oa t1 t2 a_out a_in a b ra
              else promote_two oa t1 t2 a_in a_out a b ra in
  let at_b := if higher_is_a then promote_two ob t3 t4 b_in b_out b a rb
              else promote_two ob t3 t4 b_out b_in b a rb in
  routable_pipe_for b at_a = Some (if higher_is_a then a_out else a_in) /\
  routable_pipe_for a at_b = Some (if higher_is_a then b_in else b_out).
Proof.
  intros Hab Hna Hnb Pao Dao Pai Dai Pbo Dbo Pbi Dbi. cbn zeta.
  pose proof (bytes_ltb_total a b Hab) as Ht.
  destruct (bytes_ltb b a) eqn:E; symmetry in Ht.
  - apply negb_true_iff in Ht. split.
    + eapply promote_two_high; try done; unfold Dialer.compute; by rewrite Ht, ?Dao, ?Dai.
    + eapply promote_two_high; try done; unfold Dialer.compute; by rewrite E, ?Dbo, ?Dbi.
  - apply negb_false_iff in Ht. split.
    + eapply promote_two_high; try done; unfold Dialer.compute; by rewrite Ht, ?Dao, ?Dai.
    + eapply promote_two_high; try done; unfold Dialer.compute; by rewrite E, ?Dbo, ?Dbi.
Qed.
End Promotion.

(** ** Tombstones *)

Section TombstoneBound.
Context {HI : HashIter}.

(** Tombstones are bounded.  Pruning keeps at most [MAX_PIPE_TOMBSTONES]
    tombstones, none of them older than [PIPE_TOMBSTONE_TTL]; every tombstone it
    keeps is unchanged, and one that it drops was expired or is no younger than
    any that it keeps. *)
Theorem tombstones_bounded (now : Instant) (r : Routing) :
  let ts := pipe_tombstones r in
  let ts' := pipe_tombstones (prune_pipe_tombstones now r) in
  (size ts' <= MAX_PIPE_TOMBSTONES)%nat /\
  (forall id t, ts' !! id = Some t -> ts !! id = Some t /\
     saturating_duration_since now (t_evicted_at t) <= PIPE_TOMBSTONE_TTL) /\
  (forall id t, ts !! id = Some t -> ts' !! id = None ->
     PIPE_TOMBSTONE_TTL < saturating_duration_since now (t_evicted_at t) \/
     forall id' t', ts' !! id' = Some t' -> t_evicted_at t <= t_evicted_at t').
Proof.
  unfold prune_pipe_tombstones. cbn zeta. set (live := filter _ (pipe_tombstones r)).
  assert (forall id t, live !! id = Some t <-> pipe_tombstones r !! id = Some t /\
    saturating_duration_since now (t_evicted_at t) <= PIPE_TOMBSTONE_TTL) as Hlive.
  { intros id t. unfold live. by rewrite map_lookup_filter_Some. }
  assert (forall id t, pipe_tombstones r !! id = Some t -> live !! id = None ->
    PIPE_TOMBSTONE_TTL < saturating_duration_since now (t_evicted_at t)) as Hexp.
  { intros id t Ht Hn. destruct (Z.le_gt_cases (saturating_duration_since now (t_evicted_at t))
      PIPE_TOMBSTONE_TTL); [|done]. assert (live !! id = Some t) by (by apply Hlive). congruence. }
  destruct (drop_oldest_spec t_evicted_at MAX_PIPE_TOMBSTONES live) as (Hsz & Hsub & Hold).
  cbn. split_and!; [done| |].
  - intros id t Ht. by apply Hlive, Hsub.
  - intros id t Ht Hn. destruct (live !! id) as [t'|] eqn:El; [|eauto].
    assert (t' = t) as -> by (apply Hlive in El as [? _]; congruence).
    right. by apply (Hold id).
Qed.
End TombstoneBound.

(** ** The counter *)

(** An exhausted counter mints the reserved token.  When [next_id] has
    reached [u64::MAX], the next pipe gets the identifier 0, which is the token
    of [local_custom_addr]: the wrapping addition does not skip it. *)
Lemma exhausted_counter_mints_local_token {HI : HashIter} (now : Instant) (d : DeviceId)
    (dir : Direction.t) (r : Routing) :
  let r0 := set_next_id u64_max r in
  (register_pipe now d dir r0).1 = LOCAL_ADDR_TOKEN /\
  is_Some (pipes (register_pipe now d dir r0).2 !! LOCAL_ADDR_TOKEN).
Proof. cbn. split; [done|]. by rewrite lookup_insert_eq. Qed.

(** ** Witnesses *)

Section RoutingWitnesses.
#[local] Instance rw_iter : HashIter := canonical_iter.

(** A reservation is made and consumed; its pipe is not registered yet. *)
Lemma identifiers_consistent_witness :
  exists r held, rreachable (r, held) /\ held = {[ 1 ]} /\
    (forall p res, reservations r !! p = Some res ->
       reservation_target (res_stable_id res) r = Some (res_endpoint_id res, p) /\
       prefix_from_endpoint (res_endpoint_id res) = p /\
       pipes r !! res_stable_id res = None) /\
    (forall id p, reserved_stable_ids r !! id = Some p ->
       pipes r !! id = None /\ (id ∉ held) /\
       exists res, reservations r !! p = Some res /\ res_stable_id res = id) /\
    (next_id r < u64_max -> forall now d dir,
       let id := (register_pipe now d dir r).1 in
       pipes r !! id = None /\ reserved_stable_ids r !! id = None /\ id ∉ held) /\
    (forall id now d dir, id ∈ held -> is_Some (register_pipe_with_id now id d dir r)).
Proof.
  set (r1 := (reserve_outbound 0 [1] Routing_new).2).
  set (r2 := (consume_reservation_for_endpoint [1] r1).2).
  assert (rreachable (r2, {[ 1 ]} ∪ ∅)) as Hr.
  { eapply rtc_l; [apply (rs_reserve _ _ 0 [1] 1 r1); reflexivity|].
    eapply rtc_l; [apply (rs_consume_prefix r1 ∅ (prefix_from_endpoint [1])
      (mkReservation 1 [1] 0) r2); vm_compute; reflexivity|]. apply rtc_refl. }
  exists r2, ({[ 1 ]} ∪ ∅). split; [exact Hr|]. split; [set_solver|].
  exact (identifiers_consistent r2 _ Hr).
Defined.

Definition rw_table (out_ inn : Z) : Routing :=
  set_pipes (<[out_ := mkPipe out_ "x" Direction.Outbound 0]>
    (<[inn := mkPipe inn "y" Direction.Inbound 0]> ∅)) Routing_new.

Lemma symmetric_dial_converges_witness :
  let a := [1; 2] in let b := [1; 3] in
  routable_pipe_for b (promote_two false 0 1 20 10 a b (rw_table 10 20)) = Some 20 /\
  routable_pipe_for a (promote_two true 0 1 5 6 b a (rw_table 5 6)) = Some 5.
Proof.
  exact (symmetric_dial_converges [1; 2] [1; 3] (rw_table 10 20) (rw_table 5 6) 10 20 5 6
    (mkPipe 10 "x" Direction.Outbound 0) (mkPipe 20 "y" Direction.Inbound 0)
    (mkPipe 5 "x" Direction.Outbound 0) (mkPipe 6 "y" Direction.Inbound 0)
    false true 0 1 0 1 ltac:(discriminate) ltac:(discriminate) ltac:(discriminate)
    eq_refl eq_refl eq_refl eq_refl eq_refl eq_refl eq_refl eq_refl).
Defined.
End RoutingWitnesses.
