(* ===== verification/Conns.v ===== *)
(** * Conns: closing the connections that ride a pipe ([transport/conns.rs])

    The connection registry.  A connection handle is an identifier; what iroh
    says about a connection (whether the weak handle still upgrades, and the
    remote addresses of its open paths) is the parameter [paths], read anew by
    every operation.  Calls of [Connection::close] are recorded in [closes]. *)

From S2P Require Import Prelude Eviction Peer Routing.
Open Scope Z_scope.

Definition BLE_CLOSE_CODE_CONFLICT : Z := 0.
Definition BLE_CLOSE_CODE_RETRY : Z := 1.
Definition ascii_bytes (s : string) : Bytes :=
  (fun a => Z.of_nat (Ascii.nat_of_ascii a)) <$> String.list_ascii_of_string s.
Definition BLE_CLOSE_REASON_CONFLICT : Bytes := ascii_bytes "ble_conflict".
Definition BLE_CLOSE_REASON_EVICTED : Bytes := ascii_bytes "ble_evicted".
Definition BLE_CLOSE_REASON_PIPE_CLOSED : Bytes := ascii_bytes "ble_pipe_closed".

Definition CLOSED_PIPE_TTL : Duration := from_secs 30.
Definition MAX_CLOSED_PIPES : nat := 128.

(** [iroh_base::TransportAddr]: a custom address, or one of another kind. *)
Module TransportAddr.
Inductive t {CA : CustomAddrApi} := Custom (addr : CustomAddr) | Other.
End TransportAddr.

Abbreviation Handle := Z (only parsing).

Record ClosedPipe := mkClosedPipe {
  cp_code : Z;
  cp_reason : Bytes;
  cp_closed_at : Instant;
  cp_seq : Z;
}.

(** A call of [Connection::close]. *)
Record CloseCall := mkCloseCall {
  cc_handle : Handle;
  cc_code : Z;
  cc_reason : Bytes;
}.

Record ConnectionRegistry := mkConnectionRegistry {
  conn_next_id : Z;
  buckets : gmap (EndpointId * Z) (gmap Z Handle);
  closed : gmap Z ClosedPipe;
  next_close_seq : Z;
  closes : list CloseCall;
}.

Definition ConnectionRegistry_default : ConnectionRegistry :=
  mkConnectionRegistry 0 ∅ ∅ 0 [].

Definition set_conn_next_id (v : Z) (c : ConnectionRegistry) : ConnectionRegistry :=
  mkConnectionRegistry v (buckets c) (closed c) (next_close_seq c) (closes c).
Definition set_buckets (v : gmap (EndpointId * Z) (gmap Z Handle)) (c : ConnectionRegistry)
    : ConnectionRegistry :=
  mkConnectionRegistry (conn_next_id c) v (closed c) (next_close_seq c) (closes c).
Definition set_closed (v : gmap Z ClosedPipe) (c : ConnectionRegistry) : ConnectionRegistry :=
  mkConnectionRegistry (conn_next_id c) (buckets c) v (next_close_seq c) (closes c).
Definition set_next_close_seq (v : Z) (c : ConnectionRegistry) : ConnectionRegistry :=
  mkConnectionRegistry (conn_next_id c) (buckets c) (closed c) v (closes c).
Definition set_closes (v : list CloseCall) (c : ConnectionRegistry) : ConnectionRegistry :=
  mkConnectionRegistry (conn_next_id c) (buckets c) (closed c) (next_close_seq c) v.

Section Conns.
Context {HI : HashIter} {CA : CustomAddrApi}.
(** [None]: the weak handle no longer upgrades. *)
Implicit Types (paths : Handle -> option (list TransportAddr.t)).

(** A path that does not ride [pipe]. *)
Definition other_path (pipe : StableConnId) (addr : TransportAddr.t) : bool :=
  match addr with
  | TransportAddr.Custom a =>
      if addr_id a =? BLE_TRANSPORT_ID then
        match parse_token_addr a with
        | inr t => negb (t =? pipe)
        | inl _ => true
        end
      else true
  | TransportAddr.Other => true
  end.

(** Whether [close_if_only_path] closes the connection of [h]. *)
Definition only_path paths (pipe : StableConnId) (h : Handle) : bool :=
  match paths h with
  | None => false
  | Some ps => negb (existsb (other_path pipe) ps)
  end.

Definition close_if_only_path paths (pipe : StableConnId) (code : Z) (reason : Bytes)
    (h : Handle) (c : ConnectionRegistry) : bool * ConnectionRegistry :=
  if only_path paths pipe h
  then (true, set_closes (closes c ++ [mkCloseCall h code reason]) c)
  else (false, c).

Definition prune_closed (now : Instant) (c : ConnectionRegistry) : ConnectionRegistry :=
  let live := filter (fun '(_, cp) =>
    saturating_duration_since now (cp_closed_at cp) <= CLOSED_PIPE_TTL) (closed c) in
  set_closed (drop_oldest cp_seq MAX_CLOSED_PIPES live) c.

(** [insert]; [None] is the overflow of the watch id. *)
Definition insert paths (now : Instant) (ep : EndpointId) (pipe : StableConnId) (h : Handle)
    (c : ConnectionRegistry) : option (Z * ConnectionRegistry) :=
  id ← checked_add u64_max (conn_next_id c) 1;
  let c := set_conn_next_id (wrapping_add u64_max (conn_next_id c) 1) c in
  let c := prune_closed now c in
  match closed c !! pipe with
  | Some cp =>
      let '(_, c) := close_if_only_path paths pipe (cp_code cp) (cp_reason cp) h c in
      Some (id, c)
  | None =>
      let bucket := default ∅ (buckets c !! (ep, pipe)) in
      Some (id, set_buckets (<[(ep, pipe) := <[id := h]> bucket]> (buckets c)) c)
  end.

Definition remove_and_is_empty (ep : EndpointId) (pipe : StableConnId) (watch_id : Z)
    (c : ConnectionRegistry) : bool * ConnectionRegistry :=
  match buckets c !! (ep, pipe) with
  | None => (true, c)
  | Some ids =>
      let ids := delete watch_id ids in
      if bool_decide (ids = ∅) then (true, set_buckets (delete (ep, pipe) (buckets c)) c)
      else (false, set_buckets (<[(ep, pipe) := ids]> (buckets c)) c)
  end.

(** The handles registered on [pipe], under any endpoint. *)
Definition handles_on (pipe : StableConnId) (c : ConnectionRegistry) : list Handle :=
  mjoin ((fun '(_, watches) => hm_values watches)
    <$> List.filter (fun '(k, _) => k.2 =? pipe) (hm_iter (buckets c))).

(** [handles.iter().filter(|h| h.close_if_only_path(..)).count()]. *)
Fixpoint close_all paths (pipe : StableConnId) (code : Z) (reason : Bytes) (hs : list Handle)
    (c : ConnectionRegistry) : nat * ConnectionRegistry :=
  match hs with
  | [] => (O, c)
  | h :: hs' =>
      let '(b, c) := close_if_only_path paths pipe code reason h c in
      let '(n, c) := close_all paths pipe code reason hs' c in
      (if b : bool then S n else n, c)
  end.

(** [close_pipe]; [None] is the overflow of the close sequence. *)
Definition close_pipe paths (now : Instant) (pipe : StableConnId) (code : Z) (reason : Bytes)
    (c : ConnectionRegistry) : option (nat * ConnectionRegistry) :=
  let seq := next_close_seq c in
  n ← checked_add u64_max seq 1;
  let c := set_next_close_seq n c in
  let c := set_closed (<[pipe := mkClosedPipe code reason now seq]> (closed c)) c in
  let c := prune_closed now c in
  Some (close_all paths pipe code reason (handles_on pipe c) c).

Fixpoint close_evicted_pipes paths (now : Instant) (evicted : list StableConnId)
    (c : ConnectionRegistry) : option (nat * ConnectionRegistry) :=
  match evicted with
  | [] => Some (O, c)
  | pipe :: rest =>
      '(n, c) ← close_pipe paths now pipe BLE_CLOSE_CODE_RETRY BLE_CLOSE_REASON_EVICTED c;
      '(m, c) ← close_evicted_pipes paths now rest c;
      Some ((n + m)%nat, c)
  end.
End Conns.

(** ** Guarantees *)

Section ConnFacts.
Context {HI : HashIter} {CA : CustomAddrApi}.
Implicit Types (paths : Handle -> option (list TransportAddr.t)).

(** Any sequence of operations, each at its own time and with its own view of
    the connections. *)
Inductive conn_step : ConnectionRegistry -> ConnectionRegistry -> Prop :=
| cs_insert c paths now ep pipe h id c' :
    insert paths now ep pipe h c = Some (id, c') -> conn_step c c'
| cs_remove c ep pipe w b c' : remove_and_is_empty ep pipe w c = (b, c') -> conn_step c c'
| cs_close c paths now pipe code reason n c' :
    close_pipe paths now pipe code reason c = Some (n, c') -> conn_step c c'.

Definition conn_reachable (c : ConnectionRegistry) : Prop :=
  rtc conn_step ConnectionRegistry_default c.

Record ConnInv (c : ConnectionRegistry) : Prop := {
  ci_seq : forall pipe cp, closed c !! pipe = Some cp -> cp_seq cp < next_close_seq c;
  ci_bucket : forall k ids, buckets c !! k = Some ids -> ids <> ∅;
}.

Lemma prune_closed_sub now c pipe cp :
  closed (prune_closed now c) !! pipe = Some cp -> closed c !! pipe = Some cp.
Proof.
  unfold prune_closed. cbn. intros E. apply drop_oldest_spec in E.
  by apply map_lookup_filter_Some in E as [? _].
Qed.

Lemma prune_closed_size now c :
  (size (closed (prune_closed now c)) <= MAX_CLOSED_PIPES)%nat.
Proof. apply drop_oldest_spec. Qed.

(** The youngest close survives pruning until its time is over. *)
Lemma prune_closed_newest now c pipe cp :
  closed c !! pipe = Some cp ->
  saturating_duration_since now (cp_closed_at cp) <= CLOSED_PIPE_TTL ->
  (forall pipe' cp', closed c !! pipe' = Some cp' -> pipe' <> pipe -> cp_seq cp' < cp_seq cp) ->
  closed (prune_closed now c) !! pipe = Some cp.
Proof.
  intros Hp Ht Hmax. unfold prune_closed. cbn. apply drop_oldest_youngest.
  - unfold MAX_CLOSED_PIPES. lia.
  - by apply map_lookup_filter_Some.
  - intros id' x' [Hx _]%map_lookup_filter_Some. eauto.
Qed.

(** What closing a list of handles does. *)
Lemma close_all_spec paths pipe code reason hs c :
  close_all paths pipe code reason hs c
  = (length (List.filter (only_path paths pipe) hs),
     set_closes (closes c ++ ((fun h => mkCloseCall h code reason)
                               <$> List.filter (only_path paths pipe) hs)) c).
Proof.
  revert c. induction hs as [|h hs IH]; intros c; cbn.
  - rewrite app_nil_r. by destruct c.
  - unfold close_if_only_path. destruct (only_path paths pipe h); rewrite IH; cbn; [|done].
    by rewrite <- app_assoc.
Qed.

Lemma elem_of_handles_on pipe c h :
  h ∈ handles_on pipe c <->
  exists ep ids id, buckets c !! (ep, pipe) = Some ids /\ ids !! id = Some h.
Proof.
  unfold handles_on. rewrite list_elem_of_join. setoid_rewrite list_elem_of_fmap. split.
  - intros (l & Hh & [[ep pipe'] ids] & -> & Hin).
    apply list_elem_of_In, filter_In in Hin as [Hin E]. cbn in E. apply Z.eqb_eq in E as ->.
    apply list_elem_of_In, elem_of_hm_iter in Hin. apply elem_of_hm_values in Hh as [id Hid].
    eauto.
  - intros (ep & ids & id & Hb & Hid). exists (hm_values ids). split.
    + apply elem_of_hm_values. eauto.
    + exists ((ep, pipe), ids). split; [done|]. apply list_elem_of_In, filter_In. split.
      * by apply list_elem_of_In, elem_of_hm_iter.
      * cbn. by apply Z.eqb_eq.
Qed.

Lemma ConnInv_insert paths now ep pipe h c id c' :
  ConnInv c -> insert paths now ep pipe h c = Some (id, c') -> ConnInv c'.
Proof.
  intros [Hs Hb] E. unfold insert in E.
  destruct (checked_add _ _ _) as [n|]; cbn in E; [|done].
  set (c1 := prune_closed _ _) in E.
  assert (ConnInv c1) as [Hs1 Hb1].
  { constructor; cbn; [|done]. intros pi cp Hcp. by apply prune_closed_sub in Hcp; eauto. }
  change (drop_oldest _ _ _ !! pipe) with (closed c1 !! pipe) in E.
  destruct (closed c1 !! pipe) as [cp|].
  - unfold close_if_only_path in E. destruct (only_path _ _ _); injection E as <- <-; by constructor.
  - injection E as <- <-. constructor; cbn; [done|].
    intros k ids [[<- <-]|[_ Hk]]%lookup_insert_Some; [|eauto].
    intros E. apply (f_equal (lookup n)) in E. by rewrite lookup_insert_eq in E.
Qed.

Lemma ConnInv_close paths now pipe code reason c n c' :
  ConnInv c -> close_pipe paths now pipe code reason c = Some (n, c') -> ConnInv c'.
Proof.
  intros [Hs Hb] E. unfold close_pipe in E.
  destruct (checked_add _ _ _) as [m|] eqn:Em; cbn in E; [|done].
  apply checked_add_Some in Em as [-> _].
  rewrite close_all_spec in E. injection E as _ <-. constructor; cbn; [|done].
  intros pi cp Hcp. apply drop_oldest_spec in Hcp.
  apply map_lookup_filter_Some in Hcp as [[[<- <-]|[_ Hcp]]%lookup_insert_Some _]; cbn; [lia|].
  apply Hs in Hcp. lia.
Qed.

Lemma ConnInv_remove ep pipe w c : ConnInv c -> ConnInv (remove_and_is_empty ep pipe w c).2.
Proof.
  intros [Hs Hb]. unfold remove_and_is_empty. destruct (buckets c !! _) as [ids|]; [|done].
  case_bool_decide as He; constructor; cbn; try done.
  - intros k ids' [_ Hk]%lookup_delete_Some. eauto.
  - intros k ids' [[<- <-]|[_ Hk]]%lookup_insert_Some; eauto.
Qed.

Lemma conn_reachable_inv c : conn_reachable c -> ConnInv c.
Proof.
  intros Hr. unfold conn_reachable in Hr.
  assert (ConnInv ConnectionRegistry_default) as H0 by (constructor; cbn; set_solver).
  induction Hr as [|c1 c2 c3 Hs _ IH]; [done|]. apply IH. destruct Hs.
  - by eapply ConnInv_insert.
  - pose proof (ConnInv_remove ep pipe w c H0) as Hi. by rewrite H in Hi.
  - by eapply ConnInv_close.
Qed.

(** A handshake that completes on a dead pipe is closed.  Once [close_pipe]
    has run for a pipe, a connection registered on it within [CLOSED_PIPE_TTL]
    (before further closes are recorded) is not registered, and it is closed on
    the spot, with the code and reason the pipe was closed with, exactly if it
    has no other path. *)
Theorem late_connection_closed (c c1 c2 : ConnectionRegistry)
    (paths paths' : Handle -> option (list TransportAddr.t)) (now now' : Instant)
    (pipe : StableConnId) (code : Z) (reason : Bytes) (n : nat) (ep : EndpointId) (h : Handle)
    (id : Z) :
  conn_reachable c ->
  close_pipe paths now pipe code reason c = Some (n, c1) ->
  insert paths' now' ep pipe h c1 = Some (id, c2) ->
  saturating_duration_since now' now <= CLOSED_PIPE_TTL ->
  buckets c2 = buckets c1 /\
  closes c2 = closes c1
    ++ (if only_path paths' pipe h then [mkCloseCall h code reason] else []).
Proof.
  intros Hr%conn_reachable_inv Hc Hins Ht.
  assert (ConnInv c1) as Hi1 by (by eapply ConnInv_close).
  unfold close_pipe in Hc. destruct (checked_add _ _ _) as [m|] eqn:Em; cbn in Hc; [|done].
  rewrite close_all_spec in Hc. injection Hc as _ Hc1.
  set (c0 := set_closed (<[pipe := mkClosedPipe code reason now (next_close_seq c)]> (closed c))
    (set_next_close_seq m c)).
  assert (forall pipe' cp', closed c0 !! pipe' = Some cp' -> pipe' <> pipe ->
    cp_seq cp' < next_close_seq c) as Hold.
  { intros pipe' cp' Hp Hne. cbn in Hp.
    apply lookup_insert_Some in Hp as [[<- _]|[_ Hp]]; [done|]. by eapply ci_seq. }
  assert (closed (prune_closed now c0) !! pipe
    = Some (mkClosedPipe code reason now (next_close_seq c))) as Hnew.
  { apply prune_closed_newest; [by cbn; rewrite lookup_insert_eq| |done].
    cbn. unfold saturating_duration_since. rewrite Z.sub_diag. done. }
  assert (closed c1 = closed (prune_closed now c0)) as Ecl by (by rewrite <- Hc1).
  unfold insert in Hins.
  destruct (checked_add u64_max (conn_next_id c1) 1) as [k|]; cbn [mbind option_bind] in Hins; [|done].
  set (cn := set_conn_next_id _ c1) in Hins.
  assert (closed (prune_closed now' cn) !! pipe
    = Some (mkClosedPipe code reason now (next_close_seq c))) as Hfound.
  { apply prune_closed_newest; cbn [closed cn set_conn_next_id]; rewrite ?Ecl; [done|done|].
    intros pipe' cp' Hp Hne. eapply Hold; [|done]. by apply prune_closed_sub in Hp. }
  rewrite Hfound in Hins. cbn in Hins. unfold close_if_only_path in Hins.
  destruct (only_path paths' pipe h); cbn beta iota in Hins; injection Hins as _ <-; cbn;
    by rewrite ?app_nil_r.
Qed.

(** Closing a pipe closes exactly the connections that ride on nothing else:
    [close_pipe] calls [close] with the given code and reason once on every
    registered handle of the pipe that upgrades and has no other path, under
    whatever endpoint it was registered, and on no other handle; it returns
    their number and removes no registration. *)
Theorem close_pipe_exact (c c' : ConnectionRegistry)
    (paths : Handle -> option (list TransportAddr.t)) (now : Instant) (pipe : StableConnId)
    (code : Z) (reason : Bytes) (n : nat) :
  close_pipe paths now pipe code reason c = Some (n, c') ->
  exists hs, closes c' = closes c ++ ((fun h => mkCloseCall h code reason) <$> hs) /\
    n = length hs /\ buckets c' = buckets c /\
    forall h, h ∈ hs <-> only_path paths pipe h = true /\
      exists ep ids id, buckets c !! (ep, pipe) = Some ids /\ ids !! id = Some h.
Proof.
  intros E. unfold close_pipe in E. destruct (checked_add _ _ _) as [m|]; cbn in E; [|done].
  rewrite close_all_spec in E. injection E as <- <-. eexists. split_and!; try done.
  intros h. rewrite list_elem_of_In, filter_In, <- list_elem_of_In, elem_of_handles_on.
  cbn. tauto.
Qed.
End ConnFacts.

Section ConnWitnesses.
#[local] Instance cw_iter : HashIter := canonical_iter.
#[local] Instance cw_addr : CustomAddrApi := pair_addr.

(** Handle 7 rides pipe 4 only; handle 8 also has a relay path. *)
Definition cw_paths (h : Handle) : option (list TransportAddr.t) :=
  if h =? 7 then Some [TransportAddr.Custom (token_custom_addr 4)]
  else if h =? 8 then Some [TransportAddr.Custom (token_custom_addr 4); TransportAddr.Other]
  else None.

Definition cw_two : ConnectionRegistry :=
  match insert cw_paths 0 [1] 4 7 ConnectionRegistry_default with
  | Some (_, c) => match insert cw_paths 0 [2] 4 8 c with Some (_, c') => c' | None => c end
  | None => ConnectionRegistry_default
  end.

Lemma close_pipe_exact_witness : exists c',
  close_pipe cw_paths 5 4 1 [9] cw_two = Some (1%nat, c') /\
  exists hs, closes c' = closes cw_two ++ ((fun h => mkCloseCall h 1 [9]) <$> hs) /\
    1%nat = length hs /\ buckets c' = buckets cw_two /\
    forall h, h ∈ hs <-> only_path cw_paths 4 h = true /\
      exists ep ids id, buckets cw_two !! (ep, 4) = Some ids /\ ids !! id = Some h.
Proof.
  destruct (close_pipe cw_paths 5 4 1 [9] cw_two) as [[n c']|] eqn:E.
  - assert (n = 1%nat) as ->.
    { apply (f_equal (option_map fst)) in E. vm_compute in E. by injection E as <-. }
    exists c'. split; [reflexivity|]. exact (close_pipe_exact cw_two c' cw_paths 5 4 1 [9] 1 E).
  - apply (f_equal (option_map fst)) in E. vm_compute in E. discriminate E.
Defined.

Lemma late_connection_closed_witness : exists c1 c2,
  close_pipe cw_paths 5 4 1 [9] ConnectionRegistry_default = Some (0%nat, c1) /\
  insert cw_paths 6 [1] 4 7 c1 = Some (1, c2) /\
  buckets c2 = buckets c1 /\ closes c2 = closes c1 ++ [mkCloseCall 7 1 [9]].
Proof.
  eexists _, _. split; [vm_compute; reflexivity|]. split; [vm_compute; reflexivity|].
  refine (late_connection_closed ConnectionRegistry_default _ _ cw_paths cw_paths 5 6 4 1 [9] 0
    [1] 7 1 _ _ _ _).
  - apply rtc_refl.
  - vm_compute. reflexivity.
  - vm_compute. reflexivity.
  - vm_compute. discriminate.
Defined.
End ConnWitnesses.
