(* ===== verification/Interface.v ===== *)
(** * Interface: the radio ([transport/interface.rs], [error.rs])

    [BleError] and the trait [BleInterface] between the driver and the radio.
    The trait is a class: its operations are asynchronous calls on the state of
    an implementation, of which the clients rely only on results being reported
    in time.  [Blew] implements it on top of the [blew] crate. *)

From S2P Require Import Prelude Async Peer.
Open Scope Z_scope.

(** [blew::BlewError]: the source names two variants. *)
Module BlewError.
Inductive t := Timeout | NotSupported | Other (code : Z).
#[global] Instance t_eq_dec : EqDecision t.
Proof. solve_decision. Defined.
End BlewError.

(** How [blew] prints its types. *)
Class BlewFmt := {
  blew_display : BlewError.t -> string;
  cause_debug : DisconnectCause.t -> string;
}.

Module BleError.
Inductive t :=
| Unsupported
| AdapterOff
| AdapterNotFound
| NotConnected
| Timeout (stage : string)
| Disconnected (cause : DisconnectCause.t)
| GattError (code : Z)
| GattBusy
| ProtocolVersionMismatch (got want : Z)
| Protocol (msg : string)
| Io (display : string)
| Blew (e : BlewError.t).
#[global] Instance t_eq_dec : EqDecision t.
Proof. solve_decision. Defined.

(** The [#[error(..)]] attributes. *)
Definition display `{BlewFmt} (e : t) : string :=
  match e with
  | Unsupported => "operation not supported on this platform"
  | AdapterOff => "bluetooth adapter is off"
  | AdapterNotFound => "bluetooth adapter not found"
  | NotConnected => "not connected to peer"
  | Timeout stage => "timed out at stage: " +:+ stage
  | Disconnected cause => "disconnected: " +:+ cause_debug cause
  | GattError code => "GATT error: code " +:+ pretty code
  | GattBusy => "GATT busy"
  | ProtocolVersionMismatch got want =>
      "protocol version mismatch: got " +:+ pretty got +:+ ", want " +:+ pretty want
  | Protocol msg => "protocol error: " +:+ msg
  | Io display => "io error: " +:+ display
  | Blew e => "blew error: " +:+ blew_display e
  end.
End BleError.

Abbreviation BleResult A := (BleError.t + A)%type (only parsing).

(** The trait.  [&self] is shared state, the state of the call. *)
Class BleInterface (I : Type) := {
  connect : DeviceId -> Async I (BleResult ChannelHandle);
  disconnect : DeviceId -> Async I (BleResult unit);
  write_c2p : DeviceId -> Bytes -> Async I (BleResult unit);
  notify_p2c : DeviceId -> Bytes -> Async I (BleResult unit);
  read_psm : DeviceId -> Async I (BleResult (option Z));
  read_version : DeviceId -> Async I (BleResult (option Z));
  open_l2cap : DeviceId -> Z -> Async I (BleResult L2capChannel);
  start_scan : Async I (BleResult unit);
  stop_scan : Async I (BleResult unit);
  rebuild_server : Async I (BleResult unit);
  restart_advertising : Async I (BleResult unit);
  restart_l2cap_listener : Async I (BleResult (option Z));
  restart_scan : Async I (BleResult unit);
  is_powered : Async I bool;
  refresh : DeviceId -> Async I (BleResult unit);
  mtu : DeviceId -> Async I Z;

  connect_timely d : Timely (connect d);
  disconnect_timely d : Timely (disconnect d);
  read_psm_timely d : Timely (read_psm d);
  read_version_timely d : Timely (read_version d);
  open_l2cap_timely d psm : Timely (open_l2cap d psm);
  refresh_timely d : Timely (refresh d);
}.
#[global] Existing Instances connect_timely disconnect_timely read_psm_timely
  read_version_timely open_l2cap_timely refresh_timely.
