(* ===== verification/Lanes.v ===== *)
(** * Lanes: native work, one job at a time per device ([transport/driver.rs])

    Native connection work for a device is queued on its lane and run by one
    worker task in dispatch order ([run_lane]).  The driver's side ([activate],
    [retire], [dispatch]) and the worker's side are steps on a shared map of
    lanes; they interleave freely.

    A lane carries two notions of identity.  [lifecycle] is a [watch] cell the
    driver sets at once; [native_owner] is the worker's own and changes in
    dispatch order.  A job runs only for the native owner, and cancellable jobs
    only while their lifecycle is the current one. *)

From S2P Require Import Prelude Peer.
Open Scope Z_scope.

(** What abandoning a device does to a job on its lane. *)
Module Cancellation.
Inductive t := Never | WhileQueued | Immediate.
#[global] Instance t_eq_dec : EqDecision t.
Proof. solve_decision. Defined.
End Cancellation.

(** The futures [Driver::execute] queues. *)
Module LaneWork.
Inductive t :=
| Connect
| ReadVersion
| Disconnect
| CloseNative
| Refresh
| OpenL2cap (upgrade_gen : Z).
#[global] Instance t_eq_dec : EqDecision t.
Proof. solve_decision. Defined.
End LaneWork.

Module LaneJob.
Inductive t :=
| Activate (lifecycle_id : Z)
| Work (lifecycle_id : Z) (cancellation : Cancellation.t) (work : LaneWork.t).
#[global] Instance t_eq_dec : EqDecision t.
Proof. solve_decision. Defined.
End LaneJob.

(** A lane with its worker.  [jobs] is the channel between them, [outstanding]
    the counter the guards of queued and running jobs hold up. *)
Record DeviceLane := mkDeviceLane {
  jobs : list LaneJob.t;
  lifecycle : option Z;
  outstanding : Z;
  native_owner : option Z;
  running : option (Z * Cancellation.t * LaneWork.t);
}.

Definition lane_new : DeviceLane := mkDeviceLane [] None 0 None None.

Abbreviation Lanes := (gmap DeviceId DeviceLane) (only parsing).

Definition set_lifecycle (v : option Z) (l : DeviceLane) : DeviceLane :=
  mkDeviceLane (jobs l) v (outstanding l) (native_owner l) (running l).

(** [outstanding.fetch_add(1)] and [jobs.send(job)]: the guard goes with the job. *)
Definition enqueue (j : LaneJob.t) (l : DeviceLane) : DeviceLane :=
  mkDeviceLane (jobs l ++ [j]) (lifecycle l) (outstanding l + 1) (native_owner l) (running l).

(** ** The driver's side *)

(** [lanes.retain(..)]. *)
Definition lane_kept (d : DeviceId) (p : DeviceId * DeviceLane) : Prop :=
  p.1 = d \/ is_Some (lifecycle p.2) \/ 0 < outstanding p.2.
#[global] Instance lane_kept_dec d p : Decision (lane_kept d p).
Proof. unfold lane_kept. apply _. Defined.

Definition activate (d : DeviceId) (lifecycle_id : Z) (lanes : Lanes) : Lanes :=
  let lanes := filter (lane_kept d) lanes in
  let lane := default lane_new (lanes !! d) in
  <[d := enqueue (LaneJob.Activate lifecycle_id) (set_lifecycle (Some lifecycle_id) lane)]> lanes.

Definition retire (d : DeviceId) (lifecycle_id : Z) (lanes : Lanes) : Lanes :=
  match lanes !! d with
  | Some lane =>
      if bool_decide (lifecycle lane = Some lifecycle_id)
      then <[d := set_lifecycle None lane]> lanes
      else lanes
  | None => lanes
  end.

Definition dispatch (d : DeviceId) (lifecycle_id : Z) (c : Cancellation.t) (w : LaneWork.t)
    (lanes : Lanes) : Lanes :=
  match lanes !! d with
  | Some lane => <[d := enqueue (LaneJob.Work lifecycle_id c w) lane]> lanes
  | None => lanes
  end.

(** ** The worker's side *)

(** What the worker does with the job it received: [None] means it is dropped
    without being run. *)
Definition admits (l : DeviceLane) (lifecycle_id : Z) (c : Cancellation.t) : bool :=
  bool_decide (native_owner l = Some lifecycle_id)
  && (bool_decide (c = Cancellation.Never) || bool_decide (lifecycle l = Some lifecycle_id)).

(** One turn of [while let Some(job) = rx.recv().await]: the job taken and the
    lane.  A job that is not run drops its guard at once. *)
Definition take_job (l : DeviceLane) : option (LaneJob.t * DeviceLane) :=
  match running l, jobs l with
  | None, j :: rest =>
      Some (j,
        match j with
        | LaneJob.Activate id =>
            mkDeviceLane rest (lifecycle l) (outstanding l - 1) (Some id) None
        | LaneJob.Work id c w =>
            if admits l id c
            then mkDeviceLane rest (lifecycle l) (outstanding l) (native_owner l)
                   (Some (id, c, w))
            else mkDeviceLane rest (lifecycle l) (outstanding l - 1) (native_owner l) None
        end)
  | _, _ => None
  end.

Definition stop_running (l : DeviceLane) : DeviceLane :=
  mkDeviceLane (jobs l) (lifecycle l) (outstanding l - 1) (native_owner l) None.

(** The job that is running completes.  The biased [select!] of an [Immediate]
    job looks at the lifecycle first, so that one completes only while it is
    still the current one. *)
Definition finish_job (l : DeviceLane) : option ((Z * LaneWork.t) * DeviceLane) :=
  match running l with
  | Some (id, c, w) =>
      if bool_decide (c = Cancellation.Immediate)
         && negb (bool_decide (lifecycle l = Some id))
      then None
      else Some ((id, w), stop_running l)
  | None => None
  end.

(** An [Immediate] job whose lifecycle is no longer current is unwound. *)
Definition cancel_job (l : DeviceLane) : option ((Z * LaneWork.t) * DeviceLane) :=
  match running l with
  | Some (id, Cancellation.Immediate, w) =>
      if bool_decide (lifecycle l = Some id) then None else Some ((id, w), stop_running l)
  | _ => None
  end.

(** ** Interleavings *)

Module LaneEvent.
Inductive t :=
| Queued (d : DeviceId) (j : LaneJob.t)
| Retired (d : DeviceId) (lifecycle_id : Z)
| Took (d : DeviceId) (j : LaneJob.t) (ran : bool)
| Ended (d : DeviceId) (lifecycle_id : Z) (w : LaneWork.t) (completed : bool).
End LaneEvent.

Definition is_running (l : DeviceLane) : bool := bool_decide (is_Some (running l)).

(** A turn of the worker of some lane. *)
Inductive worker_step : Lanes * list LaneEvent.t -> Lanes * list LaneEvent.t -> Prop :=
| step_take L tr d l j l' :
    L !! d = Some l -> take_job l = Some (j, l') ->
    worker_step (L, tr) (<[d := l']> L, tr ++ [LaneEvent.Took d j (is_running l')])
| step_finish L tr d l id w l' :
    L !! d = Some l -> finish_job l = Some ((id, w), l') ->
    worker_step (L, tr) (<[d := l']> L, tr ++ [LaneEvent.Ended d id w true])
| step_cancel L tr d l id w l' :
    L !! d = Some l -> cancel_job l = Some ((id, w), l') ->
    worker_step (L, tr) (<[d := l']> L, tr ++ [LaneEvent.Ended d id w false]).

(** The driver's calls and the workers' turns in any order. *)
Inductive lane_step : Lanes * list LaneEvent.t -> Lanes * list LaneEvent.t -> Prop :=
| step_activate L tr d id :
    lane_step (L, tr) (activate d id L, tr ++ [LaneEvent.Queued d (LaneJob.Activate id)])
| step_retire L tr d id :
    lane_step (L, tr) (retire d id L, tr ++ [LaneEvent.Retired d id])
| step_dispatch L tr d id c w :
    lane_step (L, tr)
      (dispatch d id c w L,
       tr ++ if decide (is_Some (L !! d)) then [LaneEvent.Queued d (LaneJob.Work id c w)] else [])
| step_worker s s' : worker_step s s' -> lane_step s s'.

(** ** The specification: a lane that is never collected

    One queue per device, fed in dispatch order and worked off one job at a
    time; the owner of the native connection is the lifecycle activated last
    among the jobs taken, the current lifecycle the one activated last unless it
    was retired since.  [abs_step] gives the state after an event, [None] if the
    event must not happen. *)

Record AbsLane := mkAbsLane {
  a_queue : list LaneJob.t;
  a_current : option Z;
  a_owner : option Z;
  a_running : option (Z * Cancellation.t * LaneWork.t);
}.

Definition abs_init : AbsLane := mkAbsLane [] None None None.

Definition may_run (owner current : option Z) (id : Z) (c : Cancellation.t) : bool :=
  match c with
  | Cancellation.Never => bool_decide (owner = Some id)
  | _ => bool_decide (owner = Some id /\ current = Some id)
  end.

Definition abs_take (j : LaneJob.t) (ran : bool) (a : AbsLane) : option AbsLane :=
  match a_running a, a_queue a with
  | None, j' :: q =>
      if decide (j' = j) then
        match j with
        | LaneJob.Activate id =>
            if ran then None else Some (mkAbsLane q (a_current a) (Some id) None)
        | LaneJob.Work id c w =>
            if eqb ran (may_run (a_owner a) (a_current a) id c)
            then Some (mkAbsLane q (a_current a) (a_owner a)
                         (if ran then Some (id, c, w) else None))
            else None
        end
      else None
  | _, _ => None
  end.

Definition abs_end (id : Z) (w : LaneWork.t) (completed : bool) (a : AbsLane) : option AbsLane :=
  match a_running a with
  | Some (id', c, w') =>
      if decide (id' = id /\ w' = w) then
        let unwound := bool_decide (c = Cancellation.Immediate /\ a_current a <> Some id) in
        if eqb completed (negb unwound)
        then Some (mkAbsLane (a_queue a) (a_current a) (a_owner a) None)
        else None
      else None
  | None => None
  end.

Definition abs_step (d : DeviceId) (a : AbsLane) (ev : LaneEvent.t) : option AbsLane :=
  match ev with
  | LaneEvent.Queued d' j =>
      if decide (d' = d) then
        Some (mkAbsLane (a_queue a ++ [j])
          match j with LaneJob.Activate id => Some id | _ => a_current a end
          (a_owner a) (a_running a))
      else Some a
  | LaneEvent.Retired d' id =>
      if decide (d' = d) then
        Some (mkAbsLane (a_queue a)
          (if decide (a_current a = Some id) then None else a_current a)
          (a_owner a) (a_running a))
      else Some a
  | LaneEvent.Took d' j ran => if decide (d' = d) then abs_take j ran a else Some a
  | LaneEvent.Ended d' id w completed =>
      if decide (d' = d) then abs_end id w completed a else Some a
  end.

(** Running the specification over a trace. *)
Definition abs_run (d : DeviceId) (a : AbsLane) (tr : list LaneEvent.t) : option AbsLane :=
  foldl (fun o ev => o ≫= (fun a => abs_step d a ev)) (Some a) tr.

Lemma abs_run_app d a tr1 tr2 :
  abs_run d a (tr1 ++ tr2) = abs_run d a tr1 ≫= (fun a' => abs_run d a' tr2).
Proof.
  unfold abs_run. rewrite foldl_app. destruct (foldl _ (Some a) tr1) as [a'|]; [done|]. cbn.
  by induction tr2.
Qed.

Lemma abs_run_snoc d a tr ev :
  abs_run d a (tr ++ [ev]) = abs_run d a tr ≫= (fun a' => abs_step d a' ev).
Proof. rewrite abs_run_app. by destruct (abs_run d a tr). Qed.

(** ** The simulation *)

(** Jobs queued or running. *)
Definition load (l : DeviceLane) : Z :=
  Z.of_nat (length (jobs l)) + (if is_running l then 1 else 0).

(** A new lane starts with the activation it was made for, so that the owner
    forgotten with a collected lane does not matter. *)
Definition owner_sim (a : AbsLane) (l : DeviceLane) : Prop :=
  native_owner l = a_owner a \/
  (native_owner l = None /\ running l = None /\ exists id q, jobs l = LaneJob.Activate id :: q).

Definition lane_sim (a : AbsLane) (o : option DeviceLane) : Prop :=
  match o with
  | Some l => a_queue a = jobs l /\ a_current a = lifecycle l /\ a_running a = running l /\
      outstanding l = load l /\ owner_sim a l
  | None => a_queue a = [] /\ a_current a = None /\ a_running a = None
  end.

Definition Sim (L : Lanes) (tr : list LaneEvent.t) : Prop :=
  forall d, exists a, abs_run d abs_init tr = Some a /\ lane_sim a (L !! d).

(** A lane that is not kept is idle. *)
Lemma not_kept_idle a d d' l :
  lane_sim a (Some l) -> ~ lane_kept d (d', l) -> lane_sim a None.
Proof.
  intros (Hq & Hc & Hr & Ho & _) Hk. unfold lane_kept, load, is_running in *. cbn in Hk.
  assert (lifecycle l = None) as E1 by (destruct (lifecycle l); [exfalso; eauto|done]).
  assert (length (jobs l) = O /\ running l = None) as [E2%nil_length_inv E3].
  { destruct (running l) as [x|]; cbn in Ho; [exfalso; apply Hk; lia|]. split; [|done].
    destruct (jobs l); [done|]. exfalso. apply Hk. cbn in Ho. lia. }
  cbn. by rewrite Hq, Hc, Hr, E1, E2, E3.
Qed.

(** Extending the trace by one event. *)
Lemma Sim_event L L' tr ev :
  Sim L tr ->
  (forall d a, lane_sim a (L !! d) -> exists a', abs_step d a ev = Some a' /\ lane_sim a' (L' !! d)) ->
  Sim L' (tr ++ [ev]).
Proof.
  intros HS Hev d. destruct (HS d) as (a & Ha & Hl). destruct (Hev d a Hl) as (a' & E & Hl').
  exists a'. by rewrite abs_run_snoc, Ha.
Qed.

Lemma load_enqueue j l : load (enqueue j l) = load l + 1.
Proof. unfold load, is_running. cbn. rewrite length_app. cbn. destruct (running l); cbn; lia. Qed.

Lemma enqueue_sim a l j v :
  lane_sim a (Some l) ->
  lane_sim (mkAbsLane (a_queue a ++ [j]) v (a_owner a) (a_running a))
    (Some (enqueue j (set_lifecycle v l))).
Proof.
  intros (Hq & Hc & Hr & Ho & Hw). cbn. rewrite Hq. split_and!; [done..| |].
  - rewrite load_enqueue. change (load (set_lifecycle v l)) with (load l). lia.
  - destruct Hw as [Hw|(H1 & H2 & id & q & H3)]; [by left|right]. cbn.
    rewrite H3. eauto.
Qed.

Lemma activate_sim L tr d id :
  Sim L tr -> Sim (activate d id L) (tr ++ [LaneEvent.Queued d (LaneJob.Activate id)]).
Proof.
  intros HS. eapply Sim_event; [done|]. intros d' a Hl. cbn. unfold activate.
  destruct (decide (d = d')) as [<-|Hne].
  - eexists. split; [done|]. rewrite lookup_insert_eq.
    destruct (L !! d) as [l|] eqn:E.
    + rewrite (map_lookup_filter_Some_2 _ L d l) by (done || by left). cbn [default].
      by apply (enqueue_sim a l _ (Some id)).
    + rewrite map_lookup_filter_None_2 by (left; done). destruct Hl as (-> & _ & ->). cbn.
      split_and!; [done..|]. right. eauto.
  - exists a. split; [done|]. rewrite lookup_insert_ne by done.
    destruct (L !! d') as [l|] eqn:E.
    + destruct (decide (lane_kept d (d', l))).
      * by rewrite (map_lookup_filter_Some_2 _ L d' l).
      * rewrite map_lookup_filter_None_2 by (right; naive_solver).
        by eapply not_kept_idle.
    + by rewrite map_lookup_filter_None_2 by (left; done).
Qed.

Lemma retire_sim L tr d id :
  Sim L tr -> Sim (retire d id L) (tr ++ [LaneEvent.Retired d id]).
Proof.
  intros HS. eapply Sim_event; [done|]. intros d' a Hl. cbn. unfold retire.
  destruct (decide (d = d')) as [<-|Hne].
  - eexists. split; [done|]. destruct (L !! d) as [l|] eqn:E.
    + destruct Hl as (Hq & Hc & Hr & Ho & Hw). rewrite Hc.
      destruct (decide (lifecycle l = Some id)) as [Ei|Ei].
      * rewrite bool_decide_eq_true_2, lookup_insert_eq by done. by cbn.
      * rewrite bool_decide_eq_false_2, E by done. by cbn.
    + rewrite E. destruct Hl as (Hq & Hc & Hr). by rewrite Hc.
  - exists a. split; [done|]. destruct (L !! d) as [l|]; [|done].
    destruct (bool_decide _); [|done]. by rewrite lookup_insert_ne.
Qed.

Lemma dispatch_sim L tr d id c w :
  Sim L tr ->
  Sim (dispatch d id c w L)
    (tr ++ if decide (is_Some (L !! d)) then [LaneEvent.Queued d (LaneJob.Work id c w)] else []).
Proof.
  intros HS. unfold dispatch. destruct (L !! d) as [l|] eqn:E; cbn.
  2: { by rewrite app_nil_r. }
  eapply Sim_event; [done|]. intros d' a Hl. cbn. destruct (decide (d = d')) as [<-|Hne].
  - eexists. split; [done|]. rewrite lookup_insert_eq. rewrite E in Hl.
    replace l with (set_lifecycle (lifecycle l) l) at 1 by (by destruct l).
    destruct Hl as (Hq & Hc & Hl'). rewrite Hc. by apply enqueue_sim.
  - exists a. by rewrite lookup_insert_ne.
Qed.

(** The worker's decision is the specified one. *)
Lemma admits_may_run a l id c :
  native_owner l = a_owner a -> a_current a = lifecycle l ->
  admits l id c = may_run (a_owner a) (a_current a) id c.
Proof.
  intros Ho Hc. unfold admits, may_run. rewrite Ho, Hc.
  destruct c; repeat case_bool_decide; naive_solver.
Qed.

(** An event of the worker of [d] concerns no other lane. *)
Lemma Sim_local L tr d l l' ev :
  Sim L tr -> L !! d = Some l ->
  (forall d' a, d' <> d -> abs_step d' a ev = Some a) ->
  (forall a, lane_sim a (Some l) -> exists a', abs_step d a ev = Some a' /\ lane_sim a' (Some l')) ->
  Sim (<[d := l']> L) (tr ++ [ev]).
Proof.
  intros HS E Hother Hd. eapply Sim_event; [done|]. intros d' a Hl.
  destruct (decide (d' = d)) as [->|Hne].
  - rewrite lookup_insert_eq. rewrite E in Hl. by apply Hd.
  - exists a. by rewrite lookup_insert_ne, Hother.
Qed.

Lemma take_sim L tr d l j l' :
  Sim L tr -> L !! d = Some l -> take_job l = Some (j, l') ->
  Sim (<[d := l']> L) (tr ++ [LaneEvent.Took d j (is_running l')]).
Proof.
  intros HS E Ht. eapply Sim_local; [done..| |].
  { intros d' a Hne. cbn. by rewrite decide_False by congruence. }
  intros a (Hq & Hc & Hr & Ho & Hw). cbn. rewrite decide_True by done.
  unfold take_job in Ht. unfold abs_take, load, is_running in *.
  destruct (running l) eqn:Er; [done|]. destruct (jobs l) as [|j' q] eqn:Ej; [done|].
  cbn in Ho. rewrite Hr, Hq.
  injection Ht as <- <-. destruct j' as [id|id c w].
  - rewrite decide_True by done. eexists. split; [done|]. cbn. split_and!; [done..|lia|by left].
  - destruct Hw as [Hw|(_ & _ & ? & ? & ?)]; [|congruence].
    rewrite decide_True by done. rewrite <- (admits_may_run a l id c) by done.
    destruct (admits l id c); cbn; eexists; (split; [done|]); cbn;
      split_and!; try done; try lia; by left.
Qed.

Lemma end_sim L tr d l id w l' completed :
  Sim L tr -> L !! d = Some l ->
  (if completed : bool then finish_job l else cancel_job l) = Some ((id, w), l') ->
  Sim (<[d := l']> L) (tr ++ [LaneEvent.Ended d id w completed]).
Proof.
  intros HS E Ht. eapply Sim_local; [done..| |].
  { intros d' a Hne. cbn. by rewrite decide_False by congruence. }
  intros a (Hq & Hc & Hr & Ho & Hw). cbn. rewrite decide_True by done.
  unfold abs_end. rewrite Hr.
  assert (exists c, running l = Some (id, c, w) /\ l' = stop_running l /\
    completed = negb (bool_decide (c = Cancellation.Immediate /\ a_current a <> Some id)))
    as (c & Er & -> & ->).
  { unfold finish_job, cancel_job in Ht. rewrite Hc.
    destruct completed, (running l) as [[[id' []] w']|]; try done;
      repeat case_bool_decide; simplify_eq/=; eexists; (split; [done|]); (split; [done|]);
      case_bool_decide; naive_solver. }
  rewrite Er, decide_True by done. rewrite eqb_reflx. eexists. split; [done|].
  unfold load, is_running in *. rewrite Er in Ho. cbn in *. split_and!; [done..|lia|].
  destruct Hw as [?|(_ & ? & _)]; [by left|congruence].
Qed.

Lemma Sim_init : Sim ∅ [].
Proof. intros d. exists abs_init. by rewrite lookup_empty. Qed.

Lemma Sim_step s s' : lane_step s s' -> Sim s.1 s.2 -> Sim s'.1 s'.2.
Proof.
  intros Hs HS. destruct Hs as [| | |? ? []]; cbn in *; eauto using activate_sim, retire_sim,
    dispatch_sim, take_sim.
  - by eapply (end_sim _ _ _ _ _ _ _ true).
  - by eapply (end_sim _ _ _ _ _ _ _ false).
Qed.

Definition lanes_reachable (s : Lanes * list LaneEvent.t) : Prop := rtc lane_step (∅, []) s.

Lemma reachable_Sim s : lanes_reachable s -> Sim s.1 s.2.
Proof.
  intros Hr. refine (rtc_ind_r (fun s => Sim s.1 s.2) (∅, []) Sim_init _ s Hr).
  intros s1 s2 _ Hs. by apply Sim_step.
Qed.

(** C4. The lanes implement a serial queue per device.  However the driver's
    calls and the workers' turns interleave, and although idle lanes are
    collected, what happens on a device is what the specification allows: jobs
    are taken in the order they were queued and one at a time; a job runs exactly
    if its lifecycle owns the native connection in that order and, unless it is
    clean-up, is still current; only work that may be unwound is unwound, and
    exactly when its lifecycle is no longer current. *)
Theorem lanes_refine (L : Lanes) (tr : list LaneEvent.t) (d : DeviceId) :
  lanes_reachable (L, tr) ->
  exists a, abs_run d abs_init tr = Some a /\
    a_queue a = from_option jobs [] (L !! d) /\
    a_current a = (L !! d ≫= lifecycle) /\
    a_running a = (L !! d ≫= running).
Proof.
  intros Hr. destruct (reachable_Sim _ Hr d) as (a & Ha & Hl). cbn in *. exists a.
  split; [done|]. destruct (L !! d) as [l|]; cbn in *; tauto.
Qed.

(** ** Consequences of the specification *)

(** The jobs queued on and taken from the lane of [d]. *)
Definition queued_jobs (d : DeviceId) : list LaneEvent.t -> list LaneJob.t :=
  omap (fun ev => match ev with
    | LaneEvent.Queued d' j => if decide (d' = d) then Some j else None
    | _ => None
    end).
Definition taken_jobs (d : DeviceId) : list LaneEvent.t -> list LaneJob.t :=
  omap (fun ev => match ev with
    | LaneEvent.Took d' j _ => if decide (d' = d) then Some j else None
    | _ => None
    end).

(** First in, first out, whatever is in between. *)
Lemma abs_fifo d a tr a' :
  abs_run d a tr = Some a' -> a_queue a ++ queued_jobs d tr = taken_jobs d tr ++ a_queue a'.
Proof.
  revert a'. induction tr as [|ev tr IH] using rev_ind; intros a' E.
  { injection E as <-. by rewrite app_nil_r. }
  rewrite abs_run_snoc in E. destruct (abs_run d a tr) as [b|]; [|done]. cbn in E.
  specialize (IH b eq_refl). unfold queued_jobs, taken_jobs in *. rewrite !omap_app, app_assoc, IH.
  destruct ev as [d' j|d' id|d' j ran|d' id w c]; cbn in *; destruct (decide (d' = d));
    simplify_eq/=; rewrite ?app_nil_r, ?app_assoc; try done.
  - unfold abs_take in E. destruct (a_running b), (a_queue b) as [|j' q]; try done.
    destruct (decide (j' = j)) as [->|]; [|done]. rewrite <- app_assoc. cbn. do 2 f_equal.
    destruct j; repeat case_match; simplify_eq/=; done.
  - unfold abs_end in E. repeat case_match; simplify_eq/=; done.
Qed.

(** The job of [d] that has started and not ended. *)
Definition run_open (d : DeviceId) (tr : list LaneEvent.t) : option (Z * LaneWork.t) :=
  foldl (fun o ev => match ev with
    | LaneEvent.Took d' (LaneJob.Work id _ w) true => if decide (d' = d) then Some (id, w) else o
    | LaneEvent.Ended d' _ _ _ => if decide (d' = d) then None else o
    | _ => o
    end) None tr.

Definition activated (j : LaneJob.t) : option Z :=
  match j with LaneJob.Activate id => Some id | _ => None end.

(** [id] was the last lifecycle activated on [d], and was not retired since. *)
Definition is_current (d : DeviceId) (id : Z) (tr : list LaneEvent.t) : Prop :=
  exists u1 u2, tr = u1 ++ LaneEvent.Queued d (LaneJob.Activate id) :: u2 /\
    (forall id', LaneEvent.Queued d (LaneJob.Activate id') ∉ u2) /\
    LaneEvent.Retired d id ∉ u2.

(** Induction over a trace the specification accepts. *)
Lemma abs_run_ind (P : AbsLane -> list LaneEvent.t -> Prop) d :
  P abs_init [] ->
  (forall a tr ev a', P a tr -> abs_step d a ev = Some a' -> P a' (tr ++ [ev])) ->
  forall tr a, abs_run d abs_init tr = Some a -> P a tr.
Proof.
  intros H0 Hs tr. induction tr as [|ev tr IH] using rev_ind; intros a E.
  - by injection E as <-.
  - rewrite abs_run_snoc in E. destruct (abs_run d abs_init tr) as [b|]; [|done]. eauto.
Qed.

Ltac abs_cases :=
  repeat (unfold abs_take, abs_end in *; case_match); simplify_eq/=.

Lemma abs_open d tr a :
  abs_run d abs_init tr = Some a -> run_open d tr = (fun '(id, _, w) => (id, w)) <$> a_running a.
Proof.
  apply (abs_run_ind (fun a tr => run_open d tr = (fun '(id, _, w) => (id, w)) <$> a_running a));
    [done|].
  clear. intros a tr ev a' IH E. unfold run_open in *. rewrite foldl_app, IH.
  destruct ev as [d' []|d' id|d' [] ran|d' id w c]; cbn in *; destruct (decide (d' = d));
    abs_cases; try done.
Qed.

Lemma abs_owner d tr a :
  abs_run d abs_init tr = Some a -> a_owner a = last (omap activated (taken_jobs d tr)).
Proof.
  apply (abs_run_ind (fun a tr => a_owner a = last (omap activated (taken_jobs d tr)))); [done|].
  clear. intros a tr ev a' IH E. unfold taken_jobs in *. rewrite omap_app, omap_app.
  destruct ev as [d' []|d' id|d' [id|id c w] ran|d' id w c]; cbn in *; destruct (decide (d' = d));
    cbn; rewrite ?app_nil_r, ?last_snoc; abs_cases; done.
Qed.

Lemma abs_current d tr a id :
  abs_run d abs_init tr = Some a -> a_current a = Some id -> is_current d id tr.
Proof.
  intros E. revert id.
  apply (abs_run_ind (fun a tr => forall id, a_current a = Some id -> is_current d id tr) d);
    [done| |done].
  clear. intros a tr ev a' IH E id Hc.
  assert (a_current a' = a_current a ->
    (forall id', ev <> LaneEvent.Queued d (LaneJob.Activate id')) ->
    ev <> LaneEvent.Retired d id -> is_current d id (tr ++ [ev])) as Hkeep.
  { intros Ea H1 H2. rewrite Ea in Hc. destruct (IH _ Hc) as (u1 & u2 & -> & Hn & Hr).
    exists u1, (u2 ++ [ev]). split; [by rewrite <- app_assoc|]. set_solver. }
  destruct ev as [d' [id'|id' c w]|d' id'|d' j ran|d' id' w c]; cbn in E;
    destruct (decide (d' = d)) as [->|Hne]; simplify_eq/=;
    try (apply Hkeep; [done|congruence|congruence]).
  - exists tr, []. set_solver.
  - destruct (decide (a_current a = Some id')) as [Ed|Ed]; [done|]. apply Hkeep; [done|done|congruence].
  - apply Hkeep; [|done..]. abs_cases; done.
  - apply Hkeep; [|done..]. abs_cases; done.
Qed.

(** The specification's state before a job starts. *)
Lemma before_start L d id c w t1 t2 :
  lanes_reachable (L, t1 ++ LaneEvent.Took d (LaneJob.Work id c w) true :: t2) ->
  exists b q, abs_run d abs_init t1 = Some b /\ a_running b = None /\
    a_queue b = LaneJob.Work id c w :: q /\
    may_run (a_owner b) (a_current b) id c = true.
Proof.
  intros Hr. destruct (reachable_Sim _ Hr d) as (a & Ha & _).
  cbn [snd] in Ha.
  rewrite abs_run_app in Ha. destruct (abs_run d abs_init t1) as [b|] eqn:Eb; [|done]. cbn in Ha.
  unfold abs_run in Ha. cbn [foldl] in Ha. cbn in Ha. rewrite decide_True in Ha by done.
  destruct (abs_take _ true b) as [b'|] eqn:Et.
  2: { exfalso. clear -Ha. by induction t2. }
  unfold abs_take in Et. destruct (a_running b) eqn:Er; [done|].
  destruct (a_queue b) as [|j q] eqn:Eq; [done|]. destruct (decide _) as [->|]; [|done].
  destruct (may_run (a_owner b) (a_current b) id c) eqn:Em; [|done]. by exists b, q.
Qed.

Lemma started_work_current L d id c w t1 t2 :
  lanes_reachable (L, t1 ++ LaneEvent.Took d (LaneJob.Work id c w) true :: t2) ->
  c <> Cancellation.Never -> is_current d id t1.
Proof.
  intros Hr Hc. destruct (before_start _ _ _ _ _ _ _ Hr) as (b & q & Eb & _ & _ & Em).
  apply (abs_current _ _ _ _ Eb). unfold may_run in Em.
  destruct c; case_bool_decide; naive_solver.
Qed.

(** When a job starts on a device: nothing else is running there; the jobs
    taken so far, followed by it, are a prefix of the jobs queued, so every job
    queued before it is done (in particular the teardown of the connection it
    replaces); its lifecycle is the one activated last among the jobs taken; and,
    unless it is clean-up, its lifecycle is the one activated last on the device
    and has not been retired since. *)
Theorem job_starts_alone_in_order (L : Lanes) (d : DeviceId) (id : Z) (c : Cancellation.t)
    (w : LaneWork.t) (t1 t2 : list LaneEvent.t) :
  lanes_reachable (L, t1 ++ LaneEvent.Took d (LaneJob.Work id c w) true :: t2) ->
  run_open d t1 = None /\
  taken_jobs d t1 ++ [LaneJob.Work id c w] `prefix_of` queued_jobs d t1 /\
  last (omap activated (taken_jobs d t1)) = Some id /\
  (c <> Cancellation.Never -> is_current d id t1).
Proof.
  intros Hr. pose proof (started_work_current _ _ _ _ _ _ _ Hr) as Hcur.
  destruct (before_start _ _ _ _ _ _ _ Hr) as (b & q & Eb & Er & Eq & Em).
  pose proof (abs_fifo _ _ _ _ Eb) as Hf. cbn in Hf. rewrite Eq in Hf.
  split_and!; [| | |done].
  - rewrite (abs_open _ _ _ Eb). by rewrite Er.
  - exists q. by rewrite Hf, <- app_assoc.
  - rewrite <- (abs_owner _ _ _ Eb). unfold may_run in Em. destruct c; case_bool_decide; naive_solver.
Qed.

(** ** Draining *)

(** Turns left for the worker of a lane: one per job, two if it runs. *)
Definition turns (l : DeviceLane) : nat :=
  2 * length (jobs l) + (if is_running l then 1 else 0).
Definition turns_left (L : Lanes) : nat := sum_list_with turns (map_to_list L).*2.

Lemma turns_left_insert L d l l' :
  L !! d = Some l -> (turns_left (<[d := l']> L) + turns l = turns_left L + turns l')%nat.
Proof.
  intros E. unfold turns_left.
  assert (forall (L : Lanes) l, L !! d = Some l ->
    sum_list_with turns (map_to_list L).*2
    = (turns l + sum_list_with turns (map_to_list (delete d L)).*2)%nat) as Hd.
  { clear. intros L l E. by rewrite <- (map_to_list_delete L d l E). }
  rewrite (Hd L l E), (Hd _ l') by apply lookup_insert_eq. rewrite delete_insert_eq. lia.
Qed.

Lemma worker_step_turns s s' : worker_step s s' -> (turns_left s'.1 < turns_left s.1)%nat.
Proof.
  intros Hs.
  assert (exists d l l', s.1 !! d = Some l /\ s'.1 = <[d := l']> s.1 /\ (turns l' < turns l)%nat)
    as (d & l & l' & E & -> & Hlt).
  { destruct Hs as [L tr d l j l' E Ht|L tr d l id w l' E Ht|L tr d l id w l' E Ht];
      exists d, l, l'; (split; [done|]); (split; [done|]);
      unfold turns, is_running, take_job, finish_job, cancel_job in *;
      repeat case_match; simplify_eq/=; lia. }
  pose proof (turns_left_insert s.1 d l l' E). lia.
Qed.

(** The worker of a lane that is not idle can take a turn. *)
Lemma busy_worker_steps L tr d l :
  L !! d = Some l -> (running l <> None \/ jobs l <> []) -> exists s', worker_step (L, tr) s'.
Proof.
  intros E Hb. destruct (running l) as [[[id c] w]|] eqn:Er.
  - destruct (finish_job l) as [[[id' w'] l']|] eqn:Ef; [eexists; by eapply step_finish|].
    destruct (cancel_job l) as [[[id' w'] l']|] eqn:Ec; [eexists; by eapply step_cancel|].
    exfalso. unfold finish_job, cancel_job in *. rewrite Er in *.
    destruct c; repeat case_bool_decide; done.
  - destruct (take_job l) as [[j l']|] eqn:Et; [eexists; by eapply step_take|].
    exfalso. unfold take_job in Et. rewrite Er in Et. destruct (jobs l); naive_solver.
Qed.

(** C21. Lanes drain.  From every reachable state the workers, left alone and
    with the native calls they started returning, stop after finitely many turns
    whatever the order, and they stop only when no job is queued, running or
    counted as outstanding on any lane. *)
Theorem lanes_drain (s : Lanes * list LaneEvent.t) :
  lanes_reachable s ->
  sn worker_step s /\
  forall s', rtc worker_step s s' -> nf worker_step s' ->
    forall d l, s'.1 !! d = Some l -> jobs l = [] /\ running l = None /\ outstanding l = 0.
Proof.
  intros Hr. split.
  - clear. assert (well_founded (flip worker_step)) as Hwf; [|apply Hwf].
    apply (wf_projected (<)%nat (fun s => turns_left s.1)); [|apply lt_wf].
    intros s1 s2. apply worker_step_turns.
  - intros s' Hss Hnf d l E.
    assert (Sim s'.1 s'.2) as HS.
    { apply reachable_Sim. unfold lanes_reachable. etrans; [exact Hr|]. clear -Hss.
      induction Hss as [|s1 s2 s3 H12 _ IH]; [done|]. eapply rtc_l; [|done]. by constructor. }
    destruct (HS d) as (a & _ & Hl). rewrite E in Hl. destruct Hl as (_ & _ & _ & Ho & _).
    assert (jobs l = [] /\ running l = None) as [Ej Er].
    { destruct s' as [L tr]. destruct (decide (running l = None /\ jobs l = [])); [tauto|].
      destruct Hnf. eapply (busy_worker_steps L tr d l E).
      destruct (running l), (jobs l); naive_solver. }
    unfold load, is_running in Ho. rewrite Ej, Er in Ho. by split_and!.
Qed.

(** ** A run: a device is activated and asked to connect *)

Definition demo_lanes : Lanes :=
  dispatch "dev" 1 Cancellation.WhileQueued LaneWork.Connect (activate "dev" 1 ∅).
Definition demo_events : list LaneEvent.t :=
  [LaneEvent.Queued "dev" (LaneJob.Activate 1);
   LaneEvent.Queued "dev" (LaneJob.Work 1 Cancellation.WhileQueued LaneWork.Connect)].

Lemma demo_lanes_reachable : lanes_reachable (demo_lanes, demo_events).
Proof.
  eapply rtc_l; [apply (step_activate ∅ [] "dev" 1)|].
  apply rtc_once. exact (step_dispatch (activate "dev" 1 ∅) _ "dev" 1 Cancellation.WhileQueued
    LaneWork.Connect).
Qed.

Lemma lanes_refine_witness :
  exists a, abs_run "dev" abs_init demo_events = Some a /\
    a_queue a = from_option jobs [] (demo_lanes !! "dev"%string) /\
    length (a_queue a) = 2%nat.
Proof.
  destruct (lanes_refine demo_lanes demo_events "dev" demo_lanes_reachable) as (a & H1 & H2 & _).
  exists a. split; [exact H1|]. split; [exact H2|]. rewrite H2. reflexivity.
Defined.

Lemma lanes_drain_witness :
  is_Some (demo_lanes !! "dev"%string) /\ sn worker_step (demo_lanes, demo_events).
Proof.
  split; [by eexists|]. exact (proj1 (lanes_drain (demo_lanes, demo_events) demo_lanes_reachable)).
Defined.
