(* ===== verification/Driver.v ===== *)
(** * Driver: opening and closing a data pipe in the tables ([transport/driver.rs])

    The part of [Driver::execute] that binds a data pipe to an identifier when
    [StartDataPipe] is executed, and the clean-up after [run_data_pipe] returns.
    [Exec] has the rest of [execute]. *)

From S2P Require Import Prelude Peer Routing RoutingFacts Conns.
Open Scope Z_scope.

Section Driver.
Context {HI : HashIter} {CA : CustomAddrApi}.

Definition direction_for_role (role : ConnectRole.t) : Direction.t :=
  match role with
  | ConnectRole.Central => Direction.Outbound
  | ConnectRole.Peripheral => Direction.Inbound
  end.

(** [target.and_then(consume_for_endpoint).or_else(consume_for_device)]. *)
Definition take_reservation (target : option EndpointId) (d : DeviceId) (r : Routing)
    : option Reservation * Routing :=
  let '(o, r) :=
    match target with
    | Some ep => consume_reservation_for_endpoint ep r
    | None => (None, r)
    end in
  match o with
  | Some res => (Some res, r)
  | None => consume_reservation_for_device d r
  end.

(** The routing part of [StartDataPipe]: the identifier of the pipe, the endpoint
    of the reservation it was bound to, and the table. *)
Definition start_data_pipe (now : Instant) (d : DeviceId) (role : ConnectRole.t)
    (target : option EndpointId) (r : Routing)
    : option (StableConnId * option EndpointId * Routing) :=
  let direction := direction_for_role role in
  let '(o, r) := take_reservation target d r in
  match o with
  | Some res =>
      r ← register_pipe_with_id now (res_stable_id res) d direction r;
      Some (res_stable_id res, Some (res_endpoint_id res),
            register_pending now (res_stable_id res) (Some (res_endpoint_id res)) r)
  | None =>
      let '(id, r) := register_pipe now d direction r in
      Some (id, None, register_pending now id None r)
  end.

(** After [run_data_pipe] returned. *)
Definition close_data_pipe (paths : Z -> option (list TransportAddr.t)) (now : Instant)
    (id : StableConnId) (r : Routing) (c : ConnectionRegistry)
    : option (nat * Routing * ConnectionRegistry) :=
  let '(_, r) := evict_pipe_state id r in
  '(closed, c) ← close_pipe paths now id BLE_CLOSE_CODE_RETRY BLE_CLOSE_REASON_PIPE_CLOSED c;
  Some (closed, evict_pipe now id r, c).

Lemma take_reservation_cases r held target d :
  IdInv (r, held) ->
  let '(o, r') := take_reservation target d r in
  match o with
  | Some res => exists p, reservations r !! p = Some res /\
      IdInv (r', {[ res_stable_id res ]} ∪ held) /\
      reserved_stable_ids r' !! res_stable_id res = None
  | None => r' = r
  end.
Proof.
  intros Hi.
  assert (forall p, match consume_reservation_for_prefix p r with
    | (Some res, r') => exists p, reservations r !! p = Some res /\
        IdInv (r', {[ res_stable_id res ]} ∪ held) /\
        reserved_stable_ids r' !! res_stable_id res = None
    | (None, r') => r' = r
    end) as Hp.
  { intros p. pose proof (IdInv_consume r held p) as Hc.
    unfold consume_reservation_for_prefix in *.
    destruct (reservations r !! p) as [res|] eqn:E; [|done]. exists p. split; [done|].
    split; [by apply Hc|]. cbn. by rewrite lookup_delete_eq. }
  assert (match consume_reservation_for_device d r with
    | (Some res, r') => exists p, reservations r !! p = Some res /\
        IdInv (r', {[ res_stable_id res ]} ∪ held) /\
        reserved_stable_ids r' !! res_stable_id res = None
    | (None, r') => r' = r
    end) as Hd.
  { unfold consume_reservation_for_device. destruct (prefix_for_device d r) as [p|]; [|done].
    apply Hp. }
  unfold take_reservation. destruct target as [ep|]; [|done].
  unfold consume_reservation_for_endpoint. specialize (Hp (prefix_from_endpoint ep)).
  destruct (consume_reservation_for_prefix _ r) as [[res|] r'] eqn:E; [done|]. by subst.
Qed.

(** Binding a pipe.  Starting a data pipe on a reachable table (with the
    counter not exhausted) never trips an assertion; the pipe is live for its
    device and pending under the identifier returned, which is no longer
    reserved; and if the dial was for an endpoint that holds a reservation, that
    identifier is the reserved one, so the address the resolver handed out now
    routes to the device. *)
Theorem pipe_binding (r : Routing) (held : gset Z) (now : Instant) (d : DeviceId)
    (role : ConnectRole.t) (target : option EndpointId) :
  rreachable (r, held) -> next_id r < u64_max ->
  exists id ep r', start_data_pipe now d role target r = Some (id, ep, r') /\
    device_for_pipe id r' = Some d /\
    pending r' !! id = Some (mkPending id ep now) /\
    reservation_target id r' = None /\
    (forall t res, target = Some t -> reservations r !! prefix_from_endpoint t = Some res ->
       id = res_stable_id res /\ ep = Some (res_endpoint_id res)).
Proof.
  intros Hr%rreachable_inv Hn. pose proof (take_reservation_cases r held target d Hr) as Ht.
  unfold start_data_pipe.
  assert (forall t res, target = Some t -> reservations r !! prefix_from_endpoint t = Some res ->
    (take_reservation target d r).1 = Some res) as Hres.
  { intros t res -> E. unfold take_reservation, consume_reservation_for_endpoint,
      consume_reservation_for_prefix. by rewrite E. }
  destruct (take_reservation target d r) as [[res|] r1].
  - destruct Ht as (p & Hp & Hi & Hnr).
    destruct (IdInv_register_with_id r1 _ now (res_stable_id res) d (direction_for_role role) Hi)
      as (r2 & E2 & _); [set_solver|].
    rewrite E2. cbn. do 3 eexists. split; [done|].
    unfold register_pipe_with_id in E2. cbn in E2.
    destruct (pipes r1 !! res_stable_id res); [done|]. injection E2 as <-. cbn.
    split_and!.
    + unfold device_for_pipe. cbn. by rewrite lookup_insert_eq.
    + by rewrite lookup_insert_eq.
    + unfold reservation_target. cbn. by rewrite Hnr.
    + intros t res' Et Er. specialize (Hres t res' Et Er). cbn in Hres. by simplify_eq.
  - subst r1. destruct (IdInv_register_pipe r held now d (direction_for_role role) Hr Hn)
      as [_ Eid].
    destruct (IdInv_unused r held (next_id r + 1) Hr ltac:(lia)) as (_ & Hu & _).
    destruct (register_pipe now d _ r) as [id r2] eqn:E2. cbn in Eid. subst id.
    do 3 eexists. split; [done|]. unfold register_pipe, mint in E2. injection E2 as Eid <-.
    rewrite Eid. split_and!.
    + unfold device_for_pipe. cbn. by rewrite lookup_insert_eq.
    + cbn. by rewrite lookup_insert_eq.
    + unfold reservation_target. cbn. by rewrite Hu.
    + intros t res' Et Er. by specialize (Hres t res' Et Er).
Qed.

(** After a data pipe is closed its identifier routes nowhere: it is neither
    a live pipe nor pending, and a fresh tombstone remembers the device, the
    direction and the lifetime of the pipe. *)
Theorem closed_pipe_unroutable (r : Routing) (c : ConnectionRegistry)
    (paths : Z -> option (list TransportAddr.t)) (now : Instant) (id : StableConnId) (p : Pipe) :
  pipes r !! id = Some p -> next_close_seq c < u64_max ->
  exists n r' c', close_data_pipe paths now id r c = Some (n, r', c') /\
    device_for_pipe id r' = None /\ pending r' !! id = None /\
    pipe_tombstones r' !! id
      = Some (mkPipeTombstone (p_device_id p) (p_direction p)
                (saturating_duration_since now (p_created_at p)) now 0).
Proof.
  intros Hp Hn. unfold close_data_pipe, close_pipe.
  rewrite (proj2 (checked_add_Some u64_max (next_close_seq c) 1 _)) by (split; [done|lia]).
  destruct (evict_pipe_state id r) as [b r1] eqn:E. cbn.
  rewrite close_all_spec. do 3 eexists. split; [done|].
  assert (pipes r1 = pipes r /\ pending r1 !! id = None) as [E1 E2].
  { unfold evict_pipe_state in E. injection E as _ <-.
    repeat case_match; cbn; rewrite lookup_delete_eq; done. }
  unfold evict_pipe. rewrite E1, Hp. unfold device_for_pipe. cbn.
  by rewrite ?E1, lookup_delete_eq, lookup_insert_eq.
Qed.
End Driver.

(** ** Witnesses *)

Section DriverWitnesses.
#[local] Instance dw_iter : HashIter := canonical_iter.
#[local] Instance dw_addr : CustomAddrApi := pair_addr.

(** The endpoint [[1]] was seen at device ["m"] and a dial was promised. *)
Definition dw_hinted : Routing := (note_scan_hint [1] "m" Routing_new).2.
Definition dw_reserved : Routing := (reserve_outbound 0 [1] dw_hinted).2.

Lemma dw_reserved_reachable : rreachable (dw_reserved, ∅).
Proof.
  eapply rtc_l; [apply (rs_scan_hint _ _ [1] "m" ScanHintUpdate.New dw_hinted); reflexivity|].
  eapply rtc_l; [apply (rs_reserve _ _ 0 [1] 1 dw_reserved); vm_compute; reflexivity|].
  apply rtc_refl.
Defined.

Lemma pipe_binding_witness :
  exists id ep r', start_data_pipe 9 "m" ConnectRole.Central (Some [1]) dw_reserved
      = Some (id, ep, r') /\
    device_for_pipe id r' = Some "m"%string /\
    pending r' !! id = Some (mkPending id ep 9) /\
    reservation_target id r' = None /\
    (forall t res, Some [1] = Some t ->
       reservations dw_reserved !! prefix_from_endpoint t = Some res ->
       id = res_stable_id res /\ ep = Some (res_endpoint_id res)).
Proof.
  apply (pipe_binding dw_reserved ∅ 9 "m" ConnectRole.Central (Some [1])
    dw_reserved_reachable). reflexivity.
Defined.

Lemma closed_pipe_unroutable_witness :
  let r := (register_pipe 0 "m" Direction.Outbound Routing_new).2 in
  let c := ConnectionRegistry_default in
  exists n r' c', close_data_pipe (fun _ => None) 7 1 r c = Some (n, r', c') /\
    device_for_pipe 1 r' = None /\ pending r' !! 1 = None /\
    pipe_tombstones r' !! 1 = Some (mkPipeTombstone "m" Direction.Outbound 7 7 0).
Proof.
  intros r c. apply (closed_pipe_unroutable r c (fun _ => None) 7 1
    (mkPipe 1 "m" Direction.Outbound 0)); reflexivity.
Defined.

(** An inbound pipe takes a reservation.  A peer that was promised a dial
    connects to us instead: the pipe it opens, though inbound and without a
    target endpoint, consumes the reservation of the prefix its device was
    scanned under. *)
Lemma inbound_pipe_takes_reservation :
  exists r', start_data_pipe 9 "m" ConnectRole.Peripheral None dw_reserved
      = Some (1, Some [1], r') /\
    (p_direction <$> pipes r' !! 1) = Some Direction.Inbound /\
    reservations r' = ∅.
Proof. eexists. split; [vm_compute; reflexivity|]. by vm_compute. Qed.
End DriverWitnesses.
