(* ===== verification/Registry.v ===== *)
(** * Registry: the per-peer lifecycle state machine ([transport/registry.rs])

    Every handler of [Registry::handle], as a program in the panic-state monad
    of the prelude.  Two levels of state follow the borrows of the source:

    - a handler runs on [Ctx]: the registry, the action vector and the shared
      store behind channel handles and clocks;
    - code that holds [entry : &mut PeerEntry] (with [&mut self.next_lifecycle]
      and the action vector) runs on [ECtx]; [with_entry] is
      [self.peers.get_mut(d)], [or_insert_entry] is
      [self.peers.entry(d).or_insert_with(new_entry)].

    [None] is a panic: [expect], an integer overflow of a [+= 1].  [now] and
    [wall] are the readings of [Instant::now] and [SystemTime::now]. *)

From Stdlib Require Import String.
From S2P Require Import Prelude Peer Dedup.
Open Scope Z_scope.

(** ** Constants and data *)

Definition MAX_CONNECT_ATTEMPTS : Z := 15.
Definition DRAINING_TIMEOUT : Duration := from_secs 5.
Definition RESTORING_TIMEOUT : Duration := from_secs 120.
Definition DEAD_GC_TTL : Duration := from_secs 60.
Definition L2CAP_SELECT_TIMEOUT : Duration := from_millis 1500.
Definition CONNECTED_IDLE_DEADLINE : Duration := from_secs 45.
Definition RX_BACKLOG_CAP : nat := 16.

Record Registry := mkRegistry {
  peers : gmap DeviceId PeerEntry;
  next_lifecycle : Z;
  l2cap_policy : L2capPolicy.t;
  verified_prefixes : gmap KeyPrefix EndpointId;
  my_endpoint : EndpointId;
  my_prefix : KeyPrefix;
  adapter_state : BleAdapterState.t;
  (** the value last published through the [watch] sender, if there is one *)
  adapter_state_tx : option BleAdapterState.t;
}.

Definition set_peers (v : gmap DeviceId PeerEntry) (r : Registry) : Registry :=
  mkRegistry v (next_lifecycle r) (l2cap_policy r) (verified_prefixes r) (my_endpoint r)
    (my_prefix r) (adapter_state r) (adapter_state_tx r).
Definition set_next_lifecycle (v : Z) (r : Registry) : Registry :=
  mkRegistry (peers r) v (l2cap_policy r) (verified_prefixes r) (my_endpoint r)
    (my_prefix r) (adapter_state r) (adapter_state_tx r).
Definition set_verified_prefixes (v : gmap KeyPrefix EndpointId) (r : Registry) : Registry :=
  mkRegistry (peers r) (next_lifecycle r) (l2cap_policy r) v (my_endpoint r)
    (my_prefix r) (adapter_state r) (adapter_state_tx r).
Definition set_adapter_state (v : BleAdapterState.t) (r : Registry) : Registry :=
  mkRegistry (peers r) (next_lifecycle r) (l2cap_policy r) (verified_prefixes r)
    (my_endpoint r) (my_prefix r) v (adapter_state_tx r).
Definition set_adapter_state_tx (v : option BleAdapterState.t) (r : Registry) : Registry :=
  mkRegistry (peers r) (next_lifecycle r) (l2cap_policy r) (verified_prefixes r)
    (my_endpoint r) (my_prefix r) (adapter_state r) v.

Definition Registry_new (policy : L2capPolicy.t) (endpoint : EndpointId) : Registry := {|
  peers := ∅;
  next_lifecycle := 1;
  l2cap_policy := policy;
  verified_prefixes := ∅;
  my_endpoint := endpoint;
  my_prefix := prefix_from_endpoint endpoint;
  adapter_state := BleAdapterState.PoweredOn;
  adapter_state_tx := None
|}.

Definition with_adapter_state_tx (current : BleAdapterState.t) (r : Registry) : Registry :=
  set_adapter_state_tx (Some current) (set_adapter_state current r).

(** ** Pure helpers *)

(** [reconnect_backoff]: the shift is by at most 6, the product saturates. *)
Definition reconnect_backoff (attempt : Z) : Duration :=
  let base_ms := saturating_mul u64_max 500 (Z.shiftl 1 (Z.min attempt 6)) in
  from_millis (Z.min base_ms 30000).

(** Each byte shifted left by [(i & 7) * 8] bits, summed with wrap-around. *)
Fixpoint dial_seed (i : nat) (prefix : KeyPrefix) (acc : Z) : Z :=
  match prefix with
  | [] => acc
  | b :: rest =>
      dial_seed (S i) rest
        (wrapping_add u64_max acc
          (Z.land (Z.shiftl b (Z.land (Z.of_nat i) 7 * 8)) u64_max))
  end.

Definition pending_dial_deadline (now : Instant) (prefix : KeyPrefix) : Instant :=
  let jitter_span_ns := Z.min (FAIRNESS_JITTER * 2) u64_max in
  let seed := dial_seed 0 prefix 0 in
  let jitter := seed mod jitter_span_ns in
  now + saturating_sub FAIRNESS_WINDOW FAIRNESS_JITTER + jitter.

Definition should_emit_l2cap_upgrade (connected_for_prefix : nat) (role : ConnectRole.t)
    (my_endpoint peer_endpoint : EndpointId) : bool :=
  if (connected_for_prefix <=? 1)%nat then
    match role with ConnectRole.Central => true | _ => false end
  else should_dial_l2cap role my_endpoint peer_endpoint.

(** [if let PeerPhase::Connected { upgrading, .. } = &mut entry.phase { *upgrading = b }]. *)
Definition phase_set_upgrading (b : bool) (p : PeerPhase.t) : PeerPhase.t :=
  match p with
  | PeerPhase.Connected since ch g _ => PeerPhase.Connected since ch g b
  | _ => p
  end.

(** [channel.path = path; *upgrading = false] under the same pattern. *)
Definition phase_set_path (path : ConnectPath.t) (p : PeerPhase.t) : PeerPhase.t :=
  match p with
  | PeerPhase.Connected since ch g _ =>
      PeerPhase.Connected since (mkChannelHandle (ch_id ch) path) g false
  | _ => p
  end.

Module PhaseKind.
Inductive t :=
| Unknown | Discovered | PendingDial | Connecting | Handshaking | Connected | Draining
| Reconnecting | Dead | Restoring.

Definition from (p : PeerPhase.t) : t :=
  match p with
  | PeerPhase.Unknown => Unknown
  | PeerPhase.Discovered _ => Discovered
  | PeerPhase.PendingDial _ _ _ => PendingDial
  | PeerPhase.Connecting _ _ _ => Connecting
  | PeerPhase.Handshaking _ _ => Handshaking
  | PeerPhase.Connected _ _ _ _ => Connected
  | PeerPhase.Draining _ _ => Draining
  | PeerPhase.Reconnecting _ _ _ => Reconnecting
  | PeerPhase.Dead _ _ => Dead
  | PeerPhase.Restoring _ => Restoring
  end.
End PhaseKind.

Record PeerStateSummary := mkPeerStateSummary {
  phase_kind : PhaseKind.t;
  sum_tx_gen : Z;
  sum_consecutive_failures : Z;
  connect_path : option ConnectPath.t;
  sum_role : ConnectRole.t;
  sum_l2cap_upgrade_failed : bool;
  sum_verified_endpoint : option EndpointId;
}.

Definition summary (e : PeerEntry) : PeerStateSummary := {|
  phase_kind := PhaseKind.from (phase e);
  sum_tx_gen := tx_gen e;
  sum_consecutive_failures := consecutive_failures e;
  connect_path :=
    match phase e with
    | PeerPhase.Connected _ ch _ _ => Some (ch_path ch)
    | _ => None
    end;
  sum_role := role e;
  sum_l2cap_upgrade_failed := l2cap_upgrade_failed e;
  sum_verified_endpoint := verified_endpoint e
|}.

(** [Iterator::max_by_key] over [(since, did.to_string())]: the last of the
    greatest elements. *)
Definition key_cmp (a b : Instant * string) : comparison :=
  match a.1 ?= b.1 with
  | Eq => String.compare a.2 b.2
  | c => c
  end.

Definition max_by_key {A} (key : A -> Instant * string) (l : list A) : option A :=
  match l with
  | [] => None
  | x :: l' =>
      Some (foldl (fun best y =>
        match key_cmp (key best) (key y) with Gt => best | _ => y end) x l')
  end.

(** The local enum of [handle_send_datagram]. *)
Module SendDecision.
Inductive t := Enqueue | Reject | Buffer | StartAndEnqueue.
End SendDecision.

(** The local enum of [handle_tick]. *)
Module TickAction.
Inductive t :=
| StartConnect (attempt : Z)
| PendingDialExpired
| DrainingToDead
| RestoringToDead
| ConnectedWedged.
End TickAction.

(** ** Execution contexts *)

Section Handlers.
Context {HI : HashIter} {MP : Mpsc}.

Record Ctx := mkCtx {
  reg : Registry;
  actions : list PeerAction.t;
  env : Env;
}.

Record ECtx := mkECtx {
  e_next_lifecycle : Z;
  e_actions : list PeerAction.t;
  e_env : Env;
  entry : PeerEntry;
}.

Abbreviation RM A := (M Ctx A) (only parsing).
Abbreviation EM A := (M ECtx A) (only parsing).

Definition upd_reg (f : Registry -> Registry) : RM unit :=
  modify (fun s => mkCtx (f (reg s)) (actions s) (env s)).
Definition push_action (a : PeerAction.t) : RM unit :=
  modify (fun s => mkCtx (reg s) (actions s ++ [a]) (env s)).

Definition upd_entry (f : PeerEntry -> PeerEntry) : EM unit :=
  modify (fun s => mkECtx (e_next_lifecycle s) (e_actions s) (e_env s) (f (entry s))).
Definition push (a : PeerAction.t) : EM unit :=
  modify (fun s => mkECtx (e_next_lifecycle s) (e_actions s ++ [a]) (e_env s) (entry s)).
Definition extend (l : list PeerAction.t) : EM unit :=
  modify (fun s => mkECtx (e_next_lifecycle s) (e_actions s ++ l) (e_env s) (entry s)).
Definition set_env (v : Env) : EM unit :=
  modify (fun s => mkECtx (e_next_lifecycle s) (e_actions s) v (entry s)).

(** [entry.tx_gen += 1], [entry.upgrade_gen += 1] and
    [entry.consecutive_failures += 1]; the new value is returned. *)
Definition bump_tx_gen : EM Z :=
  e ← gets entry;
  n ← expect (checked_add u64_max (tx_gen e) 1);
  upd_entry (set_tx_gen n);;
  mret n.
Definition bump_upgrade_gen : EM Z :=
  e ← gets entry;
  n ← expect (checked_add u64_max (upgrade_gen e) 1);
  upd_entry (set_upgrade_gen n);;
  mret n.
Definition bump_consecutive_failures : EM unit :=
  e ← gets entry;
  n ← expect (checked_add u32_max (consecutive_failures e) 1);
  upd_entry (set_consecutive_failures n).

(** Run [c] on the entry [e] of device [d] and store the entry back. *)
Definition run_entry {A} (d : DeviceId) (e : PeerEntry) (c : EM A) : RM A := fun s =>
  match c (mkECtx (next_lifecycle (reg s)) (actions s) (env s) e) with
  | Some (a, s') =>
      Some (a, mkCtx (set_next_lifecycle (e_next_lifecycle s')
                       (set_peers (<[d := entry s']> (peers (reg s))) (reg s)))
                 (e_actions s') (e_env s'))
  | None => None
  end.

(** [if let Some(entry) = self.peers.get_mut(&d) { c }]. *)
Definition with_entry {A} (d : DeviceId) (c : EM A) : RM (option A) :=
  r ← gets reg;
  match peers r !! d with
  | Some e => a ← run_entry d e c; mret (Some a)
  | None => mret None
  end.

(** [self.peers.get_mut(&d).expect(..)]. *)
Definition expect_entry {A} (d : DeviceId) (c : EM A) : RM A :=
  r ← gets reg;
  e ← expect (peers r !! d);
  run_entry d e c.

(** [Registry::new_entry]. *)
Definition new_entry (d : DeviceId) : RM PeerEntry :=
  r ← gets reg;
  n ← expect (checked_add u64_max (next_lifecycle r) 1);
  upd_reg (set_next_lifecycle n);;
  mret (set_lifecycle_id (next_lifecycle r) (PeerEntry_new d)).

(** [self.peers.entry(d).or_insert_with(|| new_entry(d))], then [c] on it. *)
Definition or_insert_entry {A} (d : DeviceId) (c : EM A) : RM A :=
  r ← gets reg;
  e ← match peers r !! d with Some e => mret e | None => new_entry d end;
  run_entry d e c.

(** ** Lifecycle helpers on an entry *)

(** Retire the entry's lifecycle, allocate the next one. *)
Definition abandon_outstanding : EM Z :=
  e ← gets entry;
  push (PeerAction.RetireLifecycle (device_id e) (lifecycle_id e));;
  id ← gets e_next_lifecycle;
  upd_entry (set_lifecycle_id id);;
  n ← expect (checked_add u64_max id 1);
  modify (fun s => mkECtx n (e_actions s) (e_env s) (entry s));;
  upd_entry (set_upgrade_gen 0);;
  mret id.

Definition begin_connect (now : Instant) (attempt : Z) : EM unit :=
  lifecycle_id ← abandon_outstanding;
  upd_entry (set_phase (PeerPhase.Connecting attempt now ConnectPath.Gatt));;
  e ← gets entry;
  push (PeerAction.StartConnect (device_id e) attempt lifecycle_id).

Definition arm_for_dial (now : Instant) (defer_prefix : option KeyPrefix) : EM unit :=
  e ← gets entry;
  match pending_sends e, defer_prefix with
  | [], _ => upd_entry (set_phase (PeerPhase.Discovered now))
  | _ :: _, Some prefix =>
      upd_entry (set_phase
        (PeerPhase.PendingDial now (pending_dial_deadline now prefix) prefix))
  | _ :: _, None => begin_connect now 0
  end.

Definition clear_connection_state : EM unit :=
  abandon_outstanding;;
  upd_entry (set_consecutive_failures 0);;
  upd_entry (set_pipe None);;
  upd_entry (set_l2cap_channel None);;
  upd_entry (set_l2cap_upgrade_failed false);;
  upd_entry (set_subscribed_chars ∅);;
  upd_entry (set_rx_backlog []);;
  upd_entry (set_resume_after_drain false);;
  upd_entry (set_verified_live_suppressed_logged false).

Definition resume_drained_entry (now : Instant) : EM unit :=
  clear_connection_state;;
  arm_for_dial now None.

(** Acknowledge every buffered send with [kind], in order, and clear the queue. *)
Definition ack_of (kind : ErrorKind.t) (s : PendingSend) : PeerAction.t :=
  PeerAction.AckSend (ps_tx_gen s) (ps_waker s) (inr kind).

Definition drain_pending (kind : ErrorKind.t) : EM unit :=
  e ← gets entry;
  extend (ack_of kind <$> pending_sends e);;
  upd_entry (set_pending_sends []).

(** The body of [drain_to_draining] pushes to a vector of its own, which every
    caller appends to the handler's actions before pushing anything else; here
    it pushes to the handler's actions directly. *)
Definition drain_to_draining (now : Instant) (wall : Z) (reason : DisconnectReason.t)
    : EM unit :=
  was_connected ← gets (fun s => PeerPhase.is_connected (phase (entry s)));
  upd_entry (set_pipe None);;
  abandon_outstanding;;
  upd_entry (set_resume_after_drain false);;
  upd_entry (set_l2cap_upgrade_failed false);;
  drain_pending ErrorKind.BrokenPipe;;
  e ← gets entry;
  match prefix e with
  | Some p =>
      when was_connected
        (push (PeerAction.PutPeerStore p (mkPeerSnapshot (device_id e) wall)))
  | None => mret tt
  end;;
  upd_entry (set_phase (PeerPhase.Draining now reason)).

(** [actions.push(StartDataPipe { .. })] for the entry as it stands. *)
Definition push_start_data_pipe (d : DeviceId) (tx_gen : Z) (role : ConnectRole.t)
    (path : ConnectPath.t) (chan : option L2capChannel) : EM unit :=
  e ← gets entry;
  push (PeerAction.StartDataPipe d (lifecycle_id e) tx_gen role (target_endpoint e)
         path chan).

Definition restart_peripheral_gatt_pipe (now : Instant) (d : DeviceId)
    (first_fragment : option Bytes) (subscribed_char : option Uuid) : EM unit :=
  upd_entry (set_pipe None);;
  abandon_outstanding;;
  upd_entry (set_role ConnectRole.Peripheral);;
  upd_entry (set_subscribed_chars
    match subscribed_char with Some u => {[ u ]} | None => ∅ end);;
  g ← bump_tx_gen;
  upd_entry (set_phase
    (PeerPhase.Connected now (mkChannelHandle g ConnectPath.Gatt) g false));;
  match first_fragment with
  | Some bytes => upd_entry (fun e => set_rx_backlog (rx_backlog e ++ [bytes]) e)
  | None => mret tt
  end;;
  push_start_data_pipe d g ConnectRole.Peripheral ConnectPath.Gatt None.

(** Set [upgrading], bump [upgrade_gen] and emit [UpgradeToL2cap]. *)
Definition start_l2cap_upgrade (d : DeviceId) : EM unit :=
  upd_entry (fun e => set_phase (phase_set_upgrading true (phase e)) e);;
  g ← bump_upgrade_gen;
  e ← gets entry;
  push (PeerAction.UpgradeToL2cap d (lifecycle_id e) g).

(** ** Handlers *)

Definition prefix_is (p : KeyPrefix) (e : PeerEntry) : bool :=
  bool_decide (prefix e = Some p).
Definition connected_for (p : KeyPrefix) (e : PeerEntry) : bool :=
  prefix_is p e && PeerPhase.is_connected (phase e).

Definition prune_verified_prefixes : RM unit :=
  upd_reg (fun r =>
    set_verified_prefixes
      (filter (fun '(_, endpoint) =>
         existsb (fun e => bool_decide (verified_endpoint e = Some endpoint)
                           && negb (PeerPhase.is_dead (phase e)))
           (hm_values (peers r)) = true)
         (verified_prefixes r)) r).

(** [for entry in self.peers.values_mut() { c }]. *)
Definition for_each_entry (c : EM unit) : RM unit :=
  r ← gets reg;
  for_each (hm_keys (peers r)) (fun d => with_entry d c;; mret tt).

Definition is_gatt_not_upgrading (p : PeerPhase.t) : bool :=
  match p with
  | PeerPhase.Connected _ ch _ false => bool_decide (ch_path ch = ConnectPath.Gatt)
  | _ => false
  end.

(** The entry that survives among the [Connected] ones of a prefix. *)
Definition dedup_winner (now : Instant) (my_endpoint endpoint_id : EndpointId)
    (candidates : list (DeviceId * PeerEntry)) : option DeviceId :=
  match List.find (fun '(_, e) => should_win (role e) my_endpoint endpoint_id) candidates with
  | Some (did, _) => Some did
  | None =>
      fst <$> max_by_key (fun '(did, e) =>
        (match phase e with PeerPhase.Connected since _ _ _ => since | _ => now end, did))
        candidates
  end.

Definition stamp_verified (endpoint_id : EndpointId) (now : Instant) (e : PeerEntry)
    : PeerEntry :=
  set_verified_at (Some now) (set_verified_endpoint (Some endpoint_id) e).

Definition handle_verified_endpoint (now : Instant) (wall : Z) (endpoint_id : EndpointId)
    (exact_device_id : option DeviceId) : RM unit :=
  let p := prefix_from_endpoint endpoint_id in
  upd_reg (fun r => set_verified_prefixes (<[p := endpoint_id]> (verified_prefixes r)) r);;
  match exact_device_id with
  | Some d =>
      with_entry d (upd_entry (fun e => stamp_verified endpoint_id now (set_prefix (Some p) e)));;
      mret tt
  | None => mret tt
  end;;
  upd_reg (fun r => set_peers
    ((fun e => if prefix_is p e then stamp_verified endpoint_id now e else e) <$> peers r) r);;
  (* cancel pending dials to the prefix *)
  r ← gets reg;
  let to_cancel := omap (fun '(did, e) =>
    match phase e with
    | PeerPhase.PendingDial _ _ p' => if bool_decide (p' = p) then Some did else None
    | _ => None
    end) (hm_iter (peers r)) in
  for_each to_cancel (fun did =>
    with_entry did (drain_to_draining now wall DisconnectReason.DedupLoser);; mret tt);;
  (* keep one of several live connections *)
  r ← gets reg;
  let candidates := List.filter (fun '(_, e) => connected_for p e) (hm_iter (peers r)) in
  when (2 <=? length candidates)%nat (
    let winner := dedup_winner now (my_endpoint r) endpoint_id candidates in
    for_each candidates.*1 (fun did =>
      if bool_decide (Some did = winner) then mret tt
      else with_entry did (drain_to_draining now wall DisconnectReason.DedupLoser);; mret tt));;
  (* upgrade the survivor *)
  r ← gets reg;
  match l2cap_policy r with
  | L2capPolicy.Disabled => mret tt
  | L2capPolicy.PreferL2cap =>
      let connected_for_prefix :=
        length (List.filter (connected_for p) (hm_values (peers r))) in
      let to_upgrade := List.filter (fun '(_, e) =>
        prefix_is p e && negb (l2cap_upgrade_failed e)
        && should_emit_l2cap_upgrade connected_for_prefix (role e) (my_endpoint r) endpoint_id
        && is_gatt_not_upgrading (phase e)) (hm_iter (peers r)) in
      for_each to_upgrade.*1 (fun did => with_entry did (start_l2cap_upgrade did);; mret tt)
  end.

Definition handle_peripheral_client_subscribed (now : Instant) (client_id : DeviceId)
    (char_uuid : Uuid) (prefix : option KeyPrefix) : RM unit :=
  r ← gets reg;
  let verified := p ← prefix; verified_prefixes r !! p in
  or_insert_entry client_id (
    match prefix with Some p => upd_entry (set_prefix (Some p)) | None => mret tt end;;
    e ← gets entry;
    match verified, verified_endpoint e with
    | Some eid, None => upd_entry (stamp_verified eid now)
    | _, _ => mret tt
    end;;
    upd_entry (fun e => set_subscribed_chars ({[ char_uuid ]} ∪ subscribed_chars e) e);;
    e ← gets entry;
    let live := match phase e with
      | PeerPhase.Connected _ ch _ _ =>
          bool_decide (role e = ConnectRole.Peripheral)
          && bool_decide (ch_path ch = ConnectPath.Gatt)
      | PeerPhase.Connecting _ _ _ | PeerPhase.Handshaking _ _ => true
      | _ => false
      end in
    if live then mret tt
    else restart_peripheral_gatt_pipe now client_id None (Some char_uuid)).

Definition handle_peripheral_client_unsubscribed (now : Instant) (wall : Z)
    (client_id : DeviceId) (char_uuid : Uuid) : RM unit :=
  drained ← with_entry client_id (
    upd_entry (fun e => set_subscribed_chars (subscribed_chars e ∖ {[ char_uuid ]}) e);;
    e ← gets entry;
    if bool_decide (role e <> ConnectRole.Peripheral)
       || negb (PeerPhase.is_connected (phase e) || PeerPhase.is_handshaking (phase e))
       || negb (bool_decide (subscribed_chars e = ∅))
    then mret false
    else
      upd_entry (set_rx_backlog []);;
      drain_to_draining now wall DisconnectReason.RemoteClose;;
      mret true);
  when (default false drained) prune_verified_prefixes.

(** The phase dispatch of [handle_advertised]; the result is the endpoint to
    restore in [verified_prefixes]. *)
Definition advertised_entry (now : Instant) (p : KeyPrefix) (should_defer : bool)
    : EM (option EndpointId) :=
  upd_entry (set_last_adv (Some now));;
  upd_entry (set_prefix (Some p));;
  upd_entry (set_verified_live_suppressed_logged false);;
  let defer_prefix := if should_defer then Some p else None in
  e ← gets entry;
  match phase e with
  | PeerPhase.Unknown => arm_for_dial now defer_prefix;; mret None
  | PeerPhase.Discovered _ =>
      match pending_sends e with
      | [] => mret None
      | _ :: _ => arm_for_dial now defer_prefix;; mret None
      end
  | PeerPhase.Dead DeadReason.MaxRetries _ | PeerPhase.Dead DeadReason.Drained _ =>
      clear_connection_state;;
      e ← gets entry;
      let resurrected_endpoint := verified_endpoint e in
      arm_for_dial now defer_prefix;;
      mret resurrected_endpoint
  | PeerPhase.Reconnecting attempt next_at _ =>
      if next_at <=? now then begin_connect now attempt;; mret None else mret None
  | _ => mret None
  end.

Definition handle_advertised (now : Instant) (p : KeyPrefix) (d : DeviceId)
    (rssi : option Z) : RM unit :=
  r ← gets reg;
  let verified_for := fun e =>
    match verified_endpoint e with
    | Some eid => bool_decide (prefix_from_endpoint eid = p)
    | None => false
    end in
  let verified_before := existsb verified_for (hm_values (peers r)) in
  let has_verified_live :=
    existsb (fun e => verified_for e && PeerPhase.is_connected (phase e))
      (hm_values (peers r)) in
  let i_am_lower := bytes_ltb (my_prefix r) p in
  let already_verified_peer :=
    verified_before || bool_decide (is_Some (verified_prefixes r !! p)) in
  let should_defer := i_am_lower && negb already_verified_peer in
  if has_verified_live then
    with_entry d (
      upd_entry (set_last_adv (Some now));;
      upd_entry (set_prefix (Some p));;
      upd_entry (set_verified_live_suppressed_logged true));;
    mret tt
  else
    resurrected_endpoint ← or_insert_entry d (advertised_entry now p should_defer);
    match resurrected_endpoint with
    | Some endpoint =>
        when (bool_decide (prefix_from_endpoint endpoint = p))
          (upd_reg (fun r =>
            set_verified_prefixes (<[p := endpoint]> (verified_prefixes r)) r))
    | None => mret tt
    end.

Definition send_decision (tx_gen : Z) (e : PeerEntry) : SendDecision.t :=
  match phase e with
  | PeerPhase.Connected _ _ live_gen _ =>
      if tx_gen =? live_gen then SendDecision.Enqueue else SendDecision.Reject
  | PeerPhase.Discovered _ => SendDecision.StartAndEnqueue
  | PeerPhase.Unknown | PeerPhase.PendingDial _ _ _ | PeerPhase.Connecting _ _ _
  | PeerPhase.Handshaking _ _ | PeerPhase.Reconnecting _ _ _ | PeerPhase.Restoring _ =>
      SendDecision.Buffer
  | PeerPhase.Draining _ _ =>
      if resume_after_drain e then SendDecision.Buffer else SendDecision.Reject
  | PeerPhase.Dead _ _ => SendDecision.Reject
  end.

(** [while let Some(old) = entry.pending_sends.pop_front()] over a live pipe:
    what is left of the queue, whether the pipe turned out closed, and the
    store.  [entry.pipe] is only cleared on the way out of the loop. *)
Fixpoint flush_pending (h : OutboundTx) (l : list PendingSend) (en : Env)
    : list PendingSend * bool * Env :=
  match l with
  | [] => ([], false, en)
  | old :: rest =>
      match out_try_send h old en with
      | (TrySend.Ok, en') => flush_pending h rest en'
      | (TrySend.Full old, en') => (old :: rest, false, en')
      | (TrySend.Closed old, en') => (old :: rest, true, en')
      end
  end.

Definition push_back (s : PendingSend) : EM unit :=
  upd_entry (fun e => set_pending_sends (pending_sends e ++ [s]) e).

Definition enqueue_send (tx_gen : Z) (datagram : Bytes) (waker : Waker) : EM unit :=
  e ← gets entry;
  match pipe e, pending_sends e with
  | Some pipe, _ :: _ =>
      en ← gets e_env;
      let '(left_over, closed, en') := flush_pending (outbound_tx pipe) (pending_sends e) en in
      set_env en';;
      upd_entry (set_pending_sends left_over);;
      when closed (upd_entry (set_pipe None))
  | _, _ => mret tt
  end;;
  e ← gets entry;
  let send := mkPendingSend tx_gen datagram waker in
  match pipe e with
  | Some pipe =>
      en ← gets e_env;
      let '(r, en') := out_try_send (outbound_tx pipe) send en in
      set_env en';;
      match r with
      | TrySend.Ok => push (PeerAction.AckSend tx_gen waker (inl tt))
      | TrySend.Full _ => push (PeerAction.AckSend tx_gen waker (inr ErrorKind.WouldBlock))
      | TrySend.Closed send =>
          upd_entry (set_pipe None);;
          push_back send;;
          push (PeerAction.AckSend tx_gen (ps_waker send) (inl tt))
      end
  | None => push_back send
  end.

Definition send_datagram_entry (now : Instant) (target_endpoint : option EndpointId)
    (tx_gen : Z) (datagram : Bytes) (waker : Waker) : EM unit :=
  e ← gets entry;
  let decision := send_decision tx_gen e in
  match target_endpoint, decision with
  | Some t, (SendDecision.Buffer | SendDecision.StartAndEnqueue) =>
      upd_entry (set_target_endpoint (Some t))
  | _, _ => mret tt
  end;;
  match decision with
  | SendDecision.Enqueue => enqueue_send tx_gen datagram waker
  | SendDecision.Reject =>
      push (PeerAction.AckSend tx_gen waker (inr ErrorKind.WouldBlock))
  | SendDecision.Buffer =>
      push_back (mkPendingSend tx_gen datagram waker);;
      push (PeerAction.AckSend tx_gen waker (inl tt))
  | SendDecision.StartAndEnqueue =>
      push_back (mkPendingSend tx_gen datagram waker);;
      begin_connect now 0
  end.

Definition handle_send_datagram (now : Instant) (d : DeviceId)
    (target_endpoint : option EndpointId) (tx_gen : Z) (datagram : Bytes) (waker : Waker)
    : RM unit :=
  or_insert_entry d (send_datagram_entry now target_endpoint tx_gen datagram waker).

Definition connect_succeeded_entry (now : Instant) (d : DeviceId) (lid : Z)
    (channel : ChannelHandle) (policy : L2capPolicy.t) (my_endpoint : EndpointId)
    (verified : option EndpointId) (connected_for_prefix : nat) : EM unit :=
  e ← gets entry;
  if negb (lifecycle_id e =? lid) || negb (PeerPhase.is_connecting (phase e)) then mret tt
  else
    upd_entry (set_consecutive_failures 0);;
    push (PeerAction.ReadVersion d lid);;
    upd_entry (set_subscribed_chars ∅);;
    g ← bump_tx_gen;
    upd_entry (set_phase (PeerPhase.Connected now channel g false));;
    push_start_data_pipe d g (role e) ConnectPath.Gatt None;;
    match policy, verified with
    | L2capPolicy.PreferL2cap, Some endpoint_id =>
        when (negb (l2cap_upgrade_failed e)
              && should_emit_l2cap_upgrade connected_for_prefix (role e) my_endpoint endpoint_id)
          (start_l2cap_upgrade d)
    | _, _ => mret tt
    end.

Definition handle_connect_succeeded (now : Instant) (d : DeviceId) (lid : Z)
    (channel : ChannelHandle) : RM unit :=
  r ← gets reg;
  let known_prefix := e ← peers r !! d; prefix e in
  let verified := p ← known_prefix; verified_prefixes r !! p in
  let connected_for_prefix :=
    match known_prefix with
    | Some p => S (length (List.filter (connected_for p) (hm_values (peers r))))
    | None => O
    end in
  with_entry d (connect_succeeded_entry now d lid channel (l2cap_policy r) (my_endpoint r)
                  verified connected_for_prefix);;
  mret tt.

(** The end of a failed attempt, shared by [handle_connect_failed] and the
    [Connecting] arm of [handle_central_disconnected]: give up after
    [MAX_CONNECT_ATTEMPTS] (the result is then [true]: the caller prunes
    [verified_prefixes]) or back off. *)
Definition fail_attempt (now : Instant) (next_attempt : Z) (reason : DisconnectReason.t)
    : EM bool :=
  if MAX_CONNECT_ATTEMPTS <=? next_attempt then
    upd_entry (set_target_endpoint None);;
    upd_entry (set_phase (PeerPhase.Dead DeadReason.MaxRetries now));;
    e ← gets entry;
    match prefix e with
    | Some p => push (PeerAction.ForgetPeerStore p)
    | None => mret tt
    end;;
    mret true
  else
    upd_entry (set_phase
      (PeerPhase.Reconnecting next_attempt (now + reconnect_backoff next_attempt) reason));;
    mret false.

Definition connect_failed_entry (now : Instant) (d : DeviceId) (lid : Z) (error : string)
    : EM bool :=
  e ← gets entry;
  if negb (lifecycle_id e =? lid) then mret false
  else
    match phase e with
    | PeerPhase.Connecting attempt _ _ =>
        push (PeerAction.CloseNativeConnection d lid);;
        abandon_outstanding;;
        next_attempt ← expect (checked_add u32_max attempt 1);
        bump_consecutive_failures;;
        push (PeerAction.EmitMetric ("connect_failed:" +:+ error));;
        fail_attempt now next_attempt DisconnectReason.Timeout
    | _ => mret false
    end.

Definition handle_connect_failed (now : Instant) (d : DeviceId) (lid : Z) (error : string)
    : RM unit :=
  gave_up ← with_entry d (connect_failed_entry now d lid error);
  when (default false gave_up) prune_verified_prefixes.

Definition push_backlog (bytes : Bytes) : EM unit :=
  upd_entry (fun e => set_rx_backlog (rx_backlog e ++ [bytes]) e).

Definition gatt_channel (id : Z) : ChannelHandle := mkChannelHandle id ConnectPath.Gatt.
Definition l2cap_handle (id : Z) : ChannelHandle := mkChannelHandle id ConnectPath.L2cap.

(** [pipe.inbound_tx.try_send(bytes)], the outcome ignored. *)
Definition deliver (pipe : PipeHandles) (bytes : Bytes) : EM unit :=
  en ← gets e_env;
  set_env (in_try_send (inbound_tx pipe) bytes en).2.

Definition source_role (source : FragmentSource.t) : ConnectRole.t :=
  match source with
  | FragmentSource.CentralReceivedP2c => ConnectRole.Central
  | FragmentSource.PeripheralReceivedC2p => ConnectRole.Peripheral
  end.

(** A fragment for an entry that does not exist yet. *)
Definition inbound_fragment_vacant (now : Instant) (d : DeviceId) (bytes : Bytes) : EM unit :=
  upd_entry (set_role ConnectRole.Peripheral);;
  upd_entry (set_phase (PeerPhase.Connected now (gatt_channel 0) 1 false));;
  upd_entry (set_tx_gen 1);;
  upd_entry (set_last_rx (Some now));;
  push_backlog bytes;;
  push_start_data_pipe d 1 ConnectRole.Peripheral ConnectPath.Gatt None.

(** Any phase but [Handshaking], [Connected] and [Restoring]: the peer is
    writing to us, rebuild the entry as [Connected]. *)
Definition inbound_fragment_rebuild (now : Instant) (d : DeviceId)
    (source : FragmentSource.t) (bytes : Bytes) : EM unit :=
  e ← gets entry;
  let role := source_role source in
  (if negb (PeerPhase.is_connecting (phase e) && bool_decide (role = ConnectRole.Central))
   then abandon_outstanding;; mret tt else mret tt);;
  upd_entry (set_pipe None);;
  upd_entry (set_role role);;
  g ← bump_tx_gen;
  upd_entry (set_phase (PeerPhase.Connected now (gatt_channel 0) g false));;
  push_backlog bytes;;
  push_start_data_pipe d g role ConnectPath.Gatt None.

Definition inbound_fragment_occupied (now : Instant) (d : DeviceId)
    (source : FragmentSource.t) (bytes : Bytes) : EM unit :=
  upd_entry (set_last_rx (Some now));;
  e ← gets entry;
  match phase e with
  | PeerPhase.Handshaking _ channel =>
      g ← bump_tx_gen;
      upd_entry (set_phase (PeerPhase.Connected now channel g false));;
      push_backlog bytes;;
      push_start_data_pipe d g (role e) ConnectPath.Gatt None
  | PeerPhase.Connected _ ch _ _ =>
      let stale_peripheral_l2cap :=
        bool_decide (ch_path ch = ConnectPath.L2cap)
        && bool_decide (role e = ConnectRole.Peripheral) in
      match pipe e with
      | Some pipe => deliver pipe bytes
      | None =>
          if stale_peripheral_l2cap
             && bool_decide (source = FragmentSource.PeripheralReceivedC2p)
          then restart_peripheral_gatt_pipe now d (Some bytes) None
          else
            upd_entry (fun e => set_rx_backlog
              (if (RX_BACKLOG_CAP <=? length (rx_backlog e))%nat
               then drop 1 (rx_backlog e) else rx_backlog e) e);;
            push_backlog bytes
      end
  | PeerPhase.Restoring _ => mret tt
  | _ => inbound_fragment_rebuild now d source bytes
  end.

Definition handle_inbound_gatt_fragment (now : Instant) (d : DeviceId)
    (source : FragmentSource.t) (bytes : Bytes) : RM unit :=
  r ← gets reg;
  match peers r !! d with
  | None => or_insert_entry d (inbound_fragment_vacant now d bytes)
  | Some _ => with_entry d (inbound_fragment_occupied now d source bytes);; mret tt
  end.

Definition push_close (d : DeviceId) (lid : Z) (channel : option ChannelHandle)
    (reason : DisconnectReason.t) : EM unit :=
  match channel with
  | Some ch => push (PeerAction.CloseChannel d lid ch reason)
  | None => mret tt
  end.

Definition push_refresh (d : DeviceId) (lid : Z) (reason : DisconnectReason.t) : EM unit :=
  when (bool_decide (reason = DisconnectReason.Gatt133)) (push (PeerAction.Refresh d lid)).

(** The result tells the caller to prune [verified_prefixes]. *)
Definition central_disconnected_entry (now : Instant) (wall : Z) (d : DeviceId)
    (cause : DisconnectCause.t) : EM bool :=
  e ← gets entry;
  let lid := lifecycle_id e in
  let reason := DisconnectReason.from cause in
  if resume_after_drain e && PeerPhase.is_draining (phase e) then
    resume_drained_entry now;; mret false
  else
    match phase e with
    | PeerPhase.Connecting attempt _ _ =>
        abandon_outstanding;;
        next_attempt ← expect (checked_add u32_max attempt 1);
        bump_consecutive_failures;;
        upd_entry (set_pending_sends []);;
        push (PeerAction.EmitMetric ("connect_failed:" +:+ DisconnectReason.debug reason));;
        gave_up ← fail_attempt now next_attempt reason;
        push_refresh d lid reason;;
        mret gave_up
    | p =>
        drain_to_draining now wall reason;;
        push_close d lid (PeerPhase.live_channel p) reason;;
        push_refresh d lid reason;;
        mret false
    end.

Definition handle_central_disconnected (now : Instant) (wall : Z) (d : DeviceId)
    (cause : DisconnectCause.t) : RM unit :=
  gave_up ← with_entry d (central_disconnected_entry now wall d cause);
  when (default false gave_up) prune_verified_prefixes.

Definition power_off_entry (now : Instant) : EM unit :=
  abandon_outstanding;;
  upd_entry (set_phase (PeerPhase.Restoring now));;
  upd_entry (set_pending_sends []).

Definition power_on_entry (now : Instant) (e : PeerEntry) : PeerEntry :=
  if PeerPhase.is_restoring (phase e)
  then set_phase (PeerPhase.Reconnecting 0 now DisconnectReason.AdapterOff) e else e.

Definition handle_adapter_state_changed (now : Instant) (powered : bool) : RM unit :=
  upd_reg (set_adapter_state
    (if powered then BleAdapterState.PoweredOn else BleAdapterState.PoweredOff));;
  if negb powered then for_each_entry (power_off_entry now)
  else
    upd_reg (fun r => set_peers (power_on_entry now <$> peers r) r);;
    r ← gets reg;
    push_action (PeerAction.RestorePeripheral
      (bool_decide (l2cap_policy r = L2capPolicy.PreferL2cap)));;
    push_action PeerAction.RestartScan.

Definition tick_decision (tick_now : Instant) (en : Env) (e : PeerEntry)
    : option TickAction.t :=
  match phase e with
  | PeerPhase.Reconnecting attempt next_at _ =>
      if next_at <=? tick_now then Some (TickAction.StartConnect attempt) else None
  | PeerPhase.PendingDial _ deadline _ =>
      if deadline <=? tick_now then Some TickAction.PendingDialExpired else None
  | PeerPhase.Draining since _ =>
      if DRAINING_TIMEOUT <? saturating_duration_since tick_now since
      then Some TickAction.DrainingToDead else None
  | PeerPhase.Restoring since =>
      if RESTORING_TIMEOUT <? saturating_duration_since tick_now since
      then Some TickAction.RestoringToDead else None
  | PeerPhase.Connected _ _ _ _ =>
      h ← pipe e;
      let elapsed := saturating_duration_since tick_now (clock_last (last_rx_at h) en) in
      if CONNECTED_IDLE_DEADLINE <? elapsed then Some TickAction.ConnectedWedged else None
  | _ => None
  end.

Definition to_dead (reason : DeadReason.t) (now : Instant) : EM unit :=
  upd_entry (set_target_endpoint None);;
  upd_entry (set_phase (PeerPhase.Dead reason now)).

Definition tick_entry (tick_now : Instant) (wall : Z) (d : DeviceId) (a : TickAction.t)
    : EM unit :=
  match a with
  | TickAction.StartConnect attempt => begin_connect tick_now attempt
  | TickAction.PendingDialExpired => begin_connect tick_now 0
  | TickAction.DrainingToDead =>
      e ← gets entry;
      if resume_after_drain e then resume_drained_entry tick_now
      else to_dead DeadReason.Drained tick_now
  | TickAction.RestoringToDead => to_dead DeadReason.Drained tick_now
  | TickAction.ConnectedWedged =>
      e ← gets entry;
      let channel :=
        match phase e with PeerPhase.Connected _ ch _ _ => Some ch | _ => None end in
      drain_to_draining tick_now wall DisconnectReason.LinkDead;;
      push_close d (lifecycle_id e) channel DisconnectReason.LinkDead;;
      push (PeerAction.EmitMetric "connected_pipe_wedged")
  end.

Definition dead_expired (tick_now : Instant) (e : PeerEntry) : bool :=
  match phase e with
  | PeerPhase.Dead _ at_ => DEAD_GC_TTL <? saturating_duration_since tick_now at_
  | _ => false
  end.

Definition handle_tick (tick_now : Instant) (wall : Z) : RM unit :=
  s ← gets id;
  let decisions := omap (fun '(d, e) =>
    a ← tick_decision tick_now (env s) e; Some (d, a)) (hm_iter (peers (reg s))) in
  for_each decisions (fun '(d, a) => expect_entry d (tick_entry tick_now wall d a));;
  upd_reg (fun r => set_peers
    (filter (fun '(_, e) => dead_expired tick_now e = false) (peers r)) r);;
  prune_verified_prefixes.

Definition forget_entry (now : Instant) (d : DeviceId) : EM unit :=
  e ← gets entry;
  upd_entry (set_pipe None);;
  abandon_outstanding;;
  drain_pending ErrorKind.ConnectionAborted;;
  upd_entry (set_rx_backlog []);;
  upd_entry (set_target_endpoint None);;
  upd_entry (set_phase (PeerPhase.Dead DeadReason.Forgotten now));;
  push_close d (lifecycle_id e) (PeerPhase.live_channel (phase e))
    DisconnectReason.LocalClose.

Definition handle_forget (now : Instant) (d : DeviceId) : RM unit :=
  found ← with_entry d (forget_entry now d);
  when (bool_decide (is_Some found)) prune_verified_prefixes.

Definition stall_reason (cause : StallCause.t) : DisconnectReason.t :=
  match cause with
  | StallCause.LinkDead => DisconnectReason.LinkDead
  | StallCause.LocalClose => DisconnectReason.LocalClose
  end.

Definition stalled_entry (now : Instant) (wall : Z) (d : DeviceId) (cause : StallCause.t)
    : EM unit :=
  e ← gets entry;
  match phase e with
  | PeerPhase.Connected _ channel _ _ =>
      drain_to_draining now wall (stall_reason cause);;
      upd_entry (set_resume_after_drain (bool_decide (cause = StallCause.LocalClose)));;
      push (PeerAction.CloseChannel d (lifecycle_id e) channel (stall_reason cause))
  | _ => mret tt
  end.

Definition handle_stalled (now : Instant) (wall : Z) (d : DeviceId) (cause : StallCause.t)
    : RM unit :=
  with_entry d (stalled_entry now wall d cause);; mret tt.

Definition handle_shutdown : RM unit :=
  for_each_entry (abandon_outstanding;; drain_pending ErrorKind.ConnectionAborted).

(** [while let Some(bytes) = entry.rx_backlog.pop_front()]: the bytes whose send
    fails are dropped, the rest of the backlog stays. *)
Fixpoint flush_backlog (h : InboundTx) (l : list Bytes) (en : Env) : list Bytes * Env :=
  match l with
  | [] => ([], en)
  | bytes :: rest =>
      match in_try_send h bytes en with
      | (TrySend.Ok, en') => flush_backlog h rest en'
      | (_, en') => (rest, en')
      end
  end.

Definition data_pipe_ready_entry (gen : Z) (h : PipeHandles) : EM unit :=
  e ← gets entry;
  if negb (tx_gen e =? gen) then mret tt
  else
    en ← gets e_env;
    let '(backlog, en) := flush_backlog (inbound_tx h) (rx_backlog e) en in
    let '(pending, _, en) := flush_pending (outbound_tx h) (pending_sends e) en in
    set_env en;;
    upd_entry (set_rx_backlog backlog);;
    upd_entry (set_pending_sends pending);;
    upd_entry (set_pipe (Some h));;
    upd_entry (set_target_endpoint None).

Definition handle_data_pipe_ready (d : DeviceId) (gen : Z) (h : PipeHandles) : RM unit :=
  with_entry d (data_pipe_ready_entry gen h);; mret tt.

Definition open_l2cap_succeeded_entry (now : Instant) (d : DeviceId) (lid ugen : Z)
    (chan : L2capChannel) : EM unit :=
  e ← gets entry;
  if negb (lifecycle_id e =? lid) || negb (upgrade_gen e =? ugen) then mret tt
  else
    match phase e with
    | PeerPhase.Handshaking _ gatt =>
        upd_entry (set_l2cap_channel (Some chan));;
        upd_entry (set_subscribed_chars ∅);;
        g ← bump_tx_gen;
        upd_entry (set_phase (PeerPhase.Connected now (l2cap_handle (ch_id gatt)) g false));;
        push_start_data_pipe d g (role e) ConnectPath.L2cap (Some chan);;
        upd_entry (set_l2cap_channel None)
    | PeerPhase.Connected _ _ _ true =>
        match pipe e with
        | Some handles =>
            upd_entry (fun e => set_phase (phase_set_path ConnectPath.L2cap (phase e)) e);;
            push (PeerAction.SwapPipeToL2cap d chan (swap_tx handles))
        | None =>
            upd_entry (set_l2cap_upgrade_failed true);;
            upd_entry (fun e => set_phase (phase_set_upgrading false (phase e)) e)
        end
    | _ => mret tt
    end.

Definition handle_open_l2cap_succeeded (now : Instant) (d : DeviceId) (lid ugen : Z)
    (chan : L2capChannel) : RM unit :=
  with_entry d (open_l2cap_succeeded_entry now d lid ugen chan);; mret tt.

Definition open_l2cap_failed_entry (now : Instant) (d : DeviceId) (lid ugen : Z)
    (error : string) : EM unit :=
  e ← gets entry;
  if negb (lifecycle_id e =? lid) || negb (upgrade_gen e =? ugen) then mret tt
  else
    match phase e with
    | PeerPhase.Handshaking _ channel =>
        upd_entry (set_l2cap_upgrade_failed true);;
        upd_entry (set_subscribed_chars ∅);;
        g ← bump_tx_gen;
        upd_entry (set_phase (PeerPhase.Connected now channel g false));;
        push_start_data_pipe d g (role e) ConnectPath.Gatt None;;
        push (PeerAction.EmitMetric ("l2cap_fallback_to_gatt:" +:+ error))
    | PeerPhase.Connected _ _ _ true =>
        upd_entry (set_l2cap_upgrade_failed true);;
        upd_entry (fun e => set_phase (phase_set_upgrading false (phase e)) e)
    | _ => mret tt
    end.

Definition handle_open_l2cap_failed (now : Instant) (d : DeviceId) (lid ugen : Z)
    (error : string) : RM unit :=
  with_entry d (open_l2cap_failed_entry now d lid ugen error);; mret tt.

Definition handle_l2cap_handover_timeout (d : DeviceId) : RM unit :=
  with_entry d (
    upd_entry (set_l2cap_upgrade_failed true);;
    upd_entry (fun e => set_phase (phase_set_path ConnectPath.Gatt (phase e)) e));;
  mret tt.

Definition inbound_l2cap_vacant (now : Instant) (d : DeviceId) (chan : L2capChannel)
    : EM unit :=
  upd_entry (set_role ConnectRole.Peripheral);;
  upd_entry (set_tx_gen 1);;
  upd_entry (set_l2cap_channel (Some chan));;
  upd_entry (set_phase (PeerPhase.Connected now (l2cap_handle 0) 1 false));;
  push_start_data_pipe d 1 ConnectRole.Peripheral ConnectPath.L2cap (Some chan);;
  upd_entry (set_l2cap_channel None).

Definition inbound_l2cap_occupied (now : Instant) (d : DeviceId) (chan : L2capChannel)
    : EM unit :=
  e ← gets entry;
  match pipe e with
  | Some handles =>
      let existing_path :=
        match phase e with
        | PeerPhase.Connected _ ch _ _ => Some (ch_path ch)
        | _ => None
        end in
      match existing_path with
      | Some ConnectPath.L2cap => push (PeerAction.EmitMetric "l2cap_duplicate_accept")
      | Some ConnectPath.Gatt =>
          upd_entry (fun e => set_phase (phase_set_path ConnectPath.L2cap (phase e)) e);;
          push (PeerAction.EmitMetric "l2cap_late_accept_swapped");;
          push (PeerAction.SwapPipeToL2cap d chan (swap_tx handles))
      | None => push (PeerAction.EmitMetric "l2cap_late_accept_after_gatt")
      end
  | None =>
      abandon_outstanding;;
      upd_entry (set_l2cap_channel (Some chan));;
      g ← bump_tx_gen;
      upd_entry (set_phase (PeerPhase.Connected now (l2cap_handle 0) g false));;
      push_start_data_pipe d g (role e) ConnectPath.L2cap (Some chan);;
      upd_entry (set_l2cap_channel None)
  end.

Definition handle_inbound_l2cap_channel (now : Instant) (d : DeviceId)
    (chan : L2capChannel) : RM unit :=
  r ← gets reg;
  match peers r !! d with
  | None => or_insert_entry d (inbound_l2cap_vacant now d chan)
  | Some _ => with_entry d (inbound_l2cap_occupied now d chan);; mret tt
  end.

(** The result tells whether the mismatch concerned the current lifecycle. *)
Definition protocol_version_mismatch_entry (now : Instant) (wall : Z) (d : DeviceId)
    (lid got want : Z) : EM bool :=
  e ← gets entry;
  if negb (lifecycle_id e =? lid) then mret false
  else
    drain_to_draining now wall DisconnectReason.ProtocolMismatch;;
    to_dead (DeadReason.ProtocolMismatch got want) now;;
    push_close d lid (PeerPhase.live_channel (phase e)) DisconnectReason.ProtocolMismatch;;
    mret true.

Definition handle_protocol_version_mismatch (now : Instant) (wall : Z) (d : DeviceId)
    (lid got want : Z) : RM unit :=
  applied ← with_entry d (protocol_version_mismatch_entry now wall d lid got want);
  when (default false applied) prune_verified_prefixes.

(** ** Dispatch *)

(** [Registry::handle], without the vector it returns. *)
Definition handle_cmd (now : Instant) (wall : Z) (cmd : PeerCommand.t) : RM unit :=
  match cmd with
  | PeerCommand.Advertised p d rssi => handle_advertised now p d rssi
  | PeerCommand.SendDatagram d target g datagram waker =>
      handle_send_datagram now d target g datagram waker
  | PeerCommand.ConnectSucceeded d lid channel => handle_connect_succeeded now d lid channel
  | PeerCommand.ConnectFailed d lid error => handle_connect_failed now d lid error
  | PeerCommand.InboundGattFragment d source bytes =>
      handle_inbound_gatt_fragment now d source bytes
  | PeerCommand.CentralDisconnected d cause => handle_central_disconnected now wall d cause
  | PeerCommand.AdapterStateChanged powered => handle_adapter_state_changed now powered
  | PeerCommand.Tick tick_now => handle_tick tick_now wall
  | PeerCommand.Forget d => handle_forget now d
  | PeerCommand.Stalled d cause => handle_stalled now wall d cause
  | PeerCommand.Shutdown => handle_shutdown
  | PeerCommand.DataPipeReady d g otx itx stx clk =>
      handle_data_pipe_ready d g (mkPipeHandles otx itx stx clk)
  | PeerCommand.OpenL2capSucceeded d lid ugen chan =>
      handle_open_l2cap_succeeded now d lid ugen chan
  | PeerCommand.OpenL2capFailed d lid ugen error =>
      handle_open_l2cap_failed now d lid ugen error
  | PeerCommand.InboundL2capChannel d chan => handle_inbound_l2cap_channel now d chan
  | PeerCommand.CentralConnected _ => mret tt
  | PeerCommand.ProtocolVersionMismatch d lid got want =>
      handle_protocol_version_mismatch now wall d lid got want
  | PeerCommand.VerifiedEndpoint endpoint_id _ =>
      handle_verified_endpoint now wall endpoint_id None
  | PeerCommand.PeripheralClientSubscribed d u p =>
      handle_peripheral_client_subscribed now d u p
  | PeerCommand.PeripheralClientUnsubscribed d u =>
      handle_peripheral_client_unsubscribed now wall d u
  | PeerCommand.L2capHandoverTimeout d => handle_l2cap_handover_timeout d
  end.

(** [Registry::handle]: the actions start as an empty vector and are returned. *)
Definition handle (now : Instant) (wall : Z) (cmd : PeerCommand.t) (r : Registry) (en : Env)
    : option (list PeerAction.t * Registry * Env) :=
  '(_, s) ← handle_cmd now wall cmd (mkCtx r [] en);
  Some (actions s, reg s, env s).

(** [publish_snapshot]: one summary per entry, inserted in iteration order. *)
Definition publish_snapshot (r : Registry) : gmap DeviceId PeerStateSummary :=
  foldl (fun maps '(d, e) => <[d := summary e]> maps) ∅ (hm_iter (peers r)).

(** [tx.send_if_modified(..)]: the value the watchers see and whether they are
    woken. *)
Definition publish_adapter_state (r : Registry) : bool * Registry :=
  match adapter_state_tx r with
  | Some current =>
      (negb (bool_decide (current = adapter_state r)),
       set_adapter_state_tx (Some (adapter_state r)) r)
  | None => (false, r)
  end.
End Handlers.
