(* ===== verification/RegistryInv.v ===== *)
(** * RegistryInv: the invariant of the registry

    Lifecycle identities are what ties the registry to the driver: the driver
    runs native work under an identity and reports completions with it.  The
    invariant says that identities are unique, that an entry's identity has
    never been retired, and that the actions emitted over the whole run never
    ask for work under a retired one; together with the shape of each phase it
    is preserved by every handler.

    The proofs follow the two levels of the model: [EntryInv] is preserved by
    programs on an entry (one rule per primitive, then one lemma per program),
    [run_entry_inv] lifts that to the registry. *)

From S2P Require Import Prelude Peer Dedup Registry.
Open Scope Z_scope.

(** ** Traces of actions *)

Definition retire_id (a : PeerAction.t) : option Z :=
  match a with PeerAction.RetireLifecycle _ id => Some id | _ => None end.

(** The lifecycle an action asks the driver to start work under.  (Closing and
    refreshing are clean-up: they name the lifecycle they clean up after.) *)
Definition work_id (a : PeerAction.t) : option Z :=
  match a with
  | PeerAction.StartConnect _ _ id | PeerAction.ReadVersion _ id
  | PeerAction.StartDataPipe _ id _ _ _ _ _ | PeerAction.UpgradeToL2cap _ id _ => Some id
  | _ => None
  end.

Definition retired (l : list PeerAction.t) : list Z := omap retire_id l.

(** No work is asked for under an identity retired earlier. *)
Definition trace_ok (l : list PeerAction.t) : Prop :=
  forall l1 a l2 id, l = l1 ++ a :: l2 -> work_id a = Some id -> id ∉ retired l1.

Lemma retired_app l1 l2 : retired (l1 ++ l2) = retired l1 ++ retired l2.
Proof. apply omap_app. Qed.

Lemma trace_ok_nil : trace_ok [].
Proof. intros l1 a l2 id E. by destruct l1. Qed.

Lemma trace_ok_snoc l a :
  trace_ok l -> (forall id, work_id a = Some id -> id ∉ retired l) -> trace_ok (l ++ [a]).
Proof.
  intros Hl Ha l1 b l2 id E Hw.
  destruct l2 as [|c l2 _] using rev_ind.
  - apply app_inj_tail in E as [-> ->]. auto.
  - rewrite app_comm_cons, app_assoc in E. apply app_inj_tail in E as [-> _]. eauto.
Qed.

(** ** The shape of an entry *)

Definition phase_ok (e : PeerEntry) : Prop :=
  match phase e with
  | PeerPhase.Connected _ _ g _ => g = tx_gen e
  | PeerPhase.Connecting n _ _ | PeerPhase.Reconnecting n _ _ => 0 <= n < MAX_CONNECT_ATTEMPTS
  | PeerPhase.Draining _ reason =>
      resume_after_drain e = true -> reason = DisconnectReason.LocalClose
  | _ => True
  end.

Section Invariant.
Context {HI : HashIter} {MP : Mpsc}.
(** The actions of earlier commands. *)
Variable H : list PeerAction.t.

Record EntryInv (s : ECtx) : Prop := {
  ei_lt : lifecycle_id (entry s) < e_next_lifecycle s;
  ei_cur : lifecycle_id (entry s) ∉ retired (H ++ e_actions s);
  ei_ret : forall id, id ∈ retired (H ++ e_actions s) -> id < e_next_lifecycle s;
  ei_trace : trace_ok (H ++ e_actions s);
}.

(** What an entry program may do to the identities. *)
Record EntryStep (s s' : ECtx) : Prop := {
  es_dev : device_id (entry s') = device_id (entry s);
  es_next : e_next_lifecycle s <= e_next_lifecycle s';
  es_lc : lifecycle_id (entry s') = lifecycle_id (entry s)
          \/ e_next_lifecycle s <= lifecycle_id (entry s');
  es_ret : forall id, id ∈ retired (H ++ e_actions s') ->
    id ∈ retired (H ++ e_actions s) \/ id = lifecycle_id (entry s)
    \/ e_next_lifecycle s <= id;
}.

Definition LI (s0 s : ECtx) : Prop := EntryInv s /\ EntryStep s0 s.

Lemma LI_refl s : EntryInv s -> LI s s.
Proof. intros Hi. split; [done|]. constructor; auto with lia. Qed.

(** ** Rules for the primitives *)

Definition keeps (f : PeerEntry -> PeerEntry) (e : PeerEntry) : Prop :=
  device_id (f e) = device_id e /\ lifecycle_id (f e) = lifecycle_id e.

Lemma wp_upd_entry f s0 s (Q : unit -> ECtx -> Prop) :
  LI s0 s -> keeps f (entry s) ->
  (LI s0 (mkECtx (e_next_lifecycle s) (e_actions s) (e_env s) (f (entry s))) ->
   Q tt (mkECtx (e_next_lifecycle s) (e_actions s) (e_env s) (f (entry s)))) ->
  wp True (upd_entry f) Q s.
Proof.
  intros [[] []] [Hd Hl] HQ. apply HQ. split; constructor; cbn; rewrite ?Hd, ?Hl; done.
Qed.

Lemma wp_set_env v s0 s (Q : unit -> ECtx -> Prop) :
  LI s0 s ->
  (LI s0 (mkECtx (e_next_lifecycle s) (e_actions s) v (entry s)) ->
   Q tt (mkECtx (e_next_lifecycle s) (e_actions s) v (entry s))) ->
  wp True (set_env v) Q s.
Proof. intros [[] []] HQ. apply HQ. by split; constructor. Qed.

Definition quiet (id : Z) (a : PeerAction.t) : Prop :=
  retire_id a = None /\ (work_id a = None \/ work_id a = Some id).

Lemma retired_quiet id l a : quiet id a -> retired (H ++ l ++ [a]) = retired (H ++ l).
Proof.
  intros [Hr _]. rewrite !retired_app. unfold retired at 3. cbn. by rewrite Hr, app_nil_r.
Qed.

Lemma LI_push a s0 s :
  LI s0 s -> quiet (lifecycle_id (entry s)) a ->
  LI s0 (mkECtx (e_next_lifecycle s) (e_actions s ++ [a]) (e_env s) (entry s)).
Proof.
  intros [[] []] Hq. pose proof (retired_quiet _ (e_actions s) _ Hq) as E.
  split; constructor; cbn; rewrite ?E; try done.
  rewrite app_assoc. apply trace_ok_snoc; [done|].
  intros id Hw. destruct Hq as [_ [Hn|Hn]]; congruence.
Qed.

Lemma wp_push a s0 s (Q : unit -> ECtx -> Prop) :
  LI s0 s -> quiet (lifecycle_id (entry s)) a ->
  (LI s0 (mkECtx (e_next_lifecycle s) (e_actions s ++ [a]) (e_env s) (entry s)) ->
   Q tt (mkECtx (e_next_lifecycle s) (e_actions s ++ [a]) (e_env s) (entry s))) ->
  wp True (push a) Q s.
Proof. intros Hi Hq HQ. apply HQ. by apply LI_push. Qed.

Lemma LI_extend l s0 s :
  LI s0 s -> Forall (quiet (lifecycle_id (entry s))) l ->
  LI s0 (mkECtx (e_next_lifecycle s) (e_actions s ++ l) (e_env s) (entry s)).
Proof.
  intros Hi Hl. revert s Hi Hl. induction l as [|a l IH]; intros s Hi Hl.
  - rewrite app_nil_r. by destruct s.
  - apply Forall_cons in Hl as [Ha Hl]. rewrite cons_middle, app_assoc.
    apply (IH (mkECtx (e_next_lifecycle s) (e_actions s ++ [a]) (e_env s) (entry s)));
      [by apply LI_push | done].
Qed.

(** The state after [abandon_outstanding]. *)
Definition abandoned (s : ECtx) : ECtx :=
  mkECtx (e_next_lifecycle s + 1)
    (e_actions s ++ [PeerAction.RetireLifecycle (device_id (entry s)) (lifecycle_id (entry s))])
    (e_env s) (set_upgrade_gen 0 (set_lifecycle_id (e_next_lifecycle s) (entry s))).

Lemma LI_abandoned s0 s : LI s0 s -> LI s0 (abandoned s).
Proof.
  intros [[Hlt Hcur Hret Htr] [Hdev Hnx Hlc Hrt]]. unfold abandoned.
  assert (forall id, id ∈ retired (H ++ e_actions s ++ [PeerAction.RetireLifecycle
    (device_id (entry s)) (lifecycle_id (entry s))])
    <-> id ∈ retired (H ++ e_actions s) \/ id = lifecycle_id (entry s)) as E.
  { intros id. rewrite app_assoc, (retired_app (H ++ _)), elem_of_app.
    change (retired [_]) with [lifecycle_id (entry s)]. by rewrite list_elem_of_singleton. }
  assert (forall id, id ∈ retired (H ++ e_actions s) \/ id = lifecycle_id (entry s) ->
    id < e_next_lifecycle s) as Hold by (intros id [Hid| ->]; auto).
  split; constructor; cbn; try done; try lia.
  - intros Hid%E%Hold. lia.
  - intros id Hid%E%Hold. lia.
  - rewrite app_assoc. by apply trace_ok_snoc.
  - intros id [Hid| ->]%E; [by auto|]. destruct Hlc as [-> | ?]; auto.
Qed.

Lemma wp_abandon s0 s (Q : Z -> ECtx -> Prop) :
  LI s0 s ->
  (LI s0 (abandoned s) -> Q (e_next_lifecycle s) (abandoned s)) ->
  wp True abandon_outstanding Q s.
Proof.
  intros Hi HQ. unfold abandon_outstanding, push, upd_entry. wp_steps.
  destruct (checked_add u64_max _ 1) as [n|] eqn:E; wp_steps; [|done].
  apply checked_add_Some in E as [-> _]. by apply HQ, LI_abandoned.
Qed.

(** [+= 1] either panics or stores the successor. *)
Lemma wp_bump_tx_gen s0 s (Q : Z -> ECtx -> Prop) :
  LI s0 s ->
  (forall n, n = tx_gen (entry s) + 1 ->
    LI s0 (mkECtx (e_next_lifecycle s) (e_actions s) (e_env s) (set_tx_gen n (entry s))) ->
    Q n (mkECtx (e_next_lifecycle s) (e_actions s) (e_env s) (set_tx_gen n (entry s)))) ->
  wp True bump_tx_gen Q s.
Proof.
  intros Hi HQ. unfold bump_tx_gen. wp_steps.
  destruct (checked_add u64_max _ 1) as [n|] eqn:E; wp_steps; [|done].
  apply checked_add_Some in E as [-> _].
  eapply wp_upd_entry; [done|done|]. intros Hi'. by apply HQ.
Qed.

Lemma wp_bump_upgrade_gen s0 s (Q : Z -> ECtx -> Prop) :
  LI s0 s ->
  (forall n, n = upgrade_gen (entry s) + 1 ->
    LI s0 (mkECtx (e_next_lifecycle s) (e_actions s) (e_env s) (set_upgrade_gen n (entry s))) ->
    Q n (mkECtx (e_next_lifecycle s) (e_actions s) (e_env s) (set_upgrade_gen n (entry s)))) ->
  wp True bump_upgrade_gen Q s.
Proof.
  intros Hi HQ. unfold bump_upgrade_gen. wp_steps.
  destruct (checked_add u64_max _ 1) as [n|] eqn:E; wp_steps; [|done].
  apply checked_add_Some in E as [-> _].
  eapply wp_upd_entry; [done|done|]. intros Hi'. by apply HQ.
Qed.

Lemma wp_bump_failures s0 s (Q : unit -> ECtx -> Prop) :
  LI s0 s ->
  (forall n,
    LI s0 (mkECtx (e_next_lifecycle s) (e_actions s) (e_env s)
             (set_consecutive_failures n (entry s))) ->
    Q tt (mkECtx (e_next_lifecycle s) (e_actions s) (e_env s)
             (set_consecutive_failures n (entry s)))) ->
  wp True bump_consecutive_failures Q s.
Proof.
  intros Hi HQ. unfold bump_consecutive_failures. wp_steps.
  destruct (checked_add u32_max _ 1) as [n|] eqn:E; wp_steps; [|done].
  eapply wp_upd_entry; [done|done|]. intros Hi'. by apply HQ.
Qed.

(** A good entry program keeps the identities and the shape of the entry. *)
Definition good {A} (c : M ECtx A) : Prop := forall s,
  EntryInv s -> phase_ok (entry s) ->
  wp True c (fun _ s' => LI s s' /\ phase_ok (entry s')) s.

(** The same, for a program that sets the phase without looking at it. *)
Definition resets {A} (c : M ECtx A) : Prop := forall s0 s,
  LI s0 s -> wp True c (fun _ s' => LI s0 s' /\ phase_ok (entry s')) s.

Lemma resets_good {A} (c : M ECtx A) : resets c -> good c.
Proof. intros Hc s Hi _. apply Hc, LI_refl, Hi. Qed.
End Invariant.

(** ** Automation

    [esimpl] computes fields of updated entries; [eprim] applies the rule of the
    primitive at the head of the program; [ebranch] splits on what the program
    branches on; [erun] runs a program symbolically and closes the leaves. *)

Declare Reduction efields := cbn [
  entry e_actions e_next_lifecycle e_env abandoned
  device_id phase last_adv last_rx last_tx consecutive_failures tx_gen lifecycle_id
  upgrade_gen pending_sends role pipe rx_backlog l2cap_channel subscribed_chars prefix
  target_endpoint verified_endpoint verified_at l2cap_upgrade_failed
  verified_live_suppressed_logged resume_after_drain
  set_phase set_last_adv set_last_rx set_consecutive_failures set_tx_gen set_lifecycle_id
  set_upgrade_gen set_pending_sends set_role set_pipe set_rx_backlog set_l2cap_channel
  set_subscribed_chars set_prefix set_target_endpoint set_verified_endpoint set_verified_at
  set_l2cap_upgrade_failed set_verified_live_suppressed_logged set_resume_after_drain
  stamp_verified phase_set_upgrading phase_set_path].
Ltac esimpl :=
  repeat match goal with
  | Hi : LI _ _ _ |- _ =>
      progress (let T := type of Hi in let T' := eval efields in T in change T' in Hi)
  end;
  match goal with |- ?T => let T' := eval efields in T in change T' end.

(** The identity guard of a completion handler, read off the branch taken. *)
Ltac eguard :=
  repeat match goal with
  | E : (_ || _) = false |- _ => apply orb_false_iff in E as [? ?]
  | E : negb _ = false |- _ => apply negb_false_iff in E
  | E : (_ =? _) = true |- _ => apply Z.eqb_eq in E
  | E : (_ <=? _) = false |- _ => apply Z.leb_gt in E
  | E : checked_add _ _ _ = Some _ |- _ => apply checked_add_Some in E as [-> ?]
  end.
Ltac equiet :=
  split; [reflexivity
         | first [left; reflexivity | right; reflexivity
                 | right; cbn; eguard; f_equal; congruence]].

Ltac eprim :=
  match goal with
  | Hi : LI _ _ ?s |- wp True (upd_entry _) _ ?s =>
      eapply wp_upd_entry; [exact Hi | split; reflexivity | clear Hi; intros Hi]
  | Hi : LI _ _ ?s |- wp True (set_env _) _ ?s =>
      eapply wp_set_env; [exact Hi | clear Hi; intros Hi]
  | Hi : LI _ _ ?s |- wp True (push _) _ ?s =>
      eapply wp_push; [exact Hi | equiet | clear Hi; intros Hi]
  | Hi : LI _ _ ?s |- wp True abandon_outstanding _ ?s =>
      eapply wp_abandon; [exact Hi | clear Hi; intros Hi]
  | Hi : LI _ _ ?s |- wp True bump_tx_gen _ ?s =>
      eapply wp_bump_tx_gen; [exact Hi | clear Hi; intros ? ? Hi]
  | Hi : LI _ _ ?s |- wp True bump_upgrade_gen _ ?s =>
      eapply wp_bump_upgrade_gen; [exact Hi | clear Hi; intros ? ? Hi]
  | Hi : LI _ _ ?s |- wp True bump_consecutive_failures _ ?s =>
      eapply wp_bump_failures; [exact Hi | clear Hi; intros ? Hi]
  end.

Ltac ebranch :=
  match goal with
  | Hi : LI _ _ _ |- wp True (match ?x with _ => _ end) _ _ =>
      let E := fresh "E" in destruct x eqn:E; rewrite ?E in Hi
  | Hi : LI _ _ _ |- match ?x with _ => _ end =>
      let E := fresh "E" in destruct x eqn:E; rewrite ?E in Hi
  end.

(** Symbolic execution alone: the head of the program is run and the fields of
    the new entry are computed. *)
Ltac estep1 :=
  lazymatch goal with
  | |- wp ?P (_ ≫= _) _ _ => apply wp_bind_intro
  | |- wp ?P (mret ?a) ?Q ?s => change (Q a s)
  | |- wp ?P (gets ?f) ?Q ?s => change (Q (f s) s)
  | |- wp ?P (upd_entry ?f) ?Q ?s =>
      change (Q tt (mkECtx (e_next_lifecycle s) (e_actions s) (e_env s) (f (entry s))))
  | |- wp ?P (push ?a) ?Q ?s =>
      change (Q tt (mkECtx (e_next_lifecycle s) (e_actions s ++ [a]) (e_env s) (entry s)))
  | |- wp ?P (extend ?l) ?Q ?s =>
      change (Q tt (mkECtx (e_next_lifecycle s) (e_actions s ++ l) (e_env s) (entry s)))
  | |- wp ?P (set_env ?v) ?Q ?s =>
      change (Q tt (mkECtx (e_next_lifecycle s) (e_actions s) v (entry s)))
  | |- wp ?P (modify ?f) ?Q ?s => change (Q tt (f s))
  | |- wp ?P (when ?b ?c) ?Q ?s => rewrite wp_when
  | |- wp ?P (expect ?o) ?Q ?s => rewrite wp_expect
  end; cbn beta iota; esimpl.
Ltac esteps := repeat estep1.

Ltac estep := first [progress (autorewrite with wp; cbn beta iota; esimpl) | eprim | ebranch].
Ltac erun := repeat estep.
Ltac phase_subst :=
  repeat match goal with E : phase _ = _ |- _ => progress (rewrite E in * ) end.
Ltac eleaf :=
  first
  [ exact I
  | split; [assumption
           | unfold phase_ok, MAX_CONNECT_ATTEMPTS in *; esimpl; phase_subst; esimpl;
             try done; try congruence; eguard; lia] ].

Section Programs.
Context {HI : HashIter} {MP : Mpsc} (H : list PeerAction.t).

Lemma begin_connect_good now n :
  0 <= n < MAX_CONNECT_ATTEMPTS -> resets H (begin_connect now n).
Proof. intros Hn s0 s Hi. unfold begin_connect. erun. eleaf. Qed.

Lemma arm_for_dial_good now p : resets H (arm_for_dial now p).
Proof.
  intros s0 s Hi. unfold arm_for_dial. erun; try eleaf.
  by apply begin_connect_good.
Qed.

Lemma clear_connection_state_wp s0 s (Q : unit -> ECtx -> Prop) :
  LI H s0 s -> (forall s', LI H s0 s' -> Q tt s') -> wp True clear_connection_state Q s.
Proof. intros Hi HQ. unfold clear_connection_state. erun. by apply HQ. Qed.

Lemma resume_drained_entry_good now : resets H (resume_drained_entry now).
Proof.
  intros s0 s Hi. unfold resume_drained_entry. rewrite wp_bind.
  eapply clear_connection_state_wp; [done|]. intros s' Hi'. by apply arm_for_dial_good.
Qed.

Lemma drain_pending_wp kind s0 s (Q : unit -> ECtx -> Prop) :
  LI H s0 s ->
  (forall s', LI H s0 s' -> entry s' = set_pending_sends [] (entry s) ->
     e_next_lifecycle s' = e_next_lifecycle s -> Q tt s') ->
  wp True (drain_pending kind) Q s.
Proof.
  intros Hi HQ. unfold drain_pending, extend. wp_steps.
  assert (Forall (quiet (lifecycle_id (entry s))) (ack_of kind <$> pending_sends (entry s))) as Hq.
  { apply Forall_fmap, Forall_true. intros x. equiet. }
  apply (LI_extend _ _ _ _ Hi) in Hq.
  erun. by apply HQ.
Qed.

(** A drain leaves the entry [Draining], with no intent to resume. *)
Lemma drain_to_draining_wp now wall reason s0 s (Q : unit -> ECtx -> Prop) :
  LI H s0 s ->
  (forall s', LI H s0 s' -> phase (entry s') = PeerPhase.Draining now reason ->
     resume_after_drain (entry s') = false -> Q tt s') ->
  wp True (drain_to_draining now wall reason) Q s.
Proof.
  intros Hi HQ. unfold drain_to_draining. erun.
  eapply drain_pending_wp; [done|]. clear Hi. intros s' Hi E _.
  erun; by apply HQ; [|esimpl; rewrite ?E..].
Qed.

Lemma drain_to_draining_good now wall reason : resets H (drain_to_draining now wall reason).
Proof.
  intros s0 s Hi. eapply drain_to_draining_wp; [done|]. intros s' Hi' Hp Hr.
  split; [done|]. unfold phase_ok. by rewrite Hp, Hr.
Qed.

Lemma restart_peripheral_gatt_pipe_good now d f u :
  resets H (restart_peripheral_gatt_pipe now d f u).
Proof.
  intros s0 s Hi. unfold restart_peripheral_gatt_pipe, push_start_data_pipe. erun; eleaf.
Qed.

Lemma start_l2cap_upgrade_good d : good H (start_l2cap_upgrade d).
Proof.
  intros s Hi Hp. apply LI_refl in Hi. unfold start_l2cap_upgrade. erun. split; [done|].
  revert Hp. unfold phase_ok. cbn. by destruct (phase (entry s)).
Qed.
End Programs.

Create HintDb resets.
#[export] Hint Resolve arm_for_dial_good begin_connect_good resume_drained_entry_good
  drain_to_draining_good restart_peripheral_gatt_pipe_good : resets.
#[export] Hint Extern 1 (_ <= _ < MAX_CONNECT_ATTEMPTS) =>
  unfold phase_ok, MAX_CONNECT_ATTEMPTS in *; simplify_eq/=; lia : resets.

(** Calls of the programs above. *)
Ltac ecall :=
  match goal with
  | Hi : LI _ _ ?s |- wp True clear_connection_state _ ?s =>
      eapply clear_connection_state_wp; [exact Hi | clear Hi; intros ? Hi]
  | Hi : LI _ _ ?s |- wp True (drain_pending _) _ ?s =>
      eapply drain_pending_wp; [exact Hi | clear Hi; intros ? Hi ? ?]
  | Hi : LI _ _ ?s |- wp True (drain_to_draining _ _ _) _ ?s =>
      eapply drain_to_draining_wp; [exact Hi | clear Hi; intros ? Hi ? ?]
  | Hi : LI ?H ?s0 ?s |- wp True ?c _ ?s =>
      eapply (wp_mono True c); [
        let Hr := fresh in
        assert (resets H c) as Hr by eauto with resets; exact (Hr s0 s Hi)
      | clear Hi; intros ? ? [Hi ?]]
  end.

Ltac estep ::= first
  [ progress (autorewrite with wp; cbn beta iota; esimpl) | eprim
  | progress (unfold phase_ok in *; phase_subst; esimpl); ecall
  | ecall | ebranch ].

Section Programs2.
Context {HI : HashIter} {MP : Mpsc} (H : list PeerAction.t).

Lemma advertised_entry_good now p b : good H (advertised_entry now p b).
Proof.
  intros s Hi Hp. apply LI_refl in Hi. unfold advertised_entry. erun; eleaf.
Qed.

Lemma send_datagram_entry_good now t g dg w : good H (send_datagram_entry now t g dg w).
Proof.
  intros s Hi Hp. apply LI_refl in Hi.
  unfold send_datagram_entry, enqueue_send, push_back. erun; eleaf.
Qed.

Lemma connect_succeeded_entry_good now d lid ch pol me v n :
  good H (connect_succeeded_entry now d lid ch pol me v n).
Proof.
  intros s Hi Hp. apply LI_refl in Hi.
  unfold connect_succeeded_entry, push_start_data_pipe, start_l2cap_upgrade. erun; eleaf.
Qed.

Lemma connect_failed_entry_good now d lid err : good H (connect_failed_entry now d lid err).
Proof.
  intros s Hi Hp. apply LI_refl in Hi.
  unfold connect_failed_entry, fail_attempt. erun; eleaf.
Qed.

Lemma inbound_fragment_occupied_good now d src b :
  good H (inbound_fragment_occupied now d src b).
Proof.
  intros s Hi Hp. apply LI_refl in Hi.
  unfold inbound_fragment_occupied, inbound_fragment_rebuild, push_backlog, deliver,
    push_start_data_pipe. erun; eleaf.
Qed.

Lemma central_disconnected_entry_good now wall d c :
  good H (central_disconnected_entry now wall d c).
Proof.
  intros s Hi Hp. apply LI_refl in Hi.
  unfold central_disconnected_entry, fail_attempt, push_close, push_refresh. erun; eleaf.
Qed.

(** Programs on an entry just created. *)
Lemma inbound_fragment_vacant_good now d b : resets H (inbound_fragment_vacant now d b).
Proof.
  intros s0 s Hi. unfold inbound_fragment_vacant, push_backlog, push_start_data_pipe.
  erun; eleaf.
Qed.

Lemma inbound_l2cap_vacant_good now d c : resets H (inbound_l2cap_vacant now d c).
Proof.
  intros s0 s Hi. unfold inbound_l2cap_vacant, push_start_data_pipe. erun; eleaf.
Qed.

Lemma power_off_entry_good now : resets H (power_off_entry now).
Proof. intros s0 s Hi. unfold power_off_entry. erun; eleaf. Qed.

Lemma shutdown_entry_good :
  good H (abandon_outstanding;; drain_pending ErrorKind.ConnectionAborted).
Proof.
  intros s Hi Hp. apply LI_refl in Hi. rewrite wp_bind. eprim.
  eapply drain_pending_wp; [done|]. intros s' Hi' E _. split; [done|].
  by rewrite E.
Qed.

Lemma tick_entry_good now wall d a :
  (forall n, a = TickAction.StartConnect n -> 0 <= n < MAX_CONNECT_ATTEMPTS) ->
  resets H (tick_entry now wall d a).
Proof.
  intros Ha s0 s Hi. unfold tick_entry, to_dead, push_close.
  destruct a; try specialize (Ha _ eq_refl); erun; eleaf.
Qed.

Lemma forget_entry_good now d : resets H (forget_entry now d).
Proof. intros s0 s Hi. unfold forget_entry, push_close. erun; eleaf. Qed.

Lemma stalled_entry_good now wall d c : good H (stalled_entry now wall d c).
Proof.
  intros s Hi Hp. apply LI_refl in Hi. unfold stalled_entry. erun; try eleaf.
  split; [done|]. unfold phase_ok. cbn. phase_subst. by destruct c.
Qed.

Lemma data_pipe_ready_entry_good g h : good H (data_pipe_ready_entry g h).
Proof.
  intros s Hi Hp. apply LI_refl in Hi. unfold data_pipe_ready_entry. erun; eleaf.
Qed.

Lemma open_l2cap_succeeded_entry_good now d lid ug c :
  good H (open_l2cap_succeeded_entry now d lid ug c).
Proof.
  intros s Hi Hp. apply LI_refl in Hi.
  unfold open_l2cap_succeeded_entry, push_start_data_pipe. erun; eleaf.
Qed.

Lemma open_l2cap_failed_entry_good now d lid ug err :
  good H (open_l2cap_failed_entry now d lid ug err).
Proof.
  intros s Hi Hp. apply LI_refl in Hi.
  unfold open_l2cap_failed_entry, push_start_data_pipe. erun; eleaf.
Qed.

Lemma inbound_l2cap_occupied_good now d c : good H (inbound_l2cap_occupied now d c).
Proof.
  intros s Hi Hp. apply LI_refl in Hi.
  unfold inbound_l2cap_occupied, push_start_data_pipe. erun; try eleaf.
  split; [done|]. revert Hp. unfold phase_ok. cbn. by destruct (phase (entry s)).
Qed.

Lemma protocol_version_mismatch_entry_good now wall d lid g w :
  good H (protocol_version_mismatch_entry now wall d lid g w).
Proof.
  intros s Hi Hp. apply LI_refl in Hi.
  unfold protocol_version_mismatch_entry, to_dead, push_close. erun; eleaf.
Qed.
End Programs2.

(** ** The registry invariant *)

Section RegistryLevel.
Context {HI : HashIter} {MP : Mpsc} (H : list PeerAction.t).

Record RegInv (s : Ctx) : Prop := {
  ri_key : forall d e, peers (reg s) !! d = Some e -> device_id e = d;
  ri_lt : forall d e, peers (reg s) !! d = Some e -> lifecycle_id e < next_lifecycle (reg s);
  ri_cur : forall d e, peers (reg s) !! d = Some e -> lifecycle_id e ∉ retired (H ++ actions s);
  ri_phase : forall d e, peers (reg s) !! d = Some e -> phase_ok e;
  ri_inj : forall d1 e1 d2 e2, peers (reg s) !! d1 = Some e1 -> peers (reg s) !! d2 = Some e2 ->
    lifecycle_id e1 = lifecycle_id e2 -> d1 = d2;
  ri_ret : forall id, id ∈ retired (H ++ actions s) -> id < next_lifecycle (reg s);
  ri_trace : trace_ok (H ++ actions s);
  ri_vp : forall p ep, verified_prefixes (reg s) !! p = Some ep -> prefix_from_endpoint ep = p;
}.

(** [e] can be the entry of [d]: it is, or it was just made for [d]. *)
Record Slot (d : DeviceId) (e : PeerEntry) (s : Ctx) : Prop := {
  sl_key : device_id e = d;
  sl_lt : lifecycle_id e < next_lifecycle (reg s);
  sl_cur : lifecycle_id e ∉ retired (H ++ actions s);
  sl_phase : phase_ok e;
  sl_inj : forall d' e', peers (reg s) !! d' = Some e' -> lifecycle_id e' = lifecycle_id e -> d' = d;
}.

Lemma lookup_Slot d e s : RegInv s -> peers (reg s) !! d = Some e -> Slot d e s.
Proof. intros [] Hd. constructor; eauto. Qed.

(** Running a good program on the entry of [d] keeps the invariant. *)
Lemma run_entry_inv {A} d e (c : M ECtx A) s (Q : A -> Ctx -> Prop) :
  RegInv s -> Slot d e s -> good H c -> (forall a s', RegInv s' -> Q a s') ->
  wp True (run_entry d e c) Q s.
Proof.
  intros [Hk Hlt Hcur Hph Hinj Hret Htr Hvp] [Sk Slt Scur Sph Sinj] Hc HQ.
  set (s0 := mkECtx (next_lifecycle (reg s)) (actions s) (env s) e).
  assert (EntryInv H s0) as Hi0 by (by constructor).
  specialize (Hc s0 Hi0 Sph). unfold wp, run_entry in *. fold s0.
  destruct (c s0) as [[a s']|]; [|done].
  destruct Hc as [[[Ilt Icur Iret Itr] [Edev Enx Elc Ert]] Hp']. subst s0. cbn in *.
  apply HQ. constructor; cbn; try done.
  - intros d' e' [[<- <-]|[? ?]]%lookup_insert_Some; [congruence|eauto].
  - intros d' e' [[<- <-]|[? He']]%lookup_insert_Some; [done|]. apply Hlt in He'. lia.
  - intros d' e' [[<- <-]|[? He']]%lookup_insert_Some; [done|].
    intros [Hin|[Hin|Hin]]%Ert.
    + by eapply Hcur.
    + symmetry in Hin. eauto using eq_sym.
    + apply Hlt in He'. lia.
  - intros d' e' [[<- <-]|[? ?]]%lookup_insert_Some; eauto.
  - assert (forall d' e', peers (reg s) !! d' = Some e' ->
      lifecycle_id e' = lifecycle_id (entry s') -> d' = d) as Hnew.
    { intros d' e' He' E. destruct Elc as [E'|E']; [apply (Sinj _ _ He'); congruence|].
      apply Hlt in He'. lia. }
    intros d1 e1 d2 e2 [[<- <-]|[? He1]]%lookup_insert_Some
      [[<- <-]|[? He2]]%lookup_insert_Some E; eauto using eq_sym.
Qed.

Definition rgood {A} (c : M Ctx A) : Prop :=
  forall s, RegInv s -> wp True c (fun _ => RegInv) s.

Lemma rgood_ret {A} (a : A) : rgood (mret a).
Proof. by intros s Hs. Qed.

Lemma rgood_bind {A B} (c : M Ctx A) (f : A -> M Ctx B) :
  rgood c -> (forall a, rgood (f a)) -> rgood (c ≫= f).
Proof.
  intros Hc Hf s Hs. rewrite wp_bind. eapply wp_mono; [by apply Hc|].
  intros a s' Hs'. by apply Hf.
Qed.

Lemma rgood_gets {A} (f : Ctx -> A) : rgood (gets f).
Proof. by intros s Hs. Qed.

Lemma rgood_when b (c : M Ctx unit) : rgood c -> rgood (when b c).
Proof. destruct b; [done|]. intros _. apply rgood_ret. Qed.

Lemma rgood_for_each_in {A} (l : list A) (f : A -> M Ctx unit) :
  (forall x, x ∈ l -> rgood (f x)) -> rgood (for_each l f).
Proof.
  intros Hf s Hs. eapply wp_mono; [apply (wp_for_each True l f RegInv)|]; [done| |done].
  intros x s' Hx Hs'. by apply Hf.
Qed.

Lemma rgood_for_each {A} (l : list A) (f : A -> M Ctx unit) :
  (forall x, rgood (f x)) -> rgood (for_each l f).
Proof. intros Hf. apply rgood_for_each_in. auto. Qed.

Lemma rgood_with_entry {A} d (c : M ECtx A) : good H c -> rgood (with_entry d c).
Proof.
  intros Hc s Hs. unfold with_entry. wp_steps.
  destruct (peers (reg s) !! d) as [e|] eqn:E; wp_steps; [|done].
  eapply run_entry_inv; [done|by apply lookup_Slot|done|done].
Qed.

Lemma rgood_expect_entry {A} d (c : M ECtx A) : good H c -> rgood (expect_entry d c).
Proof.
  intros Hc s Hs. unfold expect_entry. wp_steps.
  destruct (peers (reg s) !! d) as [e|] eqn:E; [|done].
  eapply run_entry_inv; [done|by apply lookup_Slot|done|done].
Qed.

Lemma fresh_Slot d s n :
  RegInv s -> n = next_lifecycle (reg s) + 1 ->
  let s' := mkCtx (set_next_lifecycle n (reg s)) (actions s) (env s) in
  RegInv s' /\ Slot d (set_lifecycle_id (next_lifecycle (reg s)) (PeerEntry_new d)) s'.
Proof.
  intros [] ->. split; constructor; cbn; try done; try lia.
  - intros d' e' He. apply ri_lt0 in He. lia.
  - intros id Hid. apply ri_ret0 in Hid. lia.
  - intros Hid. apply ri_ret0 in Hid. lia.
  - intros d' e' He E. apply ri_lt0 in He. lia.
Qed.

Lemma rgood_or_insert_entry {A} d (c : M ECtx A) : good H c -> rgood (or_insert_entry d c).
Proof.
  intros Hc s Hs. unfold or_insert_entry, new_entry. wp_steps.
  destruct (peers (reg s) !! d) as [e|] eqn:E; wp_steps.
  - eapply run_entry_inv; [done|by apply lookup_Slot|done|done].
  - destruct (checked_add _ _ _) as [n|] eqn:En; [|done]. unfold upd_reg. wp_steps.
    apply checked_add_Some in En as [En _].
    destruct (fresh_Slot d s n Hs En) as [Hs' Hsl].
    by eapply run_entry_inv.
Qed.

Lemma rgood_push_action a :
  retire_id a = None -> work_id a = None -> rgood (push_action a).
Proof.
  intros Hr Hw s []. unfold push_action. wp_steps.
  assert (retired (H ++ actions s ++ [a]) = retired (H ++ actions s)) as E.
  { apply (retired_quiet H 0). split; auto. }
  constructor; cbn; rewrite ?E; try done.
  rewrite app_assoc. apply trace_ok_snoc; [done|congruence].
Qed.

Lemma rgood_map_peers (f : PeerEntry -> PeerEntry) :
  (forall e, keeps f e) -> (forall e, phase_ok e -> phase_ok (f e)) ->
  rgood (upd_reg (fun r => set_peers (f <$> peers r) r)).
Proof.
  intros Hf Hp s []. unfold upd_reg. wp_steps.
  constructor; cbn; try done.
  1-4: intros d e; rewrite lookup_fmap_Some; intros (e' & <- & He');
    destruct (Hf e') as [Ed El]; rewrite ?Ed, ?El; eauto.
  intros d1 e1 d2 e2. rewrite !lookup_fmap_Some. intros (e1' & <- & H1) (e2' & <- & H2).
  destruct (Hf e1') as [_ ->], (Hf e2') as [_ ->]. eauto.
Qed.

Lemma rgood_filter_peers (P : DeviceId * PeerEntry -> Prop) `{forall x, Decision (P x)} :
  rgood (upd_reg (fun r => set_peers (filter P (peers r)) r)).
Proof.
  intros s []. unfold upd_reg. wp_steps.
  constructor; cbn; try done; setoid_rewrite map_lookup_filter_Some; naive_solver.
Qed.

Lemma rgood_prune : rgood prune_verified_prefixes.
Proof.
  intros s []. unfold prune_verified_prefixes, upd_reg. wp_steps.
  constructor; cbn; try done. intros p ep [Hp _]%map_lookup_filter_Some. eauto.
Qed.

Lemma rgood_verify p ep :
  prefix_from_endpoint ep = p ->
  rgood (upd_reg (fun r => set_verified_prefixes (<[p := ep]> (verified_prefixes r)) r)).
Proof.
  intros Hp s []. unfold upd_reg. wp_steps.
  constructor; cbn; try done. intros p' ep' [[<- <-]|[_ ?]]%lookup_insert_Some; eauto.
Qed.

Lemma rgood_adapter v : rgood (upd_reg (set_adapter_state v)).
Proof. intros s []. by constructor. Qed.

Lemma rgood_for_each_entry c : good H c -> rgood (for_each_entry c).
Proof.
  intros Hc. apply rgood_bind; [apply rgood_gets|]. intros r. apply rgood_for_each.
  intros d. apply rgood_bind; [by apply rgood_with_entry|]. intros _. apply rgood_ret.
Qed.
End RegistryLevel.

Create HintDb rgood.
#[export] Hint Resolve rgood_ret rgood_gets rgood_when rgood_with_entry
  rgood_or_insert_entry rgood_prune rgood_verify rgood_adapter rgood_for_each_entry
  rgood_filter_peers resets_good : rgood.
#[export] Hint Resolve advertised_entry_good send_datagram_entry_good
  connect_succeeded_entry_good connect_failed_entry_good inbound_fragment_occupied_good
  central_disconnected_entry_good shutdown_entry_good stalled_entry_good
  data_pipe_ready_entry_good open_l2cap_succeeded_entry_good open_l2cap_failed_entry_good
  inbound_l2cap_occupied_good protocol_version_mismatch_entry_good
  start_l2cap_upgrade_good : rgood.
#[export] Hint Resolve inbound_fragment_vacant_good inbound_l2cap_vacant_good
  power_off_entry_good forget_entry_good drain_to_draining_good : rgood.

(** Decompose a handler into its calls. *)
Ltac rstep :=
  match goal with
  | |- rgood _ (_ ≫= _) => apply rgood_bind; [|intros ?]
  | |- rgood _ (for_each _ _) => apply rgood_for_each; intros ?
  | |- rgood _ (match ?x with _ => _ end) => destruct x eqn:?
  | |- rgood _ (when ?b _) => destruct b eqn:?; cbn [when]
  end.
Ltac rrun := repeat first [solve [eauto with rgood] | rstep].

(** An entry program written inline in its handler. *)
Ltac inline_entry :=
  let s := fresh "s" in let Hi := fresh "Hi" in let Hp := fresh "Hp" in
  intros s Hi Hp; apply LI_refl in Hi; erun; eleaf.

Section HandlersGood.
Context {HI : HashIter} {MP : Mpsc} (H : list PeerAction.t).

Lemma stamp_verified_keeps ep now e : keeps (stamp_verified ep now) e.
Proof. done. Qed.

Lemma handle_verified_endpoint_good now wall ep exact :
  rgood H (handle_verified_endpoint now wall ep exact).
Proof.
  unfold handle_verified_endpoint. cbn zeta. rrun.
  - apply rgood_with_entry. inline_entry.
  - apply rgood_map_peers; intros e; unfold keeps; destruct (prefix_is (prefix_from_endpoint ep) e); done.
Qed.

Lemma handle_advertised_good now p d rssi : rgood H (handle_advertised now p d rssi).
Proof.
  unfold handle_advertised. cbn zeta. rrun.
  - apply rgood_with_entry. inline_entry.
  - apply rgood_verify. by apply bool_decide_eq_true in Heqb0.
Qed.

Lemma subscribed_good now d u p : rgood H (handle_peripheral_client_subscribed now d u p).
Proof.
  unfold handle_peripheral_client_subscribed. cbn zeta. rrun.
  apply rgood_or_insert_entry. inline_entry.
Qed.

Lemma unsubscribed_good now wall d u :
  rgood H (handle_peripheral_client_unsubscribed now wall d u).
Proof.
  unfold handle_peripheral_client_unsubscribed. rrun.
  apply rgood_with_entry. inline_entry.
Qed.

Lemma handover_timeout_good d : rgood H (handle_l2cap_handover_timeout d).
Proof.
  unfold handle_l2cap_handover_timeout. rrun.
  apply rgood_with_entry. intros s Hi Hp. apply LI_refl in Hi. erun. split; [done|].
  revert Hp. unfold phase_ok. cbn. by destruct (phase (entry s)).
Qed.

Lemma adapter_good now b : rgood H (handle_adapter_state_changed now b).
Proof.
  unfold handle_adapter_state_changed. rrun.
  - apply rgood_map_peers; intros e; unfold keeps, phase_ok, power_on_entry;
      destruct (PeerPhase.is_restoring _); done.
  - by apply rgood_push_action.
  - by apply rgood_push_action.
Qed.

Lemma tick_decision_attempt now en e n :
  phase_ok e -> tick_decision now en e = Some (TickAction.StartConnect n) ->
  0 <= n < MAX_CONNECT_ATTEMPTS.
Proof.
  unfold phase_ok, tick_decision. destruct (phase e); try done; try (by destruct (_ <? _)).
  - by destruct (_ <=? _).
  - destruct (pipe e); cbn; [|done]. by destruct (_ <? _).
  - destruct (_ <=? _); [|done]. by intros ? [= <-].
Qed.

Lemma handle_tick_good now wall : rgood H (handle_tick now wall).
Proof.
  intros s Hs. unfold handle_tick. rewrite wp_bind, wp_gets. cbn beta zeta.
  assert (Hph := ri_phase _ _ Hs). revert Hs. apply (rgood_bind H (for_each _ _)).
  - apply rgood_for_each_in. intros [d a] Hin. apply rgood_expect_entry, resets_good.
    apply tick_entry_good. intros n ->.
    apply list_elem_of_omap in Hin as ([d' e] & Hin & E). cbn in E.
    destruct (tick_decision _ _ _) eqn:Ed; simplify_eq/=.
    apply elem_of_hm_iter in Hin. eauto using tick_decision_attempt.
  - intros _. rrun.
Qed.

Lemma handle_cmd_good now wall cmd : rgood H (handle_cmd now wall cmd).
Proof.
  destruct cmd; cbn [handle_cmd]; eauto using handle_verified_endpoint_good,
    handle_advertised_good, subscribed_good, unsubscribed_good, handover_timeout_good,
    adapter_good, handle_tick_good with rgood.
  all: unfold handle_central_disconnected, handle_inbound_gatt_fragment,
    handle_inbound_l2cap_channel, handle_connect_succeeded, handle_connect_failed,
    handle_open_l2cap_succeeded, handle_open_l2cap_failed, handle_protocol_version_mismatch,
    handle_stalled, handle_forget, handle_data_pipe_ready, handle_shutdown; rrun.
Qed.
End HandlersGood.

(** ** Running an entry program on a tracked device *)

Section RunEntry.
Context {HI : HashIter} {MP : Mpsc}.

(** The registry after an entry program ended in [s']. *)
Definition store_entry (d : DeviceId) (s' : ECtx) (r : Registry) : Registry :=
  set_next_lifecycle (e_next_lifecycle s') (set_peers (<[d := entry s']> (peers r)) r).

Lemma or_insert_entry_run {A} d (c : M ECtx A) r acts en e a s' :
  peers r !! d = Some e ->
  c (mkECtx (next_lifecycle r) acts en e) = Some (a, s') ->
  or_insert_entry d c (mkCtx r acts en)
  = Some (a, mkCtx (store_entry d s' r) (e_actions s') (e_env s')).
Proof.
  intros E Hc. unfold or_insert_entry. rewrite bind_gets. cbn. rewrite E.
  erewrite bind_run by reflexivity. unfold run_entry. cbn. by rewrite Hc.
Qed.

Lemma with_entry_run {A} d (c : M ECtx A) r acts en e a s' :
  peers r !! d = Some e ->
  c (mkECtx (next_lifecycle r) acts en e) = Some (a, s') ->
  with_entry d c (mkCtx r acts en)
  = Some (Some a, mkCtx (store_entry d s' r) (e_actions s') (e_env s')).
Proof.
  intros E Hc. unfold with_entry. rewrite bind_gets. cbn. rewrite E.
  unfold run_entry. erewrite bind_run; [reflexivity|]. cbn. by rewrite Hc.
Qed.

Lemma with_entry_none {A} d (c : M ECtx A) s :
  peers (reg s) !! d = None -> with_entry d c s = Some (None, s).
Proof. intros E. unfold with_entry. rewrite bind_gets. by rewrite E. Qed.

(** Reading [handle] off the run of its dispatch. *)
Lemma handle_run now wall cmd r en s' :
  handle_cmd now wall cmd (mkCtx r [] en) = Some (tt, s') ->
  handle now wall cmd r en = Some (actions s', reg s', env s').
Proof. intros E. unfold handle. by rewrite E. Qed.
End RunEntry.

(** ** Runs of the actor *)

Section Runs.
Context {HI : HashIter} {MP : Mpsc}.

(** One command of the actor: [Registry::handle], or the [VerifiedEndpoint] arm
    of [Registry::run] with the device its token resolved to.  Between commands
    the other tasks may change the shared store in any way. *)
Inductive actor_step : list PeerAction.t * Registry -> list PeerAction.t * Registry -> Prop :=
| actor_handle h r en now wall cmd acts r' en' :
    handle now wall cmd r en = Some (acts, r', en') ->
    actor_step (h, r) (h ++ acts, r')
| actor_verified h r en now wall ep exact s' :
    handle_verified_endpoint now wall ep exact (mkCtx r [] en) = Some (tt, s') ->
    actor_step (h, r) (h ++ actions s', reg s').

(** [actor_run policy me h r]: a run from [Registry::new] that has emitted the
    actions [h] and is at [r]. *)
Definition actor_run (policy : L2capPolicy.t) (me : EndpointId) (h : list PeerAction.t)
    (r : Registry) : Prop :=
  rtc actor_step ([], Registry_new policy me) (h, r).

(** The invariant between commands. *)
Definition ActorInv (st : list PeerAction.t * Registry) : Prop :=
  forall en, RegInv st.1 (mkCtx st.2 [] en).

Lemma RegInv_commit h s en : RegInv h s -> RegInv (h ++ actions s) (mkCtx (reg s) [] en).
Proof. intros []. constructor; cbn; rewrite ?app_nil_r; done. Qed.

Lemma ActorInv_new policy me : ActorInv ([], Registry_new policy me).
Proof.
  intros en. constructor; cbn; try (intros; set_solver).
  apply trace_ok_nil.
Qed.

Lemma ActorInv_step st st' : actor_step st st' -> ActorInv st -> ActorInv st'.
Proof.
  intros Hst Hi. destruct Hst as [h r en now wall cmd acts r' en' E|h r en now wall ep ex s' E].
  - unfold handle in E. destruct (handle_cmd _ _ _ _) as [[u s]|] eqn:Ec; simplify_eq/=.
    intros en''. apply RegInv_commit.
    exact (wp_run _ _ _ _ _ (handle_cmd_good h now wall cmd _ (Hi en)) Ec).
  - intros en''. apply RegInv_commit.
    exact (wp_run _ _ _ _ _ (handle_verified_endpoint_good h now wall ep ex _ (Hi en)) E).
Qed.

Lemma actor_run_inv policy me h r en : actor_run policy me h r -> RegInv h (mkCtx r [] en).
Proof.
  intros Hr. change (RegInv (h, r).1 (mkCtx (h, r).2 [] en)). revert en.
  change (ActorInv (h, r)). unfold actor_run in Hr.
  pose proof (ActorInv_new policy me) as H0.
  induction Hr as [|? ? ? Hs _ IH]; [done|]. by apply IH, (ActorInv_step _ _ Hs).
Qed.

(** Scripts: commands run one after the other over a fixed store. *)
Fixpoint run_script (en : Env) (cmds : list (Instant * PeerCommand.t))
    (st : list PeerAction.t * Registry) : option (list PeerAction.t * Registry) :=
  match cmds with
  | [] => Some st
  | (now, cmd) :: rest =>
      '(acts, r, _) ← handle now 0 cmd st.2 en; run_script en rest (st.1 ++ acts, r)
  end.

Lemma run_script_steps en cmds st st' :
  run_script en cmds st = Some st' -> rtc actor_step st st'.
Proof.
  revert st. induction cmds as [|[now cmd] cmds IH]; intros [h r] E; cbn in E.
  - by injection E as ->.
  - destruct (handle _ _ _ _ _) as [[[acts r'] en']|] eqn:Eh; cbn in E; [|done].
    eapply rtc_l; [by eapply actor_handle|]. by apply IH.
Qed.

Lemma script_run policy me en cmds (P : list PeerAction.t -> Registry -> Prop) :
  match run_script en cmds ([], Registry_new policy me) with
  | Some (h, r) => P h r
  | None => False
  end -> exists h r, actor_run policy me h r /\ P h r.
Proof.
  destruct (run_script _ _ _) as [[h r]|] eqn:E; [|done].
  intros HP. exists h, r. split; [|done]. by eapply run_script_steps.
Qed.
End Runs.

(** A concrete world for evaluation: a fixed iteration order, an empty store. *)
#[global] Instance demo_iter : HashIter := canonical_iter.
Definition demo_env : Env := mkEnv bounded_mpsc ∅ ∅ ∅.
Definition demo_me : EndpointId := replicate 32 0.
Definition demo_peer : EndpointId := replicate 32 7.
