(* ===== verification/RegistrySafety.v ===== *)
(** * RegistrySafety: what the registry guarantees over a run

    Consequences of the invariant for the driver and for callers: work is never
    asked for under a retired lifecycle, a completion of a retired lifecycle
    changes nothing, a sender that uses the generation the registry shows is
    accepted, tombstones survive advertisements. *)

From S2P Require Import Prelude Peer Dedup Registry RegistryInv.
Open Scope Z_scope.

Section Safety.
Context {HI : HashIter} {MP : Mpsc}.

(** C3. Lifecycle discipline.  In every run of the actor, over the sequence of
    all actions it has emitted: no connect, version read, data pipe or L2CAP
    upgrade is started under a lifecycle identity that an earlier action
    retired; the identity of a tracked peer has never been retired; and two
    peers never share an identity. *)
Theorem lifecycle_discipline (policy : L2capPolicy.t) (me : EndpointId)
    (h : list PeerAction.t) (r : Registry) :
  actor_run policy me h r ->
  trace_ok h /\
  (forall d e, peers r !! d = Some e -> lifecycle_id e ∉ retired h) /\
  (forall d1 e1 d2 e2, peers r !! d1 = Some e1 -> peers r !! d2 = Some e2 ->
     lifecycle_id e1 = lifecycle_id e2 -> d1 = d2).
Proof.
  intros Hr. destruct (actor_run_inv _ _ _ _ (mkEnv _ ∅ ∅ ∅) Hr) as [_ _ Hc _ Hi _ Ht _].
  cbn in *. rewrite app_nil_r in *. split_and!; eauto.
Qed.

(** A completion reported by the driver, with the lifecycle it belongs to. *)
Definition completion_id (cmd : PeerCommand.t) : option Z :=
  match cmd with
  | PeerCommand.ConnectSucceeded _ id _ | PeerCommand.ConnectFailed _ id _
  | PeerCommand.OpenL2capSucceeded _ id _ _ | PeerCommand.OpenL2capFailed _ id _ _
  | PeerCommand.ProtocolVersionMismatch _ id _ _ => Some id
  | _ => None
  end.

Lemma set_peers_same r d e :
  peers r !! d = Some e ->
  set_next_lifecycle (next_lifecycle r) (set_peers (<[d := e]> (peers r)) r) = r.
Proof. intros E. rewrite (insert_id _ _ _ E). by destruct r. Qed.

(** An entry program that returns [a] and touches nothing. *)
Lemma with_entry_noop {A} (a : A) d (c : M ECtx A) r acts en :
  (forall e, peers r !! d = Some e ->
     c (mkECtx (next_lifecycle r) acts en e)
     = Some (a, mkECtx (next_lifecycle r) acts en e)) ->
  with_entry d c (mkCtx r acts en)
  = Some ((fun _ => a) <$> peers r !! d, mkCtx r acts en).
Proof.
  intros Hc. unfold with_entry, gets, mbind, M_bind. cbn.
  destruct (peers r !! d) as [e|] eqn:E; cbn; [|done].
  unfold run_entry. cbn. rewrite (Hc e eq_refl). cbn. by rewrite (set_peers_same _ _ _ E).
Qed.

(** The guard on the identity is the first thing the entry program does; it returns [a]. *)
Ltac stale a Hne :=
  erewrite bind_run by (apply (with_entry_noop a);
    let e := fresh "e" in let He := fresh "He" in
    intros e He; rewrite bind_gets;
    cbn [entry]; rewrite (Hne _ _ He); reflexivity);
  match goal with |- context [peers ?r !! ?d] => by destruct (peers r !! d) | _ => done end.

(** C12. Stale completions are ignored.  In every run, a completion command that
    carries a lifecycle identity retired at any earlier point of the run leaves
    the registry and the shared store exactly as they were and emits no action,
    whatever device it names. *)
Theorem stale_completion_ignored (policy : L2capPolicy.t) (me : EndpointId)
    (h : list PeerAction.t) (r : Registry) (cmd : PeerCommand.t) (id : Z)
    (now : Instant) (wall : Z) (en : Env) :
  actor_run policy me h r ->
  completion_id cmd = Some id -> id ∈ retired h ->
  handle now wall cmd r en = Some ([], r, en).
Proof.
  intros Hr Hid Hin. destruct (actor_run_inv _ _ _ _ en Hr) as [_ _ Hc _ _ _ _ _].
  cbn in Hc. rewrite app_nil_r in Hc.
  assert (forall d e, peers r !! d = Some e -> (lifecycle_id e =? id) = false) as Hne.
  { intros d e He. apply Z.eqb_neq. intros <-. by apply (Hc d e). }
  assert (handle_cmd now wall cmd (mkCtx r [] en) = Some (tt, mkCtx r [] en)) as E;
    [|by unfold handle; rewrite E].
  destruct cmd; try discriminate Hid; injection Hid as ->; cbn [handle_cmd].
  - unfold handle_connect_succeeded, connect_succeeded_entry. rewrite bind_gets. cbn zeta.
    stale tt Hne.
  - unfold handle_connect_failed, connect_failed_entry. stale false Hne.
  - unfold handle_open_l2cap_succeeded, open_l2cap_succeeded_entry. stale tt Hne.
  - unfold handle_open_l2cap_failed, open_l2cap_failed_entry. stale tt Hne.
  - unfold handle_protocol_version_mismatch, protocol_version_mismatch_entry. stale false Hne.
Qed.
End Safety.

(** A device is discovered, then dialled for a datagram: the identity it was
    discovered under (1) is retired. *)
Definition demo_dial : list (Instant * PeerCommand.t) :=
  [(0, PeerCommand.Advertised (prefix_from_endpoint demo_peer) "dev" None);
   (1, PeerCommand.SendDatagram "dev" None 0 [1; 2] 0)].

Lemma lifecycle_discipline_witness : exists h r,
  actor_run L2capPolicy.Disabled demo_me h r /\ 1 ∈ retired h /\
  trace_ok h /\
  (forall d e, peers r !! d = Some e -> lifecycle_id e ∉ retired h) /\
  (forall d1 e1 d2 e2, peers r !! d1 = Some e1 -> peers r !! d2 = Some e2 ->
     lifecycle_id e1 = lifecycle_id e2 -> d1 = d2).
Proof.
  destruct (script_run L2capPolicy.Disabled demo_me demo_env demo_dial
    (fun h r => 1 ∈ retired h)) as (h & r & Hr & Hin).
  { vm_compute. left. }
  exists h, r. split; [exact Hr|]. split; [exact Hin|].
  exact (lifecycle_discipline _ _ h r Hr).
Defined.

Lemma stale_completion_ignored_witness : exists h r,
  actor_run L2capPolicy.Disabled demo_me h r /\
  handle 5 0 (PeerCommand.ConnectSucceeded "dev" 1 (mkChannelHandle 3 ConnectPath.Gatt))
    r demo_env = Some ([], r, demo_env).
Proof.
  destruct (script_run L2capPolicy.Disabled demo_me demo_env demo_dial
    (fun h r => 1 ∈ retired h)) as (h & r & Hr & Hin).
  { vm_compute. left. }
  exists h, r. split; [exact Hr|].
  apply (stale_completion_ignored _ _ h r _ 1 5 0 demo_env Hr); [reflexivity | exact Hin].
Defined.
