(* ===== verification/RegistryTotal.v ===== *)
(** * RegistryTotal: the registry does not panic

    The handlers contain counters that panic on overflow and an [expect].  With
    room left in the counters every command of every run is handled to the end:
    the programs on entries are run symbolically, each taking at most two
    lifecycle identities; the loops take two per entry. *)

From S2P Require Import Prelude Peer Dedup Registry RegistryInv RegistrySafety.
Open Scope Z_scope.

(** Room in the counters of an entry. *)
Definition entry_room (e : PeerEntry) : Prop :=
  tx_gen e < u64_max /\ upgrade_gen e < u64_max /\ consecutive_failures e < u32_max.

#[global] Instance entry_room_dec e : Decision (entry_room e).
Proof. unfold entry_room. apply _. Defined.

Lemma checked_add_ok max x y : x + y <= max -> checked_add max x y = Some (x + y).
Proof. intros H. by apply checked_add_Some. Qed.

Section Total.
Context {HI : HashIter} {MP : Mpsc}.

(** [c] runs to the end from any entry with room in its counters and [k]
    identities to take, and takes at most [k].  With [keep] it leaves room in
    the entry, so that a loop can visit it again; without it the entry is in
    good shape to begin with. *)
Definition runs {A} (k : Z) (keep : bool) (c : M ECtx A) : Prop :=
  forall nl acts en e, (keep = false -> phase_ok e) -> entry_room e -> nl + k <= u64_max ->
  wp False c (fun _ s' => e_next_lifecycle s' <= nl + k /\
    (keep = true -> entry_room (entry s'))) (mkECtx nl acts en e).
End Total.

Ltac texpect :=
  lazymatch goal with
  | |- wp False (expect (checked_add ?m ?x ?y)) ?Q ?s =>
      rewrite (checked_add_ok m x y)
        by (cbn; phase_subst; cbn in *; unfold u64_max, u32_max in *; lia);
      rewrite wp_expect; cbn beta iota
  end.
Ltac tbranch :=
  lazymatch goal with
  | |- wp False (match ?x with _ => _ end) _ _ => let E := fresh "E" in destruct x eqn:E
  | |- context [if ?b then wp False _ _ _ else _] => let E := fresh "E" in destruct b eqn:E
  end.
Ltac tstep := first [texpect | estep1 | progress (unfold abandon_outstanding, bump_tx_gen,
  bump_upgrade_gen, bump_consecutive_failures, begin_connect, arm_for_dial,
  clear_connection_state, resume_drained_entry, drain_pending, drain_to_draining,
  push_start_data_pipe, restart_peripheral_gatt_pipe, start_l2cap_upgrade, push_close,
  push_refresh, push_backlog, push_back, to_dead, fail_attempt, deliver, enqueue_send,
  inbound_fragment_rebuild) | tbranch].
Ltac tleaf := split; [cbn; lia | intros ?; try done; unfold entry_room in *; cbn; lia].
Ltac truns :=
  let Hp := fresh "Hp" in
  intros nl acts en e Hp (? & ? & ?) ?; try specialize (Hp eq_refl);
  unfold phase_ok, MAX_CONNECT_ATTEMPTS in Hp; repeat tstep; try tleaf.

Section Programs.
Context {HI : HashIter} {MP : Mpsc}.

Lemma drain_runs now wall reason : runs 1 true (drain_to_draining now wall reason).
Proof. truns. Qed.

Lemma tick_entry_runs now wall d a : runs 2 true (tick_entry now wall d a).
Proof. unfold tick_entry. truns. Qed.

Lemma power_off_runs now : runs 1 true (power_off_entry now).
Proof. unfold power_off_entry. truns. Qed.

Lemma shutdown_runs :
  runs 1 true (abandon_outstanding;; drain_pending ErrorKind.ConnectionAborted).
Proof. truns. Qed.

Lemma stamp_runs f :
  (forall e, entry_room e -> entry_room (f e)) -> runs 0 true (upd_entry f).
Proof. intros Hf nl acts en e _ Hr Hn. cbn. split; [lia|]. intros _. by apply Hf. Qed.

Lemma upgrade_runs d : runs 0 false (start_l2cap_upgrade d).
Proof. truns. Qed.

Lemma advertised_runs now p b : runs 2 false (advertised_entry now p b).
Proof. unfold advertised_entry. truns. Qed.

Lemma send_datagram_runs now t g dg w : runs 1 false (send_datagram_entry now t g dg w).
Proof. unfold send_datagram_entry. truns. Qed.

Lemma connect_succeeded_runs now d lid ch pol me v n :
  runs 0 false (connect_succeeded_entry now d lid ch pol me v n).
Proof. unfold connect_succeeded_entry. truns. Qed.

Lemma connect_failed_runs now d lid err : runs 1 false (connect_failed_entry now d lid err).
Proof. unfold connect_failed_entry. truns. Qed.

Lemma fragment_vacant_runs now d b : runs 0 false (inbound_fragment_vacant now d b).
Proof. unfold inbound_fragment_vacant. truns. Qed.

Lemma fragment_occupied_runs now d src b :
  runs 1 false (inbound_fragment_occupied now d src b).
Proof. unfold inbound_fragment_occupied. truns. Qed.

Lemma central_disconnected_runs now wall d c :
  runs 2 false (central_disconnected_entry now wall d c).
Proof. unfold central_disconnected_entry. truns. Qed.

Lemma forget_runs now d : runs 1 false (forget_entry now d).
Proof. unfold forget_entry. truns. Qed.

Lemma stalled_runs now wall d c : runs 1 false (stalled_entry now wall d c).
Proof. unfold stalled_entry. truns. Qed.

Lemma data_pipe_ready_runs g h : runs 0 false (data_pipe_ready_entry g h).
Proof. unfold data_pipe_ready_entry. truns. Qed.

Lemma open_succeeded_runs now d l u ch : runs 0 false (open_l2cap_succeeded_entry now d l u ch).
Proof. unfold open_l2cap_succeeded_entry. truns. Qed.

Lemma open_failed_runs now d l u err : runs 0 false (open_l2cap_failed_entry now d l u err).
Proof. unfold open_l2cap_failed_entry. truns. Qed.

Lemma l2cap_vacant_runs now d ch : runs 0 false (inbound_l2cap_vacant now d ch).
Proof. unfold inbound_l2cap_vacant. truns. Qed.

Lemma l2cap_occupied_runs now d ch : runs 1 false (inbound_l2cap_occupied now d ch).
Proof. unfold inbound_l2cap_occupied. truns. Qed.

Lemma mismatch_runs now wall d l g w :
  runs 1 false (protocol_version_mismatch_entry now wall d l g w).
Proof. unfold protocol_version_mismatch_entry. truns. Qed.
End Programs.

(** ** From entries to the registry *)

Section RegistryLevel.
Context {HI : HashIter} {MP : Mpsc}.

(** [n] identities are left, the tracked devices are [D] and every entry has
    room in its counters. *)
Record Room (D : gset DeviceId) (n : Z) (s : Ctx) : Prop := {
  rm_pos : 0 <= n;
  rm_next : next_lifecycle (reg s) + n <= u64_max;
  rm_dom : dom (peers (reg s)) = D;
  rm_entry : forall d e, peers (reg s) !! d = Some e -> entry_room e;
}.

Lemma Room_le D n n' s : 0 <= n' <= n -> Room D n s -> Room D n' s.
Proof. intros Hn []. constructor; try done; lia. Qed.

(** Enough room for a loop that takes two identities per tracked device. *)
Definition has_room (s : Ctx) : Prop :=
  next_lifecycle (reg s) + 2 * Z.of_nat (size (peers (reg s))) <= u64_max /\
  map_Forall (fun _ e => entry_room e) (peers (reg s)).
#[global] Instance has_room_dec s : Decision (has_room s).
Proof. unfold has_room. apply _. Defined.

Lemma has_room_Room s :
  has_room s -> Room (dom (peers (reg s))) (2 * Z.of_nat (size (dom (peers (reg s))))) s.
Proof. intros [Hn He]. rewrite size_dom. constructor; try done; lia. Qed.

(** A program that leaves room can be run on one entry after the other. *)
Lemma run_entry_room {A} D d e k n (c : M ECtx A) s :
  runs k true c -> 0 <= n -> peers (reg s) !! d = Some e -> Room D (n + k) s ->
  wp False (run_entry d e c) (fun _ => Room D n) s.
Proof.
  intros Hc H0 Hd [_ Hn HD Hr].
  specialize (Hc (next_lifecycle (reg s)) (actions s) (env s) e ltac:(done) (Hr _ _ Hd)).
  specialize (Hc ltac:(lia)). unfold wp, run_entry in *.
  destruct (c _) as [[a s']|]; [|done]. destruct Hc as [Hle Hroom].
  constructor; cbn; [done|lia| |].
  - rewrite dom_insert_lookup_L by eauto. done.
  - intros d' e' [[_ <-]|[_ ?]]%lookup_insert_Some; eauto.
Qed.

Lemma with_entry_room {A B} D d k n (c : M ECtx A) (b : B) s :
  runs k true c -> 0 <= n -> 0 <= k -> Room D (n + k) s ->
  wp False (with_entry d c;; mret b) (fun _ => Room D n) s.
Proof.
  intros Hc H0 Hk Hs. unfold with_entry. wp_steps.
  destruct (peers (reg s) !! d) as [e|] eqn:E; wp_steps.
  - eapply wp_mono; [by apply (run_entry_room D d e k n)|]. done.
  - eapply Room_le; [|done]. lia.
Qed.

Lemma expect_entry_room {A} D d k n (c : M ECtx A) s :
  runs k true c -> 0 <= n -> d ∈ D -> Room D (n + k) s ->
  wp False (expect_entry d c) (fun _ => Room D n) s.
Proof.
  intros Hc H0 Hd Hs. unfold expect_entry. wp_steps.
  rewrite <- (rm_dom _ _ _ Hs) in Hd. apply elem_of_dom in Hd as [e He]. rewrite He.
  by apply (run_entry_room D d e k n).
Qed.

(** A loop takes [k] identities per visit. *)
Lemma for_each_room {X} D k n (l : list X) f s :
  0 <= n -> 0 <= k ->
  (forall x n' s', x ∈ l -> 0 <= n' -> Room D (n' + k) s' ->
     wp False (f x) (fun _ => Room D n') s') ->
  Room D (n + k * Z.of_nat (length l)) s ->
  wp False (for_each l f) (fun _ => Room D n) s.
Proof.
  intros H0 Hk Hf Hs.
  eapply wp_mono;
    [apply (wp_for_each_seq False l f (fun l' => Room D (n + k * Z.of_nat (length l'))) s Hs)|].
  - intros x l' s' Hx Hs'. apply Hf; [done|nia|].
    eapply Room_le; [|exact Hs']. cbn [length]. nia.
  - intros [] s'. cbn. by rewrite Z.mul_0_r, Z.add_0_r.
Qed.

Lemma for_each_entry_room D k n (c : M ECtx unit) s :
  runs k true c -> 0 <= n -> 0 <= k -> Room D (n + k * Z.of_nat (size D)) s ->
  wp False (for_each_entry c) (fun _ => Room D n) s.
Proof.
  intros Hc H0 Hk Hs. unfold for_each_entry. wp_steps.
  eapply for_each_room; [done|exact Hk| |].
  - intros d n' s' _ Hn' Hs'. by eapply with_entry_room.
  - unfold hm_keys. rewrite length_fmap, length_hm_iter, <- size_dom, (rm_dom _ _ _ Hs). done.
Qed.

(** ** One entry *)

(** [n] identities are left and the entries are in good shape. *)
Definition Ready (n : Z) (s : Ctx) : Prop :=
  Room (dom (peers (reg s))) n s /\
  (forall d e, peers (reg s) !! d = Some e -> phase_ok e).

Definition ends {A} (n : Z) (c : M Ctx A) : Prop :=
  forall s, Ready n s -> wp False c (fun _ _ => True) s.

Lemma run_entry_ends {A} d e k keep (c : M ECtx A) s :
  runs k keep c -> phase_ok e -> entry_room e -> next_lifecycle (reg s) + k <= u64_max ->
  wp False (run_entry d e c) (fun _ _ => True) s.
Proof.
  intros Hc Hp He Hn.
  specialize (Hc _ (actions s) (env s) e (fun _ => Hp) He Hn).
  unfold wp, run_entry in *. by destruct (c _) as [[a s']|].
Qed.

Lemma with_entry_ends {A} d k keep (c : M ECtx A) :
  runs k keep c -> ends k (with_entry d c).
Proof.
  intros Hc s [[_ Hn _ Hr] Hp]. unfold with_entry. wp_steps.
  destruct (peers (reg s) !! d) as [e|] eqn:E; wp_steps; [|done].
  eapply run_entry_ends; eauto.
Qed.

Lemma or_insert_entry_ends {A} d k keep (c : M ECtx A) :
  0 <= k -> runs k keep c -> ends (k + 1) (or_insert_entry d c).
Proof.
  intros Hk Hc s [[_ Hn _ Hr] Hp]. unfold or_insert_entry, new_entry. wp_steps.
  destruct (peers (reg s) !! d) as [e|] eqn:E; wp_steps.
  - eapply run_entry_ends; eauto. lia.
  - rewrite checked_add_ok by lia. unfold upd_reg. wp_steps.
    eapply run_entry_ends; [done|done| |cbn; lia]. unfold entry_room. cbn.
    unfold u64_max, u32_max. lia.
Qed.

Lemma ends_le {A} n n' (c : M Ctx A) : 0 <= n <= n' -> ends n c -> ends n' c.
Proof. intros Hn Hc s [Hr Hp]. apply Hc. split; [|done]. by eapply Room_le. Qed.

(** Bookkeeping after the entry program. *)
Lemma ends_then {A B} n (c : M Ctx A) (f : A -> M Ctx B) :
  ends n c -> (forall a s, wp False (f a) (fun _ _ => True) s) -> ends n (c ≫= f).
Proof.
  intros Hc Hf s Hs. rewrite wp_bind. eapply wp_mono; [by apply Hc|]. intros a s' _. apply Hf.
Qed.

(** What a handler reads from the registry first. *)
Lemma ends_gets {A B} n (f : Ctx -> A) (k : A -> M Ctx B) :
  (forall a, ends n (k a)) -> ends n (gets f ≫= k).
Proof. intros Hk s Hs. rewrite wp_bind, wp_gets. by apply Hk. Qed.
End RegistryLevel.

(** ** Handlers *)

Section Handlers.
Context {HI : HashIter} {MP : Mpsc}.

Lemma omap_length {A B} (f : A -> option B) (l : list A) : (length (omap f l) <= length l)%nat.
Proof. induction l as [|x l IH]; cbn; [lia|]. destruct (f x); cbn; lia. Qed.

(** At most one visit per entry. *)
Lemma visits_le {X} (m : gmap DeviceId PeerEntry) (l : list X) D :
  dom m = D -> (length l <= length (hm_iter m))%nat -> Z.of_nat (length l) <= Z.of_nat (size D).
Proof. intros <- Hl. rewrite length_hm_iter, <- size_dom in Hl. lia. Qed.

(** Each device is upgraded once, so room in its entry is enough. *)
Lemma upgrade_loop l s :
  NoDup l -> next_lifecycle (reg s) <= u64_max ->
  (forall d e, d ∈ l -> peers (reg s) !! d = Some e -> entry_room e) ->
  wp False (for_each l (fun did => with_entry did (start_l2cap_upgrade did);; mret tt))
    (fun _ _ => True) s.
Proof.
  intros Hl Hn Hr.
  eapply wp_mono; [apply (wp_for_each_seq False l _ (fun l' s' => NoDup l' /\
    next_lifecycle (reg s') <= u64_max /\
    forall d e, d ∈ l' -> peers (reg s') !! d = Some e -> entry_room e))|done]; [done|].
  clear. intros d l' s _ ([Hd Hl]%NoDup_cons & Hn & Hr).
  unfold with_entry, start_l2cap_upgrade, bump_upgrade_gen. wp_steps.
  destruct (peers (reg s) !! d) as [e|] eqn:E; wp_steps.
  - destruct (Hr d e) as (_ & Hu & _); [left|done|].
    unfold wp, run_entry, mbind, M_bind. cbn.
    rewrite checked_add_ok by lia. cbn. split_and!; [done..|].
    intros d' e' Hd' [[-> _]|[_ ?]]%lookup_insert_Some; [done|].
    apply (Hr d'); [by right|done].
  - split_and!; [done..|]. intros d' e' Hd'. apply Hr. by right.
Qed.

Lemma handle_tick_ends now wall s :
  Room (dom (peers (reg s))) (2 * Z.of_nat (size (dom (peers (reg s))))) s ->
  wp False (handle_tick now wall) (fun _ _ => True) s.
Proof.
  intros Hs. unfold handle_tick. rewrite wp_bind, wp_gets. cbn beta zeta. rewrite wp_bind.
  eapply wp_mono; [apply (for_each_room (dom (peers (reg s))) 2 0)|done]; [lia|lia| |].
  - intros [d a] n s' Hin Hn Hs'.
    apply (expect_entry_room _ d 2 n); [apply tick_entry_runs|done| |done].
    apply list_elem_of_omap in Hin as ([d' e] & Hin & E). cbn in E.
    destruct (tick_decision _ _ _); simplify_eq/=.
    apply elem_of_hm_iter in Hin. apply elem_of_dom. eauto.
  - eapply Room_le; [|exact Hs]. split; [lia|]. apply Z.mul_le_mono_nonneg_l; [done|].
    apply (visits_le (peers (reg s))); [done|apply omap_length].
Qed.

Lemma map_peers_room D n f s :
  (forall e, entry_room e -> entry_room (f e)) -> Room D n s ->
  Room D n (mkCtx (set_peers (f <$> peers (reg s)) (reg s)) (actions s) (env s)).
Proof.
  intros Hf []. constructor; cbn; [done|done|by rewrite dom_fmap_L|].
  intros d e. rewrite lookup_fmap_Some. intros (e' & <- & He'). eauto.
Qed.

Lemma verified_stamp_room D n ep now p exact s :
  Room D n s ->
  wp False (match exact with
    | Some d =>
        with_entry d (upd_entry (fun e => stamp_verified ep now (set_prefix (Some p) e)));;
        mret tt
    | None => mret tt
    end) (fun _ => Room D n) s.
Proof.
  intros Hs. destruct exact as [d|]; [|done].
  apply (with_entry_room _ _ 0); [by apply stamp_runs|apply Hs|lia|by rewrite Z.add_0_r].
Qed.

Lemma drain_loop_room D n now wall keep l s :
  0 <= n -> Room D (n + Z.of_nat (length l)) s ->
  wp False (for_each l (fun did : DeviceId =>
    if keep did : bool then mret tt
    else with_entry did (drain_to_draining now wall DisconnectReason.DedupLoser);; mret tt))
    (fun _ => Room D n) s.
Proof.
  intros Hn Hs. apply (for_each_room D 1 n); [done|lia| |by rewrite Z.mul_1_l].
  intros d n' s' _ Hn' Hs'. destruct (keep d).
  - rewrite wp_ret. eapply Room_le; [|exact Hs']. lia.
  - apply (with_entry_room _ _ 1); [apply drain_runs|done|lia|done].
Qed.

Lemma filter_is_sublist {A} (f : A -> bool) (l : list A) : List.filter f l `sublist_of` l.
Proof. induction l as [|x l IH]; cbn; [done|]. destruct (f x); by constructor. Qed.

Lemma filter_length_le {A} (f : A -> bool) (l : list A) :
  (length (List.filter f l) <= length l)%nat.
Proof. apply sublist_length, filter_is_sublist. Qed.

(** A drain of some of the tracked devices. *)
Lemma drain_some_room D n now wall keep (l : list DeviceId) s :
  0 <= n -> (length l <= length (hm_iter (peers (reg s))))%nat ->
  Room D (n + Z.of_nat (size D)) s ->
  wp False (for_each l (fun did : DeviceId =>
    if keep did : bool then mret tt
    else with_entry did (drain_to_draining now wall DisconnectReason.DedupLoser);; mret tt))
    (fun _ => Room D n) s.
Proof.
  intros Hn Hl Hs. apply drain_loop_room; [done|]. eapply Room_le; [|exact Hs].
  pose proof (visits_le _ _ D (rm_dom _ _ _ Hs) Hl). lia.
Qed.

(** The upgrade at the end of [handle_verified_endpoint]. *)
Lemma upgrade_ends (f : DeviceId * PeerEntry -> bool) D s :
  Room D 0 s ->
  wp False (for_each (List.filter f (hm_iter (peers (reg s)))).*1
    (fun did => with_entry did (start_l2cap_upgrade did);; mret tt)) (fun _ _ => True) s.
Proof.
  intros [_ Hn _ Hr]. apply upgrade_loop; [|lia|eauto].
  eapply sublist_NoDup; [apply (NoDup_hm_keys (peers (reg s)))|].
  apply fmap_sublist, filter_is_sublist.
Qed.

Lemma handle_verified_endpoint_ends now wall ep exact s :
  Room (dom (peers (reg s))) (2 * Z.of_nat (size (dom (peers (reg s))))) s ->
  wp False (handle_verified_endpoint now wall ep exact) (fun _ _ => True) s.
Proof.
  set (D := dom (peers (reg s))). intros Hs.
  unfold handle_verified_endpoint. cbn zeta. rewrite wp_bind. unfold upd_reg at 1. wp_step.
  eapply wp_mono.
  { apply (verified_stamp_room D). destruct Hs; by constructor. }
  clear Hs. intros [] s1 Hs. unfold upd_reg at 1. autorewrite with wp. cbn beta.
  apply (map_peers_room _ _
    (fun e => if prefix_is (prefix_from_endpoint ep) e then stamp_verified ep now e else e))
    in Hs; [|intros e ?; by destruct (prefix_is _ e)].
  set (s2 := mkCtx _ _ _) in Hs |- *.
  eapply wp_mono.
  { apply (drain_some_room D (Z.of_nat (size D)) now wall (fun _ => false));
      [lia|apply omap_length|]. eapply Room_le; [|exact Hs]. lia. }
  clear Hs. intros [] s3 Hs. rewrite wp_bind, wp_gets. cbn beta. rewrite wp_bind.
  eapply (wp_mono False _ (fun _ => Room D 0)).
  { rewrite wp_when. destruct (2 <=? _)%nat.
    - apply (drain_some_room D 0); [lia| |done]. rewrite length_fmap. apply filter_length_le.
    - eapply Room_le; [|exact Hs]. lia. }
  clear Hs. intros [] s4 Hs. rewrite wp_bind, wp_gets. cbn beta.
  destruct (l2cap_policy (reg s4)); [done|]. by apply (upgrade_ends _ D).
Qed.

(** Entry programs written inline in their handlers. *)
Lemma subscribed_ends now d u p : ends 2 (handle_peripheral_client_subscribed now d u p).
Proof.
  apply ends_gets. intros r. cbn zeta. apply (or_insert_entry_ends _ 1 false); [done|]. truns.
Qed.

Lemma unsubscribed_ends now wall d u :
  ends 1 (handle_peripheral_client_unsubscribed now wall d u).
Proof.
  apply ends_then; [apply (with_entry_ends _ 1 false); truns|].
  intros a s. rewrite wp_when. by destruct (default false a).
Qed.

Lemma handover_timeout_ends d : ends 0 (handle_l2cap_handover_timeout d).
Proof. apply ends_then; [apply (with_entry_ends _ 0 false); truns|done]. Qed.

Lemma handle_advertised_ends now p d rssi : ends 3 (handle_advertised now p d rssi).
Proof.
  apply ends_gets. intros r. cbn zeta. destruct (existsb _ _).
  - apply (ends_le 0); [lia|]. apply ends_then; [|done].
    apply (with_entry_ends _ 0 false). truns.
  - apply ends_then; [apply (or_insert_entry_ends _ 2 false); [done|apply advertised_runs]|].
    intros [ep|] s; [|done]. rewrite wp_when. by destruct (bool_decide _).
Qed.

Lemma handle_connect_succeeded_ends now d lid ch :
  ends 0 (handle_connect_succeeded now d lid ch).
Proof.
  apply ends_gets. intros r. cbn zeta. apply ends_then; [|done].
  apply (with_entry_ends _ 0 false), connect_succeeded_runs.
Qed.

Lemma handle_fragment_ends now d src b : ends 1 (handle_inbound_gatt_fragment now d src b).
Proof.
  apply ends_gets. intros r. destruct (peers r !! d).
  - apply ends_then; [|done]. apply (with_entry_ends _ 1 false), fragment_occupied_runs.
  - apply (or_insert_entry_ends _ 0 false); [done|apply fragment_vacant_runs].
Qed.

Lemma handle_l2cap_ends now d ch : ends 1 (handle_inbound_l2cap_channel now d ch).
Proof.
  apply ends_gets. intros r. destruct (peers r !! d).
  - apply ends_then; [|done]. apply (with_entry_ends _ 1 false), l2cap_occupied_runs.
  - apply (or_insert_entry_ends _ 0 false); [done|apply l2cap_vacant_runs].
Qed.

(** [with_entry] followed by [prune_verified_prefixes] under a condition. *)
Lemma pruned_ends {A} d n keep (c : M ECtx A) (b : option A -> bool) :
  runs n keep c -> ends n (a ← with_entry d c; when (b a) prune_verified_prefixes).
Proof.
  intros Hc. apply ends_then; [by eapply with_entry_ends|].
  intros a s. rewrite wp_when. by destruct (b a).
Qed.

Lemma adapter_ends now powered s :
  Room (dom (peers (reg s))) (Z.of_nat (size (dom (peers (reg s))))) s ->
  wp False (handle_adapter_state_changed now powered) (fun _ _ => True) s.
Proof.
  intros Hs. unfold handle_adapter_state_changed, upd_reg. rewrite wp_bind, wp_modify.
  destruct powered; [done|]. cbn [negb].
  eapply wp_mono; [|done]. apply (for_each_entry_room (dom (peers (reg s))) 1 0);
    [apply power_off_runs|lia|lia|].
  eapply Room_le; [|destruct Hs; constructor; cbn; try done; by rewrite ?rm_dom0]. lia.
Qed.

Lemma shutdown_ends s :
  Room (dom (peers (reg s))) (Z.of_nat (size (dom (peers (reg s))))) s ->
  wp False handle_shutdown (fun _ _ => True) s.
Proof.
  intros Hs. eapply wp_mono; [|done].
  apply (for_each_entry_room (dom (peers (reg s))) 1 0); [apply shutdown_runs|lia|lia|].
  eapply Room_le; [|exact Hs]. lia.
Qed.

Lemma handle_cmd_ends now wall cmd s :
  Ready (2 * Z.of_nat (size (dom (peers (reg s)))) + 3) s ->
  wp False (handle_cmd now wall cmd) (fun _ _ => True) s.
Proof.
  intros Hs. pose proof Hs as [Hr _].
  assert (forall k (c : M Ctx unit), 0 <= k <= 3 -> ends k c -> wp False c (fun _ _ => True) s)
    as Hone.
  { intros k c Hk Hc. by apply (ends_le k (2 * Z.of_nat (size (dom (peers (reg s)))) + 3));
      [lia| |]. }
  destruct cmd; cbn [handle_cmd]; try done.
  - apply (Hone 3); [lia|apply handle_advertised_ends].
  - apply (Hone 2); [lia|]. apply (pruned_ends _ _ false), central_disconnected_runs.
  - apply (Hone 1); [lia|apply handle_fragment_ends].
  - apply (Hone 1); [lia|apply handle_l2cap_ends].
  - apply adapter_ends. eapply Room_le; [|exact Hr]. lia.
  - apply (Hone 2); [lia|]. apply (or_insert_entry_ends _ 1 false); [lia|].
    apply send_datagram_runs.
  - apply handle_tick_ends. eapply Room_le; [|exact Hr]. lia.
  - apply (Hone 0); [lia|apply handle_connect_succeeded_ends].
  - apply (Hone 1); [lia|]. apply (pruned_ends _ _ false), connect_failed_runs.
  - apply (Hone 0); [lia|]. apply ends_then; [|done].
    apply (with_entry_ends _ _ false), open_succeeded_runs.
  - apply (Hone 0); [lia|]. apply ends_then; [|done].
    apply (with_entry_ends _ _ false), open_failed_runs.
  - apply (Hone 1); [lia|]. apply (pruned_ends _ _ false), mismatch_runs.
  - apply (Hone 1); [lia|]. apply ends_then; [|done].
    apply (with_entry_ends _ _ false), stalled_runs.
  - apply (Hone 1); [lia|]. apply (pruned_ends _ _ false), forget_runs.
  - apply (Hone 0); [lia|]. apply ends_then; [|done].
    apply (with_entry_ends _ _ false), data_pipe_ready_runs.
  - apply handle_verified_endpoint_ends. eapply Room_le; [|exact Hr]. lia.
  - apply (Hone 2); [lia|apply subscribed_ends].
  - apply (Hone 1); [lia|apply unsubscribed_ends].
  - apply (Hone 0); [lia|apply handover_timeout_ends].
  - apply shutdown_ends. eapply Room_le; [|exact Hr]. lia.
Qed.
End Handlers.

Section NoPanic.
Context {HI : HashIter} {MP : Mpsc}.

(** A specification of a loop that holds where it returns holds of its run. *)
Lemma total_run (c : M Ctx unit) (P : Ctx -> Prop) s :
  wp False c (fun _ _ => True) s -> wp True c (fun _ s' => P s') s ->
  exists s', c s = Some (tt, s') /\ P s'.
Proof. unfold wp. destruct (c s) as [[[] s']|]; [eauto|done]. Qed.

(** C13. No command makes the registry panic: in every state a run reaches,
    while two identities per tracked device and three more are left below
    [u64::MAX] and no counter of an entry is exhausted, every command, and a
    verified endpoint with any resolved device, is handled to the end.  The
    [expect] of the tick, the allocation of identities and every [+= 1] of a
    handler are then safe. *)
Theorem handle_never_panics policy me h r now wall en :
  actor_run policy me h r ->
  next_lifecycle r + 2 * Z.of_nat (size (peers r)) + 3 <= u64_max ->
  (forall d e, peers r !! d = Some e -> entry_room e) ->
  (forall cmd, is_Some (handle now wall cmd r en)) /\
  (forall ep exact, is_Some (handle_verified_endpoint now wall ep exact (mkCtx r [] en))).
Proof.
  intros Hr Hn He. pose proof (actor_run_inv _ _ _ _ en Hr) as Hi.
  assert (Ready (2 * Z.of_nat (size (dom (peers r))) + 3) (mkCtx r [] en)) as Hs.
  { rewrite size_dom. split; [constructor; cbn; try done; lia|]. exact (ri_phase _ _ Hi). }
  split.
  - intros cmd. destruct (wp_total _ _ _ (handle_cmd_ends now wall cmd _ Hs))
      as ([] & s' & E & _). rewrite (handle_run _ _ _ _ _ _ E). done.
  - intros ep exact. destruct Hs as [Hs _].
    apply (Room_le _ _ (2 * Z.of_nat (size (dom (peers r))))) in Hs; [|lia].
    destruct (wp_total _ _ _ (handle_verified_endpoint_ends now wall ep exact _ Hs))
      as ([] & s' & E & _). by rewrite E.
Qed.
End NoPanic.

Lemma handle_never_panics_witness : exists h r,
  actor_run L2capPolicy.Disabled demo_me h r /\
  is_Some (handle 5 0 (PeerCommand.Tick 5) r demo_env).
Proof.
  destruct (script_run L2capPolicy.Disabled demo_me demo_env demo_dial
    (fun h r => bool_decide (next_lifecycle r + 2 * Z.of_nat (size (peers r)) + 3 <= u64_max
       /\ map_Forall (fun _ e => entry_room e) (peers r)) = true)) as (h & r & Hr & Hp).
  { by vm_compute. }
  apply bool_decide_eq_true in Hp as [Hn He].
  exists h, r. split; [exact Hr|].
  exact (proj1 (handle_never_panics _ _ h r 5 0 demo_env Hr Hn He) (PeerCommand.Tick 5)).
Defined.
