(* ===== verification/RegistryDedup.v ===== *)
(** * RegistryDedup: one live connection per verified peer

    What [handle_verified_endpoint] leaves behind: the pending dials of the
    prefix are cancelled, and of several live connections exactly one survives,
    chosen by [should_win] when that can decide. *)

From S2P Require Import Prelude Peer Dedup Registry RegistryInv RegistryTotal.
Open Scope Z_scope.

(** ** Programs that touch a set of entries *)

Section Touch.
Context {HI : HashIter} {MP : Mpsc}.

Definition statics (s s' : Ctx) : Prop :=
  my_endpoint (reg s') = my_endpoint (reg s) /\
  l2cap_policy (reg s') = l2cap_policy (reg s) /\
  verified_prefixes (reg s') = verified_prefixes (reg s).

(** From [s] to [s'] the entries of [D] change by [R], the others do not, and
    no entry appears or goes. *)
Record Touch (D : DeviceId -> Prop) (R : PeerEntry -> PeerEntry -> Prop) (s s' : Ctx) : Prop := {
  t_statics : statics s s';
  t_peers : forall d,
    match peers (reg s) !! d, peers (reg s') !! d with
    | Some e, Some e' => (D d /\ R e e') \/ (~ D d /\ e' = e)
    | None, None => True
    | _, _ => False
    end;
}.

Lemma Touch_iff D D' R s s' : (forall d, D d <-> D' d) -> Touch D R s s' -> Touch D' R s s'.
Proof.
  intros HD [Hst Hp]. split; [done|]. intros d. specialize (Hp d). specialize (HD d).
  destruct (peers (reg s) !! d), (peers (reg s') !! d); tauto.
Qed.

Lemma Touch_none R s : Touch (fun _ => False) R s s.
Proof. split; [done|]. intros d. destruct (peers (reg s) !! d); tauto. Qed.

Lemma Touch_trans D1 D2 R s1 s2 s3 :
  Transitive R -> Touch D1 R s1 s2 -> Touch D2 R s2 s3 ->
  Touch (fun d => D1 d \/ D2 d) R s1 s3.
Proof.
  intros HR [(A1 & A2 & A3) H1] [(B1 & B2 & B3) H2].
  split; [unfold statics; split_and!; congruence|].
  intros d. specialize (H1 d). specialize (H2 d).
  destruct (peers (reg s1) !! d) as [e1|], (peers (reg s2) !! d) as [e2|],
    (peers (reg s3) !! d) as [e3|]; try tauto.
  destruct H1 as [[? ?]|[? ->]], H2 as [[? ?]|[? ->]]; [|tauto..].
  left. split; [tauto|]. by etrans.
Qed.

Lemma Touch_lookup D R s s' d e' :
  Touch D R s s' -> peers (reg s') !! d = Some e' ->
  exists e, peers (reg s) !! d = Some e /\ ((D d /\ R e e') \/ (~ D d /\ e' = e)).
Proof.
  intros [_ Hp] E. specialize (Hp d). rewrite E in Hp.
  destruct (peers (reg s) !! d) as [e|]; [eauto|done].
Qed.

Lemma Touch_lookup_fwd D R s s' d e :
  Touch D R s s' -> peers (reg s) !! d = Some e ->
  exists e', peers (reg s') !! d = Some e' /\ ((D d /\ R e e') \/ (~ D d /\ e' = e)).
Proof.
  intros [_ Hp] E. specialize (Hp d). rewrite E in Hp.
  destruct (peers (reg s') !! d) as [e'|]; [eauto|done].
Qed.

(** An entry program changes its entry by [R]. *)
Definition entry_rel (R : PeerEntry -> PeerEntry -> Prop) {A} (c : M ECtx A) : Prop :=
  forall s, wp True c (fun _ s' => R (entry s) (entry s')) s.

Lemma run_entry_touch {A} R d e (c : M ECtx A) s :
  entry_rel R c -> peers (reg s) !! d = Some e ->
  wp True (run_entry d e c) (fun _ => Touch (fun x => x = d) R s) s.
Proof.
  intros Hc E. specialize (Hc (mkECtx (next_lifecycle (reg s)) (actions s) (env s) e)).
  unfold wp, run_entry in *. destruct (c _) as [[a s']|]; [|done]. cbn in *.
  split; [done|]. intros d'. cbn. destruct (decide (d' = d)) as [->|Hne].
  - rewrite E, lookup_insert_eq. by left.
  - rewrite lookup_insert_ne by done. destruct (peers (reg s) !! d'); tauto.
Qed.

Lemma with_entry_touch {A} R d (c : M ECtx A) s :
  entry_rel R c -> wp True (with_entry d c;; mret tt) (fun _ => Touch (fun x => x = d) R s) s.
Proof.
  intros Hc. unfold with_entry. wp_steps.
  destruct (peers (reg s) !! d) as [e|] eqn:E; wp_steps.
  - by apply run_entry_touch.
  - split; [done|]. intros d'. destruct (peers (reg s) !! d') eqn:E'; [|done].
    right. split; [congruence|done].
Qed.

Lemma expect_entry_touch {A} R d (c : M ECtx A) s :
  entry_rel R c -> wp True (expect_entry d c) (fun _ => Touch (fun x => x = d) R s) s.
Proof.
  intros Hc. unfold expect_entry. wp_steps.
  destruct (peers (reg s) !! d) as [e|] eqn:E; [|done]. by apply run_entry_touch.
Qed.

(** A loop that visits the entries [key x] for the [x] of [l]. *)
Lemma for_each_touch {A} (key : A -> DeviceId) (l : list A) f (P : A -> Prop) R s :
  Transitive R ->
  (forall x s, x ∈ l -> wp True (f x) (fun _ => Touch (fun d => d = key x /\ P x) R s) s) ->
  wp True (for_each l f) (fun _ => Touch (fun d => exists x, x ∈ l /\ d = key x /\ P x) R s) s.
Proof.
  intros HR. revert s. induction l as [|x l IH]; intros s Hf; cbn [for_each].
  - eapply (Touch_iff (fun _ => False)); [set_solver|]. apply Touch_none.
  - apply wp_bind_intro. eapply wp_mono; [apply Hf; left|]. intros [] s1 H1.
    eapply wp_mono; [apply IH; intros y s' Hy; apply Hf; by right|]. intros [] s2 H2.
    eapply Touch_iff; [|by eapply Touch_trans]. cbn. set_solver.
Qed.
End Touch.

(** ** The three loops of [handle_verified_endpoint] *)

(** What a drain does to an entry. *)
Definition drained (now : Instant) (e e' : PeerEntry) : Prop :=
  prefix e' = prefix e /\ phase e' = PeerPhase.Draining now DisconnectReason.DedupLoser.

(** What an upgrade request does to an entry. *)
Definition upgraded (e e' : PeerEntry) : Prop :=
  prefix e' = prefix e /\ role e' = role e /\
  phase e' = phase_set_upgrading true (phase e).

#[local] Instance drained_trans now : Transitive (drained now).
Proof. intros e1 e2 e3 [P1 _] [P2 Q2]. split; [by rewrite P2|done]. Qed.
#[local] Instance upgraded_trans : Transitive upgraded.
Proof.
  intros e1 e2 e3 (P1 & R1 & H1) (P2 & R2 & H2). unfold upgraded.
  rewrite P2, R2, H2, P1, R1, H1. split_and!; [done..|]. by destruct (phase e1).
Qed.

Section Loops.
Context {HI : HashIter} {MP : Mpsc}.

Lemma drain_entry_rel now wall :
  entry_rel (drained now) (drain_to_draining now wall DisconnectReason.DedupLoser).
Proof.
  intros s. unfold drain_to_draining, abandon_outstanding, drain_pending.
  esteps. destruct (checked_add u64_max _ _); [|done]. esteps.
  destruct (prefix (entry s)) eqn:Ep; esteps; [destruct (PeerPhase.is_connected _)|];
    esteps; by split.
Qed.

Lemma upgrade_entry_rel d : entry_rel upgraded (start_l2cap_upgrade d).
Proof.
  intros s. unfold start_l2cap_upgrade, bump_upgrade_gen. esteps.
  destruct (checked_add u64_max _ _); [|done]. esteps. by split_and!.
Qed.

Lemma drain_loop_touch now wall (l : list DeviceId) s :
  wp True (for_each l (fun did =>
      with_entry did (drain_to_draining now wall DisconnectReason.DedupLoser);; mret tt))
    (fun _ => Touch (fun x => x ∈ l) (drained now) s) s.
Proof.
  eapply wp_mono; [apply (for_each_touch id l _ (fun _ => True) (drained now)); [apply _|]|].
  - intros d s' _. eapply wp_mono; [apply with_entry_touch, drain_entry_rel|].
    intros [] s''. apply Touch_iff. tauto.
  - intros [] s'. apply Touch_iff. set_solver.
Qed.

Lemma dedup_loop_touch now wall winner (l : list DeviceId) s :
  wp True (for_each l (fun did =>
      if bool_decide (Some did = winner) then mret tt
      else with_entry did (drain_to_draining now wall DisconnectReason.DedupLoser);; mret tt))
    (fun _ => Touch (fun x => x ∈ l /\ Some x <> winner) (drained now) s) s.
Proof.
  eapply wp_mono; [apply (for_each_touch id l _ (fun d => Some d <> winner) (drained now));
    [apply _|]|].
  2: { intros [] s'. apply Touch_iff. set_solver. }
  intros d s' _. destruct (bool_decide_reflect (Some d = winner)).
  - wp_steps. eapply Touch_iff; [|apply Touch_none]. naive_solver.
  - eapply wp_mono; [apply with_entry_touch, drain_entry_rel|].
    intros [] s''. apply Touch_iff. naive_solver.
Qed.

Lemma upgrade_loop_touch (l : list DeviceId) s :
  wp True (for_each l (fun did => with_entry did (start_l2cap_upgrade did);; mret tt))
    (fun _ => Touch (fun x => x ∈ l) upgraded s) s.
Proof.
  eapply wp_mono; [apply (for_each_touch id l _ (fun _ => True) upgraded); [apply _|]|].
  - intros d s' _. eapply wp_mono; [apply with_entry_touch, upgrade_entry_rel|].
    intros [] s''. apply Touch_iff. tauto.
  - intros [] s'. apply Touch_iff. set_solver.
Qed.
End Loops.

(** ** The choice of the survivor *)

Lemma foldl_choice {A} (f : A -> A -> A) (x : A) (l : list A) :
  (forall a b, f a b = a \/ f a b = b) -> foldl f x l ∈ x :: l.
Proof.
  intros Hf. revert x. induction l as [|y l IH]; intros x; cbn; [left|].
  specialize (IH (f x y)). apply elem_of_cons in IH as [E|IH].
  - rewrite E. destruct (Hf x y) as [-> | ->]; set_solver.
  - set_solver.
Qed.

Lemma max_by_key_elem {A} (key : A -> Instant * string) (l : list A) :
  l <> [] -> exists x, max_by_key key l = Some x /\ x ∈ l.
Proof.
  destruct l as [|x l]; [done|]. intros _. eexists. split; [reflexivity|].
  apply foldl_choice. intros a b. destruct (key_cmp _ _); auto.
Qed.

Lemma dedup_winner_spec now me ep (cands : list (DeviceId * PeerEntry)) :
  cands <> [] ->
  exists d e, (d, e) ∈ cands /\ dedup_winner now me ep cands = Some d /\
    (forall d' e', (d', e') ∈ cands -> should_win (role e') me ep = true ->
       should_win (role e) me ep = true).
Proof.
  intros Hne. unfold dedup_winner.
  destruct (List.find _ cands) as [[d e]|] eqn:E.
  - apply find_Some_elem in E as [Hin Hw]. by exists d, e.
  - destruct (max_by_key_elem (fun '(did, e) =>
      (match phase e with PeerPhase.Connected since _ _ _ => since | _ => now end, did))
      cands Hne) as ([d e] & -> & Hin).
    exists d, e. split_and!; [done..|]. intros d' e' Hin' Hw.
    apply (find_None_elem _ _ _ E) in Hin'. cbn in Hin'. congruence.
Qed.

(** ** The stages *)

Section Stages.
Context {HI : HashIter} {MP : Mpsc}.

Definition live (p : KeyPrefix) (s : Ctx) (d : DeviceId) (e : PeerEntry) : Prop :=
  peers (reg s) !! d = Some e /\ connected_for p e = true.

Definition at_most_one_live (p : KeyPrefix) (s : Ctx) : Prop :=
  forall d1 e1 d2 e2, live p s d1 e1 -> live p s d2 e2 -> d1 = d2.

Definition no_pending_dial (p : KeyPrefix) (s : Ctx) : Prop :=
  forall d e since deadline, peers (reg s) !! d = Some e ->
    phase e <> PeerPhase.PendingDial since deadline p.

(** A live connection at [s] leaves one at [s'], of a winning role if its own
    role wins. *)
Definition survives (p : KeyPrefix) (wins : ConnectRole.t -> bool) (s s' : Ctx) : Prop :=
  forall d e, live p s d e -> exists d' e', live p s' d' e' /\
    (wins (role e) = true -> wins (role e') = true).

Lemma survives_trans p w s1 s2 s3 :
  survives p w s1 s2 -> survives p w s2 s3 -> survives p w s1 s3.
Proof.
  intros H1 H2 d e Hl. destruct (H1 _ _ Hl) as (d2 & e2 & Hl2 & Hw2).
  destruct (H2 _ _ Hl2) as (d3 & e3 & Hl3 & Hw3). eauto 10.
Qed.

Lemma drained_not_connected now p e e' : drained now e e' -> connected_for p e' = false.
Proof. intros [_ Hp]. unfold connected_for. rewrite Hp. apply andb_false_r. Qed.

Lemma upgraded_connected p e e' : upgraded e e' -> connected_for p e' = connected_for p e.
Proof.
  intros (Hpre & _ & Hp). unfold connected_for, prefix_is. rewrite Hpre, Hp.
  by destruct (phase e).
Qed.

(** Live entries and pending dials of [s'] come from [s]. *)
Lemma drain_live_back now D p s s' d e :
  Touch D (drained now) s s' -> live p s' d e -> live p s d e /\ ~ D d.
Proof.
  intros HT [Hd Hc]. destruct (Touch_lookup _ _ _ _ _ _ HT Hd) as (e0 & H0 & [[_ HR]|[HD ->]]).
  - apply (drained_not_connected now p) in HR. congruence.
  - done.
Qed.

Lemma drain_no_pending now D p s s' :
  Touch D (drained now) s s' -> no_pending_dial p s -> no_pending_dial p s'.
Proof.
  intros HT Hn d e since dl Hd. destruct (Touch_lookup _ _ _ _ _ _ HT Hd)
    as (e0 & H0 & [[_ [_ ->]]|[_ ->]]); [done|eauto].
Qed.

(** Cancelling the pending dials. *)
Lemma cancel_stage now p D s s' :
  Touch D (drained now) s s' ->
  (forall d, D d <-> exists e since dl, peers (reg s) !! d = Some e /\
     phase e = PeerPhase.PendingDial since dl p) ->
  no_pending_dial p s' /\ forall w, survives p w s s'.
Proof.
  intros HT HD. split.
  - intros d e since dl Hd Hp. destruct (Touch_lookup _ _ _ _ _ _ HT Hd)
      as (e0 & H0 & [[_ [_ E]]|[Hn ->]]); [congruence|]. apply Hn, HD. eauto.
  - intros w d e [Hd Hc]. exists d, e. split; [|done].
    destruct (Touch_lookup_fwd _ _ _ _ _ _ HT Hd) as (e' & H' & [[HDd _]|[_ ->]]); [|done].
    apply HD in HDd as (e0 & since & dl & H0 & Hp). simplify_eq.
    unfold connected_for in Hc. rewrite Hp in Hc. by rewrite andb_false_r in Hc.
Qed.

(** Keeping one of several candidates. *)
Lemma dedup_stage now me ep p s s' (cands : list (DeviceId * PeerEntry)) :
  (forall d e, (d, e) ∈ cands <-> live p s d e) -> cands <> [] ->
  Touch (fun x => x ∈ cands.*1 /\ Some x <> dedup_winner now me ep cands) (drained now) s s' ->
  at_most_one_live p s' /\ survives p (fun r => should_win r me ep) s s'.
Proof.
  intros Hc Hne HT. destruct (dedup_winner_spec now me ep cands Hne) as (dw & ew & Hin & Hw & Hrole).
  rewrite Hw in HT.
  assert (forall d e, live p s' d e -> d = dw) as Hone.
  { intros d e Hl. destruct (drain_live_back _ _ _ _ _ _ _ HT Hl) as [Hl0 Hn].
    destruct (decide (d = dw)) as [|Hd]; [done|]. destruct Hn. split; [|congruence].
    apply list_elem_of_fmap. exists (d, e). by rewrite Hc. }
  split.
  - intros d1 e1 d2 e2 H1 H2. by rewrite (Hone _ _ H1), (Hone _ _ H2).
  - intros d e Hl. apply Hc in Hl. pose proof (Hrole _ _ Hl) as Hwin. exists dw, ew. split; [|done].
    apply Hc in Hin as [Hd Hcon]. split; [|done].
    destruct (Touch_lookup_fwd _ _ _ _ _ _ HT Hd) as (e' & H' & [[[_ HD] _]|[_ ->]]); done.
Qed.

(** Requesting upgrades changes none of this. *)
Lemma upgrade_stage p w D s s' :
  Touch D upgraded s s' ->
  (no_pending_dial p s -> no_pending_dial p s') /\
  (at_most_one_live p s -> at_most_one_live p s') /\ survives p w s s'.
Proof.
  intros HT.
  assert (forall d e, live p s' d e -> exists e0, live p s d e0) as Hback.
  { intros d e [Hd Hc]. destruct (Touch_lookup _ _ _ _ _ _ HT Hd)
      as (e0 & H0 & [[_ HR]|[_ ->]]); [|by exists e0].
    exists e0. split; [done|]. by rewrite <- (upgraded_connected p e0 e). }
  split_and!.
  - intros Hn d e since dl Hd. destruct (Touch_lookup _ _ _ _ _ _ HT Hd)
      as (e0 & H0 & [[_ (_ & _ & ->)]|[_ ->]]); [|eauto].
    specialize (Hn _ _ since dl H0). by destruct (phase e0).
  - intros Hone d1 e1 d2 e2 [e1' H1]%Hback [e2' H2]%Hback. eauto.
  - intros d e [Hd Hc]. destruct (Touch_lookup_fwd _ _ _ _ _ _ HT Hd)
      as (e' & H' & [[_ HR]|[_ ->]]); [|by exists d, e].
    exists d, e'. split.
    + split; [done|]. by rewrite (upgraded_connected p e e').
    + by destruct HR as (_ & -> & _).
Qed.
End Stages.

(** ** The handler *)

Section Dedup.
Context {HI : HashIter} {MP : Mpsc}.

Lemma elem_of_candidates p s d e :
  (d, e) ∈ List.filter (fun '(_, e) => connected_for p e) (hm_iter (peers (reg s)))
  <-> live p s d e.
Proof.
  unfold live. rewrite list_elem_of_In, filter_In, <- list_elem_of_In, elem_of_hm_iter. done.
Qed.

Lemma elem_of_to_cancel p s d :
  d ∈ omap (fun '(did, e) =>
      match phase e with
      | PeerPhase.PendingDial _ _ p' => if bool_decide (p' = p) then Some did else None
      | _ => None
      end) (hm_iter (peers (reg s)))
  <-> exists e since dl, peers (reg s) !! d = Some e /\
        phase e = PeerPhase.PendingDial since dl p.
Proof.
  rewrite list_elem_of_omap. split.
  - intros ([d' e] & Hin & E). apply elem_of_hm_iter in Hin.
    destruct (phase e) eqn:Ep; try done. case_bool_decide; simplify_eq. eauto 10.
  - intros (e & since & dl & Hd & Hp). exists (d, e). rewrite elem_of_hm_iter, Hp.
    by rewrite bool_decide_eq_true_2.
Qed.

(** A list with fewer than two candidates has at most one. *)
Lemma few_candidates p s :
  (length (List.filter (fun '(_, e) => connected_for p e) (hm_iter (peers (reg s)))) < 2)%nat ->
  at_most_one_live p s.
Proof.
  intros Hlen d1 e1 d2 e2 H1%elem_of_candidates H2%elem_of_candidates.
  destruct (List.filter _ _) as [|x [|y l]]; cbn in Hlen; [set_solver| |lia].
  apply list_elem_of_singleton in H1, H2. congruence.
Qed.

Lemma dedup_when now wall ep p s :
  no_pending_dial p s ->
  let cands := List.filter (fun '(_, e) => connected_for p e) (hm_iter (peers (reg s))) in
  wp True (when (2 <=? length cands)%nat (
      for_each cands.*1 (fun did =>
        if bool_decide (Some did = dedup_winner now (my_endpoint (reg s)) ep cands) then mret tt
        else with_entry did (drain_to_draining now wall DisconnectReason.DedupLoser);; mret tt)))
    (fun _ s' => at_most_one_live p s' /\ no_pending_dial p s' /\
       survives p (fun r => should_win r (my_endpoint (reg s)) ep) s s') s.
Proof.
  intros Hn cands. rewrite wp_when. destruct (Nat.leb_spec 2 (length cands)) as [Hl|Hl].
  - eapply wp_mono; [apply dedup_loop_touch|]. intros [] s' HT.
    destruct (dedup_stage now (my_endpoint (reg s)) ep p s s' cands) as [Ho Hs]; [..|done|].
    + intros d e. apply elem_of_candidates.
    + intros E. rewrite E in Hl. cbn in Hl. lia.
    + split_and!; [done|by eapply drain_no_pending|done].
  - split_and!; [by apply few_candidates|done|]. intros d e Hlv. eauto.
Qed.

Lemma upgrade_match p w s (policy : L2capPolicy.t) (l : list DeviceId) :
  at_most_one_live p s -> no_pending_dial p s ->
  wp True (match policy with
           | L2capPolicy.Disabled => mret tt
           | L2capPolicy.PreferL2cap =>
               for_each l (fun did => with_entry did (start_l2cap_upgrade did);; mret tt)
           end)
    (fun _ s' => at_most_one_live p s' /\ no_pending_dial p s' /\ survives p w s s') s.
Proof.
  intros Ho Hn. destruct policy; [split_and!; [done..|]; intros d e Hlv; eauto|].
  eapply wp_mono; [apply upgrade_loop_touch|]. intros [] s' HT.
  destruct (upgrade_stage p w _ s s' HT) as (H1 & H2 & H3). auto.
Qed.

(** The connection [e] of device [d] is one to the peer that was verified. *)
Definition verified_conn (p : KeyPrefix) (exact : option DeviceId) (d : DeviceId)
    (e : PeerEntry) : Prop :=
  PeerPhase.is_connected (phase e) = true /\ (prefix e = Some p \/ exact = Some d).

Definition dedup_post (p : KeyPrefix) (wins : ConnectRole.t -> bool)
    (exact : option DeviceId) (s s' : Ctx) : Prop :=
  at_most_one_live p s' /\ no_pending_dial p s' /\
  (forall d e, peers (reg s) !! d = Some e -> verified_conn p exact d e ->
     exists d' e', live p s' d' e' /\ (wins (role e) = true -> wins (role e') = true)).

(** Stamping the exact device with the prefix of the endpoint. *)
Definition stamped (p : KeyPrefix) (e e' : PeerEntry) : Prop :=
  phase e' = phase e /\ role e' = role e /\ prefix e' = Some p.

Lemma stamp_touch now ep p exact s :
  wp True (match exact with
           | Some d => with_entry d (upd_entry (fun e =>
               stamp_verified ep now (set_prefix (Some p) e)));; mret tt
           | None => mret tt
           end)
    (fun _ => Touch (fun x => exact = Some x) (stamped p) s) s.
Proof.
  destruct exact as [d|].
  - eapply wp_mono; [apply (with_entry_touch (stamped p)); by intros s'|].
    intros [] s'. apply Touch_iff. naive_solver.
  - eapply (Touch_iff (fun _ => False)); [done|]. apply Touch_none.
Qed.

(** After the stamps, every connection to the verified peer is live for [p]. *)
Lemma stamp_stage now ep p exact s s1 :
  Touch (fun x => exact = Some x) (stamped p) s s1 ->
  let s2 := mkCtx (set_peers ((fun e =>
    if prefix_is p e then stamp_verified ep now e else e) <$> peers (reg s1)) (reg s1))
    (actions s1) (env s1) in
  forall d e, peers (reg s) !! d = Some e -> verified_conn p exact d e ->
    exists e', live p s2 d e' /\ role e' = role e.
Proof.
  intros HT s2 d e Hd [Hc Hv].
  destruct (Touch_lookup_fwd _ _ _ _ _ _ HT Hd) as (e1 & H1 & HR).
  assert (phase e1 = phase e /\ role e1 = role e /\ prefix e1 = Some p) as (Hph & Hro & Hpre)
    by (destruct HR as [[_ ?]|[? ->]]; [done|tauto]).
  exists (stamp_verified ep now e1). split; [|done]. split.
  - cbn. rewrite lookup_fmap, H1. cbn. unfold prefix_is. by rewrite Hpre, bool_decide_eq_true_2.
  - unfold connected_for, prefix_is. cbn. rewrite Hpre, Hph, Hc. by rewrite bool_decide_eq_true_2.
Qed.

Lemma handle_verified_endpoint_wp now wall ep exact s :
  wp True (handle_verified_endpoint now wall ep exact)
    (fun _ s' => dedup_post (prefix_from_endpoint ep)
       (fun r => should_win r (my_endpoint (reg s)) ep) exact s s') s.
Proof.
  unfold handle_verified_endpoint. cbn zeta. set (p := prefix_from_endpoint ep).
  set (w := fun r => should_win r (my_endpoint (reg s)) ep).
  apply wp_bind_intro. unfold upd_reg at 1. rewrite wp_modify.
  set (s0 := mkCtx _ _ _). apply wp_bind_intro.
  eapply wp_mono; [apply stamp_touch|]. intros [] s1 T1.
  apply wp_bind_intro. unfold upd_reg at 1. rewrite wp_modify.
  pose proof (stamp_stage now ep p exact s0 s1 T1) as Hst. cbn zeta in Hst.
  set (s2 := mkCtx (set_peers _ (reg s1)) (actions s1) (env s1)) in *.
  assert (my_endpoint (reg s2) = my_endpoint (reg s)) as Eme2 by apply T1.
  apply wp_bind_intro. rewrite wp_gets. apply wp_bind_intro.
  eapply wp_mono; [apply drain_loop_touch|]. intros [] s3 T3.
  destruct (cancel_stage now p _ s2 s3 T3 (elem_of_to_cancel p s2)) as [Hn3 Hs3].
  assert (my_endpoint (reg s3) = my_endpoint (reg s)) as Eme3
    by (rewrite <- Eme2; apply T3).
  apply wp_bind_intro. rewrite wp_gets. apply wp_bind_intro.
  eapply wp_mono; [by apply (dedup_when now wall ep p s3)|]. intros [] s4 (Ho4 & Hn4 & Hs4).
  rewrite Eme3 in Hs4.
  apply wp_bind_intro. rewrite wp_gets.
  eapply wp_mono; [by apply (upgrade_match p w s4)|]. intros [] s5 (Ho5 & Hn5 & Hs5).
  split_and!; [done..|]. intros d e Hd Hv.
  destruct (Hst d e Hd Hv) as (e2 & Hl2 & Er).
  destruct (survives_trans _ _ _ _ _ (Hs3 w) (survives_trans _ _ _ _ _ Hs4 Hs5) _ _ Hl2)
    as (d' & e' & Hl' & Hw). exists d', e'. by rewrite <- Er.
Qed.

(** C10. Deduplication.  With room in its counters the registry handles
    [VerifiedEndpoint] for [ep] to the end, and then: at most one entry carrying
    the prefix of [ep] is [Connected]; no dial to the prefix is pending; and no
    peer is lost to the deduplication: for every connection to the verified peer
    that was live before (its entry carried the prefix, or it is the device the
    handshake ran on), one is live afterwards, in a role that [should_win] keeps
    whenever the old one's role is such a role. *)
Theorem verified_endpoint_dedup (now : Instant) (wall : Z) (ep : EndpointId)
    (exact : option DeviceId) (s : Ctx) :
  has_room s ->
  exists s', handle_verified_endpoint now wall ep exact s = Some (tt, s') /\
    dedup_post (prefix_from_endpoint ep) (fun r => should_win r (my_endpoint (reg s)) ep)
      exact s s'.
Proof.
  intros Hr%has_room_Room.
  apply (total_run _ (dedup_post _ _ exact s)); [by apply handle_verified_endpoint_ends|].
  apply handle_verified_endpoint_wp.
Qed.
End Dedup.

(** Two live connections to one peer under two device ids. *)
Definition demo_conn (d : DeviceId) (id : Z) (r : ConnectRole.t) : PeerEntry :=
  set_role r (set_prefix (Some (prefix_from_endpoint demo_peer))
    (set_tx_gen 1 (set_phase (PeerPhase.Connected 0 (mkChannelHandle 0 ConnectPath.Gatt) 1 false)
      (set_lifecycle_id id (PeerEntry_new d))))).

Definition demo_two : Ctx :=
  mkCtx (set_next_lifecycle 3 (set_peers
    (<["a" := demo_conn "a" 1 ConnectRole.Central]>
      (<["b" := demo_conn "b" 2 ConnectRole.Peripheral]> ∅))
    (Registry_new L2capPolicy.Disabled demo_me))) [] demo_env.

Lemma verified_endpoint_dedup_witness :
  has_room demo_two /\
  exists s', handle_verified_endpoint 5 0 demo_peer None demo_two = Some (tt, s') /\
    dedup_post (prefix_from_endpoint demo_peer)
      (fun r => should_win r (my_endpoint (reg demo_two)) demo_peer) None demo_two s'.
Proof.
  assert (has_room demo_two) as Hr by (apply (bool_decide_unpack _); vm_compute; exact I).
  split; [exact Hr|]. exact (verified_endpoint_dedup 5 0 demo_peer None demo_two Hr).
Defined.
