(* ===== verification/RegistryTick.v ===== *)
(** * RegistryTick: timers

    What a tick leaves behind, the retry budget and back-off of dials, and the
    fairness delay. *)

From S2P Require Import Prelude Peer Dedup Registry RegistryInv RegistryTotal RegistryDedup.
Open Scope Z_scope.

(** ** Back-off and fairness delay *)

(** The back-off before attempt [n] is 500 ms doubled [n] times, capped at
    30 s; so it lies between 500 ms and 30 s and never shrinks from one attempt
    to the next. *)
Theorem reconnect_backoff_spec (n : Z) :
  0 <= n ->
  reconnect_backoff n = Z.min (from_millis 500 * 2 ^ n) (from_secs 30) /\
  from_millis 500 <= reconnect_backoff n <= from_secs 30 /\
  reconnect_backoff n <= reconnect_backoff (n + 1).
Proof.
  intros Hn.
  assert (forall m, 0 <= m ->
    reconnect_backoff m = Z.min (from_millis 500 * 2 ^ m) (from_secs 30)) as Hb.
  { intros m Hm. unfold reconnect_backoff, saturating_mul, from_millis, from_secs, u64_max.
    rewrite Z.shiftl_1_l. destruct (Z.le_gt_cases m 6) as [Hle|Hgt].
    - rewrite (Z.min_l m 6) by lia.
      assert (2 ^ m <= 2 ^ 6) by (apply Z.pow_le_mono_r; lia). lia.
    - rewrite (Z.min_r m 6) by lia.
      assert (2 ^ 6 <= 2 ^ m) by (apply Z.pow_le_mono_r; lia).
      change (2 ^ 6) with 64 in *. lia. }
  assert (0 < 2 ^ n) by (apply Z.pow_pos_nonneg; lia).
  rewrite !Hb by lia. rewrite (Z.pow_add_r 2 n 1) by lia.
  unfold from_millis, from_secs. lia.
Qed.

Lemma reconnect_backoff_spec_witness :
  0 <= 3 /\
  (reconnect_backoff 3 = Z.min (from_millis 500 * 2 ^ 3) (from_secs 30) /\
   from_millis 500 <= reconnect_backoff 3 <= from_secs 30 /\
   reconnect_backoff 3 <= reconnect_backoff (3 + 1)).
Proof. split; [lia|]. apply (reconnect_backoff_spec 3). lia. Defined.

(** The fairness delay lies in the window around [FAIRNESS_WINDOW]. *)
Lemma pending_dial_deadline_window now p :
  now + FAIRNESS_WINDOW - FAIRNESS_JITTER <= pending_dial_deadline now p
  < now + FAIRNESS_WINDOW + FAIRNESS_JITTER.
Proof.
  unfold pending_dial_deadline, saturating_sub, FAIRNESS_WINDOW, FAIRNESS_JITTER, from_millis,
    u64_max. cbn zeta.
  pose proof (Z.mod_pos_bound (dial_seed 0 p 0) (Z.min (150 * 1000000 * 2) 18446744073709551615)).
  lia.
Qed.

(** ** The tick *)

(** Something is overdue in the entry at [t]. *)
Definition overdue {MP : Mpsc} (t : Instant) (en : Env) (e : PeerEntry) : Prop :=
  match phase e with
  | PeerPhase.Reconnecting _ next_at _ => next_at <= t
  | PeerPhase.PendingDial _ deadline _ => deadline <= t
  | PeerPhase.Draining since _ => since + DRAINING_TIMEOUT < t
  | PeerPhase.Restoring since => since + RESTORING_TIMEOUT < t
  | PeerPhase.Connected _ _ _ _ =>
      exists h, pipe e = Some h /\
        clock_last (last_rx_at h) en + CONNECTED_IDLE_DEADLINE < t
  | _ => False
  end.

(** A tombstone older than [DEAD_GC_TTL]. *)
Definition tombstone_expired (t : Instant) (e : PeerEntry) : Prop :=
  match phase e with
  | PeerPhase.Dead _ at_ => at_ + DEAD_GC_TTL < t
  | _ => False
  end.

Lemma elapsed_gt T t since : 0 <= T -> (T <? saturating_duration_since t since) = true
  <-> since + T < t.
Proof. intros HT. unfold saturating_duration_since. rewrite Z.ltb_lt. lia. Qed.

(** The tick decides to act exactly on what is overdue. *)
Lemma tick_decision_overdue {MP : Mpsc} t en e : tick_decision t en e <> None <-> overdue t en e.
Proof.
  assert (forall (b : bool) (a : TickAction.t), (if b then Some a else None) <> None <-> b = true)
    as Hif by (intros [] a; split; done).
  unfold tick_decision, overdue. destruct (phase e); try (split; done).
  - by rewrite Hif, Z.leb_le.
  - destruct (pipe e) as [h|]; cbn.
    + rewrite Hif, elapsed_gt by done. split; [eauto|]. by intros (h' & [= <-] & ?).
    + split; [done|]. by intros (h & ? & _).
  - by rewrite Hif, elapsed_gt.
  - by rewrite Hif, Z.leb_le.
  - by rewrite Hif, elapsed_gt.
Qed.

Lemma dead_expired_spec t e : dead_expired t e = true <-> tombstone_expired t e.
Proof.
  unfold dead_expired, tombstone_expired. destruct (phase e); try (split; done).
  by apply elapsed_gt.
Qed.

Lemma dead_not_expired t e : dead_expired t e = false <-> ~ tombstone_expired t e.
Proof. rewrite <- dead_expired_spec. by destruct (dead_expired t e). Qed.

(** An entry no timer of which is due at [t]. *)
Definition settled (t : Instant) (e : PeerEntry) : Prop :=
  (forall (MP : Mpsc) (en : Env), tick_decision t en e = None) /\ dead_expired t e = false.

Lemma settled_phase t e :
  match phase e with
  | PeerPhase.Connecting _ _ _ | PeerPhase.Discovered _ => True
  | PeerPhase.Dead _ at_ => at_ = t
  | PeerPhase.Draining since _ => since = t
  | _ => False
  end -> settled t e.
Proof.
  unfold settled, tick_decision, dead_expired.
  destruct (phase e); try done; intros; subst; split; try done; intros;
    unfold saturating_duration_since; rewrite Z.sub_diag; done.
Qed.

Section Tick.
Context {HI : HashIter} {MP : Mpsc}.

Definition ticked (t : Instant) (e e' : PeerEntry) : Prop := settled t e'.
#[local] Instance ticked_trans t : Transitive (ticked t).
Proof. by intros e1 e2 e3. Qed.

(** Every tick action settles its entry. *)
Lemma tick_entry_rel t wall d a : entry_rel (ticked t) (tick_entry t wall d a).
Proof.
  intros s. unfold tick_entry, resume_drained_entry, clear_connection_state, arm_for_dial,
    begin_connect, drain_to_draining, drain_pending, abandon_outstanding, to_dead, push_close,
    ticked.
  destruct a; esteps; repeat case_match; esteps; try done;
    repeat (case_match; esteps; try done); by apply settled_phase.
Qed.

(** The decisions of a tick, one per entry that is due. *)
Lemma elem_of_decisions t s d :
  (exists x, x ∈ omap (fun '(d, e) => a ← tick_decision t (env s) e; Some (d, a))
       (hm_iter (peers (reg s))) /\ d = x.1 /\ True)
  <-> exists e, peers (reg s) !! d = Some e /\ tick_decision t (env s) e <> None.
Proof.
  split.
  - intros ([d' a] & Hin & -> & _). apply list_elem_of_omap in Hin as ([d e] & Hin & E).
    apply elem_of_hm_iter in Hin. cbn in E. exists e.
    destruct (tick_decision _ _ _) eqn:Et; cbn in E; [|done]. by simplify_eq.
  - intros (e & Hd & Ht). destruct (tick_decision t (env s) e) as [a|] eqn:Et; [|done].
    exists (d, a). split; [|done]. apply list_elem_of_omap. exists (d, e).
    rewrite elem_of_hm_iter, Et. done.
Qed.

Definition tick_post (t : Instant) (s s' : Ctx) : Prop :=
  (forall d e, peers (reg s') !! d = Some e ->
     ~ overdue t (env s) e /\ ~ tombstone_expired t e) /\
  (forall d, peers (reg s') !! d = None <->
     peers (reg s) !! d = None \/
     exists e, peers (reg s) !! d = Some e /\ tombstone_expired t e) /\
  (forall d e, peers (reg s) !! d = Some e -> ~ overdue t (env s) e ->
     ~ tombstone_expired t e -> peers (reg s') !! d = Some e).

Lemma dead_no_decision t en e : dead_expired t e = true -> tick_decision t en e = None.
Proof. unfold dead_expired, tick_decision. by destruct (phase e). Qed.

(** The entries after the decisions were carried out and the tombstones
    collected. *)
Lemma tick_collect t s s1 s' :
  Touch (fun d => exists e, peers (reg s) !! d = Some e /\ tick_decision t (env s) e <> None)
    (ticked t) s s1 ->
  peers (reg s') = filter (fun '(_, e) => dead_expired t e = false) (peers (reg s1)) ->
  tick_post t s s'.
Proof.
  intros HT E. split_and!.
  - intros d e He. rewrite E in He. apply map_lookup_filter_Some in He as [He Hd].
    split; [|by apply dead_not_expired]. rewrite <- tick_decision_overdue.
    destruct (Touch_lookup _ _ _ _ _ _ HT He) as (e0 & H0 & [[_ [Hs _]]|[Hn ->]]).
    + rewrite Hs. auto.
    + intros Ht. destruct Hn. eauto.
  - intros d. rewrite E, map_lookup_filter_None. destruct HT as [_ HT]. specialize (HT d).
    setoid_rewrite <- dead_expired_spec.
    destruct (peers (reg s) !! d) as [e|], (peers (reg s1) !! d) as [e1|]; try done; [|tauto].
    destruct HT as [[(e' & [= <-] & Hdec) [_ Hs]]|[_ ->]].
    + split.
      * intros [?|Hx]; [done|]. by destruct (Hx _ eq_refl).
      * intros [?|(e' & [= <-] & Hx)]; [done|]. by rewrite (dead_no_decision _ _ _ Hx) in Hdec.
    + split.
      * intros [?|Hx]; [done|]. right. exists e. split; [done|].
        apply not_false_is_true. by apply Hx.
      * intros [?|(e' & [= <-] & Hx)]; [done|]. right. intros x [= <-]. by rewrite Hx.
  - intros d e He Ho Hd%dead_not_expired. rewrite <- tick_decision_overdue in Ho.
    rewrite E. apply map_lookup_filter_Some. split; [|done].
    destruct HT as [_ HT]. specialize (HT d). rewrite He in HT.
    destruct (peers (reg s1) !! d) as [e1|]; [|done].
    destruct HT as [[(e' & [= <-] & ?) _]|[_ ->]]; done.
Qed.

Lemma handle_tick_wp t wall s : wp True (handle_tick t wall) (fun _ s' => tick_post t s s') s.
Proof.
  unfold handle_tick. apply wp_bind_intro. rewrite wp_gets. cbn zeta. apply wp_bind_intro.
  eapply wp_mono; [apply (for_each_touch fst _ _ (fun _ => True) (ticked t)); [apply _|]|].
  - intros [d a] s1 _. eapply wp_mono; [apply expect_entry_touch, tick_entry_rel|].
    intros [] s2. apply Touch_iff. cbn. tauto.
  - intros [] s1 HT. eapply Touch_iff in HT; [|apply elem_of_decisions].
    by eapply tick_collect.
Qed.

(** C22. A tick leaves nothing overdue.  With room in its counters the registry
    handles a tick at [t] to the end, and then no entry is waiting for a timer
    that has expired: none is [Reconnecting] past its back-off, [PendingDial]
    past its deadline, [Draining] or [Restoring] beyond their time-outs, or
    [Connected] over a pipe that has been silent for [CONNECTED_IDLE_DEADLINE];
    exactly the tombstones older than [DEAD_GC_TTL] are gone; and an entry with
    nothing due is as it was. *)
Theorem tick_leaves_nothing_due (t : Instant) (wall : Z) (s : Ctx) :
  has_room s -> exists s', handle_tick t wall s = Some (tt, s') /\ tick_post t s s'.
Proof.
  intros Hr%has_room_Room.
  apply (total_run _ (tick_post t s)); [by apply handle_tick_ends|apply handle_tick_wp].
Qed.
End Tick.

(** A peer whose back-off expires at 10. *)
Definition demo_backoff : Ctx :=
  mkCtx (set_next_lifecycle 2 (set_peers
    (<["dev" := set_phase (PeerPhase.Reconnecting 1 10 DisconnectReason.Timeout)
                  (set_lifecycle_id 1 (PeerEntry_new "dev"))]> ∅)
    (Registry_new L2capPolicy.Disabled demo_me))) [] demo_env.

Lemma tick_leaves_nothing_due_witness :
  has_room demo_backoff /\
  exists s', handle_tick 10 0 demo_backoff = Some (tt, s') /\ tick_post 10 demo_backoff s'.
Proof.
  assert (has_room demo_backoff) as Hr by (apply (bool_decide_unpack _); vm_compute; exact I).
  split; [exact Hr|]. exact (tick_leaves_nothing_due 10 0 demo_backoff Hr).
Defined.
