(* ===== verification/RegistrySend.v ===== *)
(** * RegistrySend: datagrams through the registry

    Order and conservation of outbound datagrams: the queue a peer sees is the
    outbound channel of its pipe followed by the entry's [pending_sends]. *)

From S2P Require Import Prelude Peer Dedup Registry RegistryInv.
Open Scope Z_scope.

Section Send.
Context {HI : HashIter} {MP : Mpsc}.

(** Flushing moves a prefix of the pending sends to the channel, in order; what
    is left was refused because the channel is full (and stays full) or closed. *)
Lemma flush_pending_spec h l en :
  let '(rest, closed, en') := flush_pending h l en in
  out_items h en' ++ rest = out_items h en ++ l /\
  (rest <> [] -> closed = false -> forall y, (out_try_send h y en').1 = TrySend.Full y) /\
  (rest = [] -> closed = false).
Proof.
  revert en. induction l as [|x l IH]; intros en; cbn; [done|].
  pose proof (out_try_send_spec h x en) as Hs.
  destruct (out_try_send h x en) as [[|y|y] en'] eqn:E.
  - specialize (IH en'). destruct (flush_pending h l en') as [[rest closed] en''].
    destruct IH as (IH & IH2). split; [|done]. by rewrite IH, Hs, <- app_assoc.
  - destruct Hs as [-> ->]. split_and!; [done| |done]. intros _ _ z.
    by apply (out_try_send_full _ _ z) in E.
  - by destruct Hs as [-> ->].
Qed.

Lemma flush_backlog_out h l en h' :
  out_items h' (flush_backlog h l en).2 = out_items h' en.
Proof.
  revert en. induction l as [|b l IH]; intros en; cbn; [done|].
  pose proof (in_try_send_out_items h b en h') as Hs.
  destruct (in_try_send h b en) as [[|y|y] en']; cbn in *; [by rewrite IH|done|done].
Qed.

(** The two outcomes of a send: queued at the tail (acknowledged, unless the
    pipe was found closed while older sends were flushed), or refused. *)
Definition send_outcome (send : PendingSend) (h : PipeHandles) (e : PeerEntry) (en : Env)
    (acts : list PeerAction.t) (e' : PeerEntry) (en' : Env) : Prop :=
  let before := out_items (outbound_tx h) en ++ pending_sends e in
  let after := out_items (outbound_tx h) en' ++ pending_sends e' in
  let ack := PeerAction.AckSend (ps_tx_gen send) (ps_waker send) in
  (after = before ++ [send] /\ (acts = [ack (inl tt)] \/ acts = [] /\ pipe e' = None))
  \/ (after = before /\ acts = [ack (inr ErrorKind.WouldBlock)]).

Lemma enqueue_send_spec (g : Z) (dg : Bytes) (w : Waker) (s : ECtx) (h : PipeHandles) :
  pipe (entry s) = Some h -> e_actions s = [] ->
  exists s', enqueue_send g dg w s = Some (tt, s') /\
    e_next_lifecycle s' = e_next_lifecycle s /\ phase (entry s') = phase (entry s) /\
    send_outcome (mkPendingSend g dg w) h (entry s) (e_env s) (e_actions s') (entry s') (e_env s').
Proof.
  intros Hp Ha.
  match goal with |- exists s', _ /\ @?Q s' =>
    enough (wp False (enqueue_send g dg w) (fun _ => Q) s) as Hw end.
  { destruct (wp_total _ _ _ Hw) as ([] & s' & E & Ho). eauto. }
  unfold enqueue_send, push_back. esteps. rewrite Hp.
  destruct (pending_sends (entry s)) as [|q qs] eqn:Eq.
  - esteps. rewrite Hp. esteps.
    pose proof (out_try_send_spec (outbound_tx h) (mkPendingSend g dg w) (e_env s)) as Hs.
    destruct (out_try_send _ _ _) as [[|y|y] en']; esteps; (split_and!; [done..|]);
      unfold send_outcome; cbn; rewrite Eq, Ha, ?app_nil_r.
    + left. rewrite Hs. auto.
    + right. by destruct Hs as [_ ->].
    + left. destruct Hs as [-> ->]. auto.
  - esteps. pose proof (flush_pending_spec (outbound_tx h) (q :: qs) (e_env s)) as Hf.
    destruct (flush_pending _ _ _) as [[rest closed] en1]. destruct Hf as (Hf & Hfull & Hnil).
    esteps. destruct closed; esteps.
    + split_and!; [done..|]. left. cbn. rewrite Eq, <- Hf, app_assoc, Ha. auto.
    + rewrite Hp. esteps.
      pose proof (out_try_send_spec (outbound_tx h) (mkPendingSend g dg w) en1) as Hs.
      destruct (out_try_send _ _ _) as [[|y|y] en'] eqn:Eo; esteps; (split_and!; [done..|]);
        unfold send_outcome; cbn; rewrite Eq, <- Hf, Ha.
      * left. destruct rest as [|r rest].
        { rewrite Hs, !app_nil_r. auto. }
        specialize (Hfull ltac:(done) eq_refl (mkPendingSend g dg w)). by rewrite Eo in Hfull.
      * right. by destruct Hs as [_ ->].
      * left. destruct Hs as [-> ->]. rewrite app_assoc. auto.
Qed.

(** C24. Sends to a live peer keep their order.  A datagram sent with the current
    generation to a peer whose pipe is up either joins the tail of the peer's
    queue (outbound channel, then pending sends), or is refused with
    [WouldBlock] and the queue is what it was: no earlier datagram is lost,
    repeated or overtaken.  The peer stays connected, no other peer is touched,
    and the call never panics. *)
Theorem send_keeps_order (now : Instant) (wall : Z) (r : Registry) (en : Env) (d : DeviceId)
    (target : option EndpointId) (g : Z) (dg : Bytes) (w : Waker) (e : PeerEntry)
    (h : PipeHandles) (since : Instant) (ch : ChannelHandle) (upgrading : bool) :
  peers r !! d = Some e -> phase e = PeerPhase.Connected since ch g upgrading ->
  pipe e = Some h ->
  exists acts r' en' e',
    handle now wall (PeerCommand.SendDatagram d target g dg w) r en = Some (acts, r', en') /\
    peers r' = <[d := e']> (peers r) /\ next_lifecycle r' = next_lifecycle r /\
    phase e' = phase e /\
    send_outcome (mkPendingSend g dg w) h e en acts e' en'.
Proof.
  intros Hd Hph Hp.
  destruct (enqueue_send_spec g dg w (mkECtx (next_lifecycle r) [] en e) h Hp eq_refl)
    as (s' & Hrun & Hnl & Hph' & Ho).
  assert (send_datagram_entry now target g dg w (mkECtx (next_lifecycle r) [] en e)
    = Some (tt, s')) as Hent.
  { unfold send_datagram_entry. rewrite bind_gets. unfold send_decision. cbn [entry].
    rewrite Hph, Z.eqb_refl. by destruct target. }
  do 4 eexists. split; [apply handle_run; exact (or_insert_entry_run _ _ _ _ _ _ _ _ Hd Hent)|].
  cbn. split_and!; [done..|exact Ho].
Qed.

(** A pipe that comes up takes over the queue in order.  [DataPipeReady] of the
    current generation never panics, installs the handles, and moves a prefix of
    the pending sends to the new channel: channel followed by pending sends is
    what it was. *)
Theorem pipe_ready_keeps_order (now : Instant) (wall : Z) (r : Registry) (en : Env)
    (d : DeviceId) (g : Z) (h : PipeHandles) (e : PeerEntry) :
  peers r !! d = Some e -> tx_gen e = g ->
  exists r' en' e',
    handle now wall (PeerCommand.DataPipeReady d g (outbound_tx h) (inbound_tx h) (swap_tx h)
      (last_rx_at h)) r en = Some ([], r', en') /\
    peers r' = <[d := e']> (peers r) /\ pipe e' = Some h /\ phase e' = phase e /\
    out_items (outbound_tx h) en' ++ pending_sends e'
      = out_items (outbound_tx h) en ++ pending_sends e.
Proof.
  intros Hd Hg.
  pose proof (flush_backlog_out (inbound_tx h) (rx_backlog e) en (outbound_tx h)) as Hb.
  destruct (flush_backlog (inbound_tx h) (rx_backlog e) en) as [backlog en1] eqn:Eb.
  pose proof (flush_pending_spec (outbound_tx h) (pending_sends e) en1) as Hf.
  destruct (flush_pending (outbound_tx h) (pending_sends e) en1) as [[rest closed] en2] eqn:Ef.
  destruct Hf as [Hf _]. cbn in Hb.
  assert (exists s', data_pipe_ready_entry g h (mkECtx (next_lifecycle r) [] en e) = Some (tt, s')
    /\ e_actions s' = [] /\ e_env s' = en2 /\ pending_sends (entry s') = rest
    /\ pipe (entry s') = Some h /\ phase (entry s') = phase e) as (s' & Hs & Ha & He & Hpe & Hpi & Hph).
  { unfold data_pipe_ready_entry. rewrite bind_gets. cbn [entry]. rewrite Hg, Z.eqb_refl.
    cbn [negb]. rewrite bind_gets. cbn [e_env entry]. rewrite Eb, Ef.
    eexists. split; [reflexivity|]. done. }
  exists (store_entry d s' r), (e_env s'), (entry s'). split; [|split_and!].
  - rewrite <- Ha. apply (handle_run _ _ _ _ _ (mkCtx _ _ _)). cbn [handle_cmd].
    unfold handle_data_pipe_ready. destruct h.
    by erewrite bind_run by exact (with_entry_run _ _ _ _ _ _ _ _ Hd Hs).
  - done.
  - done.
  - done.
  - by rewrite He, Hpe, Hf, Hb.
Qed.
End Send.

(** A live peer with one buffered send and a channel of capacity two. *)
Definition demo_pipe : PipeHandles := mkPipeHandles 1 2 3 4.
Definition demo_live : PeerEntry :=
  set_pending_sends [mkPendingSend 1 [9] 0]
    (set_pipe (Some demo_pipe)
      (set_tx_gen 1 (set_phase (PeerPhase.Connected 0 (mkChannelHandle 0 ConnectPath.Gatt) 1 false)
        (set_lifecycle_id 1 (PeerEntry_new "dev"))))).
Definition demo_live_reg : Registry :=
  set_next_lifecycle 2 (set_peers (<["dev" := demo_live]> ∅)
    (Registry_new L2capPolicy.Disabled demo_me)).
Definition demo_live_env : Env :=
  mkEnv bounded_mpsc (<[1 := mkBoundedChan 2 [] true]> ∅) ∅ ∅.

Lemma send_keeps_order_witness :
  exists acts r' en' e',
    handle 7 0 (PeerCommand.SendDatagram "dev" None 1 [5] 0) demo_live_reg demo_live_env
      = Some (acts, r', en') /\
    peers r' = <["dev" := e']> (peers demo_live_reg) /\
    next_lifecycle r' = next_lifecycle demo_live_reg /\
    phase e' = phase demo_live /\
    send_outcome (mkPendingSend 1 [5] 0) demo_pipe demo_live demo_live_env acts e' en'.
Proof.
  eapply (send_keeps_order 7 0 demo_live_reg demo_live_env "dev" None 1 [5] 0 demo_live demo_pipe);
    reflexivity.
Defined.

Lemma pipe_ready_keeps_order_witness :
  exists r' en' e',
    handle 7 0 (PeerCommand.DataPipeReady "dev" 1 1 2 3 4) demo_live_reg demo_live_env
      = Some ([], r', en') /\
    peers r' = <["dev" := e']> (peers demo_live_reg) /\ pipe e' = Some demo_pipe /\
    phase e' = phase demo_live /\
    out_items (outbound_tx demo_pipe) en' ++ pending_sends e'
      = out_items (outbound_tx demo_pipe) demo_live_env ++ pending_sends demo_live.
Proof.
  apply (pipe_ready_keeps_order 7 0 demo_live_reg demo_live_env "dev" 1 demo_pipe demo_live);
    reflexivity.
Defined.
