(* ===== verification/RegistryFlow.v ===== *)
(** * RegistryFlow: data through the registry, over every command

    A datagram waits in an entry's [pending_sends] and then in the outbound
    channel of its pipe; a fragment waits in [rx_backlog] and then in the inbound
    channel.  Whatever commands are handled, values only move from the queue to
    the channel, in order, or are dropped: nothing is repeated, overtaken or
    given to another peer's pipe. *)

From S2P Require Import Prelude Peer Dedup Registry RegistryInv RegistrySend.
Open Scope Z_scope.

(** ** Channels *)

Section Channels.
Context {MP : Mpsc}.

Definition in_items (h : InboundTx) (en : Env) : list Bytes :=
  from_option chan_items [] (in_chans en !! h).

(** What a program put on the channels of the handles [h]: only there, at the
    tail. *)
Definition Puts (h : option PipeHandles) (xs : list PendingSend) (bs : list Bytes) (en en' : Env)
    : Prop :=
  (forall k, out_items k en'
     = out_items k en ++ (if bool_decide (outbound_tx <$> h = Some k) then xs else [])) /\
  (forall k, in_items k en'
     = in_items k en ++ (if bool_decide (inbound_tx <$> h = Some k) then bs else [])).

Lemma Puts_nil h en : Puts h [] [] en en.
Proof. split; intros k; case_bool_decide; by rewrite app_nil_r. Qed.

Lemma Puts_trans h xs bs xs' bs' en en1 en2 :
  Puts h xs bs en en1 -> Puts h xs' bs' en1 en2 -> Puts h (xs ++ xs') (bs ++ bs') en en2.
Proof.
  intros [Ho Hi] [Ho' Hi']. split; intros k; rewrite ?Ho', ?Hi', ?Ho, ?Hi; case_bool_decide;
    by rewrite <- app_assoc, ?app_nil_r.
Qed.

Lemma out_try_send_puts h x en :
  match out_try_send (outbound_tx h) x en with
  | (TrySend.Ok, en') => Puts (Some h) [x] [] en en'
  | (TrySend.Full y, en') | (TrySend.Closed y, en') => y = x /\ Puts (Some h) [] [] en en'
  end.
Proof.
  unfold out_try_send, Puts, out_items, in_items.
  destruct (out_chans en !! outbound_tx h) as [c|] eqn:E; [|by split; [|apply Puts_nil]].
  pose proof (chan_try_send_spec c x) as Hs.
  assert (forall c', forall k, from_option chan_items [] (<[outbound_tx h:=c']> (out_chans en) !! k)
    = if bool_decide (outbound_tx h = k) then chan_items c' else out_items k en) as Hins.
  { intros c' k. case_bool_decide as Ek; [subst k; by rewrite lookup_insert_eq|].
    by rewrite lookup_insert_ne. }
  destruct (chan_try_send c x) as [[|y|y] c']; cbn [in_chans out_chans fmap option_fmap option_map].
  - split; intros k; [rewrite Hins|case_bool_decide; by rewrite app_nil_r].
    destruct (decide (outbound_tx h = k)) as [<-|Hk].
    + rewrite !bool_decide_true by done. unfold out_items. by rewrite E, Hs.
    + rewrite !bool_decide_false by congruence. by rewrite app_nil_r.
  - destruct Hs as [-> ->]. split; [done|]. rewrite insert_id by done. exact (Puts_nil (Some h) en).
  - destruct Hs as [-> ->]. split; [done|]. rewrite insert_id by done. exact (Puts_nil (Some h) en).
Qed.

Lemma in_try_send_puts h b en :
  match in_try_send (inbound_tx h) b en with
  | (TrySend.Ok, en') => Puts (Some h) [] [b] en en'
  | (_, en') => Puts (Some h) [] [] en en'
  end.
Proof.
  unfold in_try_send, Puts, out_items, in_items.
  destruct (in_chans en !! inbound_tx h) as [c|] eqn:E; [|by apply Puts_nil].
  pose proof (chan_try_send_spec c b) as Hs.
  assert (forall c', forall k, from_option chan_items [] (<[inbound_tx h:=c']> (in_chans en) !! k)
    = if bool_decide (inbound_tx h = k) then chan_items c' else in_items k en) as Hins.
  { intros c' k. case_bool_decide as Ek; [subst k; by rewrite lookup_insert_eq|].
    by rewrite lookup_insert_ne. }
  destruct (chan_try_send c b) as [[|y|y] c']; cbn [in_chans out_chans fmap option_fmap option_map].
  - split; intros k; [case_bool_decide; by rewrite app_nil_r|rewrite Hins].
    destruct (decide (inbound_tx h = k)) as [<-|Hk].
    + rewrite !bool_decide_true by done. unfold in_items. by rewrite E, Hs.
    + rewrite !bool_decide_false by congruence. by rewrite app_nil_r.
  - destruct Hs as [-> ->]. rewrite insert_id by done. exact (Puts_nil (Some h) en).
  - destruct Hs as [-> ->]. rewrite insert_id by done. exact (Puts_nil (Some h) en).
Qed.

Lemma flush_pending_puts h l en :
  let '(rest, _, en') := flush_pending (outbound_tx h) l en in
  exists xs, l = xs ++ rest /\ Puts (Some h) xs [] en en'.
Proof.
  revert en. induction l as [|x l IH]; intros en; cbn; [by exists []; split; [|apply Puts_nil]|].
  pose proof (out_try_send_puts h x en) as Hs.
  destruct (out_try_send _ _ _) as [[|y|y] en'].
  - specialize (IH en'). destruct (flush_pending _ l en') as [[rest closed] en''].
    destruct IH as (xs & -> & Hp). exists (x :: xs). split; [done|].
    exact (Puts_trans _ [x] [] xs [] _ _ _ Hs Hp).
  - destruct Hs as [-> Hs]. by exists [].
  - destruct Hs as [-> Hs]. by exists [].
Qed.

Lemma flush_backlog_puts h l en :
  let '(rest, en') := flush_backlog (inbound_tx h) l en in
  exists bs, bs ++ rest `sublist_of` l /\ Puts (Some h) [] bs en en'.
Proof.
  revert en. induction l as [|b l IH]; intros en; cbn; [by exists []; split; [|apply Puts_nil]|].
  pose proof (in_try_send_puts h b en) as Hs.
  destruct (in_try_send _ _ _) as [[|y|y] en'].
  - specialize (IH en'). destruct (flush_backlog _ l en') as [rest en''].
    destruct IH as (bs & Hl & Hp). exists (b :: bs). split; [by apply sublist_skip|].
    exact (Puts_trans _ [] [b] [] bs _ _ _ Hs Hp).
  - exists []. split; [by apply sublist_cons|done].
  - exists []. split; [by apply sublist_cons|done].
Qed.
End Channels.

(** ** Programs on an entry *)

Section EntryFlow.
Context {HI : HashIter} {MP : Mpsc}.

(** A program that puts nothing on a channel, and at most drops from the queues
    or lets go of the pipe. *)
Record Calm (s s' : ECtx) : Prop := {
  cm_env : e_env s' = e_env s;
  cm_sends : pending_sends (entry s') `sublist_of` pending_sends (entry s);
  cm_frags : rx_backlog (entry s') `sublist_of` rx_backlog (entry s);
  cm_pipe : pipe (entry s') = pipe (entry s) \/ pipe (entry s') = None;
}.

#[global] Instance Calm_preorder : PreOrder Calm.
Proof.
  split; [by intros s; split; auto|].
  intros s1 s2 s3 [E1 S1 F1 P1] [E2 S2 F2 P2]. split; [congruence|by etrans|by etrans|].
  destruct P2 as [-> | ->]; auto.
Qed.

(** A program that takes the sends [xs] and the fragments [bs] in: what was
    queued or is new goes on the channels of the handles [h], in order, or waits;
    a fragment put there does not come from the backlog. *)
Definition Flow (xs : list PendingSend) (bs : list Bytes) (h : option PipeHandles) (s s' : ECtx)
    : Prop :=
  exists xs' bs', Puts h xs' bs' (e_env s) (e_env s') /\
    xs' ++ pending_sends (entry s') `sublist_of` pending_sends (entry s) ++ xs /\
    bs' `sublist_of` bs /\ rx_backlog (entry s') `sublist_of` rx_backlog (entry s) ++ bs /\
    (pipe (entry s') = pipe (entry s) \/ pipe (entry s') = None).

Lemma Calm_Flow xs bs h s s' : Calm s s' -> Flow xs bs h s s'.
Proof.
  intros [E S F P]. exists [], []. rewrite E. split; [apply Puts_nil|]. cbn.
  split_and!; [by apply sublist_inserts_r|apply sublist_nil_l|by apply sublist_inserts_r|done].
Qed.

Lemma Flow_Calm xs bs h s s1 s2 : Flow xs bs h s s1 -> Calm s1 s2 -> Flow xs bs h s s2.
Proof.
  intros (xs' & bs' & Hp & Hs & Hb & Hf & P) [E S F P']. exists xs', bs'. rewrite E.
  split_and!; [done| |done| |].
  - etrans; [|exact Hs]. by apply sublist_app.
  - by etrans.
  - destruct P' as [-> | ->]; auto.
Qed.

Lemma Puts_none xs bs h en en' : Puts None xs bs en en' -> Puts h [] [] en en'.
Proof.
  intros [Ho Hi]. split; intros k; rewrite ?Ho, ?Hi;
    rewrite (bool_decide_false (_ <$> None = _)) by done; by case_bool_decide.
Qed.

Lemma Calm_then_Flow xs bs s s1 s2 :
  Calm s s1 -> Flow xs bs (pipe (entry s1)) s1 s2 -> Flow xs bs (pipe (entry s)) s s2.
Proof.
  intros [E S F P] (xs' & bs' & Hp & Hs & Hb & Hf & P'). rewrite E in Hp.
  assert (xs' ++ pending_sends (entry s2) `sublist_of` pending_sends (entry s) ++ xs) as Hs'.
  { etrans; [exact Hs|]. by apply sublist_app. }
  assert (rx_backlog (entry s2) `sublist_of` rx_backlog (entry s) ++ bs) as Hf'.
  { etrans; [exact Hf|]. by apply sublist_app. }
  destruct P as [P|P]; rewrite P in Hp.
  - exists xs', bs'. split_and!; [done..|]. by rewrite P in P'.
  - exists [], []. split; [by eapply Puts_none|]. cbn. split_and!; [|apply sublist_nil_l|done|].
    + etrans; [|exact Hs']. by apply sublist_inserts_l.
    + rewrite P in P'. naive_solver.
Qed.

Definition calm {A} (c : M ECtx A) : Prop := forall s, wp True c (fun _ s' => Calm s s') s.
Definition flows {A} (xs : list PendingSend) (bs : list Bytes) (c : M ECtx A) : Prop :=
  forall s, wp True c (fun _ s' => Flow xs bs (pipe (entry s)) s s') s.

Lemma calm_flows {A} xs bs (c : M ECtx A) : calm c -> flows xs bs c.
Proof. intros Hc s. eapply wp_mono; [apply Hc|]. intros a s'. apply Calm_Flow. Qed.

Lemma calm_ret {A} (a : A) : calm (mret a).
Proof. intros s. wp_steps. reflexivity. Qed.
Lemma calm_gets {A} (f : ECtx -> A) : calm (gets f).
Proof. intros s. wp_steps. reflexivity. Qed.
Lemma calm_bind {A B} (c : M ECtx A) (f : A -> M ECtx B) :
  calm c -> (forall a, calm (f a)) -> calm (c ≫= f).
Proof.
  intros Hc Hf s. wp_steps. eapply wp_mono; [apply Hc|]. intros a s1 H1.
  eapply wp_mono; [apply Hf|]. intros b s2 H2. exact (transitivity (R := Calm) H1 H2).
Qed.
Lemma calm_expect {A} (o : option A) : calm (expect o).
Proof. intros s. rewrite wp_expect. destruct o; [reflexivity|done]. Qed.
Lemma calm_when b c : calm c -> calm (when b c).
Proof. intros Hc. destruct b; [exact Hc|apply calm_ret]. Qed.
Lemma calm_push a : calm (push a).
Proof. intros s. unfold push. wp_steps. by split; auto. Qed.
Lemma calm_extend l : calm (extend l).
Proof. intros s. unfold extend. wp_steps. by split; auto. Qed.
Lemma calm_upd f :
  (forall e, pending_sends (f e) `sublist_of` pending_sends e /\
     rx_backlog (f e) `sublist_of` rx_backlog e /\ (pipe (f e) = pipe e \/ pipe (f e) = None)) ->
  calm (upd_entry f).
Proof. intros Hf s. unfold upd_entry. wp_steps. destruct (Hf (entry s)) as (? & ? & ?). by split. Qed.
Lemma calm_next v : calm (modify (fun s => mkECtx v (e_actions s) (e_env s) (entry s))).
Proof. intros s. wp_steps. by split; auto. Qed.

Lemma flows_bind_l {A B} xs bs (c : M ECtx A) (f : A -> M ECtx B) :
  calm c -> (forall a, flows xs bs (f a)) -> flows xs bs (c ≫= f).
Proof.
  intros Hc Hf s. wp_steps. eapply wp_mono; [apply Hc|]. intros a s1 H1.
  eapply wp_mono; [apply Hf|]. intros b s2 H2. exact (Calm_then_Flow _ _ _ _ _ H1 H2).
Qed.
Lemma flows_bind_r {A B} xs bs (c : M ECtx A) (f : A -> M ECtx B) :
  flows xs bs c -> (forall a, calm (f a)) -> flows xs bs (c ≫= f).
Proof.
  intros Hc Hf s. wp_steps. eapply wp_mono; [apply Hc|]. intros a s1 H1.
  eapply wp_mono; [apply Hf|]. intros b s2 H2. exact (Flow_Calm _ _ _ _ _ _ H1 H2).
Qed.
End EntryFlow.

Create HintDb calm.
#[export] Hint Resolve calm_ret calm_gets calm_expect calm_push calm_extend calm_next : calm.

(** A field update that leaves the queues alone, clears one, or drops the pipe. *)
Ltac calm_upd :=
  apply calm_upd; intros ?; split_and!; cbn;
  repeat case_match; first [done | apply sublist_nil_l | by left | by right | by apply sublist_drop].
Ltac calm_step :=
  match goal with
  | |- calm (_ ≫= _) => apply calm_bind; [|intros ?]
  | |- calm (upd_entry _) => calm_upd
  | |- calm (when _ _) => apply calm_when
  | |- calm (match ?x with _ => _ end) => destruct x
  | |- calm (let '_ := ?x in _) => destruct x
  end.
Ltac calm_run := repeat first [solve [eauto with calm] | calm_step].

Section Programs.
Context {HI : HashIter} {MP : Mpsc}.

Lemma calm_abandon : calm abandon_outstanding.
Proof. unfold abandon_outstanding. calm_run. Qed.
Lemma calm_bump_tx_gen : calm bump_tx_gen.
Proof. unfold bump_tx_gen. calm_run. Qed.
Lemma calm_bump_upgrade_gen : calm bump_upgrade_gen.
Proof. unfold bump_upgrade_gen. calm_run. Qed.
Lemma calm_bump_failures : calm bump_consecutive_failures.
Proof. unfold bump_consecutive_failures. calm_run. Qed.
End Programs.

#[export] Hint Resolve calm_abandon calm_bump_tx_gen calm_bump_upgrade_gen calm_bump_failures : calm.

Section Programs2.
Context {HI : HashIter} {MP : Mpsc}.

Lemma calm_begin_connect now n : calm (begin_connect now n).
Proof. unfold begin_connect. calm_run. Qed.
Lemma calm_clear : calm clear_connection_state.
Proof. unfold clear_connection_state. calm_run. Qed.
Lemma calm_drain_pending k : calm (drain_pending k).
Proof. unfold drain_pending. calm_run. Qed.
Lemma calm_start_pipe d g ro pa ch : calm (push_start_data_pipe d g ro pa ch).
Proof. unfold push_start_data_pipe. calm_run. Qed.
Lemma calm_upgrade d : calm (start_l2cap_upgrade d).
Proof. unfold start_l2cap_upgrade. calm_run. Qed.
Lemma calm_close d lid ch re : calm (push_close d lid ch re).
Proof. unfold push_close. calm_run. Qed.
Lemma calm_refresh d lid re : calm (push_refresh d lid re).
Proof. unfold push_refresh. calm_run. Qed.
Lemma calm_to_dead re now : calm (to_dead re now).
Proof. unfold to_dead. calm_run. Qed.
Lemma calm_fail_attempt now n re : calm (fail_attempt now n re).
Proof. unfold fail_attempt. calm_run. Qed.
End Programs2.

#[export] Hint Resolve calm_begin_connect calm_clear calm_drain_pending calm_start_pipe
  calm_upgrade calm_close calm_refresh calm_to_dead calm_fail_attempt : calm.

Section Programs3.
Context {HI : HashIter} {MP : Mpsc}.

Lemma calm_arm now p : calm (arm_for_dial now p).
Proof. unfold arm_for_dial. calm_run. Qed.
Lemma calm_drain now wall re : calm (drain_to_draining now wall re).
Proof. unfold drain_to_draining. calm_run. Qed.
Lemma calm_restart now d u : calm (restart_peripheral_gatt_pipe now d None u).
Proof. unfold restart_peripheral_gatt_pipe. calm_run. Qed.
End Programs3.

#[export] Hint Resolve calm_arm calm_drain calm_restart : calm.

(** The entry programs that move no data. *)
Section QuietEntries.
Context {HI : HashIter} {MP : Mpsc}.

Lemma calm_resume now : calm (resume_drained_entry now).
Proof. unfold resume_drained_entry. calm_run. Qed.
Lemma calm_advertised now p b : calm (advertised_entry now p b).
Proof. unfold advertised_entry. calm_run. Qed.
Lemma calm_connect_succeeded now d lid ch pol me v n :
  calm (connect_succeeded_entry now d lid ch pol me v n).
Proof. unfold connect_succeeded_entry. calm_run. Qed.
Lemma calm_connect_failed now d lid err : calm (connect_failed_entry now d lid err).
Proof. unfold connect_failed_entry. calm_run. Qed.
Lemma calm_power_off now : calm (power_off_entry now).
Proof. unfold power_off_entry. calm_run. Qed.
Lemma calm_forget now d : calm (forget_entry now d).
Proof. unfold forget_entry. calm_run. Qed.
Lemma calm_stalled now wall d c : calm (stalled_entry now wall d c).
Proof. unfold stalled_entry. calm_run. Qed.
Lemma calm_l2cap_succeeded now d lid ug ch : calm (open_l2cap_succeeded_entry now d lid ug ch).
Proof. unfold open_l2cap_succeeded_entry. calm_run. Qed.
Lemma calm_l2cap_failed now d lid ug err : calm (open_l2cap_failed_entry now d lid ug err).
Proof. unfold open_l2cap_failed_entry. calm_run. Qed.
Lemma calm_l2cap_vacant now d ch : calm (inbound_l2cap_vacant now d ch).
Proof. unfold inbound_l2cap_vacant. calm_run. Qed.
Lemma calm_l2cap_occupied now d ch : calm (inbound_l2cap_occupied now d ch).
Proof. unfold inbound_l2cap_occupied. calm_run. Qed.
Lemma calm_mismatch now wall d lid g w : calm (protocol_version_mismatch_entry now wall d lid g w).
Proof. unfold protocol_version_mismatch_entry. calm_run. Qed.
End QuietEntries.

#[export] Hint Resolve calm_resume calm_advertised calm_connect_succeeded calm_connect_failed
  calm_power_off calm_forget calm_stalled calm_l2cap_succeeded calm_l2cap_failed calm_l2cap_vacant
  calm_l2cap_occupied calm_mismatch : calm.

Section QuietEntries2.
Context {HI : HashIter} {MP : Mpsc}.

Lemma calm_central_disconnected now wall d c : calm (central_disconnected_entry now wall d c).
Proof. unfold central_disconnected_entry. calm_run. Qed.
Lemma calm_tick now wall d a : calm (tick_entry now wall d a).
Proof. unfold tick_entry. calm_run. Qed.
End QuietEntries2.

#[export] Hint Resolve calm_central_disconnected calm_tick : calm.

(** The entry programs that take data in. *)
Section DataEntries.
Context {HI : HashIter} {MP : Mpsc}.

Lemma flows_push_back x : flows [x] [] (push_back x).
Proof.
  intros s. unfold push_back, upd_entry. wp_steps. exists [], []. cbn.
  split; [apply Puts_nil|]. rewrite app_nil_r. auto.
Qed.
Lemma flows_push_backlog b : flows [] [b] (push_backlog b).
Proof.
  intros s. unfold push_backlog, upd_entry. wp_steps. exists [], []. cbn.
  split; [apply Puts_nil|]. rewrite app_nil_r. split_and!; auto. apply sublist_nil_l.
Qed.
Lemma flows_deliver h b s :
  pipe (entry s) = Some h -> wp True (deliver h b) (fun _ s' => Flow [] [b] (pipe (entry s)) s s') s.
Proof.
  intros Hp. unfold deliver. esteps. pose proof (in_try_send_puts h b (e_env s)) as Hs. rewrite Hp.
  destruct (in_try_send _ _ _) as [[|y|y] en']; [exists [], [b]|exists [], []..]; cbn;
    rewrite Hp, app_nil_r; split_and!; auto using sublist_nil_l; by apply sublist_inserts_r.
Qed.

Lemma flows_enqueue g dg w : flows [mkPendingSend g dg w] [] (enqueue_send g dg w).
Proof.
  intros s. unfold enqueue_send, push_back. esteps. destruct (pipe (entry s)) as [h|] eqn:Hp.
  2: { esteps. rewrite Hp. esteps. exists [], []. cbn. rewrite app_nil_r.
       split_and!; auto. apply Puts_nil. }
  destruct (pending_sends (entry s)) as [|q qs] eqn:Eq.
  - esteps. rewrite Hp. esteps.
    pose proof (out_try_send_puts h (mkPendingSend g dg w) (e_env s)) as Hs.
    destruct (out_try_send _ _ _) as [[|y|y] en']; esteps; unfold Flow; cbn; rewrite Eq, ?app_nil_r.
    + exists [mkPendingSend g dg w], []. split_and!; auto.
    + exists [], []. destruct Hs as [-> Hs]. split_and!; auto. apply sublist_nil_l.
    + exists [], []. destruct Hs as [-> Hs]. split_and!; auto.
  - esteps. pose proof (flush_pending_puts h (q :: qs) (e_env s)) as Hf.
    pose proof (flush_pending_spec (outbound_tx h) (q :: qs) (e_env s)) as Hf'.
    destruct (flush_pending _ _ _) as [[rest closed] en1].
    destruct Hf as (xs & Hxs & Hpu), Hf' as (_ & Hfull & _).
    esteps. destruct closed; esteps.
    + exists xs, []. cbn. rewrite Eq, Hxs, <- app_assoc, app_nil_r. split_and!; auto.
    + rewrite Hp. esteps. pose proof (out_try_send_puts h (mkPendingSend g dg w) en1) as Hs.
      destruct (out_try_send _ _ _) as [[|y|y] en'] eqn:Eo; esteps; unfold Flow; cbn;
        rewrite Eq, Hxs, ?app_nil_r.
      * exists (xs ++ [mkPendingSend g dg w]), []. destruct rest as [|r rest].
        { rewrite !app_nil_r. split_and!; auto. exact (Puts_trans _ _ _ _ _ _ _ _ Hpu Hs). }
        specialize (Hfull ltac:(done) eq_refl (mkPendingSend g dg w)). by rewrite Eo in Hfull.
      * exists xs, []. destruct Hs as [-> Hs]. split_and!; auto.
        { pose proof (Puts_trans _ _ _ _ _ _ _ _ Hpu Hs) as Ht. by rewrite app_nil_r in Ht. }
        by apply sublist_inserts_r.
      * exists xs, []. destruct Hs as [-> Hs]. rewrite <- app_assoc. split_and!; auto.
        pose proof (Puts_trans _ _ _ _ _ _ _ _ Hpu Hs) as Ht. by rewrite app_nil_r in Ht.
Qed.
End DataEntries.

#[export] Hint Resolve flows_push_back flows_push_backlog flows_enqueue calm_flows : calm.

(** One of the calls of a program moves the data, the others are calm. *)
Ltac flow_step :=
  match goal with
  | |- flows _ _ (_ ≫= _) =>
      first [apply flows_bind_l; [solve [calm_run]|intros ?]
            |apply flows_bind_r; [|intros ?; solve [calm_run]]]
  | |- flows _ _ (match ?x with _ => _ end) => destruct x
  end.
Ltac flow_run := repeat first [solve [eauto with calm] | solve [apply calm_flows; calm_run] | flow_step].

Section DataEntries2.
Context {HI : HashIter} {MP : Mpsc}.

Lemma flows_send now t g dg w :
  flows [mkPendingSend g dg w] [] (send_datagram_entry now t g dg w).
Proof. unfold send_datagram_entry. flow_run. Qed.

Lemma flows_restart now d b u : flows [] [b] (restart_peripheral_gatt_pipe now d (Some b) u).
Proof. unfold restart_peripheral_gatt_pipe. fold (push_backlog b). flow_run. Qed.

Lemma flows_vacant now d b : flows [] [b] (inbound_fragment_vacant now d b).
Proof. unfold inbound_fragment_vacant. flow_run. Qed.

Lemma flows_rebuild now d src b : flows [] [b] (inbound_fragment_rebuild now d src b).
Proof. unfold inbound_fragment_rebuild. flow_run. Qed.
End DataEntries2.

#[export] Hint Resolve flows_send flows_restart flows_vacant flows_rebuild : calm.

(** What does not depend on the state it starts from. *)
Ltac flow_at :=
  match goal with
  | |- wp True ?c (fun _ s' => Flow ?xs ?bs _ _ s') _ =>
      let Hf := fresh in enough (flows xs bs c) as Hf by apply Hf
  end.

Section DataEntries3.
Context {HI : HashIter} {MP : Mpsc}.

Lemma flows_at_entry {A} xs bs (f : PeerEntry -> M ECtx A) :
  (forall s, wp True (f (entry s)) (fun _ s' => Flow xs bs (pipe (entry s)) s s') s) ->
  flows xs bs (e ← gets entry; f e).
Proof. intros Hf s. wp_steps. apply Hf. Qed.

Lemma flows_occupied now d src b : flows [] [b] (inbound_fragment_occupied now d src b).
Proof.
  unfold inbound_fragment_occupied. apply flows_bind_l; [calm_run|intros _]. apply flows_at_entry.
  intros s. generalize (phase (entry s)) as ph. intros ph.
  enough (forall ch : ChannelHandle, wp True
    match pipe (entry s) with
    | Some pipe => deliver pipe b
    | None => if bool_decide (ch_path ch = ConnectPath.L2cap)
        && bool_decide (role (entry s) = ConnectRole.Peripheral)
        && bool_decide (src = FragmentSource.PeripheralReceivedC2p)
        then restart_peripheral_gatt_pipe now d (Some b) None
        else upd_entry (fun e => set_rx_backlog (if (RX_BACKLOG_CAP <=? length (rx_backlog e))%nat
               then drop 1 (rx_backlog e) else rx_backlog e) e);; push_backlog b
    end (fun _ s' => Flow [] [b] (pipe (entry s)) s s') s) as Hc.
  { destruct ph; cbn zeta; try apply Hc; flow_at; flow_run. }
  intros ch. destruct (pipe (entry s)) as [h|] eqn:Hp.
  - rewrite <- Hp. by apply flows_deliver.
  - rewrite <- Hp. flow_at. flow_run.
Qed.

(** A pipe is announced: the backlog and the pending sends are flushed to it. *)
Definition Ready (h : PipeHandles) (s s' : ECtx) : Prop :=
  exists xs bs, Puts (Some h) xs bs (e_env s) (e_env s') /\
    xs ++ pending_sends (entry s') `sublist_of` pending_sends (entry s) /\
    bs ++ rx_backlog (entry s') `sublist_of` rx_backlog (entry s) /\
    (pipe (entry s') = pipe (entry s) \/ pipe (entry s') = Some h).

Lemma data_pipe_ready_flow g h s :
  wp True (data_pipe_ready_entry g h) (fun _ s' => Ready h s s') s.
Proof.
  unfold data_pipe_ready_entry. esteps. destruct (negb _); esteps.
  { exists [], []. split; [apply Puts_nil|]. auto. }
  pose proof (flush_backlog_puts h (rx_backlog (entry s)) (e_env s)) as Hb.
  destruct (flush_backlog _ _ _) as [backlog en1]. destruct Hb as (bs & Hb & Hp1).
  pose proof (flush_pending_puts h (pending_sends (entry s)) en1) as Hs.
  destruct (flush_pending _ _ _) as [[pending closed] en2]. destruct Hs as (xs & Hs & Hp2).
  esteps. exists xs, bs. cbn. rewrite <- Hs. split_and!; auto.
  pose proof (Puts_trans _ _ _ _ _ _ _ _ Hp1 Hp2) as Ht. by rewrite app_nil_r in Ht.
Qed.
End DataEntries3.

#[export] Hint Resolve flows_occupied : calm.

(** ** One pipe of one device *)

Section Tracked.
Context {HI : HashIter} {MP : Mpsc}.
Context (D : DeviceId) (ho : OutboundTx) (hi : InboundTx).

(** What waits for the pipe in the registry: the pending sends, and the backlog
    until the pipe is announced. *)
Definition pend (r : Registry) : list PendingSend := from_option pending_sends [] (peers r !! D).
Definition back (ann : bool) (r : Registry) : list Bytes :=
  if ann then [] else from_option rx_backlog [] (peers r !! D).

(** The pipe belongs to [D], once announced. *)
Definition owned (ann : bool) (d : DeviceId) (o : option PipeHandles) : Prop :=
  forall h, o = Some h -> outbound_tx h = ho \/ inbound_tx h = hi -> d = D /\ ann = true.
Definition Own (ann : bool) (r : Registry) : Prop :=
  forall d e, peers r !! d = Some e -> owned ann d (pipe e).

Definition RegFlow (ann ann' : bool) (xs : list PendingSend) (bs : list Bytes) (s s' : Ctx)
    : Prop :=
  exists xs' bs',
    out_items ho (env s') = out_items ho (env s) ++ xs' /\
    in_items hi (env s') = in_items hi (env s) ++ bs' /\
    xs' ++ pend (reg s') `sublist_of` pend (reg s) ++ xs /\
    bs' ++ back ann' (reg s') `sublist_of` back ann (reg s) ++ bs.

Lemma RegFlow_trans ann1 ann2 ann3 xs bs xs' bs' s1 s2 s3 :
  RegFlow ann1 ann2 xs bs s1 s2 -> RegFlow ann2 ann3 xs' bs' s2 s3 ->
  RegFlow ann1 ann3 (xs ++ xs') (bs ++ bs') s1 s3.
Proof.
  intros (x1 & b1 & Eo & Ei & Hx & Hb) (x2 & b2 & Eo' & Ei' & Hx' & Hb').
  exists (x1 ++ x2), (b1 ++ b2). rewrite Eo', Ei', Eo, Ei, <- !app_assoc. split_and!; [done..| |].
  - etrans; [by apply sublist_app; [|exact Hx']|]. rewrite !app_assoc. by apply sublist_app.
  - etrans; [by apply sublist_app; [|exact Hb']|]. rewrite !app_assoc. by apply sublist_app.
Qed.

(** A registry program that takes [xs] and [bs] in for [D]. *)
Definition rflows {A} (ann : bool) (xs : list PendingSend) (bs : list Bytes) (c : M Ctx A) : Prop :=
  forall s, Own ann (reg s) ->
    wp True c (fun _ s' => Own ann (reg s') /\ RegFlow ann ann xs bs s s') s.

Lemma RegFlow_refl ann s : RegFlow ann ann [] [] s s.
Proof. exists [], []. by rewrite !app_nil_r. Qed.

Lemma rflows_bind {A B} ann xs bs xs' bs' (c : M Ctx A) (f : A -> M Ctx B) :
  rflows ann xs bs c -> (forall a, rflows ann xs' bs' (f a)) ->
  rflows ann (xs ++ xs') (bs ++ bs') (c ≫= f).
Proof.
  intros Hc Hf s Hs. wp_steps. eapply wp_mono; [by apply Hc|]. intros a s1 [H1 F1].
  eapply wp_mono; [by apply Hf|]. intros b s2 [H2 F2]. split; [done|]. by eapply RegFlow_trans.
Qed.
Lemma rflows_bind_r {A B} ann xs bs (c : M Ctx A) (f : A -> M Ctx B) :
  rflows ann [] [] c -> (forall a, rflows ann xs bs (f a)) -> rflows ann xs bs (c ≫= f).
Proof. apply (rflows_bind ann [] []). Qed.
Lemma rflows_bind_l {A B} ann xs bs (c : M Ctx A) (f : A -> M Ctx B) :
  rflows ann xs bs c -> (forall a, rflows ann [] [] (f a)) -> rflows ann xs bs (c ≫= f).
Proof.
  rewrite <- (app_nil_r xs) at 2. rewrite <- (app_nil_r bs) at 2. apply rflows_bind.
Qed.

Lemma rflows_ret {A} ann (a : A) : rflows ann [] [] (mret a).
Proof. intros s Hs. wp_steps. split; [done|apply RegFlow_refl]. Qed.
Lemma rflows_gets {A} ann (f : Ctx -> A) : rflows ann [] [] (gets f).
Proof. intros s Hs. wp_steps. split; [done|apply RegFlow_refl]. Qed.
Lemma rflows_when ann b (c : M Ctx unit) : rflows ann [] [] c -> rflows ann [] [] (when b c).
Proof. destruct b; [done|]. intros _. apply rflows_ret. Qed.
Lemma rflows_for_each {A} ann (l : list A) (f : A -> M Ctx unit) :
  (forall x, rflows ann [] [] (f x)) -> rflows ann [] [] (for_each l f).
Proof.
  intros Hf s0 Hs. refine (wp_for_each True l f
    (fun s => Own ann (reg s) /\ RegFlow ann ann [] [] s0 s) s0 _ _).
  - split; [done|apply RegFlow_refl].
  - intros x s _ [Ho Hfl]. eapply wp_mono; [by apply Hf|]. intros _ s' [Ho' Hfl'].
    split; [done|]. exact (RegFlow_trans _ _ _ _ _ _ _ _ _ _ Hfl Hfl').
Qed.

(** Registry updates that leave the queues and the pipes alone. *)
Lemma rflows_upd_reg ann f :
  (forall r d e, peers (f r) !! d = Some e -> exists e', peers r !! d = Some e' /\
     pipe e = pipe e' /\ pending_sends e = pending_sends e' /\ rx_backlog e = rx_backlog e') ->
  rflows ann [] [] (upd_reg f).
Proof.
  intros Hf s Hs. unfold upd_reg. wp_steps. split.
  - intros d e He h Hh Hu. apply Hf in He as (e' & He' & Hp & _). rewrite Hp in Hh.
    exact (Hs d e' He' h Hh Hu).
  - exists [], []. cbn. unfold pend, back. rewrite !app_nil_r.
    destruct (peers (f (reg s)) !! D) as [e|] eqn:E; cbn.
    + apply Hf in E as (e' & -> & _ & -> & ->). auto.
    + destruct ann; auto using sublist_nil_l.
Qed.

Lemma rflows_push_action ann a : rflows ann [] [] (push_action a).
Proof.
  intros s Hs. unfold push_action. wp_steps. split; [done|].
  exists [], []. by rewrite !app_nil_r.
Qed.

(** Channels of a pipe that is not the one followed. *)
Lemma Puts_owned ann d h xs bs en en' :
  owned ann d h -> Puts h xs bs en en' ->
  exists xs' bs', out_items ho en' = out_items ho en ++ xs' /\
    in_items hi en' = in_items hi en ++ bs' /\
    (xs' = [] \/ xs' = xs /\ d = D /\ ann = true) /\ (bs' = [] \/ bs' = bs /\ d = D /\ ann = true).
Proof.
  intros Ho [Eo Ei]. rewrite (Eo ho), (Ei hi). do 2 eexists. split; [reflexivity|].
  split; [reflexivity|]. split; case_bool_decide as E; auto; right; split; auto;
    destruct h as [h|]; simplify_eq/=; eauto.
Qed.

(** A program on the entry of [d]. *)
Definition only {A} (d : DeviceId) (l : list A) : list A := if bool_decide (d = D) then l else [].

Lemma run_entry_flows {A} ann xs bs d e (c : M ECtx A) s :
  Own ann (reg s) -> owned ann d (pipe e) ->
  (d = D -> pending_sends e = pend (reg s) /\
     rx_backlog e = from_option rx_backlog [] (peers (reg s) !! D)) ->
  flows xs bs c ->
  wp True (run_entry d e c)
    (fun _ s' => Own ann (reg s') /\ RegFlow ann ann (only d xs) (only d bs) s s') s.
Proof.
  intros Hs He Hq Hc. specialize (Hc (mkECtx (next_lifecycle (reg s)) (actions s) (env s) e)).
  unfold wp, run_entry in *. destruct (c _) as [[a s']|]; [|done].
  destruct Hc as (xs1 & bs1 & Hp & Hx & Hb & Hf & Hpi). cbn in Hp, Hx, Hb, Hf, Hpi. split.
  { intros d' e'. cbn. intros [[<- <-]|[_ He']]%lookup_insert_Some h Hh Hu; [|by eapply Hs].
    destruct Hpi as [Hpi|Hpi]; [|congruence]. apply (He h); congruence. }
  destruct (Puts_owned _ _ _ _ _ _ _ He Hp) as (xs' & bs' & Eo & Ei & Hxs & Hbs).
  exists xs', bs'. cbn. split_and!; [done..| |]; unfold only, pend, back in *; cbn.
  - case_bool_decide as Ed.
    + subst d. rewrite lookup_insert_eq. cbn. destruct (Hq eq_refl) as [<- _]. etrans; [|exact Hx].
      destruct Hxs as [-> |[-> _]]; [by apply sublist_inserts_l|done].
    + rewrite lookup_insert_ne by done. destruct Hxs as [-> |[_ [? _]]]; [|done].
      by rewrite app_nil_r.
  - case_bool_decide as Ed.
    + subst d. rewrite lookup_insert_eq. cbn. destruct (Hq eq_refl) as [_ <-].
      destruct ann; [rewrite app_nil_r|].
      * destruct Hbs as [-> |[-> _]]; [apply sublist_nil_l|done].
      * by destruct Hbs as [-> |[_ [_ ?]]].
    + rewrite lookup_insert_ne by done. destruct Hbs as [-> |[_ [? _]]]; [|done].
      by rewrite app_nil_r.
Qed.

Lemma tracked_entry ann d e s :
  Own ann (reg s) -> peers (reg s) !! d = Some e ->
  owned ann d (pipe e) /\ (d = D -> pending_sends e = pend (reg s) /\
    rx_backlog e = from_option rx_backlog [] (peers (reg s) !! D)).
Proof. intros Hs He. split; [by eapply Hs|]. intros ->. unfold pend. by rewrite He. Qed.

Lemma rflows_with_entry {A} ann xs bs d (c : M ECtx A) :
  flows xs bs c -> rflows ann (only d xs) (only d bs) (with_entry d c).
Proof.
  intros Hc s Hs. unfold with_entry. wp_steps.
  destruct (peers (reg s) !! d) as [e|] eqn:E; wp_steps.
  - destruct (tracked_entry _ _ _ _ Hs E) as [Ho Hq]. by apply run_entry_flows.
  - split; [done|]. exists [], []. rewrite !app_nil_r. split_and!; auto; by apply sublist_inserts_r.
Qed.

Lemma rflows_expect_entry {A} ann d (c : M ECtx A) :
  calm c -> rflows ann [] [] (expect_entry d c).
Proof.
  intros Hc s Hs. unfold expect_entry. wp_steps.
  destruct (peers (reg s) !! d) as [e|] eqn:E; [|done].
  destruct (tracked_entry _ _ _ _ Hs E) as [Ho Hq].
  pose proof (run_entry_flows ann [] [] d e c s Hs Ho Hq (calm_flows [] [] c Hc)) as Hr.
  unfold only in Hr. by destruct (bool_decide _).
Qed.

Lemma rflows_or_insert_entry {A} ann xs bs d (c : M ECtx A) :
  flows xs bs c -> rflows ann (only d xs) (only d bs) (or_insert_entry d c).
Proof.
  intros Hc s Hs. unfold or_insert_entry, new_entry. wp_steps.
  destruct (peers (reg s) !! d) as [e|] eqn:E; wp_steps.
  - destruct (tracked_entry _ _ _ _ Hs E) as [Ho Hq]. by apply run_entry_flows.
  - destruct (checked_add _ _ _) as [n|]; [|done]. unfold upd_reg. wp_steps.
    set (s1 := mkCtx _ _ _). change (RegFlow ann ann ?a ?b s) with (RegFlow ann ann a b s1).
    apply (run_entry_flows ann xs bs); [done|by intros h|intros ->; unfold pend; cbn; by rewrite E|done].
Qed.

Lemma rcalm_with_entry {A} ann d (c : M ECtx A) : calm c -> rflows ann [] [] (with_entry d c).
Proof.
  intros Hc%(calm_flows [] []). apply (rflows_with_entry ann [] [] d) in Hc.
  unfold only in Hc. by destruct (bool_decide _).
Qed.
Lemma rcalm_or_insert_entry {A} ann d (c : M ECtx A) :
  calm c -> rflows ann [] [] (or_insert_entry d c).
Proof.
  intros Hc%(calm_flows [] []). apply (rflows_or_insert_entry ann [] [] d) in Hc.
  unfold only in Hc. by destruct (bool_decide _).
Qed.
Lemma rcalm_for_each_entry ann c : calm c -> rflows ann [] [] (for_each_entry c).
Proof.
  intros Hc. apply rflows_bind_r; [apply rflows_gets|]. intros r. apply rflows_for_each. intros d.
  apply rflows_bind_r; [by apply rcalm_with_entry|]. intros _. apply rflows_ret.
Qed.

Lemma rcalm_map_peers ann f :
  (forall e, pipe (f e) = pipe e /\ pending_sends (f e) = pending_sends e /\
     rx_backlog (f e) = rx_backlog e) ->
  rflows ann [] [] (upd_reg (fun r => set_peers (f <$> peers r) r)).
Proof.
  intros Hf. apply rflows_upd_reg. intros r d e. cbn. rewrite lookup_fmap_Some.
  intros (e' & <- & He'). exists e'. split; [done|apply Hf].
Qed.
Lemma rcalm_filter_peers ann (P : DeviceId * PeerEntry -> Prop) `{forall x, Decision (P x)} :
  rflows ann [] [] (upd_reg (fun r => set_peers (filter P (peers r)) r)).
Proof.
  apply rflows_upd_reg. intros r d e [He _]%map_lookup_filter_Some. by exists e.
Qed.
Lemma rcalm_same_peers ann f :
  (forall r, peers (f r) = peers r) -> rflows ann [] [] (upd_reg f).
Proof. intros Hf. apply rflows_upd_reg. intros r d e. rewrite Hf. intros He. by exists e. Qed.
End Tracked.

#[export] Hint Resolve rflows_ret rflows_gets rflows_when rcalm_with_entry rcalm_or_insert_entry
  rcalm_for_each_entry rcalm_filter_peers rflows_push_action rflows_expect_entry : calm.
#[export] Hint Extern 1 (rflows _ _ _ _ _ _ (upd_reg _)) => apply rcalm_same_peers; done : calm.

(** Decompose a handler into its calls, none of which takes data in. *)
Ltac rcalm_step :=
  match goal with
  | |- rflows _ _ _ _ [] [] (_ ≫= _) => apply rflows_bind_r; [|intros ?]
  | |- rflows _ _ _ _ [] [] (for_each _ _) => apply rflows_for_each; intros ?
  | |- rflows _ _ _ _ [] [] (when _ _) => apply rflows_when
  | |- rflows _ _ _ _ [] [] (match ?x with _ => _ end) => destruct x
  end.
Ltac rcalm_run := repeat first [solve [eauto with calm] | rcalm_step].

Section HandlersCalm.
Context {HI : HashIter} {MP : Mpsc}.
Context (D : DeviceId) (ho : OutboundTx) (hi : InboundTx) (ann : bool).

Lemma rcalm_prune : rflows D ho hi ann [] [] prune_verified_prefixes.
Proof. unfold prune_verified_prefixes. rcalm_run. Qed.
End HandlersCalm.

#[export] Hint Resolve rcalm_prune : calm.

Section Handlers.
Context {HI : HashIter} {MP : Mpsc}.
Context (D : DeviceId) (ho : OutboundTx) (hi : InboundTx) (ann : bool).

Local Abbreviation rcalm := (rflows D ho hi ann [] []).

Lemma rcalm_verified now wall ep exact : rcalm (handle_verified_endpoint now wall ep exact).
Proof.
  unfold handle_verified_endpoint. cbn zeta. rcalm_run.
  - apply rcalm_with_entry. calm_run.
  - apply rcalm_map_peers. intros e. by destruct (prefix_is _ e).
Qed.

Lemma rcalm_advertised now p d rssi : rcalm (handle_advertised now p d rssi).
Proof. unfold handle_advertised. cbn zeta. rcalm_run. apply rcalm_with_entry. calm_run. Qed.

Lemma rcalm_subscribed now d u p : rcalm (handle_peripheral_client_subscribed now d u p).
Proof.
  unfold handle_peripheral_client_subscribed. cbn zeta. rcalm_run.
  apply rcalm_or_insert_entry. calm_run.
Qed.

Lemma rcalm_unsubscribed now wall d u : rcalm (handle_peripheral_client_unsubscribed now wall d u).
Proof.
  unfold handle_peripheral_client_unsubscribed. rcalm_run. apply rcalm_with_entry. calm_run.
Qed.

Lemma rcalm_handover d : rcalm (handle_l2cap_handover_timeout d).
Proof. unfold handle_l2cap_handover_timeout. rcalm_run. apply rcalm_with_entry. calm_run. Qed.

Lemma rcalm_adapter now b : rcalm (handle_adapter_state_changed now b).
Proof.
  unfold handle_adapter_state_changed. rcalm_run. apply rcalm_map_peers. intros e.
  unfold power_on_entry. by destruct (PeerPhase.is_restoring _).
Qed.

Lemma rcalm_tick now wall : rcalm (handle_tick now wall).
Proof. unfold handle_tick. cbn zeta. rcalm_run. Qed.

(** The data a command brings for [D]. *)
Definition asked (cmd : PeerCommand.t) : list PendingSend :=
  match cmd with
  | PeerCommand.SendDatagram d _ g dg w => only D d [mkPendingSend g dg w]
  | _ => []
  end.
Definition arrived (cmd : PeerCommand.t) : list Bytes :=
  match cmd with PeerCommand.InboundGattFragment d _ bytes => only D d [bytes] | _ => [] end.

(** The command does not announce the pipe. *)
Definition no_announce (cmd : PeerCommand.t) : Prop :=
  match cmd with PeerCommand.DataPipeReady _ _ otx itx _ _ => otx <> ho /\ itx <> hi | _ => True end.

Lemma rflows_fragment now d src b :
  rflows D ho hi ann [] (only D d [b]) (handle_inbound_gatt_fragment now d src b).
Proof.
  unfold handle_inbound_gatt_fragment. apply rflows_bind_r; [apply rflows_gets|]. intros r.
  assert (only D d (A := PendingSend) [] = []) as E by (unfold only; by destruct (bool_decide _)).
  rewrite <- E. destruct (peers r !! d).
  - apply rflows_bind_l; [apply rflows_with_entry; eauto with calm|]. intros _. apply rflows_ret.
  - apply rflows_or_insert_entry. eauto with calm.
Qed.

Lemma rflows_send_datagram now d t g dg w :
  rflows D ho hi ann (only D d [mkPendingSend g dg w]) [] (handle_send_datagram now d t g dg w).
Proof.
  assert (only D d (A := Bytes) [] = []) as E by (unfold only; by destruct (bool_decide _)).
  rewrite <- E. apply rflows_or_insert_entry. eauto with calm.
Qed.
End Handlers.

Section Announce.
Context {HI : HashIter} {MP : Mpsc}.
Context (D : DeviceId) (ho : OutboundTx) (hi : InboundTx).

Lemma Own_weaken ann r : Own D ho hi ann r -> Own D ho hi true r.
Proof. intros Ho d e He h Hh Hu. by destruct (Ho d e He h Hh Hu). Qed.

(** The pipe is announced for its device, or another one is. *)
Definition announces (d : DeviceId) (h : PipeHandles) (ann ann' : bool) : Prop :=
  (d = D /\ outbound_tx h = ho /\ inbound_tx h = hi /\ ann = false /\ ann' = true) \/
  (outbound_tx h <> ho /\ inbound_tx h <> hi /\ ann' = ann).

Lemma ready_flows ann ann' d g h s :
  Own D ho hi ann (reg s) -> announces d h ann ann' ->
  wp True (handle_data_pipe_ready d g h)
    (fun _ s' => Own D ho hi ann' (reg s') /\ RegFlow D ho hi ann ann' [] [] s s') s.
Proof.
  intros Hs Ha. assert (Own D ho hi ann' (reg s)) as Hs'.
  { destruct Ha as [(_ & _ & _ & _ & ->)|(_ & _ & ->)]; [by eapply Own_weaken|done]. }
  assert (owned D ho hi ann' d (Some h)) as Hh.
  { intros h' [= <-] Hu. destruct Ha as [(-> & _ & _ & _ & ->)|(? & ? & _)]; [done|]. by destruct Hu. }
  unfold handle_data_pipe_ready, with_entry. wp_steps.
  destruct (peers (reg s) !! d) as [e|] eqn:E; wp_steps.
  2: { split; [done|]. exists [], []. rewrite !app_nil_r. split_and!; auto. cbn.
       destruct Ha as [(_ & _ & _ & _ & ->)|(_ & _ & ->)]; [apply sublist_nil_l|done]. }
  pose proof (data_pipe_ready_flow g h (mkECtx (next_lifecycle (reg s)) (actions s) (env s) e)) as Hc.
  unfold wp, run_entry in *. destruct (data_pipe_ready_entry g h _) as [[a s']|]; [|done].
  destruct Hc as (xs1 & bs1 & Hp & Hx & Hb & Hpi). cbn in Hp, Hx, Hb, Hpi. wp_steps. split.
  { intros d' e'. cbn. intros [[<- <-]|[_ He']]%lookup_insert_Some h' Hh' Hu; [|by eapply Hs'].
    destruct Hpi as [Hpi|Hpi]; rewrite Hpi in Hh'; [by eapply (Hs' d e)|by eapply Hh]. }
  destruct (Puts_owned _ _ _ _ _ _ _ _ _ _ Hh Hp) as (xs' & bs' & Eo & Ei & Hxs & Hbs).
  exists xs', bs'. cbn. rewrite !app_nil_r. unfold pend, back. cbn.
  destruct (decide (d = D)) as [->|Hd].
  - rewrite lookup_insert_eq, E. cbn. split_and!; [done..| |].
    + etrans; [|exact Hx]. destruct Hxs as [-> |[-> _]]; [by apply sublist_inserts_l|done].
    + destruct Ha as [(_ & _ & _ & -> & ->)|(Hno & Hni & ->)].
      * rewrite app_nil_r. etrans; [|exact Hb]. apply sublist_inserts_r.
        destruct Hbs as [-> |[-> _]]; [apply sublist_nil_l|done].
      * destruct Hp as [_ Hi]. specialize (Hi hi). rewrite bool_decide_false in Hi by (cbn; congruence).
        rewrite Ei in Hi. apply app_inv_head_iff in Hi. subst bs'.
        destruct ann; [done|]. etrans; [|exact Hb]. by apply sublist_inserts_l.
  - rewrite lookup_insert_ne by done. destruct Hxs as [-> |(_ & ? & _)]; [|done].
    destruct Hbs as [-> |(_ & ? & _)]; [|done]. split_and!; auto.
    by destruct Ha as [(? & _)|(_ & _ & ->)].
Qed.

(** Every command but the announcement. *)
Lemma handle_cmd_flows ann now wall cmd :
  no_announce ho hi cmd ->
  rflows D ho hi ann (asked D cmd) (arrived D cmd) (handle_cmd now wall cmd).
Proof.
  intros Hn. destruct cmd; cbn [handle_cmd asked arrived];
    eauto using rcalm_verified, rcalm_advertised, rcalm_subscribed, rcalm_unsubscribed, rcalm_handover,
      rcalm_adapter, rcalm_tick, rflows_fragment, rflows_send_datagram with calm.
  all: try (unfold handle_central_disconnected, handle_inbound_l2cap_channel, handle_connect_succeeded,
    handle_connect_failed, handle_open_l2cap_succeeded, handle_open_l2cap_failed,
    handle_protocol_version_mismatch, handle_stalled, handle_forget, handle_shutdown;
    rcalm_run; apply rcalm_for_each_entry; calm_run).
  intros s Hs. apply ready_flows; [done|]. right. destruct Hn. auto.
Qed.
End Announce.

(** ** Runs *)

Section Traffic.
Context {HI : HashIter} {MP : Mpsc}.
Context (D : DeviceId) (ho : OutboundTx) (hi : InboundTx).

(** The registry and its store; whether the pipe has been announced; what the
    commands brought for [D], and what the pipe received on its two channels. *)
Record Traffic := mkTraffic {
  tf_reg : Registry;
  tf_env : Env;
  tf_ann : bool;
  tf_asked : list PendingSend;
  tf_arrived : list Bytes;
  tf_out : list PendingSend;
  tf_in : list Bytes;
}.

Definition queued (t : Traffic) : list PendingSend :=
  out_items ho (tf_env t) ++ pend D (tf_reg t).
Definition buffered (t : Traffic) : list Bytes :=
  in_items hi (tf_env t) ++ back D (tf_ann t) (tf_reg t).

(** A command, the driver announcing the pipe, or the other tasks: the pipe
    receives from a channel of its own, or drops what waits there, and anything
    may happen elsewhere in the store. *)
Inductive traffic_step : Traffic -> Traffic -> Prop :=
| tr_handle r en ann xs bs po pi now wall cmd acts r' en' :
    handle now wall cmd r en = Some (acts, r', en') -> no_announce ho hi cmd ->
    traffic_step (mkTraffic r en ann xs bs po pi)
      (mkTraffic r' en' ann (xs ++ asked D cmd) (bs ++ arrived D cmd) po pi)
| tr_verified r en ann xs bs po pi now wall ep exact s' :
    handle_verified_endpoint now wall ep exact (mkCtx r [] en) = Some (tt, s') ->
    traffic_step (mkTraffic r en ann xs bs po pi) (mkTraffic (reg s') (env s') ann xs bs po pi)
| tr_announce r en xs bs po pi now wall g stx clk acts r' en' :
    handle now wall (PeerCommand.DataPipeReady D g ho hi stx clk) r en = Some (acts, r', en') ->
    traffic_step (mkTraffic r en false xs bs po pi) (mkTraffic r' en' true xs bs po pi)
| tr_outbound r en en' ann xs bs po pi x :
    out_items ho en = x :: out_items ho en' -> in_items hi en' = in_items hi en ->
    traffic_step (mkTraffic r en ann xs bs po pi) (mkTraffic r en' ann xs bs (po ++ [x]) pi)
| tr_inbound r en en' ann xs bs po pi b :
    in_items hi en = b :: in_items hi en' -> out_items ho en' = out_items ho en ->
    traffic_step (mkTraffic r en ann xs bs po pi) (mkTraffic r en' ann xs bs po (pi ++ [b]))
| tr_elsewhere r en en' ann xs bs po pi :
    out_items ho en' `sublist_of` out_items ho en -> in_items hi en' `sublist_of` in_items hi en ->
    traffic_step (mkTraffic r en ann xs bs po pi) (mkTraffic r en' ann xs bs po pi).

(** What a registry step does to the queues. *)
Definition Moves (xs : list PendingSend) (bs : list Bytes) (t t' : Traffic) : Prop :=
  Own D ho hi (tf_ann t') (tf_reg t') /\
  queued t' `sublist_of` queued t ++ xs /\ buffered t' `sublist_of` buffered t ++ bs.

Lemma RegFlow_Moves r en ann xs bs xs0 bs0 po pi ann' acts r' acts' en' xs1 bs1 :
  RegFlow D ho hi ann ann' xs bs (mkCtx r acts en) (mkCtx r' acts' en') -> Own D ho hi ann' r' ->
  Moves xs bs (mkTraffic r en ann xs0 bs0 po pi) (mkTraffic r' en' ann' xs1 bs1 po pi).
Proof.
  intros (x & b & Eo & Ei & Hx & Hb) Ho. cbn in Eo, Ei, Hx, Hb. unfold Moves, queued, buffered.
  cbn. rewrite Eo, Ei, <- !app_assoc. split_and!; [done| |]; by apply sublist_app.
Qed.

Lemma handle_moves now wall cmd r en acts r' en' ann xs0 bs0 po pi xs1 bs1 :
  handle now wall cmd r en = Some (acts, r', en') -> no_announce ho hi cmd -> Own D ho hi ann r ->
  Moves (asked D cmd) (arrived D cmd) (mkTraffic r en ann xs0 bs0 po pi)
    (mkTraffic r' en' ann xs1 bs1 po pi).
Proof.
  unfold handle. intros E Hn Ho. apply bind_Some in E as ([[] s'] & E & [= <- <- <-]).
  destruct (wp_run _ _ _ _ _ (handle_cmd_flows D ho hi ann now wall cmd Hn (mkCtx r [] en) Ho) E)
    as [Ho' Hf]. destruct s'. by eapply RegFlow_Moves.
Qed.

Lemma announce_moves now wall g stx clk r en acts r' en' xs0 bs0 po pi xs1 bs1 :
  handle now wall (PeerCommand.DataPipeReady D g ho hi stx clk) r en = Some (acts, r', en') ->
  Own D ho hi false r ->
  Moves [] [] (mkTraffic r en false xs0 bs0 po pi) (mkTraffic r' en' true xs1 bs1 po pi).
Proof.
  unfold handle. intros E Ho. apply bind_Some in E as ([[] s'] & E & [= <- <- <-]).
  assert (announces D ho hi D (mkPipeHandles ho hi stx clk) false true) as Ha by (left; auto).
  destruct (wp_run _ _ _ _ _ (ready_flows D ho hi false true D g _ (mkCtx r [] en) Ho Ha) E)
    as [Ho' Hf]. destruct s'. by eapply RegFlow_Moves.
Qed.

Lemma verified_moves now wall ep exact r en s' ann xs0 bs0 po pi xs1 bs1 :
  handle_verified_endpoint now wall ep exact (mkCtx r [] en) = Some (tt, s') -> Own D ho hi ann r ->
  Moves [] [] (mkTraffic r en ann xs0 bs0 po pi) (mkTraffic (reg s') (env s') ann xs1 bs1 po pi).
Proof.
  intros E Ho.
  destruct (wp_run _ _ _ _ _ (rcalm_verified D ho hi ann now wall ep exact (mkCtx r [] en) Ho) E)
    as [Ho' Hf]. destruct s'. by eapply RegFlow_Moves.
Qed.

(** Any step: what the pipe receives and what waits for it afterwards were
    waiting for it, or are new. *)
Lemma traffic_moves t t' :
  traffic_step t t' -> Own D ho hi (tf_ann t) (tf_reg t) ->
  exists xs bs po pi,
    tf_asked t' = tf_asked t ++ xs /\ tf_arrived t' = tf_arrived t ++ bs /\
    tf_out t' = tf_out t ++ po /\ tf_in t' = tf_in t ++ pi /\
    Own D ho hi (tf_ann t') (tf_reg t') /\
    po ++ queued t' `sublist_of` queued t ++ xs /\ pi ++ buffered t' `sublist_of` buffered t ++ bs.
Proof.
  intros [r en ann xs bs po pi now wall cmd acts r' en' E Hn|r en ann xs bs po pi now wall ep exact s' E
         |r en xs bs po pi now wall g stx clk acts r' en' E|r en en' ann xs bs po pi x Eo Ei
         |r en en' ann xs bs po pi b Ei Eo|r en en' ann xs bs po pi Eo Ei] Ho; cbn in Ho.
  - exists (asked D cmd), (arrived D cmd), [], []. cbn. rewrite !app_nil_r. split_and!; try done;
      by eapply (handle_moves _ _ _ _ _ _ _ _ _ [] [] [] [] [] []) in E as (? & ? & ?).
  - exists [], [], [], []. cbn. rewrite !app_nil_r. split_and!; try done;
      eapply (verified_moves _ _ _ _ _ _ _ _ [] [] [] [] [] []) in E as (? & Hx & Hb); try done;
      by rewrite app_nil_r in Hx, Hb.
  - exists [], [], [], []. cbn. rewrite !app_nil_r. split_and!; try done;
      eapply (announce_moves _ _ _ _ _ _ _ _ _ _ [] [] [] [] [] []) in E as (? & Hx & Hb); try done;
      by rewrite app_nil_r in Hx, Hb.
  - exists [], [], [x], []. unfold queued, buffered. cbn. rewrite Eo, Ei, !app_nil_r. done.
  - exists [], [], [], [b]. unfold queued, buffered. cbn. rewrite Eo, Ei, !app_nil_r. done.
  - exists [], [], [], []. unfold queued, buffered. cbn. rewrite !app_nil_r.
    split_and!; try done; by apply sublist_app.
Qed.

Definition TrafficInv (t : Traffic) : Prop :=
  Own D ho hi (tf_ann t) (tf_reg t) /\ tf_out t ++ queued t `sublist_of` tf_asked t /\
  tf_in t ++ buffered t `sublist_of` tf_arrived t.

(** A queue whose head is taken and whose tail grows. *)
Lemma sublist_pass {A} (o p q q' x l : list A) :
  p ++ q' `sublist_of` q ++ x -> o ++ q `sublist_of` l -> (o ++ p) ++ q' `sublist_of` l ++ x.
Proof.
  intros H1 H2. rewrite <- app_assoc. etrans; [by apply sublist_app; [|exact H1]|].
  rewrite app_assoc. by apply sublist_app.
Qed.

Lemma traffic_inv t t' : traffic_step t t' -> TrafficInv t -> TrafficInv t'.
Proof.
  intros Hst (Ho & Ix & Ib).
  destruct (traffic_moves t t' Hst Ho) as (xs & bs & po & pi & Ea & Er & Et & Ei & Ho' & Hx & Hb).
  split; [done|]. rewrite Ea, Er, Et, Ei. split; by eapply sublist_pass.
Qed.

Lemma traffic_reachable t0 t : rtc traffic_step t0 t -> TrafficInv t0 -> TrafficInv t.
Proof. induction 1 as [|t0 t1 t2 Hs _ IH]; [done|]. intros Hi. by eapply IH, traffic_inv. Qed.

(** C6. The registry feeds a pipe in order and at most once, whatever commands it
    handles.  From a new registry, with commands of every kind for any device,
    restarts, upgrades, disconnects and other pipes of the same device included,
    and with the pipe announced once, what the pipe of [D] has received, followed
    by what still waits for it, is in order a part of the datagrams that
    [SendDatagram] commands asked to be sent to [D], and of the fragments that
    [InboundGattFragment] commands brought from [D]: nothing is repeated,
    overtaken or taken from another device. *)
Theorem registry_feeds_pipe_in_order (policy : L2capPolicy.t) (me : EndpointId) (en : Env)
    (t : Traffic) :
  out_items ho en = [] -> in_items hi en = [] ->
  rtc traffic_step (mkTraffic (Registry_new policy me) en false [] [] [] []) t ->
  tf_out t ++ queued t `sublist_of` tf_asked t /\ tf_in t ++ buffered t `sublist_of` tf_arrived t.
Proof.
  intros Eo Ei Hr. apply traffic_reachable in Hr as (_ & Hx & Hb); [done|].
  split; [by intros d e|]. unfold queued, buffered. cbn. by rewrite Eo, Ei.
Qed.
End Traffic.

(** A fragment starts a pipe, two sends wait for it, it is announced and takes
    the fragment and the first send. *)
Definition flow_env (xs : list PendingSend) (bs : list Bytes) : Env :=
  mkEnv bounded_mpsc (<[1 := mkBoundedChan 2 xs true]> ∅) (<[2 := mkBoundedChan 2 bs true]> ∅) ∅.

Lemma registry_feeds_pipe_in_order_witness : exists t,
  rtc (traffic_step "dev" 1 2)
    (mkTraffic (Registry_new L2capPolicy.Disabled demo_me) (flow_env [] []) false [] [] [] []) t /\
  tf_out t = [mkPendingSend 1 [7] 0] /\ tf_in t = [[0; 0]] /\
  tf_out t ++ queued "dev" 1 t `sublist_of` tf_asked t /\
  tf_in t ++ buffered "dev" 2 t `sublist_of` tf_arrived t.
Proof.
  eassert (rtc (traffic_step "dev" 1 2)
    (mkTraffic (Registry_new L2capPolicy.Disabled demo_me) (flow_env [] []) false [] [] [] []) _) as Hr.
  { eapply rtc_l; [eapply (tr_handle _ _ _ _ _ _ _ _ _ _ 0 0 (PeerCommand.InboundGattFragment "dev"
      FragmentSource.PeripheralReceivedC2p [0; 0])); [vm_compute; reflexivity|done]|].
    eapply rtc_l; [eapply (tr_handle _ _ _ _ _ _ _ _ _ _ 1 0 (PeerCommand.SendDatagram "dev" None 1
      [7] 0)); [vm_compute; reflexivity|done]|].
    eapply rtc_l; [eapply (tr_handle _ _ _ _ _ _ _ _ _ _ 2 0 (PeerCommand.SendDatagram "dev" None 1
      [8] 0)); [vm_compute; reflexivity|done]|].
    eapply rtc_l; [eapply (tr_announce _ _ _ _ _ _ _ _ _ 3 0 1 3 4); vm_compute; reflexivity|].
    eapply rtc_l; [eapply (tr_outbound _ _ _ _ _ (flow_env [mkPendingSend 1 [8] 0] [[0; 0]]));
      reflexivity|].
    eapply rtc_l; [eapply (tr_inbound _ _ _ _ _ (flow_env [mkPendingSend 1 [8] 0] []));
      reflexivity|].
    apply rtc_refl. }
  eexists. split; [exact Hr|]. split; [reflexivity|]. split; [reflexivity|].
  exact (registry_feeds_pipe_in_order "dev" 1 2 L2capPolicy.Disabled demo_me (flow_env [] []) _
    eq_refl eq_refl Hr).
Defined.
