(* ===== verification/RegistryTombstones.v ===== *)
(** * RegistryTombstones: giving a peer up and bringing it back

    The dial budget, [Forget], what an advertisement may resurrect, and what an
    adapter power cycle does to the tombstones. *)

From S2P Require Import Prelude Peer Dedup Registry RegistryInv.
Open Scope Z_scope.

Section Tombstones.
Context {HI : HashIter} {MP : Mpsc}.

(** ** The dial budget *)

(** What a failure of attempt [n] leads to. *)
Definition retry_phase (now : Instant) (n : Z) : PeerPhase.t :=
  if n + 1 <? MAX_CONNECT_ATTEMPTS
  then PeerPhase.Reconnecting (n + 1) (now + reconnect_backoff (n + 1)) DisconnectReason.Timeout
  else PeerPhase.Dead DeadReason.MaxRetries now.

Definition retry_actions (d : DeviceId) (e : PeerEntry) (err : string) (n : Z)
    : list PeerAction.t :=
  [PeerAction.CloseNativeConnection d (lifecycle_id e);
   PeerAction.RetireLifecycle (device_id e) (lifecycle_id e);
   PeerAction.EmitMetric ("connect_failed:" +:+ err)]
  ++ (if n + 1 <? MAX_CONNECT_ATTEMPTS then []
      else PeerAction.ForgetPeerStore <$> option_list (prefix e)).

Lemma connect_failed_entry_spec now d err en e n started path nl :
  phase e = PeerPhase.Connecting n started path ->
  0 <= n < MAX_CONNECT_ATTEMPTS -> nl < u64_max -> consecutive_failures e < u32_max ->
  exists gave_up s',
    connect_failed_entry now d (lifecycle_id e) err (mkECtx nl [] en e) = Some (gave_up, s') /\
    e_env s' = en /\ lifecycle_id (entry s') = nl /\
    pending_sends (entry s') = pending_sends e /\
    e_actions s' = retry_actions d e err n /\ phase (entry s') = retry_phase now n.
Proof.
  intros Hph Hn Hnl Hcf. apply wp_total.
  unfold connect_failed_entry, abandon_outstanding, bump_consecutive_failures, fail_attempt,
    checked_add, retry_actions, retry_phase, MAX_CONNECT_ATTEMPTS in *. esteps.
  rewrite Z.eqb_refl, Hph. cbn [negb]. esteps.
  rewrite (proj2 (Z.leb_le (nl + 1) _)) by lia. esteps.
  rewrite (proj2 (Z.leb_le (n + 1) _)) by (unfold u32_max; lia). esteps.
  rewrite (proj2 (Z.leb_le (consecutive_failures e + 1) _)) by lia. esteps.
  rewrite Z.leb_antisym. destruct (n + 1 <? 15); cbn [negb]; esteps; [by split_and!|].
  destruct (prefix e); esteps; by split_and!.
Qed.

(** The dial budget.  When the attempt in flight fails (and no counter is at
    its limit), the entry moves to a fresh lifecycle, the native link of the
    failed one is torn down and the buffered sends are kept; the entry backs off
    for attempt [n + 1] if attempts are left, and after
    [MAX_CONNECT_ATTEMPTS] it is dead and its stored snapshot is dropped. *)
Theorem connect_failed_budget (now : Instant) (wall : Z) (r : Registry) (en : Env)
    (d : DeviceId) (err : string) (e : PeerEntry) (n : Z) (started : Instant)
    (path : ConnectPath.t) :
  peers r !! d = Some e -> phase e = PeerPhase.Connecting n started path ->
  0 <= n < MAX_CONNECT_ATTEMPTS ->
  next_lifecycle r < u64_max -> consecutive_failures e < u32_max ->
  exists r' e',
    handle now wall (PeerCommand.ConnectFailed d (lifecycle_id e) err) r en
      = Some (retry_actions d e err n, r', en) /\
    peers r' = <[d := e']> (peers r) /\ lifecycle_id e' = next_lifecycle r /\
    pending_sends e' = pending_sends e /\ phase e' = retry_phase now n.
Proof.
  intros Hd Hph Hn Hnl Hcf.
  destruct (connect_failed_entry_spec now d err en e n started path _ Hph Hn Hnl Hcf)
    as (g & s' & Hrun & He & Hl & Hp & Ha & Hph').
  pose proof (with_entry_run _ _ _ _ _ _ _ _ Hd Hrun) as Hw.
  rewrite Ha, He in Hw.
  destruct g.
  - eexists _, (entry s'). split; [|split_and!; [|exact Hl|exact Hp|exact Hph']].
    + refine (handle_run _ _ _ _ _ (mkCtx _ _ _) _). cbn [handle_cmd].
      unfold handle_connect_failed. erewrite bind_run by exact Hw. reflexivity.
    + reflexivity.
  - eexists _, (entry s'). split; [|split_and!; [|exact Hl|exact Hp|exact Hph']].
    + refine (handle_run _ _ _ _ _ (mkCtx _ _ _) _). cbn [handle_cmd].
      unfold handle_connect_failed. erewrite bind_run by exact Hw. reflexivity.
    + reflexivity.
Qed.

(** ** Forgetting a peer *)

Definition forget_actions (d : DeviceId) (e : PeerEntry) : list PeerAction.t :=
  PeerAction.RetireLifecycle (device_id e) (lifecycle_id e)
  :: (ack_of ErrorKind.ConnectionAborted <$> pending_sends e)
  ++ ((fun ch => PeerAction.CloseChannel d (lifecycle_id e) ch DisconnectReason.LocalClose)
      <$> option_list (PeerPhase.live_channel (phase e))).

(** [Forget] tears everything down.  For a tracked device (and an identity
    left to allocate) the entry becomes a [Forgotten] tombstone without pipe,
    backlog or buffered sends; the actions retire its lifecycle, fail every
    buffered send with [ConnectionAborted] in order, and close the live channel,
    if there was one, under the retired identity. *)
Theorem forget_tears_down (now : Instant) (wall : Z) (r : Registry) (en : Env)
    (d : DeviceId) (e : PeerEntry) :
  peers r !! d = Some e -> next_lifecycle r < u64_max ->
  exists r' e',
    handle now wall (PeerCommand.Forget d) r en
      = Some (forget_actions d e, r', en) /\
    peers r' = <[d := e']> (peers r) /\
    phase e' = PeerPhase.Dead DeadReason.Forgotten now /\
    pipe e' = None /\ pending_sends e' = [] /\ rx_backlog e' = [] /\
    target_endpoint e' = None.
Proof.
  intros Hd Hnl.
  assert (exists u s', forget_entry now d (mkECtx (next_lifecycle r) [] en e) = Some (u, s')
    /\ e_env s' = en
    /\ e_actions s' = forget_actions d e
    /\ phase (entry s') = PeerPhase.Dead DeadReason.Forgotten now
    /\ pipe (entry s') = None /\ pending_sends (entry s') = []
    /\ rx_backlog (entry s') = [] /\ target_endpoint (entry s') = None)
    as (u & s' & Hrun & He & Ha & Hrest).
  { apply wp_total. unfold forget_entry, forget_actions, abandon_outstanding, drain_pending, checked_add.
    esteps. rewrite (proj2 (Z.leb_le _ _)) by lia. unfold push_close. esteps.
    destruct (PeerPhase.live_channel (phase e)); esteps; split_and!; try done.
    by rewrite app_nil_r. }
  pose proof (with_entry_run _ _ _ _ _ _ _ _ Hd Hrun) as Hw. rewrite Ha, He in Hw.
  eexists _, (entry s'). split; [|split; [|exact Hrest]].
  + refine (handle_run _ _ _ _ _ (mkCtx _ _ _) _). cbn [handle_cmd].
    unfold handle_forget. erewrite bind_run by exact Hw. reflexivity.
  + reflexivity.
Qed.

(** ** Advertisements and tombstones *)

(** The tombstones that outlive advertisements. *)
Definition permanent (reason : DeadReason.t) : bool :=
  match reason with
  | DeadReason.Forgotten | DeadReason.ProtocolMismatch _ _ => true
  | DeadReason.MaxRetries | DeadReason.Drained => false
  end.

(** An advertisement does not bring back a peer the application forgot or
    one that speaks another protocol version: the handler emits no action, keeps
    the phase and the lifecycle, and touches no other entry. *)
Theorem advertisement_respects_tombstone (now : Instant) (wall : Z) (r : Registry) (en : Env)
    (p : KeyPrefix) (d : DeviceId) (rssi : option Z) (e : PeerEntry) (reason : DeadReason.t)
    (at_ : Instant) :
  peers r !! d = Some e -> phase e = PeerPhase.Dead reason at_ -> permanent reason = true ->
  exists r' e',
    handle now wall (PeerCommand.Advertised p d rssi) r en = Some ([], r', en) /\
    peers r' = <[d := e']> (peers r) /\ next_lifecycle r' = next_lifecycle r /\
    phase e' = phase e /\ lifecycle_id e' = lifecycle_id e.
Proof.
  intros Hd Hph Hr.
  assert (forall b, advertised_entry now p b (mkECtx (next_lifecycle r) [] en e)
    = Some (None, mkECtx (next_lifecycle r) [] en
        (set_verified_live_suppressed_logged false
          (set_prefix (Some p) (set_last_adv (Some now) e))))) as Hadv.
  { intros b. unfold advertised_entry, upd_entry, modify, gets, mbind, M_bind. cbn.
    rewrite Hph. by destruct reason. }
  assert (forall r' e', handle_advertised now p d rssi (mkCtx r [] en)
    = Some (tt, mkCtx (set_next_lifecycle (next_lifecycle r)
                        (set_peers (<[d := e']> (peers r)) r)) [] en) ->
    r' = set_next_lifecycle (next_lifecycle r) (set_peers (<[d := e']> (peers r)) r) ->
    handle now wall (PeerCommand.Advertised p d rssi) r en = Some ([], r', en)) as Hh.
  { intros r' e' E ->. exact (handle_run now wall (PeerCommand.Advertised p d rssi) _ _ _ E). }
  unfold handle_advertised in Hh. rewrite bind_gets in Hh. cbn zeta in Hh.
  destruct (existsb _ _) in Hh.
  - set (e1 := set_verified_live_suppressed_logged true
      (set_prefix (Some p) (set_last_adv (Some now) e))).
    exists (set_next_lifecycle (next_lifecycle r) (set_peers (<[d := e1]> (peers r)) r)), e1.
    split; [|done]. apply (Hh _ e1); [|reflexivity].
    by rewrite (bind_run _ _ _ _ _ (with_entry_run d _ r [] en e tt
      (mkECtx (next_lifecycle r) [] en e1) Hd eq_refl)).
  - set (e1 := set_verified_live_suppressed_logged false
      (set_prefix (Some p) (set_last_adv (Some now) e))) in Hadv.
    exists (set_next_lifecycle (next_lifecycle r) (set_peers (<[d := e1]> (peers r)) r)), e1.
    split; [|done]. apply (Hh _ e1); [|reflexivity].
    by rewrite (bind_run _ _ _ _ _ (or_insert_entry_run d _ r [] en e None _ Hd (Hadv _))).
Qed.
End Tombstones.

(** ** Witnesses *)

Definition demo_dead (reason : DeadReason.t) : PeerEntry :=
  set_phase (PeerPhase.Dead reason 0) (set_lifecycle_id 1 (PeerEntry_new "dev")).
Definition demo_dialing : PeerEntry :=
  set_phase (PeerPhase.Connecting 14 0 ConnectPath.Gatt) (set_lifecycle_id 1 (PeerEntry_new "dev")).
Definition demo_reg (e : PeerEntry) : Registry :=
  set_next_lifecycle 2 (set_peers (<["dev" := e]> ∅) (Registry_new L2capPolicy.Disabled demo_me)).

Lemma connect_failed_budget_witness : exists r' e',
  handle 9 0 (PeerCommand.ConnectFailed "dev" 1 "timeout") (demo_reg demo_dialing) demo_env
    = Some (retry_actions "dev" demo_dialing "timeout" 14, r', demo_env) /\
  peers r' = <["dev" := e']> (peers (demo_reg demo_dialing)) /\ lifecycle_id e' = 2 /\
  pending_sends e' = [] /\ phase e' = PeerPhase.Dead DeadReason.MaxRetries 9.
Proof.
  apply (connect_failed_budget 9 0 (demo_reg demo_dialing) demo_env "dev" "timeout" demo_dialing
    14 0 ConnectPath.Gatt); try reflexivity. by split.
Defined.

Lemma forget_tears_down_witness : exists r' e',
  handle 9 0 (PeerCommand.Forget "dev") (demo_reg demo_dialing) demo_env
    = Some (forget_actions "dev" demo_dialing, r', demo_env) /\
  peers r' = <["dev" := e']> (peers (demo_reg demo_dialing)) /\
  phase e' = PeerPhase.Dead DeadReason.Forgotten 9 /\
  pipe e' = None /\ pending_sends e' = [] /\ rx_backlog e' = [] /\ target_endpoint e' = None.
Proof.
  apply (forget_tears_down 9 0 (demo_reg demo_dialing) demo_env "dev" demo_dialing); reflexivity.
Defined.

Lemma advertisement_respects_tombstone_witness :
  let e := demo_dead DeadReason.Forgotten in
  exists r' e',
    handle 9 0 (PeerCommand.Advertised [7] "dev" None) (demo_reg e) demo_env
      = Some ([], r', demo_env) /\
    peers r' = <["dev" := e']> (peers (demo_reg e)) /\
    next_lifecycle r' = next_lifecycle (demo_reg e) /\
    phase e' = phase e /\ lifecycle_id e' = lifecycle_id e.
Proof.
  intros e. apply (advertisement_respects_tombstone 9 0 (demo_reg e) demo_env [7] "dev" None e
    DeadReason.Forgotten 0); reflexivity.
Defined.

(** ** A power cycle does *)

Definition power_cycle : list (Instant * PeerCommand.t) :=
  [(3, PeerCommand.AdapterStateChanged false); (4, PeerCommand.AdapterStateChanged true);
   (5, PeerCommand.Tick 5)].

(** C40. A power cycle of the adapter redials a forgotten peer.  There is a run
    that ends with the peer tombstoned as [Forgotten]; switching the adapter off
    and on and ticking once more makes the registry start a connect to it. *)
Theorem power_cycle_redials_forgotten :
  exists h r acts r' id,
    actor_run L2capPolicy.Disabled demo_me h r /\
    phase <$> peers r !! "dev" = Some (PeerPhase.Dead DeadReason.Forgotten 2) /\
    run_script demo_env power_cycle ([], r) = Some (acts, r') /\
    PeerAction.StartConnect "dev" 0 id ∈ acts.
Proof.
  destruct (script_run L2capPolicy.Disabled demo_me demo_env
    [(0, PeerCommand.Advertised (prefix_from_endpoint demo_peer) "dev" None);
     (2, PeerCommand.Forget "dev")]
    (fun _ r => phase <$> peers r !! "dev" = Some (PeerPhase.Dead DeadReason.Forgotten 2) /\
       match run_script demo_env power_cycle ([], r) with
       | Some (acts, _) =>
           existsb (fun a => match a with
                             | PeerAction.StartConnect d 0 _ => String.eqb d "dev"
                             | _ => false
                             end) acts = true
       | None => False
       end)) as (h & r & Hr & Hp & Hc).
  { vm_compute. done. }
  destruct (run_script demo_env power_cycle ([], r)) as [[acts r']|] eqn:E; [|done].
  apply existsb_exists in Hc as (a & Hin & Ha). destruct a; try done.
  destruct attempt; try done. apply String.eqb_eq in Ha as ->.
  exists h, r, acts, r', lifecycle_id. by rewrite list_elem_of_In.
Qed.
