(* ===== verification/Hook.v ===== *)
(** * Hook: the handshake hook and its forwarder ([transport/hook.rs], [transport.rs])

    [after_handshake] runs the promotion rule on the routing table and keeps the
    connection registry in step; [handle_hook_event] turns its events into
    registry commands.  The tables of [Routing] and [Conns] are each behind a
    lock; here one call sees both without another task in between.  The weak
    handle of the connection is [h], and [paths] is iroh's view of the
    connections, as in [Conns]. *)

From S2P Require Import Prelude Peer Routing RoutingFacts Conns Registry RegistryInv.
Open Scope Z_scope.

Module HookEvent.
Inductive t :=
| VerifiedEndpoint (endpoint_id : EndpointId) (token : option Z) (evicted_devices : list DeviceId)
| ConnectionClosed (endpoint_id : EndpointId) (stable_id : StableConnId).
End HookEvent.

Module AfterHandshakeOutcome.
Inductive t := Accept | Reject (error_code : Z) (reason : Bytes).
End AfterHandshakeOutcome.

Section Hook.
Context {HI : HashIter} {CA : CustomAddrApi}.
Implicit Types (paths : Handle -> option (list TransportAddr.t)).

(** [conn.paths().iter().find_map(..)]: the first path that is one of ours. *)
Fixpoint find_token (ps : list TransportAddr.t) : option Z :=
  match ps with
  | [] => None
  | TransportAddr.Custom a :: rest =>
      if addr_id a =? BLE_TRANSPORT_ID then
        match parse_token_addr a with inr t => Some t | inl _ => find_token rest end
      else find_token rest
  | TransportAddr.Other :: rest => find_token rest
  end.

(** The outcome, the events sent, the watch to spawn, and the two tables;
    [None] is an overflow of one of the registry's counters. *)
Definition after_handshake paths (now : Instant) (self_endpoint remote_endpoint : EndpointId)
    (h : Handle) (r : Routing) (c : ConnectionRegistry)
    : option (AfterHandshakeOutcome.t * list HookEvent.t * option (StableConnId * Z)
              * Routing * ConnectionRegistry) :=
  let token := find_token (default [] (paths h)) in
  match token with
  | Some stable_id =>
      match promote now stable_id self_endpoint remote_endpoint r with
      | (PromoteOutcome.Rejected, r) =>
          Some (AfterHandshakeOutcome.Reject BLE_CLOSE_CODE_CONFLICT BLE_CLOSE_REASON_CONFLICT,
                [HookEvent.VerifiedEndpoint remote_endpoint (Some stable_id) []], None, r, c)
      | (PromoteOutcome.Accepted evicted, r) =>
          let evicted_devices := omap (fun id => device_for_pipe id r) evicted in
          '(_, c) ← close_evicted_pipes paths now evicted c;
          '(watch_id, c) ← Conns.insert paths now remote_endpoint stable_id h c;
          Some (AfterHandshakeOutcome.Accept,
                [HookEvent.VerifiedEndpoint remote_endpoint token evicted_devices],
                Some (stable_id, watch_id), r, c)
      end
  | None =>
      Some (AfterHandshakeOutcome.Accept,
            [HookEvent.VerifiedEndpoint remote_endpoint None []], None, r, c)
  end.

(** The task spawned for a watch, once the connection is closed. *)
Definition connection_closed (ep : EndpointId) (stable_id : StableConnId) (watch_id : Z)
    (c : ConnectionRegistry) : list HookEvent.t * ConnectionRegistry :=
  let '(last, c) := remove_and_is_empty ep stable_id watch_id c in
  (if last : bool then [HookEvent.ConnectionClosed ep stable_id] else [], c).

(** [inbox.send(cmd).await?] in sequence: [accepts n] says whether the [n]-th
    send finds the registry alive; the first failure ends the call. *)
Fixpoint send_all (accepts : nat -> bool) (n : nat) (cmds : list PeerCommand.t)
    : bool * list PeerCommand.t :=
  match cmds with
  | [] => (true, [])
  | cmd :: rest =>
      if accepts n then let '(ok, sent) := send_all accepts (S n) rest in (ok, cmd :: sent)
      else (false, [])
  end.

(** Whether the call returned [Ok], the commands sent, and the table. *)
Definition handle_hook_event (accepts : nat -> bool) (event : HookEvent.t) (r : Routing)
    : bool * list PeerCommand.t * Routing :=
  match event with
  | HookEvent.VerifiedEndpoint endpoint_id token evicted_devices =>
      (send_all accepts O
         (((fun d => PeerCommand.Stalled d StallCause.LinkDead) <$> evicted_devices)
          ++ [PeerCommand.VerifiedEndpoint endpoint_id token]), r)
  | HookEvent.ConnectionClosed endpoint_id stable_id =>
      match evict_routable_if_pipe endpoint_id stable_id r with
      | (Some _, r) =>
          let device_id := device_for_pipe stable_id r in
          let '(_, r) := evict_pipe_state stable_id r in
          match device_id with
          | Some d => (send_all accepts O [PeerCommand.Stalled d StallCause.LocalClose], r)
          | None => (true, [], r)
          end
      | (None, r) => (true, [], r)
      end
  end.

(** ** The two tables after a handshake *)

(** [pid] competes with [id] for [remote]: it is the routable pipe, or a live
    pending one that was dialled for [remote]. *)
Definition rival (id pid : StableConnId) (remote : EndpointId) (r : Routing) : Prop :=
  pid <> id /\
  ((exists rt, routable r !! remote = Some rt /\ r_pipe rt = pid) \/
   (exists p q, pending r !! pid = Some p /\ pend_target_endpoint p = Some remote /\
      pipes r !! pid = Some q)).

Lemma elem_of_contenders id pid self remote r :
  pid ∈ c_pipe <$> contenders id self remote r <-> rival id pid remote r.
Proof.
  unfold contenders, rival. rewrite fmap_app, elem_of_app. split.
  - intros [H|H].
    + destruct (routable r !! remote) as [rt|] eqn:E; [|set_solver].
      destruct (Z.eqb_spec (r_pipe rt) id); [set_solver|].
      apply list_elem_of_singleton in H as ->. cbn. eauto 6.
    + apply list_elem_of_fmap in H as (x & -> & [[k p] [Hk Hx]]%list_elem_of_omap).
      apply elem_of_hm_iter in Hk.
      destruct (Z.eqb_spec k id); [done|]. case_bool_decide; [|done]. cbn in Hx.
      destruct (pipes r !! k) as [q|] eqn:Eq; [|done]. injection Hx as <-. cbn. eauto 8.
  - intros [Hne [(rt & Hr & <-)|(p & q & Hp & Ht & Hq)]].
    + left. rewrite Hr, (proj2 (Z.eqb_neq _ _) Hne). set_solver.
    + right. apply list_elem_of_fmap.
      eexists (mkContender pid _). split; [done|]. apply list_elem_of_omap. exists (pid, p).
      split; [by apply elem_of_hm_iter|]. rewrite (proj2 (Z.eqb_neq _ _) Hne).
      rewrite bool_decide_eq_true_2 by done. cbn. by rewrite Hq.
Qed.

Lemma evict_contender_pending r pid k :
  pending (evict_contender r pid) !! k = if decide (k = pid) then None else pending r !! k.
Proof.
  unfold evict_contender. case_match; cbn; case_decide as E; subst;
    by rewrite ?lookup_delete_eq, ?lookup_delete_ne.
Qed.

Lemma evict_all_pending l r k :
  pending (foldl evict_contender r l) !! k = if decide (k ∈ l) then None else pending r !! k.
Proof.
  revert r. induction l as [|pid l IH]; intros r; cbn.
  - case_decide; [set_solver|done].
  - rewrite IH, evict_contender_pending. repeat case_decide; set_solver.
Qed.

Lemma promote_evicts now id self remote r evicted r' :
  promote now id self remote r = (PromoteOutcome.Accepted evicted, r') ->
  evicted = c_pipe <$> contenders id self remote r /\
  routable_pipe_for remote r' = Some id /\ pipes r' = pipes r /\
  pending r' !! id = None /\ (forall pid, rival id pid remote r -> pending r' !! pid = None).
Proof.
  intros E. pose proof (promote_idcore now id self remote r) as Hc. rewrite E in Hc.
  injection Hc as Hp _ _ _. unfold promote in E.
  destruct (pipes r !! id) as [p|]; [|done].
  destruct (Rule.decide _ _); [..|done]; injection E as <- <-;
    unfold routable_pipe_for; cbn in *; rewrite lookup_insert_eq, lookup_delete_eq;
    (split_and!; [done..|]; intros pid Hr; rewrite lookup_delete_ne by (by destruct Hr);
     rewrite evict_all_pending, decide_True; [done|]; by apply elem_of_contenders).
Qed.

Lemma close_evicted_spec paths now evicted c n c' :
  close_evicted_pipes paths now evicted c = Some (n, c') ->
  buckets c' = buckets c /\ (exists l, closes c' = closes c ++ l) /\
  forall pid h ep ids k, pid ∈ evicted -> buckets c !! (ep, pid) = Some ids ->
    ids !! k = Some h -> only_path paths pid h = true ->
    mkCloseCall h BLE_CLOSE_CODE_RETRY BLE_CLOSE_REASON_EVICTED ∈ closes c'.
Proof.
  revert c n c'. induction evicted as [|pipe evicted IH]; intros c n c' E; cbn [close_evicted_pipes] in E.
  { injection E as _ <-. split_and!; [done|exists []; by rewrite app_nil_r|set_solver]. }
  destruct (close_pipe paths now pipe _ _ c) as [[n1 c1]|] eqn:E1; [|done]. cbn in E.
  destruct (close_evicted_pipes paths now evicted c1) as [[n2 c2]|] eqn:E2; [|done].
  cbn in E. injection E as _ <-.
  unfold close_pipe in E1. destruct (checked_add _ _ _) as [m|]; [|done]. cbn in E1.
  rewrite close_all_spec in E1. injection E1 as _ E1.
  destruct (IH _ _ _ E2) as (Hb & (l & Hl) & Hc).
  assert (buckets c1 = buckets c) as Hb1 by (by rewrite <- E1).
  split_and!; [by rewrite Hb|rewrite Hl, <- E1; cbn; rewrite <- app_assoc; eauto|].
  intros pid h ep ids k Hin Hep Hk Ho. apply elem_of_cons in Hin as [->|Hin].
  - rewrite Hl, <- E1. cbn. apply elem_of_app. left. apply elem_of_app. right.
    apply (list_elem_of_fmap_2 (fun h => mkCloseCall h _ _)).
    apply list_elem_of_In, filter_In. split; [|done].
    apply list_elem_of_In, elem_of_handles_on. cbn. eauto.
  - rewrite <- Hb1 in Hep. eauto.
Qed.

Lemma insert_spec paths now ep pipe h c id c' :
  Conns.insert paths now ep pipe h c = Some (id, c') ->
  (exists l, closes c' = closes c ++ l) /\
  ((exists ids, buckets c' !! (ep, pipe) = Some ids /\ ids !! id = Some h) \/
   is_Some (closed c' !! pipe)).
Proof.
  unfold Conns.insert. destruct (checked_add _ _ _) as [k|]; [|done]. cbn [mbind option_bind].
  set (c0 := prune_closed _ _). destruct (closed c0 !! pipe) as [cp|] eqn:E.
  - unfold close_if_only_path. destruct (only_path paths pipe h); cbn; intros [= <- <-]; cbn;
      (split; [|right; eexists; exact E]); eauto. exists []. by rewrite app_nil_r.
  - intros [= <- <-]. cbn. split; [exists []; by rewrite app_nil_r|]. left. eexists.
    by rewrite lookup_insert_eq, lookup_insert_eq.
Qed.

(** C17. An accepted handshake settles the endpoint.  Afterwards the endpoint is
    routed over the pipe the handshake came in on, which is no longer pending;
    every rival pipe has lost its pending place; the event names exactly the
    devices of the rivals whose pipe is still open; every connection that rode
    on a rival pipe alone has been closed as evicted; and the new connection is
    registered on its pipe, unless a close of that pipe is on record. *)
Theorem handshake_settles paths (now : Instant) (self remote : EndpointId) (h : Handle)
    (r r' : Routing) (c c' : ConnectionRegistry) (evs : list HookEvent.t)
    (id watch : Z) :
  after_handshake paths now self remote h r c
    = Some (AfterHandshakeOutcome.Accept, evs, Some (id, watch), r', c') ->
  routable_pipe_for remote r' = Some id /\ pending r' !! id = None /\ pipes r' = pipes r /\
  (forall pid, rival id pid remote r -> pending r' !! pid = None) /\
  (exists devices, evs = [HookEvent.VerifiedEndpoint remote (Some id) devices] /\
     forall d, d ∈ devices <-> exists pid p, rival id pid remote r /\
       pipes r !! pid = Some p /\ p_device_id p = d) /\
  (forall pid h' ep ids k, rival id pid remote r -> buckets c !! (ep, pid) = Some ids ->
     ids !! k = Some h' -> only_path paths pid h' = true ->
     mkCloseCall h' BLE_CLOSE_CODE_RETRY BLE_CLOSE_REASON_EVICTED ∈ closes c') /\
  ((exists ids, buckets c' !! (remote, id) = Some ids /\ ids !! watch = Some h) \/
   is_Some (closed c' !! id)).
Proof.
  unfold after_handshake. destruct (find_token _) as [t|]; [|done].
  destruct (promote now t self remote r) as [[evicted|] r1] eqn:Ep; [|done].
  apply promote_evicts in Ep as (Hev & Hr & Hp & Hn & Hpend).
  destruct (close_evicted_pipes _ _ _ _) as [[n c1]|] eqn:Ec; [|done]. cbn.
  destruct (Conns.insert _ _ _ _ _ c1) as [[w c2]|] eqn:Ei; [|done]. cbn.
  intros [= <- <- <- <- <-].
  apply close_evicted_spec in Ec as (_ & _ & Hclose).
  apply insert_spec in Ei as ((l & Hl) & Hins).
  split_and!; try done.
  - eexists. split; [done|]. intros d. rewrite list_elem_of_omap. subst evicted.
    setoid_rewrite elem_of_contenders. unfold device_for_pipe. rewrite Hp. split.
    + intros (pid & Hriv & Hd). destruct (pipes r !! pid) as [p|] eqn:E; [|done].
      injection Hd as <-. eauto.
    + intros (pid & p & Hriv & E & <-). exists pid. by rewrite E.
  - intros pid h' ep ids k Hriv Hep Hk Ho. rewrite Hl. apply elem_of_app. left.
    eapply Hclose; try done. subst evicted. by apply elem_of_contenders.
Qed.

(** A refused handshake leaves no trace but the verified identity.  It
    changes neither table, is refused with the conflict code, and the event that
    still reports the endpoint evicts nobody.  It happens only if the pipe is
    already gone, or if the lower endpoint dialled it while a rival dialled by
    the higher one exists. *)
Theorem rejected_handshake paths (now : Instant) (self remote : EndpointId) (h : Handle)
    (r r' : Routing) (c c' : ConnectionRegistry) (evs : list HookEvent.t)
    (watch : option (StableConnId * Z)) (code : Z) (reason : Bytes) :
  after_handshake paths now self remote h r c
    = Some (AfterHandshakeOutcome.Reject code reason, evs, watch, r', c') ->
  r' = r /\ c' = c /\ watch = None /\
  code = BLE_CLOSE_CODE_CONFLICT /\ reason = BLE_CLOSE_REASON_CONFLICT /\
  exists id, find_token (default [] (paths h)) = Some id /\
    evs = [HookEvent.VerifiedEndpoint remote (Some id) []] /\
    (pipes r !! id = None \/
     exists p x, pipes r !! id = Some p /\
       Dialer.compute self remote (p_direction p) = Dialer.Low /\
       x ∈ contenders id self remote r /\ rival id (c_pipe x) remote r /\
       c_dialer x = Dialer.High).
Proof.
  unfold after_handshake. destruct (find_token _) as [t|]; [|done].
  destruct (promote now t self remote r) as [[evicted|] r1] eqn:Ep.
  - destruct (close_evicted_pipes _ _ _ _) as [[n c1]|]; [|done]. cbn.
    by destruct (Conns.insert _ _ _ _ _ c1) as [[w c2]|].
  - intros [= <- <- <- <- <- <-].
    assert (r1 = r /\ (pipes r !! t = None \/ exists p x, pipes r !! t = Some p /\
       Dialer.compute self remote (p_direction p) = Dialer.Low /\
       x ∈ contenders t self remote r /\ rival t (c_pipe x) remote r /\
       c_dialer x = Dialer.High)) as [-> Hwhy].
    { unfold promote in Ep. destruct (pipes r !! t) as [p|] eqn:Et.
      - destruct (Rule.decide _ _) eqn:Ed; try done. injection Ep as <-. split; [done|].
        apply decide_reject in Ed as [Hl (x & Hx & Hh)]. right. exists p, x. split_and!; try done.
        eapply elem_of_contenders. by apply list_elem_of_fmap_2.
      - injection Ep as <-. by split; [|left]. }
    split_and!; try done. eauto.
Qed.
End Hook.

(** ** The last connection on a pipe closes *)

Section LastClose.
Context {HI : HashIter} {CA : CustomAddrApi} {MP : Mpsc}.

Lemma evict_pipe_state_spec id r :
  let r' := (evict_pipe_state id r).2 in
  pending r' !! id = None /\ pipes r' = pipes r /\
  (forall ep, routable r !! ep = None -> routable r' !! ep = None).
Proof.
  unfold evict_pipe_state. cbn.
  destruct (endpoint_of_pipe id _) as [ep'|]; destruct (_ ≫= pend_target_endpoint); cbn;
    (split_and!; [by rewrite lookup_delete_eq|done|]); intros ep Hep; try done;
    by apply lookup_delete_None; right.
Qed.

Lemma forward_closed ep id r rt p :
  routable r !! ep = Some rt -> r_pipe rt = id -> pipes r !! id = Some p ->
  handle_hook_event (fun _ => true) (HookEvent.ConnectionClosed ep id) r
  = (true, [PeerCommand.Stalled (p_device_id p) StallCause.LocalClose],
     (evict_pipe_state id
        (wake_endpoint_waiters ep (set_routable (delete ep (routable r)) r))).2).
Proof.
  intros Hr Hid Hp. unfold handle_hook_event, evict_routable_if_pipe.
  rewrite Hr, (proj2 (Z.eqb_eq _ _) Hid). unfold device_for_pipe at 1.
  change (pipes (wake_endpoint_waiters _ _)) with (pipes r). rewrite Hp.
  by destruct (evict_pipe_state id _).
Qed.

(** What [Stalled] with a local close does to a live entry. *)
Lemma stalled_local_close now wall (reg : Registry) (en : Env) d e since ch g up :
  peers reg !! d = Some e -> phase e = PeerPhase.Connected since ch g up ->
  next_lifecycle reg < u64_max ->
  exists acts reg' e',
    handle now wall (PeerCommand.Stalled d StallCause.LocalClose) reg en = Some (acts, reg', en) /\
    peers reg' = <[d := e']> (peers reg) /\
    phase e' = PeerPhase.Draining now DisconnectReason.LocalClose /\
    resume_after_drain e' = true /\ pipe e' = None /\ pending_sends e' = [] /\
    PeerAction.CloseChannel d (lifecycle_id e) ch DisconnectReason.LocalClose ∈ acts /\
    (ack_of ErrorKind.BrokenPipe <$> pending_sends e) ⊆ acts.
Proof.
  intros Hd Hph Hnl.
  assert (exists u s',
    stalled_entry now wall d StallCause.LocalClose (mkECtx (next_lifecycle reg) [] en e)
      = Some (u, s')
    /\ e_env s' = en
    /\ phase (entry s') = PeerPhase.Draining now DisconnectReason.LocalClose
    /\ resume_after_drain (entry s') = true
    /\ pipe (entry s') = None /\ pending_sends (entry s') = []
    /\ PeerAction.CloseChannel d (lifecycle_id e) ch DisconnectReason.LocalClose ∈ e_actions s'
    /\ (ack_of ErrorKind.BrokenPipe <$> pending_sends e) ⊆ e_actions s')
    as (u & s' & Hrun & He & Hrest).
  { apply wp_total. unfold stalled_entry, drain_to_draining, abandon_outstanding, drain_pending,
      checked_add. esteps. rewrite Hph. esteps. rewrite (proj2 (Z.leb_le _ _)) by lia. esteps.
    destruct (prefix e); esteps; [rewrite Hph; esteps|]; split_and!; try done; set_solver. }
  pose proof (with_entry_run _ _ _ _ _ _ _ _ Hd Hrun) as Hw. rewrite He in Hw.
  eexists (e_actions s'), _, (entry s'). split; [|split; [|exact Hrest]].
  + refine (handle_run _ _ _ _ _ (mkCtx _ _ _) _). cbn [handle_cmd].
    unfold handle_stalled. erewrite bind_run by exact Hw. reflexivity.
  + reflexivity.
Qed.

(** Hanging up releases the pipe and lets the peer come back.  When the last
    watched connection of an endpoint on a pipe closes, and the endpoint is
    routed over that pipe, the forwarder takes the endpoint out of the table
    and stalls exactly the pipe's device; the registry then drains that entry
    with the intent to resume, fails its buffered sends and closes the channel
    under the retired identity.  A close that is not the last one, or of a pipe
    the endpoint is no longer routed over, changes nothing. *)
Theorem last_close_resumes (ep : EndpointId) (id w : Z) (c : ConnectionRegistry)
    (r : Routing) (now : Instant) (wall : Z) (reg : Registry) (en : Env) :
  let '(evs, _) := connection_closed ep id w c in
  ((remove_and_is_empty ep id w c).1 = false -> evs = []) /\
  ((remove_and_is_empty ep id w c).1 = true -> evs = [HookEvent.ConnectionClosed ep id]) /\
  (routable_pipe_for ep r <> Some id ->
     handle_hook_event (fun _ => true) (HookEvent.ConnectionClosed ep id) r = (true, [], r)) /\
  (forall p e since ch g up,
     routable_pipe_for ep r = Some id -> pipes r !! id = Some p ->
     peers reg !! p_device_id p = Some e -> phase e = PeerPhase.Connected since ch g up ->
     next_lifecycle reg < u64_max ->
     exists r' acts reg' e',
       handle_hook_event (fun _ => true) (HookEvent.ConnectionClosed ep id) r
         = (true, [PeerCommand.Stalled (p_device_id p) StallCause.LocalClose], r') /\
       routable r' !! ep = None /\ pending r' !! id = None /\ pipes r' = pipes r /\
       handle now wall (PeerCommand.Stalled (p_device_id p) StallCause.LocalClose) reg en
         = Some (acts, reg', en) /\
       peers reg' = <[p_device_id p := e']> (peers reg) /\
       phase e' = PeerPhase.Draining now DisconnectReason.LocalClose /\
       resume_after_drain e' = true /\ pipe e' = None /\ pending_sends e' = [] /\
       PeerAction.CloseChannel (p_device_id p) (lifecycle_id e) ch DisconnectReason.LocalClose
         ∈ acts /\
       (ack_of ErrorKind.BrokenPipe <$> pending_sends e) ⊆ acts).
Proof.
  unfold connection_closed. destruct (remove_and_is_empty ep id w c) as [b c'] eqn:Er.
  split_and!; [by cbn; intros ->..| |].
  - unfold routable_pipe_for, handle_hook_event, evict_routable_if_pipe. intros Hne.
    destruct (routable r !! ep) as [rt|]; [|done]. cbn in Hne.
    by destruct (Z.eqb_spec (r_pipe rt) id) as [E|_]; [subst|].
  - intros p e since ch g up Hrt Hp Hd Hph Hnl.
    destruct (stalled_local_close now wall reg en _ e since ch g up Hd Hph Hnl)
      as (acts & reg' & e' & Hrun & Hrest).
    unfold routable_pipe_for in Hrt. destruct (routable r !! ep) as [rt|] eqn:Ert; [|done].
    cbn in Hrt. injection Hrt as Hid.
    set (r1 := wake_endpoint_waiters ep (set_routable (delete ep (routable r)) r)).
    destruct (evict_pipe_state_spec id r1) as (H1 & H2 & H3).
    eexists _, acts, reg', e'. split; [by eapply forward_closed|].
    split; [apply H3; cbn; by rewrite lookup_delete_eq|]. by repeat (split; [done|]).
Qed.
End LastClose.

(** ** Witnesses *)

Section HookWitnesses.
#[local] Instance hw_iter : HashIter := canonical_iter.
#[local] Instance hw_addr : CustomAddrApi := pair_addr.

(** We are [[1]]; the peer [[2]] opened pipe 1 and pipe 2 to us; pipe 1 is
    routable, and connection 7 rides on it, connection 8 on pipe 2. *)
Definition hw_paths (h : Handle) : option (list TransportAddr.t) :=
  if h =? 7 then Some [TransportAddr.Custom (token_custom_addr 1)]
  else if h =? 8 then Some [TransportAddr.Custom (token_custom_addr 2)]
  else if h =? 9 then Some [TransportAddr.Other; TransportAddr.Custom (token_custom_addr 3)]
  else None.

Definition hw_table : Routing :=
  let r := (register_pipe 0 "m" Direction.Inbound Routing_new).2 in
  let r := (register_pipe 0 "n" Direction.Inbound r).2 in
  (promote 0 1 [1] [2] r).2.

Definition hw_conns : ConnectionRegistry :=
  from_option snd ConnectionRegistry_default
    (Conns.insert hw_paths 0 [2] 1 7 ConnectionRegistry_default).

(** The second connection of the peer replaces the first. *)
Definition hw_accept := after_handshake hw_paths 5 [1] [2] 8 hw_table hw_conns.

Lemma handshake_settles_witness : exists r' c',
  hw_accept = Some (AfterHandshakeOutcome.Accept,
    [HookEvent.VerifiedEndpoint [2] (Some 2) ["m"%string]], Some (2, 2), r', c') /\
  routable_pipe_for [2] r' = Some 2 /\
  mkCloseCall 7 BLE_CLOSE_CODE_RETRY BLE_CLOSE_REASON_EVICTED ∈ closes c'.
Proof.
  destruct hw_accept as [[[[[o evs] w] r'] c']|] eqn:E.
  2: { apply (f_equal (option_map (fun x => x.1.2))) in E. vm_compute in E. discriminate E. }
  assert (o = AfterHandshakeOutcome.Accept /\ w = Some (2, 2) /\
    evs = [HookEvent.VerifiedEndpoint [2] (Some 2) ["m"%string]]) as (-> & -> & ->).
  { apply (f_equal (option_map (fun x => x.1.1))) in E. vm_compute in E. by injection E as <- <- <-. }
  destruct (handshake_settles hw_paths 5 [1] [2] 8 hw_table r' hw_conns c'
    [HookEvent.VerifiedEndpoint [2] (Some 2) ["m"%string]] 2 2 E) as (H1 & _ & _ & _ & _ & H2 & _).
  exists r', c'. split; [done|]. split; [exact H1|].
  apply (H2 1 7 [2] {[ 1 := 7 ]} 1).
  - split; [done|]. left. eexists. by split.
  - reflexivity.
  - reflexivity.
  - reflexivity.
Defined.

(** A handshake over a pipe that is already gone. *)
Lemma rejected_handshake_witness :
  exists evs, after_handshake hw_paths 5 [1] [2] 9 hw_table hw_conns
    = Some (AfterHandshakeOutcome.Reject BLE_CLOSE_CODE_CONFLICT BLE_CLOSE_REASON_CONFLICT,
            evs, None, hw_table, hw_conns) /\
  exists id, find_token (default [] (hw_paths 9)) = Some id.
Proof.
  destruct (rejected_handshake hw_paths 5 [1] [2] 9 hw_table hw_table hw_conns hw_conns
    [HookEvent.VerifiedEndpoint [2] (Some 3) []] None BLE_CLOSE_CODE_CONFLICT
    BLE_CLOSE_REASON_CONFLICT) as (_ & _ & _ & _ & _ & id & Hid & _); [reflexivity|].
  eexists. split; [reflexivity|]. by exists id.
Defined.

Definition hw_entry : PeerEntry :=
  set_phase (PeerPhase.Connected 0 (mkChannelHandle 3 ConnectPath.Gatt) 1 false)
    (set_lifecycle_id 1 (PeerEntry_new "m")).
Definition hw_reg : Registry :=
  set_next_lifecycle 2 (set_peers {[ "m"%string := hw_entry ]}
    (Registry_new L2capPolicy.Disabled [1])).

(** The only connection of the peer closes. *)
Lemma last_close_resumes_witness : exists r' acts reg' e',
  handle_hook_event (fun _ => true) (HookEvent.ConnectionClosed [2] 1) hw_table
    = (true, [PeerCommand.Stalled "m" StallCause.LocalClose], r') /\
  handle 9 0 (PeerCommand.Stalled "m" StallCause.LocalClose) hw_reg demo_env
    = Some (acts, reg', demo_env) /\
  resume_after_drain e' = true /\
  PeerAction.CloseChannel "m" 1 (mkChannelHandle 3 ConnectPath.Gatt) DisconnectReason.LocalClose
    ∈ acts.
Proof.
  destruct (last_close_resumes [2] 1 1 hw_conns hw_table 9 0 hw_reg demo_env)
    as (_ & _ & _ & H).
  destruct (H (mkPipe 1 "m" Direction.Inbound 0) hw_entry 0 (mkChannelHandle 3 ConnectPath.Gatt)
    1 false) as (r' & acts & reg' & e' & H1 & _ & _ & _ & H2 & _ & _ & H3 & _ & _ & H4 & _);
    try reflexivity.
  exists r', acts, reg', e'. by split_and!.
Defined.
End HookWitnesses.
