(* ===== verification/Transport.v ===== *)
(** * Transport: the side that faces iroh ([transport/transport.rs])

    [BleEndpoint::poll_recv], [BleSender::poll_send], the resolver stream and
    [snapshot_peers].  The inbox of the registry is a bounded channel; what
    other tasks do to it between the two [try_send]s of [poll_send] is the
    parameter [race].  The snapshot [poll_send] reads is an argument.  Log
    lines are left out, and an error is its [io::ErrorKind] and message. *)

From S2P Require Import Prelude Peer Routing RoutingFacts L2cap Conns Driver Registry.
Open Scope Z_scope.

(** [io::ErrorKind] as far as this file makes errors of it. *)
Module IoKind.
Inductive t := NotFound | BrokenPipe | Other.
#[global] Instance t_eq_dec : EqDecision t.
Proof. solve_decision. Defined.
End IoKind.

Module Poll.
Inductive t (A : Type) := Ready (x : A) | Pending.
#[global] Arguments Ready {A} x.
#[global] Arguments Pending {A}.
End Poll.

Abbreviation IoResult A := ((IoKind.t * string) + A)%type (only parsing).

(** ** Receiving *)

(** The receiving end of the packet channel: what is queued, and whether all
    senders are gone. *)
Record PacketRx := mkPacketRx {
  rx_queue : list IncomingPacket;
  rx_closed : bool;
}.

(** A filled slot: the bytes copied to the front of the buffer, [meta.len],
    [meta.stride], and the two addresses of [RecvInfo]. *)
Record RecvSlot `{CustomAddrApi} := mkRecvSlot {
  rs_data : Bytes;
  rs_len : nat;
  rs_stride : nat;
  rs_src : CustomAddr;
  rs_dst : option CustomAddr;
}.

Section Recv.
Context {CA : CustomAddrApi}.

(** The loop of [poll_recv]: [caps] are the sizes of the buffers still to fill,
    [slots] the ones filled.  Every turn takes a packet off the queue or ends. *)
Fixpoint recv_fill (q : list IncomingPacket) (caps : list nat) (closed : bool)
    (slots : list RecvSlot) (rx_bytes : Z)
    : Poll.t (IoResult nat) * list RecvSlot * list IncomingPacket * Z :=
  let stop :=
    (match slots with
     | [] => Poll.Pending
     | _ => Poll.Ready (inr (length slots))
     end) in
  match caps with
  | [] => (stop, slots, q, rx_bytes)
  | cap :: caps' =>
      match q with
      | [] =>
          if closed
          then (Poll.Ready (inl (IoKind.Other, "BLE transport channel closed"%string)), slots, q,
                rx_bytes)
          else (stop, slots, q, rx_bytes)
      | packet :: q' =>
          if (cap <? length (ip_data packet))%nat
          then recv_fill q' caps closed slots rx_bytes
          else
            let n := length (ip_data packet) in
            recv_fill q' caps' closed
              (slots ++ [mkRecvSlot _ (ip_data packet) n n
                           (token_custom_addr (ip_stable_conn_id packet))
                           (Some local_custom_addr)])
              (wrapping_add u64_max rx_bytes (Z.of_nat n))
      end
  end.

(** [bufs] are the sizes of the buffers; [metas] and [infos] the lengths of the
    other two slices. *)
Definition poll_recv (bufs : list nat) (metas infos : nat) (rx : PacketRx) (rx_bytes : Z)
    : Poll.t (IoResult nat) * list RecvSlot * PacketRx * Z :=
  let n := Nat.min (Nat.min (length bufs) metas) infos in
  if (n =? 0)%nat then (Poll.Ready (inr O), [], rx, rx_bytes)
  else
    let '(res, slots, q, b) := recv_fill (rx_queue rx) (take n bufs) (rx_closed rx) [] rx_bytes in
    (res, slots, mkPacketRx q (rx_closed rx), b).
End Recv.

(** ** Sending *)

Section Send.
Context {HI : HashIter} {CA : CustomAddrApi} {MP : Mpsc}.

Definition is_valid_send_addr (addr : CustomAddr) : bool :=
  (addr_id addr =? BLE_TRANSPORT_ID) && (length (addr_data addr) =? TOKEN_LEN)%nat.

(** Where [poll_send] sends: a device (and the endpoint a reservation was made
    for), or the result it returns at once.  [None] is the overflow of a
    tombstone's counter. *)
Definition resolve_target (now : Instant) (stable_id : StableConnId) (r : Routing)
    : option ((IoResult unit + (DeviceId * option EndpointId)) * Routing) :=
  match device_for_pipe stable_id r with
  | Some d => Some (inr (d, None), r)
  | None =>
      match reservation_target stable_id r with
      | Some (endpoint, p) =>
          match scan_hint_for_prefix p r with
          | Some d => Some (inr (d, Some endpoint), r)
          | None =>
              Some (inl (inl (IoKind.NotFound, "BLE peer reservation has no live scan hint"%string)),
                    r)
          end
      | None =>
          '(o, r) ← note_tombstoned_transmit now stable_id r;
          match o with
          | Some _ => Some (inl (inr tt), r)
          | None => Some (inl (inl (IoKind.NotFound, "unknown BLE stable-conn token"%string)), r)
          end
      end
  end.

(** What [poll_send] shares with the rest of the transport. *)
Record SendCtx := mkSendCtx {
  sc_routing : Routing;
  sc_inbox : chan PeerCommand.t;
  sc_tx_bytes : Z;
  sc_capacity_wakers : list Waker;
}.

Definition shut_down {A} : IoResult A := inl (IoKind.BrokenPipe, "transport shut down"%string).

(** [inbox.try_send], parking the waker and trying again when it is full. *)
Definition offer (race : chan PeerCommand.t -> chan PeerCommand.t) (cmd : PeerCommand.t)
    (len : nat) (waker : Waker) (s : SendCtx) : Poll.t (IoResult unit) * SendCtx :=
  let sent inbox ws :=
    (Poll.Ready (inr tt),
     mkSendCtx (sc_routing s) inbox
       (wrapping_add u64_max (sc_tx_bytes s) (Z.of_nat len)) ws) in
  match chan_try_send (sc_inbox s) cmd with
  | (TrySend.Ok, inbox) => sent inbox (sc_capacity_wakers s)
  | (TrySend.Closed _, inbox) =>
      (Poll.Ready shut_down,
       mkSendCtx (sc_routing s) inbox (sc_tx_bytes s) (sc_capacity_wakers s))
  | (TrySend.Full cmd, inbox) =>
      let ws := sc_capacity_wakers s ++ [waker] in
      match chan_try_send (race inbox) cmd with
      | (TrySend.Ok, inbox) => sent inbox ws
      | (TrySend.Full _, inbox) =>
          (Poll.Pending, mkSendCtx (sc_routing s) inbox (sc_tx_bytes s) ws)
      | (TrySend.Closed _, inbox) =>
          (Poll.Ready shut_down, mkSendCtx (sc_routing s) inbox (sc_tx_bytes s) ws)
      end
  end.

Definition poll_send (race : chan PeerCommand.t -> chan PeerCommand.t) (now : Instant)
    (snap : gmap DeviceId PeerStateSummary) (dst : CustomAddr) (contents : Bytes)
    (waker : Waker) (s : SendCtx) : option (Poll.t (IoResult unit) * SendCtx) :=
  match parse_token_addr dst with
  | inl e => Some (Poll.Ready (inl (IoKind.Other, e)), s)
  | inr stable_id =>
      '(t, r) ← resolve_target now stable_id (sc_routing s);
      let s := mkSendCtx r (sc_inbox s) (sc_tx_bytes s) (sc_capacity_wakers s) in
      match t with
      | inl res => Some (Poll.Ready res, s)
      | inr (d, target_endpoint) =>
          let g := from_option sum_tx_gen 0 (snap !! d) in
          Some (offer race (PeerCommand.SendDatagram d target_endpoint g contents waker)
                  (length contents) waker s)
      end
  end.
End Send.

(** ** Resolving *)

Section Resolve.
Context {HI : HashIter} {CA : CustomAddrApi}.

(** The table and [last_emitted] after a poll, and the address emitted, if
    any. *)
Definition poll_next (now : Instant) (endpoint_id : EndpointId) (waker : Waker)
    (last_emitted : option StableConnId) (r : Routing)
    : Poll.t CustomAddr * option StableConnId * Routing :=
  let p := prefix_from_endpoint endpoint_id in
  let r := register_endpoint_waker endpoint_id waker r in
  let '(current, r) :=
    match routable_pipe_for endpoint_id r with
    | Some id => (Some id, r)
    | None =>
        match pending_pipe_for endpoint_id r with
        | Some id => (Some id, r)
        | None =>
            match reservation_for_prefix p r with
            | Some res => (Some (res_stable_id res), r)
            | None =>
                match scan_hint_for_prefix p r with
                | Some _ => let '(id, r) := reserve_outbound now endpoint_id r in (Some id, r)
                | None => (None, r)
                end
            end
        end
    end in
  match current with
  | Some id =>
      if bool_decide (Some id = last_emitted) then (Poll.Pending, last_emitted, r)
      else (Poll.Ready (token_custom_addr id), Some id, r)
  | None => (Poll.Pending, last_emitted, r)
  end.
End Resolve.

(** ** Snapshots *)

Module BlePeerPhase.
Inductive t :=
| Unknown | Discovered | PendingDial | Connecting | Handshaking | Connected
| Draining | Reconnecting | Dead | Restoring.

Definition from (p : PhaseKind.t) : t :=
  match p with
  | PhaseKind.Unknown => Unknown
  | PhaseKind.Discovered => Discovered
  | PhaseKind.PendingDial => PendingDial
  | PhaseKind.Connecting => Connecting
  | PhaseKind.Handshaking => Handshaking
  | PhaseKind.Connected => Connected
  | PhaseKind.Draining => Draining
  | PhaseKind.Reconnecting => Reconnecting
  | PhaseKind.Dead => Dead
  | PhaseKind.Restoring => Restoring
  end.
End BlePeerPhase.

Record BlePeerInfo := mkBlePeerInfo {
  bpi_device_id : DeviceId;
  bpi_phase : BlePeerPhase.t;
  bpi_consecutive_failures : Z;
  bpi_connect_path : option ConnectPath.t;
  bpi_verified_endpoint : option EndpointId;
}.

Definition snapshot_peers `{HashIter} (snap : gmap DeviceId PeerStateSummary)
    : list BlePeerInfo :=
  (fun '(d, st) =>
     mkBlePeerInfo d (BlePeerPhase.from (phase_kind st)) (sum_consecutive_failures st)
       (connect_path st) (sum_verified_endpoint st))
  <$> List.filter (fun '(_, st) =>
        match phase_kind st with PhaseKind.Unknown | PhaseKind.Dead => false | _ => true end)
      (hm_iter snap).

(** ** Receiving: what reaches iroh *)

Section RecvFacts.
Context {CA : CustomAddrApi}.

(** The slot a packet becomes. *)
Definition slot_of (p : IncomingPacket) : RecvSlot :=
  mkRecvSlot _ (ip_data p) (length (ip_data p)) (length (ip_data p))
    (token_custom_addr (ip_stable_conn_id p)) (Some local_custom_addr).

Lemma recv_fill_spec q caps closed slots b res slots' q' b' :
  recv_fill q caps closed slots b = (res, slots', q', b') ->
  exists consumed ps,
    q = consumed ++ q' /\ slots' = slots ++ (slot_of <$> ps) /\ ps `sublist_of` consumed /\
    Forall2 (fun p cap => (length (ip_data p) <= cap)%nat) ps (take (length ps) caps) /\
    (forall p, p ∈ consumed -> p ∈ ps \/ exists cap, cap ∈ caps /\ (cap < length (ip_data p))%nat) /\
    match res with
    | Poll.Ready (inr k) => k = length slots' /\ (0 < k)%nat
    | Poll.Ready (inl _) => closed = true /\ q' = []
    | Poll.Pending => slots' = [] /\ (caps = [] \/ q' = [] /\ closed = false)
    end.
Proof.
  revert caps slots b. induction q as [|p q IH]; intros [|cap caps] slots b; cbn [recv_fill].
  1-3: try destruct closed; intros [= <- <- <- <-]; exists [], []; cbn; rewrite app_nil_r;
    (split; [done|split; [done|split; [done|split; [by apply Forall2_nil_2|split; [set_solver|]]]]]);
    try done; destruct slots; cbn; try (split; [done|lia]); by auto.
  destruct (Nat.ltb_spec cap (length (ip_data p))) as [Hlt|Hge]; intros E.
  - apply IH in E as (cs & ps & -> & -> & Hs & Hf & Hd & Hr). exists (p :: cs), ps.
    split_and!; try done; [by constructor|]. intros x [->|Hx]%elem_of_cons; [|by apply Hd].
    right. exists cap. split; [set_solver|done].
  - apply IH in E as (cs & ps & -> & -> & Hs & Hf & Hd & Hr). exists (p :: cs), (p :: ps).
    split_and!; try done.
    + by rewrite <- app_assoc.
    + by constructor.
    + by constructor.
    + intros x [->|Hx]%elem_of_cons; [left; set_solver|].
      destruct (Hd x Hx) as [?|(cap' & ? & ?)]; [left; set_solver|right; exists cap'; set_solver].
    + destruct res as [[e|k]|]; try done. destruct Hr as [Hr _].
      by destruct slots.
Qed.

(** Receiving neither reorders nor invents.  A poll with room for at least
    one packet takes a prefix of the queue and copies packets of it, in order,
    one per buffer and each into a buffer it fits, stamped with the address of
    the pipe it came in on; a packet it takes but does not copy was too large
    for some buffer.  It is pending only when the queue is empty, returns the
    number of packets it copied otherwise, and fails only when the channel is
    closed and empty. *)
Theorem poll_recv_delivers (bufs : list nat) (metas infos : nat) (rx rx' : PacketRx) (b b' : Z)
    (res : Poll.t (IoResult nat)) (slots : list RecvSlot) :
  (0 < Nat.min (Nat.min (length bufs) metas) infos)%nat ->
  poll_recv bufs metas infos rx b = (res, slots, rx', b') ->
  exists consumed ps,
    rx_queue rx = consumed ++ rx_queue rx' /\ slots = slot_of <$> ps /\
    ps `sublist_of` consumed /\
    Forall2 (fun p cap => (length (ip_data p) <= cap)%nat) ps (take (length ps) bufs) /\
    (forall p, p ∈ consumed -> p ∈ ps \/ exists cap, cap ∈ bufs /\ (cap < length (ip_data p))%nat) /\
    match res with
    | Poll.Ready (inr k) => k = length slots /\ (0 < k)%nat
    | Poll.Ready (inl _) => rx_closed rx = true /\ rx_queue rx' = []
    | Poll.Pending => slots = [] /\ rx_queue rx' = [] /\ rx_closed rx = false
    end.
Proof.
  intros Hn. unfold poll_recv. set (n := Nat.min _ _) in *.
  destruct (Nat.eqb_spec n 0); [lia|].
  destruct (recv_fill _ _ _ _ _) as [[[res0 slots0] q] b0] eqn:E. intros [= <- <- <- <-].
  apply recv_fill_spec in E as (cs & ps & Hq & -> & Hs & Hf & Hd & Hr). exists cs, ps.
  split_and!; try done.
  - rewrite take_take in Hf. apply Forall2_length in Hf as Hl. rewrite length_take in Hl.
    by rewrite Nat.min_l in Hf by lia.
  - intros p [?|(cap & Hc & ?)]%Hd; [by left|]. right. exists cap. split; [|done].
    by apply (subseteq_take n bufs).
  - destruct res0 as [[e|k]|]; try done. destruct Hr as [-> [Hc|[-> ->]]]; [|done].
    apply (f_equal length) in Hc. rewrite length_take in Hc. cbn in Hc. lia.
Qed.
End RecvFacts.

(** ** Sending: what reaches the registry *)

Section SendFacts.
Context {HI : HashIter} {CA : CustomAddrApi} {MP : Mpsc}.

Lemma parse_token id : 0 <= id <= u64_max -> parse_token_addr (token_custom_addr id) = inr id.
Proof.
  intros Hid. unfold parse_token_addr, token_custom_addr.
  rewrite addr_id_from_parts, addr_data_from_parts, length_to_le_bytes, Z.eqb_refl. cbn [negb].
  rewrite from_to_le_bytes; [done|]. unfold u64_max in Hid. change (256 ^ Z.of_nat TOKEN_LEN) with 18446744073709551616. lia.
Qed.

(** What an offer to the inbox comes to: queued at the tail (of the inbox as it
    was, or as it was at the second attempt), refused with the waker parked, or
    an error.  Only a queued command counts towards the bytes sent. *)
Definition offered (race : chan PeerCommand.t -> chan PeerCommand.t) (cmd : PeerCommand.t)
    (len : nat) (waker : Waker) (s : SendCtx) (res : Poll.t (IoResult unit)) (s' : SendCtx)
    : Prop :=
  match res with
  | Poll.Ready (inr _) =>
      (chan_items (sc_inbox s') = chan_items (sc_inbox s) ++ [cmd] \/
       chan_items (sc_inbox s') = chan_items (race (sc_inbox s)) ++ [cmd]) /\
      sc_tx_bytes s' = wrapping_add u64_max (sc_tx_bytes s) (Z.of_nat len)
  | Poll.Ready (inl (k, _)) =>
      k = IoKind.BrokenPipe /\ (sc_inbox s' = sc_inbox s \/ sc_inbox s' = race (sc_inbox s)) /\
      sc_tx_bytes s' = sc_tx_bytes s
  | Poll.Pending =>
      sc_inbox s' = race (sc_inbox s) /\ waker ∈ sc_capacity_wakers s' /\
      sc_tx_bytes s' = sc_tx_bytes s
  end.

Lemma offer_spec race cmd len waker s :
  offered race cmd len waker s (offer race cmd len waker s).1 (offer race cmd len waker s).2 /\
  sc_routing (offer race cmd len waker s).2 = sc_routing s.
Proof.
  unfold offer, offered. pose proof (chan_try_send_spec (sc_inbox s) cmd) as H1.
  destruct (chan_try_send (sc_inbox s) cmd) as [[|x|x] c1]; cbn; [by auto| |].
  - destruct H1 as [-> ->]. pose proof (chan_try_send_spec (race (sc_inbox s)) cmd) as H2.
    destruct (chan_try_send (race (sc_inbox s)) cmd) as [[|x|x] c2]; cbn; [by auto| |].
    + destruct H2 as [_ ->]. split; [|done]. split_and!; try done. set_solver.
    + destruct H2 as [_ ->]. by auto.
  - destruct H1 as [_ ->]. by auto.
Qed.

(** Every datagram handed to [poll_send] is accounted for.  It is queued for
    the device of the token's live pipe, or, if the token is a reservation, for
    the device last scanned under the reserved prefix with the endpoint to dial;
    with the inbox full the waker is parked and nothing is queued; and only for
    a token of a pipe that died recently is the datagram dropped with success.
    An address that is not ours, an unknown token, and a reservation without
    scan hint are errors that leave the inbox alone. *)
Theorem poll_send_accounts (race : chan PeerCommand.t -> chan PeerCommand.t) (now : Instant)
    (snap : gmap DeviceId PeerStateSummary) (dst : CustomAddr) (contents : Bytes)
    (waker : Waker) (s s' : SendCtx) (res : Poll.t (IoResult unit)) :
  poll_send race now snap dst contents waker s = Some (res, s') ->
  match parse_token_addr dst with
  | inl e => res = Poll.Ready (inl (IoKind.Other, e)) /\ s' = s
  | inr id =>
      let cmd d target :=
        PeerCommand.SendDatagram d target (from_option sum_tx_gen 0 (snap !! d)) contents waker in
      match device_for_pipe id (sc_routing s), reservation_target id (sc_routing s) with
      | Some d, _ => offered race (cmd d None) (length contents) waker s res s'
      | None, Some (ep, p) =>
          match scan_hint_for_prefix p (sc_routing s) with
          | Some d => offered race (cmd d (Some ep)) (length contents) waker s res s'
          | None => (exists m, res = Poll.Ready (inl (IoKind.NotFound, m))) /\ s' = s
          end
      | None, None =>
          sc_inbox s' = sc_inbox s /\ sc_tx_bytes s' = sc_tx_bytes s /\
          match pipe_tombstones (prune_pipe_tombstones now (sc_routing s)) !! id with
          | Some _ => res = Poll.Ready (inr tt)
          | None => exists m, res = Poll.Ready (inl (IoKind.NotFound, m))
          end
      end
  end.
Proof.
  unfold poll_send. destruct (parse_token_addr dst) as [e|id]; [by intros [= <- <-]|].
  unfold resolve_target. cbn zeta.
  assert (forall cmd, Some (offer race cmd (length contents) waker
    (mkSendCtx (sc_routing s) (sc_inbox s) (sc_tx_bytes s) (sc_capacity_wakers s))) = Some (res, s')
    -> offered race cmd (length contents) waker s res s') as Hoff.
  { intros cmd E. destruct (offer_spec race cmd (length contents) waker s) as [Ho _].
    destruct s. cbn in *. by injection E as E; rewrite E in Ho. }
  destruct (device_for_pipe id (sc_routing s)) as [d|]; [by apply Hoff|].
  destruct (reservation_target id (sc_routing s)) as [[ep p]|].
  { destruct (scan_hint_for_prefix p (sc_routing s)) as [d|]; [by apply Hoff|]. cbn.
    intros [= <- <-]. split; [by eexists|]. by destruct s. }
  unfold note_tombstoned_transmit. set (r1 := prune_pipe_tombstones _ _).
  destruct (pipe_tombstones r1 !! id) as [t|].
  - destruct (checked_add _ _ _); [|done]. cbn. by intros [= <- <-].
  - cbn. intros [= <- <-]. cbn. eauto.
Qed.

(** ** The first dial *)

Lemma poll_next_reserves now ep w r held d :
  IdInv (r, held) -> next_id r < u64_max ->
  routable r !! ep = None -> pending_pipe_for ep r = None ->
  reservations r !! prefix_from_endpoint ep = None ->
  scan_hint r !! prefix_from_endpoint ep = Some d ->
  let id := next_id r + 1 in
  exists r1, poll_next now ep w None r = (Poll.Ready (token_custom_addr id), Some id, r1) /\
    IdInv (r1, held) /\ pending r1 = pending r /\ routable r1 = routable r /\
    pipes r1 = pipes r /\ scan_hint r1 = scan_hint r /\
    reservations r1 !! prefix_from_endpoint ep = Some (mkReservation id ep now) /\
    reserved_stable_ids r1 !! id = Some (prefix_from_endpoint ep).
Proof.
  intros Hi Hn Hr Hp Hres Hs id. unfold poll_next, routable_pipe_for.
  set (r0 := register_endpoint_waker ep w r).
  assert (IdInv (r0, held)) as Hi0 by (by apply (IdInv_idcore r)).
  change (routable r0) with (routable r). rewrite Hr. cbn [fmap option_fmap option_map].
  change (pending_pipe_for ep r0) with (pending_pipe_for ep r). rewrite Hp.
  unfold reservation_for_prefix, scan_hint_for_prefix.
  change (reservations r0) with (reservations r). rewrite Hres.
  change (scan_hint r0) with (scan_hint r). rewrite Hs.
  pose proof (IdInv_reserve r0 held now ep Hi0 Hn) as Hi1. unfold reserve_outbound in *. cbn zeta in *.
  change (reservations (prune_pipe_tombstones now r0)) with (reservations r) in *.
  rewrite Hres in *. pose proof (id_next _ Hi) as H0. cbn in H0.
  rewrite (mint_next (prune_pipe_tombstones now r0)) in * by done.
  change (next_id (prune_pipe_tombstones now r0)) with (next_id r) in *. fold id in Hi1 |- *.
  rewrite bool_decide_eq_false_2 by done. eexists. split; [done|]. split; [exact Hi1|].
  cbn. by rewrite !lookup_insert_eq.
Qed.

(** Opening the pipe of a reservation. *)
Lemma start_reserved now d role ep r held res :
  IdInv (r, held) -> reservations r !! prefix_from_endpoint ep = Some res ->
  exists r', start_data_pipe now d role (Some ep) r
      = Some (res_stable_id res, Some (res_endpoint_id res), r') /\
    device_for_pipe (res_stable_id res) r' = Some d /\ routable r' = routable r /\
    pending r' = <[res_stable_id res
                   := mkPending (res_stable_id res) (Some (res_endpoint_id res)) now]> (pending r).
Proof.
  intros Hi Hres. pose proof (take_reservation_cases r held (Some ep) d Hi) as Ht.
  unfold start_data_pipe. unfold take_reservation, consume_reservation_for_endpoint,
    consume_reservation_for_prefix in *. rewrite Hres in *.
  destruct Ht as (p & _ & Hi1 & _).
  set (r1 := set_pipe_tombstones _ _) in *.
  destruct (IdInv_register_with_id r1 _ now (res_stable_id res) d (direction_for_role role) Hi1)
    as (r2 & E2 & _); [set_solver|].
  rewrite E2. cbn. eexists. split; [done|].
  unfold register_pipe_with_id in E2. cbn in E2.
  destruct (pipes r !! res_stable_id res); [done|]. injection E2 as <-. cbn.
  unfold device_for_pipe. cbn. by rewrite lookup_insert_eq.
Qed.

Lemma pending_pipe_for_new ep id p now r :
  pending_pipe_for ep r = None -> pending p = <[id := mkPending id (Some ep) now]> (pending r) ->
  pending_pipe_for ep p = Some id.
Proof.
  unfold pending_pipe_for. intros Hn Hp.
  destruct (List.find _ (hm_values (pending p))) as [x|] eqn:E.
  - apply find_some in E as [Hin Hx]. apply bool_decide_eq_true in Hx.
    apply list_elem_of_In, elem_of_hm_values in Hin as [k Hk]. rewrite Hp in Hk.
    apply lookup_insert_Some in Hk as [[_ <-]|[_ Hk]]; [done|].
    destruct (List.find _ (hm_values (pending r))) eqn:E'; [done|].
    eapply find_none in E'; [|apply list_elem_of_In, elem_of_hm_values; eauto].
    by apply bool_decide_eq_false in E'.
  - eapply find_none in E;
      [|apply list_elem_of_In, elem_of_hm_values; exists id; rewrite Hp; apply lookup_insert_eq].
    by apply bool_decide_eq_false in E.
Qed.

(** C15. A dial keeps its address.  Take any reachable table in which an endpoint
    has been scanned at a device but is neither routed, nor being dialled, nor
    reserved.  The resolver's first poll emits an address; sending to it (with
    room in the inbox) hands the registry a datagram for that device with the
    endpoint to dial; the data pipe of that dial is opened under the very
    identifier in the address; from then on the address leads to the device as a
    live pipe, and the resolver has nothing new to say. *)
Theorem dial_keeps_address (r : Routing) (held : gset Z) (t1 t2 t3 : Instant) (ep : EndpointId)
    (d : DeviceId) (w w' : Waker) (race : chan PeerCommand.t -> chan PeerCommand.t)
    (snap : gmap DeviceId PeerStateSummary) (contents : Bytes)
    (inbox inbox' : chan PeerCommand.t) (tx : Z) (ws : list Waker) :
  rreachable (r, held) -> next_id r < u64_max ->
  routable r !! ep = None -> pending_pipe_for ep r = None ->
  reservations r !! prefix_from_endpoint ep = None ->
  scan_hint r !! prefix_from_endpoint ep = Some d ->
  let cmd := PeerCommand.SendDatagram d (Some ep) (from_option sum_tx_gen 0 (snap !! d)) contents w' in
  chan_try_send inbox cmd = (TrySend.Ok, inbox') ->
  exists id addr r1 r2,
    poll_next t1 ep w None r = (Poll.Ready addr, Some id, r1) /\
    (exists s', poll_send race t2 snap addr contents w' (mkSendCtx r1 inbox tx ws)
        = Some (Poll.Ready (inr tt), s') /\
      chan_items (sc_inbox s') = chan_items inbox ++ [cmd] /\ sc_routing s' = r1) /\
    start_data_pipe t3 d ConnectRole.Central (Some ep) r1 = Some (id, Some ep, r2) /\
    parse_token_addr addr = inr id /\ device_for_pipe id r2 = Some d /\
    (poll_next t3 ep w (Some id) r2).1 = (Poll.Pending, Some id).
Proof.
  intros Hr%rreachable_inv Hn Hrt Hpd Hres Hs cmd Hsend.
  destruct (poll_next_reserves t1 ep w r held d Hr Hn Hrt Hpd Hres Hs)
    as (r1 & E1 & Hi1 & Hpend & Hrout & Hpip & Hscan & Hres1 & Hst1).
  destruct (start_reserved t3 d ConnectRole.Central ep r1 held _ Hi1 Hres1)
    as (r2 & E2 & Hd2 & Hr2 & Hp2). cbn in E2, Hd2, Hp2.
  pose proof (id_next _ Hr) as H0. cbn in H0.
  assert (parse_token_addr (token_custom_addr (next_id r + 1)) = inr (next_id r + 1)) as Hparse
    by (apply parse_token; lia).
  exists (next_id r + 1), (token_custom_addr (next_id r + 1)), r1, r2.
  split; [done|]. split; [|split_and!; try done].
  - unfold poll_send. rewrite Hparse. unfold resolve_target. cbn [sc_routing].
    assert (device_for_pipe (next_id r + 1) r1 = None) as ->.
    { unfold device_for_pipe. rewrite Hpip.
      by destruct (IdInv_unused r held (next_id r + 1) Hr ltac:(lia)) as (-> & _). }
    unfold reservation_target. rewrite Hst1. cbn [mbind option_bind]. rewrite Hres1. cbn [mbind option_bind].
    unfold scan_hint_for_prefix. rewrite Hscan, Hs. cbn. unfold offer. cbn. fold cmd.
    pose proof (chan_try_send_spec inbox cmd) as Hspec. rewrite Hsend in *. eauto.
  - unfold poll_next, routable_pipe_for.
    change (routable (register_endpoint_waker ep w r2)) with (routable r2).
    rewrite Hr2, Hrout, Hrt. cbn [fmap option_fmap option_map].
    change (pending_pipe_for ep (register_endpoint_waker ep w r2)) with (pending_pipe_for ep r2).
    rewrite (pending_pipe_for_new ep (next_id r + 1) r2 t3 r);
      [|done|by rewrite Hp2, Hpend]. by rewrite bool_decide_eq_true_2.
Qed.
End SendFacts.

(** ** Witnesses *)

Section TransportWitnesses.
#[local] Instance tw_iter : HashIter := canonical_iter.
#[local] Instance tw_addr : CustomAddrApi := pair_addr.

Definition tw_packet (id : StableConnId) (n : nat) : IncomingPacket :=
  mkIncomingPacket "m" id (replicate n 5).

(** The first packet does not fit its buffer. *)
Lemma poll_recv_delivers_witness :
  let rx := mkPacketRx [tw_packet 1 3; tw_packet 1 1; tw_packet 2 2] false in
  let slots := [slot_of (tw_packet 1 1); slot_of (tw_packet 2 2)] in
  poll_recv [2%nat; 4%nat] 2 2 rx 0 = (Poll.Ready (inr 2%nat), slots, mkPacketRx [] false, 3) /\
  exists consumed ps, rx_queue rx = consumed ++ [] /\ slots = slot_of <$> ps /\
    ps `sublist_of` consumed.
Proof.
  intros rx slots. split; [reflexivity|].
  destruct (poll_recv_delivers [2%nat; 4%nat] 2 2 rx (mkPacketRx [] false) 0 3
    (Poll.Ready (inr 2%nat)) slots) as (cs & ps & H1 & H2 & H3 & _).
  - cbn. lia.
  - reflexivity.
  - exists cs, ps. by split_and!.
Defined.

Definition tw_inbox (items : list PeerCommand.t) : @chan bounded_mpsc PeerCommand.t :=
  mkBoundedChan 1 items true.

Definition tw_send (s : SendCtx) : option (Poll.t (IoResult unit) * SendCtx) :=
  poll_send (fun c => c) 3 ∅ (token_custom_addr 1) [8] 6 s.

(** A live pipe, and an inbox with no room. *)
Lemma poll_send_accounts_witness :
  let r := (register_pipe 0 "m" Direction.Outbound Routing_new).2 in
  exists s', tw_send (mkSendCtx r (tw_inbox [PeerCommand.Shutdown]) 0 [])
      = Some (Poll.Pending, s') /\ 6 ∈ sc_capacity_wakers s'.
Proof.
  intros r.
  destruct (tw_send (mkSendCtx r (tw_inbox [PeerCommand.Shutdown]) 0 [])) as [[res s']|] eqn:E.
  2: { apply (f_equal (option_map fst)) in E. vm_compute in E. discriminate E. }
  assert (res = Poll.Pending) as ->.
  { apply (f_equal (option_map fst)) in E. vm_compute in E. by injection E as <-. }
  exists s'. split; [done|].
  pose proof (poll_send_accounts (fun c => c) 3 ∅ (token_custom_addr 1) [8] 6
    (mkSendCtx r (tw_inbox [PeerCommand.Shutdown]) 0 []) s' Poll.Pending E) as H.
  change (parse_token_addr (token_custom_addr 1)) with (inr 1 : string + Z) in H.
  change (device_for_pipe 1 r) with (Some "m"%string) in H. by destruct H as (_ & H & _).
Defined.

Definition tw_snap : gmap DeviceId PeerStateSummary := ∅.

Lemma dial_keeps_address_witness :
  let cmd := PeerCommand.SendDatagram "m" (Some [1])
    (from_option sum_tx_gen 0 (tw_snap !! "m"%string)) [8] 6 in
  exists id addr r1 r2,
    poll_next 1 [1] 5 None dw_hinted = (Poll.Ready addr, Some id, r1) /\
    (exists s', poll_send (fun c => c) 2 tw_snap addr [8] 6 (mkSendCtx r1 (tw_inbox []) 0 [])
        = Some (Poll.Ready (inr tt), s') /\
      chan_items (sc_inbox s') = chan_items (tw_inbox []) ++ [cmd] /\ sc_routing s' = r1) /\
    start_data_pipe 3 "m" ConnectRole.Central (Some [1]) r1 = Some (id, Some [1], r2) /\
    parse_token_addr addr = inr id /\ device_for_pipe id r2 = Some "m"%string /\
    (poll_next 3 [1] 5 (Some id) r2).1 = (Poll.Pending, Some id).
Proof.
  intros cmd.
  apply (dial_keeps_address dw_hinted ∅ 1 2 3 [1] "m" 5 6 (fun c => c) tw_snap [8] (tw_inbox [])
    (tw_inbox [cmd]) 0 []); try reflexivity.
  eapply rtc_l; [apply (rs_scan_hint _ _ [1] "m" ScanHintUpdate.New dw_hinted); reflexivity|].
  apply rtc_refl.
Defined.
End TransportWitnesses.
