(* ===== verification/Events.v ===== *)
(** * Events: radio events become registry commands ([transport/events.rs])

    The event pumps, one event at a time: each takes an event of [blew] to the
    commands it sends (in order) and, where it touches it, the routing table.  A
    pump stops when the registry's inbox is closed; until then every send
    succeeds.  With them, the metadata a peripheral serves over GATT and how a
    central reads it ([iroh_key_uuid] and the constants of [transport.rs];
    [read_psm], [read_version], the version check and [read_psm_with_retry] of
    [driver.rs]).  A UUID is its 128-bit value; [as_bytes] is big-endian. *)

From S2P Require Import Prelude Peer Routing RoutingFacts Driver.
Open Scope Z_scope.

Definition uuid_as_bytes (u : Uuid) : Bytes := rev (to_le_bytes 16 u).
Definition uuid_from_bytes (bs : Bytes) : Uuid := from_le_bytes (rev bs).

Definition IROH_SERVICE_UUID : Uuid := 0x69726f018e454c2cb3a5331f3098b5c2.
Definition IROH_C2P_CHAR_UUID : Uuid := 0x69726f028e454c2cb3a5331f3098b5c2.
Definition IROH_P2C_CHAR_UUID : Uuid := 0x69726f038e454c2cb3a5331f3098b5c2.
Definition IROH_PSM_CHAR_UUID : Uuid := 0x69726f048e454c2cb3a5331f3098b5c2.
Definition IROH_VERSION_CHAR_UUID : Uuid := 0x69726f058e454c2cb3a5331f3098b5c2.
Definition PROTOCOL_VERSION : Z := 1.
Definition KEY_UUID_PREFIX : Bytes := [0x69; 0x72; 0x6f; 0x00].

Definition iroh_key_uuid (endpoint_id : EndpointId) : Uuid :=
  uuid_from_bytes (KEY_UUID_PREFIX ++ take KEY_PREFIX_LEN endpoint_id).

Fixpoint extract_prefix_from_services (services : list Uuid) : option KeyPrefix :=
  match services with
  | [] => None
  | svc :: rest =>
      let bytes := uuid_as_bytes svc in
      if bool_decide (take 4 bytes = KEY_UUID_PREFIX) then Some (drop 4 bytes)
      else extract_prefix_from_services rest
  end.

(** ** The pumps *)

(** [blew::central::CentralEvent]; [Other] stands for the variants the pump
    ignores. *)
Module CentralEvent.
Inductive t :=
| DeviceDiscovered (id : DeviceId) (services : list Uuid) (rssi : option Z)
| DeviceConnected (device_id : DeviceId)
| DeviceDisconnected (device_id : DeviceId) (cause : DisconnectCause.t)
| CharacteristicNotification (device_id : DeviceId) (char_uuid : Uuid) (value : Bytes)
| AdapterStateChanged (powered : bool)
| Other.
End CentralEvent.

Module PeripheralStateEvent.
Inductive t :=
| AdapterStateChanged (powered : bool)
| SubscriptionChanged (client_id : DeviceId) (char_uuid : Uuid) (subscribed : bool)
| Other.
End PeripheralStateEvent.

Module PeripheralRequest.
Inductive t :=
| Write (client_id : DeviceId) (value : Bytes)
| Read (char_uuid : Uuid)
| Other.
End PeripheralRequest.

Section Pumps.
Context {HI : HashIter}.

Definition central_event (ev : CentralEvent.t) (r : Routing) : list PeerCommand.t * Routing :=
  match ev with
  | CentralEvent.DeviceDiscovered d services rssi =>
      match extract_prefix_from_services services with
      | None => ([], r)
      | Some p =>
          let adv := PeerCommand.Advertised p d rssi in
          match note_scan_hint p d r with
          | (ScanHintUpdate.Unchanged, r) => ([adv], r)
          | (ScanHintUpdate.New, r) => ([adv], r)
          | (ScanHintUpdate.Replaced previous, r) => ([PeerCommand.Forget previous; adv], r)
          | (ScanHintUpdate.ActivelyBound _, r) => ([], r)
          end
      end
  | CentralEvent.DeviceConnected d => ([PeerCommand.CentralConnected d], r)
  | CentralEvent.DeviceDisconnected d cause => ([PeerCommand.CentralDisconnected d cause], r)
  | CentralEvent.CharacteristicNotification d _ value =>
      ([PeerCommand.InboundGattFragment d FragmentSource.CentralReceivedP2c value], r)
  | CentralEvent.AdapterStateChanged powered => ([PeerCommand.AdapterStateChanged powered], r)
  | CentralEvent.Other => ([], r)
  end.

Definition peripheral_state_event (ev : PeripheralStateEvent.t) (r : Routing)
    : list PeerCommand.t :=
  match ev with
  | PeripheralStateEvent.AdapterStateChanged powered =>
      [PeerCommand.AdapterStateChanged powered]
  | PeripheralStateEvent.SubscriptionChanged client u true =>
      [PeerCommand.PeripheralClientSubscribed client u (prefix_for_device client r)]
  | PeripheralStateEvent.SubscriptionChanged client u false =>
      [PeerCommand.PeripheralClientUnsubscribed client u]
  | PeripheralStateEvent.Other => []
  end.

(** What a read of a characteristic is answered with; [psm] is 0 when there is
    no listener. *)
Definition respond_read (char_uuid : Uuid) (psm : Z) : Bytes :=
  if char_uuid =? IROH_PSM_CHAR_UUID then
    if negb (psm =? 0) then to_le_bytes 2 psm else []
  else if char_uuid =? IROH_VERSION_CHAR_UUID then [PROTOCOL_VERSION]
  else [].

(** The response, if the request is a read, and the commands. *)
Definition peripheral_request (req : PeripheralRequest.t) (psm : Z)
    : option Bytes * list PeerCommand.t :=
  match req with
  | PeripheralRequest.Write client value =>
      (None, [PeerCommand.InboundGattFragment client FragmentSource.PeripheralReceivedC2p value])
  | PeripheralRequest.Read u => (Some (respond_read u psm), [])
  | PeripheralRequest.Other => (None, [])
  end.

(** One item of the listener's stream; an accept error is logged. *)
Definition l2cap_accept (item : string + (DeviceId * L2capChannel)) : list PeerCommand.t :=
  match item with
  | inr (d, channel) => [PeerCommand.InboundL2capChannel d channel]
  | inl _ => []
  end.
End Pumps.

(** ** What a central reads *)

(** [read_psm] and [read_version] on the bytes the characteristic returned. *)
Definition parse_psm (bytes : Bytes) : option Z :=
  if (length bytes <? 2)%nat then None else Some (from_le_bytes (take 2 bytes)).
Definition parse_version (bytes : Bytes) : option Z := head bytes.

(** The driver's [ReadVersion] on the outcome of [read_version] ([None]: the
    read timed out; [inl]: an error). *)
Definition check_version (d : DeviceId) (lifecycle_id : Z) (result : option (string + option Z))
    : list PeerCommand.t :=
  match result with
  | Some (inr (Some got)) =>
      if negb (got =? PROTOCOL_VERSION)
      then [PeerCommand.ProtocolVersionMismatch d lifecycle_id got PROTOCOL_VERSION] else []
  | _ => []
  end.

Definition READ_PSM_BACKOFFS_MS : list Z := [0; 150; 400].

(** [read_psm_with_retry]: [reads] are the outcomes of the attempts, one per
    entry of the schedule; also the number of attempts made and the time slept,
    in milliseconds. *)
Fixpoint retry_psm (backoffs_ms : list Z) (reads : list (string + option Z))
    (last_err : option string) : (string + Z) * nat * Z :=
  match backoffs_ms, reads with
  | delay :: backoffs', r :: reads' =>
      match r with
      | inr (Some psm) => (inr psm, 1%nat, Z.max 0 delay)
      | inr None => (inl "no psm advertised"%string, 1%nat, Z.max 0 delay)
      | inl e =>
          let '(res, n, t) := retry_psm backoffs' reads' (Some e) in
          (res, S n, Z.max 0 delay + t)
      end
  | _, _ => (inl ("read_psm: " +:+ default "unknown" last_err)%string, O, 0)
  end.

Definition read_psm_with_retry (backoffs_ms : list Z) (reads : list (string + option Z))
    : (string + Z) * nat * Z :=
  retry_psm backoffs_ms reads None.

(** ** Guarantees *)

Lemma uuid_round bs : length bs = 16%nat -> Forall is_byte bs ->
  uuid_as_bytes (uuid_from_bytes bs) = bs.
Proof.
  intros Hl Hb. unfold uuid_as_bytes, uuid_from_bytes.
  replace 16%nat with (length (rev bs)) by (by rewrite length_rev).
  rewrite to_from_le_bytes by (by apply Forall_rev). apply rev_involutive.
Qed.

Lemma key_uuid_bytes ep : (KEY_PREFIX_LEN <= length ep)%nat -> Forall is_byte ep ->
  uuid_as_bytes (iroh_key_uuid ep) = KEY_UUID_PREFIX ++ prefix_from_endpoint ep.
Proof.
  intros Hl Hb. unfold iroh_key_uuid, prefix_from_endpoint. apply uuid_round.
  - rewrite length_app, length_take, Nat.min_l by done. done.
  - apply Forall_app. split; [|by apply Forall_take].
    repeat constructor; vm_compute; discriminate.
Qed.

(** A peer is recognised by its advertisement.  Whatever other services are
    advertised next to it, as long as none before it carries the magic prefix,
    the service UUID a transport makes from its endpoint id is recognised by a
    scanner as exactly that endpoint's key prefix; none of the transport's own
    GATT UUIDs is mistaken for one; and whatever is recognised was advertised. *)
Theorem advertised_prefix_roundtrip (ep : EndpointId) (before after : list Uuid)
    (services : list Uuid) (p : KeyPrefix) :
  (KEY_PREFIX_LEN <= length ep)%nat -> Forall is_byte ep ->
  Forall (fun u => take 4 (uuid_as_bytes u) <> KEY_UUID_PREFIX) before ->
  extract_prefix_from_services (before ++ iroh_key_uuid ep :: after)
    = Some (prefix_from_endpoint ep) /\
  extract_prefix_from_services [IROH_SERVICE_UUID; IROH_C2P_CHAR_UUID; IROH_P2C_CHAR_UUID;
                                IROH_PSM_CHAR_UUID; IROH_VERSION_CHAR_UUID] = None /\
  (extract_prefix_from_services services = Some p ->
     exists u, u ∈ services /\ uuid_as_bytes u = KEY_UUID_PREFIX ++ p).
Proof.
  intros Hl Hb Hf. split_and!.
  - induction Hf as [|u before Hu _ IH].
    + cbn [app extract_prefix_from_services]. rewrite key_uuid_bytes by done.
      by rewrite bool_decide_eq_true_2.
    + cbn [app extract_prefix_from_services]. by rewrite bool_decide_eq_false_2.
  - by vm_compute.
  - induction services as [|u services IH]; [done|]. cbn [extract_prefix_from_services].
    case_bool_decide as E.
    + intros [= <-]. exists u. split; [set_solver|]. by rewrite <- E, take_drop.
    + intros (u' & ? & ?)%IH. exists u'. split; [set_solver|done].
Qed.

Lemma advertised_prefix_roundtrip_witness :
  extract_prefix_from_services [IROH_SERVICE_UUID; iroh_key_uuid (replicate 32 7)]
    = Some (replicate 12 7).
Proof.
  destruct (advertised_prefix_roundtrip (replicate 32 7) [IROH_SERVICE_UUID] [] [] [])
    as [H _]; [| | |exact H].
  - apply Nat.leb_le. reflexivity.
  - apply Forall_replicate. vm_compute. split; discriminate.
  - repeat constructor. vm_compute. discriminate.
Defined.

Section PumpFacts.
Context {HI : HashIter}.

(** Scanning never fights a live connection.  When an iroh peer is
    discovered at a device while a routable pipe binds its prefix to another
    device, the pump sends nothing and leaves the table alone.  Otherwise the
    prefix is then hinted at the new device, the advertisement is passed on, and
    a different device hinted before is forgotten first; nothing else in the
    table that routing depends on changes. *)
Theorem scan_respects_live_binding (r : Routing) (d : DeviceId) (services : list Uuid)
    (rssi : option Z) (p : KeyPrefix) :
  extract_prefix_from_services services = Some p ->
  let '(cmds, r') := central_event (CentralEvent.DeviceDiscovered d services rssi) r in
  match bound_device p r with
  | Some bound =>
      bound <> d -> cmds = [] /\ r' = r
  | None => True
  end /\
  (bound_device p r = None \/ bound_device p r = Some d ->
     scan_hint r' = <[p := d]> (scan_hint r) /\
     cmds = match scan_hint r !! p with
            | Some previous => if decide (previous = d) then [] else [PeerCommand.Forget previous]
            | None => []
            end ++ [PeerCommand.Advertised p d rssi]) /\
  core r' = core r.
Proof.
  intros Hx. cbn [central_event]. rewrite Hx.
  pose proof (note_scan_hint_core p d r) as Hc.
  assert (forall p r, scan_hint (wake_endpoint_waiters_for_prefix p r) = scan_hint r) as Hw.
  { intros p' r'. unfold wake_endpoint_waiters_for_prefix. generalize (hm_keys (endpoint_wakers r')).
    intros l. induction (List.filter _ l) as [|ep eps IH] in r' |- *; cbn; [done|]. by rewrite IH. }
  unfold note_scan_hint in *.
  destruct (bound_device p r) as [b|] eqn:Eb; [case_bool_decide|].
  1, 3: destruct (scan_hint r !! p) as [prev|]; [case_bool_decide|]; cbn in Hc |- *;
    rewrite ?Hw; cbn; split_and!; try done; by (rewrite decide_True by done) || (rewrite decide_False by done).
  cbn. split_and!; [done| |done]. by intros [?|?]; simplify_eq.
Qed.
End PumpFacts.

Section PumpWitnesses.
#[local] Instance ew_iter : HashIter := canonical_iter.

Lemma scan_respects_live_binding_witness :
  let '(cmds, r') := central_event
    (CentralEvent.DeviceDiscovered "n" [iroh_key_uuid (replicate 32 7)] None)
    (note_scan_hint (replicate 12 7) "m" Routing_new).2 in
  cmds = [PeerCommand.Forget "m"; PeerCommand.Advertised (replicate 12 7) "n" None] /\
  core r' = core Routing_new.
Proof.
  pose proof (scan_respects_live_binding (note_scan_hint (replicate 12 7) "m" Routing_new).2 "n"
    [iroh_key_uuid (replicate 32 7)] None (replicate 12 7)) as H.
  specialize (H ltac:(vm_compute; reflexivity)).
  destruct (central_event _ _) as [cmds r']. destruct H as (_ & H & Hc).
  destruct H as [_ ->]; [left; reflexivity|]. split; [reflexivity|]. by rewrite Hc.
Defined.
End PumpWitnesses.

(** What a peripheral serves is what a central reads.  A listener's PSM
    arrives as that PSM, no listener as no PSM; a peer of our own version passes
    the version check, one of another version is reported with both versions
    under the lifecycle of the connection, and a peer that serves no version, or
    whose read failed or timed out, is let pass. *)
Theorem gatt_metadata_roundtrip (psm : Z) (d : DeviceId) (lid got : Z) (u : Uuid) :
  0 <= psm <= u16_max ->
  parse_psm (respond_read IROH_PSM_CHAR_UUID psm) = (if psm =? 0 then None else Some psm) /\
  check_version d lid (Some (inr (parse_version (respond_read IROH_VERSION_CHAR_UUID psm)))) = [] /\
  (got <> PROTOCOL_VERSION ->
     check_version d lid (Some (inr (parse_version [got])))
     = [PeerCommand.ProtocolVersionMismatch d lid got PROTOCOL_VERSION]) /\
  (u <> IROH_PSM_CHAR_UUID -> u <> IROH_VERSION_CHAR_UUID ->
     respond_read u psm = [] /\ parse_version [] = None) /\
  check_version d lid (Some (inr None)) = [] /\ check_version d lid None = [] /\
  (forall e, check_version d lid (Some (inl e)) = []).
Proof.
  intros Hp. split_and!; try done.
  - unfold respond_read. rewrite Z.eqb_refl. destruct (Z.eqb_spec psm 0); [done|]. cbn [negb].
    unfold parse_psm. rewrite length_to_le_bytes. cbn [Nat.ltb Nat.leb].
    rewrite take_ge by (by rewrite length_to_le_bytes). f_equal. apply from_to_le_bytes.
    unfold u16_max in Hp. change (256 ^ Z.of_nat 2) with 65536. lia.
  - intros Hg. cbn [parse_version head check_version].
    by rewrite (proj2 (Z.eqb_neq _ _) Hg).
  - unfold respond_read. intros H1 H2. by rewrite !(proj2 (Z.eqb_neq _ _)).
Qed.

Lemma gatt_metadata_roundtrip_witness :
  parse_psm (respond_read IROH_PSM_CHAR_UUID 192) = Some 192 /\
  check_version "m" 3 (Some (inr (parse_version [2])))
    = [PeerCommand.ProtocolVersionMismatch "m" 3 2 PROTOCOL_VERSION].
Proof.
  destruct (gatt_metadata_roundtrip 192 "m" 3 2 0) as (H1 & _ & H2 & _).
  - split; vm_compute; discriminate.
  - split; [exact H1|]. apply H2. vm_compute. discriminate.
Defined.

(** ** Retrying the PSM read *)

Definition slept (backoffs_ms : list Z) : Z := foldr (fun d t => Z.max 0 d + t) 0 backoffs_ms.

Lemma retry_psm_errs errs backoffs reads last_err :
  (length errs <= length backoffs)%nat ->
  retry_psm backoffs ((inl <$> errs) ++ reads) last_err
  = let '(res, n, t) :=
      retry_psm (drop (length errs) backoffs) reads (from_option Some last_err (last errs)) in
    (res, (length errs + n)%nat, slept (take (length errs) backoffs) + t).
Proof.
  revert backoffs last_err. induction errs as [|e errs IH]; intros backoffs last_err Hl.
  - change (drop (length []) backoffs) with backoffs. cbn [fmap list_fmap app last from_option].
    by destruct (retry_psm backoffs reads last_err) as [[res n] t].
  - destruct backoffs as [|b backoffs]; [cbn in Hl; lia|]. cbn in Hl.
    cbn [fmap list_fmap app retry_psm length drop take]. rewrite IH by lia.
    replace (from_option Some (Some e) (last errs)) with (from_option Some last_err (last (e :: errs))).
    + destruct (retry_psm (drop (length errs) backoffs) reads _) as [[res n] t].
      unfold slept. cbn. f_equal. lia.
    + destruct errs as [|e' errs]; [done|].
      destruct (proj2 (last_is_Some (e' :: errs))) as [x Hx]; [done|].
      change (last (e :: e' :: errs)) with (last (e' :: errs)). by rewrite Hx.
Qed.

(** Reading the PSM is retried on errors only.  With a schedule of delays,
    if the first [k] attempts fail and the next one answers, exactly [k + 1]
    attempts are made, after exactly the first [k + 1] delays: a PSM is
    returned, and the answer that there is none is final.  If every attempt
    fails, all are made and the last error is reported. *)
Theorem read_psm_retries_errors (backoffs_ms : list Z) (errs : list string)
    (answer : option Z) (rest : list (string + option Z)) :
  ((length errs < length backoffs_ms)%nat ->
     read_psm_with_retry backoffs_ms ((inl <$> errs) ++ inr answer :: rest)
     = (match answer with Some psm => inr psm | None => inl "no psm advertised"%string end,
        S (length errs), slept (take (S (length errs)) backoffs_ms))) /\
  (forall e, length errs = length backoffs_ms -> last errs = Some e ->
     read_psm_with_retry backoffs_ms (inl <$> errs)
     = (inl ("read_psm: " +:+ e)%string, length errs, slept backoffs_ms)).
Proof.
  unfold read_psm_with_retry. split.
  - intros Hl. rewrite retry_psm_errs by lia.
    destruct (drop (length errs) backoffs_ms) as [|b bs] eqn:E.
    { apply (f_equal length) in E. rewrite length_drop in E. cbn in E. lia. }
    assert (slept (take (S (length errs)) backoffs_ms)
      = slept (take (length errs) backoffs_ms) + Z.max 0 b) as ->.
    { rewrite (take_S_r _ _ b).
      - unfold slept. rewrite foldr_app. cbn. generalize (take (length errs) backoffs_ms).
        intros l. induction l as [|x l IH]; cbn; lia.
      - rewrite <- (Nat.add_0_r (length errs)), <- lookup_drop, E. done. }
    destruct answer; cbn; f_equal; f_equal; lia.
  - intros e Hl He. rewrite <- (app_nil_r (inl <$> errs)), retry_psm_errs by lia.
    rewrite He, Hl, drop_all, take_ge by lia. cbn. f_equal; [f_equal; lia|lia].
Qed.

Lemma read_psm_retries_errors_witness :
  read_psm_with_retry READ_PSM_BACKOFFS_MS [inl "busy"%string; inr (Some 192)]
    = (inr 192, 2%nat, 150).
Proof.
  destruct (read_psm_retries_errors READ_PSM_BACKOFFS_MS ["busy"%string] (Some 192) [])
    as [H _]. apply H. cbn. lia.
Defined.
