(* ===== verification/Blew.v ===== *)
(** * Blew: the radio on top of the [blew] crate ([transport/driver.rs], [BlewDriver])

    [blew]'s [Central] and [Peripheral] are code outside the repository: a
    class with one asynchronous request per method the source calls.  The model
    of [BlewDriver] keeps, next to the driver's own fields, the log of the
    requests issued; a request that its caller stopped waiting for is in the log
    all the same, since the platform may have carried it out. *)

From S2P Require Import Prelude Async Peer Interface Events.
Open Scope Z_scope.

(** The parts of a GATT table the source fills in. *)
Module CharProps.
(** [CharacteristicProperties], as a set of flags. *)
Record t := mk { write_without_response : bool; notify : bool; read : bool }.
End CharProps.
Module AttrPerms.
Record t := mk { p_write : bool; p_read : bool }.
End AttrPerms.

Record GattCharacteristic := mkGattCharacteristic {
  gc_uuid : Uuid;
  gc_properties : CharProps.t;
  gc_permissions : AttrPerms.t;
  gc_value : Bytes;
}.
Record GattService := mkGattService {
  gs_uuid : Uuid;
  gs_primary : bool;
  gs_characteristics : list GattCharacteristic;
}.
(** [AdvertisingConfig { local_name: LocalName::None, service_uuids }]. *)
Record AdvertisingConfig := mkAdvertisingConfig { service_uuids : list Uuid }.

Module Delivery.
Inductive t := Delivered | NoSubscriber.
End Delivery.

(** Requests to [blew]. *)
Module BlewCall.
Inductive t :=
| CentralNew
| PeripheralNew
| CentralWaitReady (limit : Duration)
| PeripheralWaitReady (limit : Duration)
| AddService (s : GattService)
| StartAdvertising (c : AdvertisingConfig)
| StopAdvertising
| StartScan
| StopScan
| L2capListener
| Connect (d : DeviceId)
| DiscoverServices (d : DeviceId)
| Subscribe (d : DeviceId) (u : Uuid)
| Disconnect (d : DeviceId)
| WriteChar (d : DeviceId) (u : Uuid) (bytes : Bytes)
| NotifyChar (d : DeviceId) (u : Uuid) (bytes : Bytes)
| ReadChar (d : DeviceId) (u : Uuid)
| OpenL2cap (d : DeviceId) (psm : Z)
| IsPowered
| Refresh (d : DeviceId).

(** What a request returns when it succeeds. *)
Definition reply (c : t) : Type :=
  match c with
  | L2capListener => Z * Z (* the PSM and the listener *)
  | NotifyChar _ _ _ => Delivery.t
  | ReadChar _ _ => Bytes
  | OpenL2cap _ _ => L2capChannel
  | IsPowered => bool
  | _ => unit
  end.
End BlewCall.

(** The crate: every request is an asynchronous call on the platform's state. *)
Class Blew (N : Type) := {
  blew : forall c : BlewCall.t, Async N (BlewError.t + BlewCall.reply c);
  blew_timely c : Timely (blew c);
  (** [Central::mtu] cannot fail. *)
  blew_mtu : DeviceId -> Async N Z;
}.
#[global] Existing Instance blew_timely.

(** [BlewDriver].  [scan_filter] only says whether there is one: the source only
    ever uses [ScanFilter::default()].  [accepting] lists the listeners handed to
    [run_l2cap_accept]. *)
Record BlewDriver (N : Type) := mkBlewDriver {
  native : N;
  log : list BlewCall.t;
  next_channel_id : Z;
  channels_by_device : gmap DeviceId ChannelHandle;
  services : list GattService;
  advertising_config : AdvertisingConfig;
  scan_filter : bool;
  psm : Z;
  accepting : list Z;
}.
#[global] Arguments mkBlewDriver {N} _ _ _ _ _ _ _ _ _.
#[global] Arguments native {N} _.
#[global] Arguments log {N} _.
#[global] Arguments next_channel_id {N} _.
#[global] Arguments channels_by_device {N} _.
#[global] Arguments services {N} _.
#[global] Arguments advertising_config {N} _.
#[global] Arguments scan_filter {N} _.
#[global] Arguments psm {N} _.
#[global] Arguments accepting {N} _.

Section BlewDriver.
Context {N : Type} {BL : Blew N}.
Implicit Types b : BlewDriver N.

Definition BlewDriver_new (n : N) (l : list BlewCall.t) (services : list GattService)
    (c : AdvertisingConfig) (scan : bool) : BlewDriver N :=
  mkBlewDriver n l 1 ∅ services c scan 0 [].

(** Issue a request: it is logged when it is issued. *)
Definition request (c : BlewCall.t) : Async (BlewDriver N) (BlewError.t + BlewCall.reply c) :=
  fun w b =>
  match blew c w (native b) with
  | (r, n) => (r, mkBlewDriver n (log b ++ [c]) (next_channel_id b) (channels_by_device b)
                    (services b) (advertising_config b) (scan_filter b) (psm b) (accepting b))
  end.

(** [?] with [From<BlewError> for BleError]. *)
Definition from_blew {A} (r : BlewError.t + A) : BleResult A :=
  match r with inl e => inl (BleError.Blew e) | inr a => inr a end.
Definition ask (c : BlewCall.t) : Async (BlewDriver N) (BleResult (BlewCall.reply c)) :=
  r ← request c; mret (from_blew r).

Definition set_channels next m (b : BlewDriver N) : BlewDriver N :=
  mkBlewDriver (native b) (log b) next m (services b) (advertising_config b) (scan_filter b)
    (psm b) (accepting b).
Definition listen (v listener : Z) (b : BlewDriver N) : BlewDriver N :=
  mkBlewDriver (native b) (log b) (next_channel_id b) (channels_by_device b) (services b)
    (advertising_config b) (scan_filter b) v (accepting b ++ [listener]).

Definition GATT_SETUP_TIMEOUT : Duration := from_secs 30.

Definition bounded_gatt_setup {I} (work : Async I (BleResult unit)) : Async I (BleResult unit) :=
  r ← timeout GATT_SETUP_TIMEOUT work;
  mret (match r with Some r => r | None => inl (BleError.Timeout "GATT setup") end).

Definition bd_connect (d : DeviceId) : Async (BlewDriver N) (BleResult ChannelHandle) :=
  try_bind (ask (BlewCall.Connect d)) (fun _ =>
  try_bind (bounded_gatt_setup (
    try_bind (ask (BlewCall.DiscoverServices d)) (fun _ =>
    ask (BlewCall.Subscribe d IROH_P2C_CHAR_UUID)))) (fun _ =>
  id ← a_gets next_channel_id;
  let handle := mkChannelHandle id ConnectPath.Gatt in
  a_modify (fun b => set_channels (wrapping_add u64_max (next_channel_id b) 1)
                       (<[d := handle]> (channels_by_device b)) b);;
  mret (inr handle))).

Definition bd_disconnect (d : DeviceId) : Async (BlewDriver N) (BleResult unit) :=
  try_bind (ask (BlewCall.Disconnect d)) (fun _ =>
  a_modify (fun b => set_channels (next_channel_id b) (delete d (channels_by_device b)) b);;
  mret (inr tt)).

Definition bd_write_c2p (d : DeviceId) (bytes : Bytes) : Async (BlewDriver N) (BleResult unit) :=
  ask (BlewCall.WriteChar d IROH_C2P_CHAR_UUID bytes).

(** [Delivery::NoSubscriber] is a success. *)
Definition bd_notify_p2c (d : DeviceId) (bytes : Bytes) : Async (BlewDriver N) (BleResult unit) :=
  try_bind (ask (BlewCall.NotifyChar d IROH_P2C_CHAR_UUID bytes)) (fun _ => mret (inr tt)).

Definition bd_read_psm (d : DeviceId) : Async (BlewDriver N) (BleResult (option Z)) :=
  try_bind (ask (BlewCall.ReadChar d IROH_PSM_CHAR_UUID)) (fun bytes =>
  mret (inr (parse_psm bytes))).

(** A failed read is reported as "no version". *)
Definition bd_read_version (d : DeviceId) : Async (BlewDriver N) (BleResult (option Z)) :=
  r ← request (BlewCall.ReadChar d IROH_VERSION_CHAR_UUID);
  mret (match r with inr bytes => inr (parse_version bytes) | inl _ => inr None end).

Definition bd_open_l2cap (d : DeviceId) (psm : Z) : Async (BlewDriver N) (BleResult L2capChannel) :=
  ask (BlewCall.OpenL2cap d psm).

Definition bd_start_scan : Async (BlewDriver N) (BleResult unit) := ask BlewCall.StartScan.
Definition bd_stop_scan : Async (BlewDriver N) (BleResult unit) := ask BlewCall.StopScan.

(** [for service in &self.services { add_service(service).await }], errors
    logged. *)
Fixpoint add_services (l : list GattService) : Async (BlewDriver N) unit :=
  match l with
  | [] => mret tt
  | s :: l' => request (BlewCall.AddService s);; add_services l'
  end.

Definition bd_rebuild_server : Async (BlewDriver N) (BleResult unit) :=
  request BlewCall.StopAdvertising;;
  l ← a_gets services;
  add_services l;;
  mret (inr tt).

Definition bd_restart_advertising : Async (BlewDriver N) (BleResult unit) :=
  request BlewCall.StopAdvertising;;
  c ← a_gets advertising_config;
  ask (BlewCall.StartAdvertising c).

Definition bd_restart_l2cap_listener : Async (BlewDriver N) (BleResult (option Z)) :=
  r ← request BlewCall.L2capListener;
  match r with
  | inr (v, listener) => a_modify (listen v listener);; mret (inr (Some v))
  | inl _ => mret (inr None)
  end.

Definition bd_restart_scan : Async (BlewDriver N) (BleResult unit) :=
  f ← a_gets scan_filter;
  if negb f then mret (inr tt)
  else
    request BlewCall.StopScan;;
    ask BlewCall.StartScan.

(** [unwrap_or(false)]. *)
Definition bd_is_powered : Async (BlewDriver N) bool :=
  r ← request BlewCall.IsPowered;
  mret (match r with inr p => p | inl _ => false end).

(** Only Android has a cache to refresh. *)
Definition bd_refresh (android : bool) (d : DeviceId) : Async (BlewDriver N) (BleResult unit) :=
  if android then ask (BlewCall.Refresh d) else mret (inr tt).

Definition bd_mtu (d : DeviceId) : Async (BlewDriver N) Z := fun w b =>
  let '(r, n) := blew_mtu d w (native b) in
  (r, mkBlewDriver n (log b) (next_channel_id b) (channels_by_device b) (services b)
        (advertising_config b) (scan_filter b) (psm b) (accepting b)).

#[global] Instance request_timely c : Timely (request c).
Proof.
  intros w b t a b' Hw. unfold request. destruct (blew c w (native b)) as [r n] eqn:E.
  intros [= -> _]. by eapply (blew_timely c).
Qed.
#[global] Instance bounded_gatt_setup_timely {I} (c : Async I (BleResult unit)) :
  Timely c -> Timely (bounded_gatt_setup c).
Proof.
  intros Hc. apply timely_bind; [|intros; apply _]. by apply timely_timeout.
Qed.

#[global, refine] Instance blew_interface (android : bool) : BleInterface (BlewDriver N) := {|
  connect := bd_connect; disconnect := bd_disconnect; write_c2p := bd_write_c2p;
  notify_p2c := bd_notify_p2c; read_psm := bd_read_psm; read_version := bd_read_version;
  open_l2cap := bd_open_l2cap; start_scan := bd_start_scan; stop_scan := bd_stop_scan;
  rebuild_server := bd_rebuild_server; restart_advertising := bd_restart_advertising;
  restart_l2cap_listener := bd_restart_l2cap_listener; restart_scan := bd_restart_scan;
  is_powered := bd_is_powered; refresh := bd_refresh android; mtu := bd_mtu;
|}.
Proof.
  all: intros d; unfold bd_connect, bd_disconnect, bd_read_psm, bd_read_version, bd_open_l2cap,
    ask; try apply _.
  - apply timely_bind; [exact (request_timely (BlewCall.ReadChar d _))|]. intros []; apply timely_ret.
  - unfold bd_refresh, ask. destruct android; apply _.
Defined.

(** ** The channel table *)

(** Every handle handed out has its own id, below the next one. *)
Definition handles_ok (b : BlewDriver N) : Prop :=
  (forall d h, channels_by_device b !! d = Some h -> 0 <= ch_id h < next_channel_id b) /\
  (forall d d' h h', channels_by_device b !! d = Some h -> channels_by_device b !! d' = Some h' ->
     ch_id h = ch_id h' -> d = d').

Lemma request_table c w b r b' :
  request c w b = (r, b') -> channels_by_device b' = channels_by_device b /\
    next_channel_id b' = next_channel_id b /\ log b' = log b ++ [c].
Proof. unfold request. destruct (blew c w (native b)). by intros [= <- <-]. Qed.

Lemma ask_table c w b r b' :
  ask c w b = (r, b') -> channels_by_device b' = channels_by_device b /\
    next_channel_id b' = next_channel_id b /\ log b' = log b ++ [c].
Proof.
  unfold ask, mbind, Async_bind. destruct (request c w b) as [[[t a]|] b1] eqn:E;
    apply request_table in E; by intros [= <- <-].
Qed.

(** Discovery and subscription, however they end. *)
Lemma setup_table d w b r b' :
  bounded_gatt_setup (try_bind (ask (BlewCall.DiscoverServices d)) (fun _ =>
    ask (BlewCall.Subscribe d IROH_P2C_CHAR_UUID))) w b = (r, b') ->
  channels_by_device b' = channels_by_device b /\ next_channel_id b' = next_channel_id b /\
  (forall t, r = Some (t, inr tt) -> log b' = log b ++ [BlewCall.DiscoverServices d;
     BlewCall.Subscribe d IROH_P2C_CHAR_UUID]).
Proof.
  unfold bounded_gatt_setup, try_bind. unfold mbind at 1, Async_bind at 1, timeout.
  set (w' := match w with Some b0 => _ | None => _ end). unfold mbind, Async_bind.
  destruct (ask (BlewCall.DiscoverServices d) (Some w') b) as [[[t1 r1]|] b1] eqn:E1;
    apply ask_table in E1 as (Ht1 & Hn1 & Hl1).
  2: { destruct (fits_in _ _); cbn; intros [= <- <-]; split_and!; done. }
  destruct r1 as [e|[]].
  { cbn. intros [= <- <-]. split_and!; done. }
  destruct (ask (BlewCall.Subscribe d _) _ b1) as [[[t2 r2]|] b2] eqn:E2;
    apply ask_table in E2 as (Ht2 & Hn2 & Hl2); cbn.
  - intros [= <- <-]. rewrite Ht2, Hn2. split_and!; [done..|]. intros t _. by rewrite Hl2, Hl1, <- app_assoc.
  - destruct (fits_in _ _); cbn; intros [= <- <-]; rewrite Ht2, Hn2; split_and!; done.
Qed.

(** A connection gets a handle of its own.  A successful [connect] asked the
    radio to connect, to discover services and to subscribe to the
    peripheral-to-central characteristic, in this order and nothing else, and
    returned a fresh channel id, which it recorded for the device; whenever it
    does not succeed, because of an error, its own thirty-second limit or its
    caller's, the table of channels is unchanged.  Ids stay distinct. *)
Theorem connect_fresh_handle (d : DeviceId) (w : option Duration) (b b' : BlewDriver N)
    (r : option (Duration * BleResult ChannelHandle)) :
  handles_ok b -> 0 <= next_channel_id b < u64_max ->
  bd_connect d w b = (r, b') ->
  handles_ok b' /\
  match r with
  | Some (_, inr h) =>
      h = mkChannelHandle (next_channel_id b) ConnectPath.Gatt /\
      (forall d' h', channels_by_device b !! d' = Some h' -> ch_id h' <> ch_id h) /\
      channels_by_device b' = <[d := h]> (channels_by_device b) /\
      log b' = log b ++ [BlewCall.Connect d; BlewCall.DiscoverServices d;
                         BlewCall.Subscribe d IROH_P2C_CHAR_UUID]
  | _ => channels_by_device b' = channels_by_device b
  end.
Proof.
  intros Hok Hn. assert (forall b1 : BlewDriver N, channels_by_device b1 = channels_by_device b ->
    next_channel_id b1 = next_channel_id b -> handles_ok b1) as Hsame.
  { intros b1 E1 E2. unfold handles_ok. by rewrite E1, E2. }
  unfold bd_connect, try_bind. unfold mbind at 1, Async_bind at 1.
  destruct (ask (BlewCall.Connect d) w b) as [[[t1 r1]|] b1] eqn:E1;
    apply ask_table in E1 as (Ht1 & Hn1 & Hl1).
  2: { intros [= <- <-]. auto. }
  destruct r1 as [e|[]]; [intros [= <- <-]; auto|].
  unfold mbind at 1, Async_bind at 1.
  destruct (bounded_gatt_setup _ _ b1) as [[[t2 r2]|] b2] eqn:E2;
    apply setup_table in E2 as (Ht2 & Hn2 & Hl2).
  2: { intros [= <- <-]. split; [apply Hsame|]; congruence. }
  destruct r2 as [e|[]]; [intros [= <- <-]; split; [apply Hsame|]; congruence|].
  specialize (Hl2 _ eq_refl). cbn. intros [= <- <-]. cbn.
  rewrite Ht2, Ht1, Hn2, Hn1, Hl2, Hl1, <- app_assoc. destruct Hok as [Hlt Hinj].
  assert (forall d' h', channels_by_device b !! d' = Some h' -> ch_id h' <> next_channel_id b) as Hf.
  { intros d' h' E. apply Hlt in E. lia. }
  split; [|done]. unfold handles_ok. cbn. rewrite ?Ht2, ?Ht1, ?Hn2, ?Hn1.
  rewrite wrapping_add_small by lia. split.
  - intros d' h [[<- <-]|[_ E]]%lookup_insert_Some; [cbn; lia|]. apply Hlt in E. lia.
  - intros d1 d2 h1 h2 [[<- <-]|[_ E1]]%lookup_insert_Some [[<- <-]|[_ E2]]%lookup_insert_Some E;
      cbn in E; [done|..].
    + by destruct (Hf _ _ E2).
    + by destruct (Hf _ _ E1).
    + by eapply Hinj.
Qed.
End BlewDriver.
