(* ===== verification/Construct.v ===== *)
(** * Construct: bringing the transport up ([transport/transport.rs])

    [BleTransport::construct] on top of [Blew]: readiness, the GATT table,
    advertising, scanning, the L2CAP listener, the tasks it spawns, and the
    rollback of what was switched on when a step fails.  The log of requests of
    [Blew] is what the radio was asked to do.  The channels and counters that
    [construct_inner] creates are fresh and empty; the components they belong to
    are modelled elsewhere. *)

From S2P Require Import Prelude Async Peer Interface Events Blew Routing Registry Store.
From S2P Require Import Transport.
Open Scope Z_scope.

Definition CONSTRUCT_STEP_TIMEOUT : Duration := from_secs 5.

(** ** The GATT table *)

Definition write_notify : CharProps.t := CharProps.mk true true false.
Definition read_only : CharProps.t := CharProps.mk false false true.

Definition build_gatt_services (key_uuid : Uuid) : list GattService :=
  [mkGattService IROH_SERVICE_UUID true
     [mkGattCharacteristic IROH_C2P_CHAR_UUID write_notify (AttrPerms.mk true false) [];
      mkGattCharacteristic IROH_P2C_CHAR_UUID write_notify (AttrPerms.mk true false) [];
      mkGattCharacteristic IROH_VERSION_CHAR_UUID read_only (AttrPerms.mk false true)
        [PROTOCOL_VERSION];
      mkGattCharacteristic IROH_PSM_CHAR_UUID read_only (AttrPerms.mk false true) []];
   mkGattService key_uuid false []].

(** [adapter_wait_error]: an adapter that does not become ready in time is off. *)
Definition adapter_wait_error (e : BlewError.t) : BleError.t :=
  match e with
  | BlewError.Timeout => BleError.AdapterOff
  | other => BleError.Blew other
  end.

Definition construct_step {I A} (stage : string) (fut : Async I (BleResult A))
    : Async I (BleResult A) :=
  r ← timeout CONSTRUCT_STEP_TIMEOUT fut;
  mret (default (inl (BleError.Timeout stage)) r).

(** What has been switched on. [l2cap_accept] is the listener whose accept task
    runs. *)
Record ConstructRollback := mkRollback {
  rb_advertising : bool;
  rb_scanning : bool;
  rb_l2cap_accept : option Z;
}.
Definition rollback_default : ConstructRollback := mkRollback false false None.

(** The tasks [construct_inner] spawns besides the accept task. *)
Module SpawnedTask.
Inductive t := RegistryActor | HookForwarder | CentralEvents | PeripheralStateEvents
| PeripheralRequests | Watchdog.
End SpawnedTask.

(** The transport that was built, without the senders and counters it shares
    with its tasks.  [bt_incoming_rx] is the receiver [bind] takes. *)
Record BleTransport := mkBleTransport {
  bt_local_id : EndpointId;
  bt_registry : Registry;
  bt_routing : Routing;
  bt_adapter_state : BleAdapterState.t;
  bt_tasks : list SpawnedTask.t;
  bt_incoming_rx : option PacketRx;
}.

Section Construct.
Context {N : Type} {BL : Blew N} {HI : HashIter}.
Abbreviation Radio := (BlewDriver N).

(** [register_gatt_services]: the first error ends it. *)
Fixpoint register_gatt_services (l : list GattService) : Async Radio (BleResult unit) :=
  match l with
  | [] => mret (inr tt)
  | s :: l' => try_bind (ask (BlewCall.AddService s)) (fun _ => register_gatt_services l')
  end.

(** [Central::start_scan] may not be supported, which is not an error. *)
Definition try_start_scan : Async Radio (BleResult bool) :=
  r ← request BlewCall.StartScan;
  mret (match r with
        | inr _ => inr true
        | inl BlewError.NotSupported => inr false
        | inl e => inl (BleError.Blew e)
        end).

Definition wait_ready (c : BlewCall.t) : Async Radio (BleResult unit) :=
  r ← request c;
  mret (match r with inl e => inl (adapter_wait_error e) | inr _ => inr tt end).

(** [BlewDriver::new]. *)
Definition install (services : list GattService) (c : AdvertisingConfig) (scan : bool) (b : Radio)
    : Radio := BlewDriver_new (native b) (log b) services c scan.

(** The L2CAP listener; a failure is logged. *)
Definition start_listener (policy : L2capPolicy.t) : Async Radio (option Z) :=
  match policy with
  | L2capPolicy.PreferL2cap =>
      r ← construct_step "l2cap_listener" (ask BlewCall.L2capListener);
      match r with
      | inr (v, listener) => a_modify (listen v listener);; mret (Some listener)
      | inl _ => mret None
      end
  | L2capPolicy.Disabled => mret None
  end.

(** [construct_inner]; [&mut rollback] is returned. *)
Definition construct_inner (local_id : EndpointId) (policy : L2capPolicy.t)
    : Async Radio (BleResult BleTransport * ConstructRollback) :=
  let fail e rb : Async Radio (BleResult BleTransport * ConstructRollback) := mret (inl e, rb) in
  let rb := rollback_default in
  r ← wait_ready (BlewCall.CentralWaitReady (from_secs 5));
  match r with inl e => fail e rb | inr _ =>
  r ← wait_ready (BlewCall.PeripheralWaitReady (from_secs 5));
  match r with inl e => fail e rb | inr _ =>
  let key_uuid := iroh_key_uuid local_id in
  let services := build_gatt_services key_uuid in
  r ← construct_step "register_gatt_services" (register_gatt_services services);
  match r with inl e => fail e rb | inr _ =>
  let config := mkAdvertisingConfig [key_uuid] in
  let rb := mkRollback true false None in
  r ← construct_step "start_advertising" (ask (BlewCall.StartAdvertising config));
  match r with inl e => fail e rb | inr _ =>
  let rb := mkRollback true true None in
  r ← construct_step "start_scan" try_start_scan;
  match r with inl e => fail e rb | inr scanning =>
  let rb := mkRollback true scanning None in
  a_modify (install services config scanning);;
  accept ← start_listener policy;
  let rb := mkRollback true scanning accept in
  mret (inr (mkBleTransport local_id (Registry_new policy local_id) Routing_new
               BleAdapterState.PoweredOn
               [SpawnedTask.RegistryActor; SpawnedTask.HookForwarder; SpawnedTask.CentralEvents;
                SpawnedTask.PeripheralStateEvents; SpawnedTask.PeripheralRequests;
                SpawnedTask.Watchdog] (Some (mkPacketRx [] false))), rb)
  end end end end end.

(** [task.abort()] of the accept task. *)
Definition abort_accept (listener : Z) (b : Radio) : Radio :=
  mkBlewDriver (native b) (log b) (next_channel_id b) (channels_by_device b) (services b)
    (advertising_config b) (scan_filter b) (psm b) (List.filter (fun l => negb (l =? listener)) (accepting b)).

(** [ConstructRollback::run]; its errors are logged. *)
Definition rollback_run (rb : ConstructRollback) : Async Radio unit :=
  match rb_l2cap_accept rb with
  | Some l => a_modify (abort_accept l)
  | None => mret tt
  end;;
  (if rb_scanning rb then request BlewCall.StopScan;; mret tt else mret tt);;
  (if rb_advertising rb then request BlewCall.StopAdvertising;; mret tt else mret tt).

Definition construct (local_id : EndpointId) (policy : L2capPolicy.t)
    : Async Radio (BleResult BleTransport) :=
  r ← construct_inner local_id policy;
  match r with
  | (inr transport, _) => mret (inr transport)
  | (inl e, rb) => rollback_run rb;; mret (inl e)
  end.

(** [BleTransportBuilder]: whether a [Central] and a [Peripheral] were supplied,
    and the application's own store. *)
Record BleTransportBuilder (S : Type) := mkBuilder {
  bb_l2cap_policy : L2capPolicy.t;
  bb_central : bool;
  bb_peripheral : bool;
  bb_peer_store : option S;
}.
#[global] Arguments mkBuilder {S}.
#[global] Arguments bb_l2cap_policy {S}.
#[global] Arguments bb_central {S}.
#[global] Arguments bb_peripheral {S}.
#[global] Arguments bb_peer_store {S}.

Definition builder {S} : BleTransportBuilder S :=
  mkBuilder L2capPolicy.PreferL2cap false false None.

(** [Central::new().await?] unless one was supplied. *)
Definition create (supplied : bool) (c : BlewCall.t) : Async Radio (BleResult unit) :=
  if supplied then mret (inr tt)
  else r ← ask c; mret (match r with inl e => inl e | inr _ => inr tt end).

Definition build {S} (endpoint_id : EndpointId) (bb : BleTransportBuilder S)
    : Async Radio (BleResult (BleTransport * (InMemoryPeerStore + S))) :=
  try_bind (create (bb_central bb) BlewCall.CentralNew) (fun _ =>
  try_bind (create (bb_peripheral bb) BlewCall.PeripheralNew) (fun _ =>
  let store := match bb_peer_store bb with Some s => inr s | None => inl InMemory.new end in
  try_bind (construct endpoint_id (bb_l2cap_policy bb)) (fun t => mret (inr (t, store))))).

(** [bind]: the endpoint's receiver; [contended]: another [bind] holds the lock. *)
Definition bind (contended : bool) (t : BleTransport)
    : (string + PacketRx) * BleTransport :=
  if contended then (inl "BleTransport bind() contention"%string, t)
  else match bt_incoming_rx t with
  | None => (inl "BleTransport bind() already called"%string, t)
  | Some rx => (inr rx, mkBleTransport (bt_local_id t) (bt_registry t) (bt_routing t)
                          (bt_adapter_state t) (bt_tasks t) None)
  end.

Definition has_scan_hint_for_endpoint (endpoint_id : EndpointId) (t : BleTransport) : bool :=
  bool_decide (is_Some (scan_hint_for_prefix (prefix_from_endpoint endpoint_id) (bt_routing t))).

(** A transport is bound at most once. *)
Lemma bind_once c1 c2 t rx t1 :
  bind c1 t = (inr rx, t1) -> exists e, bind c2 t1 = (inl e, t1).
Proof.
  unfold bind. destruct c1; [done|]. destruct (bt_incoming_rx t); [|done].
  intros [= <- <-]. destruct c2; cbn; eauto.
Qed.

(** ** What the radio is asked to do *)

(** Running [c], however it ends, issues requests [l] with [Q result l]. *)
Definition issues {A} (c : Async Radio A) (Q : option A -> list BlewCall.t -> Prop) : Prop :=
  forall w b r b', c w b = (r, b') -> exists l, log b' = log b ++ l /\ Q (snd <$> r) l.

Lemma issues_request c : issues (request c) (fun _ l => l = [c]).
Proof. intros w b r b'. unfold request. destruct (blew c w (native b)). intros [= <- <-]. by eexists. Qed.

Lemma issues_ret {A} (a : A) : issues (mret a) (fun r l => r = Some a /\ l = []).
Proof. intros w b r b' [= <- <-]. exists []. by rewrite app_nil_r. Qed.

Lemma issues_weaken {A} (c : Async Radio A) (P Q : option A -> list BlewCall.t -> Prop) :
  issues c P -> (forall r l, P r l -> Q r l) -> issues c Q.
Proof. intros Hc HPQ w b r b' E. destruct (Hc _ _ _ _ E) as (l & ? & ?). eauto. Qed.

Lemma issues_mret {A} (a : A) (Q : option A -> list BlewCall.t -> Prop) :
  Q (Some a) [] -> issues (mret a) Q.
Proof. intros HQ. eapply issues_weaken; [apply issues_ret|]. by intros r l [-> ->]. Qed.

Lemma issues_modify f : (forall b : Radio, log (f b) = log b) ->
  issues (a_modify f) (fun r l => r = Some tt /\ l = []).
Proof. intros Hf w b r b' [= <- <-]. exists []. by rewrite app_nil_r. Qed.

Lemma issues_bind {A B} (c : Async Radio A) (f : A -> Async Radio B) P Q :
  issues c P -> (forall a l, P (Some a) l -> issues (f a) (fun r l' => Q r (l ++ l'))) ->
  (forall l, P None l -> Q None l) -> issues (c ≫= f) Q.
Proof.
  intros Hc Hf Hn w b r b' E. unfold mbind, Async_bind in E.
  destruct (c w b) as [[[t a]|] b1] eqn:E1; destruct (Hc _ _ _ _ E1) as (l & Hl & HP); cbn in HP.
  - destruct (f a (left_of w t) b1) as [[[t' r']|] b2] eqn:E2;
      destruct (Hf a l HP _ _ _ _ E2) as (l' & Hl' & HQ); simplify_eq; cbn in HQ.
    + exists (l ++ l'). by rewrite Hl', Hl, app_assoc.
    + exists (l ++ l'). by rewrite Hl', Hl, app_assoc.
  - simplify_eq. exists l. auto.
Qed.

Lemma issues_timeout {A} d (c : Async Radio A) P :
  issues c P ->
  issues (timeout d c) (fun r l => P (default None r) l \/ (r = None /\ P None l)).
Proof.
  intros Hc w b r b' E. unfold timeout in E.
  destruct (c _ b) as [[[t a]|] b1] eqn:E1; destruct (Hc _ _ _ _ E1) as (l & Hl & HP); cbn in HP.
  - simplify_eq. exists l. cbn. auto.
  - exists l. destruct (fits_in d w); simplify_eq; cbn; auto.
Qed.

Lemma issues_step {A} stage (c : Async Radio (BleResult A)) P :
  issues c P ->
  issues (construct_step stage c) (fun r l =>
    match r with
    | Some (inr a) => P (Some (inr a)) l
    | Some (inl e) => P (Some (inl e)) l \/ P None l
    | None => P None l
    end).
Proof.
  intros Hc. eapply issues_bind; [apply (issues_timeout _ _ _ Hc)| |].
  - intros r l HP. eapply issues_weaken; [apply issues_ret|]. intros r' l' [-> ->].
    rewrite app_nil_r. destruct r as [[e|a]|]; cbn in *.
    + destruct HP as [?|[? _]]; [by left|done].
    + by destruct HP as [?|[? _]].
    + destruct HP as [?|[? _]]; [by right|done].
  - intros l [HP|[_ HP]]; done.
Qed.

Lemma issues_ask c : issues (ask c) (fun _ l => l = [c]).
Proof.
  eapply issues_bind; [apply issues_request| |done]. intros r l ->.
  by apply issues_mret.
Qed.

Lemma issues_wait c : issues (wait_ready c) (fun _ l => l = [c]).
Proof.
  eapply issues_bind; [apply issues_request| |done]. intros r l ->.
  by apply issues_mret.
Qed.

Lemma issues_scan : issues try_start_scan (fun _ l => l = [BlewCall.StartScan]).
Proof.
  eapply issues_bind; [apply issues_request| |done]. intros r l ->.
  by apply issues_mret.
Qed.

Lemma issues_register ss :
  issues (register_gatt_services ss) (fun r l =>
    l `prefix_of` (BlewCall.AddService <$> ss) /\
    (r = Some (inr tt) -> l = BlewCall.AddService <$> ss)).
Proof.
  induction ss as [|s ss IH].
  - by apply issues_mret.
  - cbn. eapply issues_bind; [exact (issues_ask (BlewCall.AddService s))| |].
    + intros [e|[]] l ->.
      * eapply issues_weaken; [apply issues_ret|]. intros r l [-> ->]. cbn.
        split; [apply prefix_cons, prefix_nil|done].
      * eapply issues_weaken; [exact IH|]. intros r l [H1 H2]. cbn.
        split; [by apply prefix_cons|]. intros Hr. by rewrite H2.
    + intros l ->. split; [apply prefix_cons, prefix_nil|done].
Qed.

(** ** The plan *)

Definition config_of (local_id : EndpointId) : AdvertisingConfig :=
  mkAdvertisingConfig [iroh_key_uuid local_id].

(** The requests that can make [construct] fail, in order. *)
Definition plan (local_id : EndpointId) : list BlewCall.t :=
  [BlewCall.CentralWaitReady (from_secs 5); BlewCall.PeripheralWaitReady (from_secs 5)]
  ++ (BlewCall.AddService <$> build_gatt_services (iroh_key_uuid local_id))
  ++ [BlewCall.StartAdvertising (config_of local_id); BlewCall.StartScan].

Definition listener_request (policy : L2capPolicy.t) : list BlewCall.t :=
  match policy with L2capPolicy.PreferL2cap => [BlewCall.L2capListener] | _ => [] end.

Definition started_advertising (l : list BlewCall.t) : bool :=
  existsb (fun c => match c with BlewCall.StartAdvertising _ => true | _ => false end) l.
Definition started_scan (l : list BlewCall.t) : bool :=
  existsb (fun c => match c with BlewCall.StartScan => true | _ => false end) l.

(** What undoes the requests [l], scanning first. *)
Definition undo (l : list BlewCall.t) : list BlewCall.t :=
  (if started_scan l then [BlewCall.StopScan] else [])
  ++ (if started_advertising l then [BlewCall.StopAdvertising] else []).

Definition rollback_for (l : list BlewCall.t) : ConstructRollback :=
  mkRollback (started_advertising l) (started_scan l) None.

Definition inner_spec (local_id : EndpointId) (policy : L2capPolicy.t)
    (r : option (BleResult BleTransport * ConstructRollback)) (l : list BlewCall.t) : Prop :=
  match r with
  | Some (inl _, rb) => l `prefix_of` plan local_id /\ rb = rollback_for l
  | Some (inr t, _) =>
      l = plan local_id ++ listener_request policy /\ bt_local_id t = local_id /\
      bt_registry t = Registry_new policy local_id
  | None => True
  end.

Lemma issues_listener policy :
  issues (start_listener policy) (fun r l => is_Some r -> l = listener_request policy).
Proof.
  unfold start_listener, listener_request. destruct policy.
  { by apply issues_mret. }
  eapply issues_bind; [apply issues_step; exact (issues_ask BlewCall.L2capListener)| |].
  - intros r l Hl. assert (l = [BlewCall.L2capListener]) as ->.
    { destruct r; [by destruct Hl|done]. }
    destruct r as [e|[v li]].
    + by apply issues_mret.
    + eapply issues_bind; [by apply issues_modify| |by intros l [? _]].
      intros [] l [_ ->]. by apply issues_mret.
  - intros l _. by intros [? ?].
Qed.

Lemma adds_start_nothing k ss :
  k `prefix_of` (BlewCall.AddService <$> ss) -> started_advertising k = false /\ started_scan k = false.
Proof.
  intros [k' E]. unfold started_advertising, started_scan.
  assert (Forall (fun c => exists s, c = BlewCall.AddService s) k) as Hk.
  { assert (Forall (fun c => exists s, c = BlewCall.AddService s) (k ++ k')) as H.
    { rewrite <- E. apply Forall_fmap, Forall_true. intros s. by eexists. }
    by apply Forall_app in H as [H _]. }
  clear E. induction Hk as [|c k [s ->] _ IH]; [done|]. exact IH.
Qed.

Lemma issues_inner local_id policy :
  issues (construct_inner local_id policy) (inner_spec local_id policy).
Proof.
  unfold construct_inner.
  eapply issues_bind; [apply issues_wait| |done]. intros [e|[]] l ->.
  { by apply issues_mret; split; [eexists|]. }
  eapply issues_bind; [apply issues_wait| |done]. intros [e|[]] l ->.
  { by apply issues_mret; split; [eexists|]. }
  eapply issues_bind; [apply issues_step, issues_register| |done].
  intros [e|[]] l Hl.
  { assert (l `prefix_of` (BlewCall.AddService <$> build_gatt_services (iroh_key_uuid local_id)))
      as Hp by (by destruct Hl as [[? _]|[? _]]).
    destruct (adds_start_nothing _ _ Hp) as [Ha Hs]. apply issues_mret. rewrite app_nil_r. split.
    - destruct Hp as [k Hk]. exists (k ++ [BlewCall.StartAdvertising (config_of local_id);
        BlewCall.StartScan]). unfold plan. rewrite Hk. by rewrite <- !app_assoc.
    - unfold rollback_for, started_advertising, started_scan in *. cbn [existsb app orb].
      by rewrite Ha, Hs. }
  destruct Hl as [_ Hl]. rewrite (Hl eq_refl). clear l Hl.
  eapply issues_bind;
    [apply issues_step; exact (issues_ask (BlewCall.StartAdvertising (config_of local_id)))| |done].
  intros [e|[]] l Hl.
  { assert (l = [BlewCall.StartAdvertising (config_of local_id)]) as -> by (by destruct Hl).
    by apply issues_mret; split; [eexists|]. }
  rewrite Hl. clear l Hl. eapply issues_bind; [apply issues_step, issues_scan| |done].
  intros [e|scanning] l Hl.
  { assert (l = [BlewCall.StartScan]) as -> by (by destruct Hl).
    by apply issues_mret; split; [eexists|]. }
  rewrite Hl. clear l Hl. eapply issues_bind; [by apply issues_modify| |done].
  intros [] l [_ ->]. eapply issues_bind; [apply issues_listener| |done].
  intros accept l Hl. rewrite (Hl ltac:(by eexists)).
  apply issues_mret. rewrite app_nil_r. by split.
Qed.

Lemma issues_rollback l :
  issues (rollback_run (rollback_for l)) (fun r l' => is_Some r -> l' = undo l).
Proof.
  unfold rollback_run, undo. cbn.
  eapply issues_bind; [apply issues_ret| |by intros ? [? _]]. intros [] l0 [_ ->].
  eapply (issues_bind _ _ (fun r l' => is_Some r ->
    l' = if started_scan l then [BlewCall.StopScan] else [])).
  - destruct (started_scan l).
    + eapply issues_bind; [exact (issues_request BlewCall.StopScan)| |by intros l' _ [? ?]].
      intros r l' ->. by apply issues_mret.
    + by apply issues_mret.
  - intros [] l1 H1. rewrite (H1 ltac:(by eexists)). destruct (started_advertising l).
    + eapply issues_bind; [exact (issues_request BlewCall.StopAdvertising)| |by intros l' _ [? ?]].
      intros r l' ->. by apply issues_mret.
    + by apply issues_mret.
  - by intros l' _ [? ?].
Qed.

(** C26. A failed construction leaves nothing running.  If [construct] returns
    an error, the requests it issued are a prefix of the plan (readiness of both
    roles, the GATT services, advertising, scanning) followed by exactly the
    requests that stop what that prefix started, scanning before advertising,
    also when the failure was a step running into its timeout.  If it returns a
    transport, the whole plan was carried out, followed by the L2CAP listener
    where the policy asks for one, and nothing was stopped. *)
Theorem construct_cleans_up (local_id : EndpointId) (policy : L2capPolicy.t) (b b' : Radio)
    (t : Duration) (r : BleResult BleTransport) :
  await (construct local_id policy) b = (Some (t, r), b') ->
  match r with
  | inl _ => exists l, l `prefix_of` plan local_id /\ log b' = log b ++ l ++ undo l
  | inr tr => log b' = log b ++ plan local_id ++ listener_request policy /\
      bt_local_id tr = local_id /\ bt_registry tr = Registry_new policy local_id
  end.
Proof.
  assert (issues (construct local_id policy) (fun r l => match r with
    | Some (inl _) => exists k, k `prefix_of` plan local_id /\ l = k ++ undo k
    | Some (inr tr) => l = plan local_id ++ listener_request policy /\
        bt_local_id tr = local_id /\ bt_registry tr = Registry_new policy local_id
    | None => True
    end)) as Hi.
  { eapply issues_bind; [apply issues_inner| |done]. intros [[e|tr] rb] l Hl; cbn in Hl.
    - destruct Hl as [Hp ->]. eapply issues_bind; [apply issues_rollback| |done].
      intros [] l' Hl'. rewrite (Hl' ltac:(by eexists)).
      eapply issues_weaken; [apply issues_ret|]. intros r' l'' [-> ->]. exists l.
      by rewrite app_nil_r.
    - eapply issues_weaken; [apply issues_ret|]. intros r' l' [-> ->]. by rewrite app_nil_r. }
  intros E. destruct (Hi _ _ _ _ E) as (l & Hl & HQ). cbn in HQ. destruct r as [e|tr].
  - destruct HQ as (k & Hk & ->). eauto.
  - destruct HQ as (-> & ? & ?). done.
Qed.

(** A builder that cannot create its radios has started nothing. *)
Lemma build_fails_early {S} ep (bb : BleTransportBuilder S) b b' t e :
  await (create (bb_central bb) BlewCall.CentralNew) b = (Some (t, inl e), b') ->
  await (build ep bb) b = (Some (t, inl e), b') /\ log b' = log b ++ [BlewCall.CentralNew].
Proof.
  intros E. split.
  - unfold await in *. unfold build, try_bind at 1, mbind, Async_bind. rewrite E. cbn.
    by rewrite Z.add_0_r.
  - unfold await, create in E. destruct (bb_central bb); [done|].
    unfold mbind, Async_bind in E. unfold ask, mbind, Async_bind, request in E.
    destruct (blew _ _ _) as [[[t1 r1]|] n1]; [|done]. by simplify_eq/=.
Qed.

(** ** How long it takes *)

#[local] Instance register_timely ss : Timely (register_gatt_services ss).
Proof. induction ss as [|s ss IH]; cbn; [apply _|]. unfold ask. apply _. Qed.

Lemma construct_step_returns {A} stage (c : Async Radio (BleResult A)) :
  Timely c -> returns_within CONSTRUCT_STEP_TIMEOUT (construct_step stage c) (fun _ => True).
Proof.
  intros Hc. rewrite <- (Z.add_0_r CONSTRUCT_STEP_TIMEOUT). unfold construct_step.
  eapply returns_bind; [by apply timeout_returns|]. intros r _. by apply returns_ret.
Qed.

Lemma returns_zero {A} d (a : A) :
  0 <= d -> returns_within d (mret a : Async Radio A) (fun _ => True).
Proof. intros Hd. by eapply returns_weaken; [exact Hd| |by apply (returns_ret a (fun _ => True))]. Qed.

Lemma listener_returns policy :
  returns_within CONSTRUCT_STEP_TIMEOUT (start_listener policy) (fun _ => True).
Proof.
  destruct policy; cbn [start_listener]; [by apply returns_zero|].
  rewrite <- (Z.add_0_r CONSTRUCT_STEP_TIMEOUT). eapply returns_bind.
  { apply construct_step_returns. unfold ask. apply _. }
  intros [e|[v li]] _; [by apply returns_ret|]. intros b. by repeat eexists.
Qed.

Lemma wait_returns c :
  returns_within CONSTRUCT_STEP_TIMEOUT (request c) (fun _ => True) ->
  returns_within CONSTRUCT_STEP_TIMEOUT (wait_ready c) (fun _ => True).
Proof.
  intros Hc. rewrite <- (Z.add_0_r CONSTRUCT_STEP_TIMEOUT). unfold wait_ready.
  eapply returns_bind; [exact Hc|]. intros r _. by apply returns_ret.
Qed.

Lemma step_then {A B} d (c : Async Radio (BleResult A)) (k : BleResult A -> Async Radio B) :
  returns_within CONSTRUCT_STEP_TIMEOUT c (fun _ => True) ->
  (forall r, returns_within d (k r) (fun _ => True)) ->
  returns_within (CONSTRUCT_STEP_TIMEOUT + d) (c ≫= k) (fun _ => True).
Proof. intros Hc Hk. eapply returns_bind; [exact Hc|]. auto. Qed.

Lemma inner_returns local_id policy :
  returns_within CONSTRUCT_STEP_TIMEOUT (request (BlewCall.CentralWaitReady (from_secs 5))) (fun _ => True) ->
  returns_within CONSTRUCT_STEP_TIMEOUT (request (BlewCall.PeripheralWaitReady (from_secs 5)))
    (fun _ => True) ->
  returns_within (6 * CONSTRUCT_STEP_TIMEOUT) (construct_inner local_id policy) (fun _ => True).
Proof.
  intros H1 H2. set (T := CONSTRUCT_STEP_TIMEOUT).
  replace (6 * T) with (T + (T + (T + (T + (T + (0 + (T + 0))))))) by lia. unfold construct_inner.
  apply step_then; [by apply wait_returns|]. intros [e|[]]; [by apply returns_zero|].
  apply step_then; [by apply wait_returns|]. intros [e|[]]; [by apply returns_zero|].
  apply step_then; [apply construct_step_returns, _|]. intros [e|[]]; [by apply returns_zero|].
  apply step_then; [apply construct_step_returns; unfold ask; apply _|].
  intros [e|[]]; [by apply returns_zero|].
  apply step_then; [apply construct_step_returns; unfold try_start_scan; apply _|].
  intros [e|scanning]; [by apply returns_zero|].
  eapply (returns_bind _ _ _ _ (fun _ => True)); [intros b; by repeat eexists|]. intros [] _.
  eapply returns_bind; [apply listener_returns|]. intros a _. by apply returns_ret.
Qed.

Lemma stop_returns d c (on : bool) :
  0 <= d -> returns_within d (request c) (fun _ => True) ->
  returns_within d (if on then request c;; mret tt else mret tt) (fun _ => True).
Proof.
  intros Hd Hc. destruct on; [|by apply returns_zero]. rewrite <- (Z.add_0_r d).
  eapply returns_bind; [exact Hc|]. intros r _. by apply returns_ret.
Qed.

(** Construction is bounded as long as the radio can be stopped.  If the
    two readiness waits keep to their own five seconds and the two stop requests
    answer within [d], then whatever the radio does to the other requests
    [construct] returns within thirty seconds plus twice [d]. *)
Theorem construct_returns (local_id : EndpointId) (policy : L2capPolicy.t) (d : Duration) :
  0 <= d ->
  returns_within CONSTRUCT_STEP_TIMEOUT (request (BlewCall.CentralWaitReady (from_secs 5)))
    (fun _ => True) ->
  returns_within CONSTRUCT_STEP_TIMEOUT (request (BlewCall.PeripheralWaitReady (from_secs 5)))
    (fun _ => True) ->
  returns_within d (request BlewCall.StopScan) (fun _ => True) ->
  returns_within d (request BlewCall.StopAdvertising) (fun _ => True) ->
  returns_within (6 * CONSTRUCT_STEP_TIMEOUT + 2 * d) (construct local_id policy) (fun _ => True).
Proof.
  intros Hd H1 H2 H3 H4. unfold construct.
  eapply returns_bind; [by apply inner_returns|]. intros [[e|tr] rb] _; [|apply returns_zero; lia].
  replace (2 * d) with (0 + (d + d) + 0) by lia.
  eapply (returns_bind _ _ _ _ (fun _ => True)); [|intros; by apply returns_ret].
  unfold rollback_run. eapply (returns_bind _ _ _ _ (fun _ => True)).
  { destruct (rb_l2cap_accept rb); [intros b; by repeat eexists|by apply returns_zero]. }
  intros [] _. eapply (returns_bind _ _ _ _ (fun _ => True)); [by apply stop_returns|].
  intros [] _. by apply stop_returns.
Qed.
End Construct.

(** ** A wedged stack *)

Definition default_reply (c : BlewCall.t) : BlewCall.reply c :=
  match c with
  | BlewCall.L2capListener => (0, 0)
  | BlewCall.NotifyChar _ _ _ => Delivery.Delivered
  | BlewCall.ReadChar _ _ => []
  | BlewCall.OpenL2cap _ _ => 0
  | BlewCall.IsPowered => true
  | _ => tt
  end.

Definition about_scanning (c : BlewCall.t) : bool :=
  match c with BlewCall.StartScan | BlewCall.StopScan => true | _ => false end.

(** A radio that answers at once, except that the [silent] requests never come
    back. *)
#[refine] Definition scripted_radio (silent : BlewCall.t -> bool) : Blew unit := {|
  blew c := fun w n => (if silent c then None else Some (0, inr (default_reply c)), n);
  blew_mtu d := fun w n => (Some (0, 0), n);
|}.
Proof.
  intros c. destruct (silent c).
  - by intros w n t a n'.
  - apply timely_now. by repeat eexists.
Defined.

Definition wedged_radio : Blew unit := scripted_radio about_scanning.

(** C36. The rollback itself is not bounded.  Against a stack that never answers
    requests about scanning, [start_scan] runs into its timeout, and the
    rollback then awaits [stop_scan] without one: [construct] never returns. *)
Theorem construct_can_hang (local_id : EndpointId) (policy : L2capPolicy.t) (b : BlewDriver unit) :
  (await (construct (BL:=wedged_radio) local_id policy) b).1 = None /\
  log (await (construct (BL:=wedged_radio) local_id policy) b).2 = log b ++ plan local_id ++ [BlewCall.StopScan].
Proof.
  split; [reflexivity|].
  assert (forall (l : list BlewCall.t) c1 c2 c3 c4 c5 c6 c7,
    ((((((l ++ [c1]) ++ [c2]) ++ [c3]) ++ [c4]) ++ [c5]) ++ [c6]) ++ [c7]
    = l ++ [c1; c2; c3; c4; c5; c6; c7]) as Hl by (intros; by rewrite <- !app_assoc).
  exact (Hl (log b) _ _ _ _ _ _ _).
Qed.

(** A radio on which scanning cannot be started but can be stopped. *)
Definition half_wedged_radio : Blew unit :=
  scripted_radio (fun c => match c with BlewCall.StartScan => true | _ => false end).

Lemma construct_cleans_up_witness :
  let b := BlewDriver_new tt [] [] (mkAdvertisingConfig []) false in
  exists b' l,
    await (construct (BL:=half_wedged_radio) [1; 2] L2capPolicy.Disabled) b
      = (Some (CONSTRUCT_STEP_TIMEOUT, inl (BleError.Timeout "start_scan")), b') /\
    l `prefix_of` plan [1; 2] /\ log b' = log b ++ l ++ undo l.
Proof.
  eexists. eassert (await (construct (BL:=half_wedged_radio) [1; 2] L2capPolicy.Disabled)
    (BlewDriver_new tt [] [] (mkAdvertisingConfig []) false) = (Some (_, inl _), _)) as E.
  { vm_compute. reflexivity. }
  destruct (construct_cleans_up _ _ _ _ _ _ E) as (l & Hp & Hl).
  exists l. split; [exact E|]. split; [exact Hp|exact Hl].
Defined.
