(* ===== verification/Watchdog.v ===== *)
(** * Watchdog: the registry's clock ([transport/watchdog.rs])

    [run_watchdog] over the sends it makes: each lasts some time (the inbox may
    be full) or finds the inbox closed.  The interval uses
    [MissedTickBehavior::Delay]: after a missed tick the next one is due a period
    after the late one, otherwise a period after the one that was due. *)

From S2P Require Import Prelude Peer.
Open Scope Z_scope.

Definition TICK_INTERVAL : Duration := from_millis 250.

Section Watchdog.
(** How late the timer may be without having missed its tick. *)
Context (slack : Duration).

(** The commands sent from [now] on, the next tick being due at [due]; a send is
    the time it takes, or [None] when the inbox is closed. *)
Fixpoint run_watchdog (sends : list (option Duration)) (now due : Instant)
    : list PeerCommand.t :=
  match sends with
  | [] => []
  | send :: sends' =>
      let t := Z.max now due in
      let next := (if due + slack <? t then t else due) + TICK_INTERVAL in
      match send with
      | Some d => PeerCommand.Tick t :: run_watchdog sends' (t + d) next
      | None => []
      end
  end.

(** The time between consecutive ticks satisfies [gap]. *)
Inductive spaced (gap : Duration -> Prop) : list PeerCommand.t -> Prop :=
| spaced_nil : spaced gap []
| spaced_one t : spaced gap [PeerCommand.Tick t]
| spaced_cons t t' l :
    gap (t' - t) -> spaced gap (PeerCommand.Tick t' :: l) ->
    spaced gap (PeerCommand.Tick t :: PeerCommand.Tick t' :: l).

(** Ticks never bunch up, however long the inbox was full. *)
Lemma watchdog_spaced sends now due :
  0 <= slack -> spaced (fun g => TICK_INTERVAL - slack <= g) (run_watchdog sends now due).
Proof.
  intros Hs. revert now due. induction sends as [|[d|] sends IH]; intros now due;
    [constructor| |constructor].
  cbn [run_watchdog]. set (next := _ + TICK_INTERVAL). specialize (IH (Z.max now due + d) next).
  destruct sends as [|[d'|] sends]; cbn [run_watchdog] in *; try constructor; [|exact IH].
  subst next. destruct (Z.ltb_spec (due + slack) (Z.max now due)); lia.
Qed.

(** As long as the inbox takes a tick within a period, they are a period apart. *)
Lemma watchdog_regular sends now due :
  0 <= slack -> now <= due -> Forall (fun s => default 0 s <= TICK_INTERVAL) sends ->
  spaced (eq TICK_INTERVAL) (run_watchdog sends now due).
Proof.
  intros Hs. revert now due. induction sends as [|[d|] sends IH]; intros now due Hn Hf;
    [constructor| |constructor].
  apply Forall_cons in Hf as [Hd Hf]. cbn in Hd. cbn [run_watchdog].
  replace (Z.max now due) with due by lia.
  destruct (Z.ltb_spec (due + slack) due); [lia|].
  specialize (IH (due + d) (due + TICK_INTERVAL) ltac:(lia) Hf).
  destruct sends as [|[d'|] sends]; cbn [run_watchdog] in *; try constructor; [|exact IH]. lia.
Qed.
End Watchdog.
