(* ===== verification/Actor.v ===== *)
(** * Actor: the registry's command loop ([registry.rs], [Registry::run])

    One iteration of the loop: wake the senders parked on a full inbox, handle
    the command (a [VerifiedEndpoint] resolves its token against the routing
    table first), hand the actions to the driver, publish the snapshot and the
    adapter state, stop after [Shutdown].  The actions handed to the driver are
    collected in [a_trace]; other tasks change the routing table, the parked
    wakers and the channels between iterations as they like. *)

From S2P Require Import Prelude Peer Routing Registry RegistryInv.
Open Scope Z_scope.

Record Actor := mkActor {
  a_reg : Registry;
  a_routing : Routing;
  a_snapshots : gmap DeviceId PeerStateSummary;
  a_capacity_wakers : list Waker;
  a_woken : list Waker;
  a_trace : list PeerAction.t;
  a_running : bool;
}.

Section Run.
Context {HI : HashIter} {MP : Mpsc}.

(** The match on the command: the actions, the registry, the table, the store.
    The loop collects the actions of both handlers in one vector. *)
Definition run_cmd (now : Instant) (wall : Z) (cmd : PeerCommand.t) (r : Registry)
    (rt : Routing) (en : Env) : option (list PeerAction.t * Registry * Routing * Env) :=
  match cmd with
  | PeerCommand.VerifiedEndpoint endpoint_id token =>
      let exact_device_id := token ≫= (fun t => device_for_pipe t rt) in
      '(acts, r, rt, en) ←
        match exact_device_id with
        | Some d =>
            match note_scan_hint (prefix_from_endpoint endpoint_id) d rt with
            | (ScanHintUpdate.Replaced previous, rt) =>
                '(acts, r, en) ← handle now wall (PeerCommand.Forget previous) r en;
                Some (acts, r, rt, en)
            | (_, rt) => Some ([], r, rt, en)
            end
        | None => Some ([], r, rt, en)
        end;
      '(_, s) ← handle_verified_endpoint now wall endpoint_id exact_device_id (mkCtx r acts en);
      Some (actions s, reg s, rt, env s)
  | _ =>
      '(acts, r, en) ← handle now wall cmd r en;
      Some (acts, r, rt, en)
  end.

(** One iteration; the store afterwards is returned too. *)
Definition run_iter (now : Instant) (wall : Z) (cmd : PeerCommand.t) (en : Env) (a : Actor)
    : option (Actor * Env) :=
  let to_wake := a_capacity_wakers a in
  let shutdown := match cmd with PeerCommand.Shutdown => true | _ => false end in
  '(acts, r, rt, en) ← run_cmd now wall cmd (a_reg a) (a_routing a) en;
  let snap := publish_snapshot r in
  let '(_, r) := publish_adapter_state r in
  Some (mkActor r rt snap [] (a_woken a ++ to_wake) (a_trace a ++ acts) (negb shutdown), en).

(** What other tasks may change between iterations. *)
Definition interfere (rt : Routing) (ws : list Waker) (a : Actor) : Actor :=
  mkActor (a_reg a) rt (a_snapshots a) (a_capacity_wakers a ++ ws) (a_woken a) (a_trace a)
    (a_running a).

Inductive run_step : Actor -> Actor -> Prop :=
| run_command now wall cmd en en' a a' :
    a_running a = true -> run_iter now wall cmd en a = Some (a', en') -> run_step a a'
| run_interfere rt ws a : run_step a (interfere rt ws a).

Definition run_init (policy : L2capPolicy.t) (me : EndpointId) (rt : Routing) : Actor :=
  mkActor (Registry_new policy me) rt ∅ [] [] [] true.

Definition run_reachable (policy : L2capPolicy.t) (me : EndpointId) (a : Actor) : Prop :=
  exists rt, rtc run_step (run_init policy me rt) a.

(** ** The invariant of the loop *)

Lemma publish_fold (l : list (DeviceId * PeerEntry)) (m : gmap DeviceId PeerStateSummary) k :
  NoDup l.*1 ->
  foldl (fun maps '(d, e) => <[d := summary e]> maps) m l !! k
  = match (list_to_map l : gmap DeviceId PeerEntry) !! k with
    | Some e => Some (summary e)
    | None => m !! k
    end.
Proof.
  revert m. induction l as [|[d e] l IH]; intros m Hnd; cbn; [by rewrite lookup_empty|].
  apply NoDup_cons in Hnd as [Hd Hnd]. rewrite IH by done.
  destruct (decide (k = d)) as [->|Hne].
  - rewrite !lookup_insert_eq. by rewrite (not_elem_of_list_to_map_1 _ _ Hd).
  - by rewrite !lookup_insert_ne.
Qed.

Lemma publish_snapshot_lookup r k : publish_snapshot r !! k = summary <$> peers r !! k.
Proof.
  unfold publish_snapshot. rewrite publish_fold, lookup_empty.
  - assert ((list_to_map (hm_iter (peers r)) : gmap _ _) = peers r) as ->; [|by destruct (peers r !! k)].
    rewrite <- (list_to_map_to_list (peers r)) at 2. apply list_to_map_proper; [|apply hm_iter_perm].
    rewrite hm_iter_perm. apply NoDup_fst_map_to_list.
  - rewrite hm_iter_perm. apply NoDup_fst_map_to_list.
Qed.

Definition LoopInv (a : Actor) : Prop :=
  ActorInv (a_trace a, a_reg a) /\
  forall d, a_snapshots a !! d = summary <$> peers (a_reg a) !! d.

(** What the invariant reads of the registry. *)
Lemma ActorInv_publish h r : ActorInv (h, r) -> ActorInv (h, (publish_adapter_state r).2).
Proof.
  intros Hi en. destruct (Hi en) as [H1 H2 H3 H4 H5 H6 H7 H8]. unfold publish_adapter_state.
  destruct (adapter_state_tx r); [|apply Hi]. constructor; eauto.
Qed.

Lemma handle_inv h now wall cmd r en acts r' en' :
  ActorInv (h, r) -> handle now wall cmd r en = Some (acts, r', en') ->
  forall en'', RegInv h (mkCtx r' acts en'').
Proof.
  intros Hi E en''. unfold handle in E.
  destruct (handle_cmd _ _ _ _) as [[u s]|] eqn:Ec; simplify_eq/=.
  pose proof (wp_run _ _ _ _ _ (handle_cmd_good h now wall cmd _ (Hi en)) Ec) as [].
  by constructor.
Qed.

Lemma run_cmd_inv h now wall cmd r rt en acts r' rt' en' :
  ActorInv (h, r) -> run_cmd now wall cmd r rt en = Some (acts, r', rt', en') ->
  ActorInv (h ++ acts, r').
Proof.
  intros Hi E.
  assert (forall s, RegInv h s -> ActorInv (h ++ actions s, reg s)) as Hfin.
  { intros s Hs en''. by apply (RegInv_commit _ _ en''). }
  assert (forall acts1 r1 en1 ep ex s, RegInv h (mkCtx r1 acts1 en1) ->
    handle_verified_endpoint now wall ep ex (mkCtx r1 acts1 en1) = Some (tt, s) ->
    ActorInv (h ++ actions s, reg s)) as Hver.
  { intros acts1 r1 en1 ep ex s Hr Ev. apply Hfin.
    exact (wp_run _ _ _ _ _ (handle_verified_endpoint_good h now wall ep ex _ Hr) Ev). }
  destruct cmd; cbn [run_cmd] in E;
    try (destruct (handle _ _ _ _ _) as [[[acts1 r1] en1]|] eqn:Eh; cbn in E; [|done];
         injection E as <- <- <- <-;
         exact (Hfin (mkCtx r1 acts1 en1) (handle_inv _ _ _ _ _ _ _ _ _ Hi Eh en1))).
  destruct (token ≫= (fun t => device_for_pipe t rt)) as [d|].
  - destruct (note_scan_hint _ d rt) as [u rt1].
    destruct u; cbn [mbind option_bind] in E;
      try (destruct (handle_verified_endpoint _ _ _ _ _) as [[[] s]|] eqn:Ev; cbn [mbind option_bind] in E; [|done];
           injection E as <- <- <- <-; exact (Hver _ _ _ _ _ _ (Hi en) Ev)).
    destruct (handle now wall _ r en) as [[[acts1 r1] en1]|] eqn:Eh; cbn [mbind option_bind] in E; [|done].
    destruct (handle_verified_endpoint _ _ _ _ _) as [[[] s]|] eqn:Ev; cbn [mbind option_bind] in E; [|done].
    injection E as <- <- <- <-.
    exact (Hver _ _ _ _ _ _ (handle_inv _ _ _ _ _ _ _ _ _ Hi Eh en1) Ev).
  - cbn [mbind option_bind] in E. destruct (handle_verified_endpoint _ _ _ _ _) as [[[] s]|] eqn:Ev; cbn [mbind option_bind] in E; [|done].
    injection E as <- <- <- <-. exact (Hver _ _ _ _ _ _ (Hi en) Ev).
Qed.

Lemma LoopInv_step a a' : run_step a a' -> LoopInv a -> LoopInv a'.
Proof.
  intros Hst [Hi Hs]. destruct Hst as [now wall cmd en en' a a' _ E|rt ws a]; [|done].
  unfold run_iter in E.
  destruct (run_cmd _ _ _ _ _ _) as [[[[acts r] rt] en1]|] eqn:Ec; cbn in E; [|done].
  apply (run_cmd_inv _ _ _ _ _ _ _ _ _ _ _ Hi) in Ec.
  pose proof (ActorInv_publish _ _ Ec) as Hp.
  assert (peers (publish_adapter_state r).2 = peers r) as Epeers
    by (unfold publish_adapter_state; by destruct (adapter_state_tx r)).
  destruct (publish_adapter_state r) as [b r2]. injection E as <- <-. split; cbn in *; [done|].
  intros d. by rewrite publish_snapshot_lookup, Epeers.
Qed.

Lemma run_reachable_inv policy me a : run_reachable policy me a -> LoopInv a.
Proof.
  intros (rt & Hr).
  assert (LoopInv (run_init policy me rt)) as H0.
  { split; [apply ActorInv_new|]. intros d. cbn. by rewrite !lookup_empty. }
  induction Hr as [|? ? ? Hs _ IH]; [done|]. by apply IH, (LoopInv_step _ _ Hs).
Qed.

(** C25. The loop keeps the discipline and publishes the truth.  In every run of
    the command loop, with the routing table, the channels and the parked
    senders changing between iterations as they like, the actions handed to the
    driver never start work under a retired lifecycle, no tracked peer has a
    retired one, and the published snapshot is the summary of every entry and
    of nothing else. *)
Theorem loop_discipline (policy : L2capPolicy.t) (me : EndpointId) (a : Actor) :
  run_reachable policy me a ->
  trace_ok (a_trace a) /\
  (forall d e, peers (a_reg a) !! d = Some e -> lifecycle_id e ∉ retired (a_trace a)) /\
  (forall d, a_snapshots a !! d = summary <$> peers (a_reg a) !! d).
Proof.
  intros [Hi Hs]%run_reachable_inv.
  destruct (Hi (mkEnv _ ∅ ∅ ∅)) as [_ _ Hc _ _ _ Ht _]. cbn in *. rewrite app_nil_r in *. eauto.
Qed.

(** A sender that uses the published generation is not turned away by it.
    [poll_send] stamps a datagram with the generation in the snapshot (0 for a
    device that is not in it).  In every run, if that is what the registry holds
    when the datagram arrives, it is refused at the door only if the peer is a
    tombstone or draining without the intent to resume: never because of its
    generation. *)
Theorem published_generation_accepted (policy : L2capPolicy.t) (me : EndpointId) (a : Actor)
    (d : DeviceId) (e : PeerEntry) :
  run_reachable policy me a -> peers (a_reg a) !! d = Some e ->
  let g := from_option sum_tx_gen 0 (a_snapshots a !! d) in
  send_decision g e = SendDecision.Reject <->
  PeerPhase.is_dead (phase e) = true \/
  (PeerPhase.is_draining (phase e) = true /\ resume_after_drain e = false).
Proof.
  intros [Hi Hs]%run_reachable_inv He. rewrite Hs, He. cbn.
  destruct (Hi (mkEnv _ ∅ ∅ ∅)) as [_ _ _ Hp _ _ _ _]. specialize (Hp d e He).
  unfold phase_ok in Hp. unfold send_decision.
  destruct (phase e); cbn; try (split; [done|intros [?|[? _]]; done]).
  - subst. rewrite Z.eqb_refl. split; [done|]. by intros [?|[? _]].
  - destruct (resume_after_drain e); split; try done; try by intros [?|[_ ?]]. by right.
  - split; [by left|done].
Qed.
End Run.

(** ** Witnesses *)

(** Discover a peer and dial it. *)
Definition demo_loop : option Actor :=
  let a0 := run_init L2capPolicy.Disabled demo_me Routing_new in
  '(a1, _) ← run_iter 0 0 (PeerCommand.Advertised (prefix_from_endpoint demo_peer) "dev" None)
               demo_env a0;
  fst <$> run_iter 1 0 (PeerCommand.SendDatagram "dev" None 0 [1; 2] 0) demo_env a1.

Lemma demo_loop_reachable a :
  demo_loop = Some a -> run_reachable L2capPolicy.Disabled demo_me a.
Proof.
  unfold demo_loop. destruct (run_iter 0 0 _ _ _) as [[a1 en1]|] eqn:E1; [|done]. cbn [mbind option_bind].
  destruct (run_iter 1 0 _ _ _) as [[a2 en2]|] eqn:E2; [|done]. intros [= <-].
  exists Routing_new. eapply rtc_l; [by eapply run_command|].
  apply rtc_once. eapply run_command; [|exact E2].
  apply (f_equal (option_map (fun x => a_running x.1))) in E1. vm_compute in E1. by injection E1.
Defined.

Lemma demo_loop_facts :
  match demo_loop with
  | Some a => 1 ∈ retired (a_trace a) /\ is_Some (peers (a_reg a) !! "dev"%string)
  | None => False
  end.
Proof. vm_compute. split; [left|eauto]. Defined.

Lemma loop_discipline_witness : exists a,
  demo_loop = Some a /\ 1 ∈ retired (a_trace a) /\ trace_ok (a_trace a) /\
  is_Some (a_snapshots a !! "dev"%string).
Proof.
  pose proof demo_loop_facts as Hf. destruct demo_loop as [a|] eqn:E; [|done].
  destruct Hf as [H1 [e H2]]. exists a. split; [done|].
  destruct (loop_discipline _ _ a (demo_loop_reachable a E)) as (Ht & _ & Hs).
  split; [exact H1|]. split; [exact Ht|]. rewrite Hs, H2. by eexists.
Defined.

Lemma published_generation_accepted_witness : exists a e,
  demo_loop = Some a /\ peers (a_reg a) !! "dev"%string = Some e /\
  (send_decision (from_option sum_tx_gen 0 (a_snapshots a !! "dev"%string)) e
     = SendDecision.Reject <->
   PeerPhase.is_dead (phase e) = true \/
   (PeerPhase.is_draining (phase e) = true /\ resume_after_drain e = false)).
Proof.
  pose proof demo_loop_facts as Hf. destruct demo_loop as [a|] eqn:E; [|done].
  destruct Hf as [_ [e He]].
  exists a, e. split; [done|]. split; [exact He|].
  exact (published_generation_accepted _ _ a "dev" e (demo_loop_reachable a E) He).
Defined.
