(* ===== verification/Exec.v ===== *)
(** * Exec: the action executor ([transport/driver.rs], [Driver])

    The futures the driver queues on the lanes, as asynchronous calls on a
    radio, and [Driver::execute] as a whole: what an action does to the lanes,
    the routing table, the parked senders, and which tasks it spawns.  At the end
    the executor is composed with the registry: executing the actions of a run in
    order, interleaved with the lane workers in any way, no cancellable work
    starts under a retired lifecycle. *)

From S2P Require Import Prelude Async Peer Interface Store Routing Conns Lanes Driver Registry.
From S2P Require Import RegistryInv RegistrySafety Events Blew Construct.
Open Scope Z_scope.

(** ** The jobs *)

Definition VERSION_READ_TIMEOUT : Duration := from_secs 5.
Definition CLEANUP_TIMEOUT : Duration := from_secs 10.

(** [inbox.send(cmd).await] on the bounded inbox of the registry actor: it waits
    for room, which the actor makes and the other tasks take, so how long it
    waits, or whether for ever, is a parameter. *)
Class Inbox (I : Type) := {
  inbox_send : PeerCommand.t -> Async I unit;
  inbox_timely : forall cmd, Timely (inbox_send cmd);
}.
#[export] Existing Instance inbox_timely.

Section Jobs.
Context {BF : BlewFmt} {I : Type} {BI : BleInterface I} {IB : Inbox I}.

(** A failure or a time-out of clean-up is logged. *)
Definition bounded_cleanup (work : Async I (BleResult unit)) : Async I unit :=
  timeout CLEANUP_TIMEOUT work;; mret tt.

(** [read_psm_with_retry] against a radio: the attempts of the schedule. *)
Fixpoint read_psm_loop (d : DeviceId) (backoffs_ms : list Z) (last_err : option string)
    : Async I (string + Z) :=
  match backoffs_ms with
  | [] => mret (inl ("read_psm: " +:+ default "unknown" last_err)%string)
  | delay_ms :: rest =>
      (if 0 <? delay_ms then sleep (from_millis delay_ms) else mret tt);;
      r ← read_psm d;
      match r with
      | inr (Some psm) => mret (inr psm)
      | inr None => mret (inl "no psm advertised"%string)
      | inl e => read_psm_loop d rest (Some (BleError.display e))
      end
  end.

Definition display_err {A} (r : BleResult A) : string + A :=
  match r with inl e => inl (BleError.display e) | inr a => inr a end.

(** [spawn_l2cap_open]: the command it reports with. *)
Definition l2cap_open (d : DeviceId) (lifecycle_id upgrade_gen : Z) : Async I PeerCommand.t :=
  r ← timeout L2CAP_SELECT_TIMEOUT (
    try_bind (read_psm_loop d READ_PSM_BACKOFFS_MS None) (fun psm =>
    r ← open_l2cap d psm; mret (display_err r)));
  mret (match r with
    | Some (inr channel) => PeerCommand.OpenL2capSucceeded d lifecycle_id upgrade_gen channel
    | Some (inl error) => PeerCommand.OpenL2capFailed d lifecycle_id upgrade_gen error
    | None => PeerCommand.OpenL2capFailed d lifecycle_id upgrade_gen "l2cap select timeout"
    end).

(** A job reports before it ends; the result is what it sent. *)
Fixpoint report (cmds : list PeerCommand.t) : Async I (list PeerCommand.t) :=
  match cmds with
  | [] => mret []
  | cmd :: rest => inbox_send cmd;; sent ← report rest; mret (cmd :: sent)
  end.

(** The future of a job; it yields the commands it sent to the registry. *)
Definition run_work (d : DeviceId) (lifecycle_id : Z) (w : LaneWork.t)
    : Async I (list PeerCommand.t) :=
  match w with
  | LaneWork.Connect =>
      r ← connect d;
      report [match r with
        | inr channel => PeerCommand.ConnectSucceeded d lifecycle_id channel
        | inl e => PeerCommand.ConnectFailed d lifecycle_id (BleError.display e)
        end]
  | LaneWork.ReadVersion =>
      r ← timeout VERSION_READ_TIMEOUT (read_version d);
      report (check_version d lifecycle_id (display_err <$> r))
  | LaneWork.Disconnect => bounded_cleanup (disconnect d);; mret []
  | LaneWork.CloseNative => bounded_cleanup (disconnect d);; mret []
  | LaneWork.Refresh => bounded_cleanup (refresh d);; mret []
  | LaneWork.OpenL2cap upgrade_gen =>
      cmd ← l2cap_open d lifecycle_id upgrade_gen; report [cmd]
  end.

(** The task of [RestorePeripheral], which runs under the lock
    [peripheral_restore], and that of [RestartScan]; results are ignored. *)
Definition restore_peripheral (restart_l2cap : bool) : Async I unit :=
  rebuild_server;;
  (if restart_l2cap then restart_l2cap_listener;; mret tt else mret tt);;
  restart_advertising;;
  mret tt.
Definition restart_scan_task : Async I unit := restart_scan;; mret tt.

(** ** Every job returns *)

Lemma cleanup_returns (work : Async I (BleResult unit)) :
  Timely work -> returns_within CLEANUP_TIMEOUT (bounded_cleanup work;; mret []) (eq ([] : list PeerCommand.t)).
Proof.
  intros Hw. apply (returns_bind CLEANUP_TIMEOUT 0 _ _ (fun _ => True)); [|intros; by apply returns_ret].
  apply (returns_bind CLEANUP_TIMEOUT 0 _ _ (fun _ => True)); [by apply timeout_returns|].
  intros. by apply returns_ret.
Qed.

Lemma read_psm_loop_timely d l e : Timely (read_psm_loop d l e).
Proof.
  revert e. induction l as [|x l IH]; intros e; [apply _|]. cbn [read_psm_loop].
  apply timely_bind.
  - destruct (Z.ltb_spec 0 x); [apply timely_sleep; unfold from_millis; lia|apply _].
  - intros _. apply timely_bind; [apply _|]. intros [?|[?|]]; [apply IH|apply _|apply _].
Qed.

(** The commands a job may send: about its own device and lifecycle. *)
Definition reports (d : DeviceId) (lifecycle_id : Z) (w : LaneWork.t) (cmds : list PeerCommand.t)
    : Prop :=
  match w with
  | LaneWork.Connect =>
      (exists ch, cmds = [PeerCommand.ConnectSucceeded d lifecycle_id ch]) \/
      (exists e, cmds = [PeerCommand.ConnectFailed d lifecycle_id e])
  | LaneWork.ReadVersion =>
      cmds = [] \/ exists got, got <> PROTOCOL_VERSION /\
        cmds = [PeerCommand.ProtocolVersionMismatch d lifecycle_id got PROTOCOL_VERSION]
  | LaneWork.OpenL2cap g =>
      (exists ch, cmds = [PeerCommand.OpenL2capSucceeded d lifecycle_id g ch]) \/
      (exists e, cmds = [PeerCommand.OpenL2capFailed d lifecycle_id g e])
  | _ => cmds = []
  end.

Definition job_limit (connect_limit : Duration) (w : LaneWork.t) : Duration :=
  match w with
  | LaneWork.Connect => connect_limit
  | LaneWork.ReadVersion => VERSION_READ_TIMEOUT
  | LaneWork.OpenL2cap _ => L2CAP_SELECT_TIMEOUT
  | _ => CLEANUP_TIMEOUT
  end.

(** The jobs that report to the registry. *)
Definition reporting (w : LaneWork.t) : bool :=
  match w with
  | LaneWork.Connect | LaneWork.ReadVersion | LaneWork.OpenL2cap _ => true
  | LaneWork.Disconnect | LaneWork.CloseNative | LaneWork.Refresh => false
  end.

(** Reporting at most one command takes at most the time one send waits. *)
Lemma report_returns room cmds (Q : list PeerCommand.t -> Prop) :
  0 <= room -> (forall cmd, returns_within room (inbox_send cmd) (fun _ => True)) ->
  (length cmds <= 1)%nat -> Q cmds -> returns_within room (report cmds) Q.
Proof.
  intros H0 Hs Hl HQ. destruct cmds as [|cmd [|]]; cbn in Hl; [|cbn [report]|lia].
  - eapply returns_weaken; [exact H0|done|by apply returns_ret].
  - rewrite <- (Z.add_0_r room). eapply returns_bind; [apply Hs|]. intros _ _.
    change 0 with (0 + 0). eapply (returns_bind 0 0 _ _ (eq [])); [by apply returns_ret|].
    intros sent <-. by apply returns_ret.
Qed.

(** C20. Every job releases its lane.  Clean-up ends within ten seconds whatever
    the radio does, also when it never answers, and reports nothing.  A version
    read needs at most five seconds of the radio, an L2CAP open with its retries one
    and a half, whatever the radio does; a connect needs as long as the radio's own
    connect, which is assumed of that job only.  Those three then report to the
    registry, which takes as long as the inbox has no room.  A job reports on its
    own device and lifecycle: exactly one verdict for a connect and for an L2CAP
    open, at most a mismatch for a version read. *)
Theorem job_returns (d : DeviceId) (lifecycle_id : Z) (w : LaneWork.t) (limit room : Duration) :
  (w = LaneWork.Connect -> returns_within limit (connect d) (fun _ => True)) ->
  (reporting w = true ->
     0 <= room /\ forall cmd, returns_within room (inbox_send cmd) (fun _ => True)) ->
  returns_within (job_limit limit w + (if reporting w then room else 0))
    (run_work d lifecycle_id w) (reports d lifecycle_id w).
Proof.
  intros Hc Hi. destruct w as [| | | | |g]; cbn [run_work job_limit reporting] in *; rewrite ?Z.add_0_r.
  - destruct (Hi eq_refl) as [H0 Hs]. eapply returns_bind; [by apply Hc|].
    intros [e|ch] _; apply report_returns; cbn; eauto.
  - destruct (Hi eq_refl) as [H0 Hs].
    eapply returns_bind; [apply timeout_returns; [done|apply _]|].
    intros r _. apply report_returns; [done|done| |]; destruct r as [[e|[got|]]|]; cbn; auto;
      destruct (Z.eqb_spec got PROTOCOL_VERSION); cbn; eauto.
  - eapply returns_weaken; [reflexivity| |apply cleanup_returns, _]. by intros ? <-.
  - eapply returns_weaken; [reflexivity| |apply cleanup_returns, _]. by intros ? <-.
  - eapply returns_weaken; [reflexivity| |apply cleanup_returns, _]. by intros ? <-.
  - destruct (Hi eq_refl) as [H0 Hs].
    apply (returns_bind L2CAP_SELECT_TIMEOUT room _ _
      (fun cmd => reports d lifecycle_id (LaneWork.OpenL2cap g) [cmd]));
      [|intros cmd Hr; by apply report_returns; cbn; auto].
    change L2CAP_SELECT_TIMEOUT with (L2CAP_SELECT_TIMEOUT + 0).
    eapply returns_bind; [apply timeout_returns; [done|]|].
    + apply timely_try; [apply read_psm_loop_timely|]. intros psm. apply _.
    + intros r _. apply returns_ret. destruct r as [[e|ch]|]; cbn; eauto.
Qed.

(** With an inbox that never has room a job that has a verdict never returns, and
    its lane with it. *)
Lemma job_waits_for_inbox (d : DeviceId) (lifecycle_id : Z) (limit : Duration) (i : I) :
  (forall cmd b i, (inbox_send cmd b i).1 = None) ->
  returns_within limit (connect d) (fun _ => True) ->
  (run_work d lifecycle_id LaneWork.Connect None i).1 = None.
Proof.
  intros Hi Hc. destruct (Hc i) as (t & r & i' & E & _). cbn [run_work report].
  unfold mbind, Async_bind. rewrite E. cbn [left_of fmap option_fmap option_map].
  match goal with |- context [inbox_send ?c ?b ?i] =>
    pose proof (Hi c b i) as Hn; destruct (inbox_send c b i) as [[?|] ?] end; [done|].
  reflexivity.
Qed.
End Jobs.

(** ** What a restore asks of the radio *)

Section Restore.
Context {N : Type} {BL : Blew N} (ss : list GattService) (cfg : AdvertisingConfig).

(** On a driver with services [ss] and configuration [cfg], [c] issues exactly
    the requests [l] if it returns. *)
Definition issues_for {A} (c : Async (BlewDriver N) A) (l : list BlewCall.t) : Prop :=
  forall w b t a b', services b = ss -> advertising_config b = cfg -> c w b = (Some (t, a), b') ->
    log b' = log b ++ l /\ services b' = ss /\ advertising_config b' = cfg.

Lemma issues_for_ret {A} (a : A) : issues_for (mret a) [].
Proof. intros w b t a' b' Hs Hc [= <- <- <-]. by rewrite app_nil_r. Qed.

Lemma issues_for_request c : issues_for (request c) [c].
Proof. intros w b t a b' Hs Hc. unfold request. destruct (blew c w _). intros [= -> <-]. done. Qed.

Lemma issues_for_bind {A B} (c : Async (BlewDriver N) A) (f : A -> Async (BlewDriver N) B) l1 l2 :
  issues_for c l1 -> (forall a, issues_for (f a) l2) -> issues_for (c ≫= f) (l1 ++ l2).
Proof.
  intros Hc Hf w b t a b' Hs Hg E. unfold mbind, Async_bind in E.
  destruct (c w b) as [[[t1 a1]|] b1] eqn:E1; [|done].
  destruct (f a1 (left_of w t1) b1) as [[[t2 a2]|] b2] eqn:E2; [|done]. simplify_eq.
  edestruct Hc as (H1 & H2 & H3); [| |exact E1|]; [done..|].
  edestruct Hf as (H4 & H5 & H6); [| |exact E2|]; [done..|].
  split; [|done]. by rewrite H4, H1, app_assoc.
Qed.

Lemma issues_for_gets {A B} (g : BlewDriver N -> A) (k : A -> Async (BlewDriver N) B) a l :
  (forall b, services b = ss -> advertising_config b = cfg -> g b = a) ->
  issues_for (k a) l -> issues_for (a_gets g ≫= k) l.
Proof.
  intros Hg Hk w b t r b' Hs Hc E. unfold mbind, Async_bind, a_gets in E. cbn in E.
  rewrite (Hg _ Hs Hc) in E.
  destruct (k a _ b) as [[[t2 a2]|] b2] eqn:E2; [|done]. simplify_eq. by eapply Hk.
Qed.

Lemma issues_for_listen v li : issues_for (a_modify (listen v li)) [].
Proof. intros w b t a b' Hs Hc [= <- <- <-]. cbn. by rewrite app_nil_r. Qed.

Lemma issues_for_services l : issues_for (add_services l) (BlewCall.AddService <$> l).
Proof.
  induction l as [|s l IH]; cbn; [apply issues_for_ret|].
  apply (issues_for_bind _ _ [BlewCall.AddService s]);
    [exact (issues_for_request (BlewCall.AddService s))|]. by intros _.
Qed.

(** A restore registers the stashed services again before the listener is
    restarted, and advertises last, with the stashed configuration. *)
Lemma restore_order android restart_l2cap :
  issues_for (restore_peripheral (BI:=blew_interface android) restart_l2cap)
    (BlewCall.StopAdvertising :: (BlewCall.AddService <$> ss)
     ++ (if restart_l2cap then [BlewCall.L2capListener] else [])
     ++ [BlewCall.StopAdvertising; BlewCall.StartAdvertising cfg]).
Proof.
  apply (issues_for_bind _ _ (BlewCall.StopAdvertising :: (BlewCall.AddService <$> ss))).
  { apply (issues_for_bind _ _ [BlewCall.StopAdvertising]);
    [exact (issues_for_request BlewCall.StopAdvertising)|].
    intros _. eapply issues_for_gets; [by intros b Hs _|].
    rewrite <- (app_nil_r (_ <$> _)). eapply issues_for_bind; [apply issues_for_services|].
    intros _. apply issues_for_ret. }
  intros _. apply issues_for_bind.
  { destruct restart_l2cap; [|apply issues_for_ret].
    rewrite <- (app_nil_r [_]). apply issues_for_bind; [|intros; apply issues_for_ret].
    rewrite <- (app_nil_r [_]). eapply issues_for_bind; [exact (issues_for_request BlewCall.L2capListener)|].
    intros [e|[v li]]; [apply issues_for_ret|].
    rewrite <- (app_nil_r []). eapply issues_for_bind; [apply issues_for_listen|].
    intros _. apply issues_for_ret. }
  intros _. rewrite <- (app_nil_r [_; _]). apply issues_for_bind; [|intros; apply issues_for_ret].
  apply (issues_for_bind _ _ [BlewCall.StopAdvertising]);
    [exact (issues_for_request BlewCall.StopAdvertising)|].
  intros _. eapply issues_for_gets; [by intros b _ Hc|].
  rewrite <- (app_nil_r [_]). eapply issues_for_bind;
    [exact (issues_for_request (BlewCall.StartAdvertising cfg))|]. intros; apply issues_for_ret.
Qed.
End Restore.

(** ** The executor *)

(** What [execute] leaves to other tasks. *)
Module Task.
Inductive t :=
| RestorePeripheral (restart_l2cap : bool)
| RestartScan
| StorePut (prefix : KeyPrefix) (snapshot : PeerSnapshot)
| StoreForget (prefix : KeyPrefix)
| RunDataPipe (id : StableConnId) (d : DeviceId) (role : ConnectRole.t) (path : ConnectPath.t)
    (l2cap_channel : option L2capChannel) (h : PipeHandles)
| SwapSend (d : DeviceId) (channel : L2capChannel) (swap_tx : SwapTx).
End Task.

Section Execute.
Context {HI : HashIter} {MP : Mpsc} {CA : CustomAddrApi}.

(** The driver, with the tables it shares; [dr_next_handle] numbers channels and
    clocks. *)
Record DriverState := mkDriverState {
  dr_lanes : gmap DeviceId DeviceLane;
  dr_routing : Routing;
  dr_env : Env;
  dr_next_handle : Z;
  dr_tasks : list Task.t;
  dr_woken : list Waker;
  dr_metrics : list string;
}.

Definition on_lanes (f : gmap DeviceId DeviceLane -> gmap DeviceId DeviceLane) (ds : DriverState)
    : DriverState :=
  mkDriverState (f (dr_lanes ds)) (dr_routing ds) (dr_env ds) (dr_next_handle ds)
    (dr_tasks ds) (dr_woken ds) (dr_metrics ds).
Definition spawn (t : Task.t) (ds : DriverState) : DriverState :=
  mkDriverState (dr_lanes ds) (dr_routing ds) (dr_env ds) (dr_next_handle ds)
    (dr_tasks ds ++ [t]) (dr_woken ds) (dr_metrics ds).

(** The arm of [StartDataPipe]: the command [DataPipeReady] it sends and the
    driver. *)
Definition open_pipe (now : Instant) (d : DeviceId) (lifecycle_id tx_gen : Z)
    (role : ConnectRole.t) (target : option EndpointId) (path : ConnectPath.t)
    (chan : option L2capChannel) (ds : DriverState) : option (PeerCommand.t * DriverState) :=
  let ds := on_lanes (activate d lifecycle_id) ds in
  let n := dr_next_handle ds in
  let h := mkPipeHandles n n n n in
  let env := mkEnv _ (<[n := chan_new 32]> (out_chans (dr_env ds)))
               (<[n := chan_new 64]> (in_chans (dr_env ds)))
               (<[n := now]> (clocks (dr_env ds))) in
  '(id, _, r) ← start_data_pipe now d role target (dr_routing ds);
  Some (PeerCommand.DataPipeReady d tx_gen n n n n,
        mkDriverState (dr_lanes ds) r env (n + 1)
          (dr_tasks ds ++ [Task.RunDataPipe id d role path chan h]) (dr_woken ds)
          (dr_metrics ds)).

(** [Driver::execute]: the commands it sends to the registry's inbox before it
    returns, and the driver. *)
Definition execute (now : Instant) (a : PeerAction.t) (ds : DriverState)
    : option (list PeerCommand.t * DriverState) :=
  match a with
  | PeerAction.StartConnect d _ id =>
      Some ([], on_lanes (fun L =>
        dispatch d id Cancellation.WhileQueued LaneWork.Connect (activate d id L)) ds)
  | PeerAction.ReadVersion d id =>
      Some ([], on_lanes (dispatch d id Cancellation.Immediate LaneWork.ReadVersion) ds)
  | PeerAction.RetireLifecycle d id => Some ([], on_lanes (retire d id) ds)
  | PeerAction.CloseChannel d id _ _ =>
      Some ([], on_lanes (dispatch d id Cancellation.Never LaneWork.Disconnect) ds)
  | PeerAction.CloseNativeConnection d id =>
      Some ([], on_lanes (dispatch d id Cancellation.Never LaneWork.CloseNative) ds)
  | PeerAction.Refresh d id =>
      Some ([], on_lanes (dispatch d id Cancellation.Never LaneWork.Refresh) ds)
  | PeerAction.AckSend _ waker _ =>
      Some ([], mkDriverState (dr_lanes ds) (dr_routing ds) (dr_env ds) (dr_next_handle ds)
        (dr_tasks ds) (dr_woken ds ++ [waker]) (dr_metrics ds))
  | PeerAction.RestorePeripheral restart_l2cap =>
      Some ([], spawn (Task.RestorePeripheral restart_l2cap) ds)
  | PeerAction.RestartScan => Some ([], spawn Task.RestartScan ds)
  | PeerAction.PutPeerStore p snapshot => Some ([], spawn (Task.StorePut p snapshot) ds)
  | PeerAction.ForgetPeerStore p => Some ([], spawn (Task.StoreForget p) ds)
  | PeerAction.EmitMetric ev =>
      Some ([], mkDriverState (dr_lanes ds) (dr_routing ds) (dr_env ds) (dr_next_handle ds)
        (dr_tasks ds) (dr_woken ds) (dr_metrics ds ++ [ev]))
  | PeerAction.StartDataPipe d id tx_gen role target path chan =>
      '(cmd, ds) ← open_pipe now d id tx_gen role target path chan ds;
      Some ([cmd], ds)
  | PeerAction.UpgradeToL2cap d id g =>
      Some ([], on_lanes (dispatch d id Cancellation.Immediate (LaneWork.OpenL2cap g)) ds)
  | PeerAction.SwapPipeToL2cap d channel swap_tx =>
      Some ([], spawn (Task.SwapSend d channel swap_tx) ds)
  end.

(** ** Executing a run of the registry *)

(** What an action leaves on the lanes. *)
Definition queue_event (L : gmap DeviceId DeviceLane) (d : DeviceId) (j : LaneJob.t)
    : list LaneEvent.t :=
  if decide (is_Some (L !! d)) then [LaneEvent.Queued d j] else [].

Definition lane_events (a : PeerAction.t) (L : gmap DeviceId DeviceLane) : list LaneEvent.t :=
  match a with
  | PeerAction.StartConnect d _ id =>
      [LaneEvent.Queued d (LaneJob.Activate id);
       LaneEvent.Queued d (LaneJob.Work id Cancellation.WhileQueued LaneWork.Connect)]
  | PeerAction.StartDataPipe d id _ _ _ _ _ => [LaneEvent.Queued d (LaneJob.Activate id)]
  | PeerAction.RetireLifecycle d id => [LaneEvent.Retired d id]
  | PeerAction.ReadVersion d id =>
      queue_event L d (LaneJob.Work id Cancellation.Immediate LaneWork.ReadVersion)
  | PeerAction.CloseChannel d id _ _ =>
      queue_event L d (LaneJob.Work id Cancellation.Never LaneWork.Disconnect)
  | PeerAction.CloseNativeConnection d id =>
      queue_event L d (LaneJob.Work id Cancellation.Never LaneWork.CloseNative)
  | PeerAction.Refresh d id =>
      queue_event L d (LaneJob.Work id Cancellation.Never LaneWork.Refresh)
  | PeerAction.UpgradeToL2cap d id g =>
      queue_event L d (LaneJob.Work id Cancellation.Immediate (LaneWork.OpenL2cap g))
  | _ => []
  end.

(** The driver has executed the actions [acts] in order; in between the lane
    workers took their turns.  [tr] is what happened on the lanes.  The rest of
    the driver's state may change between actions in any way. *)
Inductive exec_step : list PeerAction.t * (gmap DeviceId DeviceLane * list LaneEvent.t) ->
    list PeerAction.t * (gmap DeviceId DeviceLane * list LaneEvent.t) -> Prop :=
| exec_action acts tr now a cmds ds ds' :
    execute now a ds = Some (cmds, ds') ->
    exec_step (acts, (dr_lanes ds, tr))
      (acts ++ [a], (dr_lanes ds', tr ++ lane_events a (dr_lanes ds)))
| exec_activate acts tr L d attempt id :
    (** [StartConnect] activates its lane, and workers may run before it dispatches *)
    exec_step (acts, (L, tr))
      (acts ++ [PeerAction.StartConnect d attempt id],
       (activate d id L, tr ++ [LaneEvent.Queued d (LaneJob.Activate id)]))
| exec_dispatch acts tr L d attempt id :
    let job := LaneJob.Work id Cancellation.WhileQueued LaneWork.Connect in
    LaneEvent.Queued d job ∉ tr ->
    exec_step (acts ++ [PeerAction.StartConnect d attempt id], (L, tr))
      (acts ++ [PeerAction.StartConnect d attempt id],
       (dispatch d id Cancellation.WhileQueued LaneWork.Connect L, tr ++ queue_event L d job))
| exec_worker acts s s' : worker_step s s' -> exec_step (acts, s) (acts, s').

Definition exec_reachable := rtc exec_step ([], (∅, [])).

Lemma dispatch_steps d id c w L tr :
  rtc lane_step (L, tr) (dispatch d id c w L, tr ++ queue_event L d (LaneJob.Work id c w)).
Proof. apply rtc_once, step_dispatch. Qed.

(** Executing is a run of the lanes. *)
Lemma exec_lane_steps acts s acts' s' :
  exec_step (acts, s) (acts', s') -> rtc lane_step s s'.
Proof.
  inversion 1 as [? tr now a cmds ds ds' E|? tr L d att id|? tr L d att id job Hj|? ? ? Hw]; subst.
  2: { apply rtc_once, step_activate. }
  2: { apply dispatch_steps. }
  2: { by apply rtc_once, step_worker. }
  destruct a; cbn in E; simplify_eq/=; rewrite ?app_nil_r; try apply dispatch_steps; try done.
  - eapply rtc_l; [apply step_activate|]. apply rtc_once.
    match goal with |- lane_step (?L, ?t) (dispatch ?d ?i ?c ?w _, _) =>
      pose proof (step_dispatch L t d i c w) as Hs end.
    rewrite decide_True, <- app_assoc in Hs; [done|]. unfold activate.
    rewrite lookup_insert_eq. eauto.
  - apply rtc_once, step_retire.
  - unfold open_pipe in E. destruct (start_data_pipe _ _ _ _ _) as [[[? ?] ?]|]; simplify_eq/=.
    apply rtc_once, step_activate.
Qed.

Lemma exec_lanes_reachable acts s : exec_reachable (acts, s) -> lanes_reachable s.
Proof.
  intros Hr. unfold lanes_reachable.
  refine (rtc_ind_r (fun x => rtc lane_step (∅, []) x.2) ([], (∅, [])) _ _ (acts, s) Hr); [done|].
  intros [a1 s1] [a2 s2] _ Hs IH. etrans; [exact IH|]. by eapply exec_lane_steps.
Qed.

(** Activations and retirements, in events and in actions. *)
Definition control_event (ev : LaneEvent.t) : option (bool * DeviceId * Z) :=
  match ev with
  | LaneEvent.Queued d (LaneJob.Activate id) => Some (true, d, id)
  | LaneEvent.Retired d id => Some (false, d, id)
  | _ => None
  end.
Definition control_action (a : PeerAction.t) : option (bool * DeviceId * Z) :=
  match a with
  | PeerAction.StartConnect d _ id | PeerAction.StartDataPipe d id _ _ _ _ _ => Some (true, d, id)
  | PeerAction.RetireLifecycle d id => Some (false, d, id)
  | _ => None
  end.

Lemma exec_control acts L tr :
  exec_reachable (acts, (L, tr)) -> omap control_event tr = omap control_action acts.
Proof.
  intros Hr.
  refine (rtc_ind_r (fun x => omap control_event x.2.2 = omap control_action x.1)
    ([], (∅, [])) eq_refl _ _ Hr).
  clear. intros [a1 [L1 t1]] [a2 [L2 t2]] _ Hs IH. cbn in *.
  inversion Hs as [? tr now a cmds ds ds' E|? tr L d att id|? tr L d att id job Hj|? ? ? Hw]; subst.
  2: { by rewrite !omap_app, IH. }
  2: { rewrite <- IH, omap_app. subst job. unfold queue_event. destruct (decide _); by rewrite app_nil_r. }
  - rewrite !omap_app, IH. f_equal. destruct a; cbn; unfold queue_event;
      try (destruct (decide _)); done.
  - rewrite <- IH. inversion Hw; subst; rewrite omap_app; cbn; by rewrite app_nil_r.
Qed.

Lemma omap_split {A B} (f : A -> option B) (l : list A) y1 y y2 :
  omap f l = y1 ++ y :: y2 ->
  exists l1 x l2, l = l1 ++ x :: l2 /\ f x = Some y /\ omap f l1 = y1.
Proof.
  revert y1. induction l as [|x l IH]; intros y1 E; [by destruct y1|]. cbn in E.
  destruct (f x) as [b|] eqn:Ef.
  - destruct y1 as [|b' y1]; simplify_eq/=.
    + by exists [], x, l.
    + match goal with H : omap f l = _ |- _ => destruct (IH _ H) as (l1 & x' & l2 & -> & Hx & <-) end.
      exists (x :: l1), x', l2. cbn. by rewrite Ef.
  - destruct (IH _ E) as (l1 & x' & l2 & -> & Hx & <-). exists (x :: l1), x', l2.
    cbn. by rewrite Ef.
Qed.

(** An activation never follows the retirement of its lifecycle. *)
Lemma activation_not_retired acts L tr d id u1 u2 :
  trace_ok acts -> exec_reachable (acts, (L, tr)) ->
  tr = u1 ++ LaneEvent.Queued d (LaneJob.Activate id) :: u2 -> LaneEvent.Retired d id ∉ u1.
Proof.
  intros Ht Hr E Hin. apply exec_control in Hr. rewrite E, omap_app in Hr. cbn in Hr.
  symmetry in Hr. destruct (omap_split _ _ _ _ _ Hr) as (l1 & a & l2 & -> & Ha & E1).
  assert (work_id a = Some id) as Hw by (destruct a; simplify_eq/=; done).
  apply (Ht l1 a l2 id eq_refl Hw).
  assert ((false, d, id) ∈ omap control_event u1) as Hc.
  { apply list_elem_of_omap. by exists (LaneEvent.Retired d id). }
  rewrite <- E1 in Hc. apply list_elem_of_omap in Hc as (a' & Ha' & Ec).
  apply list_elem_of_omap. exists a'. split; [done|]. destruct a'; simplify_eq/=; done.
Qed.

Lemma trace_ok_prefix l l' : l `prefix_of` l' -> trace_ok l' -> trace_ok l.
Proof.
  intros [k ->] Ht l1 a l2 id -> Hw. apply (Ht l1 a (l2 ++ k) id); [|done].
  by rewrite <- app_assoc.
Qed.

(** C8. No cancellable work under a retired lifecycle.  Let the driver execute
    the actions of a run of the registry in order, as far as it has got, with
    the workers of all lanes interleaved in any way.  When a connect, a version
    read or an L2CAP open starts on a device, the driver has not executed the
    retirement of its lifecycle. *)
Theorem retired_work_never_starts (policy : L2capPolicy.t) (me : EndpointId)
    (h acts : list PeerAction.t) (r : Registry) (L : gmap DeviceId DeviceLane)
    (d : DeviceId) (id : Z) (c : Cancellation.t) (w : LaneWork.t) (t1 t2 : list LaneEvent.t) :
  actor_run policy me h r -> acts `prefix_of` h ->
  exec_reachable (acts, (L, t1 ++ LaneEvent.Took d (LaneJob.Work id c w) true :: t2)) ->
  c <> Cancellation.Never ->
  LaneEvent.Retired d id ∉ t1.
Proof.
  intros Hrun Hp Hr Hc.
  assert (trace_ok acts) as Ht.
  { apply (trace_ok_prefix _ _ Hp).
    pose proof (ri_trace _ _ (actor_run_inv _ _ _ _ (mkEnv _ ∅ ∅ ∅) Hrun)) as Ht.
    cbn in Ht. by rewrite app_nil_r in Ht. }
  destruct (started_work_current _ _ _ _ _ _ _ (exec_lanes_reachable _ _ Hr) Hc)
    as (u1 & u2 & -> & _ & Hn).
  rewrite elem_of_app, elem_of_cons. intros [Hin|[Hin|Hin]]; [|done|done].
  rewrite <- app_assoc in Hr. cbn in Hr.
  by eapply (activation_not_retired _ _ _ d id u1 _ Ht Hr).
Qed.
End Execute.

(** A discovered device is dialled: its discovery identity is retired, and the
    connect starts under the new one. *)
Definition demo_driver : DriverState :=
  mkDriverState ∅ Routing_new demo_env 0 [] [] [].

Lemma retired_work_never_starts_witness : exists h r L t1 t2,
  actor_run L2capPolicy.Disabled demo_me h r /\
  exec_reachable (h, (L, t1 ++ LaneEvent.Took "dev"
    (LaneJob.Work 2 Cancellation.WhileQueued LaneWork.Connect) true :: t2)) /\
  LaneEvent.Retired "dev" 1 ∈ t1 /\ LaneEvent.Retired "dev" 2 ∉ t1.
Proof.
  destruct (script_run L2capPolicy.Disabled demo_me demo_env demo_dial
    (fun h r => h = [PeerAction.RetireLifecycle "dev" 1; PeerAction.StartConnect "dev" 0 2]))
    as (h & r & Hr & ->); [reflexivity|].
  assert (exists L, exec_reachable
    ([PeerAction.RetireLifecycle "dev" 1; PeerAction.StartConnect "dev" 0 2],
     (L, [LaneEvent.Retired "dev" 1; LaneEvent.Queued "dev" (LaneJob.Activate 2);
          LaneEvent.Queued "dev" (LaneJob.Work 2 Cancellation.WhileQueued LaneWork.Connect);
          LaneEvent.Took "dev" (LaneJob.Activate 2) false]
         ++ LaneEvent.Took "dev" (LaneJob.Work 2 Cancellation.WhileQueued LaneWork.Connect) true :: []))) as [L HL].
  { eexists. eapply rtc_l.
    { apply (exec_action [] [] 0 (PeerAction.RetireLifecycle "dev" 1) [] demo_driver). reflexivity. }
    eapply rtc_l.
    { eapply (exec_action _ _ 0 (PeerAction.StartConnect "dev" 0 2) [] demo_driver). reflexivity. }
    eapply rtc_l; [eapply exec_worker, (step_take _ _ "dev"); reflexivity|].
    eapply rtc_l; [eapply exec_worker, (step_take _ _ "dev"); reflexivity|].
    reflexivity. }
  eexists _, r, L, _, _. split; [exact Hr|]. split; [exact HL|]. split; [left|].
  eapply (retired_work_never_starts); [exact Hr|reflexivity|exact HL|done].
Defined.

(** A radio that answers at once, except that it never answers a read: the
    version read ends after its five seconds, with nothing to report. *)
Definition plain_fmt : BlewFmt := {| blew_display _ := "blew"; cause_debug _ := "cause" |}.
Definition unreadable_radio : Blew unit :=
  scripted_radio (fun c => match c with BlewCall.ReadChar _ _ => true | _ => false end).

(** An inbox that has room after [wait]. *)
#[refine] Definition busy_inbox {I} (wait : Duration) (H : 0 <= wait) : Inbox I :=
  {| inbox_send _ := sleep wait |}.
Proof. intros cmd. by apply timely_sleep. Defined.

Lemma job_returns_witness :
  let BI := blew_interface (BL:=unreadable_radio) false in
  let IB := busy_inbox 7 (Z.lt_le_incl 0 7 eq_refl) in
  returns_within (VERSION_READ_TIMEOUT + 7)
    (run_work (BF:=plain_fmt) (BI:=BI) (IB:=IB) "dev" 2 LaneWork.ReadVersion)
    (reports "dev" 2 LaneWork.ReadVersion).
Proof.
  intros BI IB. refine (job_returns (BF:=plain_fmt) (IB:=IB) "dev" 2 LaneWork.ReadVersion 0 7 _ _).
  - discriminate.
  - intros _. split; [lia|]. intros cmd i. eexists 7, tt, i. split; [reflexivity|]. split; [lia|done].
Defined.
