(* ===== verification/MockBle.v ===== *)
(** * MockBle: the mock radio ([transport/test_util.rs])

    [MockBleInterface], the instance of [BleInterface] the crate's own tests run
    the driver on, and [MockFabric], which connects several of them.  A mock
    answers from scripts; its hooks act on the inboxes of the nodes, which the
    mocks of a fabric share, so a call works on the mock and the inboxes.  A test that parks a call
    and releases it later is a hold that ends after some time. *)

From S2P Require Import Prelude Async Peer Interface Lanes Exec.
Open Scope Z_scope.

Module CallKind.
Inductive t :=
| Connect (d : DeviceId)
| Disconnect (d : DeviceId)
| WriteC2p (device_id : DeviceId) (bytes : Bytes)
| NotifyP2c (device_id : DeviceId) (bytes : Bytes)
| ReadPsm (d : DeviceId)
| ReadVersion (d : DeviceId)
| OpenL2cap (d : DeviceId) (psm : Z)
| StartScan
| StopScan
| RebuildServer
| RestartAdvertising
| RestartL2capListener
| RestartScan
| IsPowered
| Refresh (d : DeviceId).
#[global] Instance t_eq_dec : EqDecision t.
Proof. solve_decision. Defined.
End CallKind.

(** A [watch] that parks a call while it holds [true]: released already, by
    another task after a while, or never. *)
Module Hold.
Inductive t := Free | ReleasedAfter (d : N) | Held.
End Hold.

(** What the hooks reach: the inboxes of the nodes of a fabric, by device. *)
Abbreviation World := (gmap DeviceId (BoundedChan PeerCommand.t)) (only parsing).

Record Inner := mkInner {
  mi_calls : list CallKind.t;
  mi_connect_queue : list (DeviceId * BleResult ChannelHandle);
  mi_open_l2cap_queue : list (DeviceId * Z * BleResult L2capChannel);
  mi_disconnect_queue : list (DeviceId * BleResult unit);
  mi_write_c2p_queue : list (DeviceId * BleResult unit);
  mi_notify_p2c_queue : list (DeviceId * BleResult unit);
  mi_is_powered : bool;
  mi_connect_delay : option N;
  mi_next_channel_id : Z;
  mi_on_c2p_write : option (DeviceId -> Bytes -> World -> World);
  mi_on_p2c_notify : option (DeviceId -> Bytes -> World -> World);
  mi_psm_responses : list (option Z);
  mi_version_responses : list (option Z);
  mi_mtu_responses : list Z;
  mi_mtu_default : Z;
  mi_disconnect_hold : Hold.t;
  mi_refresh_hold : Hold.t;
  mi_connect_hold : Hold.t;
  mi_version_hold : Hold.t;
}.

(** [r <| f := v |>]: the record with one field replaced. *)
Definition inner_eta (m : Inner) : Inner :=
  mkInner (mi_calls m) (mi_connect_queue m) (mi_open_l2cap_queue m) (mi_disconnect_queue m)
    (mi_write_c2p_queue m) (mi_notify_p2c_queue m) (mi_is_powered m) (mi_connect_delay m)
    (mi_next_channel_id m) (mi_on_c2p_write m) (mi_on_p2c_notify m) (mi_psm_responses m)
    (mi_version_responses m) (mi_mtu_responses m) (mi_mtu_default m) (mi_disconnect_hold m)
    (mi_refresh_hold m) (mi_connect_hold m) (mi_version_hold m).
Ltac set_field r f v :=
  let old := constr:(f r) in
  let T := type of old in
  let new := constr:(v : T) in
  let t := constr:(inner_eta r) in
  let t := eval cbv beta delta [inner_eta] in t in
  match t with context C [old] => let u := context C [new] in exact u end.
Declare Scope mock_scope.
Notation "r '<|' f ':=' v '|>'" := ltac:(set_field uconstr:(r) uconstr:(f) uconstr:(v))
  (at level 1, left associativity, only parsing) : mock_scope.
#[local] Open Scope mock_scope.

(** [position] and [remove]: the first entry that matches, and the others. *)
Fixpoint take_first {A} (p : A -> bool) (l : list A) : option A * list A :=
  match l with
  | [] => (None, [])
  | x :: l' => if p x then (Some x, l') else let '(r, rest) := take_first p l' in (r, x :: rest)
  end.
Definition for_device {B} (d : DeviceId) (e : DeviceId * B) : bool := bool_decide (e.1 = d).

Section Mock.
Implicit Types (m : Inner).

Definition MockBleInterface_new : Inner :=
  mkInner [] [] [] [] [] [] true None 1 None None [] [] [] 512 Hold.Free Hold.Free Hold.Free Hold.Free.

(** Scripts. *)
Definition on_connect d (r : BleResult ChannelHandle) m := m <| mi_connect_queue := mi_connect_queue m ++ [(d, r)] |>.
Definition on_disconnect d (r : BleResult unit) m := m <| mi_disconnect_queue := mi_disconnect_queue m ++ [(d, r)] |>.
Definition on_write_c2p d (r : BleResult unit) m := m <| mi_write_c2p_queue := mi_write_c2p_queue m ++ [(d, r)] |>.
Definition on_notify_p2c d (r : BleResult unit) m := m <| mi_notify_p2c_queue := mi_notify_p2c_queue m ++ [(d, r)] |>.
Definition on_open_l2cap d (psm : Z) (r : BleResult L2capChannel) m :=
  m <| mi_open_l2cap_queue := mi_open_l2cap_queue m ++ [(d, psm, r)] |>.
Definition set_powered (b : bool) m := m <| mi_is_powered := b |>.
Definition set_connect_delay (d : N) m := m <| mi_connect_delay := Some d |>.
Definition set_disconnect_hold (h : Hold.t) m := m <| mi_disconnect_hold := h |>.
Definition set_refresh_hold (h : Hold.t) m := m <| mi_refresh_hold := h |>.
Definition set_connect_hold (h : Hold.t) m := m <| mi_connect_hold := h |>.
Definition set_version_hold (h : Hold.t) m := m <| mi_version_hold := h |>.
Definition set_on_c2p_write (hook : DeviceId -> Bytes -> World -> World) m := m <| mi_on_c2p_write := Some hook |>.
Definition set_on_p2c_notify (hook : DeviceId -> Bytes -> World -> World) m := m <| mi_on_p2c_notify := Some hook |>.
Definition push_mtu (v : Z) m := m <| mi_mtu_responses := mi_mtu_responses m ++ [v] |>.
Definition set_mtu_default (v : Z) m := m <| mi_mtu_default := v |>.
Definition seed_psm (v : option Z) m := m <| mi_psm_responses := mi_psm_responses m ++ [v] |>.
Definition seed_version (v : option Z) m := m <| mi_version_responses := mi_version_responses m ++ [v] |>.
Definition record (c : CallKind.t) m := m <| mi_calls := mi_calls m ++ [c] |>.

(** ** Calls *)

Abbreviation MockCall A := (Async (Inner * World) A) (only parsing).

(** What happens under the lock. *)
Definition locked {A} (f : Inner -> A * Inner) : MockCall A := fun _ '(m, w) =>
  let '(x, m) := f m in (Some (0, x), (m, w)).

Definition wait_for_release (hold : Inner -> Hold.t) : MockCall unit := fun b s =>
  match hold s.1 with
  | Hold.Free => (Some (0, tt), s)
  | Hold.ReleasedAfter d => sleep (Z.of_N d) b s
  | Hold.Held => (None, s)
  end.

Definition connect_now (d : DeviceId) m : (option N * BleResult ChannelHandle) * Inner :=
  let m := record (CallKind.Connect d) m in
  let delay := mi_connect_delay m in
  match take_first (for_device d) (mi_connect_queue m) with
  | (Some (_, r), rest) => ((delay, r), m <| mi_connect_queue := rest |>)
  | (None, _) =>
      let id := mi_next_channel_id m in
      ((delay, inr (mkChannelHandle id ConnectPath.Gatt)), m <| mi_next_channel_id := id + 1 |>)
  end.

Definition mock_connect (d : DeviceId) : MockCall (BleResult ChannelHandle) :=
  '(delay, r) ← locked (connect_now d);
  wait_for_release mi_connect_hold;;
  match delay with Some t => sleep (Z.of_N t) | None => mret tt end;;
  mret r.

Definition mock_disconnect (d : DeviceId) : MockCall (BleResult unit) :=
  r ← locked (fun m =>
    let m := record (CallKind.Disconnect d) m in
    match take_first (for_device d) (mi_disconnect_queue m) with
    | (Some (_, r), rest) => (r, m <| mi_disconnect_queue := rest |>)
    | (None, _) => (inr tt, m)
    end);
  wait_for_release mi_disconnect_hold;;
  mret r.

(** The hook runs outside the lock. *)
Definition run_hook (hook : Inner -> option (DeviceId -> Bytes -> World -> World)) (d : DeviceId) (bytes : Bytes)
    : MockCall (BleResult unit) :=
  fun _ '(m, w) => (Some (0, inr tt), (m, match hook m with Some h => h d bytes w | None => w end)).

Definition mock_write_c2p (d : DeviceId) (bytes : Bytes) : MockCall (BleResult unit) :=
  seeded ← locked (fun m =>
    let m := record (CallKind.WriteC2p d bytes) m in
    let '(r, rest) := take_first (for_device d) (mi_write_c2p_queue m) in
    (snd <$> r, m <| mi_write_c2p_queue := rest |>));
  match seeded with Some r => mret r | None => run_hook mi_on_c2p_write d bytes end.

Definition mock_notify_p2c (d : DeviceId) (bytes : Bytes) : MockCall (BleResult unit) :=
  seeded ← locked (fun m =>
    let m := record (CallKind.NotifyP2c d bytes) m in
    let '(r, rest) := take_first (for_device d) (mi_notify_p2c_queue m) in
    (snd <$> r, m <| mi_notify_p2c_queue := rest |>));
  match seeded with Some r => mret r | None => run_hook mi_on_p2c_notify d bytes end.

(** [pop_front().flatten()]. *)
Definition mock_read_version (d : DeviceId) : MockCall (BleResult (option Z)) :=
  v ← locked (fun m =>
    let m := record (CallKind.ReadVersion d) m in
    (mjoin (head (mi_version_responses m)), m <| mi_version_responses := tail (mi_version_responses m) |>));
  wait_for_release mi_version_hold;;
  mret (inr v).

Definition mock_read_psm (d : DeviceId) : MockCall (BleResult (option Z)) :=
  locked (fun m =>
    let m := record (CallKind.ReadPsm d) m in
    (inr (mjoin (head (mi_psm_responses m))), m <| mi_psm_responses := tail (mi_psm_responses m) |>)).

Definition mock_open_l2cap (d : DeviceId) (psm : Z) : MockCall (BleResult L2capChannel) :=
  locked (fun m =>
    let m := record (CallKind.OpenL2cap d psm) m in
    match take_first (fun '(id, p, _) => bool_decide (id = d) && (p =? psm)) (mi_open_l2cap_queue m) with
    | (Some (_, _, r), rest) => (r, m <| mi_open_l2cap_queue := rest |>)
    | (None, _) => (inl BleError.Unsupported, m)
    end).

(** The calls that only record themselves. *)
Definition mock_note {A} (c : CallKind.t) (r : A) : MockCall A := locked (fun m => (r, record c m)).

Definition mock_is_powered : MockCall bool :=
  locked (fun m => let m := record CallKind.IsPowered m in (mi_is_powered m, m)).

Definition mock_refresh (d : DeviceId) : MockCall (BleResult unit) :=
  mock_note (CallKind.Refresh d) tt;; wait_for_release mi_refresh_hold;; mret (inr tt).

Definition mock_mtu (_ : DeviceId) : MockCall Z :=
  locked (fun m => (default (mi_mtu_default m) (head (mi_mtu_responses m)),
                    m <| mi_mtu_responses := tail (mi_mtu_responses m) |>)).

(** ** The interface *)

#[global] Instance timely_locked {A} (f : Inner -> A * Inner) : Timely (locked f).
Proof.
  apply timely_now. intros b [m w]. unfold locked. destruct (f m) as [x m']. by repeat eexists.
Qed.

#[global] Instance timely_release hold : Timely (wait_for_release hold).
Proof.
  intros b s t x s' Hb. unfold wait_for_release. destruct (hold s.1) as [|d|]; [| |done].
  - intros [= <- <- <-]. split; [done|]. intros b' ->. by apply Hb.
  - by apply (timely_sleep (Z.of_N d) ltac:(lia)).
Qed.

#[global] Instance timely_delay (delay : option N) :
  Timely (match delay with Some t => sleep (Z.of_N t) | None => mret tt end : MockCall unit).
Proof. destruct delay; [apply timely_sleep; lia|apply _]. Qed.

#[refine] Definition mock_interface : BleInterface (Inner * World) := {|
  connect := mock_connect;
  disconnect := mock_disconnect;
  write_c2p := mock_write_c2p;
  notify_p2c := mock_notify_p2c;
  read_psm := mock_read_psm;
  read_version := mock_read_version;
  open_l2cap := mock_open_l2cap;
  start_scan := mock_note CallKind.StartScan (inr tt);
  stop_scan := mock_note CallKind.StopScan (inr tt);
  rebuild_server := mock_note CallKind.RebuildServer (inr tt);
  restart_advertising := mock_note CallKind.RestartAdvertising (inr tt);
  restart_l2cap_listener := mock_note CallKind.RestartL2capListener (inr None);
  restart_scan := mock_note CallKind.RestartScan (inr tt);
  is_powered := mock_is_powered;
  refresh := mock_refresh;
  mtu := mock_mtu
|}.
Proof. intros d. apply timely_bind; [apply _|]. intros [delay r]. apply _. Defined.
End Mock.

(** ** Fabrics *)

(** [try_send] into the inbox of a node; the result is ignored. *)
Definition deliver (target : DeviceId) (c : PeerCommand.t) (w : World) : World :=
  match w !! target with
  | Some inbox => <[target := (bounded_try_send inbox c).2]> w
  | None => w
  end.

Definition c2p_hook (from target : DeviceId) (bytes : Bytes) : World -> World :=
  deliver target (PeerCommand.InboundGattFragment from FragmentSource.PeripheralReceivedC2p bytes).
Definition p2c_hook (from target : DeviceId) (bytes : Bytes) : World -> World :=
  deliver target (PeerCommand.InboundGattFragment from FragmentSource.CentralReceivedP2c bytes).

(** [MockFabric::add_node]: the node's inbox joins the routes. *)
Definition add_node (d : DeviceId) (inbox : BoundedChan PeerCommand.t) (w : World) : Inner * World :=
  (set_on_p2c_notify (p2c_hook d) (set_on_c2p_write (c2p_hook d) MockBleInterface_new),
   <[d := inbox]> w).

(** [MockFabricPair::new]: whatever the target, the central writes to the
    peripheral and the peripheral notifies the central. *)
Definition fabric_central : DeviceId := "fabric-central".
Definition fabric_peripheral : DeviceId := "fabric-peripheral".
Definition MockFabricPair_new (central_inbox peripheral_inbox : BoundedChan PeerCommand.t)
    : Inner * Inner * World :=
  (set_on_c2p_write (fun _ => c2p_hook fabric_central fabric_peripheral) MockBleInterface_new,
   set_on_p2c_notify (fun _ => p2c_hook fabric_peripheral fabric_central) MockBleInterface_new,
   <[fabric_peripheral := peripheral_inbox]> (<[fabric_central := central_inbox]> ∅)).

(** ** Facts *)

Lemma take_first_spec {A} (p : A -> bool) (l : list A) :
  match take_first p l with
  | (Some x, rest) => exists l1 l2, l = l1 ++ x :: l2 /\ rest = l1 ++ l2 /\ p x = true /\
      Forall (fun y => p y = false) l1
  | (None, rest) => rest = l /\ Forall (fun y => p y = false) l
  end.
Proof.
  induction l as [|x l IH]; cbn; [done|]. destruct (p x) eqn:E.
  { by exists [], l. }
  destruct (take_first p l) as [[y|] rest].
  - destruct IH as (l1 & l2 & -> & -> & Hy & Hl). exists (x :: l1), l2. by repeat constructor.
  - destruct IH as [-> Hl]. split; [done|by constructor].
Qed.

(** The scripted answers of a device, in the order in which they were given. *)
Definition scripted {B} (d : DeviceId) (l : list (DeviceId * B)) : list B := (filter (fun e => e.1 = d) l).*2.

Lemma scripted_take {B} (d : DeviceId) (l : list (DeviceId * B)) :
  let '(r, rest) := take_first (for_device d) l in
  scripted d l = option_list (snd <$> r) ++ scripted d rest /\
  (r = None -> scripted d l = []) /\
  forall d', d' <> d -> scripted d' rest = scripted d' l.
Proof.
  assert (forall (l1 : list (DeviceId * B)),
    Forall (fun y => for_device d y = false) l1 -> scripted d l1 = []) as Hnone.
  { unfold scripted, for_device. induction 1 as [|y l1 Hy _ IH]; [done|].
    apply bool_decide_eq_false in Hy. by rewrite filter_cons_False. }
  assert (forall d' (l1 l2 : list (DeviceId * B)), scripted d' (l1 ++ l2) = scripted d' l1 ++ scripted d' l2) as Happ
    by (intros; unfold scripted; by rewrite filter_app, fmap_app).
  pose proof (take_first_spec (for_device d) l) as H.
  destruct (take_first (for_device d) l) as [[[k x]|] rest].
  - destruct H as (l1 & l2 & -> & -> & Hx & Hl). unfold for_device in Hx. apply bool_decide_eq_true in Hx.
    cbn in Hx. subst k. rewrite !Happ, !(Hnone l1 Hl). cbn [app].
    split; [|split; [done|]].
    + unfold scripted at 1. by rewrite filter_cons_True by done.
    + intros d' Hne. rewrite !Happ. f_equal. unfold scripted. by rewrite filter_cons_False by (cbn; congruence).
  - destruct H as [-> Hl]. rewrite (Hnone _ Hl). done.
Qed.

(** Connecting answers from the device's own script, first in first out, and
    otherwise with a fresh handle; the scripts of other devices are left alone. *)
Lemma mock_connect_script d w m :
  mi_connect_hold m = Hold.Free -> mi_connect_delay m = None ->
  exists r m', await (mock_connect d) (m, w) = (Some (0, r), (m', w)) /\
    mi_calls m' = mi_calls m ++ [CallKind.Connect d] /\
    (forall d', d' <> d -> scripted d' (mi_connect_queue m') = scripted d' (mi_connect_queue m)) /\
    match scripted d (mi_connect_queue m) with
    | x :: rest => r = x /\ scripted d (mi_connect_queue m') = rest /\
        mi_next_channel_id m' = mi_next_channel_id m
    | [] => r = inr (mkChannelHandle (mi_next_channel_id m) ConnectPath.Gatt) /\
        mi_next_channel_id m' = mi_next_channel_id m + 1
    end.
Proof.
  intros Hh Hd. unfold await, mock_connect, mbind, Async_bind, locked, connect_now. cbn [mi_connect_queue record].
  pose proof (scripted_take d (mi_connect_queue m)) as H.
  destruct (take_first (for_device d) (mi_connect_queue m)) as [[[k x]|] rest];
    destruct H as (H1 & H2 & H3); cbn -[Z.add]; unfold wait_for_release; cbn -[Z.add]; rewrite Hh, Hd; cbn -[Z.add].
  - eexists _, _. split; [done|]. cbn -[Z.add]. split_and!; [done|done|]. cbn in H1. rewrite H1. done.
  - eexists _, _. split; [done|]. cbn -[Z.add]. split_and!; [done|done|]. by rewrite (H2 eq_refl).
Qed.

(** A fragment written by one node of a fabric arrives in the inbox of its target
    as one that came from this node, if there is room, and nowhere else; a
    target outside the fabric loses it. *)
Lemma fabric_write_routed d inbox w target bytes :
  let '(m, w) := add_node d inbox w in
  exists m', await (mock_write_c2p target bytes) (m, w) =
    (Some (0, inr tt), (m', c2p_hook d target bytes w)) /\
  forall k, c2p_hook d target bytes w !! k =
    (if decide (k = target)
     then (fun ib => (bounded_try_send ib (PeerCommand.InboundGattFragment d
             FragmentSource.PeripheralReceivedC2p bytes)).2) <$> w !! k
     else w !! k).
Proof.
  cbn. eexists. split; [done|]. intros k. unfold c2p_hook, deliver.
  destruct (<[d:=inbox]> w !! target) as [ib|] eqn:E.
  - destruct (decide (k = target)) as [->|]; [by rewrite lookup_insert_eq, E|by rewrite lookup_insert_ne].
  - destruct (decide (k = target)) as [->|]; [by rewrite E|done].
Qed.

(** The driver's connect job on a mock, with room in the inbox: the handle it
    reports is the mock's. *)
Lemma mock_connect_job `{BlewFmt} {IB : Inbox (Inner * World)} d lifecycle_id w m :
  (forall cmd b i, inbox_send cmd b i = (Some (0, tt), i)) ->
  mi_connect_hold m = Hold.Free -> mi_connect_delay m = None -> scripted d (mi_connect_queue m) = [] ->
  exists m', await (run_work (BI := mock_interface) d lifecycle_id LaneWork.Connect) (m, w) =
    (Some (0, [PeerCommand.ConnectSucceeded d lifecycle_id
                 (mkChannelHandle (mi_next_channel_id m) ConnectPath.Gatt)]), (m', w)).
Proof.
  intros Hi Hh Hd Hs. destruct (mock_connect_script d w m Hh Hd) as (r & m' & E & _ & _ & Hr).
  rewrite Hs in Hr. destruct Hr as [-> _]. exists m'. unfold await in *. cbn [run_work report].
  unfold mbind, Async_bind. cbn [connect mock_interface]. rewrite E, Hi. done.
Qed.
