(* ===== verification/Node.v ===== *)
(** * Node: the actor, its driver and its inbox ([registry.rs], [driver.rs])

    [Registry::run] is the only receiver of the bounded inbox, and it awaits
    [driver.execute] inside its loop, which for [StartDataPipe] awaits a send to
    that same inbox.  The model lets every other task of the transport send
    commands whenever there is room. *)

From S2P Require Import Prelude Peer Routing Lanes Driver Registry RegistryInv Actor Exec.
Open Scope Z_scope.

(** [mpsc::channel::<PeerCommand>(256)]. *)
Definition INBOX_CAPACITY : nat := 256.

Section Node.
Context {HI : HashIter} {MP : Mpsc} {CA : CustomAddrApi}.

(** [nd_todo] are the actions left of the command being handled ([None] while
    waiting for one), [nd_sending] the commands the current action still has to
    send, [nd_shutdown] that the last command received was [Shutdown]. *)
Record Node := mkNode {
  nd_reg : Registry;
  nd_driver : DriverState;
  nd_inbox : list PeerCommand.t;
  nd_todo : option (list PeerAction.t);
  nd_sending : list PeerCommand.t;
  nd_shutdown : bool;
}.

Definition set_routing_env (r : Routing) (en : Env) (ds : DriverState) : DriverState :=
  mkDriverState (dr_lanes ds) r en (dr_next_handle ds) (dr_tasks ds) (dr_woken ds)
    (dr_metrics ds).

(** [rx.recv()] and the match on the command. *)
Definition receive (now : Instant) (wall : Z) (n : Node) : option Node :=
  match nd_todo n, nd_shutdown n, nd_inbox n with
  | None, false, cmd :: rest =>
      '(acts, r, rt, en) ← run_cmd now wall cmd (nd_reg n) (dr_routing (nd_driver n))
        (dr_env (nd_driver n));
      Some (mkNode r (set_routing_env rt en (nd_driver n)) rest (Some acts) []
              (match cmd with PeerCommand.Shutdown => true | _ => false end))
  | _, _, _ => None
  end.

(** [driver.execute(action)] up to its send. *)
Definition act (now : Instant) (n : Node) : option Node :=
  match nd_todo n, nd_sending n with
  | Some (a :: rest), [] =>
      '(cmds, ds) ← execute now a (nd_driver n);
      Some (mkNode (nd_reg n) ds (nd_inbox n) (Some rest) cmds (nd_shutdown n))
  | _, _ => None
  end.

(** [self.inbox.send(..).await] completes when there is room. *)
Definition send_ready (n : Node) : option Node :=
  match nd_sending n with
  | cmd :: rest =>
      if (length (nd_inbox n) <? INBOX_CAPACITY)%nat
      then Some (mkNode (nd_reg n) (nd_driver n) (nd_inbox n ++ [cmd]) (nd_todo n) rest
                   (nd_shutdown n))
      else None
  | [] => None
  end.

(** The end of an iteration: snapshot and adapter state are published.  After
    [Shutdown] the loop ends, and nothing is received any more. *)
Definition publish (n : Node) : option Node :=
  match nd_todo n, nd_sending n with
  | Some [], [] =>
      Some (mkNode (publish_adapter_state (nd_reg n)).2 (nd_driver n) (nd_inbox n) None []
              (nd_shutdown n))
  | _, _ => None
  end.

(** The loop has ended, and the receiver with it. *)
Definition stopped (n : Node) : bool :=
  match nd_todo n with None => nd_shutdown n | Some _ => false end.

(** Another task sends a command. *)
Definition produce (cmd : PeerCommand.t) (n : Node) : option Node :=
  if negb (stopped n) && (length (nd_inbox n) <? INBOX_CAPACITY)%nat
  then Some (mkNode (nd_reg n) (nd_driver n) (nd_inbox n ++ [cmd]) (nd_todo n) (nd_sending n)
               (nd_shutdown n))
  else None.

Inductive node_step : Node -> Node -> Prop :=
| node_receive now wall n n' : receive now wall n = Some n' -> node_step n n'
| node_act now n n' : act now n = Some n' -> node_step n n'
| node_send n n' : send_ready n = Some n' -> node_step n n'
| node_publish n n' : publish n = Some n' -> node_step n n'
| node_produce cmd n n' : produce cmd n = Some n' -> node_step n n'
| node_interfere ds n :
    (** other tasks change the tables, the channels and the lanes *)
    node_step n (mkNode (nd_reg n) ds (nd_inbox n) (nd_todo n) (nd_sending n) (nd_shutdown n)).

Definition node_init (policy : L2capPolicy.t) (me : EndpointId) (ds : DriverState) : Node :=
  mkNode (Registry_new policy me) ds [] None [] false.

(** The actor is in a send to its own, full inbox. *)
Definition wedged (n : Node) : Prop :=
  is_Some (nd_todo n) /\ nd_sending n <> [] /\ (INBOX_CAPACITY <= length (nd_inbox n))%nat.

Lemma wedged_step n n' :
  node_step n n' -> wedged n ->
  nd_reg n' = nd_reg n /\ nd_inbox n' = nd_inbox n /\ nd_sending n' = nd_sending n /\
  nd_todo n' = nd_todo n.
Proof.
  intros Hst ([todo Ht] & Hs & Hf).
  assert ((length (nd_inbox n) <? INBOX_CAPACITY)%nat = false) as E by (by apply Nat.ltb_ge).
  destruct Hst as [now wall n n' Hst|now n n' Hst|n n' Hst|n n' Hst|cmd n n' Hst|ds n].
  - unfold receive in Hst. by rewrite Ht in Hst.
  - unfold act in Hst. rewrite Ht in Hst. by destruct todo, (nd_sending n).
  - unfold send_ready in Hst. rewrite E in Hst. by destruct (nd_sending n).
  - unfold publish in Hst. rewrite Ht in Hst. by destruct todo, (nd_sending n).
  - unfold produce in Hst. by rewrite E, andb_false_r in Hst.
  - done.
Qed.

Lemma wedged_forever n n' :
  rtc node_step n n' -> wedged n ->
  nd_reg n' = nd_reg n /\ nd_inbox n' = nd_inbox n /\ nd_sending n' = nd_sending n /\
  nd_todo n' = nd_todo n.
Proof.
  induction 1 as [n|n1 n2 n3 H12 _ IH]; [done|]. intros Hw.
  destruct (wedged_step _ _ H12 Hw) as (Er & Ei & Es & Et).
  destruct IH as (-> & -> & -> & ->); [|done]. destruct Hw as (? & ? & ?).
  unfold wedged. by rewrite Et, Es, Ei.
Qed.

(** Other tasks fill the inbox. *)
Lemma produce_all cmds n :
  nd_shutdown n = false ->
  (length (nd_inbox n) + length cmds <= INBOX_CAPACITY)%nat ->
  rtc node_step n
    (mkNode (nd_reg n) (nd_driver n) (nd_inbox n ++ cmds) (nd_todo n) (nd_sending n)
       (nd_shutdown n)).
Proof.
  revert n. induction cmds as [|c cmds IH]; intros n Hs Hl.
  { rewrite app_nil_r. by destruct n. }
  cbn in Hl. eapply rtc_l.
  - assert (stopped n = false) as Hst.
    { unfold stopped. rewrite Hs. by destruct (nd_todo n). }
    apply (node_produce c). unfold produce. rewrite Hst, (proj2 (Nat.ltb_lt _ _)) by lia.
    reflexivity.
  - specialize (IH (mkNode (nd_reg n) (nd_driver n) (nd_inbox n ++ [c]) (nd_todo n)
      (nd_sending n) (nd_shutdown n))). cbn in IH. rewrite <- app_assoc in IH. apply IH; [done|].
    rewrite length_app. cbn. lia.
Qed.

(** The first inbound L2CAP channel opens a data pipe. *)
Lemma first_l2cap policy me d ch en : exists r,
  handle 0 0 (PeerCommand.InboundL2capChannel d ch) (Registry_new policy me) en
  = Some ([PeerAction.StartDataPipe d 1 1 ConnectRole.Peripheral None ConnectPath.L2cap (Some ch)],
          r, en).
Proof. eexists. reflexivity. Qed.

Lemma hm_iter_empty {K} `{Countable K} {A} : hm_iter (∅ : gmap K A) = [].
Proof. apply Permutation_nil_r. by rewrite hm_iter_perm, map_to_list_empty. Qed.

(** A pipe on an empty table. *)
Lemma first_pipe now d role : exists r,
  start_data_pipe now d role None Routing_new = Some (1, None, r).
Proof.
  unfold start_data_pipe, take_reservation, consume_reservation_for_device, prefix_for_device.
  cbn [scan_hint Routing_new]. rewrite hm_iter_empty. cbn. eexists. reflexivity.
Qed.

(** C35. The actor can deadlock on its own inbox.  There is a run in which it
    handles an inbound L2CAP channel while the other tasks send 256 commands:
    executing [StartDataPipe] it awaits room in its own inbox for
    [DataPipeReady].  From then on, whatever any task does, it is still in that
    send, which cannot complete; no command is taken from the inbox and the
    registry never changes again. *)
Theorem full_inbox_deadlocks (policy : L2capPolicy.t) (me : EndpointId) (d : DeviceId)
    (ch : L2capChannel) (cmds : list PeerCommand.t) (ds : DriverState) :
  length cmds = INBOX_CAPACITY ->
  dr_routing ds = Routing_new ->
  exists n ready, rtc node_step (node_init policy me ds) n /\
    (exists h, ready = PeerCommand.DataPipeReady d 1 h h h h) /\
    forall n', rtc node_step n n' ->
      nd_todo n' = Some [] /\ nd_sending n' = [ready] /\ send_ready n' = None /\
      nd_inbox n' = cmds /\ nd_reg n' = nd_reg n.
Proof.
  intros Hl Hd.
  set (n1 := mkNode (Registry_new policy me) ds [PeerCommand.InboundL2capChannel d ch] None []
    false).
  assert (rtc node_step (node_init policy me ds) n1) as H1.
  { apply (produce_all [_] (node_init policy me ds)); [done|]. cbn. unfold INBOX_CAPACITY. lia. }
  destruct (first_l2cap policy me d ch (dr_env ds)) as [r Er].
  set (acts := [PeerAction.StartDataPipe _ _ _ _ _ _ _]) in Er.
  set (n2 := mkNode r (set_routing_env (dr_routing ds) (dr_env ds) ds) [] (Some acts) [] false).
  assert (node_step n1 n2) as H2.
  { apply (node_receive 0 0). unfold receive, run_cmd. cbn [nd_todo nd_shutdown nd_inbox n1 nd_reg nd_driver].
    by rewrite Er. }
  set (n3 := mkNode r (nd_driver n2) cmds (Some acts) [] false).
  assert (rtc node_step n2 n3) as H3 by (apply (produce_all cmds n2); cbn; [done|lia]).
  destruct (first_pipe 0 d ConnectRole.Peripheral) as [rt Ert].
  assert (exists h ds', act 0 n3 = Some (mkNode r ds' cmds (Some [])
    [PeerCommand.DataPipeReady d 1 h h h h] false)) as (h & ds' & H4).
  { unfold act. cbn. unfold open_pipe. cbn. rewrite Hd, Ert. cbn. eauto. }
  eexists (mkNode r ds' cmds (Some []) [_] false), _. split; [|split; [by exists h|]].
  - etrans; [exact H1|]. eapply rtc_l; [exact H2|]. etrans; [exact H3|].
    by eapply rtc_once, node_act.
  - intros n' Hn'. apply wedged_forever in Hn' as (-> & Ei & Es & ->).
    + split_and!; [done|exact Es| |exact Ei|done]. unfold send_ready. rewrite Es, Ei.
      cbn [nd_sending nd_inbox].
      by rewrite Hl, Nat.ltb_irrefl.
    + split; [by eexists|]. split; [done|]. cbn. by rewrite Hl.
Qed.
End Node.

(** A node whose inbox is filled with connection events. *)
Lemma full_inbox_deadlocks_witness :
  let cmds := replicate INBOX_CAPACITY (PeerCommand.CentralConnected "x") in
  let ds := mkDriverState ∅ Routing_new demo_env 0 [] [] [] in
  exists n ready, rtc node_step (node_init L2capPolicy.PreferL2cap demo_me ds) n /\
    (exists h, ready = PeerCommand.DataPipeReady "dev" 1 h h h h) /\
    forall n', rtc node_step n n' ->
      nd_todo n' = Some [] /\ nd_sending n' = [ready] /\ send_ready n' = None /\
      nd_inbox n' = cmds /\ nd_reg n' = nd_reg n.
Proof.
  exact (full_inbox_deadlocks L2capPolicy.PreferL2cap demo_me "dev" 5
    (replicate INBOX_CAPACITY (PeerCommand.CentralConnected "x"))
    (mkDriverState ∅ Routing_new demo_env 0 [] [] []) (length_replicate _ _) eq_refl).
Defined.
