(* ===== verification/ReliableFacts.v ===== *)
(** * ReliableFacts: local facts about one end of the ARQ

    Sequence arithmetic, the wire codec round trip, what each operation of
    [Reliable] does to the sending half, to the receiving half and to the
    pending acknowledgement, and the specification of fragmentation and
    reassembly against whole datagrams. *)

From S2P Require Import Prelude Peer Mtu Reliable.

(** ** Sequence numbers *)

(** The 4-bit sequence number of the fragment with absolute index [n]. *)
Definition seqn (n : nat) : Z := Z.of_nat n mod SEQ_MODULUS.

Lemma seqn_range n : 0 <= seqn n < 16.
Proof. unfold seqn, SEQ_MODULUS. apply Z.mod_pos_bound. lia. Qed.

Lemma seqn_succ n : (seqn n + 1) mod SEQ_MODULUS = seqn (S n).
Proof.
  unfold seqn, SEQ_MODULUS. rewrite Nat2Z.inj_succ.
  rewrite Zplus_mod_idemp_l. f_equal; lia.
Qed.

Lemma prev_seq_succ n : (prev_seq (seqn n) + 1) mod SEQ_MODULUS = seqn n.
Proof.
  unfold prev_seq, seqn, SEQ_MODULUS.
  rewrite Zplus_mod_idemp_l.
  replace (Z.of_nat n mod 16 + 16 - 1 + 1) with (Z.of_nat n mod 16 + 1 * 16) by lia.
  rewrite Z.mod_add by lia. apply Z.mod_mod. lia.
Qed.

Lemma prev_seq_range n : 0 <= prev_seq (seqn n) < 16.
Proof. unfold prev_seq, SEQ_MODULUS. apply Z.mod_pos_bound. lia. Qed.

Lemma seq_dist_seqn a b : seq_dist (seqn a) (seqn b) = (Z.of_nat b - Z.of_nat a) mod 16.
Proof.
  unfold seq_dist, wrapping_sub, u8_max, SEQ_MODULUS, seqn, SEQ_MODULUS.
  change (255 + 1) with (16 * 16).
  rewrite Z.mod_mod_divide by (by exists 16).
  symmetry. apply Zminus_mod.
Qed.

Lemma seq_dist_fwd a b :
  (a <= b < a + 16)%nat -> seq_dist (seqn a) (seqn b) = Z.of_nat (b - a).
Proof. intros H. rewrite seq_dist_seqn, Z.mod_small; lia. Qed.

Lemma seq_dist_bwd a b :
  (b < a <= b + 16)%nat -> seq_dist (seqn a) (seqn b) = 16 - Z.of_nat (a - b).
Proof.
  intros H. rewrite seq_dist_seqn.
  symmetry. apply Z.mod_unique with (-1); [left|]; lia.
Qed.

Lemma seqn_inj_near a b : (a < b + 16)%nat -> (b < a + 16)%nat -> seqn a = seqn b -> a = b.
Proof.
  intros H1 H2 E. destruct (le_lt_dec a b) as [Hle|Hlt].
  - pose proof (seq_dist_fwd a b). pose proof (seq_dist_fwd a a).
    rewrite E in *. lia.
  - pose proof (seq_dist_fwd b a). pose proof (seq_dist_fwd b b).
    rewrite E in *. lia.
Qed.

(** ** The wire codec *)

(** What the sender puts on the wire for fragment number [i]. *)
Definition wire (i : nat) (f : FragmentEntry) : Bytes :=
  make_header (seqn i) (fr_first f) (fr_last f) ++ fr_payload f ++ [FRAGMENT_CANARY].

(** The pure acknowledgement of everything below [r]. *)
Definition ack_wire (r : nat) : Bytes := set_ack [0; 0] (prev_seq (seqn r)).

(** [q] holds of every sequence number. *)
Definition all_seqs (q : Z -> bool) : bool := forallb (fun n => q (Z.of_nat n)) (List.seq 0 16).

Lemma all_seqs_spec q z : all_seqs q = true -> 0 <= z < 16 -> q z = true.
Proof.
  unfold all_seqs. rewrite List.forallb_forall. intros H Hz.
  specialize (H (Z.to_nat z)). rewrite Z2Nat.id in H by lia.
  apply H, List.in_seq. lia.
Qed.

Lemma header_roundtrip i first last :
  let b0 := nth 0 (make_header (seqn i) first last) 0 in
  Z.land b0 SEQ_MASK = seqn i /\
  negb (Z.land b0 FLAG_FIRST =? 0) = first /\
  negb (Z.land b0 FLAG_LAST =? 0) = last.
Proof.
  cbn zeta.
  assert (all_seqs (fun z =>
    let b0 := nth 0 (make_header z first last) 0 in
    (Z.land b0 SEQ_MASK =? z) &&
    eqb (negb (Z.land b0 FLAG_FIRST =? 0)) first &&
    eqb (negb (Z.land b0 FLAG_LAST =? 0)) last) = true) as Hall.
  { by destruct first, last; vm_compute. }
  apply (all_seqs_spec _ (seqn i)) in Hall; [|apply seqn_range].
  cbn zeta in Hall. rewrite !andb_true_iff in Hall.
  destruct Hall as [[H1 H2] H3].
  apply Z.eqb_eq in H1. apply eqb_prop in H2, H3. done.
Qed.

Lemma ack_roundtrip r :
  let b1 := nth 1 (ack_wire r) 0 in
  Z.land b1 ACK_SEQ_MASK = prev_seq (seqn r) /\ (Z.land b1 FLAG_ACK =? 0) = false.
Proof.
  cbn zeta.
  assert (all_seqs (fun z =>
    let b1 := nth 1 (set_ack [0; 0] z) 0 in
    (Z.land b1 ACK_SEQ_MASK =? z) && negb (Z.land b1 FLAG_ACK =? 0)) = true) as Hall.
  { by vm_compute. }
  apply (all_seqs_spec _ (prev_seq (seqn r))) in Hall; [|apply prev_seq_range].
  cbn zeta in Hall. rewrite andb_true_iff in Hall. destruct Hall as [H1 H2].
  apply Z.eqb_eq in H1. apply negb_true_iff in H2. done.
Qed.

(** Receiving a data fragment is receiving its parsed contents. *)
Lemma receive_wire now i f c :
  fr_first f = true \/ fr_last f = true \/ fr_payload f <> [] ->
  receive_fragment now (wire i f) c
  = receive_data now (seqn i) (fr_first f) (fr_last f) (fr_payload f) c.
Proof.
  intros Hdata. unfold receive_fragment, wire.
  destruct (header_roundtrip i (fr_first f) (fr_last f)) as (Hseq & Hfirst & Hlast).
  unfold make_header in *. cbn [app] in *.
  set (b0 := Z.lor _ _) in *.
  assert (length (b0 :: 0 :: fr_payload f ++ [FRAGMENT_CANARY])
    = (3 + length (fr_payload f))%nat) as Hlen.
  { simpl. rewrite length_app. simpl. lia. }
  rewrite Hlen. unfold HEADER_SIZE.
  destruct (Nat.ltb_spec (3 + length (fr_payload f)) 2); [lia|].
  destruct (Nat.ltb_spec 2 (3 + length (fr_payload f))); [|lia].
  change (b0 :: 0 :: fr_payload f ++ [FRAGMENT_CANARY])
    with ((b0 :: 0 :: fr_payload f) ++ [FRAGMENT_CANARY]).
  rewrite List.last_last. cbn [negb].
  rewrite Z.eqb_refl. cbn [negb].
  rewrite take_app_le, take_ge by (simpl; lia).
  unfold receive_parsed. cbn [nth] in *. rewrite Hseq, Hfirst, Hlast.
  change (Z.land 0 FLAG_ACK =? 0) with true. cbn [negb drop HEADER_SIZE].
  destruct (fr_first f); [done|]. destruct (fr_last f); [done|].
  destruct (fr_payload f); [naive_solver|done].
Qed.

Lemma receive_ack_wire now r c :
  receive_fragment now (ack_wire r) c = receive_ack now (prev_seq (seqn r)) c.
Proof.
  destruct (ack_roundtrip r) as [Hseq Hack].
  unfold receive_fragment. change (length (ack_wire r)) with 2%nat.
  cbn [Nat.ltb Nat.leb HEADER_SIZE]. unfold receive_parsed. cbv zeta.
  rewrite Hseq, Hack. change (nth 0 (ack_wire r) 0) with 0. done.
Qed.

(** ** Fragmentation *)

(** The fragments that follow the first one of a datagram; [d] is what they
    still contribute. *)
Inductive Tail : Bytes -> list FragmentEntry -> Prop :=
| tail_last p : Tail p [mkFrag p false true]
| tail_cons p d fs : p <> [] -> Tail d fs -> Tail (p ++ d) (mkFrag p false false :: fs).

(** [Split d fs]: [fs] are the fragments of the datagram [d]. *)
Inductive Split : Bytes -> list FragmentEntry -> Prop :=
| split_one d : Split d [mkFrag d true true]
| split_many p d fs : p <> [] -> Tail d fs -> Split (p ++ d) (mkFrag p true false :: fs).

(** [Stream D fs]: [fs] are the fragments of the datagrams [D], in order. *)
Inductive Stream : list Bytes -> list FragmentEntry -> Prop :=
| stream_nil : Stream [] []
| stream_cons d fs D rest : Split d fs -> Stream D rest -> Stream (d :: D) (fs ++ rest).

Lemma Stream_snoc D fs d gs : Stream D fs -> Split d gs -> Stream (D ++ [d]) (fs ++ gs).
Proof.
  induction 1 as [|d' fs' D rest Hs _ IH]; intros Hd; simpl.
  - rewrite <- (app_nil_r gs). constructor; [done|constructor].
  - rewrite <- app_assoc. constructor; auto.
Qed.

Definition has_data (f : FragmentEntry) : Prop :=
  fr_first f = true \/ fr_last f = true \/ fr_payload f <> [].

Lemma Tail_has_data d fs : Tail d fs -> Forall has_data fs.
Proof.
  induction 1 as [p|p d fs Hp _ IH]; constructor; auto.
  - by right; left.
  - by right; right.
Qed.

Lemma Stream_has_data D fs : Stream D fs -> Forall has_data fs.
Proof.
  induction 1 as [|d fs D rest Hs _ IH]; [constructor|].
  apply Forall_app; split; [|done].
  destruct Hs as [d|p d fs _ Ht].
  - constructor; [by left|constructor].
  - constructor; [by left|]. by apply Tail_has_data in Ht.
Qed.

Lemma number_chunks_Tail cs i last_idx :
  cs <> [] -> Forall (fun c => c <> []) cs -> (0 < i)%nat ->
  last_idx = (i + length cs - 1)%nat ->
  Tail (concat cs) (number_chunks i last_idx cs).
Proof.
  revert i; induction cs as [|c cs IH]; intros i Hne Hcs Hi ->; [done|].
  apply Forall_cons in Hcs as [Hc Hcs]. cbn [number_chunks concat].
  destruct (Nat.eqb_spec i 0); [lia|].
  destruct cs as [|c' cs].
  - simpl. destruct (Nat.eqb_spec i (i + 1 - 1)); [|lia].
    rewrite app_nil_r. constructor.
  - simpl length. destruct (Nat.eqb_spec i (i + S (S (length cs)) - 1)); [lia|].
    constructor; [done|]. apply IH; [done|done|lia|simpl; lia].
Qed.

Lemma chunks_spec fuel n l :
  (0 < n)%nat -> (length l <= fuel)%nat ->
  concat (chunks fuel n l) = l /\ Forall (fun c => c <> []) (chunks fuel n l).
Proof.
  intros Hn. revert l; induction fuel as [|fuel IH]; intros l Hl.
  - destruct l; simpl in *; [done|lia].
  - destruct l as [|x l]; [done|]. cbn [chunks].
    destruct (IH (drop n (x :: l))) as [IH1 IH2].
    { rewrite length_drop. simpl in *. lia. }
    split.
    + cbn [concat]. rewrite IH1. apply take_drop.
    + constructor; [|done]. destruct n; [lia|done].
Qed.

Lemma fragments_of_Split n d fs : fragments_of n d = Some fs -> Split d fs.
Proof.
  unfold fragments_of. cbn zeta.
  destruct (Z.ltb_spec (n - Z.of_nat HEADER_SIZE - 1) 0); [done|].
  destruct (Z.leb_spec (Z.of_nat (length d)) (n - Z.of_nat HEADER_SIZE - 1)) as [_|Hlong].
  { intros [= <-]. constructor. }
  destruct (Z.eqb_spec (n - Z.of_nat HEADER_SIZE - 1) 0) as [|Hpos]; [done|].
  set (k := Z.to_nat (n - Z.of_nat HEADER_SIZE - 1)).
  assert (0 < k < length d)%nat as Hk by (unfold k; lia).
  intros [= <-].
  destruct (length d) as [|fuel] eqn:Hd; [lia|].
  destruct d as [|x d]; [done|]. cbn [chunks].
  destruct (chunks_spec fuel k (drop k (x :: d))) as [Hcat Hne];
    [lia|rewrite length_drop, Hd; lia|].
  set (cs := chunks fuel k (drop k (x :: d))) in *.
  assert (cs <> []) as Hcs.
  { intros E. rewrite E in Hcat. apply (f_equal length) in Hcat.
    rewrite length_drop, Hd in Hcat. cbn [concat length] in Hcat. lia. }
  cbn [number_chunks length].
  destruct cs as [|c cs']; [done|]. cbn [length Nat.eqb Nat.sub].
  rewrite <- (take_drop k (x :: d)), <- Hcat at 1.
  constructor; [by destruct k; [lia|]|].
  apply number_chunks_Tail; [done|done|lia|simpl; lia].
Qed.

Lemma fragments_of_Some n d : 4 <= n -> is_Some (fragments_of n d).
Proof.
  intros Hn. unfold fragments_of, HEADER_SIZE. cbn zeta.
  destruct (Z.ltb_spec (n - Z.of_nat 2 - 1) 0); [lia|].
  destruct (_ <=? _); [by eauto|].
  destruct (Z.eqb_spec (n - Z.of_nat 2 - 1) 0); [lia|]. eauto.
Qed.

(** ** Reassembly *)

(** The receiver's view of a fragment: partial datagram, overflow flag, and the
    datagrams delivered so far. *)
Definition Reasm : Type := Bytes * bool * list Bytes.

Definition reasm_core (first : bool) (payload re : Bytes) (ov : bool) : Bytes * bool :=
  let '(re, ov) := if first then ([], false) else (re, ov) in
  if ov : bool then (re, ov)
  else if MAX_DATAGRAM_SIZE <? Z.of_nat (length (re ++ payload)) then ([], true)
  else (re ++ payload, false).

Definition reasm_step (s : Reasm) (f : FragmentEntry) : Reasm :=
  let '(re, ov, del) := s in
  let '(re, ov) := reasm_core (fr_first f) (fr_payload f) re ov in
  if fr_last f then ([], false, match re with [] => del | _ => del ++ [re] end)
  else (re, ov, del).

Definition reasm_view (c : ReliableChannel) : Reasm :=
  (reassembly (state c), reassembly_overflow (state c), delivered c).

Lemma reassemble_core first payload st :
  reassemble first payload st
  = let '(re, ov) := reasm_core first payload (reassembly st) (reassembly_overflow st) in
    set_reassembly_overflow ov (set_reassembly re st).
Proof.
  destruct st as [sq fq sn sb ifl rn re ov rb ap ad lp ld].
  unfold reassemble, reasm_core.
  destruct first, ov; cbn -[Z.ltb app MAX_DATAGRAM_SIZE]; try done;
    by destruct (MAX_DATAGRAM_SIZE <? _).
Qed.

(** A datagram reaches the pipe iff it is neither empty nor oversized. *)
Definition deliverable (d : Bytes) : bool :=
  negb (length d =? 0)%nat && (Z.of_nat (length d) <=? MAX_DATAGRAM_SIZE).

(** The partial state that stands for the bytes [acc] of one datagram. *)
Definition partial (acc : Bytes) : Bytes * bool :=
  if Z.of_nat (length acc) <=? MAX_DATAGRAM_SIZE then (acc, false) else ([], true).

Lemma partial_extend (acc p : Bytes) (del : list Bytes) (first last : bool) :
  (first = true -> acc = []) ->
  reasm_step (partial acc, del) (mkFrag p first last)
  = if last
    then ([], false, del ++ if deliverable (acc ++ p) then [acc ++ p] else [])
    else (partial (acc ++ p), del).
Proof.
  intros Hfirst. unfold reasm_step, reasm_core, partial, deliverable. cbn [fr_first fr_last fr_payload].
  rewrite !Z.leb_antisym.
  destruct first.
  - rewrite (Hfirst eq_refl). cbn [app].
    destruct (MAX_DATAGRAM_SIZE <? Z.of_nat (length p)), last; simpl;
      rewrite ?andb_false_r, ?andb_true_r, ?app_nil_r; try done.
    by destruct p; simpl; rewrite ?app_nil_r.
  - destruct (Z.ltb_spec MAX_DATAGRAM_SIZE (Z.of_nat (length acc))) as [Hgt|Hle]; simpl.
    + assert ((MAX_DATAGRAM_SIZE <? Z.of_nat (length (acc ++ p))) = true) as ->
        by (apply Z.ltb_lt; rewrite length_app; lia).
      destruct last; simpl; by rewrite ?andb_false_r, ?app_nil_r.
    + destruct (MAX_DATAGRAM_SIZE <? Z.of_nat (length (acc ++ p))), last; simpl;
        rewrite ?andb_false_r, ?andb_true_r, ?app_nil_r; try done.
      by destruct (acc ++ p); simpl; rewrite ?app_nil_r.
Qed.

(** A first fragment forgets whatever partial state there was. *)
Lemma reasm_first_reset re ov del p last :
  reasm_step (re, ov, del) (mkFrag p true last)
  = reasm_step (partial [], del) (mkFrag p true last).
Proof. done. Qed.

Lemma Tail_reasm d fs acc del :
  Tail d fs ->
  foldl reasm_step (partial acc, del) fs
  = ([], false, del ++ if deliverable (acc ++ d) then [acc ++ d] else []).
Proof.
  intros Ht. revert acc. induction Ht as [p|p d fs _ _ IH]; intros acc; cbn [foldl];
    rewrite partial_extend by done; [done|].
  by rewrite IH, <- app_assoc.
Qed.

Lemma Tail_reasm_prefix d fs acc del n :
  Tail d fs -> (n < length fs)%nat ->
  exists acc', foldl reasm_step (partial acc, del) (take n fs) = (partial acc', del).
Proof.
  intros Ht. revert acc n. induction Ht as [p|p d fs _ _ IH]; intros acc n Hn;
    destruct n as [|n]; cbn [take foldl length] in *; try (by eauto).
  - lia.
  - rewrite partial_extend by done. apply IH. lia.
Qed.

Lemma Split_reasm d fs s :
  Split d fs ->
  foldl reasm_step s fs = ([], false, s.2 ++ if deliverable d then [d] else []).
Proof.
  destruct s as [[re ov] del]. intros [d'|p d' fs' Hp Ht]; cbn [foldl];
    rewrite reasm_first_reset, partial_extend by done; [done|].
  by rewrite (Tail_reasm _ _ _ _ Ht).
Qed.

Lemma Split_reasm_prefix d fs s n :
  Split d fs -> (n < length fs)%nat -> (foldl reasm_step s (take n fs)).2 = s.2.
Proof.
  destruct s as [[re ov] del].
  intros [d'|p d' fs' Hp Ht] Hn; destruct n as [|n]; cbn [take foldl length] in *; try done.
  - lia.
  - rewrite reasm_first_reset, partial_extend by done.
    destruct (Tail_reasm_prefix _ _ ([] ++ p) del n Ht) as [acc' ->]; [lia|done].
Qed.

(** Whatever prefix of the fragment stream has been reassembled, what was
    delivered is the deliverable part of a prefix of the datagrams. *)
Lemma Stream_reasm D fs n s :
  Stream D fs ->
  exists k, (foldl reasm_step s (take n fs)).2
    = s.2 ++ List.filter deliverable (take k D).
Proof.
  intros HS. revert s n. induction HS as [|d fs D rest Hs _ IH]; intros s n.
  - exists 0%nat. rewrite take_nil. cbn. by rewrite app_nil_r.
  - destruct (Nat.lt_ge_cases n (length fs)) as [Hlt|Hge].
    + exists 0%nat. rewrite take_app_le by lia. cbn. rewrite app_nil_r.
      by eapply Split_reasm_prefix.
    + rewrite take_app_ge by lia. rewrite foldl_app, (Split_reasm _ _ _ Hs).
      destruct (IH ([], false, s.2 ++ if deliverable d then [d] else []) (n - length fs)%nat)
        as [k ->].
      exists (S k). cbn. rewrite <- app_assoc. by destruct (deliverable d).
Qed.

(** ** Delivered datagrams are only appended *)

Lemma accept_delivered now f l p c :
  delivered c `prefix_of` delivered (accept_and_deliver now f l p c).
Proof.
  unfold accept_and_deliver. destruct l; [destruct (reassembly _)|]; cbn; try done.
  by apply prefix_app_r.
Qed.

Lemma drain_delivered now fuel c : delivered c `prefix_of` delivered (drain_loop fuel now c).
Proof.
  revert c. induction fuel as [|fuel IH]; intros c; [done|]. cbn [drain_loop].
  destruct (remove_first _ _) as [[f rest]|]; [|done].
  etrans; [|apply IH]. apply (accept_delivered now _ _ _ (upd_state (set_recv_buf rest) c)).
Qed.

Lemma receive_data_delivered now seq f l p c :
  delivered c `prefix_of` delivered (receive_data now seq f l p c).
Proof.
  unfold receive_data. destruct (_ =? _).
  { etrans; [apply accept_delivered|apply drain_delivered]. }
  destruct (_ && _); [done|]. by destruct (negb _).
Qed.

Lemma receive_delivered now v c :
  delivered c `prefix_of` delivered (receive_fragment now v c).
Proof.
  assert (forall v c, delivered c `prefix_of` delivered (receive_parsed now v c)) as Hp.
  { intros w c0. unfold receive_parsed. set (c1 := if negb _ then receive_ack _ _ c0 else c0).
    assert (delivered c1 = delivered c0) as <-.
    { subst c1. unfold receive_ack. by repeat (case_match; simpl). }
    destruct (_ || _); [apply receive_data_delivered|done]. }
  unfold receive_fragment. destruct (_ <? _)%nat; [done|].
  destruct (_ <? _)%nat; [|apply Hp]. destruct (negb _); [done|apply Hp].
Qed.
