(* ===== verification/ReliableSystem.v ===== *)
(** * ReliableSystem: two channel ends over a lossy FIFO link

    The composition the ARQ exists for: a sending end [A], a receiving end [B],
    and the two directions of a GATT link that may lose or repeat messages but
    does not reorder them.  [B] has nothing to send, so it only acknowledges.
    The safety theorem ([arq_in_order_exactly_once]) is proved by an invariant
    on ghost absolute sequence numbers; [stale_piggyback_ack] shows what goes
    wrong when both ends carry data. *)

From S2P Require Import Prelude Peer Mtu Reliable ReliableFacts.

Record Sys := mkSys {
  sysA : ReliableChannel;
  sysB : ReliableChannel;
  ab : list Bytes;          (* in transit from A to B *)
  ba : list Bytes;          (* in transit from B to A *)
  accepted : list Bytes;    (* datagrams [enqueue_datagram] accepted at A *)
}.

Definition sys_init (now : Instant) (chunkA chunkB : Z) : Sys :=
  mkSys (ReliableChannel_new now chunkA) (ReliableChannel_new now chunkB) [] [] [].

Definition emit (a : SendAction.t) : list Bytes :=
  match a with SendAction.Send m => [m] | _ => [] end.

(** One step of the composed system; every instant is arbitrary. *)
Inductive sys_step : Sys -> Sys -> Prop :=
| step_enqueue A B x y q d ok A' :
    enqueue_datagram d A = (ok, A') ->
    sys_step (mkSys A B x y q) (mkSys A' B x y (if ok : bool then q ++ [d] else q))
| step_chunk A B x y q n :
    sys_step (mkSys A B x y q) (mkSys (set_chunk_size n A) B x y q)
| step_chunkB A B x y q n :
    sys_step (mkSys A B x y q) (mkSys A (set_chunk_size n B) x y q)
| step_permitA A B x y q w :
    (** the send loop takes the permit of [wake] *)
    sys_step (mkSys A B x y q) (mkSys (set_wake w A) B x y q)
| step_permitB A B x y q w :
    sys_step (mkSys A B x y q) (mkSys A (set_wake w B) x y q)
| step_deadA A B x y q :
    sys_step (mkSys A B x y q) (mkSys (mark_dead A) B x y q)
| step_deadB A B x y q :
    sys_step (mkSys A B x y q) (mkSys A (mark_dead B) x y q)
| step_sendA A B x y q now a A' :
    next_send_action now A = Some (a, A') ->
    sys_step (mkSys A B x y q) (mkSys A' B (x ++ emit a) y q)
| step_sendB A B x y q now a B' :
    next_send_action now B = Some (a, B') ->
    sys_step (mkSys A B x y q) (mkSys A B' x (y ++ emit a) q)
| step_waitA A B x y q now ls plan ls' A' :
    on_wait now ls A = (plan, ls', A') ->
    sys_step (mkSys A B x y q) (mkSys A' B x y q)
| step_waitB A B x y q now ls plan ls' B' :
    on_wait now ls B = (plan, ls', B') ->
    sys_step (mkSys A B x y q) (mkSys A B' x y q)
| step_timeoutA A B x y q now rt ls m ls' A' :
    on_timeout now rt ls A = (m, ls', A') ->
    sys_step (mkSys A B x y q) (mkSys A' B (x ++ option_list m) y q)
| step_timeoutB A B x y q now rt ls m ls' B' :
    on_timeout now rt ls B = (m, ls', B') ->
    sys_step (mkSys A B x y q) (mkSys A B' x (y ++ option_list m) q)
| step_recvB A B m x y q now (keep : bool) :
    sys_step (mkSys A B (m :: x) y q)
      (mkSys A (receive_fragment now m B) (if keep then m :: x else x) y q)
| step_recvA A B x m y q now (keep : bool) :
    sys_step (mkSys A B x (m :: y) q)
      (mkSys (receive_fragment now m A) B x (if keep then m :: y else y) q)
| step_lossAB A B x1 m x2 y q :
    sys_step (mkSys A B (x1 ++ m :: x2) y q) (mkSys A B (x1 ++ x2) y q)
| step_lossBA A B x y1 m y2 q :
    sys_step (mkSys A B x (y1 ++ m :: y2) q) (mkSys A B x (y1 ++ y2) q).

(** The link may lose all it carries. *)
Lemma loss_allAB A B x1 x2 x3 y q :
  rtc sys_step (mkSys A B (x1 ++ x2 ++ x3) y q) (mkSys A B (x1 ++ x3) y q).
Proof.
  induction x2 as [|m x2 IH]; [done|]. cbn. eapply rtc_l; [|exact IH].
  apply (step_lossAB A B x1 m (x2 ++ x3)).
Qed.
Lemma loss_allBA A B x y1 y2 y3 q :
  rtc sys_step (mkSys A B x (y1 ++ y2 ++ y3) q) (mkSys A B x (y1 ++ y3) q).
Proof.
  induction y2 as [|m y2 IH]; [done|]. cbn. eapply rtc_l; [|exact IH].
  apply (step_lossBA A B x y1 m (y2 ++ y3)).
Qed.

(** ** Ghost views *)

#[global] Instance FragmentEntry_inhabited : Inhabited FragmentEntry :=
  populate (mkFrag [] false false).

(** [F] is the sequence of all fragments the sender has numbered; fragment
    [F !!! i] has absolute index [i]. *)
Definition buf (F : list FragmentEntry) (t : nat) : BufferedFragment :=
  let f := F !!! t in mkBuffered (seqn t) (fr_first f) (fr_last f) (fr_payload f).
Definition flight (F : list FragmentEntry) (i : nat) : InFlightFragment :=
  mkInFlight (seqn i) (wire i (F !!! i)).

Definition data_state (c : ReliableChannel) :=
  (send_queue (state c), frag_queue (state c)).
Definition window_state (c : ReliableChannel) :=
  (send_next (state c), send_base (state c), in_flight (state c)).
Definition receive_state (c : ReliableChannel) :=
  (recv_next (state c), recv_buf (state c), reasm_view c).

(** The sending end has numbered [F] and knows everything below [b] arrived. *)
Record SndInv (F : list FragmentEntry) (b : nat) (c : ReliableChannel) : Prop := {
  si_window : window_state c
    = (seqn (length F), seqn b, flight F <$> List.seq b (length F - b));
  si_range : (b <= length F <= b + 6)%nat;
  si_ack : ack_pending (state c) = None;
}.

(** The receiving end has accepted [F] up to [r] and buffered the fragments
    [ts] beyond. *)
Record RcvInv (F : list FragmentEntry) (r : nat) (ts : list nat) (c : ReliableChannel)
    : Prop := {
  ri_state : receive_state c
    = (seqn r, buf F <$> ts, foldl reasm_step ([], false, []) (take r F));
  ri_le : (r <= length F)%nat;
  ri_nodup : NoDup ts;
  ri_ts : forall t, t ∈ ts -> (r <= t < r + 6)%nat /\ (t < length F)%nat;
}.

Lemma ri_fields F r ts c :
  RcvInv F r ts c ->
  recv_next (state c) = seqn r /\ recv_buf (state c) = buf F <$> ts /\
  reasm_view c = foldl reasm_step ([], false, []) (take r F).
Proof. intros [Hst _ _ _]. unfold receive_state in Hst. by injection Hst as -> -> ->. Qed.

(** Its pending acknowledgement, if any, is for everything below [r]. *)
Definition AckOk (r : nat) (c : ReliableChannel) : Prop :=
  ack_pending (state c) = None \/ ack_pending (state c) = Some (prev_seq (seqn r)).

(** The receiving end sends no data. *)
Definition NoData (c : ReliableChannel) : Prop :=
  data_state c = ([], []) /\ in_flight (state c) = [].

(** The datagrams accepted are those cut into fragments, then those queued. *)
Definition QueueInv (q : list Bytes) (F : list FragmentEntry) (c : ReliableChannel) : Prop :=
  exists D, q = D ++ send_queue (state c) /\ Stream D (F ++ frag_queue (state c)).

Lemma QueueInv_has_data q F c i : QueueInv q F c -> (i < length F)%nat -> has_data (F !!! i).
Proof.
  intros (D & _ & HS) Hi. apply Stream_has_data, Forall_app in HS as [HF _].
  rewrite Forall_forall in HF. apply HF, (list_elem_of_lookup_2 _ i).
  by apply list_lookup_lookup_total_lt.
Qed.

(** ** The receiving end *)

Lemma accept_spec now first last payload c :
  let c' := accept_and_deliver now first last payload c in
  receive_state c'
    = ((recv_next (state c) + 1) mod SEQ_MODULUS, recv_buf (state c),
       reasm_step (reasm_view c) (mkFrag payload first last)) /\
  ack_pending (state c') = Some (prev_seq ((recv_next (state c) + 1) mod SEQ_MODULUS)) /\
  data_state c' = data_state c /\ window_state c' = window_state c.
Proof.
  cbn zeta. unfold accept_and_deliver, upd_state.
  unfold reasm_step, receive_state, data_state, window_state, reasm_view.
  cbn [fr_first fr_last fr_payload]. rewrite reassemble_core.
  destruct (reasm_core _ _ _ _) as [re ov].
  unfold schedule_ack. cbn zeta.
  destruct last; [destruct re|]; destruct (ack_deadline (state c)) eqn:E;
    cbn -[Z.modulo Z.add SEQ_MODULUS prev_seq]; rewrite ?E; done.
Qed.

Lemma remove_first_seq F r ts :
  (forall t, t ∈ ts -> (r <= t < r + 6)%nat) ->
  match remove_first (fun f => bf_seq f =? seqn r) (buf F <$> ts) with
  | Some (g, rest) => exists ts', g = buf F r /\ rest = buf F <$> ts' /\ ts ≡ₚ r :: ts'
  | None => r ∉ ts
  end.
Proof.
  induction ts as [|t ts IH]; intros Hts; cbn [fmap list_fmap remove_first].
  { apply not_elem_of_nil. }
  cbn [bf_seq buf]. destruct (Z.eqb_spec (seqn t) (seqn r)) as [E|E].
  - apply seqn_inj_near in E; [subst t|specialize (Hts t); set_solver by lia..].
    exists ts. done.
  - specialize (IH (fun t' Ht' => Hts t' (list_elem_of_further _ _ _ Ht'))).
    destruct (remove_first _ _) as [[g rest]|].
    + destruct IH as (ts' & -> & -> & Hp). exists (t :: ts'). split_and!; [done|done|].
      rewrite Hp. apply Permutation_swap.
    + apply not_elem_of_cons. split; [congruence|done].
Qed.

(** Accepting fragment [r]. *)
Lemma accept_RcvInv now F r ts ts' c :
  RcvInv F r ts c -> ts ≡ₚ r :: ts' \/ (ts = ts' /\ (r ∉ ts) /\ (r < length F)%nat) ->
  let c' := accept_and_deliver now (fr_first (F !!! r)) (fr_last (F !!! r))
              (fr_payload (F !!! r)) (upd_state (set_recv_buf (buf F <$> ts')) c) in
  RcvInv F (S r) ts' c' /\ ack_pending (state c') = Some (prev_seq (seqn (S r))) /\
  data_state c' = data_state c /\ window_state c' = window_state c.
Proof.
  intros HR Hcase. cbn zeta. destruct (ri_fields _ _ _ _ HR) as (Hn & Hb & Hre).
  destruct HR as [_ Hle Hnd Hts].
  assert (r < length F)%nat as Hlt.
  { destruct Hcase as [Hp|(_ & _ & ?)]; [|done]. apply Hts. rewrite Hp. left. }
  assert (NoDup ts' /\ (r ∉ ts') /\ forall t, t ∈ ts' -> t ∈ ts) as (Hnd' & Hr & Hsub).
  { destruct Hcase as [Hp|(-> & ? & _)]; [|done].
    rewrite Hp in Hnd. apply NoDup_cons in Hnd as [? ?]. split_and!; [done..|].
    intros t. rewrite Hp. by right. }
  destruct (accept_spec now (fr_first (F !!! r)) (fr_last (F !!! r)) (fr_payload (F !!! r))
    (upd_state (set_recv_buf (buf F <$> ts')) c)) as (Hrs & Hack & Hd & Hw).
  split_and!; [|rewrite Hack|done|done].
  - constructor; [|lia|done|].
    + rewrite Hrs. cbn [upd_state set_recv_buf set_state state recv_next recv_buf].
      rewrite Hn, seqn_succ. f_equal.
      rewrite (take_S_r F r (F !!! r)) by (by apply list_lookup_lookup_total_lt).
      rewrite foldl_snoc, <- Hre. by destruct (F !!! r).
    + intros t Ht. pose proof (Hts t (Hsub t Ht)).
      assert (t <> r) by (by intros ->). lia.
  - cbn [upd_state set_recv_buf set_state state recv_next]. by rewrite Hn, seqn_succ.
Qed.

Lemma drain_RcvInv now fuel F r ts c :
  RcvInv F r ts c -> (length ts <= fuel)%nat ->
  ack_pending (state c) = Some (prev_seq (seqn r)) ->
  exists r' ts', let c' := drain_loop fuel now c in
    RcvInv F r' ts' c' /\ (r' ∉ ts') /\
    ack_pending (state c') = Some (prev_seq (seqn r')) /\
    data_state c' = data_state c /\ window_state c' = window_state c /\
    (r <= r')%nat /\
    (forall N, (r <= N)%nat -> (forall t, t ∈ ts -> (t < N)%nat) ->
       (r' <= N)%nat /\ forall t, t ∈ ts' -> (t < N)%nat).
Proof.
  revert r ts c; induction fuel as [|fuel IH]; intros r ts c HR Hfuel Hack.
  - destruct ts; [|simpl in *; lia]. exists r, []. cbn [drain_loop].
    split_and!; try done. set_solver.
  - cbn [drain_loop].
    pose proof (ri_ts _ _ _ _ HR) as Hts.
    destruct (ri_fields _ _ _ _ HR) as (Hn & Hb & _). rewrite Hn, Hb.
    pose proof (remove_first_seq F r ts (fun t Ht => proj1 (Hts t Ht))) as Hrm.
    destruct (remove_first _ _) as [[g rest]|].
    + destruct Hrm as (ts1 & -> & -> & Hp).
      destruct (accept_RcvInv now F r ts ts1 c HR (or_introl Hp)) as (HR1 & Hack1 & Hd1 & Hw1).
      destruct (IH (S r) ts1 _ HR1) as (r' & ts' & HR' & Hr' & Hack' & Hd' & Hw' & Hle' & HN');
        [rewrite Hp in Hfuel; simpl in *; lia|done|].
      exists r', ts'. cbn [bf_first bf_last bf_payload buf].
      split_and!; try done; [congruence|congruence|lia|].
      intros N HrN HtN. apply HN'; [apply HtN; rewrite Hp; left|].
      intros t Ht. apply HtN. rewrite Hp. by right.
    + exists r, ts. by split_and!.
Qed.

(** What receiving fragment [s] does to a receiver at position [r] holding [ts]:
    it stays consistent with [F], and everything it then holds was held before
    or is [s]. *)
Definition RcvStep (F : list FragmentEntry) (r : nat) (ts : list nat) (s : nat)
    (c c' : ReliableChannel) : Prop :=
  exists r' ts',
    RcvInv F r' ts' c' /\ (r' ∉ ts') /\ AckOk r' c' /\
    data_state c' = data_state c /\ window_state c' = window_state c /\
    (r <= r')%nat /\
    (forall N, (r <= N)%nat -> (forall t, t ∈ ts -> (t < N)%nat) -> (s < N)%nat ->
       (r' <= N)%nat /\ forall t, t ∈ ts' -> (t < N)%nat).

Lemma schedule_ack_eq now a st :
  exists dl, schedule_ack now a st = set_ack_deadline dl (set_ack_pending (Some a) st).
Proof.
  unfold schedule_ack. destruct st as [sq fq sn sb ifl rn re ov rb ap ad lp ld]; cbn.
  destruct ad as [d|]; [exists (Some d)|exists (Some (now + ACK_DELAY))]; done.
Qed.

Lemma receive_expected now F r ts c :
  RcvInv F r ts c -> r ∉ ts -> (r < length F)%nat ->
  RcvStep F r ts r c
    (drain_recv_buf now (accept_and_deliver now (fr_first (F !!! r)) (fr_last (F !!! r))
       (fr_payload (F !!! r)) c)).
Proof.
  intros HR Hr Hlt. destruct (ri_fields _ _ _ _ HR) as (_ & Hb & _).
  assert (upd_state (set_recv_buf (buf F <$> ts)) c = c) as Hid.
  { rewrite <- Hb. by destruct c as [[] ? ? ? ? ? ? ?]. }
  destruct (accept_RcvInv now F r ts ts c HR) as (HR1 & Hack1 & Hd1 & Hw1); [by right|].
  rewrite Hid in *. set (c1 := accept_and_deliver _ _ _ _ _) in *.
  destruct (drain_RcvInv now (length (recv_buf (state c1))) F (S r) ts c1 HR1)
    as (r' & ts' & HR' & Hr' & Hack' & Hd' & Hw' & Hle' & HN'); [|done|].
  { destruct (ri_fields _ _ _ _ HR1) as (_ & -> & _). by rewrite length_fmap. }
  exists r', ts'. unfold drain_recv_buf.
  split_and!; try done; [by right|congruence|congruence|lia|].
  intros N HrN HtN HsN. apply HN'; [lia|done].
Qed.

Lemma receive_ahead now F r ts s c :
  RcvInv F r ts c -> r ∉ ts -> s ∉ ts -> (r < s < r + 6)%nat -> (s < length F)%nat ->
  RcvStep F r ts s c
    (notify_one (upd_state (fun st =>
      schedule_ack now (prev_seq (recv_next st))
        (set_recv_buf (recv_buf st ++ [buf F s]) st)) c)).
Proof.
  intros HR Hr Hfresh Hrs Hs. destruct (ri_fields _ _ _ _ HR) as (Hn & Hb & Hre).
  destruct HR as [_ Hle Hnd Hts].
  unfold upd_state.
  destruct (schedule_ack_eq now (prev_seq (recv_next (state c)))
    (set_recv_buf (recv_buf (state c) ++ [buf F s]) (state c))) as [dl ->].
  rewrite Hn, Hb. exists r, (ts ++ [s]).
  split_and!; [|set_solver by lia|by right|done|done|done|].
  - constructor; [|done| |].
    + unfold receive_state, reasm_view in *. cbn -[seqn foldl take fmap].
      by rewrite Hn, fmap_app, <- Hre.
    + apply NoDup_app. split_and!; [done|set_solver|apply NoDup_singleton].
    + intros t. rewrite elem_of_app, list_elem_of_singleton. intros [Ht|Ht]; [auto|lia].
  - intros N HrN HtN HsN. split; [done|].
    intros t. rewrite elem_of_app, list_elem_of_singleton. intros [Ht|Ht]; [auto|lia].
Qed.

Lemma receive_duplicate now F r ts s c :
  RcvInv F r ts c -> r ∉ ts ->
  RcvStep F r ts s c
    (notify_one (upd_state (fun st => schedule_ack now (prev_seq (recv_next st)) st) c)).
Proof.
  intros HR Hr. destruct (ri_fields _ _ _ _ HR) as (Hn & _ & _).
  destruct HR as [Hst Hle Hnd Hts].
  unfold upd_state.
  destruct (schedule_ack_eq now (prev_seq (recv_next (state c))) (state c)) as [dl ->].
  rewrite Hn. exists r, ts. split_and!; [|done|by right|done|done|done|by auto].
  by constructor.
Qed.

(** Receiving the data of fragment [s]. *)
Lemma receive_data_RcvInv now F r ts s c :
  RcvInv F r ts c -> r ∉ ts -> AckOk r c ->
  (s < length F)%nat -> (r <= s + 6)%nat -> (s < r + 6)%nat ->
  RcvStep F r ts s c (receive_data now (seqn s) (fr_first (F !!! s)) (fr_last (F !!! s))
    (fr_payload (F !!! s)) c).
Proof.
  intros HR Hr Hack Hs Hlo Hhi.
  destruct (ri_fields _ _ _ _ HR) as (Hn & Hb & _). unfold receive_data. rewrite Hn.
  destruct (Z.eqb_spec (seqn s) (seqn r)) as [E|E].
  { apply seqn_inj_near in E; [subst s|lia..]. by apply receive_expected. }
  assert (s <> r) as Hne by congruence.
  unfold in_recv_window, is_buffered. rewrite Hn, Hb.
  destruct (Z.ltb_spec (seq_dist (seqn r) (seqn s)) WINDOW_SIZE) as [Hwin|_];
    cbn [andb negb]; [|by apply receive_duplicate].
  assert (r < s)%nat as Hrs.
  { destruct (Nat.lt_trichotomy r s) as [?|[?|?]]; [done|done|].
    rewrite seq_dist_bwd in Hwin by lia. unfold WINDOW_SIZE in Hwin. lia. }
  destruct (existsb (fun f => bf_seq f =? seqn s) (buf F <$> ts)) eqn:Hex; cbn [negb].
  { exists r, ts. by split_and!; auto. }
  apply receive_ahead; [done..| |lia|done].
  intros Hin. apply not_true_iff_false in Hex. apply Hex.
  apply List.existsb_exists. exists (buf F s). split; [|apply Z.eqb_refl].
  apply list_elem_of_In, list_elem_of_fmap_2, Hin.
Qed.

Lemma receive_RcvInv now F r ts s c :
  RcvInv F r ts c -> r ∉ ts -> AckOk r c -> has_data (F !!! s) ->
  (s < length F)%nat -> (r <= s + 6)%nat -> (s < r + 6)%nat ->
  RcvStep F r ts s c (receive_fragment now (wire s (F !!! s)) c).
Proof. intros HR Hr Hack Hdata. rewrite receive_wire by done. by apply receive_data_RcvInv. Qed.

(** ** The sending end *)

Lemma si_fields F b c :
  SndInv F b c ->
  send_next (state c) = seqn (length F) /\ send_base (state c) = seqn b /\
  in_flight (state c) = flight F <$> List.seq b (length F - b).
Proof. intros [Hw _ _]. unfold window_state in Hw. by injection Hw as -> -> ->. Qed.

Lemma si_count F b c :
  SndInv F b c -> in_flight_count (state c) = Z.of_nat (length F - b).
Proof.
  intros HS. destruct (si_fields _ _ _ HS) as (Hn & Hb & _). destruct HS as [_ Hr _].
  unfold in_flight_count. rewrite Hn, Hb. apply seq_dist_fwd. lia.
Qed.

Lemma ack_SndInv now F b a c :
  SndInv F b c -> (b <= a <= length F)%nat ->
  let c' := receive_fragment now (ack_wire a) c in
  SndInv F a c' /\ data_state c' = data_state c.
Proof.
  intros HS Ha. cbn zeta. rewrite receive_ack_wire. unfold receive_ack.
  rewrite prev_seq_succ, (si_count _ _ _ HS).
  destruct (si_fields _ _ _ HS) as (Hn & Hb & Hf). pose proof HS as [Hw Hr Hack].
  rewrite Hb, seq_dist_fwd by lia.
  destruct (Nat.eq_dec a b) as [->|Hne].
  { rewrite Nat.sub_diag. done. }
  destruct (Z.ltb_spec 0 (Z.of_nat (a - b))); [|lia].
  unfold WINDOW_SIZE. destruct (Z.leb_spec (Z.of_nat (a - b)) 6); [|lia].
  destruct (Z.leb_spec (Z.of_nat (a - b)) (Z.of_nat (length F - b))); [|lia].
  split; [|done]. constructor; [|lia|done].
  unfold window_state. cbn -[seqn fmap drop]. rewrite Hn, Hf, Nat2Z.id.
  rewrite <- fmap_drop, List.skipn_seq.
  by replace (b + (a - b))%nat with a by lia;
    replace (length F - b - (a - b))%nat with (length F - a)%nat by lia.
Qed.

Lemma timeout_SndInv now rt ls F b c m ls' c' :
  SndInv F b c -> on_timeout now rt ls c = (m, ls', c') ->
  SndInv F b c' /\ data_state c' = data_state c /\
  (m = None \/ (m = Some (wire b (F !!! b)) /\ (b < length F)%nat)).
Proof.
  intros HS. unfold on_timeout. destruct (now <? rt).
  { intros [= <- <- <-]. auto. }
  destruct (si_fields _ _ _ HS) as (_ & _ & Hf). pose proof HS as [Hw Hr Hack].
  rewrite Hf. destruct (length F - b)%nat as [|k] eqn:Hk; cbn -[wire].
  { intros [= <- <- <-]. auto. }
  rewrite Hack. intros [= <- <- <-]. split_and!; [|done|right; split; [done|lia]].
  constructor; [|done|done]. by rewrite Hk.
Qed.

Lemma refill_QueueInv q F c c' :
  refill c = Some c' -> QueueInv q F c ->
  QueueInv q F c' /\ window_state c' = window_state c /\
  ack_pending (state c') = ack_pending (state c).
Proof.
  unfold refill, fragment_into. intros Hre (D & -> & HS).
  destruct (frag_queue (state c)) as [|fr fq] eqn:Hfq;
    [|injection Hre as <-; split_and!; try done; exists D; by rewrite Hfq].
  destruct (send_queue (state c)) as [|d sq] eqn:Hsq;
    [injection Hre as <-; split_and!; try done; exists D; by rewrite Hfq, Hsq|].
  cbn [upd_state set_state chunk_size] in Hre.
  destruct (fragments_of (chunk_size c) d) as [fs|] eqn:Hfs; [|done].
  apply fragments_of_Split in Hfs. injection Hre as <-.
  split_and!; [|done|done].
  exists (D ++ [d]). cbn. rewrite Hfq. split; [by rewrite <- app_assoc|].
  rewrite app_nil_r in HS. cbn [app]. by apply Stream_snoc.
Qed.

Lemma flight_grow F f b :
  (b <= length F)%nat ->
  flight (F ++ [f]) <$> List.seq b (S (length F) - b)
  = (flight F <$> List.seq b (length F - b)) ++ [mkInFlight (seqn (length F)) (wire (length F) f)].
Proof.
  intros Hb. replace (S (length F) - b)%nat with (length F - b + 1)%nat by lia.
  rewrite List.seq_app, fmap_app. f_equal.
  - apply list_fmap_ext. intros i x Hi.
    apply list_elem_of_lookup_2, list_elem_of_In, List.in_seq in Hi.
    unfold flight. by rewrite lookup_total_app_l by lia.
  - replace (b + (length F - b))%nat with (length F) by lia.
    cbn -[seqn wire]. unfold flight. by rewrite list_lookup_total_middle.
Qed.

Lemma send_fragment_SndInv now q F b fr rest c msg c' :
  SndInv F b c -> QueueInv q F c -> frag_queue (state c) = fr :: rest ->
  can_send (state c) = true -> send_fragment now fr rest c = (msg, c') ->
  msg = wire (length F) fr /\ SndInv (F ++ [fr]) b c' /\ QueueInv q (F ++ [fr]) c'.
Proof.
  intros HS (D & -> & Hstr) Hfq Hcan Hsend.
  unfold can_send, WINDOW_SIZE in Hcan. rewrite (si_count _ _ _ HS) in Hcan.
  apply Z.ltb_lt in Hcan.
  destruct (si_fields _ _ _ HS) as (Hn & Hb & Hf). destruct HS as [_ Hr Hack].
  unfold send_fragment, take_ack in Hsend. cbn -[app make_header seqn] in Hsend.
  rewrite Hack, Hn in Hsend. injection Hsend as <- <-.
  split; [done|]. split.
  - constructor; [|rewrite length_app; cbn; lia|by destruct (in_flight (state c))].
    unfold window_state. rewrite length_app. cbn [length].
    replace (length F + 1)%nat with (S (length F)) by lia.
    rewrite flight_grow, <- Hf, <- seqn_succ by lia. unfold wire, make_header.
    destruct (in_flight (state c)) eqn:E; cbn -[Z.modulo Z.add SEQ_MODULUS seqn];
      by rewrite ?E, ?Hn, ?Hb.
  - exists D. rewrite Hfq in Hstr. rewrite <- app_assoc.
    by destruct (in_flight (state c)).
Qed.

Lemma pure_ack_none now c : ack_pending (state c) = None -> pure_ack now c = (SendAction.Wait, c).
Proof. intros E. unfold pure_ack. by rewrite E. Qed.

Lemma send_SndInv now q F b c a c' :
  SndInv F b c -> QueueInv q F c -> next_send_action now c = Some (a, c') ->
  (exists f, a = SendAction.Send (wire (length F) f) /\
     SndInv (F ++ [f]) b c' /\ QueueInv q (F ++ [f]) c') \/
  (emit a = [] /\ SndInv F b c' /\ QueueInv q F c').
Proof.
  intros HS HQ. unfold next_send_action.
  destruct (link_dead (state c)). { intros [= <- <-]. by right. }
  destruct (refill c) as [c1|] eqn:Hr1; cbn [mbind option_bind]; [|done].
  destruct (refill_QueueInv _ _ _ _ Hr1 HQ) as (HQ1 & Hw1 & Ha1).
  assert (SndInv F b c1) as HS1 by (destruct HS; constructor; congruence).
  destruct (can_send (state c1)) eqn:Hcan; cbn [mbind option_bind].
  2:{ rewrite pure_ack_none by apply HS1. intros [= <- <-]. by right. }
  destruct (refill c1) as [c2|] eqn:Hr2; cbn [mbind option_bind]; [|done].
  destruct (refill_QueueInv _ _ _ _ Hr2 HQ1) as (HQ2 & Hw2 & Ha2).
  assert (SndInv F b c2) as HS2 by (destruct HS1; constructor; congruence).
  assert (can_send (state c2) = true) as Hcan2.
  { revert Hcan. unfold can_send. by rewrite (si_count _ _ _ HS1), (si_count _ _ _ HS2). }
  destruct (frag_queue (state c2)) as [|fr rest] eqn:Hfq.
  { rewrite pure_ack_none by apply HS2. intros [= <- <-]. by right. }
  destruct (send_fragment now fr rest c2) as [msg c3] eqn:Hsend.
  intros [= <- <-].
  destruct (send_fragment_SndInv _ _ _ _ _ _ _ _ _ HS2 HQ2 Hfq Hcan2 Hsend) as (-> & ? & ?).
  left. eauto.
Qed.

(** ** The receiving end's acknowledgements *)

Lemma sendB_spec now r c a c' :
  NoData c -> AckOk r c -> next_send_action now c = Some (a, c') ->
  NoData c' /\ AckOk r c' /\ receive_state c' = receive_state c /\
  (emit a = [] \/ emit a = [ack_wire r]).
Proof.
  intros [Hd Hf] Hack. unfold data_state in Hd. injection Hd as Hsq Hfq.
  unfold next_send_action, refill. destruct (link_dead (state c)).
  { intros [= <- <-]. unfold NoData, data_state. rewrite Hsq, Hfq. auto. }
  rewrite Hfq, Hsq. cbn [mbind option_bind]. rewrite Hfq, Hsq. cbn [mbind option_bind].
  rewrite Hfq.
  assert (Some (pure_ack now c) = Some (a, c') ->
    NoData c' /\ AckOk r c' /\ receive_state c' = receive_state c /\
    (emit a = [] \/ emit a = [ack_wire r])) as Hpure; [|by destruct (can_send _)].
  unfold pure_ack, NoData, data_state.
  destruct Hack as [E|E]; rewrite E.
  { intros [= <- <-]. rewrite Hsq, Hfq. split_and!; auto. by left. }
  destruct (from_option _ _ _).
  - cbn. rewrite E. intros [= <- <-]. cbn. rewrite Hsq, Hfq.
    split_and!; auto. by left.
  - intros [= <- <-]. rewrite Hsq, Hfq. split_and!; auto. by right.
Qed.

Lemma timeoutB_spec now rt ls c m ls' c' :
  NoData c -> on_timeout now rt ls c = (m, ls', c') -> m = None /\ c' = c.
Proof.
  intros [_ Hf]. unfold on_timeout. rewrite Hf.
  destruct (now <? rt); by intros [= <- <- <-].
Qed.

(** ** The composed invariant *)

Record SysInv (F : list FragmentEntry) (b r : nat) (ts ss acks : list nat) (s : Sys)
    : Prop := {
  inv_snd : SndInv F b (sysA s);
  inv_queue : QueueInv (accepted s) F (sysA s);
  inv_rcv : RcvInv F r ts (sysB s);
  inv_r : r ∉ ts;
  inv_ackB : AckOk r (sysB s);
  inv_nodataB : NoData (sysB s);
  inv_br : (b <= r)%nat;
  inv_ab : ab s = (fun i => wire i (F !!! i)) <$> ss;
  inv_ss : forall i, i ∈ ss -> (i < length F)%nat /\ (r <= i + 6)%nat /\
             forall t, t ∈ ts -> (t < i + 6)%nat;
  inv_ss_order : StronglySorted (fun i j => (i < j + 6)%nat) ss;
  inv_ba : ba s = ack_wire <$> acks;
  inv_acks : forall a, a ∈ acks -> (b <= a <= r)%nat;
  inv_acks_order : StronglySorted le acks;
}.

Lemma RcvInv_grow F f r ts c : RcvInv F r ts c -> RcvInv (F ++ [f]) r ts c.
Proof.
  intros [Hst Hle Hnd Hts]. constructor; [|rewrite length_app; lia|done|].
  - rewrite Hst, take_app_le by done. f_equal. f_equal.
    apply list_fmap_ext. intros i t Hi. apply list_elem_of_lookup_2, Hts in Hi.
    unfold buf. by rewrite lookup_total_app_l by lia.
  - intros t Ht. apply Hts in Ht. rewrite length_app. lia.
Qed.

Lemma wires_grow F f (ss : list nat) :
  (forall i, i ∈ ss -> (i < length F)%nat) ->
  (fun i => wire i ((F ++ [f]) !!! i)) <$> ss = (fun i => wire i (F !!! i)) <$> ss.
Proof.
  intros Hss. apply list_fmap_ext. intros j i Hj. apply list_elem_of_lookup_2, Hss in Hj.
  by rewrite lookup_total_app_l by lia.
Qed.


Ltac sys_cbn := cbn [sysA sysB ab ba accepted] in *.

Lemma inv_A_silent F b r ts ss acks A A' B x y q q' :
  SysInv F b r ts ss acks (mkSys A B x y q) ->
  SndInv F b A' -> QueueInv q' F A' ->
  SysInv F b r ts ss acks (mkSys A' B x y q').
Proof. by intros [] HS HQ; constructor. Qed.

Lemma inv_A_emit F b r ts ss acks A B x y q i :
  SysInv F b r ts ss acks (mkSys A B x y q) -> (b <= i < length F)%nat ->
  SysInv F b r ts (ss ++ [i]) acks (mkSys A B (x ++ [wire i (F !!! i)]) y q).
Proof.
  intros [HS HQ HR Hr Hack Hno Hbr Hab Hss Hord Hba Hacks Haord] Hi.
  sys_cbn. constructor; sys_cbn; try done.
  - by rewrite fmap_app, Hab.
  - intros j. rewrite elem_of_app, list_elem_of_singleton. intros [Hj| ->]; [by apply Hss|].
    destruct HS as [_ Hrange _], HR as [_ Hle _ Hts]. split_and!; [lia|lia|].
    intros t Ht. apply Hts in Ht. lia.
  - apply StronglySorted_snoc; [done|]. intros j Hj. apply Hss in Hj.
    destruct HS as [_ Hrange _]. lia.
Qed.

Lemma inv_grow F f b r ts ss acks A A' B x y q :
  SysInv F b r ts ss acks (mkSys A B x y q) ->
  SndInv (F ++ [f]) b A' -> QueueInv q (F ++ [f]) A' ->
  SysInv (F ++ [f]) b r ts ss acks (mkSys A' B x y q).
Proof.
  intros [HS HQ HR Hr Hack Hno Hbr Hab Hss Hord Hba Hacks Haord] HS' HQ'.
  sys_cbn. constructor; sys_cbn; try done.
  - by apply RcvInv_grow.
  - rewrite wires_grow; [done|]. intros i Hi. by apply Hss in Hi as [? _].
  - intros i Hi. rewrite length_app. destruct (Hss i Hi) as (? & ? & ?).
    split_and!; [lia|done|done].
Qed.

Lemma inv_B_silent F b r ts ss acks A B B' x y q :
  SysInv F b r ts ss acks (mkSys A B x y q) ->
  receive_state B' = receive_state B -> NoData B' -> AckOk r B' ->
  SysInv F b r ts ss acks (mkSys A B' x y q).
Proof.
  intros [HS HQ [Hst Hle Hnd Hts] Hr Hack Hno Hbr Hab Hss Hord Hba Hacks Haord] E Hno' Hack'.
  constructor; try done. constructor; [|done..]. sys_cbn. congruence.
Qed.

Lemma inv_B_emit F b r ts ss acks A B x y q :
  SysInv F b r ts ss acks (mkSys A B x y q) ->
  SysInv F b r ts ss (acks ++ [r]) (mkSys A B x (y ++ [ack_wire r]) q).
Proof.
  intros [HS HQ HR Hr Hack Hno Hbr Hab Hss Hord Hba Hacks Haord].
  sys_cbn. constructor; sys_cbn; try done.
  - by rewrite fmap_app, Hba.
  - intros a. rewrite elem_of_app, list_elem_of_singleton. intros [Ha| ->]; [auto|lia].
  - apply StronglySorted_snoc; [done|]. intros a Ha. by apply Hacks.
Qed.

Lemma inv_recvB F b r ts ss acks A B m x y q now :
  SysInv F b r ts ss acks (mkSys A B (m :: x) y q) ->
  exists r' ts', (r <= r')%nat /\
    SysInv F b r' ts' ss acks (mkSys A (receive_fragment now m B) (m :: x) y q).
Proof.
  intros [HS HQ HR Hr Hack Hno Hbr Hab Hss Hord Hba Hacks Haord]. sys_cbn.
  destruct ss as [|s ss]; [done|]. injection Hab as -> ->.
  destruct (Hss s (list_elem_of_here _ _)) as (Hs1 & Hs2 & _).
  pose proof (QueueInv_has_data _ _ _ _ HQ Hs1) as Hdata.
  destruct (receive_RcvInv now F r ts s B HR Hr Hack Hdata Hs1 Hs2) as
    (r' & ts' & HR' & Hr' & Hack' & Hd' & Hw' & Hle' & HN').
  { destruct HS as [_ Hrange _]. lia. }
  exists r', ts'. split; [done|]. constructor; sys_cbn; try done; [|lia| |].
  - destruct Hno as [Hd Hf]. split; [congruence|].
    unfold window_state in Hw'. by injection Hw' as _ _ ->.
  - intros i Hi. destruct (Hss i Hi) as (Hi1 & Hi2 & Hi3).
    destruct (HN' (i + 6)%nat Hi2 Hi3) as [? ?]; [|done].
    apply elem_of_cons in Hi as [->|Hi]; [lia|].
    exact (StronglySorted_head _ _ _ _ Hord Hi).
  - intros a Ha. apply Hacks in Ha. lia.
Qed.

Lemma inv_recvA F b r ts ss acks A B m x y q now :
  SysInv F b r ts ss acks (mkSys A B x (m :: y) q) ->
  exists b' rest, acks = b' :: rest /\ (b <= b')%nat /\
    SysInv F b' r ts ss acks (mkSys (receive_fragment now m A) B x (m :: y) q).
Proof.
  intros [HS HQ HR Hr Hack Hno Hbr Hab Hss Hord Hba Hacks Haord]. sys_cbn.
  destruct acks as [|a acks]; [done|]. injection Hba as -> ->.
  pose proof (Hacks a (list_elem_of_here _ _)) as Ha.
  destruct (ack_SndInv now F b a A HS) as [HS' Hd'].
  { destruct HR as [_ Hle _ _]. lia. }
  exists a, acks. split; [done|]. split; [lia|]. constructor; sys_cbn; try done; [|lia|].
  - destruct HQ as (D & Hq & HStr). exists D.
    unfold data_state in Hd'. injection Hd' as E1 E2. by rewrite E1, E2.
  - intros a' Ha'. split; [|by apply Hacks].
    apply elem_of_cons in Ha' as [->|Ha']; [done|].
    exact (StronglySorted_head _ _ _ _ Haord Ha').
Qed.

Lemma inv_lossAB F b r ts ss acks A B x1 m x2 y q :
  SysInv F b r ts ss acks (mkSys A B (x1 ++ m :: x2) y q) ->
  exists ss', SysInv F b r ts ss' acks (mkSys A B (x1 ++ x2) y q).
Proof.
  intros [HS HQ HR Hr Hack Hno Hbr Hab Hss Hord Hba Hacks Haord]. sys_cbn.
  apply fmap_app_cons_inv in Hab as (l1 & i & l2 & -> & -> & -> & ->).
  exists (l1 ++ l2). constructor; sys_cbn; try done.
  - by rewrite fmap_app.
  - intros j Hj. apply Hss. set_solver.
  - by apply StronglySorted_remove in Hord.
Qed.

Lemma inv_lossBA F b r ts ss acks A B x y1 m y2 q :
  SysInv F b r ts ss acks (mkSys A B x (y1 ++ m :: y2) q) ->
  exists acks', SysInv F b r ts ss acks' (mkSys A B x (y1 ++ y2) q).
Proof.
  intros [HS HQ HR Hr Hack Hno Hbr Hab Hss Hord Hba Hacks Haord]. sys_cbn.
  apply fmap_app_cons_inv in Hba as (l1 & i & l2 & -> & -> & -> & ->).
  exists (l1 ++ l2). constructor; sys_cbn; try done.
  - by rewrite fmap_app.
  - intros j Hj. apply Hacks. set_solver.
  - by apply StronglySorted_remove in Haord.
Qed.

Definition Inv (s : Sys) : Prop := exists F b r ts ss acks, SysInv F b r ts ss acks s.

(** The invariant, with at least [n] fragments acknowledged. *)
Definition InvFrom (n : nat) (s : Sys) : Prop :=
  exists F b r ts ss acks, (n <= b)%nat /\ SysInv F b r ts ss acks s.

Lemma Inv_init now ca cb : Inv (sys_init now ca cb).
Proof.
  exists [], 0%nat, 0%nat, [], [], [].
  constructor; cbn; try done; try (by constructor); try set_solver.
  - by constructor; [|cbn; lia|].
  - by exists []; split; [|constructor].
  - constructor; try done; [by constructor|set_solver].
Qed.

(** The turns of the sending end. *)
Lemma inv_enqueue F b r ts ss acks A B x y q d ok A' :
  SysInv F b r ts ss acks (mkSys A B x y q) -> enqueue_datagram d A = (ok, A') ->
  InvFrom b (mkSys A' B x y (if ok : bool then q ++ [d] else q)).
Proof.
  intros HI H. pose proof (inv_snd _ _ _ _ _ _ _ HI) as HS.
  pose proof (inv_queue _ _ _ _ _ _ _ HI) as HQ. sys_cbn.
  exists F, b, r, ts, ss, acks. split; [lia|]. eapply inv_A_silent; [exact HI|..];
    revert H; unfold enqueue_datagram; destruct (_ <=? _)%nat; intros [= <- <-]; try done.
  - by destruct HS; constructor.
  - destruct HQ as (D & -> & HStr). exists D. cbn. by rewrite app_assoc.
Qed.

(** A turn of the sending end numbers one more fragment and sends it, or sends
    nothing. *)
Lemma inv_sendA_at F b r ts ss acks A B x y q now a A' :
  SysInv F b r ts ss acks (mkSys A B x y q) -> next_send_action now A = Some (a, A') ->
  exists F' ss', SysInv F' b r ts ss' acks (mkSys A' B (x ++ emit a) y q) /\
    ((length F < length F')%nat \/ F' = F /\ emit a = []).
Proof.
  intros HI H. pose proof (inv_snd _ _ _ _ _ _ _ HI) as HS.
  pose proof (inv_queue _ _ _ _ _ _ _ HI) as HQ. sys_cbn.
  destruct (send_SndInv _ _ _ _ _ _ _ HS HQ H) as [(f & -> & HS' & HQ')|(E & HS' & HQ')].
  - exists (F ++ [f]), (ss ++ [length F]). cbn [emit]. rewrite length_app. cbn [length].
    split; [|lia]. pose proof (inv_grow _ _ _ _ _ _ _ _ _ _ _ _ _ HI HS' HQ') as HI'.
    destruct HS as [_ Hr _].
    apply (inv_A_emit _ _ _ _ _ _ _ _ _ _ _ (length F)) in HI';
      [|rewrite length_app; cbn; lia].
    by rewrite list_lookup_total_middle in HI'.
  - exists F, ss. rewrite E, app_nil_r. split; [by eapply inv_A_silent|by right].
Qed.
Lemma inv_sendA F b r ts ss acks A B x y q now a A' :
  SysInv F b r ts ss acks (mkSys A B x y q) -> next_send_action now A = Some (a, A') ->
  InvFrom b (mkSys A' B (x ++ emit a) y q).
Proof.
  intros HI H. destruct (inv_sendA_at _ _ _ _ _ _ _ _ _ _ _ _ _ _ HI H) as (F' & ss' & HI' & _).
  exists F', b, r, ts, ss', acks. by split; [lia|].
Qed.

Lemma inv_waitA F b r ts ss acks A B x y q now ls plan ls' A' :
  SysInv F b r ts ss acks (mkSys A B x y q) -> on_wait now ls A = (plan, ls', A') ->
  InvFrom b (mkSys A' B x y q).
Proof.
  intros HI H. pose proof (inv_snd _ _ _ _ _ _ _ HI) as HS.
  pose proof (inv_queue _ _ _ _ _ _ _ HI) as HQ. sys_cbn.
  exists F, b, r, ts, ss, acks. split; [lia|]. eapply inv_A_silent; [exact HI|..];
    revert H; unfold on_wait; destruct (in_flight _); [|destruct (_ <=? _)| |destruct (_ <=? _)];
    intros [= <- <- <-]; try done; by destruct HS; constructor.
Qed.

Lemma inv_timeoutA F b r ts ss acks A B x y q now rt ls m ls' A' :
  SysInv F b r ts ss acks (mkSys A B x y q) -> on_timeout now rt ls A = (m, ls', A') ->
  InvFrom b (mkSys A' B (x ++ option_list m) y q).
Proof.
  intros HI H. pose proof (inv_snd _ _ _ _ _ _ _ HI) as HS.
  pose proof (inv_queue _ _ _ _ _ _ _ HI) as HQ. sys_cbn.
  destruct (timeout_SndInv _ _ _ _ _ _ _ _ _ HS H) as (HS' & Hd & Hm).
  assert (SysInv F b r ts ss acks (mkSys A' B x y q)) as HI'.
  { eapply inv_A_silent; [exact HI|done|]. destruct HQ as (D & Hq & HStr). exists D.
    unfold data_state in Hd. by injection Hd as -> ->. }
  destruct Hm as [->|[-> Hlt]]; cbn [option_list].
  - rewrite app_nil_r. exists F, b, r, ts, ss, acks. by split; [lia|].
  - exists F, b, r, ts, (ss ++ [b]), acks. split; [lia|]. apply inv_A_emit; [done|lia].
Qed.

(** The turns of the receiving end, which has nothing in flight. *)
Lemma inv_turnB F b r ts ss acks A B x y q now a B' :
  SysInv F b r ts ss acks (mkSys A B x y q) -> next_send_action now B = Some (a, B') ->
  InvFrom b (mkSys A B' x (y ++ emit a) q).
Proof.
  intros HI H.
  destruct (sendB_spec _ _ _ _ _ (inv_nodataB _ _ _ _ _ _ _ HI) (inv_ackB _ _ _ _ _ _ _ HI) H)
    as (HB' & Ha' & Hrs & [->| ->]).
  - rewrite app_nil_r. exists F, b, r, ts, ss, acks. split; [lia|]. by eapply inv_B_silent.
  - exists F, b, r, ts, ss, (acks ++ [r]). split; [lia|]. eapply inv_B_emit. by eapply inv_B_silent.
Qed.

(** A message is taken from the link, or handed over and left on it. *)
Lemma inv_arriveB F b r ts ss acks A B m x y q now (keep : bool) :
  SysInv F b r ts ss acks (mkSys A B (m :: x) y q) ->
  InvFrom b (mkSys A (receive_fragment now m B) (if keep then m :: x else x) y q).
Proof.
  intros HI. destruct (inv_recvB _ _ _ _ _ _ _ _ _ _ _ _ now HI) as (r' & ts' & _ & HI').
  destruct keep; [exists F, b, r', ts', ss, acks; by split; [lia|]|].
  destruct (inv_lossAB F b r' ts' ss acks A (receive_fragment now m B) [] m x y q HI')
    as [ss' HI'']. exists F, b, r', ts', ss', acks. by split; [lia|].
Qed.

Lemma inv_arriveA F b r ts ss acks A B m x y q now (keep : bool) :
  SysInv F b r ts ss acks (mkSys A B x (m :: y) q) ->
  InvFrom b (mkSys (receive_fragment now m A) B x (if keep then m :: y else y) q).
Proof.
  intros HI. destruct (inv_recvA _ _ _ _ _ _ _ _ _ _ _ _ now HI) as (b' & rest & _ & Hb' & HI').
  destruct keep; [exists F, b', r, ts, ss, acks; by split; [lia|]|].
  destruct (inv_lossBA F b' r ts ss acks (receive_fragment now m A) B x [] m y q HI')
    as [acks' HI'']. exists F, b', r, ts, ss, acks'. by split; [lia|].
Qed.

Lemma InvFrom_le n m s : (n <= m)%nat -> InvFrom m s -> InvFrom n s.
Proof. intros Hn (F & b & r & ts & ss & acks & Hb & HI). exists F, b, r, ts, ss, acks. split; [lia|done]. Qed.

Lemma InvFrom_step n s s' : sys_step s s' -> InvFrom n s -> InvFrom n s'.
Proof.
  intros Hstep (F & b & r & ts & ss & acks & Hn & HI). apply (InvFrom_le n b); [done|].
  pose proof (inv_snd _ _ _ _ _ _ _ HI) as HS. pose proof (inv_queue _ _ _ _ _ _ _ HI) as HQ.
  pose proof (inv_nodataB _ _ _ _ _ _ _ HI) as HB.
  pose proof (inv_ackB _ _ _ _ _ _ _ HI) as HaB.
  destruct Hstep; sys_cbn; eauto using inv_enqueue, inv_sendA, inv_waitA, inv_timeoutA,
    inv_turnB, inv_arriveA, inv_arriveB.
  1,3,5: exists F, b, r, ts, ss, acks; (split; [lia|]);
    eapply inv_A_silent; [exact HI|by destruct HS; constructor|done].
  1-3: exists F, b, r, ts, ss, acks; (split; [lia|]); by eapply inv_B_silent.
  - destruct HB as [_ Hf]. unfold on_wait in H. rewrite Hf in H. injection H as <- <- <-.
    exists F, b, r, ts, ss, acks. by split; [lia|].
  - destruct (timeoutB_spec _ _ _ _ _ _ _ HB H) as [-> ->]. cbn. rewrite app_nil_r.
    exists F, b, r, ts, ss, acks. by split; [lia|].
  - destruct (inv_lossAB _ _ _ _ _ _ _ _ _ _ _ _ _ HI) as [ss' HI'].
    exists F, b, r, ts, ss', acks. by split; [lia|].
  - destruct (inv_lossBA _ _ _ _ _ _ _ _ _ _ _ _ _ HI) as [acks' HI'].
    exists F, b, r, ts, ss, acks'. by split; [lia|].
Qed.

Lemma Inv_InvFrom s : Inv s -> InvFrom 0 s.
Proof. intros (F & b & r & ts & ss & acks & HI). exists F, b, r, ts, ss, acks. split; [lia|done]. Qed.

Lemma Inv_step s s' : sys_step s s' -> Inv s -> Inv s'.
Proof.
  intros Hstep HI%Inv_InvFrom.
  destruct (InvFrom_step 0 s s' Hstep HI) as (F & b & r & ts & ss & acks & _ & HI').
  by exists F, b, r, ts, ss, acks.
Qed.

Lemma Inv_steps s s' : rtc sys_step s s' -> Inv s -> Inv s'.
Proof. induction 1 as [|s1 s2 s3 Hstep _ IH]; [done|]. intros HI. by apply IH, (Inv_step _ _ Hstep). Qed.

Lemma Inv_reachable now ca cb s : rtc sys_step (sys_init now ca cb) s -> Inv s.
Proof. intros Hr. eapply Inv_steps; [exact Hr|apply Inv_init]. Qed.

(** A receiver that has accepted the first [r] fragments of the stream has
    delivered the deliverable datagrams among the first [k]. *)
Lemma reassembled_prefix (c : ReliableChannel) r D F fq sq :
  reasm_view c = foldl reasm_step ([], false, []) (take r F) -> (r <= length F)%nat ->
  forall q, q = D ++ sq -> Stream D (F ++ fq) ->
  exists k, delivered c = List.filter deliverable (take k q).
Proof.
  intros Hre Hle q -> HStr.
  destruct (Stream_reasm D (F ++ fq) r ([], false, []) HStr) as [k Hk].
  rewrite take_app_le, <- Hre in Hk by done. cbn in Hk.
  exists (min k (length D)). rewrite Hk, take_app_le by lia. f_equal.
  destruct (Nat.le_ge_cases k (length D)) as [?|?].
  - by rewrite Nat.min_l.
  - rewrite Nat.min_r by done. by rewrite !take_ge by lia.
Qed.

Lemma reachable_delivered now ca cb s :
  rtc sys_step (sys_init now ca cb) s ->
  exists k, delivered (sysB s) = List.filter deliverable (take k (accepted s)).
Proof.
  intros Hr. apply Inv_reachable in Hr as (F & b & r & ts & ss & acks & HI).
  destruct (ri_fields _ _ _ _ (inv_rcv _ _ _ _ _ _ _ HI)) as (_ & _ & Hre).
  destruct (inv_queue _ _ _ _ _ _ _ HI) as (D & Hq & HStr).
  pose proof (ri_le _ _ _ _ (inv_rcv _ _ _ _ _ _ _ HI)) as Hle.
  exact (reassembled_prefix _ _ _ _ _ _ Hre Hle _ Hq HStr).
Qed.

(** C2. In-order, exactly-once delivery.  However the link between a sending and
    a receiving end loses or repeats messages, and however the two ends' timers,
    sends and receptions interleave, the datagrams handed to the receiving pipe
    are, in order and without repetition, the deliverable ones (non-empty, at
    most [MAX_DATAGRAM_SIZE] bytes) among the first [k] datagrams the sender
    accepted. *)
Theorem arq_in_order_exactly_once (now : Instant) (chunkA chunkB : Z) (s : Sys) :
  rtc sys_step (sys_init now chunkA chunkB) s ->
  exists k, delivered (sysB s) = List.filter deliverable (take k (accepted s)).
Proof. apply reachable_delivered. Qed.

(** A run that delivers: enqueue, send, receive. *)
Lemma arq_in_order_exactly_once_witness :
  exists s, rtc sys_step (sys_init 0 21 21) s /\ delivered (sysB s) = [[7; 8; 9]] /\
    exists k, delivered (sysB s) = List.filter deliverable (take k (accepted s)).
Proof.
  eexists. split; [|split].
  2: shelve. 2: shelve.
  eapply rtc_l; [eapply (step_enqueue _ _ _ _ _ [7; 8; 9]); reflexivity|].
  eapply rtc_l; [eapply (step_sendA _ _ _ _ _ 0); reflexivity|].
  eapply rtc_l; [eapply (step_recvB _ _ _ _ _ _ 0 false)|].
  apply rtc_refl.
  Unshelve.
  - reflexivity.
  - eapply (arq_in_order_exactly_once 0 21 21).
    eapply rtc_l; [eapply (step_enqueue _ _ _ _ _ [7; 8; 9]); reflexivity|].
    eapply rtc_l; [eapply (step_sendA _ _ _ _ _ 0); reflexivity|].
    eapply rtc_l; [eapply (step_recvB _ _ _ _ _ _ 0 false)|].
    apply rtc_refl.
Defined.

(** ** Liveness of the link *)

(** The send loop declares the link dead exactly when a fragment is
    unacknowledged and no acknowledgement has advanced the window for
    [LINK_DEAD_DEADLINE]; in every other case the link is not marked dead, and
    with a fragment unacknowledged the loop sleeps no longer than to that
    deadline. *)
Theorem link_dead_exactly_at_deadline (now : Instant) (ls : LoopState) (c : ReliableChannel) :
  let '(plan, _, c') := on_wait now ls c in
  let dead_at := last_progress_at (state c) + LINK_DEAD_DEADLINE in
  (plan = WaitPlan.LinkDead <-> in_flight (state c) <> [] /\ dead_at <= now) /\
  link_dead (state c')
    = (match plan with WaitPlan.LinkDead => true | _ => link_dead (state c) end) /\
  (forall u rt, plan = WaitPlan.SleepUntil u rt ->
     in_flight (state c) <> [] /\ u <= dead_at /\ u <= rt).
Proof.
  unfold on_wait. destruct (in_flight (state c)) as [|f fs] eqn:E.
  { split_and!; [split; naive_solver|done|done]. }
  cbn zeta.
  destruct (Z.leb_spec (last_progress_at (state c) + LINK_DEAD_DEADLINE) now).
  - by split_and!.
  - split_and!; [split; [done|intros [_ Hc]; lia]|done|].
    intros u rt [= <- <-]. split; [done|].
    destruct (ack_deadline (state c)); lia.
Qed.

Lemma fragments_fit (n : Z) (d : Bytes) (fs : list FragmentEntry) (f : FragmentEntry) :
  fragments_of n d = Some fs -> f ∈ fs -> Z.of_nat (length (fr_payload f)) <= n - 3.
Proof.
  unfold fragments_of, HEADER_SIZE. cbn zeta.
  destruct (Z.ltb_spec (n - Z.of_nat 2 - 1) 0); [done|].
  destruct (Z.leb_spec (Z.of_nat (length d)) (n - Z.of_nat 2 - 1)).
  { intros [= <-] Hf. apply list_elem_of_singleton in Hf as ->. cbn. lia. }
  destruct (Z.eqb_spec (n - Z.of_nat 2 - 1) 0); [done|].
  intros [= <-].
  assert (forall (fuel k : nat) (l : Bytes) i j, f ∈ number_chunks i j (chunks fuel k l) ->
    (length (fr_payload f) <= k)%nat) as Hgen.
  { induction fuel as [|fuel IH]; intros k l i j; cbn [chunks number_chunks]; [set_solver|].
    destruct l as [|x l]; [set_solver|]. cbn [number_chunks].
    rewrite elem_of_cons. intros [->|Hin]; [cbn [fr_payload]; rewrite length_take; lia|eauto]. }
  intros Hin. apply Hgen in Hin. lia.
Qed.

(** ** Both ends carry data

    The theorem above is about one direction of data.  With data in both
    directions the acknowledgement a fragment carried when it was first sent is
    kept in [wire_msg], and a retransmission sends it again. *)

Module Duplex.

Inductive ev :=
| Enqueue (side : bool) (d : Bytes)
| Transmit (side : bool) (now : Instant) (arrives : bool)
| Retransmit (side : bool) (now : Instant) (arrives : bool).

Definition ends : Type := ReliableChannel * ReliableChannel.
Definition own (side : bool) (s : ends) : ReliableChannel := if side then s.1 else s.2.
Definition set_own (side : bool) (c : ReliableChannel) (s : ends) : ends :=
  if side then (c, s.2) else (s.1, c).

(** [m] leaves the end [side] ([true] is the left one) and reaches the other end, or is lost. *)
Definition carry (side arrives : bool) (now : Instant) (ms : list Bytes) (s : ends) : ends :=
  if arrives
  then foldl (fun s m => set_own (negb side) (receive_fragment now m (own (negb side) s)) s) s ms
  else s.

Definition exec (s : ends) (e : ev) : option ends :=
  match e with
  | Enqueue side d =>
      let '(ok, c) := enqueue_datagram d (own side s) in
      if ok : bool then Some (set_own side c s) else None
  | Transmit side now arrives =>
      '(a, c) ← next_send_action now (own side s);
      Some (carry side arrives now (emit a) (set_own side c s))
  | Retransmit side now arrives =>
      let '(m, _, c) := on_timeout now now loop_init (own side s) in
      Some (carry side arrives now (option_list m) (set_own side c s))
  end.

Fixpoint run (es : list ev) (s : ends) : option ends :=
  match es with
  | [] => Some s
  | e :: es' => s' ← exec s e; run es' s'
  end.

Definition ms := from_millis.

(** The right end sends datagram [i], the left end acknowledges it. *)
Definition exchange (i : nat) : list ev :=
  let t := 25 * Z.of_nat i in
  [Enqueue false [Z.of_nat i]; Transmit false (ms t) true; Transmit true (ms (t + 20)) true].

Definition before : list ev :=
  [Enqueue false [0]; Transmit false (ms 1) true;     (* right sends, left will owe ack 0 *)
   Enqueue true [99]; Transmit true (ms 2) false]     (* left's datagram, ack 0 aboard, is lost *)
  ++ mjoin (exchange <$> seq 1 10)                    (* ten exchanges, all acknowledged *)
  ++ mjoin ((fun i => [Enqueue false [Z.of_nat i]; Transmit false (ms 280) false]) <$> seq 11 6).

(** What is observed of the two ends before and after the retransmission. *)
Definition observe (s s' : ends) : Prop :=
  length (in_flight (state s.2)) = 6%nat /\ recv_next (state s.1) = 11 /\
  delivered s.1 = (fun i => [Z.of_nat i]) <$> seq 0 11 /\
  in_flight (state s'.2) = [] /\ frag_queue (state s'.2) = [] /\
  send_queue (state s'.2) = [] /\ link_dead (state s'.2) = false /\
  recv_next (state s'.1) = 11 /\ delivered s'.1 = delivered s.1.

Lemma observe_run (o : option ends) (f : ends -> option ends) (P : ends -> ends -> Prop) :
  match o with
  | Some s => match f s with Some s' => P s s' | None => False end
  | None => False
  end -> exists s s', o = Some s /\ f s = Some s' /\ P s s'.
Proof.
  destruct o as [s|]; [|done]. destruct (f s) as [s'|] eqn:E; [|done]. intros H. eauto.
Qed.

End Duplex.

(** Stale piggybacked acknowledgement.  There is a run in which six
    fragments of the right end are in flight, every one of them lost, and the
    left end's retransmission of an old fragment, carrying the acknowledgement
    it first went out with, makes the right end drop all six as acknowledged:
    the left end still expects sequence number 11, the right end's window is
    empty, so those datagrams are never sent again. *)
Theorem stale_piggyback_ack :
  let new := ReliableChannel_new 0 100 in
  exists s s',
    Duplex.run Duplex.before (new, new) = Some s /\
    Duplex.exec s (Duplex.Retransmit true (Duplex.ms 560) true) = Some s' /\
    Duplex.observe s s'.
Proof.
  refine (Duplex.observe_run _
    (fun s => Duplex.exec s (Duplex.Retransmit true (Duplex.ms 560) true)) _ _).
  vm_compute. repeat split.
Qed.
