(* ===== verification/ReliableDuplex.v ===== *)
(** * ReliableDuplex: data in both directions

    Two ends that both send, over a link that may lose or repeat messages but
    does not reorder them.  A fragment carries the acknowledgement pending when
    it is first sent, and a retransmission repeats it unless a newer one is
    pending, so an old acknowledgement can arrive late; [stale_piggyback_ack] of
    [ReliableSystem] shows the harm one ten fragments old does.  Here the bound
    is exact: as long as no retransmission repeats an acknowledgement more than
    nine fragments old, both directions deliver in order and exactly once. *)

From S2P Require Import Prelude Peer Mtu Reliable ReliableFacts ReliableSystem.

(** One end, with what it accepted to send and two observations on its past:
    how many fragments of the other end it has accepted, and for every fragment
    in flight how many it had accepted when that one was first sent. *)
Record Side := mkSide {
  chn : ReliableChannel;
  got : nat;
  stamps : list nat;
  sent : list Bytes;
}.

Definition side_init (now : Instant) (chunk : Z) : Side :=
  mkSide (ReliableChannel_new now chunk) 0 [] [].

(** The observations follow the channel: [recv_next] tells how far it got,
    [in_flight] grows by the fragment sent and shrinks by those acknowledged. *)
Definition follow (c' : ReliableChannel) (e : Side) : Side :=
  let n := length (in_flight (state (chn e))) in
  let n' := length (in_flight (state c')) in
  mkSide c' (got e + Z.to_nat (seq_dist (recv_next (state (chn e))) (recv_next (state c'))))
    (if (n <? n')%nat then stamps e ++ [got e] else drop (n - n') (stamps e)) (sent e).

(** A message that carries an acknowledgement. *)
Definition carries_ack (m : Bytes) : bool :=
  match m with _ :: b1 :: _ => negb (Z.land b1 FLAG_ACK =? 0) | _ => false end.

(** The acknowledgement a retransmission would repeat, if the fragment carries
    one and no newer one is pending to replace it, is at most nine fragments
    old. *)
Definition fresh (e : Side) : Prop :=
  ack_pending (state (chn e)) = None ->
  forall f n, head (in_flight (state (chn e))) = Some f -> carries_ack (wire_msg f) = true ->
    head (stamps e) = Some n -> (got e <= n + 9)%nat.

(** A turn of one end, and what it puts on the link. *)
Inductive side_step (e : Side) : list Bytes -> Side -> Prop :=
| side_enqueue d ok c' :
    enqueue_datagram d (chn e) = (ok, c') ->
    side_step e [] (mkSide c' (got e) (stamps e) (if ok : bool then sent e ++ [d] else sent e))
| side_chunk n : side_step e [] (follow (set_chunk_size n (chn e)) e)
| side_permit w : side_step e [] (follow (set_wake w (chn e)) e)
| side_dead : side_step e [] (follow (mark_dead (chn e)) e)
| side_send now a c' :
    next_send_action now (chn e) = Some (a, c') -> side_step e (emit a) (follow c' e)
| side_wait now ls plan ls' c' :
    on_wait now ls (chn e) = (plan, ls', c') -> side_step e [] (follow c' e)
| side_timeout now rt ls m ls' c' :
    on_timeout now rt ls (chn e) = (m, ls', c') -> (m <> None -> fresh e) ->
    side_step e (option_list m) (follow c' e).

Definition arrive (now : Instant) (m : Bytes) (e : Side) : Side :=
  follow (receive_fragment now m (chn e)) e.

Record Net := mkNet {
  lhs : Side;
  rhs : Side;
  lr : list Bytes;
  rl : list Bytes;
}.

Inductive net_step : Net -> Net -> Prop :=
| net_left L R x y out L' :
    side_step L out L' -> net_step (mkNet L R x y) (mkNet L' R (x ++ out) y)
| net_right L R x y out R' :
    side_step R out R' -> net_step (mkNet L R x y) (mkNet L R' x (y ++ out))
| net_arriveR L R m x y now (keep : bool) :
    net_step (mkNet L R (m :: x) y) (mkNet L (arrive now m R) (if keep then m :: x else x) y)
| net_arriveL L R x m y now (keep : bool) :
    net_step (mkNet L R x (m :: y)) (mkNet (arrive now m L) R x (if keep then m :: y else y))
| net_lossLR L R x1 m x2 y : net_step (mkNet L R (x1 ++ m :: x2) y) (mkNet L R (x1 ++ x2) y)
| net_lossRL L R x y1 m y2 : net_step (mkNet L R x (y1 ++ m :: y2)) (mkNet L R x (y1 ++ y2)).

Definition net_init (nowL nowR : Instant) (chunkL chunkR : Z) : Net :=
  mkNet (side_init nowL chunkL) (side_init nowR chunkR) [] [].

(** Everything is symmetric. *)
Definition flip_net (s : Net) : Net := mkNet (rhs s) (lhs s) (rl s) (lr s).

Lemma net_step_flip s s' : net_step s s' -> net_step (flip_net s) (flip_net s').
Proof. by intros []; constructor. Qed.

(** ** Messages *)

(** A message as the invariant sees it: the fragment it carries, the
    acknowledgement it carries, and how much its sender had accepted when it
    left. *)
Record Msg := mkMsg { ms_data : option nat; ms_ack : option nat; ms_got : nat }.

Definition with_ack (a : option nat) (bs : Bytes) : Bytes :=
  match a with Some a => set_ack bs (prev_seq (seqn a)) | None => bs end.
Definition enc (F : list FragmentEntry) (m : Msg) : Bytes :=
  match ms_data m with
  | Some i => with_ack (ms_ack m) (wire i (F !!! i))
  | None => with_ack (ms_ack m) [0; 0]
  end.

(** Reception takes the acknowledgement first, then the data. *)
Definition take_ack_of (now : Instant) (m : Msg) (c : ReliableChannel) : ReliableChannel :=
  match ms_ack m with Some a => receive_ack now (prev_seq (seqn a)) c | None => c end.
Definition take_data_of (now : Instant) (F : list FragmentEntry) (m : Msg) (c : ReliableChannel)
    : ReliableChannel :=
  match ms_data m with
  | Some i => receive_data now (seqn i) (fr_first (F !!! i)) (fr_last (F !!! i))
                (fr_payload (F !!! i)) c
  | None => c
  end.

Lemma receive_wire_ack now i f a c :
  has_data f ->
  receive_fragment now (set_ack (wire i f) (prev_seq (seqn a))) c
  = receive_data now (seqn i) (fr_first f) (fr_last f) (fr_payload f)
      (receive_ack now (prev_seq (seqn a)) c).
Proof.
  intros Hdata. destruct (header_roundtrip i (fr_first f) (fr_last f)) as (Hseq & Hfirst & Hlast).
  destruct (ack_roundtrip a) as [Hack Hflag].
  unfold receive_fragment, wire, make_header, set_ack, ack_wire, set_ack in *. cbn in Hack, Hflag.
  cbn [app list_insert insert nth] in *.
  set (b0 := Z.lor (Z.lor _ _) _) in *. set (b1 := Z.lor _ FLAG_ACK) in *.
  assert (length (b0 :: b1 :: fr_payload f ++ [FRAGMENT_CANARY])
    = (3 + length (fr_payload f))%nat) as Hlen by (simpl; rewrite length_app; simpl; lia).
  rewrite Hlen. unfold HEADER_SIZE.
  destruct (Nat.ltb_spec (3 + length (fr_payload f)) 2); [lia|].
  destruct (Nat.ltb_spec 2 (3 + length (fr_payload f))); [|lia].
  change (b0 :: b1 :: fr_payload f ++ [FRAGMENT_CANARY])
    with ((b0 :: b1 :: fr_payload f) ++ [FRAGMENT_CANARY]).
  rewrite List.last_last, Z.eqb_refl. cbn [negb].
  rewrite take_app_le, take_ge by (simpl; lia).
  unfold receive_parsed. cbn [nth] in *. rewrite Hseq, Hfirst, Hlast, Hflag, Hack.
  cbn [negb drop HEADER_SIZE]. destruct Hdata as [->|[->|Hp]]; [done|by rewrite orb_true_r|].
  destruct (fr_payload f); [done|]. by rewrite orb_true_r.
Qed.

Lemma receive_enc now F m c :
  (forall i, ms_data m = Some i -> has_data (F !!! i)) ->
  ms_data m <> None \/ ms_ack m <> None ->
  receive_fragment now (enc F m) c = take_data_of now F m (take_ack_of now m c).
Proof.
  destruct m as [[i|] [a|] g]; cbn; intros Hd Hne.
  - by apply receive_wire_ack, Hd.
  - by apply receive_wire, Hd.
  - apply receive_ack_wire.
  - naive_solver.
Qed.

(** ** The invariant of one end *)

(** What is known of one end: the fragments it has numbered, for each of them
    whether it first went out with an acknowledgement and how much had been
    accepted then, the number acknowledged, the number accepted of the other
    end's, and the indices buffered beyond those. *)
Record Ghost := mkGhost {
  gF : list FragmentEntry;
  gG : list (bool * nat);
  gb : nat;
  gr : nat;
  gts : list nat;
}.

(** The message kept for retransmission. *)
Definition piggy (x : bool * nat) : option nat := if x.1 then Some x.2 else None.
Definition stored (G : list (bool * nat)) (i : nat) : Msg :=
  mkMsg (Some i) (piggy (G !!! i)) 0.
Definition flightA (F : list FragmentEntry) (G : list (bool * nat)) (i : nat) : InFlightFragment :=
  mkInFlight (seqn i) (enc F (stored G i)).

Record SideInv (g : Ghost) (F' : list FragmentEntry) (e : Side) : Prop := {
  sv_window : window_state (chn e)
    = (seqn (length (gF g)), seqn (gb g),
       flightA (gF g) (gG g) <$> List.seq (gb g) (length (gF g) - gb g));
  sv_range : (gb g <= length (gF g) <= gb g + 6)%nat;
  sv_len : length (gG g) = length (gF g);
  sv_stamps : stamps e = (drop (gb g) (gG g)).*2;
  sv_old : forall (i : nat) (x : bool * nat), gG g !! i = Some x -> (x.2 <= gr g)%nat;
  sv_got : got e = gr g;
  sv_queue : QueueInv (sent e) (gF g) (chn e);
  sv_rcv : RcvInv F' (gr g) (gts g) (chn e);
  sv_r : gr g ∉ gts g;
  sv_ack : AckOk (gr g) (chn e);
}.

Lemma sv_fields g F' e :
  SideInv g F' e ->
  send_next (state (chn e)) = seqn (length (gF g)) /\ send_base (state (chn e)) = seqn (gb g) /\
  in_flight (state (chn e))
    = flightA (gF g) (gG g) <$> List.seq (gb g) (length (gF g) - gb g).
Proof. intros [Hw _ _ _ _ _ _ _ _ _]. unfold window_state in Hw. by injection Hw as -> -> ->. Qed.

Lemma sv_flight_length g F' e :
  SideInv g F' e -> length (in_flight (state (chn e))) = (length (gF g) - gb g)%nat.
Proof. intros H. destruct (sv_fields _ _ _ H) as (_ & _ & ->). by rewrite length_fmap, List.length_seq. Qed.

Lemma sv_count g F' e :
  SideInv g F' e -> in_flight_count (state (chn e)) = Z.of_nat (length (gF g) - gb g).
Proof.
  intros H. destruct (sv_fields _ _ _ H) as (Hn & Hb & _). pose proof (sv_range _ _ _ H).
  unfold in_flight_count. rewrite Hn, Hb. apply seq_dist_fwd. lia.
Qed.

Lemma seq_dist_same z : seq_dist z z = 0.
Proof. unfold seq_dist, wrapping_sub. by rewrite Z.sub_diag, !Zmod_0_l. Qed.

(** A turn that leaves window and receiver alone. *)
Lemma SideInv_silent g F' e c' q' :
  SideInv g F' e -> window_state c' = window_state (chn e) ->
  receive_state c' = receive_state (chn e) -> QueueInv q' (gF g) c' -> AckOk (gr g) c' ->
  SideInv g F' (mkSide c' (got e) (stamps e) q').
Proof.
  intros [Hw Hr Hl Hs Ho Hg Hq [Hst Hle Hnd Hts] Hrr Ha] Ew Er HQ HA.
  constructor; cbn; try done; [congruence|]. constructor; try done. congruence.
Qed.

Lemma follow_silent c' e :
  window_state c' = window_state (chn e) -> receive_state c' = receive_state (chn e) ->
  follow c' e = mkSide c' (got e) (stamps e) (sent e).
Proof.
  unfold window_state, receive_state. intros [= _ _ Ef] [= Er _ _]. unfold follow.
  rewrite Ef, Er, seq_dist_same, Nat.ltb_irrefl, Nat.sub_diag, drop_0. by rewrite Nat.add_0_r.
Qed.

(** What a turn puts on the link. *)
Definition OutOk (g : Ghost) (m : Msg) : Prop :=
  (ms_data m <> None \/ ms_ack m <> None) /\
  (forall i, ms_data m = Some i -> (gb g <= i < length (gF g))%nat) /\
  ms_got m = gr g /\ (forall a, ms_ack m = Some a -> (a <= gr g <= a + 9)%nat).

(** The ghost state after a turn: at most one more fragment. *)
Definition Grown (g g' : Ghost) : Prop :=
  gb g' = gb g /\ gr g' = gr g /\ gts g' = gts g /\
  (gF g' = gF g \/ exists f, gF g' = gF g ++ [f]).

Definition TurnOk (g : Ghost) (F' : list FragmentEntry) (out : list Bytes) (e' : Side) : Prop :=
  exists g' ms, Grown g g' /\ SideInv g' F' e' /\ out = enc (gF g') <$> ms /\
    Forall (OutOk g') ms /\ (length ms <= 1)%nat.

Lemma TurnOk_silent g F' e c' :
  SideInv g F' e -> window_state c' = window_state (chn e) ->
  receive_state c' = receive_state (chn e) -> QueueInv (sent e) (gF g) c' -> AckOk (gr g) c' ->
  TurnOk g F' [] (follow c' e).
Proof.
  intros HI Ew Er HQ HA. exists g, []. rewrite follow_silent by done.
  split; [by repeat split; auto|]. split; [by apply SideInv_silent|]. split; [done|].
  split; [constructor|cbn; lia].
Qed.

(** ** Turns *)

Lemma refill_receive c c' : refill c = Some c' -> receive_state c' = receive_state c.
Proof.
  unfold refill, fragment_into. destruct (frag_queue (state c)), (send_queue (state c));
    try (by intros [= <-]). cbn. by destruct (fragments_of _ _); intros [= <-].
Qed.

Lemma flightA_grow F G f x b :
  (b <= length F)%nat -> length G = length F ->
  flightA (F ++ [f]) (G ++ [x]) <$> List.seq b (S (length F) - b)
  = (flightA F G <$> List.seq b (length F - b))
    ++ [mkInFlight (seqn (length F))
          (with_ack (piggy x) (wire (length F) f))].
Proof.
  intros Hb HG. replace (S (length F) - b)%nat with (length F - b + 1)%nat by lia.
  rewrite List.seq_app, fmap_app. f_equal.
  - apply list_fmap_ext. intros i k Hi.
    apply list_elem_of_lookup_2, list_elem_of_In, List.in_seq in Hi.
    unfold flightA, enc, stored. cbn. by rewrite !lookup_total_app_l by lia.
  - replace (b + (length F - b))%nat with (length F) by lia.
    cbn -[seqn wire]. unfold flightA, stored, enc. cbn [ms_data ms_ack].
    by rewrite !list_lookup_total_middle by done.
Qed.

Lemma follow_from c1 c' e :
  window_state c1 = window_state (chn e) -> receive_state c1 = receive_state (chn e) ->
  follow c' (mkSide c1 (got e) (stamps e) (sent e)) = follow c' e.
Proof.
  unfold window_state, receive_state. intros [= _ _ Ef] [= Er _ _]. unfold follow. cbn.
  by rewrite Ef, Er.
Qed.

(** The acknowledgement a message takes with it. *)
Definition owed (c : ReliableChannel) : bool := bool_decide (ack_pending (state c) <> None).

Lemma AckOk_owed r c : AckOk r c -> ack_pending (state c)
  = if owed c then Some (prev_seq (seqn r)) else None.
Proof. unfold owed. by intros [-> | ->]. Qed.

Lemma send_fragment_spec now fr rest c msg c' r n b l :
  send_fragment now fr rest c = (msg, c') -> AckOk r c ->
  window_state c = (seqn n, b, l) ->
  msg = with_ack (piggy (owed c, r)) (wire n fr) /\
  window_state c' = (seqn (S n), b, l ++ [mkInFlight (seqn n) msg]) /\
  receive_state c' = receive_state c /\ ack_pending (state c') = None /\
  data_state c' = (send_queue (state c), rest).
Proof.
  intros E Ha Hw. unfold window_state in Hw. injection Hw as Hn Hb Hf.
  unfold send_fragment, take_ack in E. cbn -[app make_header seqn] in E.
  rewrite (AckOk_owed _ _ Ha), Hn in E. injection E as <- <-.
  split_and!.
  - unfold piggy, wire. cbn [fst snd]. by destruct (owed c).
  - unfold window_state. destruct (in_flight (state c)) eqn:Ef;
      cbn -[Z.modulo Z.add SEQ_MODULUS seqn make_header set_ack]; rewrite ?Ef, ?Hn, ?Hb, seqn_succ;
      by rewrite <- Hf.
  - by destruct (in_flight (state c)).
  - by destruct (in_flight (state c)).
  - by destruct (in_flight (state c)).
Qed.

Lemma send_fragment_turn now g F' e fr rest msg c' :
  SideInv g F' e -> frag_queue (state (chn e)) = fr :: rest -> can_send (state (chn e)) = true ->
  send_fragment now fr rest (chn e) = (msg, c') -> TurnOk g F' [msg] (follow c' e).
Proof.
  intros HI Hfq Hcan E. pose proof HI as [Hw Hr Hl Hs Ho Hg (D & Hq & HStr) HR Hrr Ha].
  unfold can_send, WINDOW_SIZE in Hcan. rewrite (sv_count _ _ _ HI) in Hcan. apply Z.ltb_lt in Hcan.
  destruct (send_fragment_spec _ _ _ _ _ _ _ _ _ _ E Ha Hw) as (Hm & Hw' & Hrs & Ha' & Hd').
  set (x := (owed (chn e), gr g)) in *.
  exists (mkGhost (gF g ++ [fr]) (gG g ++ [x]) (gb g) (gr g) (gts g)),
    [mkMsg (Some (length (gF g))) (piggy x) (gr g)].
  assert (follow c' e = mkSide c' (got e) (stamps e ++ [got e]) (sent e)) as Hfol.
  { pose proof (sv_flight_length _ _ _ HI) as Hlen. unfold window_state in Hw'.
    injection Hw' as _ _ Hf'. unfold receive_state in Hrs. injection Hrs as Hrn _ _.
    unfold follow. rewrite Hf', Hrn, seq_dist_same, length_app, length_fmap, List.length_seq, Hlen.
    cbn [length]. destruct (Nat.ltb_spec (length (gF g) - gb g) (length (gF g) - gb g + 1)); [|lia].
    by rewrite Nat.add_0_r. }
  split; [by split_and!; eauto|]. rewrite Hfol. split_and!.
  - constructor; cbn; try done.
    + rewrite Hw', length_app, Nat.add_1_r, flightA_grow by (done || lia). by rewrite Hm.
    + rewrite length_app. cbn. lia.
    + rewrite !length_app. cbn. lia.
    + rewrite drop_app_le, fmap_app, Hs by lia. cbn. by rewrite Hg.
    + intros i y. rewrite lookup_app_Some. intros [Hi|[Hi Hy]]; [by eapply Ho|].
      apply list_lookup_singleton_Some in Hy as [_ <-]. done.
    + exists D. unfold data_state in Hd'. injection Hd' as -> ->. split; [done|].
      rewrite <- app_assoc. by rewrite Hfq in HStr.
    + destruct HR as [Hst ? ? ?]. constructor; try done. congruence.
    + by left.
  - rewrite Hm. cbn [fmap list_fmap]. unfold enc. cbn [ms_data ms_ack gF].
    by rewrite list_lookup_total_middle.
  - apply Forall_singleton. split; [by left|]. cbn. rewrite length_app. cbn. split_and!.
    + intros i [= <-]. lia.
    + done.
    + unfold piggy, x. cbn. intros a. destruct (owed (chn e)); [|done]. intros [= <-]. lia.
  - cbn. lia.
Qed.

Lemma pure_ack_turn now g F' e a c' :
  SideInv g F' e -> pure_ack now (chn e) = (a, c') -> TurnOk g F' (emit a) (follow c' e).
Proof.
  intros HI E. pose proof HI as [Hw Hr Hl Hs Ho Hg HQ HR Hrr Ha]. unfold pure_ack in E.
  destruct Ha as [Ea|Ea]; rewrite Ea in E.
  { injection E as <- <-. apply TurnOk_silent; auto. by left. }
  destruct (from_option _ _ _) in E.
  2:{ injection E as <- <-. apply TurnOk_silent; auto. by right. }
  cbn in E. rewrite Ea in E. injection E as <- <-.
  exists g, [mkMsg None (Some (gr g)) (gr g)]. rewrite follow_silent by done.
  split; [by repeat split; auto|]. split_and!.
  - apply SideInv_silent; try done. by left.
  - done.
  - apply Forall_singleton. split; [by right|]. cbn. split_and!; try done. intros a [= <-]. lia.
  - cbn. lia.
Qed.

Lemma refill_side g F' e c1 :
  SideInv g F' e -> refill (chn e) = Some c1 ->
  SideInv g F' (mkSide c1 (got e) (stamps e) (sent e)) /\
  window_state c1 = window_state (chn e) /\ receive_state c1 = receive_state (chn e).
Proof.
  intros HI E. destruct (refill_QueueInv _ _ _ _ E (sv_queue _ _ _ HI)) as (HQ & Hw & Ha).
  pose proof (refill_receive _ _ E) as Hr. split; [|done]. apply SideInv_silent; try done.
  pose proof (sv_ack _ _ _ HI) as HA. unfold AckOk in *. by rewrite Ha.
Qed.

Lemma send_turn now g F' e a c' :
  SideInv g F' e -> next_send_action now (chn e) = Some (a, c') ->
  TurnOk g F' (emit a) (follow c' e).
Proof.
  intros HI E. unfold next_send_action in E. destruct (link_dead (state (chn e))).
  { injection E as <- <-. apply TurnOk_silent; try done; [apply HI|apply HI]. }
  destruct (refill (chn e)) as [c1|] eqn:E1; [|done]. cbn [mbind option_bind] in E.
  destruct (refill_side _ _ _ _ HI E1) as (HI1 & Hw1 & Hr1).
  rewrite <- (follow_from c1 c' e Hw1 Hr1). set (e1 := mkSide c1 _ _ _) in *.
  destruct (can_send (state c1)) eqn:Hcan.
  2:{ injection E as E. by apply (pure_ack_turn now g F' e1). }
  destruct (refill c1) as [c2|] eqn:E2; [|done]. cbn [mbind option_bind] in E.
  destruct (refill_side g F' e1 c2 HI1 E2) as (HI2 & Hw2 & Hr2).
  rewrite <- (follow_from c2 c' e1 Hw2 Hr2). set (e2 := mkSide c2 _ _ _) in *.
  destruct (frag_queue (state c2)) as [|fr rest] eqn:Hfq.
  { injection E as E. by apply (pure_ack_turn now g F' e2). }
  destruct (send_fragment now fr rest c2) as [msg c3] eqn:E3. injection E as <- <-.
  eapply (send_fragment_turn now g F' e2); [done|done| |done].
  pose proof (sv_count g F' e1 HI1) as Hc1. pose proof (sv_count g F' e2 HI2) as Hc2. cbn in Hc1, Hc2.
  revert Hcan. unfold can_send. cbn. by rewrite Hc1, Hc2.
Qed.

Lemma set_ack_with_ack p bs a : set_ack (with_ack p bs) a = set_ack bs a.
Proof. destruct p; [|done]. unfold set_ack, with_ack, set_ack. apply list_insert_insert_eq. Qed.

Lemma with_ack_length p bs : length (with_ack p bs) = length bs.
Proof. destruct p; [|done]. apply length_insert. Qed.

Lemma with_ack_carries a i f : carries_ack (with_ack (Some a) (wire i f)) = true.
Proof.
  unfold carries_ack, with_ack, wire, make_header, set_ack. cbn -[Z.land Z.lor].
  destruct (ack_roundtrip a) as [_ H]. cbn -[Z.land Z.lor] in H. by rewrite H.
Qed.

Lemma wire_length i f : (2 <= length (wire i f))%nat.
Proof. unfold wire, make_header. cbn. lia. Qed.

Lemma timeout_turn now rt ls g F' e m ls' c' :
  SideInv g F' e -> on_timeout now rt ls (chn e) = (m, ls', c') -> (m <> None -> fresh e) ->
  TurnOk g F' (option_list m) (follow c' e).
Proof.
  intros HI E Hfresh. pose proof HI as [Hw Hr Hl Hs Ho Hg HQ HR Hrr Ha].
  unfold on_timeout in E. destruct (now <? rt).
  { injection E as <- <- <-. by apply TurnOk_silent. }
  destruct (sv_fields _ _ _ HI) as (_ & _ & Hf). rewrite Hf in E.
  destruct (length (gF g) - gb g)%nat as [|k] eqn:Hk; cbn -[enc set_ack] in E.
  { injection E as <- <- <-. by apply TurnOk_silent. }
  assert (exists x : bool * nat, gG g !! gb g = Some x) as [x Hx].
  { apply lookup_lt_is_Some. lia. }
  assert (gG g !!! gb g = x) as Hx' by (by apply list_lookup_total_correct).
  assert (enc (gF g) (stored (gG g) (gb g)) = with_ack (piggy x) (wire (gb g) (gF g !!! gb g))) as Henc.
  { unfold enc, stored. cbn [ms_data ms_ack]. by rewrite Hx'. }
  rewrite Henc, with_ack_length in E.
  destruct (Nat.leb_spec HEADER_SIZE (length (wire (gb g) (gF g !!! gb g)))) as [_|Hlt];
    [|pose proof (wire_length (gb g) (gF g !!! gb g)); unfold HEADER_SIZE in Hlt; lia].
  assert (TurnOk g F' [with_ack (if owed (chn e) then Some (gr g) else piggy x)
    (wire (gb g) (gF g !!! gb g))] (follow c' e)) as Hgoal; cycle 1.
  { rewrite (AckOk_owed _ _ Ha) in E. destruct (owed (chn e)); injection E as <- <- <-; [|done].
    cbn [option_list]. by rewrite set_ack_with_ack. }
  exists g, [mkMsg (Some (gb g)) (if owed (chn e) then Some (gr g) else piggy x) (gr g)].
  assert (window_state c' = window_state (chn e) /\ receive_state c' = receive_state (chn e) /\
    data_state c' = data_state (chn e) /\ ack_pending (state c') = None /\ m <> None)
    as (Ew & Er & Ed & Ea & Hm).
  { by destruct (ack_pending (state (chn e))); injection E as <- <- <-. }
  rewrite follow_silent by done. split; [by repeat split; auto|]. split_and!.
  - apply SideInv_silent; try done; [|by left]. destruct HQ as (D & Hq & HStr). exists D.
    unfold data_state in Ed. by injection Ed as -> ->.
  - done.
  - apply Forall_singleton. split; [by left|]. cbn. split_and!; [|done|].
    + intros i [= <-]. lia.
    + intros a. destruct (owed (chn e)) eqn:Eo; [intros [= <-]; lia|].
      unfold piggy. destruct x as [[] n]; [|done]. cbn. intros [= <-].
      split; [by apply (Ho _ _ Hx)|]. rewrite <- Hg. eapply (Hfresh Hm).
      * rewrite (AckOk_owed _ _ Ha). by rewrite Eo.
      * by rewrite Hf.
      * unfold flightA. cbn [wire_msg]. rewrite Henc. apply with_ack_carries.
      * rewrite Hs. by rewrite (drop_S _ _ _ Hx).
  - cbn. lia.
Qed.

Lemma side_step_ok g F' e out e' : SideInv g F' e -> side_step e out e' -> TurnOk g F' out e'.
Proof.
  intros HI Hst. pose proof HI as [Hw Hr Hl Hs Ho Hg HQ HR Hrr Ha].
  destruct Hst as [d ok c' E|n|w| |now a c' E|now ls plan ls' c' E|now rt ls m ls' c' E Hfr].
  - exists g, []. split; [by repeat split; auto|]. split_and!; try done; [|cbn; lia].
    unfold enqueue_datagram in E. destruct (_ <=? _)%nat; injection E as <- <-;
      apply SideInv_silent; try done.
    destruct HQ as (D & -> & HStr). exists D. cbn. by rewrite app_assoc.
  - by apply TurnOk_silent.
  - by apply TurnOk_silent.
  - by apply TurnOk_silent.
  - by eapply send_turn.
  - unfold on_wait in E. destruct (in_flight (state (chn e))); [|destruct (_ <=? _)];
      injection E as <- <- <-; by apply TurnOk_silent.
  - by eapply timeout_turn.
Qed.

(** ** Arrivals *)

Lemma follow_follow c1 c2 e :
  recv_next (state c1) = recv_next (state (chn e)) ->
  in_flight (state c2) = in_flight (state c1) ->
  follow c2 (follow c1 e) = follow c2 e.
Proof.
  intros Er Ef. unfold follow. cbn [chn got stamps sent].
  by rewrite Er, Ef, seq_dist_same, Nat.ltb_irrefl, Nat.sub_diag, drop_0, Nat.add_0_r.
Qed.

Definition with_base (b : nat) (g : Ghost) : Ghost := mkGhost (gF g) (gG g) b (gr g) (gts g).
Definition with_rcv (r : nat) (ts : list nat) (g : Ghost) : Ghost :=
  mkGhost (gF g) (gG g) (gb g) r ts.

(** An acknowledgement moves the window or is too old to be mistaken. *)
Lemma ack_arrives now g F' e a n :
  SideInv g F' e -> (gb g <= n <= length (gF g))%nat -> (a <= n <= a + 9)%nat ->
  let c' := receive_ack now (prev_seq (seqn a)) (chn e) in
  SideInv (with_base (gb g `max` a) g) F' (follow c' e) /\
  recv_next (state c') = recv_next (state (chn e)).
Proof.
  intros HI Hn Ha. cbn zeta. destruct (sv_fields _ _ _ HI) as (Hsn & Hsb & Hf).
  pose proof HI as [Hw Hr Hl Hs Ho Hg HQ HR Hrr HA].
  unfold receive_ack. rewrite prev_seq_succ, (sv_count _ _ _ HI), Hsb.
  destruct (Nat.le_gt_cases a (gb g)) as [Hold|Hnew].
  - rewrite Nat.max_l by done.
    assert ((0 <? seq_dist (seqn (gb g)) (seqn a)) && (seq_dist (seqn (gb g)) (seqn a) <=? WINDOW_SIZE)
      = false) as ->.
    { destruct (Nat.eq_dec a (gb g)) as [->|Hne]; [by rewrite seq_dist_same|].
      rewrite seq_dist_bwd by lia. unfold WINDOW_SIZE.
      destruct (Z.leb_spec (16 - Z.of_nat (gb g - a)) 6); [lia|]. by rewrite andb_false_r. }
    cbn [andb]. rewrite follow_silent by done. split; [|done].
    destruct g; by apply SideInv_silent.
  - rewrite Nat.max_r by lia. rewrite seq_dist_fwd by lia.
    unfold WINDOW_SIZE. destruct (Z.ltb_spec 0 (Z.of_nat (a - gb g))); [|lia].
    destruct (Z.leb_spec (Z.of_nat (a - gb g)) 6); [|lia].
    destruct (Z.leb_spec (Z.of_nat (a - gb g)) (Z.of_nat (length (gF g) - gb g))); [|lia].
    cbn [andb]. rewrite Nat2Z.id. split; [|done].
    assert (drop (a - gb g) (in_flight (state (chn e)))
      = flightA (gF g) (gG g) <$> List.seq a (length (gF g) - a)) as Hdrop.
    { rewrite Hf, <- fmap_drop, List.skipn_seq. f_equal. f_equal; lia. }
    constructor; cbn -[seqn fmap drop Nat.ltb]; try done.
    + unfold window_state. cbn -[seqn fmap drop]. by rewrite Hsn, Hdrop.
    + lia.
    + rewrite Hdrop, (sv_flight_length _ _ _ HI), length_fmap, List.length_seq.
      destruct (Nat.ltb_spec (length (gF g) - gb g) (length (gF g) - a)); [lia|].
      rewrite Hs, <- fmap_drop, drop_drop. f_equal. f_equal. lia.
    + by rewrite seq_dist_same, Nat.add_0_r.
    + by destruct HR; constructor.
Qed.

(** A fragment moves the receiver. *)
Lemma data_arrives now g F' e i :
  SideInv g F' e -> (i < length F')%nat -> (gr g <= i + 6)%nat -> (i < gr g + 6)%nat ->
  let c' := receive_data now (seqn i) (fr_first (F' !!! i)) (fr_last (F' !!! i))
              (fr_payload (F' !!! i)) (chn e) in
  in_flight (state c') = in_flight (state (chn e)) /\
  exists r' ts', SideInv (with_rcv r' ts' g) F' (follow c' e) /\ (gr g <= r')%nat /\
    (forall N, (gr g <= N)%nat -> (forall t, t ∈ gts g -> (t < N)%nat) -> (i < N)%nat ->
       (r' <= N)%nat /\ forall t, t ∈ ts' -> (t < N)%nat).
Proof.
  intros HI Hi Hlo Hhi. cbn zeta. pose proof HI as [Hw Hr Hl Hs Ho Hg HQ HR Hrr HA].
  destruct (receive_data_RcvInv now F' (gr g) (gts g) i (chn e) HR Hrr HA Hi Hlo Hhi)
    as (r' & ts' & HR' & Hr' & HA' & Hd' & Hw' & Hle & HN).
  set (c' := receive_data _ _ _ _ _ _) in *.
  assert (in_flight (state c') = in_flight (state (chn e))) as Hf.
  { unfold window_state in Hw'. by injection Hw' as _ _ ->. }
  split; [done|]. exists r', ts'. split; [|done].
  destruct (HN (gr g + 6)%nat) as [Hr6 _]; [lia|intros t Ht; apply (ri_ts _ _ _ _ HR) in Ht; lia|done|].
  unfold follow. rewrite Hf, Nat.ltb_irrefl, Nat.sub_diag, drop_0.
  destruct (ri_fields _ _ _ _ HR) as (-> & _). destruct (ri_fields _ _ _ _ HR') as (-> & _).
  rewrite seq_dist_fwd, Nat2Z.id by lia.
  constructor; cbn; try done; [congruence| |lia|].
  - intros j y Hj. apply Ho in Hj. lia.
  - destruct HQ as (D & Hq & HStr). exists D. unfold data_state in Hd'. by injection Hd' as -> ->.
Qed.

(** ** The composed invariant *)

(** Messages from the end of [g] to the end of [h]. *)
Record LinkInv (g h : Ghost) (ms : list Msg) (x : list Bytes) : Prop := {
  lk_bytes : x = enc (gF g) <$> ms;
  lk_some : forall m, m ∈ ms -> ms_data m <> None \/ ms_ack m <> None;
  lk_data : forall m i, m ∈ ms -> ms_data m = Some i ->
    (i < length (gF g))%nat /\ (gr h <= i + 6)%nat /\ forall t, t ∈ gts h -> (t < i + 6)%nat;
  lk_order : StronglySorted (fun m m' => forall i j, ms_data m = Some i -> ms_data m' = Some j ->
    (i < j + 6)%nat) ms;
  lk_got : forall m, m ∈ ms -> (gb h <= ms_got m <= gr g)%nat;
  lk_ack : forall m a, m ∈ ms -> ms_ack m = Some a -> (a <= ms_got m <= a + 9)%nat;
  lk_got_order : StronglySorted (fun m m' => (ms_got m <= ms_got m')%nat) ms;
}.

Record NetInv (g h : Ghost) (ms ns : list Msg) (s : Net) : Prop := {
  nv_L : SideInv g (gF h) (lhs s);
  nv_R : SideInv h (gF g) (rhs s);
  nv_bL : (gb g <= gr h)%nat;
  nv_bR : (gb h <= gr g)%nat;
  nv_lr : LinkInv g h ms (lr s);
  nv_rl : LinkInv h g ns (rl s);
}.

Lemma NetInv_flip g h ms ns s : NetInv g h ms ns s -> NetInv h g ns ms (flip_net s).
Proof. by intros []; constructor. Qed.

Lemma Grown_length g g' : Grown g g' -> (length (gF g) <= length (gF g'))%nat.
Proof. intros (_ & _ & _ & [->|[f ->]]); rewrite ?length_app; cbn; lia. Qed.
Lemma Grown_lookup g g' i :
  Grown g g' -> (i < length (gF g))%nat -> gF g' !!! i = gF g !!! i.
Proof. intros (_ & _ & _ & [->|[f ->]]) Hi; [done|]. by rewrite lookup_total_app_l. Qed.

Lemma SideInv_grown g g' h e : Grown g g' -> SideInv h (gF g) e -> SideInv h (gF g') e.
Proof.
  intros (_ & _ & _ & [->|[f ->]]) [Hw Hr Hl Hs Ho Hg HQ HR Hrr Ha]; constructor; try done.
  by apply RcvInv_grow.
Qed.

(** What is in transit stays so when its sender numbers another fragment. *)
Lemma LinkInv_grown g g' h ms x : Grown g g' -> LinkInv g h ms x -> LinkInv g' h ms x.
Proof.
  intros HG [Hb Hs Hd Ho Hg Ha Hgo]. pose proof (Grown_length _ _ HG) as Hlen.
  pose proof HG as (_ & Er & _ & _). constructor; try done.
  - rewrite Hb. apply list_fmap_ext. intros k m Hm. apply list_elem_of_lookup_2 in Hm.
    unfold enc. destruct (ms_data m) as [i|] eqn:Ei; [|done].
    destruct (Hd m i Hm Ei) as (Hi & _). by rewrite (Grown_lookup _ _ _ HG Hi).
  - intros m i Hm Hi. destruct (Hd m i Hm Hi) as (? & ? & ?). split_and!; [lia|done|done].
  - rewrite Er. done.
Qed.
Lemma LinkInv_grown_to g g' h ms x : Grown g g' -> LinkInv h g ms x -> LinkInv h g' ms x.
Proof. intros (Eb & Er & Et & _) []. constructor; rewrite ?Eb, ?Er, ?Et; done. Qed.

(** A message is added. *)
Lemma LinkInv_snoc g h ms x m :
  LinkInv g h ms x -> OutOk g m -> (gr h <= length (gF g) <= gb g + 6)%nat ->
  (forall t, t ∈ gts h -> (t < length (gF g))%nat) -> (gb h <= gr g)%nat ->
  LinkInv g h (ms ++ [m]) (x ++ [enc (gF g) m]).
Proof.
  intros [Hb Hs Hd Ho Hg Ha Hgo] (Hsome & Hdm & Hgm & Ham) Hr Ht Hbr.
  constructor.
  - by rewrite fmap_app, Hb.
  - intros m'. rewrite elem_of_app, list_elem_of_singleton. intros [?| ->]; [auto|done].
  - intros m' i. rewrite elem_of_app, list_elem_of_singleton. intros [?| ->] Hi; [eauto|].
    apply Hdm in Hi. split_and!; [lia|lia|]. intros t Htt. apply Ht in Htt. lia.
  - apply StronglySorted_snoc; [done|]. intros m' Hm' i j Hi Hj. apply Hdm in Hj.
    apply (Hd m' i Hm') in Hi as (? & _). lia.
  - intros m'. rewrite elem_of_app, list_elem_of_singleton. intros [?| ->]; [auto|]. lia.
  - intros m' a. rewrite elem_of_app, list_elem_of_singleton. intros [?| ->] Hm'; [eauto|].
    rewrite Hgm. auto.
  - apply StronglySorted_snoc; [done|]. intros m' Hm'. apply Hg in Hm'. lia.
Qed.

(** A turn of the left end. *)
Lemma net_turn g h ms ns L R x y out L' :
  NetInv g h ms ns (mkNet L R x y) -> side_step L out L' ->
  exists g' ms', NetInv g' h ms' ns (mkNet L' R (x ++ out) y).
Proof.
  intros [HL HR HbL HbR Hlr Hrl] Hst. cbn in *.
  destruct (side_step_ok _ _ _ _ _ HL Hst) as (g' & out_ms & HG & HL' & -> & Hout & Hlen).
  pose proof HG as (Eb & Er & Et & _). pose proof (sv_range _ _ _ HL') as Hrange.
  pose proof (SideInv_grown _ _ _ _ HG HR) as HR'.
  pose proof (sv_rcv _ _ _ HR') as Hrcv. pose proof (ri_le _ _ _ _ Hrcv) as Hle.
  exists g', (ms ++ out_ms). constructor; cbn; try done; [by rewrite Eb|by rewrite Er| |].
  - apply (LinkInv_grown _ _ _ _ _ HG) in Hlr.
    destruct out_ms as [|m [|]]; [by rewrite !app_nil_r| |cbn in Hlen; lia].
    apply Forall_cons in Hout as [Hm _].
    apply LinkInv_snoc; try done; [lia| |lia].
    intros t Ht. by apply (ri_ts _ _ _ _ Hrcv) in Ht as [_ ?].
  - by apply (LinkInv_grown_to _ _ _ _ _ HG).
Qed.

(** Receiving a message. *)
Lemma arrive_ok now g h ms x m e :
  SideInv h (gF g) e -> LinkInv g h ms x -> m ∈ ms ->
  (gr g <= length (gF h))%nat -> (length (gF g) <= gr h + 6)%nat ->
  (forall i, (i < length (gF g))%nat -> has_data (gF g !!! i)) ->
  exists r' ts',
    let h' := with_rcv r' ts' (with_base (gb h `max` default 0%nat (ms_ack m)) h) in
    SideInv h' (gF g) (arrive now (enc (gF g) m) e) /\ (gr h <= r')%nat /\
    (forall N, (gr h <= N)%nat -> (forall t, t ∈ gts h -> (t < N)%nat) ->
       (forall i, ms_data m = Some i -> (i < N)%nat) ->
       (r' <= N)%nat /\ forall t, t ∈ ts' -> (t < N)%nat).
Proof.
  intros HI [Hb Hs Hd Ho Hg Ha Hgo] Hm Hrg Hlen Hdata. unfold arrive.
  rewrite receive_enc; [|intros i Hi; by apply Hdata, (Hd m i Hm)|by apply Hs].
  assert (exists c1, take_ack_of now m (chn e) = c1 /\
    SideInv (with_base (gb h `max` default 0%nat (ms_ack m)) h) (gF g) (follow c1 e) /\
    recv_next (state c1) = recv_next (state (chn e))) as (c1 & -> & HI1 & Hrn).
  { unfold take_ack_of. destruct (ms_ack m) as [a|] eqn:Ea; cbn [default from_option].
    - pose proof (Ha m a Hm Ea). pose proof (Hg m Hm).
      eexists. split; [done|]. apply (ack_arrives now h (gF g) e a (ms_got m)); [done|lia|lia].
    - eexists. split; [done|]. rewrite Nat.max_l, follow_silent by (done || lia).
      split; [|done]. destruct h, e. done. }
  unfold take_data_of. destruct (ms_data m) as [i|] eqn:Ei.
  - destruct (Hd m i Hm Ei) as (Hi & Hlo & _).
    destruct (data_arrives now _ _ _ i HI1) as (Hf & r' & ts' & HI2 & Hle & HN); cbn; [done|done|lia|].
    cbn in Hf, HI2, Hle, HN. exists r', ts'. rewrite <- (follow_follow c1) by done.
    split_and!; [done|done|]. intros N HN1 HN2 HN3. apply HN; auto.
  - exists (gr h), (gts h). split_and!; [|done|auto]. by destruct h.
Qed.

(** The oldest message to the right end is received, and left on the link. *)
Lemma net_receive g h ms ns L R m x y now :
  NetInv g h ms ns (mkNet L R (m :: x) y) ->
  exists h', NetInv g h' ms ns (mkNet L (arrive now m R) (m :: x) y).
Proof.
  intros [HL HR HbL HbR Hlr Hrl]. cbn in *. pose proof Hlr as [Hb Hs Hd Ho Hg Ha Hgo].
  destruct ms as [|m0 ms]; [done|]. injection Hb as -> Hx.
  pose proof (list_elem_of_here m0 ms) as Hm0. pose proof (sv_range _ _ _ HL) as Hrange.
  pose proof (ri_le _ _ _ _ (sv_rcv _ _ _ HL)) as Hle.
  destruct (arrive_ok now g h _ _ m0 R HR Hlr Hm0 Hle) as (r' & ts' & HR' & Hrr & HN); [lia| |].
  { intros i Hi. by eapply QueueInv_has_data; [apply (sv_queue _ _ _ HL)|]. }
  pose proof (Hg m0 Hm0) as Hg0.
  assert (forall a, ms_ack m0 = Some a -> (a <= ms_got m0)%nat) as Ha0.
  { intros a Ea. pose proof (Ha m0 a Hm0 Ea). lia. }
  assert (gb h `max` default 0%nat (ms_ack m0) <= ms_got m0)%nat as Hbase.
  { destruct (ms_ack m0) as [a|]; cbn; [specialize (Ha0 a eq_refl)|]; lia. }
  exists (with_rcv r' ts' (with_base (gb h `max` default 0%nat (ms_ack m0)) h)).
  constructor; cbn; [exact HL|exact HR'|cbn; lia|cbn; lia| |].
  - constructor; cbn; try done; [by rewrite Hx| |].
    + intros m' i Hm' Hi. destruct (Hd m' i Hm' Hi) as (Hi1 & Hi2 & Hi3).
      destruct (HN (i + 6)%nat Hi2 Hi3) as [? ?]; [|done]. intros j Hj.
      apply elem_of_cons in Hm' as [->|Hm']; [simplify_eq; lia|].
      exact (StronglySorted_head _ _ _ _ Ho Hm' j i Hj Hi).
    + intros m' Hm'. pose proof (Hg m' Hm') as Hgm.
      apply elem_of_cons in Hm' as [->|Hm']; [lia|].
      pose proof (StronglySorted_head _ _ _ _ Hgo Hm'). cbn in *. lia.
  - destruct Hrl as [Hb' Hs' Hd' Ho' Hg' Ha' Hgo']. constructor; cbn; try done.
    intros m' Hm'. apply Hg' in Hm'. lia.
Qed.

Lemma LinkInv_loss g h ms x1 m x2 :
  LinkInv g h ms (x1 ++ m :: x2) -> exists ms', LinkInv g h ms' (x1 ++ x2).
Proof.
  intros [Hb Hs Hd Ho Hg Ha Hgo].
  apply fmap_app_cons_inv in Hb as (l1 & i & l2 & -> & -> & -> & ->).
  exists (l1 ++ l2). constructor; try done.
  - by rewrite fmap_app.
  - intros j Hj. apply Hs. set_solver.
  - intros j k Hj. apply Hd. set_solver.
  - by apply StronglySorted_remove in Ho.
  - intros j Hj. apply Hg. set_solver.
  - intros j k Hj. apply Ha. set_solver.
  - by apply StronglySorted_remove in Hgo.
Qed.

Lemma net_lossL g h ms ns L R x1 m x2 y :
  NetInv g h ms ns (mkNet L R (x1 ++ m :: x2) y) ->
  exists ms', NetInv g h ms' ns (mkNet L R (x1 ++ x2) y).
Proof.
  intros [HL HR HbL HbR Hlr Hrl]. cbn in *. destruct (LinkInv_loss _ _ _ _ _ _ Hlr) as [ms' Hms].
  exists ms'. by constructor.
Qed.

Definition NInv (s : Net) : Prop := exists g h ms ns, NetInv g h ms ns s.

Lemma NInv_flip s : NInv (flip_net s) -> NInv s.
Proof.
  intros (g & h & ms & ns & H). apply NetInv_flip in H. exists h, g, ns, ms. by destruct s.
Qed.

Lemma NInv_arriveR L R m x y now (keep : bool) :
  NInv (mkNet L R (m :: x) y) -> NInv (mkNet L (arrive now m R) (if keep then m :: x else x) y).
Proof.
  intros (g & h & ms & ns & HI). destruct (net_receive _ _ _ _ _ _ _ _ _ now HI) as [h' HI'].
  destruct keep; [by exists g, h', ms, ns|].
  destruct (net_lossL _ _ _ _ _ _ [] _ _ _ HI') as [ms' HI'']. by exists g, h', ms', ns.
Qed.
Lemma NInv_turn L R x y out L' :
  NInv (mkNet L R x y) -> side_step L out L' -> NInv (mkNet L' R (x ++ out) y).
Proof.
  intros (g & h & ms & ns & HI) Hst. destruct (net_turn _ _ _ _ _ _ _ _ _ _ HI Hst) as (g' & ms' & HI').
  by exists g', h, ms', ns.
Qed.
Lemma NInv_loss L R x1 m x2 y :
  NInv (mkNet L R (x1 ++ m :: x2) y) -> NInv (mkNet L R (x1 ++ x2) y).
Proof.
  intros (g & h & ms & ns & HI). destruct (net_lossL _ _ _ _ _ _ _ _ _ _ HI) as [ms' HI'].
  by exists g, h, ms', ns.
Qed.

Lemma NInv_step s s' : net_step s s' -> NInv s -> NInv s'.
Proof.
  assert (forall s, NInv s -> NInv (flip_net s)) as Hf.
  { intros t Ht. apply NInv_flip. by destruct t. }
  intros Hst HI. pose proof (Hf _ HI) as HI'. destruct Hst; unfold flip_net in HI'; cbn in HI'.
  - by eapply NInv_turn.
  - apply NInv_flip. by eapply NInv_turn.
  - by apply NInv_arriveR.
  - apply NInv_flip. by apply (NInv_arriveR _ _ _ _ _ now keep) in HI'.
  - by eapply NInv_loss.
  - apply NInv_flip. by eapply NInv_loss.
Qed.

Lemma SideInv_init now chunk : SideInv (mkGhost [] [] 0 0 []) [] (side_init now chunk).
Proof.
  constructor; cbn; try done; try lia.
  - by exists []; split; [|constructor].
  - constructor; try done; [by constructor|set_solver].
  - set_solver.
  - by left.
Qed.

Lemma NInv_init nl nr cl cr : NInv (net_init nl nr cl cr).
Proof.
  exists (mkGhost [] [] 0 0 []), (mkGhost [] [] 0 0 []), [], [].
  assert (LinkInv (mkGhost [] [] 0 0 []) (mkGhost [] [] 0 0 []) [] []) as Hl.
  { constructor; try done; try (by constructor); set_solver. }
  by constructor; try apply SideInv_init.
Qed.

Lemma NInv_reachable nl nr cl cr s : rtc net_step (net_init nl nr cl cr) s -> NInv s.
Proof.
  intros Hr. refine (rtc_ind_r NInv _ _ _ s Hr); [apply NInv_init|].
  intros s1 s2 _ Hst HI. by eapply NInv_step.
Qed.

(** What one direction has delivered. *)
Lemma NetInv_delivered g h ms ns s :
  NetInv g h ms ns s ->
  exists k, delivered (chn (rhs s)) = List.filter deliverable (take k (sent (lhs s))).
Proof.
  intros [HL HR _ _ _ _].
  destruct (ri_fields _ _ _ _ (sv_rcv _ _ _ HR)) as (_ & _ & Hre).
  destruct (sv_queue _ _ _ HL) as (D & Hq & HStr).
  pose proof (ri_le _ _ _ _ (sv_rcv _ _ _ HR)) as Hle.
  exact (reassembled_prefix _ _ _ _ _ _ Hre Hle _ Hq HStr).
Qed.

(** With data in one direction only there is nothing old to repeat: the bound
    holds by itself. *)
Lemma one_way_fresh nl nr cl cr s :
  rtc net_step (net_init nl nr cl cr) s -> sent (rhs s) = [] -> fresh (lhs s) /\ fresh (rhs s).
Proof.
  intros (g & h & ms & ns & [HL HR _ _ _ _])%NInv_reachable E.
  destruct (sv_queue _ _ _ HR) as (D & Hq & HStr). rewrite E in Hq.
  symmetry in Hq. apply app_eq_nil in Hq as [-> _].
  assert (gF h = []) as HF.
  { inversion HStr. by destruct (gF h). }
  split; intros _ f n _ _ Hn.
  - pose proof (ri_le _ _ _ _ (sv_rcv _ _ _ HL)) as Hle. rewrite HF in Hle. cbn in Hle.
    rewrite (sv_got _ _ _ HL). lia.
  - rewrite (sv_stamps _ _ _ HR) in Hn. pose proof (sv_len _ _ _ HR) as Hl. rewrite HF in Hl.
    apply nil_length_inv in Hl. rewrite Hl in Hn. by rewrite drop_nil in Hn.
Qed.

(** ** Runs *)

Module NetEvent.
(** [west]: the left end. *)
Inductive t :=
| Enqueue (west : bool) (d : Bytes)
| Send (west : bool) (now : Instant)
| Arrive (west : bool) (now : Instant)   (* the oldest message from that end *)
| Lose (west : bool).
End NetEvent.

Definition net_exec (s : Net) (e : NetEvent.t) : option Net :=
  let side (west : bool) := if west then lhs s else rhs s in
  let link (west : bool) := if west then lr s else rl s in
  let turned (west : bool) out e' :=
    if west then mkNet e' (rhs s) (lr s ++ out) (rl s) else mkNet (lhs s) e' (lr s) (rl s ++ out) in
  match e with
  | NetEvent.Enqueue west d =>
      let e := side west in
      let '(ok, c') := enqueue_datagram d (chn e) in
      Some (turned west []
              (mkSide c' (got e) (stamps e) (if ok : bool then sent e ++ [d] else sent e)))
  | NetEvent.Send west now =>
      '(a, c') ← next_send_action now (chn (side west));
      Some (turned west (emit a) (follow c' (side west)))
  | NetEvent.Arrive west now =>
      match link west with
      | [] => None
      | m :: x =>
          Some (if west then mkNet (lhs s) (arrive now m (rhs s)) x (rl s)
                else mkNet (arrive now m (lhs s)) (rhs s) (lr s) x)
      end
  | NetEvent.Lose west =>
      match link west with
      | [] => None
      | _ :: x => Some (if west then mkNet (lhs s) (rhs s) x (rl s) else mkNet (lhs s) (rhs s) (lr s) x)
      end
  end.

Fixpoint net_run (es : list NetEvent.t) (s : Net) : option Net :=
  match es with
  | [] => Some s
  | e :: es => s ← net_exec s e; net_run es s
  end.

Lemma net_exec_step s e s' : net_exec s e = Some s' -> net_step s s'.
Proof.
  destruct s as [L R x y]. destruct e as [[] d|[] now|[] now|[]]; cbn.
  - destruct (enqueue_datagram d (chn L)) eqn:E. intros [= <-]. apply net_left. by apply side_enqueue.
  - destruct (enqueue_datagram d (chn R)) eqn:E. intros [= <-]. apply net_right. by apply side_enqueue.
  - destruct (next_send_action now (chn L)) as [[a c']|] eqn:E; [|done]. intros [= <-].
    apply net_left. by eapply side_send.
  - destruct (next_send_action now (chn R)) as [[a c']|] eqn:E; [|done]. intros [= <-].
    apply net_right. by eapply side_send.
  - destruct x as [|m x]; [done|]. intros [= <-]. apply (net_arriveR L R m x y now false).
  - destruct y as [|m y]; [done|]. intros [= <-]. apply (net_arriveL L R x m y now false).
  - destruct x as [|m x]; [done|]. intros [= <-]. apply (net_lossLR L R [] m x y).
  - destruct y as [|m y]; [done|]. intros [= <-]. apply (net_lossRL L R x [] m y).
Qed.

Lemma net_run_steps es s s' : net_run es s = Some s' -> rtc net_step s s'.
Proof.
  revert s. induction es as [|e es IH]; intros s; cbn; [by intros [= <-]|].
  destruct (net_exec s e) as [s1|] eqn:E; [|done]. intros H.
  eapply rtc_l; [by eapply net_exec_step|by apply IH].
Qed.

Lemma net_delivered (nowL nowR : Instant) (chunkL chunkR : Z) (s : Net) :
  rtc net_step (net_init nowL nowR chunkL chunkR) s ->
  (exists k, delivered (chn (rhs s)) = List.filter deliverable (take k (sent (lhs s)))) /\
  (exists k, delivered (chn (lhs s)) = List.filter deliverable (take k (sent (rhs s)))).
Proof.
  intros (g & h & ms & ns & HI)%NInv_reachable.
  split; [by eapply NetInv_delivered|]. apply NetInv_flip, NetInv_delivered in HI. by destruct s.
Qed.

(** C5. Data in both directions, in order and exactly once.  Two ends send to
    each other over a link that loses and repeats messages, and fragments carry
    acknowledgements of the other direction.  As long as no retransmission
    repeats an acknowledgement more than nine fragments old ([fresh]), each end has
    delivered, in order and without repetition, the deliverable ones among the
    first [k] datagrams the other end accepted. *)
Theorem duplex_in_order_exactly_once (nowL nowR : Instant) (chunkL chunkR : Z) (s : Net) :
  rtc net_step (net_init nowL nowR chunkL chunkR) s ->
  (exists k, delivered (chn (rhs s)) = List.filter deliverable (take k (sent (lhs s)))) /\
  (exists k, delivered (chn (lhs s)) = List.filter deliverable (take k (sent (rhs s)))).
Proof. apply net_delivered. Qed.

(** Both ends send; the left one's fragment is acknowledged by the right one's. *)
Definition both_ways : list NetEvent.t :=
  [NetEvent.Enqueue true [7; 8; 9]; NetEvent.Send true 0; NetEvent.Arrive true 1;
   NetEvent.Enqueue false [5]; NetEvent.Send false 2; NetEvent.Arrive false 3].

Lemma duplex_in_order_exactly_once_witness : exists s,
  rtc net_step (net_init 0 0 21 21) s /\ delivered (chn (rhs s)) = [[7; 8; 9]] /\
  delivered (chn (lhs s)) = [[5]] /\ in_flight (state (chn (lhs s))) = [] /\
  (exists k, delivered (chn (rhs s)) = List.filter deliverable (take k (sent (lhs s)))) /\
  (exists k, delivered (chn (lhs s)) = List.filter deliverable (take k (sent (rhs s)))).
Proof.
  destruct (net_run both_ways (net_init 0 0 21 21)) as [s|] eqn:E; [|by vm_compute in E].
  exists s. assert (rtc net_step (net_init 0 0 21 21) s) as Hr by (by eapply net_run_steps).
  split; [exact Hr|]. vm_compute in E. injection E as <-.
  do 3 (split; [reflexivity|]). exact (duplex_in_order_exactly_once 0 0 21 21 _ Hr).
Defined.

(** ** Nine is the exact bound *)

Definition round_of (i : nat) : list NetEvent.t :=
  let t := from_millis (25 * Z.of_nat i) in
  [NetEvent.Enqueue false [Z.of_nat i]; NetEvent.Send false t; NetEvent.Arrive false t;
   NetEvent.Send true (t + from_millis 20); NetEvent.Arrive true (t + from_millis 20)].

(** The left end's fragment goes out with the acknowledgement of the first of
    the right end's and is lost; ten more of the right end's are acknowledged;
    the next six are lost. *)
Definition ten_behind : list NetEvent.t :=
  [NetEvent.Enqueue false [0]; NetEvent.Send false (from_millis 1);
   NetEvent.Arrive false (from_millis 1);
   NetEvent.Enqueue true [99]; NetEvent.Send true (from_millis 2); NetEvent.Lose true]
  ++ mjoin (round_of <$> List.seq 1 10)
  ++ mjoin ((fun i => [NetEvent.Enqueue false [Z.of_nat i]; NetEvent.Send false (from_millis 280);
                       NetEvent.Lose false]) <$> List.seq 11 6).

(** What the arrival of [m], the left end's retransmission, does. *)
Definition forgets_unreceived (s : Net) (m : Bytes) : Prop :=
  let R := chn (arrive (from_millis 560) m (rhs s)) in
  ack_pending (state (chn (lhs s))) = None /\ stamps (lhs s) = [1%nat] /\ got (lhs s) = 11%nat /\
  delivered (chn (lhs s)) = take 11 (sent (rhs s)) /\ length (sent (rhs s)) = 17%nat /\
  length (in_flight (state (chn (rhs s)))) = 6%nat /\
  in_flight (state R) = [] /\ data_state R = ([], []) /\ link_dead (state R) = false.

(** C37. Nine is the exact bound.  There is a run within the bound after which
    the left end's retransmission timer repeats an acknowledgement ten fragments
    old; when it arrives the right end takes all six of its fragments in flight
    for acknowledged, though none was received: it has nothing left to send
    again, and those six datagrams are never delivered. *)
Theorem freshness_bound_tight : exists s m ls' c',
  rtc net_step (net_init 0 0 100 100) s /\
  on_timeout (from_millis 560) (from_millis 560) loop_init (chn (lhs s)) = (Some m, ls', c') /\
  forgets_unreceived s m.
Proof.
  destruct (net_run ten_behind (net_init 0 0 100 100)) as [s|] eqn:E; [|by vm_compute in E].
  apply net_run_steps in E as Hr. exists s.
  destruct (on_timeout (from_millis 560) (from_millis 560) loop_init (chn (lhs s)))
    as [[[m|] ls'] c'] eqn:Et; vm_compute in E; injection E as <-; vm_compute in Et; [|done].
  exists m, ls', c'. injection Et as <- <- <-. split; [exact Hr|]. split; [reflexivity|].
  vm_compute. repeat split.
Qed.
