(* ===== verification/SendLoop.v ===== *)
(** * SendLoop: the send loop as a task ([ReliableChannel::run_send_loop])

    The loop of [run_send_loop] with every await made explicit: a phase is where
    the task is parked, and [loop_poll] is one poll of it.  The sections under
    the channel's lock are the functions of [Reliable]; results of the native
    write are only logged by the source, so a write is just finished or not. *)

From S2P Require Import Prelude Peer Mtu Reliable ReliableFacts.
Open Scope Z_scope.

Module LoopPhase.
Inductive t :=
| Acting                                          (* [next_send_action().await] *)
| Planning                                        (* [SendAction::Wait], before the lock *)
| Sleeping (sleep_until retransmit_at : Instant)  (* [timeout(.., wake.notified())] *)
| Idling (sleep_until : option Instant)           (* nothing in flight *)
| Writing (gap : bool)                            (* [send_fn(msg).await] *)
| Pausing (until : Instant)                       (* [sleep(INTER_FRAME_GAP)] *)
| Returned                                        (* [Err(LinkDead)] *)
| Panicked.
End LoopPhase.

Record SendLoop := mkSendLoop {
  sl_phase : LoopPhase.t;
  sl_state : LoopState;
}.

(** [let mut timeout = ACK_TIMEOUT; let mut tracked_progress_at = None;]. *)
Definition SendLoop_new : SendLoop := mkSendLoop LoopPhase.Acting loop_init.

(** The task is over. *)
Definition loop_done (l : SendLoop) : bool :=
  match sl_phase l with LoopPhase.Returned | LoopPhase.Panicked => true | _ => false end.

(** One poll at [now]; [written] says whether the native write has finished.
    [None]: still pending.  Otherwise the message handed to [send_fn], if any. *)
Definition loop_poll (now : Instant) (written : bool) (l : SendLoop) (c : ReliableChannel)
    : option (option Bytes * SendLoop * ReliableChannel) :=
  let ls := sl_state l in
  match sl_phase l with
  | LoopPhase.Acting =>
      match next_send_action now c with
      | None => Some (None, mkSendLoop LoopPhase.Panicked ls, c)
      | Some (SendAction.Dead, c) => Some (None, mkSendLoop LoopPhase.Returned ls, c)
      | Some (SendAction.Wait, c) => Some (None, mkSendLoop LoopPhase.Planning ls, c)
      | Some (SendAction.Send m, c) => Some (Some m, mkSendLoop (LoopPhase.Writing true) ls, c)
      end
  | LoopPhase.Planning =>
      match on_wait now ls c with
      | (WaitPlan.LinkDead, ls, c) => Some (None, mkSendLoop LoopPhase.Returned ls, c)
      | (WaitPlan.SleepUntil s r, ls, c) => Some (None, mkSendLoop (LoopPhase.Sleeping s r) ls, c)
      | (WaitPlan.Idle s, ls, c) => Some (None, mkSendLoop (LoopPhase.Idling s) ls, c)
      end
  | LoopPhase.Sleeping s r =>
      if wake c then Some (None, mkSendLoop LoopPhase.Acting ls, set_wake false c)
      else if s <=? now then
        match on_timeout now r ls c with
        | (Some m, ls, c) => Some (Some m, mkSendLoop (LoopPhase.Writing false) ls, c)
        | (None, ls, c) => Some (None, mkSendLoop LoopPhase.Acting ls, c)
        end
      else None
  | LoopPhase.Idling s =>
      if wake c then Some (None, mkSendLoop LoopPhase.Acting ls, set_wake false c)
      else if from_option (fun dl => dl <=? now) false s
      then Some (None, mkSendLoop LoopPhase.Acting ls, c)
      else None
  | LoopPhase.Writing gap =>
      if written
      then Some (None, mkSendLoop (if gap then LoopPhase.Pausing (now + INTER_FRAME_GAP)
                                   else LoopPhase.Acting) ls, c)
      else None
  | LoopPhase.Pausing u =>
      if u <=? now then Some (None, mkSendLoop LoopPhase.Acting ls, c) else None
  | LoopPhase.Returned | LoopPhase.Panicked => None
  end.

(** The poll would take the channel's lock. *)
Definition takes_lock (now : Instant) (l : SendLoop) (c : ReliableChannel) : bool :=
  match sl_phase l with
  | LoopPhase.Acting | LoopPhase.Planning => true
  | LoopPhase.Sleeping s r => negb (wake c) && (s <=? now) && (r <=? now)
  | _ => false
  end.

(** ** Facts *)



Lemma refill_some c : 4 <= chunk_size c -> exists c', refill c = Some c' /\
  chunk_size c' = chunk_size c /\ link_dead (state c') = link_dead (state c).
Proof.
  intros Hc. unfold refill. destruct (frag_queue (state c)), (send_queue (state c)) as [|b q]; eauto.
  unfold fragment_into. cbn. destruct (fragments_of_Some (chunk_size c) b Hc) as [fs ->]. cbn. eauto.
Qed.

Lemma pure_ack_keeps now c :
  chunk_size (pure_ack now c).2 = chunk_size c /\
  link_dead (state (pure_ack now c).2) = link_dead (state c).
Proof.
  unfold pure_ack, take_ack. destruct (ack_pending (state c)); [|done].
  by destruct (from_option _ _ _).
Qed.

(** With room for a header, the canary and a byte, the next action exists; only
    a dead channel gives [Dead]. *)
Lemma next_send_action_some now c : 4 <= chunk_size c ->
  exists a c', next_send_action now c = Some (a, c') /\
    chunk_size c' = chunk_size c /\ link_dead (state c') = link_dead (state c) /\
    (a = SendAction.Dead <-> link_dead (state c) = true).
Proof.
  intros Hc. unfold next_send_action. destruct (link_dead (state c)) eqn:Ed;
    [by eexists _, _; split_and!|].
  destruct (refill_some c Hc) as (c1 & -> & Hc1 & Hd1). cbn [mbind option_bind].
  assert (forall c', chunk_size c' = chunk_size c -> link_dead (state c') = false ->
    exists a c'', Some (pure_ack now c') = Some (a, c'') /\ chunk_size c'' = chunk_size c /\
      link_dead (state c'') = false /\ (a = SendAction.Dead <-> false = true)) as Hp.
  { intros c' E1 E2. destruct (pure_ack_keeps now c') as [K1 K2].
    destruct (pure_ack now c') as [a c''] eqn:E. cbn in K1, K2. eexists _, _.
    split; [done|]. split; [congruence|]. split; [congruence|].
    unfold pure_ack in E. repeat case_match; simplify_eq; done. }
  destruct (can_send (state c1)); [|apply Hp; congruence].
  destruct (refill_some c1) as (c2 & -> & Hc2 & Hd2); [lia|]. cbn [mbind option_bind].
  destruct (frag_queue (state c2)) as [|f rest]; [apply Hp; congruence|].
  unfold send_fragment, take_ack. cbn. eexists _, _. split; [done|]. cbn.
  destruct (in_flight (state c2)); cbn; split; try congruence; split; try congruence; done.
Qed.

Lemma on_wait_keeps now ls c plan ls' c' :
  on_wait now ls c = (plan, ls', c') ->
  chunk_size c' = chunk_size c /\
  ((plan = WaitPlan.LinkDead /\ in_flight (state c) <> [] /\
      last_progress_at (state c) + LINK_DEAD_DEADLINE <= now)
   \/ (plan <> WaitPlan.LinkDead /\ c' = c)).
Proof.
  unfold on_wait. destruct (in_flight (state c)) as [|f fl]; [intros [= <- <- <-]; auto|].
  destruct (Z.leb_spec (last_progress_at (state c) + LINK_DEAD_DEADLINE) now);
    intros [= <- <- <-]; auto.
Qed.

Lemma on_timeout_keeps now rt ls c m ls' c' :
  on_timeout now rt ls c = (m, ls', c') ->
  chunk_size c' = chunk_size c /\ link_dead (state c') = link_dead (state c).
Proof.
  unfold on_timeout, take_ack. destruct (now <? rt); [by intros [= <- <- <-]|].
  destruct (in_flight (state c)); by intros [= <- <- <-].
Qed.

(** The loop ends by itself only with its channel dead. *)
Definition LoopInv (l : SendLoop) (c : ReliableChannel) : Prop :=
  4 <= chunk_size c /\ sl_phase l <> LoopPhase.Panicked.

(** One poll never panics and keeps the chunk size.  If it returns, the channel
    had been marked dead, or fragments were in flight and none was acknowledged
    within [LINK_DEAD_DEADLINE]; otherwise it does not touch [link_dead]. *)
Lemma loop_poll_spec now w l c m l' c' :
  LoopInv l c -> loop_poll now w l c = Some (m, l', c') ->
  LoopInv l' c' /\ chunk_size c' = chunk_size c /\
  ((sl_phase l' = LoopPhase.Returned /\
      (link_dead (state c) = true \/
       (in_flight (state c) <> [] /\ last_progress_at (state c) + LINK_DEAD_DEADLINE <= now)))
   \/ (loop_done l' = false /\ link_dead (state c') = link_dead (state c))).
Proof.
  intros [Hc Hp] E. unfold loop_poll, LoopInv, loop_done in *.
  destruct (sl_phase l) as [| |s r|s|g|u| |] eqn:El; try done.
  - destruct (next_send_action_some now c Hc) as (a & c1 & E1 & Hk & Hd & Ha). rewrite E1 in E.
    destruct a; simplify_eq/=; rewrite Hk; split_and!; try done; auto. left. tauto.
  - destruct (on_wait now _ c) as [[plan ls'] c1] eqn:E1. apply on_wait_keeps in E1 as [Hk Hw].
    destruct plan; simplify_eq/=; rewrite Hk; split_and!; try done;
      destruct Hw as [(?&?&?)|[? ->]]; try done; auto.
  - destruct (wake c); simplify_eq/=; [split_and!; try done; auto|].
    destruct (s <=? now); [|done].
    destruct (on_timeout now r _ c) as [[m1 ls'] c1] eqn:E1.
    apply on_timeout_keeps in E1 as [Hk Hd].
    destruct m1; simplify_eq/=; rewrite Hk; split_and!; try done; auto.
  - destruct (wake c); simplify_eq/=; [split_and!; try done; auto|].
    destruct (from_option _ _ _); simplify_eq/=. split_and!; try done; auto.
  - destruct w; simplify_eq/=. destruct g; split_and!; try done; auto.
  - destruct (u <=? now); simplify_eq/=. split_and!; try done; auto.
Qed.

(** The parts of a channel the receiving side leaves alone. *)
Definition settings (c : ReliableChannel) : Z * bool := (chunk_size c, link_dead (state c)).

Lemma schedule_ack_dead now a st : link_dead (schedule_ack now a st) = link_dead st.
Proof. unfold schedule_ack. cbn. by destruct (ack_deadline st). Qed.

Lemma reassemble_dead f p st : link_dead (reassemble f p st) = link_dead st.
Proof. unfold reassemble. by repeat (case_match; simpl). Qed.

Lemma accept_settings now f l p c : settings (accept_and_deliver now f l p c) = settings c.
Proof.
  unfold settings, accept_and_deliver. destruct l; [destruct (reassembly _) eqn:E|];
    cbn; by rewrite schedule_ack_dead; cbn; rewrite ?reassemble_dead.
Qed.

Lemma drain_settings now fuel c : settings (drain_loop fuel now c) = settings c.
Proof.
  revert c. induction fuel as [|fuel IH]; intros c; [done|]. cbn [drain_loop].
  destruct (remove_first _ _) as [[f rest]|]; [|done]. by rewrite IH, accept_settings.
Qed.

Lemma receive_data_settings now seq f l p c :
  settings (receive_data now seq f l p c) = settings c.
Proof.
  unfold receive_data.
  destruct (_ =? _); [unfold drain_recv_buf; by rewrite drain_settings, accept_settings|].
  destruct (_ && _); [unfold settings; cbn; by rewrite schedule_ack_dead|].
  destruct (negb _); [unfold settings; cbn; by rewrite schedule_ack_dead|done].
Qed.

Lemma receive_settings now v c : settings (receive_fragment now v c) = settings c.
Proof.
  assert (forall v c, settings (receive_parsed now v c) = settings c) as Hp.
  { intros w c0. unfold receive_parsed. set (c1 := if negb _ then receive_ack _ _ c0 else c0).
    assert (settings c1 = settings c0) as <-.
    { subst c1. unfold receive_ack. by repeat (case_match; simpl). }
    destruct (_ || _); [apply receive_data_settings|done]. }
  unfold receive_fragment. destruct (_ <? _)%nat; [done|].
  destruct (_ <? _)%nat; [|apply Hp]. destruct (negb _); [done|apply Hp].
Qed.

Lemma enqueue_settings d c : settings (enqueue_datagram d c).2 = settings c.
Proof. unfold enqueue_datagram. by destruct (_ <=? _)%nat. Qed.

(** Sending delivers nothing. *)
Lemma refill_delivered c c' : refill c = Some c' -> delivered c' = delivered c.
Proof.
  unfold refill. destruct (frag_queue (state c)), (send_queue (state c)); try by intros [= <-].
  unfold fragment_into. cbn. by destruct (fragments_of _ _); intros; simplify_eq/=.
Qed.

Lemma next_send_delivered now c a c' :
  next_send_action now c = Some (a, c') -> delivered c' = delivered c.
Proof.
  unfold next_send_action. destruct (link_dead (state c)); [by intros [= _ <-]|].
  destruct (refill c) as [c1|] eqn:E1; [|done]. cbn.
  assert (forall c0, delivered (pure_ack now c0).2 = delivered c0) as Hp.
  { intros c0. unfold pure_ack, take_ack. by repeat (case_match; simplify_eq/=). }
  apply refill_delivered in E1 as <-. destruct (can_send (state c1)).
  - destruct (refill c1) as [c2|] eqn:E2; [|done]. cbn. apply refill_delivered in E2 as <-.
    destruct (frag_queue (state c2)); [|by unfold send_fragment; intros; simplify_eq/=].
    intros [= E]. rewrite <- (Hp c2). by rewrite E.
  - intros [= E]. rewrite <- (Hp c1). by rewrite E.
Qed.

Lemma loop_poll_delivered now w l c m l' c' :
  loop_poll now w l c = Some (m, l', c') -> delivered c' = delivered c.
Proof.
  unfold loop_poll. destruct (sl_phase l); try done.
  - destruct (next_send_action now c) as [[a c1]|] eqn:E; [|by intros; simplify_eq].
    apply next_send_delivered in E. destruct a; intros; by simplify_eq.
  - unfold on_wait. intros. by repeat (case_match; simplify_eq/=).
  - unfold on_timeout, take_ack. intros. by repeat (case_match; simplify_eq/=).
  - intros. by repeat (case_match; simplify_eq/=).
  - intros. by repeat (case_match; simplify_eq/=).
  - intros. by repeat (case_match; simplify_eq/=).
Qed.

Lemma enqueue_delivered d c : delivered (enqueue_datagram d c).2 = delivered c.
Proof. unfold enqueue_datagram. by destruct (_ <=? _)%nat. Qed.
