(* ===== verification/ReliableProgress.v ===== *)
(** * ReliableProgress: the ARQ can always finish

    From any state the composed system of [ReliableSystem] can reach with both
    ends alive, there is a way on that delivers everything the sender accepted:
    no loss, timer or interleaving wedges the window protocol. *)

From S2P Require Import Prelude Peer Mtu Reliable ReliableFacts ReliableSystem SendLoop.

(** Both ends alive, with room in a chunk for a payload byte. *)
Definition alive (s : Sys) : Prop :=
  link_dead (state (sysA s)) = false /\ link_dead (state (sysB s)) = false /\
  4 <= chunk_size (sysA s).

(** The whole stream reassembled. *)
Lemma Stream_reasm_all D fs s :
  Stream D fs -> (foldl reasm_step s fs).2 = s.2 ++ List.filter deliverable D.
Proof.
  intros HS. revert s. induction HS as [|d fs D rest Hs _ IH]; intros s.
  - cbn. by rewrite app_nil_r.
  - rewrite foldl_app, (Split_reasm _ _ _ Hs), IH. cbn. rewrite <- app_assoc.
    by destruct (deliverable d).
Qed.

(** Receiving the oldest unacknowledged fragment moves the receiver past it, or
    it was past it already; either way it owes an acknowledgement. *)
Lemma receive_head now F r ts b c :
  RcvInv F r ts c -> r ∉ ts -> has_data (F !!! b) ->
  (b < length F)%nat -> (b <= r <= b + 6)%nat ->
  let c' := receive_fragment now (wire b (F !!! b)) c in
  exists r' ts', RcvInv F r' ts' c' /\ (r' ∉ ts') /\ (b < r')%nat /\ (r <= r')%nat /\
    ack_pending (state c') = Some (prev_seq (seqn r')) /\
    data_state c' = data_state c /\ window_state c' = window_state c.
Proof.
  intros HR Hr Hdata Hb Hbr. cbn zeta. rewrite receive_wire by done.
  destruct (ri_fields _ _ _ _ HR) as (Hn & Hbuf & _). unfold receive_data. rewrite Hn.
  destruct (Z.eqb_spec (seqn b) (seqn r)) as [E|E].
  - apply seqn_inj_near in E; [subst b|lia..].
    assert (upd_state (set_recv_buf (buf F <$> ts)) c = c) as Hid.
    { rewrite <- Hbuf. by destruct c as [[] ? ? ? ? ? ? ?]. }
    destruct (accept_RcvInv now F r ts ts c HR) as (HR1 & Hack1 & Hd1 & Hw1); [by right|].
    rewrite Hid in *. set (c1 := accept_and_deliver _ _ _ _ _) in *.
    destruct (drain_RcvInv now (length (recv_buf (state c1))) F (S r) ts c1 HR1)
      as (r' & ts' & HR' & Hr' & Hack' & Hd' & Hw' & Hle' & _); [|done|].
    { destruct (ri_fields _ _ _ _ HR1) as (_ & -> & _). by rewrite length_fmap. }
    exists r', ts'. unfold drain_recv_buf. split_and!; try done; [lia|congruence|congruence].
  - assert (b < r)%nat as Hlt by (destruct (Nat.eq_dec b r); [congruence|lia]).
    unfold in_recv_window. rewrite Hn, seq_dist_bwd by lia. unfold WINDOW_SIZE.
    destruct (Z.ltb_spec (16 - Z.of_nat (r - b)) 6); [lia|]. cbn [andb negb].
    exists r, ts. unfold upd_state.
    destruct (schedule_ack_eq now (prev_seq (seqn r)) (state c)) as [dl Hsa]. rewrite Hn, Hsa.
    split_and!; [|done|done|done|done|done|done]. by destruct HR as [Hst Hle Hnd Hts]; constructor.
Qed.

(** The pending acknowledgement of an end is due. *)
Definition ack_due (now : Instant) (c : ReliableChannel) : Prop :=
  forall dl, ack_deadline (state c) = Some dl -> dl <= now.

(** An end with nothing to send acknowledges when that is due. *)
Lemma send_owed_ack now c a :
  NoData c -> link_dead (state c) = false -> ack_pending (state c) = Some a -> ack_due now c ->
  exists c', next_send_action now c = Some (SendAction.Send (set_ack [0; 0] a), c') /\
    receive_state c' = receive_state c /\ NoData c' /\ ack_pending (state c') = None /\
    settings c' = settings c.
Proof.
  intros [Hd Hf] Hl Ha Hdue. unfold data_state in Hd. injection Hd as Hsq Hfq.
  unfold next_send_action, refill. rewrite Hl, Hfq, Hsq. cbn [mbind option_bind].
  assert (pure_ack now c
    = (SendAction.Send (set_ack [0; 0] a), set_state (take_ack (state c)).2 c)) as Hp.
  { unfold pure_ack. rewrite Ha. unfold ack_due in Hdue.
    destruct (ack_deadline (state c)) as [dl|]; cbn; [|by rewrite Ha].
    destruct (Z.leb_spec dl now) as [_|Hlt]; [by rewrite Ha|]. specialize (Hdue dl eq_refl). lia. }
  exists (set_state (take_ack (state c)).2 c). rewrite Hfq, Hsq. cbn [mbind option_bind].
  rewrite Hfq, Hp. split; [by destruct (can_send _)|]. unfold NoData, data_state. cbn.
  by rewrite Hsq, Hfq.
Qed.

Lemma timeout_settings now rt ls c m ls' c' :
  on_timeout now rt ls c = (m, ls', c') -> settings c' = settings c.
Proof.
  intros E. apply on_timeout_keeps in E as [E1 E2]. unfold settings. by rewrite E1, E2.
Qed.

Lemma alive_settings A B A' B' x y q x' y' q' :
  alive (mkSys A B x y q) -> settings A' = settings A -> settings B' = settings B ->
  alive (mkSys A' B' x' y' q').
Proof.
  unfold alive. cbn. intros (H1 & H2 & H3) [= E1 E2] [= E3 E4]. rewrite E2, E4. split_and!; [done|done|lia].
Qed.

(** The retransmission timer sends the oldest unacknowledged fragment again. *)
Lemma timeout_retransmits F b now rt ls c m ls' c' :
  SndInv F b c -> (b < length F)%nat -> rt <= now -> on_timeout now rt ls c = (m, ls', c') ->
  m = Some (wire b (F !!! b)).
Proof.
  intros HS Hb Hrt E. destruct (timeout_SndInv _ _ _ _ _ _ _ _ _ HS E) as (_ & _ & [->|[? _]]); [|done].
  destruct (si_fields _ _ _ HS) as (_ & _ & Hf). unfold on_timeout in E.
  destruct (Z.ltb_spec now rt); [lia|]. rewrite Hf in E.
  destruct (length F - b)%nat as [|k] eqn:Hk; [lia|]. cbn in E.
  by destruct (ack_pending (state c)).
Qed.

(** The invariant with nothing in transit. *)
Lemma inv_idle F b r ts A B q :
  SndInv F b A -> QueueInv q F A -> RcvInv F r ts B -> r ∉ ts -> AckOk r B -> NoData B ->
  (b <= r)%nat -> SysInv F b r ts [] [] (mkSys A B [] [] q).
Proof.
  intros. constructor; try done; [|by constructor| |by constructor];
    by intros ? ?%not_elem_of_nil.
Qed.

(** One retransmission, its acknowledgement, and the window has moved. *)
Lemma ack_round F b r ts A B q :
  SysInv F b r ts [] [] (mkSys A B [] [] q) -> alive (mkSys A B [] [] q) -> (b < length F)%nat ->
  exists A' B' r' ts', rtc sys_step (mkSys A B [] [] q) (mkSys A' B' [] [] q) /\
    SysInv F r' r' ts' [] [] (mkSys A' B' [] [] q) /\ alive (mkSys A' B' [] [] q) /\
    (b < r')%nat /\ data_state A' = data_state A.
Proof.
  intros [HS HQ HR Hr Hack Hno Hbr _ _ _ _ _ _] Hal Hb. cbn [sysA sysB accepted] in *.
  destruct (on_timeout 0 0 loop_init A) as [[m ls'] A1] eqn:E1.
  destruct (timeout_SndInv _ _ _ _ _ _ _ _ _ HS E1) as (HS1 & Hd1 & _).
  apply timeout_retransmits with (F := F) (b := b) in E1 as Hm; [subst m|done..].
  pose proof (QueueInv_has_data _ _ _ _ HQ Hb) as Hdata.
  pose proof (si_range _ _ _ HS) as Hrange. pose proof (ri_le _ _ _ _ HR) as Hle.
  destruct (receive_head 0 F r ts b B HR Hr Hdata Hb) as (r' & ts' & HR' & Hr' & Hlt & _ & Ha' & HdB & HwB);
    [lia|].
  set (B1 := receive_fragment 0 (wire b (F !!! b)) B) in *.
  assert (NoData B1) as Hno1.
  { destruct Hno as [Hd Hf]. split; [congruence|]. unfold window_state in HwB.
    by injection HwB as _ _ ->. }
  destruct Hal as (HlA & HlB & Hc). cbn in HlA, HlB, Hc.
  destruct (send_owed_ack (default 0 (ack_deadline (state B1))) B1 (prev_seq (seqn r')) Hno1)
    as (B2 & E2 & Hrs & Hno2 & Ha2 & Hs2); [|done|by intros dl ->|].
  { pose proof (receive_settings 0 (wire b (F !!! b)) B) as [= _ E]. subst B1. by rewrite E. }
  pose proof (ri_le _ _ _ _ HR') as Hle'.
  destruct (ack_SndInv 0 F b r' A1 HS1) as [HS2 Hd2]; [lia|].
  exists (receive_fragment 0 (ack_wire r') A1), B2, r', ts'. split_and!.
  - eapply rtc_l; [by eapply step_timeoutA|]. cbn.
    eapply rtc_l; [apply (step_recvB _ _ _ _ _ _ 0 false)|].
    eapply rtc_l; [eapply step_sendB; exact E2|].
    apply rtc_once. apply (step_recvA _ _ _ (ack_wire r') [] _ 0 false).
  - apply inv_idle; try done; [| |by left].
    + destruct HQ as (D & Hq & HStr). exists D. unfold data_state in Hd1, Hd2.
      injection Hd2 as -> ->. injection Hd1 as -> ->. done.
    + destruct HR' as [Hst ? ? ?]. constructor; try done. congruence.
  - apply (alive_settings A B _ _ [] [] q); [by split_and!| |].
    + rewrite receive_settings. by eapply timeout_settings.
    + rewrite Hs2. apply receive_settings.
  - done.
  - congruence.
Qed.

(** Everything sent gets acknowledged. *)
Lemma flush n : forall F b r ts A B q,
  (length F - b <= n)%nat ->
  SysInv F b r ts [] [] (mkSys A B [] [] q) -> alive (mkSys A B [] [] q) ->
  exists A' B' ts', rtc sys_step (mkSys A B [] [] q) (mkSys A' B' [] [] q) /\
    SysInv F (length F) (length F) ts' [] [] (mkSys A' B' [] [] q) /\
    alive (mkSys A' B' [] [] q) /\ data_state A' = data_state A.
Proof.
  induction n as [|n IH]; intros F b r ts A B q Hn HI Hal.
  - pose proof (si_range _ _ _ (inv_snd _ _ _ _ _ _ _ HI)) as Hrange.
    pose proof (ri_le _ _ _ _ (inv_rcv _ _ _ _ _ _ _ HI)) as Hle.
    pose proof (inv_br _ _ _ _ _ _ _ HI) as Hbr. cbn in *.
    assert (b = length F) as -> by lia. assert (r = length F) as -> by lia.
    exists A, B, ts. by split_and!.
  - destruct (Nat.lt_ge_cases b (length F)) as [Hb|Hb].
    + destruct (ack_round _ _ _ _ _ _ _ HI Hal Hb) as (A1 & B1 & r1 & ts1 & H1 & HI1 & Hal1 & Hlt & Hd1).
      destruct (IH F r1 r1 ts1 A1 B1 q) as (A2 & B2 & ts2 & H2 & HI2 & Hal2 & Hd2); [lia|done|done|].
      exists A2, B2, ts2. split_and!; [by etrans|done|done|congruence].
    + eapply (IH F b r ts); [lia|done|done].
Qed.

(** With an open window and something queued, a fragment is sent, and what is
    queued shrinks. *)
Lemma sent_shrinks now c a c' :
  next_send_action now c = Some (a, c') -> link_dead (state c) = false ->
  data_state c <> ([], []) -> in_flight_count (state c) = 0 ->
  (exists m, a = SendAction.Send m) /\
  ((length (send_queue (state c')) < length (send_queue (state c)))%nat \/
   (send_queue (state c') = send_queue (state c) /\
    (length (frag_queue (state c')) < length (frag_queue (state c)))%nat)).
Proof.
  intros E Hl Hd Hz. unfold next_send_action in E. rewrite Hl in E.
  assert (exists f rest c1, refill c = Some c1 /\ frag_queue (state c1) = f :: rest /\
    in_flight_count (state c1) = 0 /\
    ((length (send_queue (state c1)) < length (send_queue (state c)))%nat \/
     (c1 = c /\ frag_queue (state c) = f :: rest))) as (f & rest & c1 & Hr & Hf & Hz1 & Hsz).
  { unfold refill in *. destruct (frag_queue (state c)) as [|f rest] eqn:Hfq.
    2: { exists f, rest, c. by split_and!; auto. }
    destruct (send_queue (state c)) as [|d rest] eqn:Hsq.
    { destruct Hd. unfold data_state. by rewrite Hsq, Hfq. }
    unfold fragment_into in *. cbn in *. destruct (fragments_of (chunk_size c) d) as [fs|] eqn:Efs; [|done].
    pose proof (fragments_of_Split _ _ _ Efs) as Hs. cbn in *.
    assert (fs <> []) as Hne by (by destruct Hs). destruct fs as [|f fs]; [done|].
    eexists f, fs, _. split; [done|]. cbn. rewrite ?Hfq. split; [done|]. split; [done|]. left. lia. }
  rewrite Hr in E. cbn [mbind option_bind] in E.
  assert (refill c1 = Some c1) as Hr1 by (unfold refill; by rewrite Hf).
  unfold can_send in E. rewrite Hz1, Hr1 in E. cbn [mbind option_bind] in E.
  change (0 <? WINDOW_SIZE) with true in E. cbn in E. rewrite Hf in E. injection E as <- <-.
  split; [eauto|].
  destruct Hsz as [Hsz|[-> Hfc]]; [left|right].
  - cbn. by destruct (in_flight (state c1)).
  - rewrite Hf. cbn. by destruct (in_flight (state c)); split; cbn; try lia.
Qed.

(** Sending the next fragment when nothing is in flight. *)
Lemma send_next_fragment q F c :
  SndInv F (length F) c -> QueueInv q F c -> link_dead (state c) = false -> 4 <= chunk_size c ->
  data_state c <> ([], []) ->
  exists f c', next_send_action 0 c = Some (SendAction.Send (wire (length F) f), c') /\
    SndInv (F ++ [f]) (length F) c' /\ QueueInv q (F ++ [f]) c' /\ settings c' = settings c /\
    ((length (send_queue (state c')) < length (send_queue (state c)))%nat \/
     (send_queue (state c') = send_queue (state c) /\
      (length (frag_queue (state c')) < length (frag_queue (state c)))%nat)).
Proof.
  intros HS HQ Hl Hc Hd.
  destruct (next_send_action_some 0 c Hc) as (a & c' & E & Hk & Hld & Ha).
  assert (settings c' = settings c) as Hst by (unfold settings; by rewrite Hk, Hld).
  destruct (sent_shrinks 0 c a c' E Hl Hd) as [Hsent Hsz].
  { by rewrite (si_count _ _ _ HS), Nat.sub_diag. }
  destruct (send_SndInv _ _ _ _ _ _ _ HS HQ E) as [(f & -> & HS' & HQ')|(Hem & HS' & HQ')].
  - exists f, c'. by split_and!.
  - by destruct Hsent as [m ->].
Qed.

(** Everything queued gets sent, delivered and acknowledged. *)
Lemma finish n : forall m F ts A B q,
  (length (send_queue (state A)) <= n)%nat -> (length (frag_queue (state A)) <= m)%nat ->
  SysInv F (length F) (length F) ts [] [] (mkSys A B [] [] q) -> alive (mkSys A B [] [] q) ->
  exists F' A' B' ts', rtc sys_step (mkSys A B [] [] q) (mkSys A' B' [] [] q) /\
    SysInv F' (length F') (length F') ts' [] [] (mkSys A' B' [] [] q) /\
    data_state A' = ([], []).
Proof.
  induction n as [n IHn] using lt_wf_ind. intros m.
  induction m as [m IHm] using lt_wf_ind. intros F ts A B q Hn Hm HI Hal.
  destruct (decide (send_queue (state A) = [] /\ frag_queue (state A) = [])) as [[E1 E2]|Hne].
  { exists F, A, B, ts. split_and!; [done|done|]. unfold data_state. by rewrite E1, E2. }
  pose proof Hal as (HlA & _ & Hc). cbn in HlA, Hc.
  destruct (send_next_fragment q F A (inv_snd _ _ _ _ _ _ _ HI) (inv_queue _ _ _ _ _ _ _ HI) HlA Hc)
    as (f & A1 & E & HS1 & HQ1 & Hst & Hsz).
  { intros [= E1 E2]. by apply Hne. }
  assert (SysInv (F ++ [f]) (length F) (length F) ts [] [] (mkSys A1 B [] [] q)) as HI1.
  { by eapply inv_grow. }
  assert (rtc sys_step (mkSys A B [] [] q) (mkSys A1 B [] [] q)) as H1.
  { eapply rtc_l; [by eapply (step_sendA _ _ _ _ _ 0)|]. cbn.
    apply rtc_once, (step_lossAB _ _ [] _ []). }
  assert (alive (mkSys A1 B [] [] q)) as Hal1 by (by apply (alive_settings A B _ _ [] [] q)).
  destruct (flush (length (F ++ [f])) (F ++ [f]) (length F) (length F) ts A1 B q) as
    (A2 & B2 & ts2 & H2 & HI2 & Hal2 & Hd2); [lia|done|done|].
  unfold data_state in Hd2. injection Hd2 as Hs2 Hf2.
  destruct Hsz as [Hsz|[Hsz Hfz]].
  - destruct (IHn (length (send_queue (state A2))) ltac:(rewrite Hs2; lia)
      (length (frag_queue (state A2))) (F ++ [f]) ts2 A2 B2 q) as (F' & A' & B' & ts' & H' & HI' & Hd');
      [done..|]. exists F', A', B', ts'. split_and!; [by do 2 etrans; done|done|done].
  - destruct (IHm (length (frag_queue (state A2))) ltac:(rewrite Hf2; lia) (F ++ [f]) ts2 A2 B2 q)
      as (F' & A' & B' & ts' & H' & HI' & Hd'); [rewrite Hs2, Hsz; lia|done..|].
    exists F', A', B', ts'. split_and!; [by do 2 etrans; done|done|done].
Qed.

(** With nothing queued and everything acknowledged, everything accepted has
    been delivered. *)
Lemma idle_delivered F r ts ss acks s :
  SysInv F (length F) r ts ss acks s -> data_state (sysA s) = ([], []) ->
  delivered (sysB s) = List.filter deliverable (accepted s).
Proof.
  intros HI Hd. destruct (inv_queue _ _ _ _ _ _ _ HI) as (D & Hq & HStr).
  unfold data_state in Hd. injection Hd as Hsq Hfq.
  rewrite Hsq, app_nil_r in Hq. rewrite Hfq, app_nil_r in HStr.
  pose proof (inv_br _ _ _ _ _ _ _ HI) as Hbr.
  destruct (ri_fields _ _ _ _ (inv_rcv _ _ _ _ _ _ _ HI)) as (_ & _ & Hre).
  apply (f_equal snd) in Hre. cbn in Hre. rewrite take_ge in Hre by done.
  by rewrite Hre, (Stream_reasm_all D F _ HStr), Hq.
Qed.

(** The ARQ never wedges.  From every state the two ends can reach by any
    losses, repetitions and interleavings, as long as neither has been declared
    dead, there is a way on after which exactly the deliverable datagrams the
    sender accepted have been delivered, in order, and nothing is queued,
    unacknowledged or in transit. *)
Theorem arq_can_finish (now : Instant) (chunkA chunkB : Z) (s : Sys) :
  rtc sys_step (sys_init now chunkA chunkB) s -> alive s ->
  exists s', rtc sys_step s s' /\ accepted s' = accepted s /\
    delivered (sysB s') = List.filter deliverable (accepted s) /\
    data_state (sysA s') = ([], []) /\ in_flight (state (sysA s')) = [] /\
    ab s' = [] /\ ba s' = [].
Proof.
  intros Hr Hal. apply Inv_reachable in Hr as (F & b & r & ts & ss & acks & HI).
  destruct s as [A B x y q].
  assert (rtc sys_step (mkSys A B x y q) (mkSys A B [] [] q)) as H0.
  { etrans; [|apply (loss_allBA A B [] [] y [])]. rewrite app_nil_r.
    pose proof (loss_allAB A B [] x [] y q) as Hl. by rewrite app_nil_r in Hl. }
  assert (SysInv F b r ts [] [] (mkSys A B [] [] q)) as HI0.
  { by destruct HI; apply inv_idle. }
  destruct (flush (length F) F b r ts A B q) as (A1 & B1 & ts1 & H1 & HI1 & Hal1 & _); [lia|done|done|].
  destruct (finish _ _ F ts1 A1 B1 q (le_n _) (le_n _) HI1 Hal1)
    as (F' & A' & B' & ts' & H2 & HI2 & Hd).
  exists (mkSys A' B' [] [] q). split; [by do 2 (etrans; [done|])|].
  destruct (si_fields _ _ _ (inv_snd _ _ _ _ _ _ _ HI2)) as (_ & _ & Hfl). cbn in Hfl.
  pose proof (idle_delivered _ _ _ _ _ _ HI2 Hd) as Hdel.
  split_and!; try done. cbn. by rewrite Hfl, Nat.sub_diag.
Qed.

(** The only fragment of a datagram is lost. *)
Lemma arq_can_finish_witness : exists s,
  rtc sys_step (sys_init 0 21 21) s /\ alive s /\ accepted s = [[7; 8; 9]] /\
  delivered (sysB s) = [] /\ ab s = [] /\ ba s = [] /\
  exists s', rtc sys_step s s' /\ accepted s' = accepted s /\
    delivered (sysB s') = List.filter deliverable (accepted s) /\
    data_state (sysA s') = ([], []) /\ in_flight (state (sysA s')) = [] /\
    ab s' = [] /\ ba s' = [].
Proof.
  eassert (rtc sys_step (sys_init 0 21 21) _) as Hr.
  { eapply rtc_l; [eapply (step_enqueue _ _ _ _ _ [7; 8; 9]); reflexivity|].
    eapply rtc_l; [eapply (step_sendA _ _ _ _ _ 0); reflexivity|].
    eapply rtc_l; [eapply (step_lossAB _ _ [])|]. apply rtc_refl. }
  eexists. split; [exact Hr|]. do 5 (split; [by repeat split|]).
  eapply (arq_can_finish 0 21 21 _ Hr). by repeat split.
Defined.
