(* ===== verification/ReliableFair.v ===== *)
(** * ReliableFair: a link that keeps working delivers

    [ReliableProgress] shows that finishing stays possible.  Here the link is
    fair: among arbitrary other steps, losses included, the two ends complete
    round trips in which what is in transit arrives.  As many round trips as the
    accepted datagrams have bytes, plus one each, deliver all of them.  Data flows
    one way, as in [ReliableSystem]; with data in both directions an old
    acknowledgement can lose datagrams ([freshness_bound_tight]). *)

From S2P Require Import Prelude Peer Mtu Reliable ReliableFacts ReliableSystem SendLoop ReliableProgress.

(** Everything in transit arrives, in order, and is received. *)
Inductive arriveB : Sys -> Sys -> Prop :=
| arriveB_none A B y q : arriveB (mkSys A B [] y q) (mkSys A B [] y q)
| arriveB_one A B m x y q now s' :
    arriveB (mkSys A (receive_fragment now m B) x y q) s' -> arriveB (mkSys A B (m :: x) y q) s'.
Inductive arriveA : Sys -> Sys -> Prop :=
| arriveA_none A B x q : arriveA (mkSys A B x [] q) (mkSys A B x [] q)
| arriveA_one A B x m y q now s' :
    arriveA (mkSys (receive_fragment now m A) B x y q) s' -> arriveA (mkSys A B x (m :: y) q) s'.

(** One round trip of a working link: the sending end takes its turn and its
    retransmission timer fires, what is in transit arrives, the receiving end
    takes a turn once its acknowledgement is due, and what it sent arrives. *)
Inductive round_trip : Sys -> Sys -> Prop :=
| round_trip_intro A B x y q nowA a A1 nowT rt ls m ls' A2 B1 nowB e B2 s' :
    link_dead (state A) = false -> link_dead (state B) = false ->
    next_send_action nowA A = Some (a, A1) ->
    rt <= nowT -> on_timeout nowT rt ls A1 = (m, ls', A2) ->
    arriveB (mkSys A2 B ((x ++ emit a) ++ option_list m) y q) (mkSys A2 B1 [] y q) ->
    ack_due nowB B1 -> next_send_action nowB B1 = Some (e, B2) ->
    arriveA (mkSys A2 B2 [] (y ++ emit e) q) s' ->
    round_trip (mkSys A B x y q) s'.

(** A run with [n] round trips among its steps. *)
Inductive fair_run : nat -> Sys -> Sys -> Prop :=
| fair_done s : fair_run 0 s s
| fair_step n s1 s2 s3 : sys_step s1 s2 -> fair_run n s2 s3 -> fair_run n s1 s3
| fair_round n s1 s2 s3 : round_trip s1 s2 -> fair_run n s2 s3 -> fair_run (S n) s1 s3.

(** The round trips that suffice for the datagrams [ds]. *)
Definition rounds (ds : list Bytes) : nat := sum_list ((fun d => S (length d)) <$> ds).

(** ** A round trip is a run of the composed system *)

Lemma arriveB_steps s s' : arriveB s s' -> rtc sys_step s s'.
Proof.
  induction 1 as [|A B m x y q now s' _ IH]; [done|].
  eapply rtc_l; [|exact IH]. apply (step_recvB A B m x y q now false).
Qed.
Lemma arriveA_steps s s' : arriveA s s' -> rtc sys_step s s'.
Proof.
  induction 1 as [|A B x m y q now s' _ IH]; [done|].
  eapply rtc_l; [|exact IH]. apply (step_recvA A B x m y q now false).
Qed.
Lemma round_trip_steps s s' : round_trip s s' -> rtc sys_step s s'.
Proof.
  intros [A B x y q nowA a A1 nowT rt ls m ls' A2 B1 nowB e B2 t _ _ Ea _ Et Hx _ Ee Hy].
  eapply rtc_l; [by eapply step_sendA|]. eapply rtc_l; [by eapply step_timeoutA|].
  etrans; [by apply arriveB_steps|]. eapply rtc_l; [by eapply step_sendB|].
  by apply arriveA_steps.
Qed.

(** ** What any run keeps *)

(** What was accepted stays accepted, what was delivered stays delivered. *)
Definition grows (s s' : Sys) : Prop :=
  accepted s `prefix_of` accepted s' /\ delivered (sysB s) `prefix_of` delivered (sysB s').

#[global] Instance grows_preorder : PreOrder grows.
Proof.
  split; [by intros s; split|]. intros s1 s2 s3 [H1 H2] [H3 H4]. by split; etrans.
Qed.

Lemma send_delivered now c a c' : next_send_action now c = Some (a, c') -> delivered c' = delivered c.
Proof.
  assert (forall c c', refill c = Some c' -> delivered c' = delivered c) as Hrefill.
  { intros d d'. unfold refill, fragment_into.
    destruct (frag_queue (state d)), (send_queue (state d)) as [|g rest]; try (by intros [= <-]).
    cbn [upd_state set_state chunk_size]. by destruct (fragments_of _ _); intros [= <-]. }
  assert (forall c, delivered (pure_ack now c).2 = delivered c) as Hpure.
  { intros d. unfold pure_ack, take_ack. by repeat (case_match; simpl). }
  unfold next_send_action. destruct (link_dead _); [by intros [= <- <-]|].
  destruct (refill c) as [c1|] eqn:E1; cbn [mbind option_bind]; [|done].
  apply Hrefill in E1 as <-. destruct (can_send _).
  - destruct (refill c1) as [c2|] eqn:E2; cbn [mbind option_bind]; [|done].
    apply Hrefill in E2 as <-. destruct (frag_queue _).
    + intros [= E]. by rewrite <- (Hpure c2), E.
    + by intros [= <- <-].
  - intros [= E]. by rewrite <- (Hpure c1), E.
Qed.
Lemma timeout_delivered now rt ls c m ls' c' :
  on_timeout now rt ls c = (m, ls', c') -> delivered c' = delivered c.
Proof. unfold on_timeout, take_ack. by repeat (case_match; simpl); intros E; simplify_eq/=. Qed.
Lemma wait_delivered now ls c p ls' c' :
  on_wait now ls c = (p, ls', c') -> delivered c' = delivered c.
Proof. unfold on_wait. by repeat (case_match; simpl); intros E; simplify_eq/=. Qed.

Lemma step_grows s s' : sys_step s s' -> grows s s'.
Proof.
  destruct 1; (split; cbn; [try done|try done]).
  - case_match; [by apply prefix_app_r|done].
  - by erewrite <- send_delivered.
  - by erewrite <- wait_delivered.
  - by erewrite <- timeout_delivered.
  - apply receive_delivered.
Qed.
Lemma steps_grow s s' : rtc sys_step s s' -> grows s s'.
Proof. induction 1 as [|s1 s2 s3 Hs _ IH]; [done|]. etrans; [by apply step_grows|done]. Qed.

(** ** What a round trip achieves *)

Lemma inv_headAB F b r ts i ss acks A B m x y q :
  SysInv F b r ts (i :: ss) acks (mkSys A B (m :: x) y q) ->
  SysInv F b r ts ss acks (mkSys A B x y q).
Proof.
  intros [HS HQ HR Hr Hack Hno Hbr Hab Hss Hord Hba Hacks Haord]. sys_cbn.
  injection Hab as _ ->. constructor; sys_cbn; try done.
  - intros j Hj. apply Hss. by right.
  - by apply StronglySorted_inv in Hord as [? _].
Qed.
Lemma inv_headBA F b r ts ss a acks A B m x y q :
  SysInv F b r ts ss (a :: acks) (mkSys A B x (m :: y) q) ->
  SysInv F b r ts ss acks (mkSys A B x y q).
Proof.
  intros [HS HQ HR Hr Hack Hno Hbr Hab Hss Hord Hba Hacks Haord]. sys_cbn.
  injection Hba as _ ->. constructor; sys_cbn; try done.
  - intros j Hj. apply Hacks. by right.
  - by apply StronglySorted_inv in Haord as [? _].
Qed.

(** The oldest unacknowledged fragment arrives. *)
Lemma inv_recv_oldest now F b r ts acks A B y q :
  SysInv F b r ts [b] acks (mkSys A B [wire b (F !!! b)] y q) ->
  let B' := receive_fragment now (wire b (F !!! b)) B in
  exists r' ts', SysInv F b r' ts' [] acks (mkSys A B' [] y q) /\ (b < r')%nat /\
    ack_pending (state B') = Some (prev_seq (seqn r')).
Proof.
  intros [HS HQ HR Hr Hack Hno Hbr Hab Hss Hord Hba Hacks Haord]. sys_cbn. cbn zeta.
  destruct (Hss b (list_elem_of_here _ _)) as (Hb & _).
  destruct (receive_head now F r ts b B HR Hr) as
    (r' & ts' & HR' & Hr' & Hlt & Hle & Ha & Hd & Hw); [by eapply QueueInv_has_data|done| |].
  { pose proof (si_range _ _ _ HS). pose proof (ri_le _ _ _ _ HR). lia. }
  exists r', ts'. split; [|done]. constructor; sys_cbn; try done.
  - by right.
  - destruct Hno as [Hd0 Hf0]. split; [congruence|]. unfold window_state in Hw. by injection Hw as _ _ ->.
  - lia.
  - by intros ? ?%not_elem_of_nil.
  - constructor.
  - intros a Hain. apply Hacks in Hain. lia.
Qed.

(** Everything in transit arrives, a retransmission last. *)
Lemma arriveB_progress F b ss : forall r ts acks A B x y q s',
  SysInv F b r ts (ss ++ [b]) acks (mkSys A B x y q) -> arriveB (mkSys A B x y q) s' ->
  exists B' r' ts', s' = mkSys A B' [] y q /\ SysInv F b r' ts' [] acks s' /\ (b < r')%nat /\
    ack_pending (state B') = Some (prev_seq (seqn r')) /\ settings B' = settings B.
Proof.
  induction ss as [|i ss IH]; intros r ts acks A B x y q s' HI Harr;
    pose proof (inv_ab _ _ _ _ _ _ _ HI) as Hx; cbn in Hx; subst x;
    inversion Harr as [|? ? ? ? ? ? now ? Harr']; subst.
  - inversion Harr'; subst.
    destruct (inv_recv_oldest now _ _ _ _ _ _ _ _ _ HI) as (r' & ts' & HI' & Hlt & Ha).
    eexists _, r', ts'. split_and!; [done|done|done|done|apply receive_settings].
  - destruct (inv_recvB _ _ _ _ _ _ _ _ _ _ _ _ now HI) as (r1 & ts1 & _ & HI1).
    apply inv_headAB in HI1.
    destruct (IH _ _ _ _ _ _ _ _ _ HI1 Harr') as (B' & r' & ts' & -> & HI' & Hlt & Ha & Hs).
    exists B', r', ts'. split_and!; [done|done|done|done|]. by rewrite Hs, receive_settings.
Qed.

(** Everything on its way back arrives: the last acknowledgement counts. *)
Lemma arriveA_progress acks : forall F b r ts ss A B x y q s',
  SysInv F b r ts ss acks (mkSys A B x y q) -> arriveA (mkSys A B x y q) s' ->
  exists A', s' = mkSys A' B x [] q /\ SysInv F (default b (last acks)) r ts ss [] s'.
Proof.
  induction acks as [|a acks IH]; intros F b r ts ss A B x y q s' HI Harr;
    pose proof (inv_ba _ _ _ _ _ _ _ HI) as Hy; cbn in Hy; subst y;
    inversion Harr as [|? ? ? ? ? ? now ? Harr']; subst.
  - by exists A.
  - destruct (inv_recvA _ _ _ _ _ _ _ _ _ _ _ _ now HI) as (b' & rest & [= <- <-] & _ & HI1).
    apply inv_headBA in HI1.
    destruct (IH _ _ _ _ _ _ _ _ _ _ _ HI1 Harr') as (A' & -> & HI').
    exists A'. split; [done|]. rewrite last_cons. by destruct (last acks).
Qed.

(** After its turn the sending end has a fragment to retransmit, unless nothing
    was left to send and everything was acknowledged. *)
Lemma send_or_idle F b r ts ss acks A B x y q now a A' :
  SysInv F b r ts ss acks (mkSys A B x y q) -> next_send_action now A = Some (a, A') ->
  link_dead (state A) = false ->
  (b = length F /\ data_state A = ([], [])) \/
  exists F' ss', SysInv F' b r ts ss' acks (mkSys A' B (x ++ emit a) y q) /\ (b < length F')%nat.
Proof.
  intros HI Ha Hl. pose proof (si_range _ _ _ (inv_snd _ _ _ _ _ _ _ HI)) as Hr.
  destruct (inv_sendA_at _ _ _ _ _ _ _ _ _ _ _ _ _ _ HI Ha) as (F' & ss' & HI' & [Hlt|[-> He]]).
  { right. exists F', ss'. split; [done|lia]. }
  destruct (Nat.lt_ge_cases b (length F)) as [Hb|Hb]; [right; by exists F, ss'|].
  assert (b = length F) as -> by lia.
  destruct (decide (send_queue (state A) = [] /\ frag_queue (state A) = [])) as [[E1 E2]|Hne].
  { left. unfold data_state. by rewrite E1, E2. }
  destruct (sent_shrinks now A a A' Ha Hl) as [[m ->] _]; [| |done].
  - intros [= E1 E2]. by apply Hne.
  - rewrite (si_count F (length F)) by apply (inv_snd _ _ _ _ _ _ _ HI). lia.
Qed.

(** One more fragment acknowledged, or everything delivered already. *)
Lemma round_trip_progress F b r ts ss acks s s' :
  SysInv F b r ts ss acks s -> round_trip s s' ->
  delivered (sysB s) = List.filter deliverable (accepted s) \/ InvFrom (S b) s'.
Proof.
  intros HI Hround. revert HI.
  destruct Hround as [A B x y q nowA a A1 nowT rt ls m ls' A2 B1 nowB e B2 t HlA HlB Ea Hrt Et Hx Hdue Ee Hy].
  intros HI.
  destruct (send_or_idle _ _ _ _ _ _ _ _ _ _ _ _ _ _ HI Ea HlA) as [[-> Hd]|(F1 & ss1 & HI1 & Hb)].
  { left. by eapply idle_delivered. }
  right. destruct (timeout_SndInv _ _ _ _ _ _ _ _ _ (inv_snd _ _ _ _ _ _ _ HI1) Et) as (HS2 & Hd2 & _).
  rewrite (timeout_retransmits _ _ _ _ _ _ _ _ _ (inv_snd _ _ _ _ _ _ _ HI1) Hb Hrt Et) in Hx.
  assert (SysInv F1 b r ts ss1 acks (mkSys A2 B (x ++ emit a) y q)) as HI2.
  { eapply inv_A_silent; [exact HI1|done|]. destruct (inv_queue _ _ _ _ _ _ _ HI1) as (D & Hq & HStr).
    exists D. unfold data_state in Hd2. by injection Hd2 as -> ->. }
  apply (inv_A_emit _ _ _ _ _ _ _ _ _ _ _ b) in HI2; [|done].
  destruct (arriveB_progress _ _ _ _ _ _ _ _ _ _ _ _ HI2 Hx)
    as (B' & r' & ts' & [= <-] & HI3 & Hlt & Ha & Hs).
  destruct (send_owed_ack nowB B1 (prev_seq (seqn r')) (inv_nodataB _ _ _ _ _ _ _ HI3))
    as (B2' & Ee' & Hrs & Hno & Ha2 & _); [by injection Hs as _ ->|done|done|].
  rewrite Ee in Ee'. injection Ee' as -> <-.
  assert (SysInv F1 b r' ts' [] (acks ++ [r']) (mkSys A2 B2 [] (y ++ [ack_wire r']) q)) as HI4.
  { apply inv_B_emit. eapply inv_B_silent; [exact HI3|done|done|by left]. }
  destruct (arriveA_progress _ _ _ _ _ _ _ _ _ _ _ _ HI4 Hy) as (A3 & -> & HI5).
  rewrite last_snoc in HI5. cbn in HI5. exists F1, r', r', ts', [], []. by split; [lia|].
Qed.

(** ** Enough round trips *)

Lemma Split_length d fs : Split d fs -> (length fs <= S (length d))%nat.
Proof.
  assert (forall d fs, Tail d fs -> (length fs <= S (length d))%nat) as Ht.
  { induction 1 as [p|p d' fs' Hp _ IH]; cbn; [lia|]. rewrite length_app. destruct p; cbn; [done|lia]. }
  destruct 1 as [d'|p d' fs' Hp HT%Ht]; cbn; [lia|]. rewrite length_app. destruct p; cbn; [done|lia].
Qed.

Lemma rounds_app D1 D2 : rounds (D1 ++ D2) = (rounds D1 + rounds D2)%nat.
Proof. unfold rounds. induction D1 as [|d D1 IH]; cbn in *; [done|lia]. Qed.

Lemma Stream_rounds D fs : Stream D fs -> (length fs <= rounds D)%nat.
Proof.
  induction 1 as [|d fs D rest Hs%Split_length _ IH]; [done|].
  rewrite length_app. unfold rounds in *. cbn. lia.
Qed.

Lemma Stream_app_inv D1 D2 fs :
  Stream (D1 ++ D2) fs -> exists f1 f2, fs = f1 ++ f2 /\ Stream D1 f1 /\ Stream D2 f2.
Proof.
  revert fs. induction D1 as [|d D1 IH]; cbn; intros fs HS.
  - exists [], fs. by split_and!; [|constructor|].
  - inversion HS as [|? gs ? rest Hs HS']; subst.
    destruct (IH _ HS') as (f1 & f2 & -> & H1 & H2).
    exists (gs ++ f1), f2. split_and!; [by rewrite app_assoc|by constructor|done].
Qed.

(** With as many fragments acknowledged as the datagrams [D] can have, [D] has
    been delivered. *)
Lemma acknowledged_delivered n D s :
  InvFrom n s -> D `prefix_of` accepted s -> (rounds D <= n)%nat ->
  List.filter deliverable D `prefix_of` delivered (sysB s).
Proof.
  intros (F & b & r & ts & ss & acks & Hn & HI) [D' HD] Hrounds.
  pose proof (inv_br _ _ _ _ _ _ _ HI) as Hbr.
  pose proof (ri_le _ _ _ _ (inv_rcv _ _ _ _ _ _ _ HI)) as Hle.
  destruct (ri_fields _ _ _ _ (inv_rcv _ _ _ _ _ _ _ HI)) as (_ & _ & Hre).
  apply (f_equal snd) in Hre. cbn [reasm_view snd] in Hre. rewrite Hre.
  destruct (inv_queue _ _ _ _ _ _ _ HI) as (E & Hq & HStr). rewrite HD in Hq.
  rewrite <- (take_app_le F (frag_queue (state (sysA s))) r) by done.
  assert (exists k, E = D ++ k) as [k ->].
  { destruct (app_eq_inv _ _ _ _ Hq) as [(k & -> & _)|(k & -> & _)]; [|by exists k].
    exists []. rewrite app_nil_r. apply Stream_rounds in HStr. rewrite length_app in HStr.
    rewrite rounds_app in Hrounds. destruct k as [|d k]; [by rewrite app_nil_r|].
    unfold rounds in *. cbn in *. lia. }
  destruct (Stream_app_inv _ _ _ HStr) as (f1 & f2 & -> & H1 & H2).
  pose proof (Stream_rounds _ _ H1). rewrite take_app_ge, foldl_app by lia.
  destruct (Stream_reasm k f2 (r - length f1) (foldl reasm_step ([], false, []) f1) H2) as [j ->].
  rewrite (Stream_reasm_all _ _ _ H1). cbn. by apply prefix_app_r.
Qed.

Lemma fair_run_steps n s s' : fair_run n s s' -> rtc sys_step s s'.
Proof.
  induction 1 as [s|n s1 s2 s3 Hs _ IH|n s1 s2 s3 Hr%round_trip_steps _ IH];
    [done|by eapply rtc_l|by etrans].
Qed.

(** [k] round trips on, [k] more fragments are acknowledged, or on the way
    everything accepted before had been delivered. *)
Lemma fair_run_progress n k s s' D :
  fair_run n s s' -> InvFrom k s -> D `prefix_of` accepted s ->
  List.filter deliverable D `prefix_of` delivered (sysB s') \/ InvFrom (k + n) s'.
Proof.
  intros Hrun. revert k. induction Hrun as [s|n s1 s2 s3 Hs _ IH|n s1 s2 s3 Hr Hrun IH]; intros k HI HD.
  - right. by rewrite Nat.add_0_r.
  - apply IH; [by eapply InvFrom_step|]. by etrans; [|apply (step_grows _ _ Hs)].
  - destruct (steps_grow _ _ (round_trip_steps _ _ Hr)) as [Hacc Hdel].
    pose proof HI as (F & b & r & ts & ss & acks & Hk & HI').
    destruct (round_trip_progress _ _ _ _ _ _ _ _ HI' Hr) as [Hdone|HI2].
    + left. destruct (steps_grow _ _ (fair_run_steps _ _ _ Hrun)) as [_ Hdel'].
      etrans; [|exact Hdel']. etrans; [|exact Hdel]. rewrite Hdone.
      destruct HD as [D' ->]. rewrite List.filter_app. by apply prefix_app_r.
    + rewrite <- Nat.add_succ_comm. apply IH; [|by etrans].
      by apply (InvFrom_le (S k) (S b)); [lia|].
Qed.

(** ** Round trips are possible *)

Lemma arriveB_total A B x y q : exists B', arriveB (mkSys A B x y q) (mkSys A B' [] y q) /\
  settings B' = settings B.
Proof.
  revert B. induction x as [|m x IH]; intros B; [exists B; split; [constructor|done]|].
  destruct (IH (receive_fragment 0 m B)) as (B' & H & Hs).
  exists B'. split; [by econstructor|]. by rewrite Hs, receive_settings.
Qed.
Lemma arriveA_total A B x y q : exists A', arriveA (mkSys A B x y q) (mkSys A' B x [] q) /\
  settings A' = settings A.
Proof.
  revert A. induction y as [|m y IH]; intros A; [exists A; split; [constructor|done]|].
  destruct (IH (receive_fragment 0 m A)) as (A' & H & Hs).
  exists A'. split; [by econstructor|]. by rewrite Hs, receive_settings.
Qed.

(** An end with nothing to send can take its turn, whatever its chunk size. *)
Lemma turn_nodata now c : NoData c ->
  exists a c', next_send_action now c = Some (a, c') /\ settings c' = settings c.
Proof.
  intros [Hd _]. unfold data_state in Hd. injection Hd as Hsq Hfq.
  unfold next_send_action, refill. destruct (link_dead (state c)); [by eexists _, c|].
  rewrite Hfq, Hsq. cbn [mbind option_bind]. rewrite Hfq, Hsq. cbn [mbind option_bind]. rewrite Hfq.
  assert (settings (pure_ack now c).2 = settings c) as Hs.
  { unfold pure_ack, take_ack. by repeat (case_match; simpl). }
  destruct (pure_ack now c) as [a c'] eqn:E. exists a, c'. by destruct (can_send _).
Qed.

Lemma round_trip_possible s : Inv s -> alive s -> exists s', round_trip s s' /\ alive s'.
Proof.
  destruct s as [A B x y q]. intros HI Hal. pose proof Hal as (HlA & HlB & Hc). cbn in HlA, HlB, Hc.
  destruct (next_send_action_some 0 A Hc) as (a & A1 & Ea & Hk & Hld & _).
  destruct (on_timeout 0 0 loop_init A1) as [[m ls'] A2] eqn:Et.
  destruct (arriveB_total A2 B ((x ++ emit a) ++ option_list m) y q) as (B1 & Hx & HsB).
  assert (rtc sys_step (mkSys A B x y q) (mkSys A2 B1 [] y q)) as Hsteps.
  { eapply rtc_l; [by eapply step_sendA|]. eapply rtc_l; [by eapply step_timeoutA|].
    by apply arriveB_steps. }
  assert (NoData B1) as Hno.
  { apply Inv_steps in Hsteps as (F & b & r & ts & ss & acks & HI'); [|done].
    exact (inv_nodataB _ _ _ _ _ _ _ HI'). }
  set (nowB := default 0 (ack_deadline (state B1))).
  destruct (turn_nodata nowB B1 Hno) as (e & B2 & Ee & HsB2).
  destruct (arriveA_total A2 B2 [] (y ++ emit e) q) as (A3 & Hy & HsA).
  exists (mkSys A3 B2 [] [] q). split.
  - apply (round_trip_intro A B x y q 0 a A1 0 0 loop_init m ls' A2 B1 nowB e B2); try done.
    subst nowB. by intros dl ->.
  - eapply alive_settings; [exact Hal| |congruence].
    rewrite HsA, (timeout_settings _ _ _ _ _ _ _ Et). unfold settings. by rewrite Hk, Hld.
Qed.

Lemma fair_run_possible n s : Inv s -> alive s -> exists s', fair_run n s s'.
Proof.
  revert s. induction n as [|n IH]; intros s HI Hal; [exists s; constructor|].
  destruct (round_trip_possible s HI Hal) as (s1 & Hr & Hal1).
  destruct (IH s1) as [s' Hrun]; [by eapply Inv_steps; [apply round_trip_steps|]|done|].
  exists s'. by eapply fair_round.
Qed.

(** C9. A fair link delivers, when data flows one way.  One end sends datagrams and
    the other only acknowledges.  Whatever the two ends and the link did before,
    and however losses, repetitions, timers and further datagrams of the sender
    are interleaved afterwards, once a run has seen as many working round trips as
    the datagrams accepted so far have bytes, plus one for each of them, every
    deliverable one of them has been delivered, in order and before anything
    accepted later. *)
Theorem fair_link_delivers (now : Instant) (chunkA chunkB : Z) (n : nat) (s s' : Sys) :
  rtc sys_step (sys_init now chunkA chunkB) s ->
  fair_run n s s' -> (rounds (accepted s) <= n)%nat ->
  List.filter deliverable (accepted s) `prefix_of` delivered (sysB s').
Proof.
  intros Hr%Inv_reachable Hrun Hn.
  destruct (fair_run_progress n 0 s s' (accepted s) Hrun) as [Hd|HI]; [by apply Inv_InvFrom|done|done|].
  apply (acknowledged_delivered n); [done| |done].
  apply (steps_grow _ _ (fair_run_steps _ _ _ Hrun)).
Qed.

(** The only fragment of a datagram is lost; four round trips are enough, and
    there are runs with four. *)
Lemma fair_link_delivers_witness : exists s,
  rtc sys_step (sys_init 0 21 21) s /\ accepted s = [[7; 8; 9]] /\
  delivered (sysB s) = [] /\ ab s = [] /\ rounds (accepted s) = 4%nat /\
  exists s', fair_run 4 s s' /\ [[7; 8; 9]] `prefix_of` delivered (sysB s').
Proof.
  eassert (rtc sys_step (sys_init 0 21 21) _) as Hr.
  { eapply rtc_l; [eapply (step_enqueue _ _ _ _ _ [7; 8; 9]); reflexivity|].
    eapply rtc_l; [eapply (step_sendA _ _ _ _ _ 0); reflexivity|].
    eapply rtc_l; [eapply (step_lossAB _ _ [])|]. apply rtc_refl. }
  eexists. split; [exact Hr|]. do 4 (split; [reflexivity|]).
  edestruct (fair_run_possible 4) as [s' Hrun]; [exact (Inv_reachable _ _ _ _ Hr)|by repeat split|].
  exists s'. split; [exact Hrun|].
  apply (fair_link_delivers 0 21 21 4 _ s' Hr Hrun). apply le_n.
Defined.
