(* ===== verification/Pipe.v ===== *)
(** * Pipe: the data pipe of one peer ([transport/pipe.rs])

    Three kinds of task per pipe: the supervisor [run_data_pipe], the GATT worker
    [run_gatt_pipe] with its send loop and MTU resolver, and the L2CAP worker
    [run_l2cap_pipe] with its two I/O tasks.  A task is a record with the await
    it is parked at; an event is one poll of one task, and [pipe_exec] performs
    it, so that a list of events is an interleaving.  What the pipe does to the
    outside (wakers, packets to iroh, commands to the registry, characteristic
    writes) is the list of its effects.  Log lines are left out. *)

From S2P Require Import Prelude Peer Dedup Mtu Routing L2cap Reliable SendLoop.
Open Scope Z_scope.

Definition INITIAL_CHUNK_SIZE : Z := MIN_SANE_MTU - ATT_OVERHEAD.

(** [mpsc::channel(64)] of [ReliableChannel::new]. *)
Definition DATAGRAM_CAPACITY : nat := 64.

Module Effect.
Inductive t :=
| Wake (s : PendingSend)              (* [send.waker.wake()] *)
| Lost (s : PendingSend)              (* dropped with its queue, its waker not woken *)
| Incoming (p : IncomingPacket)       (* sent on [incoming_tx] *)
| Registry (c : PeerCommand.t)        (* sent on [registry_tx] *)
| Write (role : ConnectRole.t) (bs : Bytes)  (* [write_c2p] or [notify_p2c] *)
| Bump (now : Instant)                (* [last_rx_at.bump()] *)
| EmptyFrame.                         (* [empty_frames_counter.fetch_add(1)] *)
End Effect.

(** ** Bounded channels: the receiving end *)

Definition chan_pop {A} (c : BoundedChan A) : option (A * BoundedChan A) :=
  match bc_items c with
  | x :: rest => Some (x, mkBoundedChan (bc_cap c) rest (bc_open c))
  | [] => None
  end.
Definition chan_full {A} (c : BoundedChan A) : bool := (bc_cap c <=? length (bc_items c))%nat.
Definition chan_push {A} (x : A) (c : BoundedChan A) : BoundedChan A :=
  mkBoundedChan (bc_cap c) (bc_items c ++ [x]) (bc_open c).
(** The receiver is dropped, and the queued values with it. *)
Definition chan_close {A} (c : BoundedChan A) : BoundedChan A :=
  mkBoundedChan (bc_cap c) [] false.

(** ** Where the tasks are parked, and what polls them *)

Module GattPhase.
Inductive t :=
| Select
| Stuck                      (* [receive_fragment] waits for room in its own [datagram_rx] *)
| Delivering (d : Bytes)     (* [incoming_tx.send(..).await] *)
| Joining                    (* awaits the send loop after [mark_dead] *)
| Reporting                  (* [registry_tx.send(Stalled)] *)
| Exited.
End GattPhase.

Module GattEvent.
Inductive t :=
| Outbound                (* [outbound_rx.recv()] *)
| Inbound                 (* [inbound_rx.recv()] *)
| Datagram                (* [datagram_rx.recv()] *)
| Shutdown                (* [shutdown_rx] *)
| Join                    (* [send_loop_handle] *)
| Deliver (open : bool)   (* [incoming_tx.send] completes; [open]: it has a receiver *)
| Report (open : bool)    (* [registry_tx.send] completes *)
| Loop (written : bool)   (* the send loop is polled *)
| Resolve (mtu_at : nat -> Z) (now_at : nat -> Instant) (fuel : nat) (start : Instant).
End GattEvent.

Module L2capPhase.
Inductive t :=
| Starting                      (* spawned, not yet in [select!] *)
| Select (notified : bool)      (* waits, also on a [Notified] of this turn *)
| Forwarding (s : PendingSend)  (* [l2cap_tx.send(datagram).await] *)
| Reporting
| Exited.
End L2capPhase.

Module L2capEvent.
Inductive t :=
| Enter                  (* the first turn of the loop *)
| Outbound               (* [outbound_rx.recv()] *)
| Forward                (* [l2cap_tx.send] *)
| Done                   (* [done.notified()] *)
| Report (open : bool)
| SendTask               (* the send task is polled *)
| RecvTask (open : bool). (* the receive task is polled *)
End L2capEvent.

Module Sup.
Inductive t :=
| Select
| Offering (s : PendingSend) (deadline : Instant)   (* [send_timeout] to the L2CAP worker *)
| Evicting (s : PendingSend) (wedged : bool) (deadline : Instant)
| Complaining (s : PendingSend)                      (* [L2capHandoverTimeout] *)
| TearingGatt (deadline : Instant)
| TearingL2cap (deadline : Instant)
| Returned.
End Sup.

Module PipeEvent.
Inductive t :=
| Outbound (o : option PendingSend)    (* what [outbound_rx.recv()] gave *)
| Inbound (o : option Bytes)           (* what [inbound_rx.recv()] gave *)
| AddL2cap (o : option L2capChannel)   (* what [add_l2cap_rx.recv()] gave *)
| Poll (open : bool)                   (* another await of the supervisor *)
| Gatt (ev : GattEvent.t)
| L2cap (ev : L2capEvent.t).
End PipeEvent.

Section Pipe.
Context (device_id : DeviceId) (stable_conn_id : StableConnId) (role : ConnectRole.t).
(** [tokio::io::split] of a [blew::L2capChannel]. *)
Context (io_split : L2capChannel -> Reader * Writer).

(** ** The GATT worker *)

(** [gt_senders]: the supervisor still holds the forwarding senders. [gt_taken]
    counts the datagrams received from [datagram_rx]. *)
Record GattTask := mkGattTask {
  gt_outbound : BoundedChan PendingSend;
  gt_inbound : BoundedChan Bytes;
  gt_senders : bool;
  gt_shutdown : bool;
  gt_teardown : bool;
  gt_channel : ReliableChannel;
  gt_taken : nat;
  gt_loop : SendLoop;
  gt_phase : GattPhase.t;
}.

Definition spawn_gatt_worker (now : Instant) : GattTask :=
  mkGattTask (mkBoundedChan 32 [] true) (mkBoundedChan 64 [] true) true false false
    (ReliableChannel_new now INITIAL_CHUNK_SIZE) 0 SendLoop_new GattPhase.Select.

Definition set_gt_outbound (q : BoundedChan PendingSend) (g : GattTask) : GattTask :=
  mkGattTask q (gt_inbound g) (gt_senders g) (gt_shutdown g) (gt_teardown g) (gt_channel g)
    (gt_taken g) (gt_loop g) (gt_phase g).
Definition set_gt_inbound (q : BoundedChan Bytes) (g : GattTask) : GattTask :=
  mkGattTask (gt_outbound g) q (gt_senders g) (gt_shutdown g) (gt_teardown g) (gt_channel g)
    (gt_taken g) (gt_loop g) (gt_phase g).
Definition set_gt_channel (c : ReliableChannel) (g : GattTask) : GattTask :=
  mkGattTask (gt_outbound g) (gt_inbound g) (gt_senders g) (gt_shutdown g) (gt_teardown g) c
    (gt_taken g) (gt_loop g) (gt_phase g).
Definition set_gt_loop (l : SendLoop) (g : GattTask) : GattTask :=
  mkGattTask (gt_outbound g) (gt_inbound g) (gt_senders g) (gt_shutdown g) (gt_teardown g)
    (gt_channel g) (gt_taken g) l (gt_phase g).
Definition set_gt_phase (p : GattPhase.t) (g : GattTask) : GattTask :=
  mkGattTask (gt_outbound g) (gt_inbound g) (gt_senders g) (gt_shutdown g) (gt_teardown g)
    (gt_channel g) (gt_taken g) (gt_loop g) p.
Definition take_datagram (g : GattTask) : GattTask :=
  mkGattTask (gt_outbound g) (gt_inbound g) (gt_senders g) (gt_shutdown g) (gt_teardown g)
    (gt_channel g) (S (gt_taken g)) (gt_loop g) (gt_phase g).

(** The task's future is dropped: [run_gatt_pipe] returned or was aborted.  The
    receivers go, and with them what was queued; the guards abort the send loop
    and the resolver. *)
Definition gatt_exit (g : GattTask) : list Effect.t * GattTask :=
  (Effect.Lost <$> bc_items (gt_outbound g),
   mkGattTask (chan_close (gt_outbound g)) (chan_close (gt_inbound g)) (gt_senders g)
     (gt_shutdown g) (gt_teardown g) (gt_channel g) (gt_taken g) (gt_loop g) GattPhase.Exited).

(** Leaving the select loop with the send loop still running. *)
Definition gatt_break (g : GattTask) : GattTask :=
  set_gt_phase GattPhase.Joining (set_gt_channel (mark_dead (gt_channel g)) g).

Definition is_select (p : GattPhase.t) : bool :=
  match p with GattPhase.Select => true | _ => false end.

(** One poll of the worker or of one of its tasks; [None]: nothing to do. *)
Definition gatt_exec (now : Instant) (ev : GattEvent.t) (g : GattTask)
    : option (list Effect.t * GattTask) :=
  match ev, gt_phase g with
  | _, GattPhase.Exited => None
  | GattEvent.Outbound, GattPhase.Select =>
      match chan_pop (gt_outbound g) with
      | Some (s, q) =>
          let '(_, c) := enqueue_datagram (ps_datagram s) (gt_channel g) in
          Some ([Effect.Wake s], set_gt_channel c (set_gt_outbound q g))
      | None => if gt_senders g then None else Some ([], gatt_break g)
      end
  | GattEvent.Inbound, GattPhase.Select =>
      match chan_pop (gt_inbound g) with
      | Some (bs, q) =>
          let c := receive_fragment now bs (gt_channel g) in
          if (length (Reliable.delivered c) - gt_taken g <=? DATAGRAM_CAPACITY)%nat
          then Some ([], set_gt_channel c (set_gt_inbound q g))
          (* it keeps the lock over the await, so what it changed before is never
             seen: the send loop cannot look, and the channel goes with the worker *)
          else Some ([], set_gt_phase GattPhase.Stuck (set_gt_inbound q g))
      | None => if gt_senders g then None else Some ([], gatt_break g)
      end
  | GattEvent.Datagram, GattPhase.Select =>
      match Reliable.delivered (gt_channel g) !! gt_taken g with
      | Some d => Some ([Effect.Bump now], set_gt_phase (GattPhase.Delivering d) (take_datagram g))
      | None => None
      end
  | GattEvent.Deliver open, GattPhase.Delivering d =>
      Some (if open : bool
            then [Effect.Incoming (mkIncomingPacket device_id stable_conn_id d)] else [],
            set_gt_phase GattPhase.Select g)
  | GattEvent.Shutdown, GattPhase.Select =>
      if gt_shutdown g then
        Some ([], gatt_break (mkGattTask (gt_outbound g) (gt_inbound g) (gt_senders g)
          (gt_shutdown g) true (gt_channel g) (gt_taken g) (gt_loop g) (gt_phase g)))
      else None
  | GattEvent.Join, GattPhase.Select =>
      match sl_phase (gt_loop g) with
      | LoopPhase.Returned => Some ([], set_gt_phase GattPhase.Reporting g)
      | LoopPhase.Panicked => Some (gatt_exit g)
      | _ => None
      end
  | GattEvent.Join, GattPhase.Joining =>
      if loop_done (gt_loop g) then Some (gatt_exit g) else None
  | GattEvent.Report open, GattPhase.Reporting =>
      let '(lost, g) := gatt_exit g in
      Some ((if open : bool
             then [Effect.Registry (PeerCommand.Stalled device_id StallCause.LinkDead)] else [])
            ++ lost, g)
  | GattEvent.Loop written, ph =>
      (* a stuck worker holds the lock *)
      if (match ph with GattPhase.Stuck => true | _ => false end)
         && takes_lock now (gt_loop g) (gt_channel g) then None
      else
        '(m, l, c) ← loop_poll now written (gt_loop g) (gt_channel g);
        Some (Effect.Write role <$> option_list m, set_gt_channel c (set_gt_loop l g))
  | GattEvent.Resolve mtu_at now_at fuel start, _ =>
      n ← resolve_chunk_size mtu_at now_at fuel start;
      Some ([], set_gt_channel (set_chunk_size n (gt_channel g)) g)
  | _, _ => None
  end.

(** ** The L2CAP worker *)

(** [lt_io] is the channel to the send task, open while that task lives. *)
Record L2capTask := mkL2capTask {
  lt_outbound : BoundedChan PendingSend;
  lt_senders : bool;
  lt_teardown : bool;
  lt_io : BoundedChan Bytes;
  lt_reader : Reader;
  lt_writer : Writer;
  lt_recv_alive : bool;
  lt_phase : L2capPhase.t;
}.

Definition spawn_l2cap_worker (channel : L2capChannel) : L2capTask :=
  let '(reader, writer) := io_split channel in
  mkL2capTask (mkBoundedChan 32 [] true) true false (mkBoundedChan 64 [] true)
    reader writer true L2capPhase.Starting.

Definition set_lt_outbound (q : BoundedChan PendingSend) (w : L2capTask) : L2capTask :=
  mkL2capTask q (lt_senders w) (lt_teardown w) (lt_io w) (lt_reader w) (lt_writer w)
    (lt_recv_alive w) (lt_phase w).
Definition set_lt_phase (p : L2capPhase.t) (w : L2capTask) : L2capTask :=
  mkL2capTask (lt_outbound w) (lt_senders w) (lt_teardown w) (lt_io w) (lt_reader w)
    (lt_writer w) (lt_recv_alive w) p.
Definition set_lt_send (q : BoundedChan Bytes) (wr : Writer) (w : L2capTask) : L2capTask :=
  mkL2capTask (lt_outbound w) (lt_senders w) (lt_teardown w) q (lt_reader w) wr
    (lt_recv_alive w) (lt_phase w).
Definition set_lt_recv (r : Reader) (alive : bool) (w : L2capTask) : L2capTask :=
  mkL2capTask (lt_outbound w) (lt_senders w) (lt_teardown w) (lt_io w) r (lt_writer w)
    alive (lt_phase w).

(** [NotifyOnDrop]: [notify_waiters] reaches a worker that is waiting, and
    leaves no permit. *)
Definition notify_waiters (w : L2capTask) : L2capTask :=
  match lt_phase w with
  | L2capPhase.Select _ => set_lt_phase (L2capPhase.Select true) w
  | _ => w
  end.

(** What the task still holds of the sends it took. *)
Definition l2cap_held (w : L2capTask) : list PendingSend :=
  match lt_phase w with L2capPhase.Forwarding s => [s] | _ => [] end ++ bc_items (lt_outbound w).

Definition l2cap_exit (w : L2capTask) : list Effect.t * L2capTask :=
  (Effect.Lost <$> l2cap_held w,
   mkL2capTask (chan_close (lt_outbound w)) (lt_senders w) (lt_teardown w)
     (chan_close (lt_io w)) (lt_reader w) (lt_writer w) false L2capPhase.Exited).

(** One datagram of the send task. *)
Definition send_task_poll (w : L2capTask) : option L2capTask :=
  if bc_open (lt_io w) then
    '(d, q) ← chan_pop (lt_io w);
    match write_framed_datagram d (lt_writer w) with
    | (None, wr) => Some (set_lt_send q wr w)
    | (Some _, wr) => Some (notify_waiters (set_lt_send (chan_close q) wr w))
    end
  else None.

(** One frame of the receive task. *)
Definition recv_task_poll (now : Instant) (open : bool) (w : L2capTask)
    : option (list Effect.t * L2capTask) :=
  if lt_recv_alive w then
    match read_framed_datagram (lt_reader w) with
    | (inr (Some data), r) =>
        if decide (data = []) then
          Some ([Effect.Bump now; Effect.EmptyFrame], set_lt_recv r true w)
        else if open then
          Some ([Effect.Bump now; Effect.Incoming (mkIncomingPacket device_id stable_conn_id data)],
                set_lt_recv r true w)
        else Some ([Effect.Bump now], notify_waiters (set_lt_recv r false w))
    | (_, r) => Some ([], notify_waiters (set_lt_recv r false w))
    end
  else None.

Definition l2cap_exec (now : Instant) (ev : L2capEvent.t) (w : L2capTask)
    : option (list Effect.t * L2capTask) :=
  match ev, lt_phase w with
  | _, L2capPhase.Exited => None
  | L2capEvent.Enter, L2capPhase.Starting =>
      Some ([], set_lt_phase (L2capPhase.Select false) w)
  | L2capEvent.Outbound, L2capPhase.Select _ =>
      match chan_pop (lt_outbound w) with
      | Some (s, q) =>
          let w := set_lt_outbound q w in
          if decide (ps_datagram s = [])
          then Some ([Effect.EmptyFrame; Effect.Wake s], set_lt_phase (L2capPhase.Select false) w)
          else Some ([], set_lt_phase (L2capPhase.Forwarding s) w)
      | None => if lt_senders w then None else Some (l2cap_exit w)
      end
  | L2capEvent.Forward, L2capPhase.Forwarding s =>
      if bc_open (lt_io w) then
        if chan_full (lt_io w) then None
        else Some ([Effect.Wake s],
               set_lt_phase (L2capPhase.Select false)
                 (set_lt_send (chan_push (ps_datagram s) (lt_io w)) (lt_writer w) w))
      else Some ([Effect.Wake s], set_lt_phase L2capPhase.Reporting w)
  | L2capEvent.Done, L2capPhase.Select true => Some ([], set_lt_phase L2capPhase.Reporting w)
  | L2capEvent.Report open, L2capPhase.Reporting =>
      let '(lost, w) := l2cap_exit w in
      Some ((if open : bool
             then [Effect.Registry (PeerCommand.Stalled device_id StallCause.LinkDead)] else [])
            ++ lost, w)
  | L2capEvent.SendTask, _ => w ← send_task_poll w; Some ([], w)
  | L2capEvent.RecvTask open, _ => recv_task_poll now open w
  | _, _ => None
  end.

(** ** The supervisor *)

Record WorkerSet := mkWorkerSet {
  ws_gatt : option GattTask;
  ws_l2cap : option L2capTask;
}.

Definition is_empty (ws : WorkerSet) : bool :=
  match ws_gatt ws, ws_l2cap ws with None, None => true | _, _ => false end.
Definition set_gatt (g : option GattTask) (ws : WorkerSet) : WorkerSet :=
  mkWorkerSet g (ws_l2cap ws).
Definition set_l2cap (w : option L2capTask) (ws : WorkerSet) : WorkerSet :=
  mkWorkerSet (ws_gatt ws) w.

Record Pipe := mkPipe {
  pp_sup : Sup.t;
  pp_workers : WorkerSet;
  pp_effects : list Effect.t;
}.

Definition emit (es : list Effect.t) (p : Pipe) : Pipe :=
  mkPipe (pp_sup p) (pp_workers p) (pp_effects p ++ es).

(** The beginning of [run_data_pipe]. *)
Definition run_data_pipe (now : Instant) (initial_path : ConnectPath.t)
    (initial_l2cap : option L2capChannel) : Pipe :=
  match initial_path, initial_l2cap with
  | ConnectPath.Gatt, _ =>
      mkPipe Sup.Select (mkWorkerSet (Some (spawn_gatt_worker now)) None) []
  | ConnectPath.L2cap, None => mkPipe Sup.Returned (mkWorkerSet None None) []
  | ConnectPath.L2cap, Some ch =>
      mkPipe Sup.Select (mkWorkerSet None (Some (spawn_l2cap_worker ch))) []
  end.

(** What [teardown_gatt_worker] and [teardown_l2cap_worker] do before they wait
    for the task. *)
Definition signal_gatt (g : GattTask) : GattTask :=
  mkGattTask (gt_outbound g) (gt_inbound g) false true true (gt_channel g) (gt_taken g)
    (gt_loop g) (gt_phase g).
Definition signal_l2cap (w : L2capTask) : L2capTask :=
  mkL2capTask (lt_outbound w) false true (lt_io w) (lt_reader w) (lt_writer w)
    (lt_recv_alive w) (lt_phase w).

(** [timeout(.., &mut handle)]: the task is over ([inr]), or the deadline has
    passed and it is aborted. *)
Definition await_gatt (now deadline : Instant) (g : GattTask) : option (list Effect.t) :=
  match gt_phase g with
  | GattPhase.Exited => Some []
  | _ => if deadline <=? now then Some (gatt_exit g).1 else None
  end.
Definition await_l2cap (now deadline : Instant) (w : L2capTask) : option (list Effect.t) :=
  match lt_phase w with
  | L2capPhase.Exited => Some []
  | _ => if deadline <=? now then Some (l2cap_exit w).1 else None
  end.

(** [teardown_worker_set] from the L2CAP worker on, and as a whole. *)
Definition tear_l2cap (now : Instant) (p : Pipe) : Pipe :=
  match ws_l2cap (pp_workers p) with
  | Some w => mkPipe (Sup.TearingL2cap (now + L2CAP_HANDOVER_TIMEOUT))
                (set_l2cap (Some (signal_l2cap w)) (pp_workers p)) (pp_effects p)
  | None => mkPipe Sup.Returned (pp_workers p) (pp_effects p)
  end.
Definition teardown_worker_set (now : Instant) (p : Pipe) : Pipe :=
  match ws_gatt (pp_workers p) with
  | Some g => mkPipe (Sup.TearingGatt (now + L2CAP_HANDOVER_TIMEOUT))
                (set_gatt (Some (signal_gatt g)) (pp_workers p)) (pp_effects p)
  | None => tear_l2cap now p
  end.

(** The end of [forward_outbound], the fallback to GATT, and what the supervisor
    does after it. *)
Definition fall_back (now : Instant) (s : PendingSend) (p : Pipe) : Pipe :=
  let '(ws, es) :=
    match ws_gatt (pp_workers p) with
    | Some g =>
        match bounded_try_send (gt_outbound g) s with
        | (TrySend.Ok, q) => (set_gatt (Some (set_gt_outbound q g)) (pp_workers p), [])
        | (TrySend.Closed s, _) => (set_gatt None (pp_workers p), [Effect.Wake s])
        | (TrySend.Full s, _) => (pp_workers p, [Effect.Wake s])
        end
    | None => (pp_workers p, [Effect.Wake s])
    end in
  let p := mkPipe Sup.Select ws (pp_effects p ++ es) in
  if is_empty ws then teardown_worker_set now p else p.

(** The beginning of [forward_outbound]. *)
Definition forward_outbound (now : Instant) (s : PendingSend) (p : Pipe) : Pipe :=
  match ws_l2cap (pp_workers p) with
  | Some _ =>
      mkPipe (Sup.Offering s (now + L2CAP_HANDOVER_TIMEOUT)) (pp_workers p) (pp_effects p)
  | None => fall_back now s p
  end.

Definition forward_inbound_gatt (bs : Bytes) (ws : WorkerSet) : WorkerSet :=
  match ws_gatt ws with
  | None => ws
  | Some g =>
      match bounded_try_send (gt_inbound g) bs with
      | (TrySend.Ok, q) => set_gatt (Some (set_gt_inbound q g)) ws
      | (TrySend.Closed _, _) => set_gatt None ws
      | (TrySend.Full _, _) => ws
      end
  end.

Definition evict (now : Instant) (s : PendingSend) (wedged : bool) (w : L2capTask) (p : Pipe)
    : Pipe :=
  mkPipe (Sup.Evicting s wedged (now + L2CAP_HANDOVER_TIMEOUT))
    (set_l2cap (Some (signal_l2cap w)) (pp_workers p)) (pp_effects p).

(** The awaits of the supervisor outside its [select!]; [open]: the registry
    still receives. *)
Definition sup_poll (now : Instant) (open : bool) (p : Pipe) : option Pipe :=
  match pp_sup p with
  | Sup.Offering s deadline =>
      w ← ws_l2cap (pp_workers p);
      match bounded_try_send (lt_outbound w) s with
      | (TrySend.Ok, q) =>
          Some (mkPipe Sup.Select (set_l2cap (Some (set_lt_outbound q w)) (pp_workers p))
                  (pp_effects p))
      | (TrySend.Closed s, _) => Some (evict now s false w p)
      | (TrySend.Full s, _) => if deadline <=? now then Some (evict now s true w p) else None
      end
  | Sup.Evicting s wedged deadline =>
      w ← ws_l2cap (pp_workers p);
      es ← await_l2cap now deadline w;
      let p := emit es (mkPipe (Sup.Complaining s) (set_l2cap None (pp_workers p)) (pp_effects p)) in
      Some (if wedged : bool then p else fall_back now s p)
  | Sup.Complaining s =>
      Some (fall_back now s
        (emit (if open then [Effect.Registry (PeerCommand.L2capHandoverTimeout device_id)] else [])
           p))
  | Sup.TearingGatt deadline =>
      g ← ws_gatt (pp_workers p);
      es ← await_gatt now deadline g;
      Some (tear_l2cap now (emit es (mkPipe (pp_sup p) (set_gatt None (pp_workers p))
                                       (pp_effects p))))
  | Sup.TearingL2cap deadline =>
      w ← ws_l2cap (pp_workers p);
      es ← await_l2cap now deadline w;
      Some (emit es (mkPipe Sup.Returned (set_l2cap None (pp_workers p)) (pp_effects p)))
  | Sup.Select | Sup.Returned => None
  end.

(** ** The pipe *)

Definition is_sup_select (s : Sup.t) : bool :=
  match s with Sup.Select => true | _ => false end.

Definition pipe_exec (now : Instant) (ev : PipeEvent.t) (p : Pipe) : option Pipe :=
  match ev with
  | PipeEvent.Outbound o =>
      if is_sup_select (pp_sup p) then
        Some match o with
             | Some s => forward_outbound now s p
             | None => teardown_worker_set now p
             end
      else None
  | PipeEvent.Inbound o =>
      if is_sup_select (pp_sup p) then
        Some match o with
             | Some bs => mkPipe Sup.Select (forward_inbound_gatt bs (pp_workers p)) (pp_effects p)
             | None => teardown_worker_set now p
             end
      else None
  | PipeEvent.AddL2cap o =>
      if is_sup_select (pp_sup p) then
        Some match o, ws_l2cap (pp_workers p) with
             | Some ch, None =>
                 mkPipe Sup.Select (set_l2cap (Some (spawn_l2cap_worker ch)) (pp_workers p))
                   (pp_effects p)
             | _, _ => p
             end
      else None
  | PipeEvent.Poll open => sup_poll now open p
  | PipeEvent.Gatt ev =>
      g ← ws_gatt (pp_workers p);
      '(es, g) ← gatt_exec now ev g;
      Some (emit es (mkPipe (pp_sup p) (set_gatt (Some g) (pp_workers p)) (pp_effects p)))
  | PipeEvent.L2cap ev =>
      w ← ws_l2cap (pp_workers p);
      '(es, w) ← l2cap_exec now ev w;
      Some (emit es (mkPipe (pp_sup p) (set_l2cap (Some w) (pp_workers p)) (pp_effects p)))
  end.

(** An interleaving, with the instant of every poll. *)
Fixpoint pipe_run (evs : list (Instant * PipeEvent.t)) (p : Pipe) : option Pipe :=
  match evs with
  | [] => Some p
  | (now, ev) :: evs => p ← pipe_exec now ev p; pipe_run evs p
  end.
End Pipe.
