(* ===== verification/PipeFacts.v ===== *)
(** * PipeFacts: what the data pipe guarantees ([transport/pipe.rs])

    Every outbound datagram is accounted for, workers never outlive the
    supervisor, a path is reported dead only when it is, and the channels and
    chunk sizes stay in range.  Two runs show where the tasks can fail each
    other: a GATT worker that waits for itself, and an L2CAP worker that misses
    the end of its receive task. *)

From S2P Require Import Prelude Peer Dedup Mtu Routing L2cap Reliable SendLoop Pipe.
Open Scope Z_scope.

#[global] Instance PendingSend_eq_dec : EqDecision PendingSend.
Proof. solve_decision. Defined.

(** ** Accounting for sends *)

Definition woken_sends : list Effect.t -> list PendingSend :=
  omap (fun e => match e with Effect.Wake s => Some s | _ => None end).
Definition lost_sends : list Effect.t -> list PendingSend :=
  omap (fun e => match e with Effect.Lost s => Some s | _ => None end).
Definition offered_by (ev : PipeEvent.t) : list PendingSend :=
  match ev with PipeEvent.Outbound (Some s) => [s] | _ => [] end.
Definition offered (evs : list (Instant * PipeEvent.t)) : list PendingSend :=
  evs ≫= fun e => offered_by e.2.

Definition sup_held (s : Sup.t) : list PendingSend :=
  match s with
  | Sup.Offering s _ | Sup.Evicting s _ _ | Sup.Complaining s => [s]
  | _ => []
  end.
Definition gatt_held (g : GattTask) : list PendingSend := bc_items (gt_outbound g).
Definition workers_held (ws : WorkerSet) : list PendingSend :=
  from_option gatt_held [] (ws_gatt ws) ++ from_option l2cap_held [] (ws_l2cap ws).
(** The sends the pipe has neither released nor dropped. *)
Definition held (p : Pipe) : list PendingSend :=
  sup_held (pp_sup p) ++ workers_held (pp_workers p).

(** Occurrences of [x]; permutations are equal counts. *)
Definition occ (x : PendingSend) (l : list PendingSend) : nat :=
  count_occ (decide_rel (=)) l x.
Lemma occ_app x l k : occ x (l ++ k) = (occ x l + occ x k)%nat.
Proof. apply count_occ_app. Qed.
Lemma occ_nil x : occ x [] = 0%nat.
Proof. done. Qed.
Lemma occ_cons x y l : occ x (y :: l) = (occ x [y] + occ x l)%nat.
Proof. apply (occ_app x [y] l). Qed.
Lemma lost_Lost l : lost_sends (Effect.Lost <$> l) = l.
Proof. unfold lost_sends. induction l; [done|]. cbn. by f_equal. Qed.
Lemma woken_Lost l : woken_sends (Effect.Lost <$> l) = [].
Proof. unfold woken_sends. by induction l. Qed.
Lemma woken_Write r l : woken_sends (Effect.Write r <$> l) = [].
Proof. unfold woken_sends. by induction l. Qed.
Lemma lost_Write r l : lost_sends (Effect.Write r <$> l) = [].
Proof. unfold lost_sends. by induction l. Qed.

(** What is settled or held, counted. *)
Definition total (x : PendingSend) (es : list Effect.t) (l : list PendingSend) : nat :=
  (occ x (woken_sends es) + occ x (lost_sends es) + occ x l)%nat.
Lemma total_app x es es' l : total x (es ++ es') l = (total x es [] + total x es' l)%nat.
Proof. unfold total, woken_sends, lost_sends. rewrite !omap_app, !occ_app, occ_nil. lia. Qed.
Lemma total_held x es l : total x es l = (total x es [] + occ x l)%nat.
Proof. unfold total. rewrite occ_nil. lia. Qed.
(** Effects that settle no send. *)
Definition quiet (es : list Effect.t) : Prop := woken_sends es = [] /\ lost_sends es = [].
Lemma total_quiet x es l : quiet es -> total x es l = occ x l.
Proof. intros [Hw Hl]. unfold total. by rewrite Hw, Hl. Qed.
Lemma quiet_write r l : quiet (Effect.Write r <$> l).
Proof. split; [apply woken_Write|apply lost_Write]. Qed.
Lemma total_wake x s l : total x [Effect.Wake s] l = occ x (s :: l).
Proof. rewrite occ_cons. unfold total, woken_sends, lost_sends. cbn [omap list_omap].
  rewrite occ_nil. lia. Qed.
Lemma total_lost x l : total x (Effect.Lost <$> l) [] = occ x l.
Proof. unfold total. rewrite woken_Lost, lost_Lost, occ_nil. lia. Qed.

(** A task that is over receives nothing and holds nothing; a running one does
    receive. *)
Definition gatt_over (g : GattTask) : bool :=
  match gt_phase g with GattPhase.Exited => true | _ => false end.
Definition l2cap_over (w : L2capTask) : bool :=
  match lt_phase w with L2capPhase.Exited => true | _ => false end.
Definition over_ok {A} (over : bool) (q : BoundedChan A) (l : list A) : Prop :=
  bc_open q = negb over /\ (over = true -> l = []).
Definition gatt_ok (g : GattTask) : Prop :=
  over_ok (gatt_over g) (gt_outbound g) (gatt_held g) /\ bc_open (gt_inbound g) = negb (gatt_over g).
Definition l2cap_ok (w : L2capTask) : Prop := over_ok (l2cap_over w) (lt_outbound w) (l2cap_held w).
Definition workers_ok (ws : WorkerSet) : Prop :=
  from_option gatt_ok True (ws_gatt ws) /\ from_option l2cap_ok True (ws_l2cap ws).

Lemma chan_pop_spec {A} (q q' : BoundedChan A) x :
  chan_pop q = Some (x, q') -> bc_items q = x :: bc_items q' /\ bc_open q' = bc_open q /\
    bc_cap q' = bc_cap q.
Proof. unfold chan_pop. destruct (bc_items q); [done|]. by intros [= -> <-]. Qed.

(** ** The transitions of the workers

    [gatt_exec] and [l2cap_exec] by cases. *)

Section Moves.
Context (dev : DeviceId) (conn : StableConnId) (role : ConnectRole.t).

Definition stalled_report (open : bool) : list Effect.t :=
  if open then [Effect.Registry (PeerCommand.Stalled dev StallCause.LinkDead)] else [].

Inductive gatt_move (now : Instant) (g : GattTask) : list Effect.t -> GattTask -> Prop :=
| gm_take s q ok c :
    gt_phase g = GattPhase.Select -> chan_pop (gt_outbound g) = Some (s, q) ->
    enqueue_datagram (ps_datagram s) (gt_channel g) = (ok, c) ->
    gatt_move now g [Effect.Wake s] (set_gt_channel c (set_gt_outbound q g))
| gm_fragment bs q :
    gt_phase g = GattPhase.Select -> chan_pop (gt_inbound g) = Some (bs, q) ->
    (length (Reliable.delivered (receive_fragment now bs (gt_channel g))) - gt_taken g
       <= DATAGRAM_CAPACITY)%nat ->
    gatt_move now g [] (set_gt_channel (receive_fragment now bs (gt_channel g))
                          (set_gt_inbound q g))
| gm_stuck bs q :
    gt_phase g = GattPhase.Select -> chan_pop (gt_inbound g) = Some (bs, q) ->
    (DATAGRAM_CAPACITY
       < length (Reliable.delivered (receive_fragment now bs (gt_channel g))) - gt_taken g)%nat ->
    gatt_move now g [] (set_gt_phase GattPhase.Stuck (set_gt_inbound q g))
| gm_closed :
    gt_phase g = GattPhase.Select -> gt_senders g = false -> gatt_move now g [] (gatt_break g)
| gm_shutdown :
    gt_phase g = GattPhase.Select -> gt_shutdown g = true ->
    gatt_move now g [] (gatt_break (mkGattTask (gt_outbound g) (gt_inbound g) (gt_senders g)
      (gt_shutdown g) true (gt_channel g) (gt_taken g) (gt_loop g) (gt_phase g)))
| gm_datagram d :
    gt_phase g = GattPhase.Select -> Reliable.delivered (gt_channel g) !! gt_taken g = Some d ->
    gatt_move now g [Effect.Bump now] (set_gt_phase (GattPhase.Delivering d) (take_datagram g))
| gm_deliver d (open : bool) :
    gt_phase g = GattPhase.Delivering d ->
    gatt_move now g (if open then [Effect.Incoming (mkIncomingPacket dev conn d)] else [])
      (set_gt_phase GattPhase.Select g)
| gm_returned :
    gt_phase g = GattPhase.Select -> sl_phase (gt_loop g) = LoopPhase.Returned ->
    gatt_move now g [] (set_gt_phase GattPhase.Reporting g)
| gm_exit :
    (gt_phase g = GattPhase.Select /\ sl_phase (gt_loop g) = LoopPhase.Panicked \/
     gt_phase g = GattPhase.Joining /\ loop_done (gt_loop g) = true) ->
    gatt_move now g (gatt_exit g).1 (gatt_exit g).2
| gm_report (open : bool) :
    gt_phase g = GattPhase.Reporting ->
    gatt_move now g (stalled_report open ++ (gatt_exit g).1) (gatt_exit g).2
| gm_loop w m l c :
    gt_phase g <> GattPhase.Exited ->
    (gt_phase g = GattPhase.Stuck -> takes_lock now (gt_loop g) (gt_channel g) = false) ->
    loop_poll now w (gt_loop g) (gt_channel g) = Some (m, l, c) ->
    gatt_move now g (Effect.Write role <$> option_list m) (set_gt_channel c (set_gt_loop l g))
| gm_resolve mtu_at now_at fuel start n :
    gt_phase g <> GattPhase.Exited -> resolve_chunk_size mtu_at now_at fuel start = Some n ->
    gatt_move now g [] (set_gt_channel (set_chunk_size n (gt_channel g)) g).

Lemma gatt_exec_move now ev g es g' :
  gatt_exec dev conn role now ev g = Some (es, g') -> gatt_move now g es g'.
Proof.
  unfold gatt_exec. intros E.
  destruct ev as [| | | | |o|o|w|mtu_at now_at fuel start].
  - destruct (gt_phase g) eqn:Ep; try done. destruct (chan_pop (gt_outbound g)) as [[s q]|] eqn:Eq.
    + destruct (enqueue_datagram _ _) eqn:Ee. simplify_eq. by eapply gm_take.
    + destruct (gt_senders g) eqn:Es; simplify_eq. by apply gm_closed.
  - destruct (gt_phase g) eqn:Ep; try done. destruct (chan_pop (gt_inbound g)) as [[s q]|] eqn:Eq.
    + cbn zeta in E. destruct (Nat.leb_spec (length (Reliable.delivered
        (receive_fragment now s (gt_channel g))) - gt_taken g) DATAGRAM_CAPACITY); simplify_eq.
      * by eapply gm_fragment.
      * by eapply gm_stuck.
    + destruct (gt_senders g) eqn:Es; simplify_eq. by apply gm_closed.
  - destruct (gt_phase g) eqn:Ep; try done.
    destruct (Reliable.delivered _ !! _) eqn:Ed; simplify_eq. by apply gm_datagram.
  - destruct (gt_phase g) eqn:Ep; try done.
    destruct (gt_shutdown g) eqn:Es; simplify_eq. rewrite <- Es, <- Ep at 1. by apply gm_shutdown.
  - destruct (gt_phase g) eqn:Ep; try done.
    + destruct (sl_phase (gt_loop g)) eqn:El; try done.
      * simplify_eq. by apply gm_returned.
      * injection E as <- <-. apply gm_exit. auto.
    + destruct (loop_done (gt_loop g)) eqn:El; try done. injection E as <- <-.
      apply gm_exit. auto.
  - destruct (gt_phase g) eqn:Ep; try done. simplify_eq. by apply gm_deliver.
  - destruct (gt_phase g) eqn:Ep; try done. injection E as <- <-. by apply (gm_report now g o).
  - assert (gt_phase g <> GattPhase.Exited) as Hx by (by intros E0; rewrite E0 in E).
    assert ((gt_phase g = GattPhase.Stuck -> takes_lock now (gt_loop g) (gt_channel g) = false) /\
      exists m l c, loop_poll now w (gt_loop g) (gt_channel g) = Some (m, l, c) /\
        es = Effect.Write role <$> option_list m /\ g' = set_gt_channel c (set_gt_loop l g))
      as (Hs & m & l & c & Hl & -> & ->).
    { destruct (gt_phase g); try done; cbn [andb] in E;
        try (destruct (takes_lock _ _ _); [done|]);
        (split; [done|]); apply bind_Some in E as ([[m l] c] & Hl & E); simplify_eq; eauto 6. }
    by eapply gm_loop.
  - assert (gt_phase g <> GattPhase.Exited /\ exists n,
      resolve_chunk_size mtu_at now_at fuel start = Some n /\
      es = [] /\ g' = set_gt_channel (set_chunk_size n (gt_channel g)) g) as (Hx & n & Hn & -> & ->).
    { destruct (gt_phase g); try done; (split; [done|]);
        apply bind_Some in E as (n & Hn & E); simplify_eq; eauto. }
    by eapply gm_resolve.
Qed.

Inductive l2cap_move (now : Instant) (w : L2capTask) : list Effect.t -> L2capTask -> Prop :=
| lm_enter :
    lt_phase w = L2capPhase.Starting ->
    l2cap_move now w [] (set_lt_phase (L2capPhase.Select false) w)
| lm_empty n s q :
    lt_phase w = L2capPhase.Select n -> chan_pop (lt_outbound w) = Some (s, q) ->
    ps_datagram s = [] ->
    l2cap_move now w [Effect.EmptyFrame; Effect.Wake s]
      (set_lt_phase (L2capPhase.Select false) (set_lt_outbound q w))
| lm_take n s q :
    lt_phase w = L2capPhase.Select n -> chan_pop (lt_outbound w) = Some (s, q) ->
    ps_datagram s <> [] ->
    l2cap_move now w [] (set_lt_phase (L2capPhase.Forwarding s) (set_lt_outbound q w))
| lm_closed n :
    lt_phase w = L2capPhase.Select n -> lt_senders w = false -> bc_items (lt_outbound w) = [] ->
    l2cap_move now w (l2cap_exit w).1 (l2cap_exit w).2
| lm_forward s :
    lt_phase w = L2capPhase.Forwarding s -> bc_open (lt_io w) = true ->
    chan_full (lt_io w) = false ->
    l2cap_move now w [Effect.Wake s] (set_lt_phase (L2capPhase.Select false)
      (set_lt_send (chan_push (ps_datagram s) (lt_io w)) (lt_writer w) w))
| lm_refused s :
    lt_phase w = L2capPhase.Forwarding s -> bc_open (lt_io w) = false ->
    l2cap_move now w [Effect.Wake s] (set_lt_phase L2capPhase.Reporting w)
| lm_done :
    lt_phase w = L2capPhase.Select true ->
    l2cap_move now w [] (set_lt_phase L2capPhase.Reporting w)
| lm_report (open : bool) :
    lt_phase w = L2capPhase.Reporting ->
    l2cap_move now w (stalled_report open ++ (l2cap_exit w).1) (l2cap_exit w).2
| lm_written d q wr :
    lt_phase w <> L2capPhase.Exited -> bc_open (lt_io w) = true ->
    chan_pop (lt_io w) = Some (d, q) -> write_framed_datagram d (lt_writer w) = (None, wr) ->
    l2cap_move now w [] (set_lt_send q wr w)
| lm_unwritten d q e wr :
    lt_phase w <> L2capPhase.Exited -> bc_open (lt_io w) = true ->
    chan_pop (lt_io w) = Some (d, q) -> write_framed_datagram d (lt_writer w) = (Some e, wr) ->
    l2cap_move now w [] (notify_waiters (set_lt_send (chan_close q) wr w))
| lm_frame data r es :
    lt_phase w <> L2capPhase.Exited -> lt_recv_alive w = true ->
    read_framed_datagram (lt_reader w) = (inr (Some data), r) ->
    (data = [] /\ es = [Effect.Bump now; Effect.EmptyFrame] \/
     data <> [] /\ es = [Effect.Bump now; Effect.Incoming (mkIncomingPacket dev conn data)]) ->
    l2cap_move now w es (set_lt_recv r true w)
| lm_deaf es r :
    lt_phase w <> L2capPhase.Exited -> lt_recv_alive w = true ->
    (read_framed_datagram (lt_reader w)).2 = r -> (es = [] \/ es = [Effect.Bump now]) ->
    l2cap_move now w es (notify_waiters (set_lt_recv r false w)).

Lemma l2cap_exec_move now ev w es w' :
  l2cap_exec dev conn now ev w = Some (es, w') -> l2cap_move now w es w'.
Proof.
  unfold l2cap_exec. intros E.
  destruct ev as [| | | |o| |o]; try (destruct (lt_phase w) as [|n|s| |] eqn:Ep; try done; []).
  - simplify_eq. by apply lm_enter.
  - destruct (chan_pop (lt_outbound w)) as [[s q]|] eqn:Eq.
    + destruct (decide (ps_datagram s = [])); simplify_eq; [by eapply lm_empty|by eapply lm_take].
    + destruct (lt_senders w) eqn:Es; [done|]. injection E as <- <-. eapply lm_closed; [done..|].
      unfold chan_pop in Eq. by destruct (bc_items (lt_outbound w)).
  - destruct (bc_open (lt_io w)) eqn:Eo; [destruct (chan_full (lt_io w)) eqn:Ef|]; simplify_eq.
    + by apply lm_forward.
    + by apply lm_refused.
  - destruct n; simplify_eq. by apply lm_done.
  - injection E as <- <-. by apply (lm_report now w o).
  - assert (lt_phase w <> L2capPhase.Exited /\ es = [] /\ send_task_poll w = Some w')
      as (Hx & -> & Hp).
    { destruct (lt_phase w); try done; apply bind_Some in E as (? & ? & ?); by simplify_eq. }
    unfold send_task_poll in Hp. destruct (bc_open (lt_io w)) eqn:Eo; [|done].
    apply bind_Some in Hp as ([d q] & Eq & Hp).
    destruct (write_framed_datagram d (lt_writer w)) as [[e|] wr] eqn:Ew; simplify_eq.
    + by eapply lm_unwritten.
    + by eapply lm_written.
  - assert (lt_phase w <> L2capPhase.Exited /\ recv_task_poll dev conn now o w = Some (es, w'))
      as (Hx & Hp) by (by destruct (lt_phase w)).
    unfold recv_task_poll in Hp. destruct (lt_recv_alive w) eqn:Ea; [|done].
    destruct (read_framed_datagram (lt_reader w)) as [[e|[data|]] r] eqn:Er.
    2: destruct (decide (data = [])); [|destruct o].
    all: simplify_eq; first [by eapply lm_frame; eauto
                            |by apply lm_deaf; rewrite ?Er; auto].
Qed.
End Moves.

(** A step of a worker settles what it no longer holds, and keeps the worker
    well-formed. *)
Lemma gatt_move_total dev conn role now g es g' :
  gatt_move dev conn role now g es g' -> gatt_ok g ->
  gatt_ok g' /\ forall x, total x es (gatt_held g') = occ x (gatt_held g).
Proof.
  unfold gatt_ok, over_ok, gatt_held, gatt_over.
  intros Hm [[Ho Hi] Hn].
  destruct Hm as [s q ok c Hp Hq _|bs q Hp Hq _|bs q Hp Hq _| | | |d o Hp| |Hp|o Hp|w m l c Hp _ _|];
    cbn -[total occ gatt_exit];
    try match goal with H : gt_phase g = _ |- _ => rewrite H in * end; cbn -[total occ gatt_exit] in *;
    try (split; [done|]; intros x; by apply total_quiet).
  - apply chan_pop_spec in Hq as (Hq & Hop & _). split; [by rewrite Hop|].
    intros x. by rewrite total_wake, Hq.
  - apply chan_pop_spec in Hq as (Hq & Hop & _). split; [by rewrite Hop|].
    intros x. by apply total_quiet.
  - apply chan_pop_spec in Hq as (Hq & Hop & _). split; [by rewrite Hop|].
    intros x. by apply total_quiet.
  - split; [done|]. intros x. apply total_quiet. by destruct o.
  - split; [done|]. intros x. cbn -[total occ]. by rewrite total_lost.
  - split; [done|]. intros x. cbn -[total occ]. rewrite total_app, total_lost, total_quiet; [done|].
    by destruct o.
  - split; [done|]. intros x. apply total_quiet, quiet_write.
Qed.

Lemma notify_keeps w :
  lt_outbound (notify_waiters w) = lt_outbound w /\ l2cap_held (notify_waiters w) = l2cap_held w /\
  l2cap_over (notify_waiters w) = l2cap_over w.
Proof. unfold notify_waiters, l2cap_held, l2cap_over. by destruct (lt_phase w) eqn:E; cbn; rewrite ?E. Qed.

Lemma l2cap_move_total dev conn now w es w' :
  l2cap_move dev conn now w es w' -> l2cap_ok w ->
  l2cap_ok w' /\ forall x, total x es (l2cap_held w') = occ x (l2cap_held w).
Proof.
  unfold l2cap_ok, over_ok. intros Hm [Ho Hi].
  destruct Hm as [Hp|n s q Hp Hq Hd|n s q Hp Hq Hd|n Hp _ _|s Hp _ _|s Hp _|Hp|o Hp
                 |d q wr Hp _ _ _|d q e wr Hp _ _ _|data r es Hp _ _ Hes|es r Hp _ _ Hes];
    try match goal with H : chan_pop _ = Some _ |- _ =>
      apply chan_pop_spec in H as (Hq & Hop & _) end;
    try (match goal with |- context [notify_waiters ?w1] =>
      destruct (notify_keeps w1) as (-> & -> & ->) end);
    try (change (l2cap_over (set_lt_send q wr w)) with (l2cap_over w));
    unfold l2cap_over, l2cap_held in *; cbn -[total occ l2cap_exit] in *; rewrite ?Hp in *;
    cbn -[total occ l2cap_exit] in *.
  - split; [done|]. intros x. by apply total_quiet.
  - split; [by rewrite Hop|]. intros x. rewrite Hq. apply (total_wake x s).
  - split; [by rewrite Hop|]. intros x. by rewrite Hq, total_quiet.
  - split; [done|]. intros x. cbn -[total occ]. rewrite total_lost. unfold l2cap_held. by rewrite Hp.
  - split; [done|]. intros x. apply total_wake.
  - split; [done|]. intros x. apply total_wake.
  - split; [done|]. intros x. by apply total_quiet.
  - split; [done|]. intros x. cbn -[total occ]. rewrite total_app, total_lost, total_quiet.
    + unfold l2cap_held. by rewrite Hp.
    + by destruct o.
  - split; [done|]. intros x. by apply total_quiet.
  - split; [done|]. intros x. by apply total_quiet.
  - split; [done|]. intros x. apply total_quiet. by destruct Hes as [[_ ->]|[_ ->]].
  - split; [done|]. intros x. apply total_quiet. by destruct Hes as [->| ->].
Qed.

(** ** The supervisor settles nothing twice *)

Section Pipe.
Context (dev : DeviceId) (conn : StableConnId) (role : ConnectRole.t).
Context (io_split : L2capChannel -> Reader * Writer).

(** What the sends of the workers and the effects amount to, and [s] besides. *)
Definition settles (p p' : Pipe) (extra : list PendingSend) : Prop :=
  workers_ok (pp_workers p') /\ forall x,
    total x (pp_effects p') (held p')
    = (total x (pp_effects p) (workers_held (pp_workers p)) + occ x extra)%nat.

Lemma try_send_cases {A} (q : BoundedChan A) x r q' :
  bounded_try_send q x = (r, q') ->
  (r = TrySend.Ok /\ bc_open q = true /\ (length (bc_items q) < bc_cap q)%nat /\ q' = chan_push x q)
  \/ (r = TrySend.Full x /\ bc_open q = true /\ q' = q)
  \/ (r = TrySend.Closed x /\ bc_open q = false /\ q' = q).
Proof.
  unfold bounded_try_send, chan_push. destruct (bc_open q) eqn:Eo; [|intros [= <- <-]; auto].
  destruct (Nat.ltb_spec (length (bc_items q)) (bc_cap q)); intros [= <- <-]; auto.
Qed.

Lemma teardown_settles now p :
  workers_ok (pp_workers p) -> settles p (teardown_worker_set now p) [].
Proof.
  intros [Hg Hl]. unfold teardown_worker_set, tear_l2cap, settles, held, workers_held, workers_ok.
  destruct (ws_gatt (pp_workers p)) as [g|] eqn:Eg; cbn -[total occ] in *;
    [|destruct (ws_l2cap (pp_workers p)) as [w|] eqn:Ew]; cbn -[total occ] in *;
    rewrite ?Eg, ?Ew; (split; [by split|]); intros x; rewrite occ_nil, Nat.add_0_r; done.
Qed.

Lemma fall_back_settles now s p :
  workers_ok (pp_workers p) -> settles p (fall_back now s p) [s].
Proof.
  intros [Hg Hl].
  assert (exists ws es, workers_ok ws /\
    (forall x, total x es (workers_held ws) = (occ x (workers_held (pp_workers p)) + occ x [s])%nat)
    /\ fall_back now s p = let p' := mkPipe Sup.Select ws (pp_effects p ++ es) in
         if is_empty ws then teardown_worker_set now p' else p') as (ws & es & Hok & Ht & ->).
  { unfold fall_back. destruct (ws_gatt (pp_workers p)) as [g|] eqn:Eg.
    - cbn in Hg. destruct Hg as [[Ho Hi] Hn].
      destruct (bounded_try_send (gt_outbound g) s) as [r q] eqn:Er.
      apply try_send_cases in Er as [(-> & Hop & _ & ->)|[(-> & Hop & ->)|(-> & Hop & ->)]];
        eexists _, _; split_and!; try reflexivity.
      + split; [|done]. cbn. split; [|done]. split; [done|]. intros Ex. unfold gatt_over in *.
        cbn in *. rewrite Ex in Ho. by rewrite Hop in Ho.
      + intros x. rewrite total_quiet by done. unfold workers_held. cbn -[occ].
        rewrite Eg. cbn -[occ]. unfold gatt_held. cbn -[occ]. rewrite !occ_app. lia.
      + split; [|done]. rewrite Eg. by repeat split.
      + intros x. rewrite total_wake, occ_cons. lia.
      + by split.
      + intros x. rewrite total_wake, occ_cons. unfold workers_held. cbn -[occ]. rewrite Eg.
        cbn -[occ]. rewrite Hi, app_nil_l; [lia|]. rewrite Hop in Ho. by destruct (gatt_over g).
    - eexists _, _. split_and!; try reflexivity.
      + split; [|done]. by rewrite Eg.
      + intros x. rewrite total_wake, occ_cons. lia. }
  cbn zeta. destruct (is_empty ws).
  - destruct (teardown_settles now (mkPipe Sup.Select ws (pp_effects p ++ es)) Hok) as [H1 H2].
    split; [done|]. intros x. rewrite H2, occ_nil. cbn -[total occ].
    rewrite total_app, Ht, (total_held _ (pp_effects p) (workers_held _)). lia.
  - split; [done|]. intros x. unfold held. cbn -[total occ].
    rewrite total_app, Ht, (total_held _ (pp_effects p) (workers_held _)). lia.
Qed.

(** Awaiting a worker to its end settles all it held. *)
Lemma await_l2cap_total now dl w es :
  l2cap_ok w -> await_l2cap now dl w = Some es -> forall x, total x es [] = occ x (l2cap_held w).
Proof.
  intros [_ Hi] E x. unfold await_l2cap, l2cap_over in *.
  destruct (lt_phase w); try (destruct (dl <=? now); [|done]); injection E as <-;
    try (cbn -[total occ]; apply total_lost).
  by rewrite Hi.
Qed.
Lemma await_gatt_total now dl g es :
  gatt_ok g -> await_gatt now dl g = Some es -> forall x, total x es [] = occ x (gatt_held g).
Proof.
  intros [[_ Hi] _] E x. unfold await_gatt, gatt_over in *.
  destruct (gt_phase g); try (destruct (dl <=? now); [|done]); injection E as <-;
    try (cbn -[total occ]; apply total_lost).
  by rewrite Hi.
Qed.

Lemma signal_l2cap_ok w :
  l2cap_ok w -> l2cap_ok (signal_l2cap w) /\ l2cap_held (signal_l2cap w) = l2cap_held w.
Proof. done. Qed.

(** The workers' sends after a worker is replaced. *)
Lemma total_workers x es ws :
  total x es (workers_held ws)
  = (total x es [] + occ x (from_option gatt_held [] (ws_gatt ws))
     + occ x (from_option l2cap_held [] (ws_l2cap ws)))%nat.
Proof. rewrite total_held. unfold workers_held. rewrite occ_app. lia. Qed.

Lemma total_pipe x p :
  total x (pp_effects p) (held p)
  = (total x (pp_effects p) [] + occ x (sup_held (pp_sup p))
     + occ x (from_option gatt_held [] (ws_gatt (pp_workers p)))
     + occ x (from_option l2cap_held [] (ws_l2cap (pp_workers p))))%nat.
Proof. rewrite total_held. unfold held, workers_held. rewrite !occ_app. lia. Qed.

(** [p'] accounts for what [p] did and for [extra]. *)
Definition accounts (p p' : Pipe) (extra : list PendingSend) : Prop :=
  workers_ok (pp_workers p') /\ forall x,
    total x (pp_effects p') (held p') = (total x (pp_effects p) (held p) + occ x extra)%nat.

Lemma settles_accounts p0 p p' s extra :
  settles p p' s ->
  (forall x, total x (pp_effects p) (workers_held (pp_workers p)) + occ x s
     = total x (pp_effects p0) (held p0) + occ x extra)%nat ->
  accounts p0 p' extra.
Proof. intros [H1 H2] H3. split; [done|]. intros x. by rewrite H2, H3. Qed.

Lemma sup_poll_accounts now o p p' :
  workers_ok (pp_workers p) -> sup_poll dev now o p = Some p' -> accounts p p' [].
Proof.
  intros Hok E. pose proof Hok as [Hg Hl]. unfold sup_poll in E.
  destruct (pp_sup p) as [|s dl|s wedged dl|s|dl|dl|] eqn:Es; try done.
  - destruct (ws_l2cap (pp_workers p)) as [w|] eqn:Ew; [|done]. cbn in Hl, E.
    destruct (bounded_try_send (lt_outbound w) s) as [r q] eqn:Er.
    apply try_send_cases in Er as [(-> & Hop & _ & ->)|[(-> & Hop & ->)|(-> & Hop & ->)]].
    + simplify_eq. split.
      * split; [done|]. cbn. destruct Hl as [Ho Hi]. split; [done|].
        intros Ex. unfold l2cap_over in *. cbn in *. rewrite Ex in Ho. by rewrite Hop in Ho.
      * intros x. rewrite !total_pipe, Ew, Es. cbn -[total occ]. rewrite occ_nil.
        unfold l2cap_held. cbn -[occ total]. rewrite !occ_app. lia.
    + destruct (dl <=? now); [|done]. simplify_eq. split; [by split|].
      intros x. rewrite !total_pipe, Ew, Es. unfold l2cap_held. cbn -[total occ].
      rewrite occ_nil. lia.
    + simplify_eq. split; [by split|].
      intros x. rewrite !total_pipe, Ew, Es. unfold l2cap_held. cbn -[total occ].
      rewrite occ_nil. lia.
  - destruct (ws_l2cap (pp_workers p)) as [w|] eqn:Ew; [|done]. cbn in Hl, E.
    destruct (await_l2cap now dl w) as [es|] eqn:Ea; [|done]. cbn in E. simplify_eq.
    pose proof (await_l2cap_total _ _ _ _ Hl Ea) as Ht.
    set (p1 := emit es _). assert (workers_ok (pp_workers p1)) as Hok1 by by split.
    assert (forall x, total x (pp_effects p1) (workers_held (pp_workers p1)) + occ x [s]
      = total x (pp_effects p) (held p) + occ x [])%nat as Hp1.
    { intros x. rewrite total_pipe, Ew, Es, total_workers. cbn -[total occ].
      rewrite total_app, Ht, occ_nil. lia. }
    destruct wedged.
    + split; [done|]. intros x. rewrite <- Hp1, total_pipe, total_workers. cbn -[total occ]. lia.
    + by eapply settles_accounts; [apply fall_back_settles|].
  - simplify_eq. eapply settles_accounts; [by apply fall_back_settles|]. intros x.
    rewrite total_pipe, Es, total_workers. cbn -[total occ].
    rewrite total_app, (total_quiet x (if o then _ else _)), occ_nil by by destruct o. lia.
  - destruct (ws_gatt (pp_workers p)) as [g|] eqn:Eg; [|done]. cbn in Hg, E.
    destruct (await_gatt now dl g) as [es|] eqn:Ea; [|done]. cbn in E. simplify_eq.
    pose proof (await_gatt_total _ _ _ _ Hg Ea) as Ht. unfold tear_l2cap. cbn.
    destruct (ws_l2cap (pp_workers p)) as [w|] eqn:Ew; (split; [split; cbn; rewrite ?Ew; done|]);
      intros x; rewrite !total_pipe, Eg, Ew, Es; cbn -[total occ]; rewrite ?Ew;
      rewrite total_app, Ht, !occ_nil; unfold l2cap_held; cbn -[total occ]; lia.
  - destruct (ws_l2cap (pp_workers p)) as [w|] eqn:Ew; [|done]. cbn in Hl, E.
    destruct (await_l2cap now dl w) as [es|] eqn:Ea; [|done]. cbn in E. simplify_eq.
    pose proof (await_l2cap_total _ _ _ _ Hl Ea) as Ht. split; [by split|].
    intros x. rewrite !total_pipe, Ew, Es. cbn -[total occ]. rewrite total_app, Ht, !occ_nil. lia.
Qed.

Lemma pipe_exec_accounts now ev p p' :
  workers_ok (pp_workers p) -> pipe_exec dev conn role io_split now ev p = Some p' ->
  accounts p p' (offered_by ev).
Proof.
  intros Hok E. pose proof Hok as [Hg Hl].
  assert (accounts p p []) as Hrefl by (split; [done|]; intros x; rewrite occ_nil; lia).
  destruct ev as [o|o|o|o|ev|ev]; cbn [pipe_exec] in E.
  - destruct (pp_sup p) eqn:Es; try done. cbn in E. simplify_eq.
    assert (forall q, settles p q (offered_by (PipeEvent.Outbound o)) ->
      accounts p q (offered_by (PipeEvent.Outbound o))) as Hs.
    { intros q Hq. eapply settles_accounts; [exact Hq|]. intros x. unfold held. by rewrite Es. }
    destruct o as [s|]; [|by apply Hs, teardown_settles]. unfold forward_outbound.
    destruct (ws_l2cap (pp_workers p)) as [w|] eqn:Ew; [|by apply Hs, fall_back_settles].
    split; [split; cbn; by rewrite ?Ew|]. intros x. rewrite !total_pipe, Es. cbn -[total occ].
    rewrite occ_nil. lia.
  - destruct (pp_sup p) eqn:Es; try done. cbn in E. simplify_eq. destruct o as [bs|].
    2: { eapply settles_accounts; [by apply teardown_settles|]. intros x. unfold held.
         by rewrite Es. }
    unfold forward_inbound_gatt. destruct (ws_gatt (pp_workers p)) as [g|] eqn:Eg.
    2: { destruct p as [ps pw pe]; cbn in *; by subst. }
    cbn in Hg. destruct Hg as [[Ho Hi] Hn].
    destruct (bounded_try_send (gt_inbound g) bs) as [r q] eqn:Eq.
    apply try_send_cases in Eq as [(-> & Hop & _ & ->)|[(-> & Hop & ->)|(-> & Hop & ->)]].
    + split; [by repeat split|]. intros x. rewrite !total_pipe, Es, Eg. cbn -[total occ].
      rewrite occ_nil. unfold gatt_held. cbn -[occ total]. lia.
    + destruct p as [ps pw pe]; cbn in *; by subst.
    + split; [by split|]. intros x. rewrite !total_pipe, Es, Eg. cbn -[total occ].
      rewrite Hi; [rewrite occ_nil; lia|]. rewrite Hop in Hn. by destruct (gatt_over g).
  - destruct (pp_sup p) eqn:Es; try done. cbn in E. simplify_eq.
    destruct o as [ch|], (ws_l2cap (pp_workers p)) as [w|] eqn:Ew; try done.
    unfold spawn_l2cap_worker. destruct (io_split ch) as [rd wr]. split; [by split|].
    intros x. rewrite !total_pipe, Es, Ew. cbn -[total occ]. rewrite !occ_nil. lia.
  - by apply (sup_poll_accounts now o).
  - destruct (ws_gatt (pp_workers p)) as [g|] eqn:Eg; [|done]. cbn in E, Hg.
    apply bind_Some in E as ([es g'] & Em & E). simplify_eq.
    apply gatt_exec_move in Em. destruct (gatt_move_total _ _ _ _ _ _ _ Em Hg) as [Hg' Ht].
    split; [by split|]. intros x. rewrite !total_pipe, Eg. cbn -[total occ].
    specialize (Ht x). rewrite total_held in Ht. rewrite total_app, occ_nil. lia.
  - destruct (ws_l2cap (pp_workers p)) as [w|] eqn:Ew; [|done]. cbn in E, Hl.
    apply bind_Some in E as ([es w'] & Em & E). simplify_eq.
    apply l2cap_exec_move in Em. destruct (l2cap_move_total _ _ _ _ _ _ Em Hl) as [Hl' Ht].
    split; [by split|]. intros x. rewrite !total_pipe, Ew. cbn -[total occ].
    specialize (Ht x). rewrite total_held in Ht. rewrite total_app, occ_nil. lia.
Qed.

(** ** Runs *)

Abbreviation exec := (pipe_exec dev conn role io_split).
Abbreviation run := (pipe_run dev conn role io_split).
Abbreviation start := (run_data_pipe io_split).

Lemma pipe_run_snoc evs now ev p :
  run (evs ++ [(now, ev)]) p = (p' ← run evs p; exec now ev p').
Proof.
  revert p. induction evs as [|[t e] evs IH]; intros p; cbn.
  - by destruct (exec now ev p).
  - destruct (exec t e p); cbn; [apply IH|done].
Qed.

(** Induction on a run, from its start. *)
Lemma run_ind p0 (P : list (Instant * PipeEvent.t) -> Pipe -> Prop) :
  P [] p0 ->
  (forall evs now ev p p', run evs p0 = Some p -> P evs p -> exec now ev p = Some p' ->
     P (evs ++ [(now, ev)]) p') ->
  forall evs p, run evs p0 = Some p -> P evs p.
Proof.
  intros H0 Hs evs. induction evs as [|[now ev] evs IH] using rev_ind; intros p Hr.
  { by simplify_eq/=. }
  rewrite pipe_run_snoc in Hr. apply bind_Some in Hr as (p1 & Hr & He). eauto.
Qed.

Lemma start_ok now path ch :
  workers_ok (pp_workers (start now path ch)) /\ held (start now path ch) = [] /\
  pp_effects (start now path ch) = [].
Proof.
  destruct path, ch as [ch|]; cbn; try done. unfold spawn_l2cap_worker. by destruct (io_split ch).
Qed.

Lemma run_workers_ok now path ch evs p :
  run evs (start now path ch) = Some p -> workers_ok (pp_workers p).
Proof.
  revert evs p. apply run_ind; [apply start_ok|].
  intros evs t ev p p' _ Hok He. by eapply pipe_exec_accounts.
Qed.

(** What the supervisor is doing fits the workers it holds. *)
Definition sup_ok (p : Pipe) : Prop :=
  match pp_sup p with
  | Sup.Offering _ _ | Sup.Evicting _ _ _ => is_Some (ws_l2cap (pp_workers p))
  | Sup.TearingL2cap _ => is_Some (ws_l2cap (pp_workers p)) /\ ws_gatt (pp_workers p) = None
  | Sup.Complaining _ => ws_l2cap (pp_workers p) = None
  | Sup.TearingGatt _ => is_Some (ws_gatt (pp_workers p))
  | Sup.Returned => pp_workers p = mkWorkerSet None None
  | Sup.Select => True
  end.

Lemma tear_l2cap_ok now p : ws_gatt (pp_workers p) = None -> sup_ok (tear_l2cap now p).
Proof.
  unfold tear_l2cap, sup_ok. destruct (pp_workers p) as [g [w|]]; cbn; [eauto|by intros ->].
Qed.
Lemma teardown_ok now p : sup_ok (teardown_worker_set now p).
Proof.
  unfold teardown_worker_set. destruct (ws_gatt (pp_workers p)) eqn:E; [|by apply tear_l2cap_ok].
  unfold sup_ok. cbn. eauto.
Qed.
Lemma fall_back_ok now s p : sup_ok (fall_back now s p).
Proof.
  unfold fall_back. destruct (match ws_gatt _ with Some _ => _ | None => _ end) as [ws es].
  destruct (is_empty ws); [apply teardown_ok|done].
Qed.

Lemma exec_sup_ok now ev p p' : sup_ok p -> exec now ev p = Some p' -> sup_ok p'.
Proof.
  intros Hok E. destruct ev as [o|o|o|o|ev|ev]; cbn [pipe_exec] in E.
  - destruct (is_sup_select _); [|done]. simplify_eq. destruct o; [|apply teardown_ok].
    unfold forward_outbound. destruct (ws_l2cap (pp_workers p)) eqn:Ew; [|apply fall_back_ok].
    unfold sup_ok. cbn. rewrite Ew. eauto.
  - destruct (is_sup_select _); [|done]. simplify_eq. by destruct o; [|apply teardown_ok].
  - destruct (is_sup_select _); [|done]. simplify_eq.
    by destruct o, (ws_l2cap (pp_workers p)).
  - unfold sup_poll in E. destruct (pp_sup p) as [|s dl|s wedged dl|s|dl|dl|] eqn:Es; try done.
    + destruct (ws_l2cap (pp_workers p)) as [w|] eqn:Ew; [|done]. cbn in E.
      destruct (bounded_try_send (lt_outbound w) s) as [[|?|?] q]; simplify_eq;
        unfold sup_ok; cbn; eauto. destruct (dl <=? now); simplify_eq; cbn; eauto.
    + destruct (ws_l2cap (pp_workers p)) as [w|] eqn:Ew; [|done]. cbn in E.
      destruct (await_l2cap now dl w); [|done]. cbn in E. simplify_eq.
      destruct wedged; [done|apply fall_back_ok].
    + simplify_eq. apply fall_back_ok.
    + destruct (ws_gatt (pp_workers p)) as [g|]; [|done]. cbn in E.
      destruct (await_gatt now dl g); [|done]. cbn in E. simplify_eq. by apply tear_l2cap_ok.
    + destruct (ws_l2cap (pp_workers p)) as [w|] eqn:Ew; [|done]. cbn in E.
      destruct (await_l2cap now dl w); [|done]. cbn in E. simplify_eq. unfold sup_ok in *. cbn.
      rewrite Es in Hok. unfold set_l2cap. by destruct Hok as [_ ->].
  - destruct (ws_gatt (pp_workers p)) as [g|] eqn:Eg; [|done]. cbn in E.
    apply bind_Some in E as ([es g'] & _ & E). simplify_eq. unfold sup_ok in *. cbn in *.
    destruct (pp_sup p); try done; rewrite ?Hok in Eg; try done; eauto.
    destruct Hok as [_ Hn]. by rewrite Hn in Eg.
  - destruct (ws_l2cap (pp_workers p)) as [w|] eqn:Ew; [|done]. cbn in E.
    apply bind_Some in E as ([es w'] & _ & E). simplify_eq. unfold sup_ok in *. cbn in *.
    destruct (pp_sup p); try done; rewrite ?Hok in Ew; try done; eauto. by destruct Hok.
Qed.

Lemma run_sup_ok now path ch evs p : run evs (start now path ch) = Some p -> sup_ok p.
Proof.
  revert evs p. apply run_ind.
  - by destruct path, ch.
  - intros evs t ev p p' _ Hok. by apply exec_sup_ok.
Qed.

(** C11. Every outbound datagram is accounted for.  In any interleaving of the
    supervisor, the workers and their tasks, the datagrams taken from the
    registry's queue are exactly those whose waker was woken, those dropped with
    the queue of a worker that ended, and those still held by the supervisor or
    queued at one worker: none is released twice, duplicated on the other path
    or forgotten.  Once the supervisor has returned nothing is held, and no
    worker is left. *)
Theorem outbound_accounted (now : Instant) (path : ConnectPath.t) (ch : option L2capChannel)
    (evs : list (Instant * PipeEvent.t)) (p : Pipe) :
  run evs (start now path ch) = Some p ->
  offered evs ≡ₚ woken_sends (pp_effects p) ++ lost_sends (pp_effects p) ++ held p /\
  (pp_sup p = Sup.Returned -> pp_workers p = mkWorkerSet None None /\ held p = []).
Proof.
  intros Hr. pose proof (run_sup_ok _ _ _ _ _ Hr) as Hs. split.
  - apply (Permutation_count_occ (decide_rel (=))). intros x. revert evs p Hr Hs.
    refine (run_ind _ (fun evs p => sup_ok p -> occ x (offered evs)
      = occ x (woken_sends (pp_effects p) ++ lost_sends (pp_effects p) ++ held p)) _ _).
    + intros _. by destruct (start_ok now path ch) as (_ & -> & ->).
    + intros evs t ev p p' Hr IH He _.
      pose proof (run_workers_ok _ _ _ _ _ Hr) as Hok.
      destruct (pipe_exec_accounts _ _ _ _ Hok He) as [_ Ht]. specialize (Ht x).
      specialize (IH (run_sup_ok _ _ _ _ _ Hr)).
      unfold offered, total in *. rewrite bind_app, !occ_app in *. cbn -[occ].
      rewrite app_nil_r. lia.
  - intros E. unfold sup_ok in Hs. rewrite E in Hs. split; [done|]. unfold held.
    by rewrite E, Hs.
Qed.

(** ** Closing a pipe *)

(** Deadlines set until [t] are at most [L2CAP_HANDOVER_TIMEOUT] away. *)
Definition deadline_ok (t : Instant) (p : Pipe) : Prop :=
  match pp_sup p with
  | Sup.Offering _ dl | Sup.Evicting _ _ dl | Sup.TearingGatt dl | Sup.TearingL2cap dl =>
      dl <= t + L2CAP_HANDOVER_TIMEOUT
  | _ => True
  end.

Lemma fall_back_sup now s p :
  pp_sup (fall_back now s p) = Sup.Select \/ pp_sup (fall_back now s p) = Sup.Returned.
Proof.
  unfold fall_back. destruct (match ws_gatt _ with Some _ => _ | None => _ end) as [[g l] es].
  destruct g, l; cbn; auto.
Qed.

Lemma deadline_mono t t' p : t <= t' -> deadline_ok t p -> deadline_ok t' p.
Proof. unfold deadline_ok. destruct (pp_sup p); lia || done. Qed.

Lemma exec_deadline now ev p p' t :
  exec now ev p = Some p' -> deadline_ok t p -> now <= t -> deadline_ok t p'.
Proof.
  intros E Hn Ht.
  assert (forall q, deadline_ok t (tear_l2cap now q)) as Hl.
  { intros q. unfold tear_l2cap. destruct (ws_l2cap _); unfold deadline_ok; cbn; [lia|done]. }
  assert (forall q, deadline_ok t (teardown_worker_set now q)) as Hw.
  { intros q. unfold teardown_worker_set. destruct (ws_gatt _); [unfold deadline_ok; cbn; lia|done]. }
  assert (forall s q, deadline_ok t (fall_back now s q)) as Hf.
  { intros s q. unfold deadline_ok. by destruct (fall_back_sup now s q) as [-> | ->]. }
  destruct ev as [o|o|o|o|ev|ev]; cbn [pipe_exec] in E.
  - destruct (is_sup_select _); [|done]. simplify_eq. destruct o; [|done].
    unfold forward_outbound. destruct (ws_l2cap _); [unfold deadline_ok; cbn; lia|done].
  - destruct (is_sup_select _); [|done]. simplify_eq. by destruct o.
  - destruct (is_sup_select _); [|done]. simplify_eq.
    by destruct o, (ws_l2cap (pp_workers p)).
  - unfold sup_poll in E. destruct (pp_sup p) as [|s dl|s wedged dl|s|dl|dl|] eqn:Es; try done;
      try (apply bind_Some in E as (w & _ & E)); try (apply bind_Some in E as (es & _ & E));
      simplify_eq; try done.
    + destruct (bounded_try_send _ _) as [[|?|?] q]; try (destruct (dl <=? now)); simplify_eq;
        unfold deadline_ok; cbn; lia || done.
    + by destruct wedged.
  - apply bind_Some in E as (g & _ & E). apply bind_Some in E as ([es g'] & _ & E). by simplify_eq.
  - apply bind_Some in E as (w & _ & E). apply bind_Some in E as ([es w'] & _ & E). by simplify_eq.
Qed.

(** Steps left to the end, and how many of them may take the timeout. *)
Definition steps_left (p : Pipe) : nat :=
  match pp_sup p with
  | Sup.Offering _ _ => 6 | Sup.Evicting _ _ _ => 5 | Sup.Complaining _ => 4 | Sup.Select => 3
  | Sup.TearingGatt _ => 2 | Sup.TearingL2cap _ => 1 | Sup.Returned => 0
  end.
Definition waits_left (p : Pipe) : Z :=
  match pp_sup p with
  | Sup.Offering _ _ => 4 | Sup.Evicting _ _ _ => 3 | Sup.Complaining _ | Sup.Select => 2
  | Sup.TearingGatt _ => 2 | Sup.TearingL2cap _ => 1 | Sup.Returned => 0
  end.

(** An event of the supervisor closing down: its own awaits, and the closed
    outbound queue. *)
Definition closing (ev : PipeEvent.t) : Prop :=
  ev = PipeEvent.Poll true \/ ev = PipeEvent.Outbound None.

Lemma tear_l2cap_left now p :
  (steps_left (tear_l2cap now p) <= 1)%nat /\ waits_left (tear_l2cap now p) <= 1.
Proof. unfold tear_l2cap. destruct (ws_l2cap _); cbn; lia. Qed.
Lemma fall_back_left now s p :
  (steps_left (fall_back now s p) <= 3)%nat /\ waits_left (fall_back now s p) <= 2.
Proof. unfold steps_left, waits_left. destruct (fall_back_sup now s p) as [-> | ->]; lia. Qed.

Lemma close_step t p :
  sup_ok p -> deadline_ok t p -> pp_sup p <> Sup.Returned ->
  exists t' ev p', closing ev /\ exec t' ev p = Some p' /\
    t <= t' <= t + (waits_left p - waits_left p') * L2CAP_HANDOVER_TIMEOUT /\
    (steps_left p' < steps_left p)%nat.
Proof.
  unfold sup_ok, deadline_ok, closing. intros Hok Hd Hr.
  assert (0 <= L2CAP_HANDOVER_TIMEOUT) as Hto by done.
  destruct (pp_sup p) as [|s dl|s wedged dl|s|dl|dl|] eqn:Es; try done.
  - exists t, (PipeEvent.Outbound None), (teardown_worker_set t p). cbn. rewrite Es. cbn.
    split; [auto|]. split; [done|]. unfold waits_left at 1, steps_left at 2. rewrite Es.
    unfold teardown_worker_set. destruct (ws_gatt _); cbn -[waits_left steps_left].
    + cbn. lia.
    + destruct (tear_l2cap_left t p) as [H1 H2]. split; [nia|lia].
  - exists (t + L2CAP_HANDOVER_TIMEOUT), (PipeEvent.Poll true). destruct Hok as [w Ew].
    cbn. unfold sup_poll. rewrite Es, Ew. cbn.
    destruct (bounded_try_send _ _) as [[|?|?] q]; try rewrite (proj2 (Z.leb_le _ _)) by lia;
      eexists; (split; [auto|]); (split; [reflexivity|]);
      unfold waits_left, steps_left; rewrite Es; cbn; lia.
  - exists (t + L2CAP_HANDOVER_TIMEOUT), (PipeEvent.Poll true). destruct Hok as [w Ew].
    assert (exists es, await_l2cap (t + L2CAP_HANDOVER_TIMEOUT) dl w = Some es) as [es Ea].
    { unfold await_l2cap. rewrite (proj2 (Z.leb_le _ _)) by lia. destruct (lt_phase w); eauto. }
    cbn. unfold sup_poll. rewrite Es, Ew. cbn. rewrite Ea. cbn.
    eexists. split; [auto|]. split; [reflexivity|].
    unfold waits_left at 1, steps_left at 2. rewrite Es. destruct wedged; [cbn; lia|].
    match goal with |- context [fall_back ?a ?b ?c] => destruct (fall_back_left a b c) end.
    split; [nia|lia].
  - exists t, (PipeEvent.Poll true). cbn. unfold sup_poll. rewrite Es. cbn.
    eexists. split; [auto|]. split; [reflexivity|].
    unfold waits_left at 1, steps_left at 2. rewrite Es.
    match goal with |- context [fall_back ?a ?b ?c] => destruct (fall_back_left a b c) end.
    split; [nia|lia].
  - exists (t + L2CAP_HANDOVER_TIMEOUT), (PipeEvent.Poll true). destruct Hok as [g Eg].
    assert (exists es, await_gatt (t + L2CAP_HANDOVER_TIMEOUT) dl g = Some es) as [es Ea].
    { unfold await_gatt. rewrite (proj2 (Z.leb_le _ _)) by lia. destruct (gt_phase g); eauto. }
    cbn. unfold sup_poll. rewrite Es, Eg. cbn. rewrite Ea. cbn.
    eexists. split; [auto|]. split; [reflexivity|].
    unfold waits_left at 1, steps_left at 2. rewrite Es.
    match goal with |- context [tear_l2cap ?a ?b] => destruct (tear_l2cap_left a b) end.
    split; [nia|lia].
  - exists (t + L2CAP_HANDOVER_TIMEOUT), (PipeEvent.Poll true). destruct Hok as [[w Ew] _].
    assert (exists es, await_l2cap (t + L2CAP_HANDOVER_TIMEOUT) dl w = Some es) as [es Ea].
    { unfold await_l2cap. rewrite (proj2 (Z.leb_le _ _)) by lia. destruct (lt_phase w); eauto. }
    cbn. unfold sup_poll. rewrite Es, Ew. cbn. rewrite Ea. cbn.
    eexists. split; [auto|]. split; [reflexivity|].
    unfold waits_left, steps_left. rewrite Es. cbn. lia.
Qed.

Lemma closes p : forall t, sup_ok p -> deadline_ok t p ->
  exists evs p', Forall (fun e => closing e.2 /\
      t <= e.1 <= t + waits_left p * L2CAP_HANDOVER_TIMEOUT) evs /\
    run evs p = Some p' /\ pp_sup p' = Sup.Returned.
Proof.
  assert (0 <= L2CAP_HANDOVER_TIMEOUT) as Hto by done.
  remember (steps_left p) as n eqn:En. revert p En.
  induction n as [n IH] using lt_wf_ind. intros p -> t Hok Hd.
  destruct (decide (steps_left p = 0)%nat) as [Hz|Hz].
  { exists [], p. split; [constructor|]. split; [done|]. unfold steps_left in Hz.
    by destruct (pp_sup p). }
  destruct (close_step t p Hok Hd) as (t1 & ev & p1 & Hev & He & Ht & Hlt).
  { intros Er. unfold steps_left in Hz. by rewrite Er in Hz. }
  destruct (IH _ Hlt p1 eq_refl t1) as (evs & p2 & Hf & Hr & Hs).
  { by eapply exec_sup_ok. }
  { eapply exec_deadline; [done|eapply deadline_mono; [|done]; lia|done]. }
  exists ((t1, ev) :: evs), p2. split; [|split; [cbn; by rewrite He|done]].
  assert (0 <= waits_left p1) by (unfold waits_left; destruct (pp_sup p1); lia).
  constructor.
  - cbn. split; [done|]. nia.
  - eapply Forall_impl; [exact Hf|]. cbn. intros e [? ?]. split; [done|]. nia.
Qed.

(** C14. A pipe can always be closed in time.  Whatever its workers are doing,
    also when they never run again, the supervisor returns within four handover
    timeouts of its outbound queue closing, by its own awaits alone: it waits
    for a worker only up to a deadline and aborts it then. *)
Theorem pipe_closes (now t : Instant) (path : ConnectPath.t) (ch : option L2capChannel)
    (evs : list (Instant * PipeEvent.t)) (p : Pipe) :
  run evs (start now path ch) = Some p ->
  now <= t -> Forall (fun e => e.1 <= t) evs ->
  exists evs' p', Forall (fun e => closing e.2 /\ t <= e.1 <= t + 4 * L2CAP_HANDOVER_TIMEOUT) evs' /\
    run evs' p = Some p' /\ pp_sup p' = Sup.Returned /\ pp_workers p' = mkWorkerSet None None.
Proof.
  intros Hr Hn Hf. pose proof (run_sup_ok _ _ _ _ _ Hr) as Hok.
  assert (deadline_ok t p) as Hd.
  { revert evs p Hr Hf Hok. refine (run_ind _ (fun evs p =>
      Forall (fun e => e.1 <= t) evs -> sup_ok p -> deadline_ok t p) _ _).
    - intros _ _. by destruct path, ch.
    - intros evs u ev p p' Hr IH He [Hf [Hu _]%Forall_cons]%Forall_app _.
      eapply exec_deadline; [done| |done]. apply IH; [done|]. by eapply run_sup_ok. }
  destruct (closes p t Hok Hd) as (evs' & p' & Hf' & Hr' & Hs). exists evs', p'.
  assert (waits_left p <= 4) by (unfold waits_left; destruct (pp_sup p); lia).
  assert (0 <= L2CAP_HANDOVER_TIMEOUT) as Hto by done.
  split_and!; [|done..|].
  - eapply Forall_impl; [exact Hf'|]. cbn. intros e [? ?]. split; [done|]. nia.
  - assert (sup_ok p') as Hok'.
    { clear -Hok Hr'. revert p Hok Hr'. induction evs' as [|[u ev] evs' IH]; intros p Hok Hr;
        [by simplify_eq/=|]. cbn in Hr. apply bind_Some in Hr as (p1 & He & Hr).
      eapply IH; [by eapply exec_sup_ok|done]. }
    unfold sup_ok in Hok'. by rewrite Hs in Hok'.
Qed.
End Pipe.

(** A pipe on L2CAP takes two sends; its worker has passed on the first, and the
    second is still queued at it. *)
Definition demo_split (ch : L2capChannel) : Reader * Writer :=
  (mkReader [] None, mkWriter [] None IoError.UnexpectedEof None).
Definition demo_send (i : Z) : PendingSend := mkPendingSend i [1; i] 0.
Definition demo_pipe_events : list (Instant * PipeEvent.t) :=
  [(0, PipeEvent.Outbound (Some (demo_send 0)));
   (0, PipeEvent.Poll true);
   (1, PipeEvent.Outbound (Some (demo_send 1)));
   (1, PipeEvent.Poll true);
   (1, PipeEvent.L2cap L2capEvent.Enter);
   (1, PipeEvent.L2cap L2capEvent.Outbound);
   (1, PipeEvent.L2cap L2capEvent.Forward)].
Abbreviation demo_run := (pipe_run "dev" 3 ConnectRole.Central demo_split).

Lemma outbound_accounted_witness : exists p,
  demo_run demo_pipe_events (run_data_pipe demo_split 0 ConnectPath.L2cap (Some 5)) = Some p /\
  woken_sends (pp_effects p) = [demo_send 0] /\ held p = [demo_send 1] /\
  offered demo_pipe_events ≡ₚ woken_sends (pp_effects p) ++ lost_sends (pp_effects p) ++ held p.
Proof.
  eexists. split; [reflexivity|]. split; [reflexivity|]. split; [reflexivity|].
  exact (proj1 (outbound_accounted "dev" 3 ConnectRole.Central demo_split 0 ConnectPath.L2cap
    (Some 5) demo_pipe_events _ eq_refl)).
Defined.

Lemma pipe_closes_witness : exists p,
  demo_run demo_pipe_events (run_data_pipe demo_split 0 ConnectPath.L2cap (Some 5)) = Some p /\
  exists evs' p', Forall (fun e => closing e.2 /\ 1 <= e.1 <= 1 + 4 * L2CAP_HANDOVER_TIMEOUT) evs' /\
    demo_run evs' p = Some p' /\ pp_sup p' = Sup.Returned /\ pp_workers p' = mkWorkerSet None None.
Proof.
  eexists. split; [reflexivity|].
  apply (pipe_closes "dev" 3 ConnectRole.Central demo_split 0 1 ConnectPath.L2cap (Some 5)
    demo_pipe_events); [reflexivity|lia|].
  repeat (constructor; [cbn; lia|]). constructor.
Defined.
