(* ===== verification/PipeSafety.v ===== *)
(** * PipeSafety: the workers of a data pipe ([transport/pipe.rs])

    How a worker changes under its own polls and the supervisor's, the bounds
    that hold of every GATT worker, when a path is reported dead, and two runs
    in which the tasks of a pipe fail each other. *)

From S2P Require Import Prelude Peer Dedup Mtu Routing L2cap Reliable SendLoop Pipe PipeFacts.
Open Scope Z_scope.

Section Safety.
Context (dev : DeviceId) (conn : StableConnId) (role : ConnectRole.t).
Context (io_split : L2capChannel -> Reader * Writer).

Abbreviation exec := (pipe_exec dev conn role io_split).
Abbreviation run := (pipe_run dev conn role io_split).
Abbreviation start := (run_data_pipe io_split).

(** ** One event, seen from a worker *)

Inductive gatt_change (now : Instant) (g : GattTask) : GattTask -> Prop :=
| gc_same : gatt_change now g g
| gc_move es g' : gatt_move dev conn role now g es g' -> gatt_change now g g'
| gc_out x : (length (bc_items (gt_outbound g)) < bc_cap (gt_outbound g))%nat ->
    gatt_change now g (set_gt_outbound (chan_push x (gt_outbound g)) g)
| gc_in x : (length (bc_items (gt_inbound g)) < bc_cap (gt_inbound g))%nat ->
    gatt_change now g (set_gt_inbound (chan_push x (gt_inbound g)) g)
| gc_signal : gatt_change now g (signal_gatt g).

Inductive l2cap_change (now : Instant) (w : L2capTask) : L2capTask -> Prop :=
| lc_same : l2cap_change now w w
| lc_move es w' : l2cap_move dev conn now w es w' -> l2cap_change now w w'
| lc_out x : l2cap_change now w (set_lt_outbound (chan_push x (lt_outbound w)) w)
| lc_signal : l2cap_change now w (signal_l2cap w).

(** The workers after an event are changed ones, or an L2CAP worker that was
    just spawned. *)
Definition gatt_from (now : Instant) (ws ws' : WorkerSet) : Prop :=
  forall g', ws_gatt ws' = Some g' -> exists g, ws_gatt ws = Some g /\ gatt_change now g g'.
Definition l2cap_from (now : Instant) (ws ws' : WorkerSet) : Prop :=
  forall w', ws_l2cap ws' = Some w' ->
    (exists w, ws_l2cap ws = Some w /\ l2cap_change now w w') \/
    (exists ch, w' = spawn_l2cap_worker io_split ch).

Lemma gatt_from_eq now ws ws' : ws_gatt ws' = ws_gatt ws -> gatt_from now ws ws'.
Proof. intros H g E. exists g. split; [congruence|apply gc_same]. Qed.
Lemma l2cap_from_eq now ws ws' : ws_l2cap ws' = ws_l2cap ws -> l2cap_from now ws ws'.
Proof. intros H w E. left. exists w. split; [congruence|apply lc_same]. Qed.

Lemma tear_l2cap_from now p :
  gatt_from now (pp_workers p) (pp_workers (tear_l2cap now p)) /\
  l2cap_from now (pp_workers p) (pp_workers (tear_l2cap now p)).
Proof.
  unfold tear_l2cap. destruct (ws_l2cap (pp_workers p)) as [w|] eqn:E; cbn;
    (split; [by apply gatt_from_eq|]); [|by apply l2cap_from_eq].
  intros w' [= <-]. left. exists w. split; [done|apply lc_signal].
Qed.

Lemma teardown_from now p :
  gatt_from now (pp_workers p) (pp_workers (teardown_worker_set now p)) /\
  l2cap_from now (pp_workers p) (pp_workers (teardown_worker_set now p)).
Proof.
  unfold teardown_worker_set. destruct (ws_gatt (pp_workers p)) as [g|] eqn:E;
    [|apply tear_l2cap_from]. split; [|by apply l2cap_from_eq].
  intros g' [= <-]. exists g. split; [done|apply gc_signal].
Qed.

Lemma fall_back_from now s p :
  gatt_from now (pp_workers p) (pp_workers (fall_back now s p)) /\
  l2cap_from now (pp_workers p) (pp_workers (fall_back now s p)).
Proof.
  unfold fall_back. destruct (match ws_gatt _ with Some _ => _ | None => _ end) as [ws es] eqn:E.
  assert (pp_workers (let p := mkPipe Sup.Select ws (pp_effects p ++ es) in
    if is_empty ws then teardown_worker_set now p else p) = ws) as Hws.
  { cbn zeta. unfold is_empty. destruct ws as [[g|] [w|]]; done. }
  cbn zeta in Hws. rewrite Hws.
  destruct (ws_gatt (pp_workers p)) as [g|] eqn:Eg.
  - destruct (bounded_try_send (gt_outbound g) s) as [r q] eqn:Er.
    apply try_send_cases in Er as [(-> & _ & Hl & ->)|[(-> & _ & ->)|(-> & _ & ->)]];
      simplify_eq; split; try (by apply gatt_from_eq); try (by apply l2cap_from_eq); try done.
    intros g' [= <-]. exists g. split; [done|by apply gc_out].
  - simplify_eq. split; [by apply gatt_from_eq|by apply l2cap_from_eq].
Qed.

Lemma from_trans now ws1 ws2 ws3 :
  (ws_gatt ws2 = ws_gatt ws1 \/ ws_gatt ws2 = None) ->
  (ws_l2cap ws2 = ws_l2cap ws1 \/ ws_l2cap ws2 = None) ->
  gatt_from now ws2 ws3 /\ l2cap_from now ws2 ws3 ->
  gatt_from now ws1 ws3 /\ l2cap_from now ws1 ws3.
Proof.
  intros Hg Hl [H1 H2]. split.
  - intros g' E. destruct (H1 _ E) as (g & Eg & Hc). exists g. split; [|done].
    destruct Hg as [Hg|Hg]; congruence.
  - intros w' E. destruct (H2 _ E) as [(w & Ew & Hc)|Hs]; [|auto]. left. exists w.
    split; [|done]. destruct Hl as [Hl|Hl]; congruence.
Qed.

Lemma exec_from now ev p p' :
  exec now ev p = Some p' ->
  gatt_from now (pp_workers p) (pp_workers p') /\ l2cap_from now (pp_workers p) (pp_workers p').
Proof.
  intros E. destruct ev as [o|o|o|o|ev|ev]; cbn [pipe_exec] in E.
  - destruct (is_sup_select _); [|done]. simplify_eq. destruct o; [|apply teardown_from].
    unfold forward_outbound. destruct (ws_l2cap (pp_workers p)); [|apply fall_back_from].
    split; [by apply gatt_from_eq|by apply l2cap_from_eq].
  - destruct (is_sup_select _); [|done]. simplify_eq. destruct o as [bs|]; [|apply teardown_from].
    cbn. unfold forward_inbound_gatt. destruct (ws_gatt (pp_workers p)) as [g|] eqn:Eg;
      [|split; [by apply gatt_from_eq|by apply l2cap_from_eq]].
    destruct (bounded_try_send (gt_inbound g) bs) as [r q] eqn:Er.
    apply try_send_cases in Er as [(-> & _ & Hl & ->)|[(-> & _ & ->)|(-> & _ & ->)]];
      split; try (by apply gatt_from_eq); try (by apply l2cap_from_eq); try done.
    intros g' [= <-]. exists g. split; [done|by apply gc_in].
  - destruct (is_sup_select _); [|done]. simplify_eq.
    destruct o as [ch|], (ws_l2cap (pp_workers p)) as [w|] eqn:Ew;
      (split; [by apply gatt_from_eq|]); try (by apply l2cap_from_eq).
    intros w' [= <-]. eauto.
  - unfold sup_poll in E. destruct (pp_sup p) as [|s dl|s wedged dl|s|dl|dl|] eqn:Es; try done.
    + apply bind_Some in E as (w & Ew & E).
      assert (l2cap_from now (pp_workers p) (set_l2cap (Some (signal_l2cap w)) (pp_workers p))) as Hev.
      { intros w' [= <-]. left. exists w. split; [done|apply lc_signal]. }
      destruct (bounded_try_send (lt_outbound w) s) as [r q] eqn:Er.
      apply try_send_cases in Er as [(-> & _ & Hl & ->)|[(-> & _ & ->)|(-> & _ & ->)]];
        [|destruct (dl <=? now)|]; simplify_eq; (split; [by apply gatt_from_eq|done || idtac]).
      intros w' [= <-]. left. exists w. split; [done|by apply lc_out].
    + apply bind_Some in E as (w & Ew & E). apply bind_Some in E as (es & _ & E). simplify_eq.
      apply (from_trans now _ (set_l2cap None (pp_workers p))); [by left|by right|].
      destruct wedged; [split; [by apply gatt_from_eq|by apply l2cap_from_eq]|].
      exact (fall_back_from now s (emit es (mkPipe (Sup.Complaining s)
        (set_l2cap None (pp_workers p)) (pp_effects p)))).
    + simplify_eq. exact (fall_back_from now s (emit _ p)).
    + apply bind_Some in E as (g & Eg & E). apply bind_Some in E as (es & _ & E). simplify_eq.
      apply (from_trans now _ (set_gatt None (pp_workers p))); [by right|by left|].
      exact (tear_l2cap_from now (emit es (mkPipe (Sup.TearingGatt dl)
        (set_gatt None (pp_workers p)) (pp_effects p)))).
    + apply bind_Some in E as (w & Ew & E). apply bind_Some in E as (es & _ & E). simplify_eq.
      split; [by apply gatt_from_eq|done].
  - apply bind_Some in E as (g & Eg & E). apply bind_Some in E as ([es g1] & Em & E). simplify_eq.
    split; [|by apply l2cap_from_eq]. intros g' [= <-]. exists g. split; [done|].
    eapply gc_move, gatt_exec_move, Em.
  - apply bind_Some in E as (w & Ew & E). apply bind_Some in E as ([es w1] & Em & E). simplify_eq.
    split; [by apply gatt_from_eq|]. intros w' [= <-]. left. exists w. split; [done|].
    eapply lc_move, l2cap_exec_move, Em.
Qed.

(** ** Bounds of the GATT worker *)

Record gatt_wf (g : GattTask) : Prop := {
  gw_caps : bc_cap (gt_outbound g) = 32%nat /\ bc_cap (gt_inbound g) = 64%nat;
  gw_outbound : (length (bc_items (gt_outbound g)) <= 32)%nat;
  gw_inbound : (length (bc_items (gt_inbound g)) <= 64)%nat;
  gw_datagrams : (length (Reliable.delivered (gt_channel g)) - gt_taken g <= DATAGRAM_CAPACITY)%nat;
  gw_chunk : INITIAL_CHUNK_SIZE <= chunk_size (gt_channel g) <= MAX_CHUNK_SIZE;
  gw_loop : sl_phase (gt_loop g) <> LoopPhase.Panicked;
}.

Lemma spawn_gatt_wf now : gatt_wf (spawn_gatt_worker now).
Proof. split; cbn; try done; lia. Qed.

Lemma resolved_chunk mtu_at now_at fuel s n :
  resolve_chunk_size mtu_at now_at fuel s = Some n -> INITIAL_CHUNK_SIZE <= n <= MAX_CHUNK_SIZE.
Proof.
  unfold resolve_chunk_size. intros (m & Hm & ->)%fmap_Some. apply poll_mtu_sane in Hm.
  unfold chunk_of_mtu, saturating_sub, INITIAL_CHUNK_SIZE, MAX_CHUNK_SIZE, MIN_SANE_MTU,
    DEFAULT_FALLBACK_MTU, ATT_OVERHEAD in *. lia.
Qed.

Lemma loop_wf now w l c m l' c' :
  INITIAL_CHUNK_SIZE <= chunk_size c <= MAX_CHUNK_SIZE -> sl_phase l <> LoopPhase.Panicked ->
  loop_poll now w l c = Some (m, l', c') ->
  chunk_size c' = chunk_size c /\ sl_phase l' <> LoopPhase.Panicked.
Proof.
  intros Hc Hp E. unfold INITIAL_CHUNK_SIZE, MIN_SANE_MTU, ATT_OVERHEAD in Hc.
  apply loop_poll_spec in E as ([_ ?] & ? & _); [done|]. split; [lia|done].
Qed.

Lemma gatt_change_wf now g g' : gatt_change now g g' -> gatt_wf g -> gatt_wf g'.
Proof.
  intros Hc [[C1 C2] Ho Hi Hd Hk Hl].
  assert (forall c, settings c = settings (gt_channel g) -> chunk_size c = chunk_size (gt_channel g))
    as Hst by (by intros c [= ->]).
  destruct Hc as [|es g' Hm|x Hx|x Hx|]; [done| |split; cbn; rewrite ?length_app; cbn; lia || done..].
  destruct Hm as [s q ok c Hp Hq He|bs q Hp Hq Hb|bs q Hp Hq Hb|Hp Hs|Hp Hs|d Hp Hn|d o Hp|Hp Hs|Hp|o Hp
                 |w m l c Hp Hs Hlp|ma na fuel st n Hp Hn];
    try (apply chan_pop_spec in Hq as (Hq & _ & Hcap); rewrite Hq in *; cbn in *).
  - pose proof (enqueue_settings (ps_datagram s) (gt_channel g)) as Hse.
    pose proof (enqueue_delivered (ps_datagram s) (gt_channel g)) as Hde. rewrite He in Hse, Hde.
    split; cbn in *; rewrite ?Hcap, ?Hde, ?(Hst _ Hse); lia || done.
  - split; cbn in *; rewrite ?Hcap, ?(Hst _ (receive_settings _ _ _)); lia || done.
  - split; cbn in *; rewrite ?Hcap; lia || done.
  - by split.
  - by split.
  - split; cbn in *; lia || done.
  - by split.
  - by split.
  - split; cbn in *; lia || done.
  - split; cbn in *; lia || done.
  - destruct (loop_wf _ _ _ _ _ _ _ Hk Hl Hlp) as [Hck Hph].
    apply loop_poll_delivered in Hlp. split; cbn in *; rewrite ?Hck, ?Hlp; lia || done.
  - split; cbn in *; try done. by eapply resolved_chunk.
Qed.

Lemma run_gatt_wf now path ch evs p :
  run evs (start now path ch) = Some p -> forall g, ws_gatt (pp_workers p) = Some g -> gatt_wf g.
Proof.
  revert evs p. refine (run_ind _ _ _ _ _ (fun _ p => forall g, ws_gatt (pp_workers p) = Some g ->
    gatt_wf g) _ _).
  - intros g. destruct path, ch; cbn; intros; simplify_eq; apply spawn_gatt_wf.
  - intros evs t ev p p' _ IH He g' Eg. destruct (exec_from _ _ _ _ He) as [Hg _].
    destruct (Hg _ Eg) as (g & E & Hc). eapply gatt_change_wf; eauto.
Qed.

(** C19. A GATT worker stays within its bounds.  In every interleaving its
    queues hold at most 32 sends, 64 fragments and 64 datagrams, the chunk size
    stays between that of the smallest sane MTU and the audited maximum, and so
    its send loop never panics while fragmenting. *)
Theorem gatt_worker_bounds (now : Instant) (path : ConnectPath.t) (ch : option L2capChannel)
    (evs : list (Instant * PipeEvent.t)) (p : Pipe) (g : GattTask) :
  run evs (start now path ch) = Some p -> ws_gatt (pp_workers p) = Some g -> gatt_wf g.
Proof. intros Hr. by apply (run_gatt_wf _ _ _ _ _ Hr). Qed.

(** ** When a path is reported dead *)

Definition dead_paths_report (e : Effect.t) : Prop :=
  exists d c, e = Effect.Registry (PeerCommand.Stalled d c).

(** At some event of the run, fragments were in flight and none had been
    acknowledged for [LINK_DEAD_DEADLINE]. *)
Definition link_died (p0 : Pipe) (evs : list (Instant * PipeEvent.t)) : Prop :=
  exists evs1 t ev evs2 p1 g, evs = evs1 ++ (t, ev) :: evs2 /\ run evs1 p0 = Some p1 /\
    ws_gatt (pp_workers p1) = Some g /\ in_flight (state (gt_channel g)) <> [] /\
    last_progress_at (state (gt_channel g)) + LINK_DEAD_DEADLINE <= t.

(** At some point of the run the L2CAP worker was running and one of its I/O
    tasks was over. *)
Definition io_dead (w : L2capTask) : Prop :=
  lt_phase w <> L2capPhase.Exited /\ (lt_recv_alive w = false \/ bc_open (lt_io w) = false).
Definition io_died (p0 : Pipe) (evs : list (Instant * PipeEvent.t)) : Prop :=
  exists evs1 evs2 p1 w, evs = evs1 ++ evs2 /\ run evs1 p0 = Some p1 /\
    ws_l2cap (pp_workers p1) = Some w /\ io_dead w.

Lemma link_died_app p0 evs evs' : link_died p0 evs -> link_died p0 (evs ++ evs').
Proof.
  intros (evs1 & t & ev & evs2 & p1 & g & -> & H). exists evs1, t, ev, (evs2 ++ evs'), p1, g.
  split; [by rewrite <- app_assoc|done].
Qed.
Lemma io_died_app p0 evs evs' : io_died p0 evs -> io_died p0 (evs ++ evs').
Proof.
  intros (evs1 & evs2 & p1 & w & -> & H). exists evs1, (evs2 ++ evs'), p1, w.
  split; [by rewrite <- app_assoc|done].
Qed.

(** The worker is on its way to report, or its loop will make it. *)
Definition suspicious (g : GattTask) : Prop :=
  match gt_phase g with
  | GattPhase.Reporting => True
  | GattPhase.Joining | GattPhase.Exited => False
  | _ => sl_phase (gt_loop g) = LoopPhase.Returned \/ link_dead (state (gt_channel g)) = true
  end.

Lemma gatt_change_suspicious now g g' :
  gatt_change now g g' -> gatt_wf g -> suspicious g' ->
  suspicious g \/ (in_flight (state (gt_channel g)) <> [] /\
    last_progress_at (state (gt_channel g)) + LINK_DEAD_DEADLINE <= now).
Proof.
  intros Hc Hwf Hs. destruct Hc as [|es g' Hm|x Hx|x Hx|]; [by left| |by left..].
  assert (forall c, settings c = settings (gt_channel g) ->
    link_dead (state c) = link_dead (state (gt_channel g))) as Hst by (by intros c [= _ ->]).
  unfold suspicious in *.
  destruct Hm as [s q ok c Hp Hq He|bs q Hp Hq Hb|bs q Hp Hq Hb|Hp _|Hp _|d Hp Hn|d o Hp|Hp Hl|Hp|o Hp
                 |w m l c Hp Hlk Hlp|ma na fuel st n Hp Hn]; cbn in *; rewrite ?Hp in *; cbn in *;
    try by auto.
  - pose proof (enqueue_settings (ps_datagram s) (gt_channel g)) as Hse. rewrite He in Hse.
    apply Hst in Hse. cbn in Hse. rewrite Hse in Hs. auto.
  - rewrite (Hst _ (receive_settings _ _ _)) in Hs. auto.
  - destruct Hwf as [_ _ _ _ Hk Hnp].
    unfold INITIAL_CHUNK_SIZE, MIN_SANE_MTU, ATT_OVERHEAD in Hk.
    apply loop_poll_spec in Hlp as (_ & _ & [[_ [Hd|Hd]]|[Hnd Hd]]); [..|split; [lia|done]].
    + left. destruct (gt_phase g); tauto.
    + by right.
    + left. rewrite Hd in Hs. unfold loop_done in Hnd.
      destruct (gt_phase g); try tauto; destruct Hs as [Hs|Hs]; auto; by rewrite Hs in Hnd.
Qed.

(** The L2CAP worker is on its way to report. *)
Definition alarmed (w : L2capTask) : Prop :=
  match lt_phase w with
  | L2capPhase.Reporting | L2capPhase.Select true => True
  | _ => False
  end.

Lemma l2cap_change_alarmed now w w' :
  l2cap_change now w w' -> (alarmed w -> io_dead w) -> alarmed w' -> io_dead w'.
Proof.
  intros Hc IH Ha. destruct Hc as [|es w' Hm|x|]; [by auto| |by auto..].
  unfold alarmed, io_dead, notify_waiters in *.
  destruct Hm as [Hp|n s q Hp Hq Hd|n s q Hp Hq Hd|n Hp _ _|s Hp _ _|s Hp Ho|Hp|o Hp
                 |d q wr Hp Ho _ _|d q e wr Hp _ _ _|data r es Hp Hr _ _|es r Hp _ _ _];
    cbn in *; rewrite ?Hp in *; cbn in *; try done; auto.
  - by destruct (IH Ha).
  - destruct (IH Ha) as [? [?|?]]; auto. congruence.
  - unfold notify_waiters. cbn. destruct (lt_phase w) as [|n|s| |] eqn:Ep; cbn; rewrite ?Ep;
      (split; [congruence|auto]).
  - destruct (IH Ha) as [? [?|?]]; auto. congruence.
  - unfold notify_waiters. cbn. destruct (lt_phase w) as [|n|s| |] eqn:Ep; cbn; rewrite ?Ep;
      (split; [congruence|auto]).
Qed.

(** A report comes from a worker that was about to make it. *)
Definition reporter (p : Pipe) : Prop :=
  (exists g, ws_gatt (pp_workers p) = Some g /\ gt_phase g = GattPhase.Reporting) \/
  (exists w, ws_l2cap (pp_workers p) = Some w /\ lt_phase w = L2capPhase.Reporting).

Lemma lost_no_report e (l : list PendingSend) : e ∈ Effect.Lost <$> l -> ~ dead_paths_report e.
Proof. intros (s & -> & _)%list_elem_of_fmap (d & c & ?). done. Qed.

Lemma gatt_move_report now g es g' e :
  gatt_move dev conn role now g es g' -> e ∈ es -> dead_paths_report e ->
  gt_phase g = GattPhase.Reporting /\
  e = Effect.Registry (PeerCommand.Stalled dev StallCause.LinkDead).
Proof.
  intros Hm He (d & c & ->). destruct Hm as [| | | | | |d' o Hp| |Hp|o Hp|w m l c' _ _ _|];
    try by set_solver.
  - by destruct o; set_solver.
  - split; [done|]. apply elem_of_app in He as [He|He].
    + by destruct o; set_solver.
    + exfalso. eapply lost_no_report; [exact He|by eexists _, _].
Qed.

Lemma l2cap_move_report now w es w' e :
  l2cap_move dev conn now w es w' -> e ∈ es -> dead_paths_report e ->
  lt_phase w = L2capPhase.Reporting /\
  e = Effect.Registry (PeerCommand.Stalled dev StallCause.LinkDead).
Proof.
  intros Hm He (d & c & ->).
  destruct Hm as [| | |n Hp _ _| | | |o Hp| | |data r es _ _ _ Hes|es r _ _ _ Hes];
    try by set_solver.
  - split; [done|]. apply elem_of_app in He as [He|He].
    + by destruct o; set_solver.
    + exfalso. eapply lost_no_report; [exact He|by eexists _, _].
  - by destruct Hes as [[_ ->]|[_ ->]]; set_solver.
  - by destruct Hes as [->| ->]; set_solver.
Qed.

(** The supervisor reports no dead path itself. *)
Definition silent (p p' : Pipe) : Prop :=
  exists es, pp_effects p' = pp_effects p ++ es /\ forall e, e ∈ es -> ~ dead_paths_report e.

Lemma silent_eq p p' : pp_effects p' = pp_effects p -> silent p p'.
Proof. intros E. exists []. rewrite E, app_nil_r. split; [done|]. by intros e ?%not_elem_of_nil. Qed.
Lemma silent_trans p1 p2 p3 : silent p1 p2 -> silent p2 p3 -> silent p1 p3.
Proof.
  intros (es & E1 & H1) (es' & E2 & H2). exists (es ++ es'). rewrite E2, E1, app_assoc.
  split; [done|]. intros e [He|He]%elem_of_app; auto.
Qed.
Lemma silent_emit es p : (forall e, e ∈ es -> ~ dead_paths_report e) -> silent p (emit es p).
Proof. intros He. by exists es. Qed.

Lemma teardown_silent now p : silent p (teardown_worker_set now p).
Proof.
  apply silent_eq. unfold teardown_worker_set, tear_l2cap.
  by destruct (ws_gatt _), (ws_l2cap (pp_workers p)).
Qed.
Lemma fall_back_silent now s p : silent p (fall_back now s p).
Proof.
  unfold fall_back. destruct (match ws_gatt _ with Some _ => _ | None => _ end) as [ws es] eqn:E.
  assert (forall e, e ∈ es -> ~ dead_paths_report e) as He.
  { assert (es = [] \/ exists s', es = [Effect.Wake s']) as [->|[s' ->]].
    { repeat (case_match; simplify_eq; eauto). }
    - by intros e ?%not_elem_of_nil.
    - by intros e ->%list_elem_of_singleton (d & c & ?). }
  destruct (is_empty ws).
  - eapply silent_trans; [|apply teardown_silent]. by exists es.
  - by exists es.
Qed.

Lemma await_silent_l2cap now dl w es :
  await_l2cap now dl w = Some es -> forall e, e ∈ es -> ~ dead_paths_report e.
Proof.
  unfold await_l2cap. intros E e He. destruct (lt_phase w); try (destruct (dl <=? now); [|done]);
    simplify_eq; first [exact (lost_no_report e (l2cap_held w) He)|by apply not_elem_of_nil in He].
Qed.
Lemma await_silent_gatt now dl g es :
  await_gatt now dl g = Some es -> forall e, e ∈ es -> ~ dead_paths_report e.
Proof.
  unfold await_gatt. intros E e He. destruct (gt_phase g); try (destruct (dl <=? now); [|done]);
    simplify_eq; first [exact (lost_no_report e (bc_items (gt_outbound g)) He)
                       |by apply not_elem_of_nil in He].
Qed.

Lemma sup_poll_silent now o p p' : sup_poll dev now o p = Some p' -> silent p p'.
Proof.
  intros E. unfold sup_poll in E. destruct (pp_sup p) as [|s dl|s wedged dl|s|dl|dl|]; try done.
  - apply bind_Some in E as (w & _ & E). apply silent_eq.
    destruct (bounded_try_send _ _) as [[|?|?] q]; [|destruct (dl <=? now)|]; by simplify_eq.
  - apply bind_Some in E as (w & _ & E). apply bind_Some in E as (es & Ha & E). simplify_eq.
    assert (silent p (emit es (mkPipe (Sup.Complaining s) (set_l2cap None (pp_workers p))
      (pp_effects p)))) as Hs by (exists es; split; [done|by eapply await_silent_l2cap]).
    destruct wedged; [done|]. eapply silent_trans; [exact Hs|apply fall_back_silent].
  - simplify_eq. eapply silent_trans; [|apply fall_back_silent]. apply silent_emit.
    intros e He (d & c & ->). destruct o; set_solver.
  - apply bind_Some in E as (w & _ & E). apply bind_Some in E as (es & Ha & E). simplify_eq.
    exists es. split; [unfold tear_l2cap; by destruct (ws_l2cap _)|by eapply await_silent_gatt].
  - apply bind_Some in E as (w & _ & E). apply bind_Some in E as (es & Ha & E). simplify_eq.
    exists es. split; [done|by eapply await_silent_l2cap].
Qed.

Lemma exec_reports now ev p p' e :
  exec now ev p = Some p' -> e ∈ pp_effects p' -> dead_paths_report e ->
  e ∈ pp_effects p \/
  (reporter p /\ e = Effect.Registry (PeerCommand.Stalled dev StallCause.LinkDead)).
Proof.
  intros E He Hd.
  assert (silent p p' -> e ∈ pp_effects p) as Hs.
  { intros (es & Ep & Hes). rewrite Ep in He. apply elem_of_app in He as [He|He]; [done|].
    by destruct (Hes e He). }
  destruct ev as [o|o|o|o|ev|ev]; cbn [pipe_exec] in E.
  - left. apply Hs. destruct (is_sup_select _); [|done]. simplify_eq.
    destruct o; [|apply teardown_silent]. unfold forward_outbound.
    destruct (ws_l2cap _); [by apply silent_eq|apply fall_back_silent].
  - left. apply Hs. destruct (is_sup_select _); [|done]. simplify_eq.
    destruct o; [by apply silent_eq|apply teardown_silent].
  - left. apply Hs. destruct (is_sup_select _); [|done]. simplify_eq.
    destruct o, (ws_l2cap (pp_workers p)); by apply silent_eq.
  - left. apply Hs. by eapply sup_poll_silent.
  - apply bind_Some in E as (g & Eg & E). apply bind_Some in E as ([es g1] & Em & E). simplify_eq.
    cbn in He. apply elem_of_app in He as [He|He]; [by left|]. right.
    destruct (gatt_move_report _ _ _ _ _ (gatt_exec_move _ _ _ _ _ _ _ _ Em) He Hd).
    split; [left; eauto|done].
  - apply bind_Some in E as (w & Ew & E). apply bind_Some in E as ([es w1] & Em & E). simplify_eq.
    cbn in He. apply elem_of_app in He as [He|He]; [by left|]. right.
    destruct (l2cap_move_report _ _ _ _ _ (l2cap_exec_move _ _ _ _ _ _ _ Em) He Hd).
    split; [right; eauto|done].
Qed.

(** C18. No false alarm.  A pipe reports its peer stalled only if its link was
    dead: at some point of the run fragments were in flight and none had been
    acknowledged for [LINK_DEAD_DEADLINE], or a running L2CAP worker had lost its
    send or its receive task.  In particular closing a pipe, evicting a worker or
    tearing one down never reports anything. *)
Theorem stalled_only_if_dead (now : Instant) (path : ConnectPath.t) (ch : option L2capChannel)
    (evs : list (Instant * PipeEvent.t)) (p : Pipe) (d : DeviceId) (c : StallCause.t) :
  run evs (start now path ch) = Some p ->
  Effect.Registry (PeerCommand.Stalled d c) ∈ pp_effects p ->
  d = dev /\ c = StallCause.LinkDead /\
  (link_died (start now path ch) evs \/ io_died (start now path ch) evs).
Proof.
  intros Hr He.
  enough ((forall e, e ∈ pp_effects p -> dead_paths_report e ->
             e = Effect.Registry (PeerCommand.Stalled dev StallCause.LinkDead) /\
             (link_died (start now path ch) evs \/ io_died (start now path ch) evs)) /\
          (forall g, ws_gatt (pp_workers p) = Some g -> suspicious g ->
             link_died (start now path ch) evs) /\
          (forall w, ws_l2cap (pp_workers p) = Some w -> alarmed w -> io_dead w)) as (H & _ & _).
  { destruct (H _ He) as [[= -> ->] ?]; [by eexists _, _|done]. }
  clear He d c. revert evs p Hr. refine (run_ind _ _ _ _ _ _ _ _).
  - destruct (start_ok io_split now path ch) as (_ & _ & ->). split_and!.
    + by intros e ?%not_elem_of_nil.
    + intros g Eg. destruct path, ch; cbn in Eg; simplify_eq; cbn; by intros [?|?].
    + intros w Ew. destruct path, ch as [c|]; cbn in Ew; simplify_eq. unfold spawn_l2cap_worker.
      by destruct (io_split c).
  - intros evs t ev p p' Hr (IH1 & IH2 & IH3) E. destruct (exec_from _ _ _ _ E) as [Hg Hl].
    split_and!.
    + intros e He Hd. destruct (exec_reports _ _ _ _ _ E He Hd) as [He'|[Hrep ->]].
      { destruct (IH1 _ He' Hd) as [-> [?|?]]; split; auto using link_died_app, io_died_app. }
      split; [done|]. destruct Hrep as [(g & Eg & Hp)|(w & Ew & Hp)].
      * left. apply link_died_app, (IH2 _ Eg). unfold suspicious. by rewrite Hp.
      * right. apply io_died_app. exists evs, [], p, w. rewrite app_nil_r.
        split_and!; [done..|]. apply (IH3 _ Ew). unfold alarmed. by rewrite Hp.
    + intros g' Eg' Hs. destruct (Hg _ Eg') as (g & Eg & Hc).
      destruct (gatt_change_suspicious _ _ _ Hc (run_gatt_wf _ _ _ _ _ Hr g Eg) Hs) as [Hs'|[Hf Hd]].
      * apply link_died_app. eauto.
      * exists evs, t, ev, [], p, g. split_and!; done.
    + intros w' Ew'. destruct (Hl _ Ew') as [(w & Ew & Hc)|(c & ->)].
      * eapply l2cap_change_alarmed; eauto.
      * unfold spawn_l2cap_worker. by destruct (io_split c).
Qed.
End Safety.

(** One datagram is written and never acknowledged: after the deadline the pipe
    reports its peer stalled. *)
Definition demo_stall : list (Instant * PipeEvent.t) :=
  [(0, PipeEvent.Outbound (Some (demo_send 0)));
   (0, PipeEvent.Gatt GattEvent.Outbound);
   (0, PipeEvent.Gatt (GattEvent.Loop false));
   (0, PipeEvent.Gatt (GattEvent.Loop true));
   (INTER_FRAME_GAP, PipeEvent.Gatt (GattEvent.Loop false));
   (LINK_DEAD_DEADLINE, PipeEvent.Gatt (GattEvent.Loop false));
   (LINK_DEAD_DEADLINE, PipeEvent.Gatt (GattEvent.Loop false));
   (LINK_DEAD_DEADLINE, PipeEvent.Gatt GattEvent.Join);
   (LINK_DEAD_DEADLINE, PipeEvent.Gatt (GattEvent.Report true))].

Definition demo_stalled : option Pipe :=
  Eval vm_compute in demo_run demo_stall (run_data_pipe demo_split 0 ConnectPath.Gatt None).
Lemma demo_stall_runs :
  demo_run demo_stall (run_data_pipe demo_split 0 ConnectPath.Gatt None) = demo_stalled.
Proof. vm_compute. reflexivity. Qed.

Lemma gatt_worker_bounds_witness : exists p g,
  demo_run demo_stall (run_data_pipe demo_split 0 ConnectPath.Gatt None) = Some p /\
  ws_gatt (pp_workers p) = Some g /\ gatt_wf g.
Proof.
  pose proof demo_stall_runs as E. unfold demo_stalled in E.
  eexists _, _. split; [exact E|]. split; [reflexivity|].
  exact (gatt_worker_bounds _ _ _ _ _ _ _ _ _ _ E eq_refl).
Defined.

Lemma stalled_only_if_dead_witness : exists p,
  demo_run demo_stall (run_data_pipe demo_split 0 ConnectPath.Gatt None) = Some p /\
  Effect.Registry (PeerCommand.Stalled "dev" StallCause.LinkDead) ∈ pp_effects p /\
  let p0 := run_data_pipe demo_split 0 ConnectPath.Gatt None in
  (link_died "dev" 3 ConnectRole.Central demo_split p0 demo_stall \/
   io_died "dev" 3 ConnectRole.Central demo_split p0 demo_stall).
Proof.
  pose proof demo_stall_runs as E. unfold demo_stalled in E.
  eexists. split; [exact E|].
  eassert (Effect.Registry (PeerCommand.Stalled "dev" StallCause.LinkDead)
    ∈ pp_effects (mkPipe _ _ [_; _; _])) as H by (right; right; left).
  split; [exact H|].
  exact (proj2 (proj2 (stalled_only_if_dead _ _ _ _ _ _ _ _ _ _ _ E H))).
Defined.
