(* ===== verification/PipeHazards.v ===== *)
(** * PipeHazards: two runs in which the tasks of a pipe fail each other

    [run_gatt_pipe] is the only receiver of the bounded channel its own
    [receive_fragment] sends to, and [run_l2cap_pipe] learns of the end of its
    I/O tasks through [notify_waiters], which leaves nothing behind when nobody
    waits. *)

From S2P Require Import Prelude Peer Dedup Mtu Routing L2cap Reliable SendLoop Pipe PipeFacts.
From S2P Require Import PipeSafety.
Open Scope Z_scope.

Section Hazards.
Context (dev : DeviceId) (conn : StableConnId) (role : ConnectRole.t).
Context (io_split : L2capChannel -> Reader * Writer).

Abbreviation exec := (pipe_exec dev conn role io_split).
Abbreviation run := (pipe_run dev conn role io_split).
Abbreviation start := (run_data_pipe io_split).

(** ** A worker that waits for itself *)

Definition no_l2cap (ev : PipeEvent.t) : Prop :=
  match ev with PipeEvent.AddL2cap (Some _) => False | _ => True end.

(** The pipe only releases or drops sends. *)
Definition only_settles (es : list Effect.t) : Prop :=
  Forall (fun e => match e with Effect.Wake _ | Effect.Lost _ => True | _ => False end) es.

Definition jammed (p : Pipe) : Prop :=
  ws_l2cap (pp_workers p) = None /\
  (forall g, ws_gatt (pp_workers p) = Some g -> gt_phase g = GattPhase.Stuck) /\
  match pp_sup p with Sup.Select | Sup.TearingGatt _ | Sup.Returned => True | _ => False end.

Lemma stuck_move now g es g' :
  gatt_move dev conn role now g es g' -> gt_phase g = GattPhase.Stuck ->
  es = [] /\ gt_phase g' = GattPhase.Stuck.
Proof.
  intros Hm Hp. destruct Hm as [| | | | | | | |[[? ?]|[? ?]]| |w m l c _ Hs Hl|]; try congruence.
  - specialize (Hs Hp). split; [|done]. unfold takes_lock, loop_poll in *.
    destruct (sl_phase (gt_loop g)) as [| |s r|s|gp|u| |]; try done.
    + destruct (wake (gt_channel g)); [by simplify_eq/=|]. destruct (s <=? now); [|done].
      cbn in Hs. unfold on_timeout in Hl. apply Z.leb_gt, Z.ltb_lt in Hs. rewrite Hs in Hl.
      by simplify_eq/=.
    + by repeat (case_match; simplify_eq/=).
    + by destruct w; simplify_eq/=.
    + by destruct (u <=? now); simplify_eq/=.
  - done.
Qed.

Lemma stuck_change now g g' :
  gatt_change dev conn role now g g' -> gt_phase g = GattPhase.Stuck -> gt_phase g' = GattPhase.Stuck.
Proof. intros [|es g1 Hm|x _|x _|]; try done. by eapply stuck_move. Qed.

Lemma lost_settles (l : list PendingSend) : only_settles (Effect.Lost <$> l).
Proof. unfold only_settles. by apply Forall_fmap, Forall_true. Qed.

Lemma fall_back_jammed now s p :
  jammed p -> jammed (fall_back now s p) /\
  exists es, pp_effects (fall_back now s p) = pp_effects p ++ es /\ only_settles es.
Proof.
  intros (Hl & Hg & _).
  assert (exists ws es, ws_l2cap ws = None /\ only_settles es /\
    (forall g, ws_gatt ws = Some g -> gt_phase g = GattPhase.Stuck) /\
    fall_back now s p = let p' := mkPipe Sup.Select ws (pp_effects p ++ es) in
      if is_empty ws then teardown_worker_set now p' else p') as (ws & es & Hw & He & Hg' & ->).
  { unfold fall_back. destruct (ws_gatt (pp_workers p)) as [g|] eqn:Eg.
    - destruct (bounded_try_send _ _) as [[|?|?] q]; eexists _, _; (split; [|split; [|split; [|done]]]);
        try done; try (by repeat constructor); cbn.
      + intros g' [= <-]. exact (Hg _ eq_refl).
      + rewrite Eg. by intros g' [= <-]; apply Hg.
    - eexists _, _. split; [|split; [|split; [|done]]]; try done; [by repeat constructor|].
      by rewrite Eg. }
  cbn zeta. destruct ws as [[g|] [w|]]; cbn in *; try done.
  - split; [by split_and!|]. eauto.
  - split; [by split_and!|]. eauto.
Qed.

Lemma jammed_exec now ev p p' :
  exec now ev p = Some p' -> no_l2cap ev -> jammed p ->
  jammed p' /\ exists es, pp_effects p' = pp_effects p ++ es /\ only_settles es.
Proof.
  intros E Hev Hj. pose proof Hj as (Hl & Hg & Hs).
  assert (jammed p' -> pp_effects p' = pp_effects p ->
    jammed p' /\ exists es, pp_effects p' = pp_effects p ++ es /\ only_settles es) as Hquiet.
  { intros H1 H2. split; [done|]. exists []. rewrite app_nil_r.
    split; [done|constructor]. }
  assert (jammed (teardown_worker_set now p) /\
    pp_effects (teardown_worker_set now p) = pp_effects p) as Ht.
  { unfold teardown_worker_set, tear_l2cap, jammed. rewrite Hl.
    destruct (ws_gatt (pp_workers p)) as [g|] eqn:Eg; cbn;
      [|rewrite Eg, Hl; by split_and!].
    split; [|done]. split_and!; [done| |done]. intros g' [= <-]. exact (Hg _ eq_refl). }
  destruct ev as [o|o|o|o|ev|ev]; cbn [pipe_exec] in E.
  - destruct (is_sup_select _); [|done]. simplify_eq. destruct o as [s|]; [|by apply Hquiet; apply Ht].
    unfold forward_outbound. rewrite Hl. by apply fall_back_jammed.
  - destruct (is_sup_select _); [|done]. simplify_eq. destruct o as [bs|]; [|by apply Hquiet; apply Ht].
    apply Hquiet; [|done]. unfold jammed. cbn. unfold forward_inbound_gatt.
    destruct (ws_gatt (pp_workers p)) as [g|] eqn:Eg; [|by rewrite Eg].
    destruct (bounded_try_send _ _) as [[|?|?] q]; cbn; split_and!; try done.
    + intros g' [= <-]. exact (Hg _ eq_refl).
    + by rewrite Eg.
  - destruct (is_sup_select _) eqn:Es; [|done]. simplify_eq. destruct o; [done|].
    by apply Hquiet.
  - unfold sup_poll in E. destruct (pp_sup p) as [|s dl|s wedged dl|s|dl|dl|]; try done.
    apply bind_Some in E as (g & Eg & E). apply bind_Some in E as (es & Ha & E). simplify_eq.
    unfold tear_l2cap. cbn. rewrite Hl. split; [by split_and!|]. exists es. split; [done|].
    unfold await_gatt in Ha. rewrite (Hg _ Eg) in Ha. destruct (dl <=? now); simplify_eq.
    apply lost_settles.
  - apply bind_Some in E as (g & Eg & E). apply bind_Some in E as ([es g1] & Em & E).
    destruct (stuck_move _ _ _ _ (gatt_exec_move _ _ _ _ _ _ _ _ Em) (Hg _ Eg)) as [-> Hp].
    simplify_eq. apply Hquiet; [|cbn; by rewrite app_nil_r].
    split_and!; [done| |done]. by intros g' [= <-].
  - by rewrite Hl in E.
Qed.

(** A peer that sends one-fragment datagrams one at a time, each acknowledged
    before the next, while the worker's [select!] keeps choosing its inbound
    queue. *)
Definition jam_fragment (i : nat) : Bytes :=
  [Z.lor (Z.of_nat i mod 16) 0x30; 0; 7; FRAGMENT_CANARY].
Definition jam_round (i : nat) : list (Instant * PipeEvent.t) :=
  let t := from_millis (20 * Z.of_nat i) in
  [(t, PipeEvent.Inbound (Some (jam_fragment i)));
   (t, PipeEvent.Gatt GattEvent.Inbound);
   (t + ACK_DELAY, PipeEvent.Gatt (GattEvent.Loop false));
   (t + ACK_DELAY, PipeEvent.Gatt (GattEvent.Loop true));
   (t + ACK_DELAY + INTER_FRAME_GAP, PipeEvent.Gatt (GattEvent.Loop false))].
Definition jam : list (Instant * PipeEvent.t) :=
  (seq 0 64 ≫= jam_round) ++ take 2 (jam_round 64).

(** What the run [jam] leads to, checked by evaluation. *)
Definition jam_check (p : Pipe) : bool :=
  match pp_sup p, ws_gatt (pp_workers p), ws_l2cap (pp_workers p) with
  | Sup.Select, Some g, None =>
      match gt_phase g with GattPhase.Stuck => true | _ => false end
      && (length (pp_effects p) =? 64)%nat
      && forallb (fun e => match e with Effect.Write _ _ => true | _ => false end) (pp_effects p)
  | _, _, _ => false
  end.

Lemma jam_runs : from_option jam_check false (run jam (start 0 ConnectPath.Gatt None)) = true.
Proof. vm_compute. reflexivity. Qed.

Lemma jam_check_spec p : jam_check p = true -> pp_sup p = Sup.Select /\ jammed p.
Proof.
  unfold jam_check, jammed. destruct (pp_sup p); try done.
  destruct (ws_gatt (pp_workers p)) as [g|]; [|done].
  destruct (ws_l2cap (pp_workers p)); [done|]. destruct (gt_phase g) eqn:Ep; try done.
  intros _. split_and!; try done. by intros g' [= <-].
Qed.

Lemma jam_leads : exists p, run jam (start 0 ConnectPath.Gatt None) = Some p /\
  pp_sup p = Sup.Select /\ jammed p.
Proof.
  pose proof jam_runs as Hj. revert Hj. generalize (run jam (start 0 ConnectPath.Gatt None)).
  intros [p|] Hj; [|done]. exists p. split; [done|]. by apply jam_check_spec.
Qed.

(** C33. The GATT worker can wait for itself.  There is a run in which the peer
    sends 65 one-fragment datagrams, each acknowledged before the next, and the
    worker ends up sending into its own full datagram channel: from then on, and
    as long as no L2CAP channel is attached to the pipe, whatever else happens to
    the pipe, no packet reaches iroh, nothing is written to the link and nothing
    is reported to the registry, while the sends are taken and dropped. *)
Theorem gatt_worker_self_deadlock :
  exists p, run jam (start 0 ConnectPath.Gatt None) = Some p /\ pp_sup p = Sup.Select /\
    forall evs p', Forall (fun e => no_l2cap e.2) evs -> run evs p = Some p' ->
      exists es, pp_effects p' = pp_effects p ++ es /\ only_settles es.
Proof.
  destruct jam_leads as (p & Er & Es & Hp). exists p. split; [exact Er|]. split; [exact Es|].
  clear -Hp. intros evs. revert p Hp. induction evs as [|[t ev] evs IH]; intros p Hp p' Hf Hr.
  { simplify_eq/=. exists []. rewrite app_nil_r. split; [done|constructor]. }
  apply Forall_cons in Hf as [Hev Hf]. cbn in Hr. apply bind_Some in Hr as (p1 & He & Hr).
  destruct (jammed_exec _ _ _ _ He Hev Hp) as [Hp1 (es & E1 & H1)].
  destruct (IH _ Hp1 _ Hf Hr) as (es' & E2 & H2). exists (es ++ es').
  rewrite E2, E1, app_assoc. split; [done|]. by apply Forall_app.
Qed.

(** ** A worker that misses the end of its receive task *)

(** No other L2CAP channel arrives, and no datagram is too long to frame. *)
Definition plain (ev : PipeEvent.t) : Prop :=
  match ev with
  | PipeEvent.AddL2cap (Some _) => False
  | PipeEvent.Outbound (Some s) => fits (ps_datagram s)
  | _ => True
  end.

(** The receive task is over, the send task is in good health, and the worker
    has no notification waiting. *)
Definition deaf (w : L2capTask) : Prop :=
  lt_recv_alive w = false /\
  (lt_phase w = L2capPhase.Exited \/
   (bc_open (lt_io w) = true /\ capacity (lt_writer w) = None /\ flush_error (lt_writer w) = None /\
    Forall fits (bc_items (lt_io w)) /\ Forall fits (ps_datagram <$> l2cap_held w) /\
    match lt_phase w with L2capPhase.Select false | L2capPhase.Forwarding _ => True | _ => False end)).

Lemma deaf_move now w es w' : l2cap_move dev conn now w es w' -> deaf w -> deaf w'.
Proof.
  intros Hm [Hr Hd].
  destruct Hm as [Hp|n s q Hp Hq Hs|n s q Hp Hq Hs|n Hp _ _|s Hp Ho Hf|s Hp Ho|Hp|o Hp
                 |d q wr Hp Ho Hq Hw|d q e wr Hp Ho Hq Hw|data r es Hp Ha _ _|es r Hp Ha _ _];
    try congruence.
  all: try (split; [done|by left]).
  all: destruct Hd as [Hd|(Hop & Hc & Hfl & Hio & Hh & Hph)]; [congruence|].
  all: unfold l2cap_held in Hh; rewrite ?Hp in Hh, Hph; try done.
  - apply chan_pop_spec in Hq as (Hq & _ & _). rewrite Hq in Hh.
    split; [done|]. right. split_and!; try done. cbn in *. by apply Forall_cons in Hh as [_ Hh].
  - apply chan_pop_spec in Hq as (Hq & _ & _). rewrite Hq in Hh.
    split; [done|]. by right.
  - split; [done|]. right. apply Forall_cons in Hh as [H1 H2]. split_and!; try done.
    cbn. apply Forall_app. split; [done|by repeat constructor].
  - congruence.
  - apply chan_pop_spec in Hq as (Hq & Hqo & _). rewrite Hq in Hio. apply Forall_cons in Hio as [H1 H2].
    rewrite (write_framed_ok d (lt_writer w) Hc Hfl H1) in Hw. simplify_eq.
    split; [done|]. right. cbn. rewrite Hqo. split_and!; try done.
  - apply chan_pop_spec in Hq as (Hq & Hqo & _). rewrite Hq in Hio. apply Forall_cons in Hio as [H1 H2].
    by rewrite (write_framed_ok d (lt_writer w) Hc Hfl H1) in Hw.
Qed.

Definition deafened (p : Pipe) : Prop :=
  ws_gatt (pp_workers p) = None /\ Forall fits (ps_datagram <$> sup_held (pp_sup p)) /\
  forall w, ws_l2cap (pp_workers p) = Some w -> deaf w.

Lemma deafened_exec now ev p p' :
  exec now ev p = Some p' -> plain ev -> deafened p -> deafened p'.
Proof.
  intros E Hev (Hg & Hs & Hl).
  assert (deafened (teardown_worker_set now p)) as Ht.
  { unfold teardown_worker_set, tear_l2cap, deafened. rewrite Hg.
    destruct (ws_l2cap (pp_workers p)) as [w|] eqn:Ew; cbn.
    - split_and!; [done..|]. intros w' [= <-]. exact (Hl _ eq_refl).
    - rewrite Ew. split_and!; done. }
  assert (forall s q, ws_gatt (pp_workers q) = None ->
    (forall w, ws_l2cap (pp_workers q) = Some w -> deaf w) -> deafened (fall_back now s q)) as Hf.
  { intros s q Hgq Hlq. unfold fall_back, deafened. rewrite Hgq.
    destruct (pp_workers q) as [g [w|]] eqn:Ew; cbn in *; subst; cbn; split_and!; done. }
  assert (forall w, ws_l2cap (pp_workers p) = Some w -> deaf (signal_l2cap w)) as Hsig.
  { intros w Ew. exact (Hl _ Ew). }
  destruct ev as [o|o|o|o|ev|ev]; cbn [pipe_exec] in E.
  - destruct (is_sup_select _); [|done]. simplify_eq. destruct o as [s|]; [|done].
    unfold forward_outbound. destruct (ws_l2cap (pp_workers p)) as [w|] eqn:Ew.
    + split_and!; cbn; [done|by repeat constructor|]. by rewrite Ew.
    + apply Hf; [done|]. by rewrite Ew.
  - destruct (is_sup_select _); [|done]. simplify_eq. destruct o as [bs|]; [|done].
    unfold forward_inbound_gatt, deafened. cbn. rewrite Hg. by split_and!.
  - destruct (is_sup_select _) eqn:Es; [|done]. simplify_eq. destruct o; [done|]. by split_and!.
  - unfold sup_poll in E. destruct (pp_sup p) as [|s dl|s wedged dl|s|dl|dl|] eqn:Es; try done.
    + apply bind_Some in E as (w & Ew & E). apply Forall_cons in Hs as [Hfit _].
      destruct (bounded_try_send (lt_outbound w) s) as [r q] eqn:Er.
      apply try_send_cases in Er as [(-> & _ & _ & ->)|[(-> & _ & ->)|(-> & _ & ->)]];
        [|destruct (dl <=? now)|]; simplify_eq; split_and!; cbn; try done;
        try (by repeat constructor); intros w' [= <-]; try by apply Hsig.
      destruct (Hl _ Ew) as [Hr [Hx|(?&?&?&?&Hh&?)]]; (split; [done|]); [by left|right].
      split_and!; try done. unfold l2cap_held in *. cbn.
      rewrite app_assoc, fmap_app. apply Forall_app. split; [done|by repeat constructor].
    + apply bind_Some in E as (w & Ew & E). apply bind_Some in E as (es & _ & E). simplify_eq.
      destruct wedged; [by split_and!|]. by apply Hf.
    + simplify_eq. by apply Hf.
    + by rewrite Hg in E.
    + apply bind_Some in E as (w & Ew & E). apply bind_Some in E as (es & _ & E). simplify_eq.
      by split_and!.
  - by rewrite Hg in E.
  - apply bind_Some in E as (w & Ew & E). apply bind_Some in E as ([es w1] & Em & E). simplify_eq.
    split_and!; [done..|]. intros w' [= <-].
    eapply deaf_move; [by eapply l2cap_exec_move|by apply Hl].
Qed.

Lemma deafened_no_reporter p : deafened p -> ~ reporter p.
Proof.
  intros (Hg & _ & Hl) [(g & Eg & _)|(w & Ew & Hp)]; [by rewrite Hg in Eg|].
  destruct (Hl _ Ew) as [_ [Hx|(_ & _ & _ & _ & _ & Hx)]]; by rewrite Hp in Hx.
Qed.

(** C34. The end of an L2CAP stream can go unnoticed.  If the stream ends before
    the worker first waits, its receive task is gone while the worker keeps
    running and being preferred; and however the pipe goes on, short of another
    L2CAP channel or a failing writer, the registry is never told that the path
    stalled. *)
Theorem l2cap_end_missed (now : Instant) (ch : L2capChannel) (e : IoError.t) :
  io_split ch = (mkReader [] None, mkWriter [] None e None) ->
  exists p w, run [(now, PipeEvent.L2cap (L2capEvent.RecvTask true));
                   (now, PipeEvent.L2cap L2capEvent.Enter)]
                (start now ConnectPath.L2cap (Some ch)) = Some p /\
    ws_l2cap (pp_workers p) = Some w /\ lt_recv_alive w = false /\
    lt_phase w = L2capPhase.Select false /\ bc_open (lt_outbound w) = true /\
    forall evs p', Forall (fun e => plain e.2) evs -> run evs p = Some p' ->
      forall d c, Effect.Registry (PeerCommand.Stalled d c) ∉ pp_effects p'.
Proof.
  intros Hio. cbn. unfold spawn_l2cap_worker. rewrite Hio. cbn. eexists _, _.
  split; [done|]. cbn. split_and!; try done.
  match goal with |- forall evs p', _ -> pipe_run _ _ _ _ _ ?q = _ -> _ =>
    assert (deafened q /\ forall e', e' ∈ pp_effects q -> ~ dead_paths_report e') as [Hd He];
    [|revert Hd He; generalize q] end.
  { split; [|by intros e' ?%not_elem_of_nil]. split_and!; [done|constructor|].
    intros w [= <-]. split; [done|]. right. split_and!; try done; constructor. }
  intros q Hd He evs. revert q Hd He. induction evs as [|[t ev] evs IH]; intros q Hd He p' Hf Hr d c Hin.
  { simplify_eq/=. apply (He _ Hin). by eexists _, _. }
  apply Forall_cons in Hf as [Hev Hf]. cbn in Hr. apply bind_Some in Hr as (q1 & Hq & Hr).
  eapply (IH q1); [by eapply deafened_exec| |exact Hf|exact Hr|exact Hin].
  intros e' He' Hrep. destruct (exec_reports _ _ _ _ _ _ _ _ _ Hq He' Hrep) as [He''|[Hrp _]].
  - by apply (He e').
  - by apply (deafened_no_reporter q).
Qed.
End Hazards.

Lemma l2cap_end_missed_witness : exists p w,
  demo_run [(0, PipeEvent.L2cap (L2capEvent.RecvTask true)); (0, PipeEvent.L2cap L2capEvent.Enter)]
    (run_data_pipe demo_split 0 ConnectPath.L2cap (Some 5)) = Some p /\
  ws_l2cap (pp_workers p) = Some w /\ lt_recv_alive w = false /\
  lt_phase w = L2capPhase.Select false /\ bc_open (lt_outbound w) = true /\
  forall evs p', Forall (fun e => plain e.2) evs -> demo_run evs p = Some p' ->
    forall d c, Effect.Registry (PeerCommand.Stalled d c) ∉ pp_effects p'.
Proof.
  exact (l2cap_end_missed "dev" 3 ConnectRole.Central demo_split 0 5 IoError.UnexpectedEof eq_refl).
Defined.
