(* ===== verification/PipeSystem.v ===== *)
(** * PipeSystem: two GATT workers over a lossy link

    The GATT workers of two pipes that send to each other, with everything
    between them (radios, event pumps, registries and supervisors) as a link that
    may lose messages.  Every step is a run of the two ends of [ReliableDuplex],
    so what its invariant says of the channels holds of the packets either worker
    gives to iroh. *)

From S2P Require Import Prelude Peer Dedup Mtu Routing L2cap Reliable ReliableFacts.
From S2P Require Import ReliableSystem ReliableDuplex SendLoop Pipe PipeFacts.
Open Scope Z_scope.

(** ** The composed system *)

Definition writes : list Effect.t -> list Bytes :=
  omap (fun e => match e with Effect.Write _ bs => Some bs | _ => None end).
Definition packets : list Effect.t -> list IncomingPacket :=
  omap (fun e => match e with Effect.Incoming p => Some p | _ => None end).

(** The datagrams a poll of the worker gets accepted: it wakes a sender exactly
    when it passes the datagram to its channel. *)
Definition accepts (es : list Effect.t) (g : GattTask) : list Bytes :=
  List.filter (fun d => (enqueue_datagram d (gt_channel g)).1) (ps_datagram <$> woken_sends es).

(** The loop's timer has fired and a fragment is sent again. *)
Definition asleep (l : SendLoop) : bool :=
  match sl_phase l with LoopPhase.Sleeping _ _ => true | _ => false end.
Definition resends (es : list Effect.t) (g : GattTask) : Prop :=
  asleep (gt_loop g) = true /\ writes es <> [].

(** A worker, the observations of [Side] on its channel, the datagrams the
    channel accepted and the packets sent on [incoming_tx]. *)
Record Worker := mkWorker {
  wk : GattTask;
  wk_got : nat;
  wk_stamps : list nat;
  wk_accepted : list Bytes;
  wk_incoming : list IncomingPacket;
}.

Definition worker_init (now : Instant) : Worker := mkWorker (spawn_gatt_worker now) 0 [] [] [].
Definition side_of (w : Worker) : Side :=
  mkSide (gt_channel (wk w)) (wk_got w) (wk_stamps w) (wk_accepted w).
Definition observe (es : list Effect.t) (g' : GattTask) (w : Worker) : Worker :=
  let e := follow (gt_channel g') (side_of w) in
  mkWorker g' (got e) (stamps e) (wk_accepted w ++ accepts es (wk w)) (wk_incoming w ++ packets es).
Definition on_task (f : GattTask -> GattTask) (w : Worker) : Worker :=
  mkWorker (f (wk w)) (wk_got w) (wk_stamps w) (wk_accepted w) (wk_incoming w).

Definition push_outbound (s : PendingSend) (g : GattTask) : GattTask :=
  set_gt_outbound (bounded_try_send (gt_outbound g) s).2 g.
Definition push_inbound (m : Bytes) (g : GattTask) : GattTask :=
  set_gt_inbound (bounded_try_send (gt_inbound g) m).2 g.

(** A turn of one worker, with what it writes. *)
Inductive worker_step (dev : DeviceId) (conn : StableConnId) (role : ConnectRole.t) (w : Worker)
    : list Bytes -> Worker -> Prop :=
| wk_poll now ev es g' :
    (** iroh receives *)
    ev <> GattEvent.Deliver false ->
    gatt_exec dev conn role now ev (wk w) = Some (es, g') ->
    (resends es (wk w) -> fresh (side_of w)) ->
    worker_step dev conn role w (writes es) (observe es g' w)
| wk_send s : worker_step dev conn role w [] (on_task (push_outbound s) w)
| wk_signal : worker_step dev conn role w [] (on_task signal_gatt w)
| wk_abort : worker_step dev conn role w [] (on_task (fun g => (gatt_exit g).2) w).

Section Duplex.
Context (devA devB : DeviceId) (connA connB : StableConnId) (roleA roleB : ConnectRole.t).

Record Duplex := mkDuplex {
  dx_A : Worker;
  dx_B : Worker;
  dx_ab : list Bytes;
  dx_ba : list Bytes;
}.

Definition duplex_init (nowA nowB : Instant) : Duplex :=
  mkDuplex (worker_init nowA) (worker_init nowB) [] [].

Inductive duplex_step : Duplex -> Duplex -> Prop :=
| dx_stepA A B x y out A' :
    worker_step devA connA roleA A out A' ->
    duplex_step (mkDuplex A B x y) (mkDuplex A' B (x ++ out) y)
| dx_stepB A B x y out B' :
    worker_step devB connB roleB B out B' ->
    duplex_step (mkDuplex A B x y) (mkDuplex A B' x (y ++ out))
| dx_arriveB A B m x y :
    duplex_step (mkDuplex A B (m :: x) y) (mkDuplex A (on_task (push_inbound m) B) x y)
| dx_arriveA A B x m y :
    duplex_step (mkDuplex A B x (m :: y)) (mkDuplex (on_task (push_inbound m) A) B x y)
| dx_lossAB A B x1 m x2 y :
    duplex_step (mkDuplex A B (x1 ++ m :: x2) y) (mkDuplex A B (x1 ++ x2) y)
| dx_lossBA A B x y1 m y2 :
    duplex_step (mkDuplex A B x (y1 ++ m :: y2)) (mkDuplex A B x (y1 ++ y2)).
End Duplex.

(** What waits at a worker is still in transit. *)
Definition waiting (w : Worker) : list Bytes := bc_items (gt_inbound (wk w)).
Definition abs (s : Duplex) : Net :=
  mkNet (side_of (dx_A s)) (side_of (dx_B s)) (waiting (dx_B s) ++ dx_ab s)
    (waiting (dx_A s) ++ dx_ba s).

(** ** The simulation *)

(** What the send loop does to its channel, and sends; [P] is what is known when
    it retransmits. *)
Inductive turn (P : Prop) (c : ReliableChannel) : list Bytes -> ReliableChannel -> Prop :=
| turn_none : turn P c [] c
| turn_send now a c' : next_send_action now c = Some (a, c') -> turn P c (ReliableSystem.emit a) c'
| turn_wait now ls plan ls' c' : on_wait now ls c = (plan, ls', c') -> turn P c [] c'
| turn_timeout now rt ls m ls' c' :
    on_timeout now rt ls c = (m, ls', c') -> (m <> None -> P) -> turn P c (option_list m) c'
| turn_permit w : turn P c [] (set_wake w c).

Lemma loop_turn now w l c m l' c' :
  loop_poll now w l c = Some (m, l', c') ->
  turn (asleep l = true /\ m <> None) c (option_list m) c'.
Proof.
  unfold loop_poll, asleep. destruct (sl_phase l); try done.
  - destruct (next_send_action now c) as [[a c1]|] eqn:E.
    + pose proof (fun P => turn_send P c now a c1 E) as Ht.
      destruct a; intros; simplify_eq/=; apply Ht.
    + intros [= <- <- <-]. apply turn_none.
  - destruct (on_wait now (sl_state l) c) as [[plan ls] c1] eqn:E.
    pose proof (fun P => turn_wait P c now _ plan ls c1 E) as Ht.
    destruct plan; intros; simplify_eq/=; apply Ht.
  - destruct (wake c); [intros [= <- <- <-]; apply turn_permit|]. destruct (_ <=? _); [|done].
    destruct (on_timeout now _ (sl_state l) c) as [[m1 ls] c1] eqn:E.
    pose proof (fun P H => turn_timeout P c now _ _ m1 ls c1 E H) as Ht.
    by destruct m1; intros; simplify_eq/=; apply Ht.
  - destruct (wake c); [intros [= <- <- <-]; apply turn_permit|].
    destruct (from_option _ _ _); [|done]. intros [= <- <- <-]. apply turn_none.
  - destruct w; [|done]. intros [= <- <- <-]. apply turn_none.
  - destruct (_ <=? _); [|done]. intros [= <- <- <-]. apply turn_none.
Qed.

Lemma writes_Write r (l : list Bytes) : writes (Effect.Write r <$> l) = l.
Proof. unfold writes. induction l; [done|]. cbn. by f_equal. Qed.
Lemma writes_Lost (l : list PendingSend) : writes (Effect.Lost <$> l) = [].
Proof. unfold writes. by induction l. Qed.
Lemma packets_Write r (l : list Bytes) : packets (Effect.Write r <$> l) = [].
Proof. unfold packets. by induction l. Qed.
Lemma packets_Lost (l : list PendingSend) : packets (Effect.Lost <$> l) = [].
Proof. unfold packets. by induction l. Qed.

Lemma turn_weaken (P Q : Prop) c ms c' : (P -> Q) -> turn P c ms c' -> turn Q c ms c'.
Proof.
  intros HPQ [|now a c1 E|now ls plan ls' c1 E|now rt ls m ls' c1 E HP|w].
  - apply turn_none.
  - by eapply turn_send.
  - by eapply turn_wait.
  - by eapply turn_timeout; eauto.
  - apply turn_permit.
Qed.

(** One poll of a worker, as its channel sees it: the fragments that wait, the
    channel, what it accepts and what it writes. *)
Inductive channel_step (g : GattTask) (es : list Effect.t) (g' : GattTask) : Prop :=
| cs_accept d ok :
    enqueue_datagram d (gt_channel g) = (ok, gt_channel g') ->
    gt_inbound g' = gt_inbound g -> accepts es g = (if ok : bool then [d] else []) ->
    writes es = [] -> channel_step g es g'
| cs_receive now bs :
    bc_items (gt_inbound g) = bs :: bc_items (gt_inbound g') ->
    gt_channel g' = receive_fragment now bs (gt_channel g) ->
    accepts es g = [] -> writes es = [] -> channel_step g es g'
| cs_forget ms :
    bc_items (gt_inbound g) = ms ++ bc_items (gt_inbound g') -> gt_channel g' = gt_channel g ->
    accepts es g = [] -> writes es = [] -> channel_step g es g'
| cs_dead :
    gt_inbound g' = gt_inbound g -> gt_channel g' = mark_dead (gt_channel g) ->
    accepts es g = [] -> writes es = [] -> channel_step g es g'
| cs_turn ms :
    turn (resends es g) (gt_channel g) ms (gt_channel g') -> gt_inbound g' = gt_inbound g ->
    accepts es g = [] -> writes es = ms -> channel_step g es g'
| cs_chunk n :
    gt_channel g' = set_chunk_size n (gt_channel g) -> gt_inbound g' = gt_inbound g ->
    accepts es g = [] -> writes es = [] -> channel_step g es g'.

Lemma move_channel dev conn role now g es g' :
  gatt_move dev conn role now g es g' -> channel_step g es g'.
Proof.
  intros Hm. assert (forall es, quiet es -> accepts es g = []) as Hq.
  { intros es0 [Hw _]. unfold accepts. by rewrite Hw. }
  assert (forall o : bool, writes (stalled_report dev o) = [] /\
    woken_sends (stalled_report dev o) = []) as Hrep by (by intros []).
  destruct Hm as [s q ok c Hp Hpop He|bs q Hp Hpop Hb|bs q Hp Hpop Hb|Hp _|Hp _|d Hp Hn|d o Hp|Hp Hl|Hp
                 |o Hp|w m l c Hp Hlk Hlp|ma na fuel st n Hp Hn].
  - apply chan_pop_spec in Hpop as (Hi & _ & _).
    eapply (cs_accept _ _ _ (ps_datagram s) ok); try done.
    unfold accepts. cbn. rewrite He. cbn. by destruct ok.
  - apply chan_pop_spec in Hpop as (Hi & _ & _). by apply (cs_receive _ _ _ now bs).
  - apply chan_pop_spec in Hpop as (Hi & _ & _). by apply (cs_forget _ _ _ [bs]).
  - by apply cs_dead.
  - by apply cs_dead.
  - by apply (cs_forget _ _ _ []).
  - apply (cs_forget _ _ _ []); try done; [apply Hq|]; by destruct o.
  - by apply (cs_forget _ _ _ []).
  - apply (cs_forget _ _ _ (bc_items (gt_inbound g))); cbn; [by rewrite app_nil_r|done| |].
    + unfold accepts. by rewrite woken_Lost.
    + apply writes_Lost.
  - destruct (Hrep o) as [Hr1 Hr2].
    apply (cs_forget _ _ _ (bc_items (gt_inbound g))); cbn; [by rewrite app_nil_r|done| |].
    + unfold accepts, woken_sends in *. rewrite omap_app, Hr2. cbn.
      pose proof (woken_Lost (bc_items (gt_outbound g))) as Hw. unfold woken_sends in Hw.
      by rewrite Hw.
    + unfold writes in *. rewrite omap_app, Hr1. apply writes_Lost.
  - apply loop_turn in Hlp. eapply cs_turn; [|done|apply Hq, quiet_write|apply writes_Write].
    eapply turn_weaken; [|exact Hlp]. intros [Hs Hm]. split; [done|]. rewrite writes_Write.
    by destruct m.
  - by apply (cs_chunk _ _ _ n).
Qed.


Lemma rtc_flip s s' : rtc net_step s s' -> rtc net_step (flip_net s) (flip_net s').
Proof. induction 1; [done|]. eapply rtc_l; [by apply net_step_flip|done]. Qed.

Lemma net_loss_all L R x y1 y2 y3 :
  rtc net_step (mkNet L R x (y1 ++ y2 ++ y3)) (mkNet L R x (y1 ++ y3)).
Proof.
  induction y2 as [|m y2 IH]; [done|]. cbn. eapply rtc_l; [|exact IH].
  apply (net_lossRL L R x y1 m (y2 ++ y3)).
Qed.

Lemma enqueue_silent d c ok c' : enqueue_datagram d c = (ok, c') ->
  window_state c' = window_state c /\ receive_state c' = receive_state c.
Proof. unfold enqueue_datagram. by destruct (_ <=? _)%nat; intros [= <- <-]. Qed.

(** A poll of the left worker, as the two ends see it. *)
Lemma poll_sim w es g' R x y :
  channel_step (wk w) es g' -> (resends es (wk w) -> fresh (side_of w)) ->
  rtc net_step (mkNet (side_of w) R x (waiting w ++ y))
    (mkNet (side_of (observe es g' w)) R (x ++ writes es) (bc_items (gt_inbound g') ++ y)).
Proof.
  intros Hcs Hfr. unfold observe, side_of, waiting. cbn [wk wk_got wk_stamps wk_accepted].
  set (e := mkSide (gt_channel (wk w)) (wk_got w) (wk_stamps w) (wk_accepted w)).
  assert (forall c' out, side_step e out (follow c' e) ->
    rtc net_step (mkNet e R x (bc_items (gt_inbound (wk w)) ++ y))
      (mkNet (mkSide c' (got (follow c' e)) (stamps (follow c' e)) (wk_accepted w)) R (x ++ out)
         (bc_items (gt_inbound (wk w)) ++ y))) as Hturn.
  { intros c' out Hst. apply rtc_once. exact (net_left e R x _ out _ Hst). }
  destruct Hcs as [d ok E Ei -> ->|now bs Ei E -> ->|ms Ei E -> ->|Ei E -> ->|ms Ht Ei -> ->|n E Ei -> ->];
    rewrite ?Ei, ?app_nil_r.
  - destruct (enqueue_silent _ _ _ _ E) as [Hw Hr].
    rewrite (follow_silent (gt_channel g') e) by done. cbn [got stamps].
    pose proof (side_enqueue e d ok (gt_channel g') E) as Hst. apply rtc_once.
    apply (net_left _ R x (bc_items (gt_inbound (wk w)) ++ y)) in Hst. rewrite app_nil_r in Hst.
    destruct ok; rewrite ?app_nil_r; exact Hst.
  - rewrite E. apply rtc_once. exact (net_arriveL e R x bs _ now false).
  - rewrite E, follow_silent by done. rewrite <- app_assoc. apply (net_loss_all _ _ _ []).
  - rewrite E. specialize (Hturn _ _ (side_dead e)). by rewrite app_nil_r in Hturn.
  - destruct Ht as [|now a c' E|now ls plan ls' c' E|now rt ls m ls' c' E HP|pm].
    + rewrite follow_silent, app_nil_r by done. done.
    + apply Hturn. by eapply side_send.
    + apply Hturn. by eapply side_wait.
    + apply Hturn. eapply side_timeout; [exact E|]. auto.
    + apply Hturn, side_permit.
  - rewrite E. specialize (Hturn _ _ (side_chunk e n)). by rewrite app_nil_r in Hturn.
Qed.

(** ** What iroh was given *)

Section Incoming.
Context (dev : DeviceId) (conn : StableConnId) (role : ConnectRole.t).

Definition pending (g : GattTask) : list Bytes :=
  match gt_phase g with GattPhase.Delivering d => [d] | _ => [] end.

(** The packets [i] are the datagrams taken from the channel so far, but for the
    one still being delivered. *)
Definition incoming_ok (g : GattTask) (i : list IncomingPacket) : Prop :=
  exists l, i = mkIncomingPacket dev conn <$> l /\ l `prefix_of` delivered (gt_channel g) /\
    (gt_phase g <> GattPhase.Exited ->
       l ++ pending g = take (gt_taken g) (delivered (gt_channel g)) /\
       (gt_taken g <= length (delivered (gt_channel g)))%nat).

(** Taking nothing and delivering nothing. *)
Lemma incoming_same g g' i :
  incoming_ok g i -> gt_taken g' = gt_taken g ->
  delivered (gt_channel g) `prefix_of` delivered (gt_channel g') ->
  (gt_phase g' <> GattPhase.Exited -> gt_phase g <> GattPhase.Exited /\ pending g' = pending g) ->
  incoming_ok g' i.
Proof.
  intros (l & Hi & Hl & Hp) Ht [k Hd] Hph. exists l. split; [done|]. rewrite Hd. split.
  { by apply prefix_app_r. }
  intros Hx. destruct (Hph Hx) as [Hx' ->]. destruct (Hp Hx') as [-> Hle].
  rewrite Ht, take_app_le, length_app by done. split; [done|lia].
Qed.

(** A poll that does not lose the packet it is delivering. *)
Definition faithful (g : GattTask) (es : list Effect.t) (g' : GattTask) : Prop :=
  forall d, gt_phase g = GattPhase.Delivering d -> gt_phase g' = GattPhase.Select -> es <> [].

Lemma exec_faithful now ev g es g' :
  gatt_exec dev conn role now ev g = Some (es, g') -> ev <> GattEvent.Deliver false ->
  faithful g es g'.
Proof.
  intros E Hev d Hp Hp'. unfold gatt_exec in E. rewrite Hp in E.
  destruct ev as [| | | | |[]|o|w|ma na fuel st]; simplify_eq/=; try done.
  - apply bind_Some in E as ([[m l] c] & _ & E). simplify_eq/=. congruence.
  - apply bind_Some in E as (n & _ & E). simplify_eq/=. congruence.
Qed.

Lemma move_incoming now g es g' i :
  gatt_move dev conn role now g es g' -> faithful g es g' ->
  incoming_ok g i -> incoming_ok g' (i ++ packets es).
Proof.
  intros Hm Hf Hok.
  assert (forall o : bool, packets (stalled_report dev o) = []) as Hrep by (by intros []).
  destruct Hm as [s q ok c Hp Hpop He|bs q Hp Hpop Hb|bs q Hp Hpop Hb|Hp _|Hp _|d Hp Hn|d o Hp|Hp Hl|Hp
                 |o Hp|w m l c Hp Hlk Hlp|ma na fuel st n Hp Hn].
  - cbn. rewrite app_nil_r. eapply incoming_same; [done|done| |by intros; rewrite Hp].
    cbn. pose proof (enqueue_delivered (ps_datagram s) (gt_channel g)) as Hd. rewrite He in Hd.
    cbn in Hd. by rewrite Hd.
  - cbn. rewrite app_nil_r. eapply incoming_same; [done|done| |by intros; rewrite Hp].
    apply receive_delivered.
  - cbn. rewrite app_nil_r. eapply incoming_same; [done|done|done|].
    unfold pending. cbn. by rewrite Hp.
  - cbn. rewrite app_nil_r. eapply incoming_same; [done|done|done|].
    unfold pending. cbn. by rewrite Hp.
  - cbn. rewrite app_nil_r. eapply incoming_same; [done|done|done|].
    unfold pending. cbn. by rewrite Hp.
  - cbn. rewrite app_nil_r. destruct Hok as (l & Hi & Hl & Hok).
    destruct Hok as [Hok Hle]; [by rewrite Hp|]. exists l. split; [done|]. split; [done|].
    intros _. unfold pending in *. rewrite Hp, app_nil_r in Hok. cbn. rewrite Hok.
    split; [symmetry; by apply take_S_r|]. by apply lookup_lt_Some in Hn.
  - destruct o; [|by destruct (Hf d Hp)]. destruct Hok as (l & Hi & Hl & Hok).
    destruct Hok as [Hok Hle]; [by rewrite Hp|]. unfold pending in Hok. rewrite Hp in Hok.
    exists (l ++ [d]). cbn. rewrite Hi, fmap_app. split; [done|]. rewrite Hok.
    split; [apply prefix_take|]. unfold pending. cbn. by rewrite app_nil_r.
  - cbn. rewrite app_nil_r. eapply incoming_same; [done|done|done|].
    unfold pending. cbn. by rewrite Hp.
  - cbn -[packets]. rewrite packets_Lost, app_nil_r. by eapply incoming_same.
  - cbn -[packets]. unfold packets in *. rewrite omap_app, Hrep.
    pose proof (packets_Lost (bc_items (gt_outbound g))) as Hq. unfold packets in Hq. rewrite Hq.
    rewrite app_nil_r. by eapply incoming_same.
  - rewrite packets_Write, app_nil_r. eapply incoming_same; [done|done| |done].
    cbn. apply loop_poll_delivered in Hlp. by rewrite Hlp.
  - cbn. rewrite app_nil_r. by eapply incoming_same.
Qed.


Lemma step_incoming w out w' :
  worker_step dev conn role w out w' -> incoming_ok (wk w) (wk_incoming w) ->
  incoming_ok (wk w') (wk_incoming w').
Proof.
  intros [now ev es g' Hev E Hfr|s| |] Hok; cbn.
  - eapply move_incoming; [by eapply gatt_exec_move|by eapply exec_faithful|done].
  - by eapply incoming_same.
  - by eapply incoming_same.
  - by eapply incoming_same.
Qed.
End Incoming.

(** ** Two pipes *)

Lemma try_send_items {A} (q : BoundedChan A) x :
  bc_items (bounded_try_send q x).2 = bc_items q \/
  bc_items (bounded_try_send q x).2 = bc_items q ++ [x].
Proof.
  destruct (bounded_try_send q x) as [r q'] eqn:E.
  apply try_send_cases in E as [(-> & _ & _ & ->)|[(-> & _ & ->)|(-> & _ & ->)]]; cbn; auto.
Qed.

Lemma filter_take_prefix {A} (f : A -> bool) k (l : list A) :
  List.filter f (take k l) `prefix_of` List.filter f l.
Proof.
  rewrite <- (take_drop k l) at 2. rewrite List.filter_app. by apply prefix_app_r.
Qed.


(** A turn of the left worker. *)
Lemma step_sim dev conn role w out w' R x y :
  worker_step dev conn role w out w' ->
  rtc net_step (mkNet (side_of w) R x (waiting w ++ y))
    (mkNet (side_of w') R (x ++ out) (waiting w' ++ y)).
Proof.
  intros [now ev es g' Hev E Hfr|s| |]; rewrite ?app_nil_r; try done.
  - apply poll_sim; [by eapply move_channel, gatt_exec_move|done].
  - apply (net_loss_all _ _ _ [] (waiting w) y).
Qed.

(** A message reaches the left worker, or finds its queue full or closed. *)
Lemma push_sim w m R x y :
  rtc net_step (mkNet (side_of w) R x (waiting w ++ m :: y))
    (mkNet (side_of (on_task (push_inbound m) w)) R x (waiting (on_task (push_inbound m) w) ++ y)).
Proof.
  unfold waiting. cbn. destruct (try_send_items (gt_inbound (wk w)) m) as [-> | ->].
  - apply rtc_once, net_lossRL.
  - by rewrite <- app_assoc.
Qed.

Section Theorems.
Context (devA devB : DeviceId) (connA connB : StableConnId) (roleA roleB : ConnectRole.t).

Lemma duplex_sim s s' :
  duplex_step devA devB connA connB roleA roleB s s' -> rtc net_step (abs s) (abs s').
Proof.
  intros [A B x y out A' Hst|A B x y out B' Hst|A B m x y|A B x m y|A B x1 m x2 y|A B x y1 m y2];
    unfold abs; cbn [dx_A dx_B dx_ab dx_ba].
  - rewrite app_assoc. by eapply step_sim.
  - rewrite app_assoc. eapply (step_sim _ _ _ _ _ _ (side_of A) (waiting A ++ y) x), rtc_flip in Hst.
    exact Hst.
  - pose proof (rtc_flip _ _ (push_sim B m (side_of A) (waiting A ++ y) x)) as H. exact H.
  - apply push_sim.
  - rewrite !app_assoc. apply rtc_once, net_lossLR.
  - rewrite !app_assoc. apply rtc_once, net_lossRL.
Qed.

Record DuplexInv (nowA nowB : Instant) (s : Duplex) : Prop := {
  di_net : rtc net_step (abs (duplex_init nowA nowB)) (abs s);
  di_A : incoming_ok devA connA (wk (dx_A s)) (wk_incoming (dx_A s));
  di_B : incoming_ok devB connB (wk (dx_B s)) (wk_incoming (dx_B s));
}.

Lemma duplex_inv_step nowA nowB s s' :
  duplex_step devA devB connA connB roleA roleB s s' -> DuplexInv nowA nowB s -> DuplexInv nowA nowB s'.
Proof.
  intros Hst [Hnet HA HB]. split.
  - etrans; [exact Hnet|by apply duplex_sim].
  - destruct Hst; cbn in *; try done. by eapply step_incoming.
  - destruct Hst; cbn in *; try done. by eapply step_incoming.
Qed.

Lemma incoming_init dev conn now : incoming_ok dev conn (spawn_gatt_worker now) [].
Proof.
  exists []. split; [done|]. split; [apply prefix_nil|]. intros _. split; [done|]. apply Nat.le_0_l.
Qed.

Lemma duplex_reachable nowA nowB s :
  rtc (duplex_step devA devB connA connB roleA roleB) (duplex_init nowA nowB) s ->
  DuplexInv nowA nowB s.
Proof.
  intros Hr. refine (rtc_ind_r (DuplexInv nowA nowB) _ _ _ s Hr).
  - split; [done|apply incoming_init..].
  - intros s1 s2 _ Hst HI. by eapply duplex_inv_step.
Qed.

(** What one worker gave to iroh, given what its channel delivered. *)
Lemma incoming_prefix dev conn w k l0 :
  incoming_ok dev conn (wk w) (wk_incoming w) ->
  delivered (gt_channel (wk w)) = List.filter deliverable (take k l0) ->
  exists l, wk_incoming w = mkIncomingPacket dev conn <$> l /\ l `prefix_of` List.filter deliverable l0.
Proof.
  intros (l & Hi & Hl & _) Hk. exists l. split; [done|]. etrans; [exact Hl|]. rewrite Hk.
  apply filter_take_prefix.
Qed.

(** C7. Packets reach iroh in order and at most once, in both directions.  With
    two GATT workers polled in any order, their send loops, timers and MTU
    resolvers included, over anything that loses messages but keeps their order,
    and with either worker torn down or aborted at any time, the packets each
    worker gives to iroh are tagged with its own device and pipe and are, in
    order, a prefix of the deliverable datagrams the other worker's channel
    accepted, as long as no retransmission repeats an acknowledgement more than
    nine fragments old. *)
Theorem gatt_pipes_in_order (nowA nowB : Instant) (s : Duplex) :
  rtc (duplex_step devA devB connA connB roleA roleB) (duplex_init nowA nowB) s ->
  (exists l, wk_incoming (dx_B s) = mkIncomingPacket devB connB <$> l /\
     l `prefix_of` List.filter deliverable (wk_accepted (dx_A s))) /\
  (exists l, wk_incoming (dx_A s) = mkIncomingPacket devA connA <$> l /\
     l `prefix_of` List.filter deliverable (wk_accepted (dx_B s))).
Proof.
  intros [Hnet HA HB]%duplex_reachable.
  apply net_delivered in Hnet as [[k Hk] [j Hj]]. cbn in Hk, Hj.
  split; [by eapply incoming_prefix|by eapply incoming_prefix].
Qed.
End Theorems.

(** Until the right worker's channel has accepted something, neither worker can
    repeat an old acknowledgement. *)
Lemma one_way_workers_fresh devA devB connA connB roleA roleB nowA nowB s :
  rtc (duplex_step devA devB connA connB roleA roleB) (duplex_init nowA nowB) s ->
  wk_accepted (dx_B s) = [] -> fresh (side_of (dx_A s)) /\ fresh (side_of (dx_B s)).
Proof. intros [Hnet _ _]%duplex_reachable E. exact (one_way_fresh _ _ _ _ _ Hnet E). Qed.

(** A datagram crosses the link and is given to iroh. *)
Lemma gatt_pipes_in_order_witness : exists s,
  let step := duplex_step "a" "b" 1 2 ConnectRole.Central ConnectRole.Peripheral in
  rtc step (duplex_init 0 0) s /\ wk_incoming (dx_B s) = [mkIncomingPacket "b" 2 [1; 0]] /\
  (exists l, wk_incoming (dx_B s) = mkIncomingPacket "b" 2 <$> l /\
     l `prefix_of` List.filter deliverable (wk_accepted (dx_A s))) /\
  (exists l, wk_incoming (dx_A s) = mkIncomingPacket "a" 1 <$> l /\
     l `prefix_of` List.filter deliverable (wk_accepted (dx_B s))).
Proof.
  eassert (rtc (duplex_step "a" "b" 1 2 ConnectRole.Central ConnectRole.Peripheral)
    (duplex_init 0 0) _) as Hr.
  { eapply rtc_l; [eapply dx_stepA, (wk_send _ _ _ _ (demo_send 0))|].
    eapply rtc_l; [eapply dx_stepA, (wk_poll _ _ _ _ 0 GattEvent.Outbound);
      [done|vm_compute; reflexivity|by intros [H _]]|].
    eapply rtc_l; [eapply dx_stepA, (wk_poll _ _ _ _ 0 (GattEvent.Loop false));
      [done|vm_compute; reflexivity|by intros [H _]]|].
    eapply rtc_l; [apply dx_arriveB|].
    eapply rtc_l; [eapply dx_stepB, (wk_poll _ _ _ _ 0 GattEvent.Inbound);
      [done|vm_compute; reflexivity|by intros [H _]]|].
    eapply rtc_l; [eapply dx_stepB, (wk_poll _ _ _ _ 0 GattEvent.Datagram);
      [done|vm_compute; reflexivity|by intros [H _]]|].
    eapply rtc_l; [eapply dx_stepB, (wk_poll _ _ _ _ 0 (GattEvent.Deliver true));
      [done|vm_compute; reflexivity|by intros [H _]]|].
    apply rtc_refl. }
  eexists. split; [exact Hr|]. split; [reflexivity|].
  exact (gatt_pipes_in_order "a" "b" 1 2 _ _ 0 0 _ Hr).
Defined.
