(* ===== verification/EndToEnd.v ===== *)
(** * EndToEnd: from [SendDatagram] to iroh, across two nodes

    The registries, the data pipes and the GATT workers of two nodes, with the
    radio and the event pumps between them as a link that may lose messages.  A
    datagram asked of one registry waits there, is handed to the pipe's channel,
    is forwarded by the supervisor, is accepted by the worker's reliable channel,
    crosses the link in fragments, waits in the other registry, and reaches iroh
    through the other pipe.  [RegistryFlow] covers the registries and [PipeSystem]
    the workers; here they are put together, with the supervisors between them. *)

From S2P Require Import Prelude Peer Dedup Mtu Routing L2cap Reliable ReliableFacts.
From S2P Require Import ReliableSystem ReliableDuplex SendLoop Registry RegistryInv RegistrySend.
From S2P Require Import RegistryFlow Pipe PipeFacts PipeSystem.
Open Scope Z_scope.

(** ** One node *)

(** A node, as far as one peer [D] is concerned: the registry with its store, the
    pipe, and the observations of [PipeSystem] on the pipe's worker. *)
Section Site.
Context {HI : HashIter} {MP : Mpsc}.
Context (D : DeviceId) (ho : OutboundTx) (hi : InboundTx).
Context (conn : StableConnId) (role : ConnectRole.t) (io_split : L2capChannel -> Reader * Writer).

Record Site := mkSite {
  si_traffic : Traffic;
  si_pipe : Pipe;
  si_worker : Worker;
}.

(** The observations follow the worker of the pipe, while there is one. *)
Definition track (p : Pipe) (w : Worker) : Worker :=
  match ws_gatt (pp_workers p) with Some g => on_task (fun _ => g) w | None => w end.

(** What the supervisor receives comes from the channels the registry fills. *)
Definition feeds (ev : PipeEvent.t) (t t' : Traffic) : Prop :=
  match ev with
  | PipeEvent.Outbound (Some x) =>
      traffic_step D ho hi t t' /\ tf_out t' = tf_out t ++ [x] /\ tf_in t' = tf_in t /\
      tf_arrived t' = tf_arrived t
  | PipeEvent.Inbound (Some b) =>
      traffic_step D ho hi t t' /\ tf_out t' = tf_out t /\ tf_in t' = tf_in t ++ [b] /\
      tf_arrived t' = tf_arrived t
  | PipeEvent.Outbound None | PipeEvent.Inbound None | PipeEvent.Poll _ => t' = t
  | PipeEvent.AddL2cap _ | PipeEvent.Gatt _ | PipeEvent.L2cap _ => False
  end.

(** A step of the node: the messages it takes from the link and those it writes.
    A worker retransmits only in the states [may_resend] allows. *)
Inductive site_step (may_resend : Worker -> Prop) : Site -> list Bytes -> list Bytes -> Site -> Prop :=
| ss_registry t t' p w bs :
    traffic_step D ho hi t t' -> tf_out t' = tf_out t -> tf_in t' = tf_in t ->
    tf_arrived t' = tf_arrived t ++ bs ->
    site_step may_resend (mkSite t p w) bs [] (mkSite t' p w)
| ss_sup t t' p p' w now ev :
    feeds ev t t' -> pipe_exec D conn role io_split now ev p = Some p' ->
    site_step may_resend (mkSite t p w) [] [] (mkSite t' p' (track p' w))
| ss_gatt t p p' w now ev g es g' :
    ws_gatt (pp_workers p) = Some g -> gatt_exec D conn role now ev g = Some (es, g') ->
    pipe_exec D conn role io_split now (PipeEvent.Gatt ev) p = Some p' ->
    ev <> GattEvent.Deliver false -> (resends es g -> may_resend w) ->
    site_step may_resend (mkSite t p w) [] (writes es) (mkSite t p' (observe es g' w)).

(** The acknowledgement that a retransmission would repeat is not too old. *)
Definition fresh_worker (w : Worker) : Prop := fresh (side_of w).

Lemma site_step_may may may' s cons out s' :
  site_step may s cons out s' -> may' (si_worker s) -> site_step may' s cons out s'.
Proof. intros []; cbn; intros; [by eapply ss_registry|by eapply ss_sup|by eapply ss_gatt]. Qed.

(** The node when a GATT pipe has been spawned for [D] and not yet announced. *)
Definition site_init (r : Registry) (en : Env) (now : Instant) : Site :=
  mkSite (mkTraffic r en false (pend D r) [] [] []) (run_data_pipe io_split now ConnectPath.Gatt None)
    (worker_init now).

(** No entry uses the pipe's channels yet, and no fragment of an earlier
    connection waits. *)
Definition at_rest (r : Registry) (en : Env) : Prop :=
  Own D ho hi false r /\ out_items ho en = [] /\ in_items hi en = [] /\ back D false r = [].

(** ** The supervisor of a GATT pipe *)

Record PipeOk (p : Pipe) (w : Worker) : Prop := {
  po_l2cap : ws_l2cap (pp_workers p) = None;
  po_sup : match pp_sup p with
           | Sup.Offering _ _ | Sup.Evicting _ _ _ | Sup.Complaining _ => False
           | _ => True
           end;
  po_worker : forall g, ws_gatt (pp_workers p) = Some g -> wk w = g;
  po_packets : packets (pp_effects p) = wk_incoming w;
}.

(** What an event of the supervisor does to the worker. *)
Definition sup_move (ev : PipeEvent.t) (w w' : Worker) : Prop :=
  w' = w \/
  match ev with
  | PipeEvent.Outbound (Some x) =>
      w' = on_task (push_outbound x) w /\
      bc_items (gt_outbound (wk w')) = bc_items (gt_outbound (wk w)) ++ [x]
  | PipeEvent.Inbound (Some b) => w' = on_task (push_inbound b) w
  | _ => w' = on_task signal_gatt w
  end.

Lemma on_task_id w g : wk w = g -> on_task (fun _ => g) w = w.
Proof. intros <-. by destruct w. Qed.

Lemma packets_app es es' : packets (es ++ es') = packets es ++ packets es'.
Proof. apply omap_app. Qed.

(** A supervisor left with no worker is done. *)
Lemma tear_ok now p w :
  PipeOk p w -> ws_gatt (pp_workers p) = None ->
  PipeOk (tear_l2cap now p) w /\ track (tear_l2cap now p) w = w.
Proof.
  intros [Hl _ Hw Hp] Hg. unfold tear_l2cap, track. rewrite Hl. cbn. rewrite Hg.
  split; [|done]. by constructor.
Qed.

Lemma teardown_move now p w :
  PipeOk p w ->
  PipeOk (teardown_worker_set now p) (track (teardown_worker_set now p) w) /\
  (track (teardown_worker_set now p) w = w \/
   track (teardown_worker_set now p) w = on_task signal_gatt w).
Proof.
  intros Hok. unfold teardown_worker_set. destruct (ws_gatt (pp_workers p)) as [g|] eqn:Eg.
  - destruct Hok as [Hl _ Hw Hp]. unfold track. cbn. specialize (Hw g Eg). split.
    + constructor; cbn; [done..| |done]. intros g'; cbn; congruence.
    + right. unfold on_task. by rewrite Hw.
  - destruct (tear_ok now p w Hok Eg) as [? ->]. auto.
Qed.

Lemma fall_back_move now x p w :
  PipeOk p w ->
  PipeOk (fall_back now x p) (track (fall_back now x p) w) /\
  (track (fall_back now x p) w = w \/
   track (fall_back now x p) w = on_task (push_outbound x) w /\
   bc_items (gt_outbound (wk (track (fall_back now x p) w)))
     = bc_items (gt_outbound (wk w)) ++ [x]).
Proof.
  intros Hok. pose proof Hok as [Hl _ Hw Hp]. unfold fall_back.
  assert (forall es, packets es = [] -> packets (pp_effects p ++ es) = wk_incoming w) as Hes.
  { intros es E. by rewrite packets_app, E, app_nil_r. }
  assert (forall es, packets es = [] -> let p' := teardown_worker_set now
    (mkPipe Sup.Select (set_gatt None (pp_workers p)) (pp_effects p ++ es)) in
    PipeOk p' (track p' w) /\ (track p' w = w \/ track p' w = on_task (push_outbound x) w /\
      bc_items (gt_outbound (wk (track p' w))) = bc_items (gt_outbound (wk w)) ++ [x])) as Hgone.
  { intros es E p'. destruct (tear_ok now (mkPipe Sup.Select (set_gatt None (pp_workers p))
      (pp_effects p ++ es)) w) as [Ho Ht];
      [by constructor; cbn; auto; intros g|done|].
    change p' with (tear_l2cap now (mkPipe Sup.Select (set_gatt None (pp_workers p))
      (pp_effects p ++ es))). rewrite Ht. auto. }
  destruct (ws_gatt (pp_workers p)) as [g|] eqn:Eg.
  - specialize (Hw g eq_refl).
    destruct (bounded_try_send (gt_outbound g) x) as [res q] eqn:Es.
    pose proof Es as Es'. apply try_send_cases in Es' as [(-> & _ & _ & Hq)|[(-> & _ & _)|(-> & _ & _)]].
    + cbn. unfold track. cbn. split.
      { constructor; cbn; [done..| |auto]. intros g'; cbn; congruence. }
      right. unfold on_task, push_outbound. rewrite Hw, Es. split; [done|]. by rewrite Hq.
    + unfold is_empty. rewrite Eg. unfold track. cbn. rewrite Eg, on_task_id by done. split; [|auto].
      constructor; cbn; auto. intros g'. rewrite Eg. by intros [= <-].
    + unfold is_empty. cbn [set_gatt ws_gatt ws_l2cap]. rewrite Hl. by apply Hgone.
  - unfold is_empty. rewrite Eg, Hl. specialize (Hgone [Effect.Wake x] eq_refl).
    assert (set_gatt None (pp_workers p) = pp_workers p) as E.
    { destruct (pp_workers p). cbn in *. by subst. }
    by rewrite E in Hgone.
Qed.

Lemma forward_inbound_move b p w :
  let p' := mkPipe Sup.Select (forward_inbound_gatt b (pp_workers p)) (pp_effects p) in
  PipeOk p w ->
  PipeOk p' (track p' w) /\ (track p' w = w \/ track p' w = on_task (push_inbound b) w).
Proof.
  intros p' [Hl _ Hw Hp]. unfold p', forward_inbound_gatt, track.
  destruct (ws_gatt (pp_workers p)) as [g|] eqn:Eg; cbn.
  2: { rewrite Eg. split; [|auto]. constructor; cbn; auto. by rewrite Eg. }
  specialize (Hw g eq_refl). destruct (bounded_try_send (gt_inbound g) b) as [res q] eqn:Es.
  pose proof Es as Es'. apply try_send_cases in Es' as [(-> & _ & _ & Hq)|[(-> & _ & _)|(-> & _ & _)]]; cbn.
  - split; [constructor; cbn; auto; congruence|]. right. unfold on_task, push_inbound.
    by rewrite Hw, Es.
  - rewrite Eg, on_task_id by done. split; [|auto]. constructor; cbn; auto. congruence.
  - split; [|auto]. by constructor; cbn; auto; intros g'.
Qed.

Lemma sup_exec now ev p p' w t t' :
  PipeOk p w -> feeds ev t t' -> pipe_exec D conn role io_split now ev p = Some p' ->
  PipeOk p' (track p' w) /\ sup_move ev w (track p' w).
Proof.
  intros Hok Hf E. destruct ev as [o|o|o|open|ev|ev]; try done; cbn in E.
  - destruct (is_sup_select (pp_sup p)) eqn:Esel; [|done]. injection E as <-. destruct o as [x|].
    + unfold forward_outbound. rewrite (po_l2cap _ _ Hok). by apply fall_back_move.
    + by apply teardown_move.
  - destruct (is_sup_select (pp_sup p)) eqn:Esel; [|done]. injection E as <-. destruct o as [b|].
    + by apply forward_inbound_move.
    + by apply teardown_move.
  - unfold sup_poll in E. pose proof Hok as [Hl Hs Hw Hp].
    destruct (pp_sup p) as [|x dl|x wd dl|x|dl|dl|] eqn:Es; try done; [|by rewrite Hl in E].
    apply bind_Some in E as (g & Hg & (es & Ha & [= <-])%bind_Some).
    assert (packets es = []) as Hes.
    { unfold await_gatt in Ha. destruct (gt_phase g); try (destruct (_ <=? _); [|done]);
        injection Ha as <-; try done; apply packets_Lost. }
    edestruct (tear_ok now (emit es (mkPipe (Sup.TearingGatt dl) (set_gatt None (pp_workers p))
      (pp_effects p))) w) as [Ho Ht]; [|done|].
    + constructor; cbn; [done|done|by intros g'|]. by rewrite packets_app, Hes, app_nil_r.
    + rewrite Ht. split; [done|by left].
Qed.

(** ** The sends of a node *)

(** The datagrams on their way to the channel of the worker. *)
Definition outgoing (w : Worker) : list Bytes := ps_datagram <$> bc_items (gt_outbound (wk w)).

Lemma move_outbound dev now g es g' :
  gatt_move dev conn role now g es g' ->
  accepts es g ++ (ps_datagram <$> bc_items (gt_outbound g'))
    `sublist_of` (ps_datagram <$> bc_items (gt_outbound g)).
Proof.
  intros Hm. assert (forall es, quiet es -> accepts es g = []) as Hq.
  { intros es0 [Hw _]. unfold accepts. by rewrite Hw. }
  destruct Hm as [x q ok c Hp Hpop He|bs q Hp Hpop Hb|bs q Hp Hpop Hb|Hp _|Hp _|d Hp Hn|d o Hp|Hp Hl|Hp
                 |o Hp|w m l c Hp Hlk Hlp|ma na fuel st n Hp Hn]; try done.
  - apply chan_pop_spec in Hpop as (-> & _ & _). unfold accepts. cbn. rewrite He.
    destruct ok; [by apply sublist_skip|by apply sublist_cons].
  - destruct o; [|done]. done.
  - cbn. unfold accepts. rewrite woken_Lost. apply sublist_nil_l.
  - cbn. unfold accepts, woken_sends. rewrite omap_app.
    pose proof (woken_Lost (bc_items (gt_outbound g))) as Hw. unfold woken_sends in Hw. rewrite Hw.
    destruct o; apply sublist_nil_l.
  - by rewrite Hq by apply quiet_write.
Qed.

(** ** The simulation *)

Record SiteInv (s : Site) : Prop := {
  st_own : Own D ho hi (tf_ann (si_traffic s)) (tf_reg (si_traffic s));
  st_pipe : PipeOk (si_pipe s) (si_worker s);
  st_sends : wk_accepted (si_worker s) ++ outgoing (si_worker s)
               ++ (ps_datagram <$> queued D ho (si_traffic s))
             `sublist_of` (ps_datagram <$> tf_asked (si_traffic s));
}.

(** Sends that move on, or are dropped, stay in order. *)
Lemma sends_pass a a' w w' po q q' xs l :
  a' ++ outgoing w' `sublist_of` a ++ outgoing w ++ (ps_datagram <$> po) ->
  po ++ q' `sublist_of` q ++ xs ->
  a ++ outgoing w ++ (ps_datagram <$> q) `sublist_of` (ps_datagram <$> l) ->
  a' ++ outgoing w' ++ (ps_datagram <$> q') `sublist_of` (ps_datagram <$> (l ++ xs)).
Proof.
  intros Hw Hq Hi. rewrite app_assoc. etrans; [by apply sublist_app; [exact Hw|]|].
  rewrite <- !app_assoc, <- fmap_app.
  etrans; [apply sublist_app; [done|apply sublist_app; [done|apply (fmap_sublist ps_datagram _ _ Hq)]]|].
  rewrite !fmap_app, !app_assoc, <- (app_assoc a). by apply sublist_app.
Qed.

Context (devR : DeviceId) (connR : StableConnId) (roleR : ConnectRole.t).
Local Abbreviation dstep := (duplex_step D devR conn connR role roleR).

Lemma loss_sublist A B x y y' z :
  y' `sublist_of` y -> rtc dstep (mkDuplex A B x (y ++ z)) (mkDuplex A B x (y' ++ z)).
Proof.
  intros Hs. assert (forall pre, rtc dstep (mkDuplex A B x (pre ++ y ++ z))
    (mkDuplex A B x (pre ++ y' ++ z))) as H; [|apply (H [])].
  induction Hs as [|m l1 l2 _ IH|m l1 l2 _ IH]; intros pre; [done| |].
  - specialize (IH (pre ++ [m])). by rewrite <- !app_assoc in IH.
  - eapply rtc_l; [apply (dx_lossBA _ _ _ _ _ _ A B x pre m (l2 ++ z))|apply IH].
Qed.

(** A step of the registry or its store, by what the pipe sees of it. *)
Lemma traffic_seen t t' po pi bs :
  traffic_step D ho hi t t' -> Own D ho hi (tf_ann t) (tf_reg t) ->
  tf_out t' = tf_out t ++ po -> tf_in t' = tf_in t ++ pi -> tf_arrived t' = tf_arrived t ++ bs ->
  exists xs, tf_asked t' = tf_asked t ++ xs /\ Own D ho hi (tf_ann t') (tf_reg t') /\
    po ++ queued D ho t' `sublist_of` queued D ho t ++ xs /\
    pi ++ buffered D hi t' `sublist_of` buffered D hi t ++ bs.
Proof.
  intros Hst Ho Eo Ei Ea.
  destruct (traffic_moves D ho hi t t' Hst Ho)
    as (xs & bs' & po' & pi' & Ex & Eb & Eo' & Ei' & Ho' & Hx & Hb).
  rewrite Eo in Eo'. rewrite Ei in Ei'. rewrite Ea in Eb. simplify_list_eq. eauto 10.
Qed.

(** What a step of the node does, seen from the two workers: [cons] comes off the
    link, [out] goes on the other one. *)
Definition simulates (s : Site) (cons out : list Bytes) (s' : Site) : Prop :=
  SiteInv s' /\ forall R x y,
    rtc dstep (mkDuplex (si_worker s) R x (buffered D hi (si_traffic s) ++ cons ++ y))
      (mkDuplex (si_worker s') R (x ++ out) (buffered D hi (si_traffic s') ++ y)).

Lemma registry_sim t t' p w bs :
  traffic_step D ho hi t t' -> tf_out t' = tf_out t -> tf_in t' = tf_in t ->
  tf_arrived t' = tf_arrived t ++ bs -> SiteInv (mkSite t p w) ->
  simulates (mkSite t p w) bs [] (mkSite t' p w).
Proof.
  intros Hst Eo Ei Ea [Ho Hp Hs]. cbn in *.
  destruct (traffic_seen t t' [] [] bs Hst Ho) as (xs & Ex & Ho' & Hx & Hb);
    [by rewrite app_nil_r..|done|]. split.
  - constructor; cbn; [done..|]. rewrite Ex. eapply sends_pass; [|exact Hx|exact Hs].
    by rewrite app_nil_r.
  - intros R x y. cbn. rewrite !app_nil_r, app_assoc. by apply loss_sublist.
Qed.

Lemma outbound_sim t t' p p' w w' x :
  feeds (PipeEvent.Outbound (Some x)) t t' -> sup_move (PipeEvent.Outbound (Some x)) w w' ->
  PipeOk p' w' -> SiteInv (mkSite t p w) -> simulates (mkSite t p w) [] [] (mkSite t' p' w').
Proof.
  intros (Hst & Eo & Ei & Ea) Hm Hp' [Ho _ Hs]. cbn in *.
  destruct (traffic_seen t t' [x] [] [] Hst Ho) as (xs & Ex & Ho' & Hx & Hb);
    [by rewrite ?app_nil_r..|]. split.
  - constructor; cbn; [done..|]. rewrite Ex. eapply sends_pass; [|exact Hx|exact Hs].
    destruct Hm as [-> |[-> Hi]]; [by rewrite app_assoc; apply sublist_inserts_r|].
    unfold outgoing at 1. rewrite Hi, fmap_app. done.
  - intros R a y. cbn. rewrite !app_nil_r in *. etrans; [by apply loss_sublist, Hb|].
    destruct Hm as [-> |[-> _]]; [done|]. apply rtc_once.
    pose proof (dx_stepA D devR conn connR role roleR w R a (buffered D hi t' ++ y) []
      _ (wk_send _ _ _ w x)) as Hd. by rewrite app_nil_r in Hd.
Qed.

Lemma inbound_sim t t' p p' w w' b :
  feeds (PipeEvent.Inbound (Some b)) t t' -> sup_move (PipeEvent.Inbound (Some b)) w w' ->
  PipeOk p' w' -> SiteInv (mkSite t p w) -> simulates (mkSite t p w) [] [] (mkSite t' p' w').
Proof.
  intros (Hst & Eo & Ei & Ea) Hm Hp' [Ho _ Hs]. cbn in *.
  destruct (traffic_seen t t' [] [b] [] Hst Ho) as (xs & Ex & Ho' & Hx & Hb);
    [by rewrite ?app_nil_r..|]. split.
  - constructor; cbn; [done..|]. rewrite Ex. eapply sends_pass; [|exact Hx|exact Hs].
    rewrite app_nil_r. by destruct Hm as [-> | ->].
  - intros R a y. cbn. rewrite !app_nil_r in *. etrans; [by apply loss_sublist, Hb|].
    destruct Hm as [-> | ->]; apply rtc_once; [apply (dx_lossBA _ _ _ _ _ _ w R a [])|apply dx_arriveA].
Qed.

Lemma teardown_sim t p p' w w' :
  w' = w \/ w' = on_task signal_gatt w -> PipeOk p' w' -> SiteInv (mkSite t p w) ->
  simulates (mkSite t p w) [] [] (mkSite t p' w').
Proof.
  intros Hm Hp' [Ho _ Hs]. cbn in *. split.
  - constructor; cbn; [done..|]. by destruct Hm as [-> | ->].
  - intros R a y. cbn. rewrite app_nil_r. destruct Hm as [-> | ->]; [done|]. apply rtc_once.
    pose proof (dx_stepA D devR conn connR role roleR w R a (buffered D hi t ++ y) []
      _ (wk_signal _ _ _ w)) as Hd. by rewrite app_nil_r in Hd.
Qed.

Lemma gatt_sim t p p' w now ev g es g' :
  ws_gatt (pp_workers p) = Some g -> gatt_exec D conn role now ev g = Some (es, g') ->
  pipe_exec D conn role io_split now (PipeEvent.Gatt ev) p = Some p' ->
  ev <> GattEvent.Deliver false -> (resends es g -> fresh (side_of w)) -> SiteInv (mkSite t p w) ->
  simulates (mkSite t p w) [] (writes es) (mkSite t p' (observe es g' w)).
Proof.
  intros Hg He Hpe Hev Hfr [Ho [Hl Hsup Hw Hpk] Hs]. cbn in *.
  rewrite Hg in Hpe. cbn in Hpe. rewrite He in Hpe. injection Hpe as <-.
  pose proof (Hw g Hg) as Hwg. subst g. split.
  - constructor; cbn; [done| |].
    + constructor; cbn; [done..|by intros g0 [= <-]|]. by rewrite packets_app, Hpk.
    + rewrite <- (app_nil_r (tf_asked t)).
      eapply (sends_pass (wk_accepted w) _ w _ []); [|by rewrite app_nil_r|exact Hs].
      rewrite app_nil_r, <- app_assoc. apply sublist_app; [done|].
      eapply move_outbound. by eapply gatt_exec_move.
  - intros R a y. cbn. apply rtc_once. apply dx_stepA. by eapply wk_poll.
Qed.

Lemma site_sim s cons out s' :
  site_step fresh_worker s cons out s' -> SiteInv s -> simulates s cons out s'.
Proof.
  intros [t t' p w bs Hst Eo Ei Ea|t t' p p' w now ev Hf He|t p p' w now ev g es g' Hg He Hpe Hev Hfr] HI'.
  - by apply registry_sim.
  - destruct (sup_exec now ev p p' w t t' (st_pipe _ HI') Hf He) as [Hp' Hm].
    destruct ev as [[x|]|[b|]|o|open|ev|ev]; try done.
    + by eapply outbound_sim.
    + cbn in Hf. subst t'. by eapply teardown_sim.
    + by eapply inbound_sim.
    + cbn in Hf. subst t'. by eapply teardown_sim.
    + cbn in Hf. subst t'. by eapply teardown_sim.
  - by eapply gatt_sim.
Qed.

Lemma site_init_inv r en now : at_rest r en -> SiteInv (site_init r en now).
Proof.
  intros (Ho & Eo & Ei & Eb). constructor; cbn; [done| |].
  - constructor; cbn; auto. congruence.
  - unfold queued. cbn. by rewrite Eo.
Qed.
End Site.

(** ** Two nodes *)

Section System.
Context {HI : HashIter} {MP : Mpsc}.
(** Each node's name for the other, its channels, its pipe and its role. *)
Context (DA DB : DeviceId) (hoA hoB : OutboundTx) (hiA hiB : InboundTx).
Context (connA connB : StableConnId) (roleA roleB : ConnectRole.t).
Context (io_split : L2capChannel -> Reader * Writer).

Record System := mkSystem {
  sy_A : Site;
  sy_B : Site;
  sy_ab : list Bytes;
  sy_ba : list Bytes;
}.

Inductive system_step (may_resend : Worker -> Prop) : System -> System -> Prop :=
| sy_stepA A B x cons y out A' :
    site_step DA hoA hiA connA roleA io_split may_resend A cons out A' ->
    system_step may_resend (mkSystem A B x (cons ++ y)) (mkSystem A' B (x ++ out) y)
| sy_stepB A B cons x y out B' :
    site_step DB hoB hiB connB roleB io_split may_resend B cons out B' ->
    system_step may_resend (mkSystem A B (cons ++ x) y) (mkSystem A B' x (y ++ out))
| sy_lossAB A B x1 m x2 y : system_step may_resend (mkSystem A B (x1 ++ m :: x2) y) (mkSystem A B (x1 ++ x2) y)
| sy_lossBA A B x y1 m y2 : system_step may_resend (mkSystem A B x (y1 ++ m :: y2)) (mkSystem A B x (y1 ++ y2)).

(** What waits in a registry is still in transit. *)
Definition workers (s : System) : Duplex :=
  mkDuplex (si_worker (sy_A s)) (si_worker (sy_B s))
    (buffered DB hiB (si_traffic (sy_B s)) ++ sy_ab s)
    (buffered DA hiA (si_traffic (sy_A s)) ++ sy_ba s).

Record SystemInv (nowA nowB : Instant) (s : System) : Prop := {
  yi_A : SiteInv DA hoA hiA (sy_A s);
  yi_B : SiteInv DB hoB hiB (sy_B s);
  yi_workers : rtc (duplex_step DA DB connA connB roleA roleB) (duplex_init nowA nowB) (workers s);
}.

Definition flip_duplex (s : Duplex) : Duplex := mkDuplex (dx_B s) (dx_A s) (dx_ba s) (dx_ab s).

Lemma duplex_flip s s' :
  rtc (duplex_step DB DA connB connA roleB roleA) s s' ->
  rtc (duplex_step DA DB connA connB roleA roleB) (flip_duplex s) (flip_duplex s').
Proof.
  induction 1 as [|s1 s2 s3 Hst _ IH]; [done|]. eapply rtc_l; [|exact IH].
  by destruct Hst; constructor.
Qed.

Lemma system_inv nowA nowB s s' :
  system_step fresh_worker s s' -> SystemInv nowA nowB s -> SystemInv nowA nowB s'.
Proof.
  intros [A B x cons y out A' Hst|A B cons x y out B' Hst|A B x1 m x2 y|A B x y1 m y2] [HA HB Hw];
    cbn in HA, HB.
  - destruct (site_sim _ _ _ _ _ _ DB connB roleB _ _ _ _ Hst HA) as [HA' Hsim].
    constructor; cbn; [done..|]. etrans; [exact Hw|]. unfold workers. cbn. rewrite (app_assoc _ x). apply Hsim.
  - destruct (site_sim _ _ _ _ _ _ DA connA roleA _ _ _ _ Hst HB) as [HB' Hsim].
    constructor; cbn; [done..|]. etrans; [exact Hw|]. unfold workers. cbn. rewrite (app_assoc _ y).
    exact (duplex_flip _ _ (Hsim (si_worker A) (buffered DA hiA (si_traffic A) ++ y) x)).
  - constructor; cbn; [done..|]. eapply rtc_r; [exact Hw|]. unfold workers. cbn. rewrite !app_assoc.
    apply dx_lossAB.
  - constructor; cbn; [done..|]. eapply rtc_r; [exact Hw|]. unfold workers. cbn. rewrite !app_assoc.
    apply dx_lossBA.
Qed.

Definition system_init (rA rB : Registry) (enA enB : Env) (nowA nowB : Instant) : System :=
  mkSystem (site_init DA io_split rA enA nowA) (site_init DB io_split rB enB nowB) [] [].

Lemma system_reachable rA rB enA enB nowA nowB s :
  at_rest DA hoA hiA rA enA -> at_rest DB hoB hiB rB enB ->
  rtc (system_step fresh_worker) (system_init rA rB enA enB nowA nowB) s -> SystemInv nowA nowB s.
Proof.
  intros HA HB Hr. refine (rtc_ind_r (SystemInv nowA nowB) _ _ _ s Hr).
  - constructor; [by apply site_init_inv..|]. destruct HA as (_ & _ & EA & BA), HB as (_ & _ & EB & BB).
    unfold workers, buffered. cbn in *. rewrite EA, EB. cbn. by rewrite BA, BB.
  - intros s1 s2 _ Hst Hi. by eapply system_inv.
Qed.

(** What the pipe of one node gave to iroh. *)
Definition given (s : Site) : list IncomingPacket := packets (pp_effects (si_pipe s)).
(** What its registry was asked to send to the other node. *)
Definition requested (s : Site) : list Bytes := ps_datagram <$> tf_asked (si_traffic s).

Lemma filter_sublist {A} (f : A -> bool) l k :
  l `sublist_of` k -> List.filter f l `sublist_of` List.filter f k.
Proof. induction 1; cbn; [done| |]; destruct (f _); auto using sublist. Qed.

(** The packets given to one node, from the datagrams requested of the other. *)
Lemma site_given DX hoX hiX DY hoY hiY connY X Y l :
  SiteInv DX hoX hiX X -> SiteInv DY hoY hiY Y ->
  wk_incoming (si_worker Y) = mkIncomingPacket DY connY <$> l ->
  l `prefix_of` List.filter deliverable (wk_accepted (si_worker X)) ->
  exists l, given Y = mkIncomingPacket DY connY <$> l /\
    l `sublist_of` List.filter deliverable (requested X).
Proof.
  intros [_ _ HX] [_ [_ _ _ Hp] _] Hi [k Hl]. exists l. split; [by unfold given; rewrite Hp|].
  etrans; [|apply filter_sublist; etrans; [|exact HX]; by apply sublist_inserts_r].
  rewrite Hl. by apply sublist_inserts_r.
Qed.

(** ** When one node only answers *)

Lemma traffic_asked D ho hi t t' : traffic_step D ho hi t t' -> exists xs, tf_asked t' = tf_asked t ++ xs.
Proof. intros []; cbn; eauto; exists []; by rewrite app_nil_r. Qed.

Lemma feeds_asked D ho hi ev t t' : feeds D ho hi ev t t' -> exists xs, tf_asked t' = tf_asked t ++ xs.
Proof.
  destruct ev as [[x|]|[b|]|o|open|ev|ev]; cbn; try done; try (intros ->; exists []; by rewrite app_nil_r).
  all: intros [Hst _]; by eapply traffic_asked.
Qed.

Lemma site_requested D ho hi conn role may s cons out s' :
  site_step D ho hi conn role io_split may s cons out s' -> exists l, requested s' = requested s ++ l.
Proof.
  intros [t t' p w bs Hst|t t' p p' w now ev Hf|]; unfold requested; cbn.
  - apply traffic_asked in Hst as [xs ->]. rewrite fmap_app. eauto.
  - apply feeds_asked in Hf as [xs ->]. rewrite fmap_app. eauto.
  - exists []. by rewrite app_nil_r.
Qed.

(** While nothing is requested of the second node, no worker of either can repeat
    an old acknowledgement. *)
Lemma one_way_fresh_workers nowA nowB s :
  SystemInv nowA nowB s -> requested (sy_B s) = [] ->
  fresh_worker (si_worker (sy_A s)) /\ fresh_worker (si_worker (sy_B s)).
Proof.
  intros [_ [_ _ Hs] Hw] Hr. unfold requested in Hr. rewrite Hr in Hs.
  apply sublist_nil_r, app_nil in Hs as [Hs _].
  exact (one_way_workers_fresh _ _ _ _ _ _ _ _ _ Hw Hs).
Qed.

Lemma one_way_system rA rB enA enB nowA nowB s :
  at_rest DA hoA hiA rA enA -> at_rest DB hoB hiB rB enB ->
  rtc (system_step (fun _ => True)) (system_init rA rB enA enB nowA nowB) s ->
  requested (sy_B s) = [] ->
  rtc (system_step fresh_worker) (system_init rA rB enA enB nowA nowB) s.
Proof.
  intros HA HB Hr. refine (rtc_ind_r (fun s => requested (sy_B s) = [] ->
    rtc (system_step fresh_worker) (system_init rA rB enA enB nowA nowB) s) _ _ _ s Hr); [done|].
  intros s1 s2 _ Hst IH E2.
  assert (requested (sy_B s1) = []) as E1.
  { destruct Hst as [|A B cons x y out B' Hst| |]; try done. apply site_requested in Hst as [l Hl].
    cbn in *. rewrite Hl in E2. by apply app_nil in E2 as [? _]. }
  specialize (IH E1).
  destruct (one_way_fresh_workers _ _ _ (system_reachable _ _ _ _ _ _ _ HA HB IH) E1) as [FA FB].
  eapply rtc_r; [exact IH|].
  destruct Hst; cbn in *; constructor; by eapply site_step_may.
Qed.

(** What the two nodes gave to iroh. *)
Lemma given_in_order rA rB enA enB nowA nowB s :
  at_rest DA hoA hiA rA enA -> at_rest DB hoB hiB rB enB ->
  rtc (system_step fresh_worker) (system_init rA rB enA enB nowA nowB) s ->
  (exists l, given (sy_B s) = mkIncomingPacket DB connB <$> l /\
     l `sublist_of` List.filter deliverable (requested (sy_A s))) /\
  (exists l, given (sy_A s) = mkIncomingPacket DA connA <$> l /\
     l `sublist_of` List.filter deliverable (requested (sy_B s))).
Proof.
  intros HA HB Hr. destruct (system_reachable _ _ _ _ _ _ _ HA HB Hr) as [IA IB Hw].
  apply duplex_reachable in Hw as [Hnet JA JB]. apply net_delivered in Hnet as [[k Hk] [j Hj]].
  destruct (incoming_prefix _ _ _ _ _ JB Hk) as (l & El & Hl).
  destruct (incoming_prefix _ _ _ _ _ JA Hj) as (l' & El' & Hl').
  split; [by eapply (site_given DA hoA hiA)|by eapply (site_given DB hoB hiB)].
Qed.

(** C1. From the request to iroh, across two nodes.  Two nodes run their
    registries, handling any commands for any devices, the supervisors of a GATT
    pipe each, the workers of those pipes and their send loops, over a link that
    loses messages but keeps their order; datagrams are requested at any time,
    wait in the registry, its channels and the supervisor's, and any of them may
    be dropped on the way.  Both start with a new pipe whose channels no peer uses
    and without fragments of an earlier connection; a pipe is announced to its
    registry at most once, is given no L2CAP channel, and iroh keeps taking its
    packets.

    In every run in which a worker retransmits only while the acknowledgement the
    fragment repeats is no more than nine fragments old ([fresh]), the packets the
    pipe of either node gives to iroh carry that node's name for the other and the
    pipe's identifier, and are, in order and at most once each, among the
    deliverable datagrams that [SendDatagram] commands requested of the other.  In
    every run in which nothing is requested of the second node this holds without
    a condition on retransmissions, and the first node is given nothing. *)
Theorem end_to_end_in_order (rA rB : Registry) (enA enB : Env) (nowA nowB : Instant) (s : System) :
  at_rest DA hoA hiA rA enA -> at_rest DB hoB hiB rB enB ->
  (rtc (system_step fresh_worker) (system_init rA rB enA enB nowA nowB) s ->
   (exists l, given (sy_B s) = mkIncomingPacket DB connB <$> l /\
      l `sublist_of` List.filter deliverable (requested (sy_A s))) /\
   (exists l, given (sy_A s) = mkIncomingPacket DA connA <$> l /\
      l `sublist_of` List.filter deliverable (requested (sy_B s)))) /\
  (rtc (system_step (fun _ => True)) (system_init rA rB enA enB nowA nowB) s ->
   requested (sy_B s) = [] ->
   (exists l, given (sy_B s) = mkIncomingPacket DB connB <$> l /\
      l `sublist_of` List.filter deliverable (requested (sy_A s))) /\
   given (sy_A s) = []).
Proof.
  intros HA HB. split; [by apply given_in_order|]. intros Hr E.
  pose proof (one_way_system _ _ _ _ _ _ _ HA HB Hr E) as Hf.
  destruct (given_in_order _ _ _ _ _ _ _ HA HB Hf) as [HAB (l & -> & Hl)]. split; [done|].
  rewrite E in Hl. by apply sublist_nil_r in Hl as ->.
Qed.
End System.

(** A datagram is requested of a node that does not know the peer yet; the peer is
    seen and dialled, a pipe comes up, and the datagram crosses to the other node,
    whose pipe comes up when the fragment arrives, and to iroh. *)
Definition demo_system : System :=
  system_init "b" "a" demo_split (Registry_new L2capPolicy.Disabled demo_peer)
    (Registry_new L2capPolicy.Disabled demo_me) (flow_env [] []) (flow_env [] []) 0 0.
Definition demo_step (may_resend : Worker -> Prop) : relation System :=
  system_step "b" "a" 1 1 2 2 1 2 ConnectRole.Central ConnectRole.Peripheral demo_split may_resend.

Lemma registry_at_rest D policy me : at_rest D 1 2 (Registry_new policy me) (flow_env [] []).
Proof. split_and!; [by intros d e|done..]. Qed.

(** The steps of the run below. *)
Ltac at_A := eapply rtc_l; [eapply (sy_stepA _ _ _ _ _ _ _ _ _ _ _ _ _ _ _ [])|].
Ltac at_B cons := eapply rtc_l; [eapply (sy_stepB _ _ _ _ _ _ _ _ _ _ _ _ _ _ cons)|].
Ltac commanded now cmd :=
  eapply ss_registry;
    [eapply (tr_handle _ _ _ _ _ _ _ _ _ _ now 0 cmd); [vm_compute; reflexivity|done]|reflexivity..].
Ltac announced now :=
  eapply ss_registry;
    [eapply (tr_announce _ _ _ _ _ _ _ _ _ now 0 1 3 4); vm_compute; reflexivity|reflexivity..].
Ltac polled ev :=
  eapply (ss_gatt _ _ _ _ _ _ _ _ _ _ _ 0 ev);
    [reflexivity|vm_compute; reflexivity|vm_compute; reflexivity|done|by intros [H _]].

Lemma end_to_end_in_order_witness : exists s,
  (forall may_resend, rtc (demo_step may_resend) demo_system s) /\
  given (sy_B s) = [mkIncomingPacket "a" 2 [1; 0]] /\
  ((exists l, given (sy_B s) = mkIncomingPacket "a" 2 <$> l /\
      l `sublist_of` List.filter deliverable (requested (sy_A s))) /\
   (exists l, given (sy_A s) = mkIncomingPacket "b" 1 <$> l /\
      l `sublist_of` List.filter deliverable (requested (sy_B s)))) /\
  ((exists l, given (sy_B s) = mkIncomingPacket "a" 2 <$> l /\
      l `sublist_of` List.filter deliverable (requested (sy_A s))) /\
   given (sy_A s) = []).
Proof.
  eassert (forall may, rtc (demo_step may) demo_system _) as Hr.
  { intros may. at_A. { commanded 0 (PeerCommand.SendDatagram "b" None 0 [1; 0] 0). }
    at_A. { commanded 1 (PeerCommand.Advertised (prefix_from_endpoint demo_me) "b" None). }
    at_A. { commanded 2 (PeerCommand.ConnectSucceeded "b" 2 (gatt_channel 0)). }
    at_A. { announced 3. }
    at_A. { eapply (ss_sup _ _ _ _ _ _ _ _ _ _ _ _ 3 (PipeEvent.Outbound (Some (mkPendingSend 0 [1; 0] 0))));
            [split; [eapply (tr_outbound _ _ _ _ _ (flow_env [] [])); reflexivity|done]
            |vm_compute; reflexivity]. }
    at_A. { polled GattEvent.Outbound. }
    at_A. { polled (GattEvent.Loop false). }
    at_B [[48; 0; 1; 0; 90]]. { commanded 4 (PeerCommand.InboundGattFragment "a"
      FragmentSource.PeripheralReceivedC2p [48; 0; 1; 0; 90]). }
    at_B (@nil Bytes). { announced 5. }
    at_B (@nil Bytes). { eapply (ss_sup _ _ _ _ _ _ _ _ _ _ _ _ 5
        (PipeEvent.Inbound (Some [48; 0; 1; 0; 90])));
      [split; [eapply (tr_inbound _ _ _ _ _ (flow_env [] [])); reflexivity|done]
      |vm_compute; reflexivity]. }
    at_B (@nil Bytes). { polled GattEvent.Inbound. }
    at_B (@nil Bytes). { polled GattEvent.Datagram. }
    at_B (@nil Bytes). { polled (GattEvent.Deliver true). }
    apply rtc_refl. }
  eexists. split; [exact Hr|]. split; [reflexivity|].
  pose proof (fun s => end_to_end_in_order "b" "a" 1 1 2 2 1 2 ConnectRole.Central ConnectRole.Peripheral
    demo_split _ _ _ _ 0 0 s (registry_at_rest "b" L2capPolicy.Disabled demo_peer)
    (registry_at_rest "a" L2capPolicy.Disabled demo_me)) as H.
  split; [exact (proj1 (H _) (Hr _))|exact (proj2 (H _) (Hr _) eq_refl)].
Defined.
