(* ===== verification/RegistryHazards.v ===== *)
(** * RegistryHazards: what an entry keeps from one connection to the next

    Three runs of the registry in which a field of an entry outlives the
    connection it belongs to: the fragments that waited for a pipe, the pipe
    itself, and the role.  The first is why [EndToEnd] starts without fragments of
    an earlier connection. *)

From S2P Require Import Prelude Peer Dedup Mtu Reliable ReliableSystem Registry RegistryInv.
From S2P Require Import RegistrySend RegistryFlow Pipe.
Open Scope Z_scope.

(** ** A fragment of an earlier connection *)

(** A fresh channel with a datagram to send, and its first message. *)
Definition first_send (d : Bytes) : option (SendAction.t * ReliableChannel) :=
  next_send_action 0 (enqueue_datagram d (ReliableChannel_new 0 INITIAL_CHUNK_SIZE)).2.
Definition first_message (d : Bytes) : list Bytes :=
  from_option (fun x => ReliableSystem.emit x.1) [] (first_send d).

(** The peer is dialled, its first fragment arrives before the pipe is up, the
    connection drops, and the peer dials us. *)
Definition two_connections (first second : Bytes) : list (Instant * PeerCommand.t) :=
  [(0, PeerCommand.SendDatagram "dev" None 0 [9] 0);
   (1, PeerCommand.Advertised (prefix_from_endpoint demo_me) "dev" None);
   (2, PeerCommand.ConnectSucceeded "dev" 2 (gatt_channel 0));
   (3, PeerCommand.InboundGattFragment "dev" FragmentSource.CentralReceivedP2c first);
   (4, PeerCommand.CentralDisconnected "dev" DisconnectCause.LinkLoss);
   (5, PeerCommand.InboundGattFragment "dev" FragmentSource.PeripheralReceivedC2p second)].

(** C38. A fragment of an earlier connection takes the place of the next one's
    datagram.  A drain keeps the fragments that waited for a pipe, so the pipe of
    the next connection is fed them first: its fresh channel delivers the old
    datagram, takes the first fragment of the new connection for a repetition, and
    acknowledges it.  The peer then has nothing in flight, although its datagram
    was not delivered and never will be. *)
Theorem stale_fragment_swallows_datagram :
  exists f g h r acts r' en' peer ack,
    first_message [1] = [f] /\ first_send [2] = Some (SendAction.Send g, peer) /\
    run_script (flow_env [] []) (two_connections f g)
      ([], Registry_new L2capPolicy.Disabled demo_peer) = Some (h, r) /\
    handle 6 0 (PeerCommand.DataPipeReady "dev" 2 1 2 3 4) r (flow_env [] []) = Some (acts, r', en') /\
    in_items 2 en' = [f; g] /\
    let c := foldl (fun c m => receive_fragment 6 m c) (ReliableChannel_new 6 INITIAL_CHUNK_SIZE)
               (in_items 2 en') in
    delivered c = [[1]] /\
    option_map (ReliableSystem.emit ∘ fst) (next_send_action (6 + ACK_DELAY) c) = Some [ack] /\
    in_flight (state (receive_fragment 7 ack peer)) = [].
Proof.
  exists [48; 0; 1; 90], [48; 0; 2; 90]. do 7 eexists. cbv zeta.
  repeat (split; [vm_compute; reflexivity|]). vm_compute. reflexivity.
Qed.

(** ** A power cycle keeps the old pipe *)

Definition power_cycled : list (Instant * PeerCommand.t) :=
  [(0, PeerCommand.InboundGattFragment "dev" FragmentSource.PeripheralReceivedC2p [0; 0]);
   (1, PeerCommand.DataPipeReady "dev" 1 1 2 3 4);
   (2, PeerCommand.AdapterStateChanged false);
   (3, PeerCommand.AdapterStateChanged true);
   (4, PeerCommand.Tick 4);
   (5, PeerCommand.ConnectSucceeded "dev" 3 (gatt_channel 0))].

(** After the adapter was switched off and on and the peer dialled again, the
    registry has asked for a new pipe, but the entry still holds the one of the
    lost connection: a fragment of the new connection is put on its channel, and
    the backlog the new pipe will be fed stays empty. *)
Lemma power_cycle_feeds_old_pipe (b : Bytes) :
  exists h r acts r' en',
    run_script (flow_env [] []) power_cycled ([], Registry_new L2capPolicy.Disabled demo_me)
      = Some (h, r) /\
    PeerAction.StartDataPipe "dev" 3 2 ConnectRole.Peripheral None ConnectPath.Gatt None ∈ h /\
    handle 6 0 (PeerCommand.InboundGattFragment "dev" FragmentSource.CentralReceivedP2c b) r
      (flow_env [] []) = Some (acts, r', en') /\
    in_items 2 en' = [b] /\ rx_backlog <$> peers r' !! "dev" = Some [].
Proof.
  do 5 eexists. split; [vm_compute; reflexivity|].
  split; [repeat (apply list_elem_of_here || apply list_elem_of_further)|].
  repeat (split; [vm_compute; reflexivity|]). vm_compute. reflexivity.
Qed.

(** ** A redial keeps the old role *)

(** The peer dialled us, unsubscribed and was drained; later it is seen again and
    a send makes us dial it. *)
Definition redialled : list (Instant * PeerCommand.t) :=
  [(0, PeerCommand.PeripheralClientSubscribed "dev" 3 None);
   (1, PeerCommand.PeripheralClientUnsubscribed "dev" 3);
   (2 + 2 * DRAINING_TIMEOUT, PeerCommand.Tick (2 + 2 * DRAINING_TIMEOUT));
   (3 + 2 * DRAINING_TIMEOUT, PeerCommand.Advertised (prefix_from_endpoint demo_me) "dev" None);
   (4 + 2 * DRAINING_TIMEOUT, PeerCommand.SendDatagram "dev" None 1 [9] 0)].

(** C39. A peer that once dialled us is dialled with the wrong role.  The entry of a
    peer that connected to us keeps the peripheral role after its connection is
    drained; when the registry later dials the peer itself and the connect
    succeeds, the pipe it asks for still has the peripheral role, so the pipe
    writes through a characteristic of our own GATT server instead of the peer's. *)
Theorem redial_keeps_peripheral_role :
  exists h r acts r' en',
    run_script (flow_env [] []) redialled ([], Registry_new L2capPolicy.Disabled demo_peer)
      = Some (h, r) /\
    last h = Some (PeerAction.StartConnect "dev" 0 5) /\
    handle (5 + 2 * DRAINING_TIMEOUT) 0 (PeerCommand.ConnectSucceeded "dev" 5 (gatt_channel 0)) r
      (flow_env [] []) = Some (acts, r', en') /\
    acts = [PeerAction.ReadVersion "dev" 5;
            PeerAction.StartDataPipe "dev" 5 2 ConnectRole.Peripheral None ConnectPath.Gatt None].
Proof. do 5 eexists. repeat (split; [vm_compute; reflexivity|]). vm_compute. reflexivity. Qed.
