(* ===== verification/ChatProtocol.v ===== *)
(** * ChatProtocol: messages and files of the chat demo ([demos/protocol], [demos/support])

    [ChatMsg] and its framing on a stream, the file of known peers, and the file
    with the secret key.  A Rust [String] is the list of its UTF-8 bytes.  The
    [postcard] codec and the text form of an [EndpointId] are code outside the
    repository: classes with their round-trip laws. *)

From S2P Require Import Prelude Peer.
Open Scope Z_scope.

Abbreviation Text := (list Z) (only parsing).

(** The bytes of an ASCII literal. *)
Definition str (s : string) : Text :=
  (fun c => Z.of_N (Ascii.N_of_ascii c)) <$> String.list_ascii_of_string s.

Definition RETRY_MIN : Duration := from_secs 2.
Definition RETRY_MAX : Duration := from_secs 30.

(** ** Lines of a text *)

(** [split_inclusive('\n')]: every piece without its line feed, and whether it
    had one. *)
Fixpoint split_inclusive (s cur : Text) : list (Text * bool) :=
  match s with
  | [] => match cur with [] => [] | _ => [(cur, false)] end
  | c :: s' => if c =? 10 then (cur, true) :: split_inclusive s' []
               else split_inclusive s' (cur ++ [c])
  end.

Definition strip_cr (l : Text) : Text :=
  match last l with
  | Some 13 => removelast l
  | _ => l
  end.

(** [str::lines]. *)
Definition lines (s : Text) : list Text :=
  (fun '(l, nl) => if nl : bool then strip_cr l else l) <$> split_inclusive s [].

(** How many bytes of white space a text begins with: a character with the
    Unicode property White_Space, encoded in UTF-8. *)
Definition white_prefix (s : Text) : nat :=
  match s with
  | b :: _ =>
      if ((9 <=? b) && (b <=? 13)) || (b =? 32) then 1%nat else
      match s with
      | 0xC2 :: b1 :: _ => if (b1 =? 0x85) || (b1 =? 0xA0) then 2%nat else 0%nat
      | 0xE1 :: 0x9A :: 0x80 :: _ => 3%nat
      | 0xE2 :: 0x80 :: b2 :: _ =>
          if ((0x80 <=? b2) && (b2 <=? 0x8A)) || (b2 =? 0xA8) || (b2 =? 0xA9) || (b2 =? 0xAF)
          then 3%nat else 0%nat
      | 0xE2 :: 0x81 :: 0x9F :: _ => 3%nat
      | 0xE3 :: 0x80 :: 0x80 :: _ => 3%nat
      | _ => 0%nat
      end
  | [] => 0%nat
  end.

Fixpoint trim_start (fuel : nat) (s : Text) : Text :=
  match fuel, white_prefix s with
  | S fuel', S _ as n => trim_start fuel' (drop n s)
  | _, _ => s
  end.

(** The end of a text: its last one, two or three bytes are white space. *)
Definition white_suffix (s : Text) : nat :=
  let ends n := (n <=? length s)%nat && (white_prefix (drop (length s - n) s) =? n)%nat in
  if ends 1%nat then 1%nat else if ends 2%nat then 2%nat else if ends 3%nat then 3%nat else 0%nat.

Fixpoint trim_end (fuel : nat) (s : Text) : Text :=
  match fuel, white_suffix s with
  | S fuel', S _ as n => trim_end fuel' (take (length s - n) s)
  | _, _ => s
  end.

(** [str::trim]; a turn removes a byte or more. *)
Definition trim (s : Text) : Text :=
  let s := trim_start (length s) s in trim_end (length s) s.

(** [join(sep)]. *)
Fixpoint join_with (sep : Text) (l : list Text) : Text :=
  match l with
  | [] => []
  | [x] => x
  | x :: l' => x ++ sep ++ join_with sep l'
  end.
Abbreviation join_lines := (join_with [10]) (only parsing).

(** ** Identities as text *)

(** An identity is some bytes. *)
Definition ep_valid (id : EndpointId) : Prop := Forall is_byte id /\ id <> [].

(** What [Display] and [FromStr] of [EndpointId] document: an identity prints as
    graphic ASCII characters that parse back to it, and what parses is one. *)
Class EndpointText := {
  ep_to_string : EndpointId -> Text;
  ep_parse : Text -> option EndpointId;
  (** [fmt_short] *)
  ep_short : EndpointId -> Text;
  ep_parse_to_string id : ep_valid id -> ep_parse (ep_to_string id) = Some id;
  ep_parse_valid s id : ep_parse s = Some id -> ep_valid id;
  ep_graphic id : Forall (fun c => 33 <= c <= 126) (ep_to_string id);
  ep_nonempty id : id <> [] -> ep_to_string id <> [];
}.

(** ** Files *)

(** The application's directory: [None] is a file that cannot be read (or read
    as text). *)
Record CacheDir := mkCacheDir {
  private_key : option Bytes;
  peers_txt : option Text;
  nickname_txt : option Text;
}.

Section Files.
Context {ET : EndpointText}.
(** What [std::fs::write] leaves behind, given the new and the old contents;
    errors are ignored by the source. *)
Context (fs_write : Bytes -> option Bytes -> option Bytes).

Definition set_peers_txt (t : option Text) (c : CacheDir) : CacheDir :=
  mkCacheDir (private_key c) t (nickname_txt c).

Definition load_known_peers (c : CacheDir) : list EndpointId :=
  omap (fun l => ep_parse (trim l)) (lines (default [] (peers_txt c))).

Definition save_known_peers (peers : list EndpointId) (c : CacheDir) : CacheDir :=
  set_peers_txt (fs_write (join_lines (ep_to_string <$> peers)) (peers_txt c)) c.

(** [key_utils.rs]: [generated] is what [SecretKey::generate] gives. *)
Definition load_or_generate_key_in (generated : Bytes) (c : CacheDir) : Bytes * CacheDir :=
  match private_key c with
  | Some bytes =>
      if (length bytes =? 32)%nat then (bytes, c)
      else (generated, mkCacheDir (fs_write generated (private_key c)) (peers_txt c) (nickname_txt c))
  | None =>
      (generated, mkCacheDir (fs_write generated (private_key c)) (peers_txt c) (nickname_txt c))
  end.
End Files.

(** ** Messages *)

Module ChatMsg.
Inductive t :=
| Hello (from : EndpointId) (nickname : Text)
| Text (from : EndpointId) (nickname text : list Z)
| NicknameChanged (from : EndpointId) (new_nickname : list Z)
| ImageStart (from : EndpointId) (nickname : list Z) (image_id size : Z).
#[global] Instance t_eq_dec : EqDecision t.
Proof. solve_decision. Defined.
End ChatMsg.

Class Postcard := {
  to_allocvec : ChatMsg.t -> option Bytes;
  from_bytes : Bytes -> option ChatMsg.t;
  from_to_allocvec m bs : to_allocvec m = Some bs -> from_bytes bs = Some m;
}.

(** A [RecvStream]: the pieces its reads will give, and how it ends. *)
Record RecvStream := mkRecvStream {
  rs_chunks : list Bytes;
  rs_error : option Text;
}.

Module ReadError.
Inductive t := UnexpectedEof (after : nat) | Stream (e : Text) | TooLarge (len : Z) | Decode.
End ReadError.

(** [read_exact], and [read_exact_uni] of [image.rs]: [pos] bytes of [want] are
    in the buffer [acc].  A read gives the next piece, or as much of it as there
    is room for. *)
Fixpoint read_exact (want : nat) (acc : Bytes) (chunks : list Bytes) (err : option Text)
    : (ReadError.t + Bytes) * RecvStream :=
  if (want <=? length acc)%nat then (inr acc, mkRecvStream chunks err) else
  match chunks with
  | [] => (inl (match err with
                | Some e => ReadError.Stream e
                | None => ReadError.UnexpectedEof (length acc)
                end), mkRecvStream [] err)
  | c :: cs =>
      let room := (want - length acc)%nat in
      if (length c <=? room)%nat then read_exact want (acc ++ c) cs err
      else (inr (acc ++ take room c), mkRecvStream (drop room c :: cs) err)
  end.

Definition MAX_MSG : Z := 65536.

Section Codec.
Context {PC : Postcard}.

(** [to_be_bytes] of a [u32], and back. *)
Definition to_be_bytes32 (n : Z) : Bytes := reverse (to_le_bytes 4 (n mod 2 ^ 32)).
Definition from_be_bytes (bs : Bytes) : Z := from_le_bytes (reverse bs).

Definition encode_msg (msg : ChatMsg.t) : Bytes :=
  let payload := default [] (to_allocvec msg) in
  to_be_bytes32 (Z.of_nat (length payload)) ++ payload.

Definition read_msg (recv : RecvStream) : (ReadError.t + ChatMsg.t) * RecvStream :=
  match read_exact 4 [] (rs_chunks recv) (rs_error recv) with
  | (inl e, recv) => (inl e, recv)
  | (inr len_buf, recv) =>
      let len := from_be_bytes len_buf in
      if MAX_MSG <? len then (inl (ReadError.TooLarge len), recv)
      else
        match read_exact (Z.to_nat len) [] (rs_chunks recv) (rs_error recv) with
        | (inl e, recv) => (inl e, recv)
        | (inr buf, recv) =>
            (match from_bytes buf with Some m => inr m | None => inl ReadError.Decode end, recv)
        end
  end.
End Codec.

(** ** The files round-trip *)

Lemma split_inclusive_nonl s cur :
  Forall (fun c => c <> 10) s ->
  split_inclusive s cur = match cur ++ s with [] => [] | l => [(l, false)] end.
Proof.
  revert cur. induction s as [|c s IH]; intros cur Hs; cbn.
  { rewrite app_nil_r. by destruct cur. }
  apply Forall_cons in Hs as [Hc Hs]. destruct (Z.eqb_spec c 10); [done|].
  by rewrite IH, <- app_assoc.
Qed.

Lemma split_inclusive_line l s cur :
  Forall (fun c => c <> 10) l ->
  split_inclusive (l ++ 10 :: s) cur = (cur ++ l, true) :: split_inclusive s [].
Proof.
  revert cur. induction l as [|c l IH]; intros cur Hl; cbn; [by rewrite app_nil_r|].
  apply Forall_cons in Hl as [Hc Hl]. destruct (Z.eqb_spec c 10); [done|].
  by rewrite IH, <- app_assoc.
Qed.

(** A line of graphic characters. *)
Definition graphic (l : Text) : Prop := l <> [] /\ Forall (fun c => 33 <= c <= 126) l.

Lemma graphic_no_nl l : graphic l -> Forall (fun c => c <> 10) l.
Proof. intros [_ Hl]. eapply Forall_impl; [exact Hl|]. cbn. lia. Qed.

Lemma strip_cr_graphic l : graphic l -> strip_cr l = l.
Proof.
  intros [_ Hl]. unfold strip_cr. destruct (last l) as [c|] eqn:E; [|done].
  apply last_Some in E as [l' ->]. apply Forall_app in Hl as [_ [Hc _]%Forall_cons].
  repeat (case_match; try done). lia.
Qed.

Lemma lines_join l : Forall graphic l -> lines (join_lines l) = l.
Proof.
  unfold lines. induction 1 as [|x l Hx Hl IH]; [done|].
  destruct l as [|y l].
  - cbn. rewrite split_inclusive_nonl by by apply graphic_no_nl. destruct Hx as [Hx _].
    by destruct x.
  - change (join_lines (x :: y :: l)) with (x ++ 10 :: join_lines (y :: l)).
    rewrite split_inclusive_line by by apply graphic_no_nl. cbn [fmap list_fmap app].
    by rewrite IH, strip_cr_graphic.
Qed.

Lemma white_prefix_graphic c s : 33 <= c <= 126 -> white_prefix (c :: s) = 0%nat.
Proof.
  intros Hc. unfold white_prefix.
  destruct (_ || _) eqn:E; [apply orb_true_iff in E as [E|E]; lia|].
  repeat (case_match; try done); lia.
Qed.

Lemma white_suffix_graphic c s : 33 <= c <= 126 -> white_suffix (s ++ [c]) = 0%nat.
Proof.
  intros Hc. unfold white_suffix. rewrite length_app. cbn [length].
  replace (length s + 1 - 1)%nat with (length s) by lia. rewrite drop_app_length.
  rewrite white_prefix_graphic by done.
  assert (forall n, (2 <= n <= 3)%nat ->
    (n <=? length s + 1)%nat && (white_prefix (drop (length s + 1 - n) (s ++ [c])) =? n)%nat = false)
    as Hn.
  { intros n Hn. destruct (Nat.leb_spec n (length s + 1)) as [Hl|]; [|done]. cbn.
    apply Nat.eqb_neq. intros E. rewrite drop_app_le in E by lia.
    set (k := drop _ s) in E. assert (length k = n - 1)%nat as Hk by (unfold k; rewrite length_drop; lia).
    destruct k as [|b1 [|b2 [|b3 k]]]; cbn in Hk; try lia; unfold white_prefix in E; cbn in E;
      repeat (case_match; try lia);
      repeat match goal with H : _ || _ = true |- _ => apply orb_true_iff in H as [H|H] end;
      repeat match goal with H : _ && _ = true |- _ => apply andb_true_iff in H as [H ?] end;
      lia. }
  rewrite !Hn by lia. by rewrite andb_false_r.
Qed.

Lemma trim_graphic l : graphic l -> trim l = l.
Proof.
  intros [Hne Hl]. unfold trim.
  assert (trim_start (length l) l = l) as ->.
  { destruct l as [|c l]; [done|]. apply Forall_cons in Hl as [Hc _]. cbn [length trim_start].
    by rewrite white_prefix_graphic. }
  destruct (exists_last Hne) as (l' & c & ->). apply Forall_app in Hl as [_ [Hc _]%Forall_cons].
  rewrite length_app, Nat.add_comm. cbn [length Nat.add trim_end]. by rewrite white_suffix_graphic.
Qed.

Section FileFacts.
Context {ET : EndpointText} (fs_write : Bytes -> option Bytes -> option Bytes).
Hypothesis fs_ok : forall new old, fs_write new old = Some new.

(** Known peers survive the file. *)
Lemma load_save peers c :
  Forall ep_valid peers -> load_known_peers (save_known_peers fs_write peers c) = peers.
Proof.
  intros Hp. unfold load_known_peers, save_known_peers, set_peers_txt.
  cbn [peers_txt]. rewrite fs_ok. cbn [default from_option]. unfold id.
  assert (Forall (fun p => graphic (ep_to_string p)) peers) as Hg.
  { eapply Forall_impl; [exact Hp|]. intros id [_ Hne]. split; [by apply ep_nonempty|].
    apply ep_graphic. }
  rewrite lines_join by by apply Forall_fmap.
  induction Hp as [|id peers Hv Hp IH]; [done|]. apply Forall_cons in Hg as [Hid Hg].
  cbn. rewrite trim_graphic, ep_parse_to_string by done. by rewrite IH.
Qed.

(** The first start makes a key, later starts find it. *)
Lemma key_stable g1 g2 c :
  length g1 = 32%nat ->
  let '(k, c') := load_or_generate_key_in fs_write g1 c in
  load_or_generate_key_in fs_write g2 c' = (k, c').
Proof.
  intros Hg. unfold load_or_generate_key_in.
  destruct (private_key c) as [bs|] eqn:E; [destruct (Nat.eqb_spec (length bs) 32) as [E1|E1]|];
    cbn; rewrite ?fs_ok, ?E, ?E1, ?Hg; done.
Qed.
End FileFacts.

(** ** Frames on a stream *)

(** Reading [want] bytes, however the stream is cut into pieces. *)
Lemma read_exact_spec want acc chunks err :
  (length acc <= want)%nat ->
  let all := acc ++ mjoin chunks in
  match read_exact want acc chunks err with
  | (inr bs, s) => (want <= length all)%nat /\ bs = take want all /\
      mjoin (rs_chunks s) = drop want all /\ rs_error s = err
  | (inl e, s) => (length all < want)%nat /\
      e = match err with Some x => ReadError.Stream x | None => ReadError.UnexpectedEof (length all) end
  end.
Proof.
  revert acc. induction chunks as [|c cs IH]; intros acc Hl; cbn zeta; cbn [read_exact].
  - destruct (Nat.leb_spec want (length acc)); cbn; rewrite app_nil_r.
    + assert (want = length acc) as -> by lia. by rewrite take_ge, drop_all.
    + split; [done|]. by destruct err.
  - destruct (Nat.leb_spec want (length acc)).
    + assert (want = length acc) as -> by lia. rewrite length_app, take_app_length, drop_app_length.
      split_and!; try done. lia.
    + destruct (Nat.leb_spec (length c) (want - length acc)) as [Hc|Hc].
      * specialize (IH (acc ++ c)). cbn zeta in IH. rewrite <- app_assoc in IH.
        apply IH. rewrite length_app. lia.
      * cbn [mjoin list_join rs_chunks]. rewrite !length_app. split_and!; [lia| | |done].
        -- rewrite take_app_ge by lia. f_equal. by rewrite take_app_le by lia.
        -- rewrite drop_app_ge by lia. by rewrite drop_app_le by lia.
Qed.

Lemma from_be_to_be n : 0 <= n < 2 ^ 32 -> from_be_bytes (to_be_bytes32 n) = n.
Proof.
  intros Hn. unfold from_be_bytes, to_be_bytes32. rewrite reverse_involutive, Z.mod_small by done.
  apply from_to_le_bytes. exact Hn.
Qed.

Section Frames.
Context {PC : Postcard}.

Lemma read_msg_len chunks err n tail :
  0 <= n < 2 ^ 32 -> mjoin chunks = to_be_bytes32 n ++ tail ->
  exists s, read_exact 4 [] chunks err = (inr (to_be_bytes32 n), s) /\
    mjoin (rs_chunks s) = tail /\ rs_error s = err.
Proof.
  intros Hn Hj. pose proof (read_exact_spec 4 [] chunks err ltac:(cbn; lia)) as H. cbn zeta in H.
  assert (length (to_be_bytes32 n) = 4%nat) as H4
    by (unfold to_be_bytes32; by rewrite length_reverse, length_to_le_bytes).
  rewrite Hj in H. cbn [app] in H.
  destruct (read_exact 4 [] chunks err) as [[e|bs] s].
  - destruct H as [H _]. rewrite length_app in H. rewrite H4 in H. lia.
  - destruct H as (_ & -> & H & He). exists s. split_and!; [|by rewrite <- H4, drop_app_length in H|done].
    by rewrite <- H4, take_app_length.
Qed.

(** Framed messages survive any fragmentation of the stream.  A message whose
    encoding is within the limit is read back as sent from any stream that
    begins with its frame, however it is cut into pieces, and what follows stays
    in the stream; one above the limit is refused; and a stream that ends inside
    the payload gives an error, never a message. *)
Theorem read_msg_roundtrip (m : ChatMsg.t) (payload rest : Bytes) (s : RecvStream) :
  to_allocvec m = Some payload ->
  Z.of_nat (length payload) < 2 ^ 32 ->
  (mjoin (rs_chunks s) = encode_msg m ++ rest ->
     if Z.of_nat (length payload) <=? MAX_MSG
     then exists s', read_msg s = (inr m, s') /\ mjoin (rs_chunks s') = rest
     else (read_msg s).1 = inl (ReadError.TooLarge (Z.of_nat (length payload)))) /\
  (mjoin (rs_chunks s) `prefix_of` encode_msg m -> mjoin (rs_chunks s) <> encode_msg m ->
     exists e, (read_msg s).1 = inl e).
Proof.
  intros Hp Hl. set (n := Z.of_nat (length payload)) in *.
  assert (encode_msg m = to_be_bytes32 n ++ payload) as He by (unfold encode_msg; by rewrite Hp).
  rewrite He. unfold read_msg. split.
  - intros Hj. rewrite <- app_assoc in Hj.
    destruct (read_msg_len _ (rs_error s) n _ ltac:(lia) Hj) as (s1 & -> & Hr & Her).
    rewrite from_be_to_be by lia. destruct (Z.leb_spec n MAX_MSG); destruct (Z.ltb_spec MAX_MSG n); try lia.
    2: done. unfold n. rewrite Nat2Z.id.
    pose proof (read_exact_spec (length payload) [] (rs_chunks s1) (rs_error s1) ltac:(cbn; lia)) as H'.
    cbn zeta in H'. rewrite Hr in H'. cbn [app] in H'.
    destruct (read_exact _ _ _ _) as [[e|bs] s2].
    + destruct H' as [H' _]. rewrite length_app in H'. lia.
    + destruct H' as (_ & -> & H' & _). rewrite take_app_length, (from_to_allocvec _ _ Hp).
      rewrite drop_app_length in H'. eauto.
  - intros [k Hk] Hne.
    assert (length (to_be_bytes32 n) = 4%nat) as H4
      by (unfold to_be_bytes32; by rewrite length_reverse, length_to_le_bytes).
    assert (k <> []) as Hk0 by (intros ->; rewrite app_nil_r in Hk; by rewrite Hk in Hne).
    pose proof (read_exact_spec 4 [] (rs_chunks s) (rs_error s) ltac:(cbn; lia)) as H1. cbn zeta in H1.
    destruct (read_exact 4 _ _ _) as [[e|lb] s1]; [by eexists|].
    destruct H1 as (Hge & -> & Hr & Her). cbn [app] in *.
    assert (take 4 (mjoin (rs_chunks s)) = to_be_bytes32 n) as ->.
    { rewrite <- (take_app_le _ k) by done. rewrite <- Hk, <- H4. apply take_app_length. }
    rewrite from_be_to_be by lia. destruct (MAX_MSG <? n); [by eexists|]. unfold n. rewrite Nat2Z.id.
    pose proof (read_exact_spec (length payload) [] (rs_chunks s1) (rs_error s1) ltac:(cbn; lia)) as H2.
    cbn zeta in H2. destruct (read_exact _ _ _ _) as [[e|bs] s2]; [by eexists|].
    destruct H2 as (H2 & _). cbn [app] in H2. rewrite Hr, length_drop in H2.
    apply (f_equal length) in Hk. rewrite !length_app in Hk. destruct k; [done|]. cbn in Hk. lia.
Qed.
End Frames.

(** ** Codecs that satisfy the laws *)

(** Lower-case hexadecimal. *)
Definition hex_digit (d : Z) : Z := if d <? 10 then 48 + d else 87 + d.
Definition hex_value (c : Z) : option Z :=
  if (48 <=? c) && (c <=? 57) then Some (c - 48)
  else if (97 <=? c) && (c <=? 102) then Some (c - 87) else None.
Definition to_hex (id : EndpointId) : Text :=
  id ≫= fun b => [hex_digit (b / 16 mod 16); hex_digit (b mod 16)].
Fixpoint of_hex (s : Text) : option EndpointId :=
  match s with
  | [] => Some []
  | c1 :: c2 :: s' => h ← hex_value c1; l ← hex_value c2; t ← of_hex s'; Some (16 * h + l :: t)
  | [_] => None
  end.
Definition parse_hex (s : Text) : option EndpointId :=
  match s with [] => None | _ => of_hex s end.

Lemma hex_value_digit d : 0 <= d < 16 -> hex_value (hex_digit d) = Some d.
Proof.
  intros Hd. unfold hex_digit, hex_value. destruct (Z.ltb_spec d 10).
  - destruct ((48 <=? 48 + d) && (48 + d <=? 57)) eqn:E; [f_equal; lia|].
    apply andb_false_iff in E as [E|E]; lia.
  - destruct ((48 <=? 87 + d) && (87 + d <=? 57)) eqn:E; [apply andb_true_iff in E; lia|].
    destruct ((97 <=? 87 + d) && (87 + d <=? 102)) eqn:E'; [f_equal; lia|].
    apply andb_false_iff in E' as [E'|E']; lia.
Qed.

Lemma hex_digit_graphic d : 33 <= hex_digit (d mod 16) <= 126.
Proof.
  pose proof (Z.mod_pos_bound d 16 ltac:(lia)). unfold hex_digit.
  destruct (Z.ltb_spec (d mod 16) 10); lia.
Qed.

Lemma hex_value_range c h : hex_value c = Some h -> 0 <= h < 16.
Proof.
  unfold hex_value. intros H. repeat case_match; try done; injection H as <-;
    match goal with E : _ && _ = true |- _ => apply andb_true_iff in E; lia end.
Qed.

Lemma parse_to_hex id : ep_valid id -> parse_hex (to_hex id) = Some id.
Proof.
  intros [Hid Hne]. assert (of_hex (to_hex id) = Some id) as H; [|by destruct id].
  clear Hne. induction Hid as [|b id Hb _ IH]; [done|]. unfold is_byte, u8_max in Hb. cbn.
  rewrite !hex_value_digit by (apply Z.mod_pos_bound; lia). cbn. unfold to_hex in IH. rewrite IH.
  cbn. do 2 f_equal.
  rewrite Z.mod_small by (split; [apply Z.div_pos; lia|apply Z.div_lt_upper_bound; lia]).
  pose proof (Z.div_mod b 16 ltac:(lia)). lia.
Qed.

Lemma of_hex_bytes n s id : (length s <= n)%nat -> of_hex s = Some id -> Forall is_byte id.
Proof.
  revert s id. induction n as [|n IH]; intros s id Hn; destruct s as [|c1 [|c2 s]]; cbn in *;
    try lia; try done; try (by intros [= <-]).
  destruct (hex_value c1) as [h|] eqn:E1; [|done]. destruct (hex_value c2) as [l|] eqn:E2; [|done].
  cbn. destruct (of_hex s) as [t|] eqn:E3; [|done]. cbn. intros [= <-].
  apply hex_value_range in E1, E2. constructor; [unfold is_byte, u8_max; lia|].
  apply (IH s); [lia|done].
Qed.

Lemma parse_hex_valid s id : parse_hex s = Some id -> ep_valid id.
Proof.
  unfold parse_hex. intros H. split.
  - destruct s; [done|]. by eapply of_hex_bytes.
  - intros ->. destruct s as [|c1 [|c2 s]]; try done. cbn in H.
    destruct (hex_value c1), (hex_value c2); try done. cbn in H. by destruct (of_hex s).
Qed.

#[refine] Definition hex_text : EndpointText := {|
  ep_to_string := to_hex; ep_parse := parse_hex; ep_short id := take 10 (to_hex id) |}.
Proof.
  - intros id Hid. by apply parse_to_hex.
  - intros s id. apply parse_hex_valid.
  - intros id. unfold to_hex. apply Forall_bind, Forall_true. intros b.
    repeat constructor; apply hex_digit_graphic.
  - by intros [|b id].
Defined.

(** Messages as the bits of a number. *)
#[global] Instance ChatMsg_countable : Countable ChatMsg.t.
Proof.
  refine (inj_countable'
    (fun m => match m with
      | ChatMsg.Hello f n => inl (inl (f, n))
      | ChatMsg.Text f n t => inl (inr (f, n, t))
      | ChatMsg.NicknameChanged f n => inr (inl (f, n))
      | ChatMsg.ImageStart f n i z => inr (inr (f, n, i, z))
      end)
    (fun x => match x with
      | inl (inl (f, n)) => ChatMsg.Hello f n
      | inl (inr (f, n, t)) => ChatMsg.Text f n t
      | inr (inl (f, n)) => ChatMsg.NicknameChanged f n
      | inr (inr (f, n, i, z)) => ChatMsg.ImageStart f n i z
      end) _).
  by intros [].
Defined.

Fixpoint bits_of (p : positive) : Bytes :=
  match p with xH => [] | xO p => 0 :: bits_of p | xI p => 1 :: bits_of p end.
Fixpoint of_bits (l : Bytes) : positive :=
  match l with [] => xH | b :: l => if b =? 0 then xO (of_bits l) else xI (of_bits l) end.

#[refine] Definition bit_postcard : Postcard := {|
  to_allocvec m := Some (bits_of (encode m)); from_bytes bs := decode (of_bits bs) |}.
Proof.
  intros m bs [= <-].
  assert (forall p, of_bits (bits_of p) = p) as ->; [|apply decode_encode].
  induction p; cbn; congruence.
Defined.

(** A greeting read from a stream that is cut inside the length, with a byte of
    the next frame behind it. *)
Lemma read_msg_roundtrip_witness :
  let m := ChatMsg.Hello [1] (str "ada") in
  let frame := encode_msg (PC := bit_postcard) m in
  exists s', read_msg (PC := bit_postcard) (mkRecvStream [take 3 frame; drop 3 frame ++ [7]] None)
    = (inr m, s') /\ mjoin (rs_chunks s') = [7].
Proof.
  cbn zeta. set (m := ChatMsg.Hello [1] (str "ada")).
  pose proof (read_msg_roundtrip (PC := bit_postcard) m (bits_of (encode m)) [7]
    (mkRecvStream [take 3 (encode_msg (PC := bit_postcard) m);
                   drop 3 (encode_msg (PC := bit_postcard) m) ++ [7]] None)
    eq_refl ltac:(vm_compute; reflexivity)) as [H _].
  specialize (H ltac:(vm_compute; reflexivity)).
  assert ((Z.of_nat (length (bits_of (encode m))) <=? MAX_MSG) = true) as E by (vm_compute; reflexivity).
  rewrite E in H. exact H.
Defined.
