(* ===== verification/ChatState.v ===== *)
(** * ChatState: what the chat demo knows of its peers ([iroh-ble-chat/src-tauri/src/lib.rs])

    The peer table of the application, the status it shows, whom to ask gossip to
    join, and how the table follows the transport's snapshot.  What goes to the
    web view, to gossip and to other tasks is the output of an operation.  An
    operation reads the clock once. *)

From S2P Require Import Prelude Peer Routing Registry Transport ChatProtocol.
Open Scope Z_scope.

Module GossipStatus.
Inductive t := Direct | InTopic | Stale.
#[global] Instance t_eq_dec : EqDecision t.
Proof. solve_decision. Defined.
End GossipStatus.

#[global] Instance BlePeerPhase_eq_dec : EqDecision BlePeerPhase.t.
Proof. solve_decision. Defined.

Record PeerState := mkPeerState {
  cp_id : EndpointId;
  cp_nickname : option Text;
  cp_gossip : option GossipStatus.t;
  cp_ble_phase : option BlePeerPhase.t;
  cp_ble_path : option string;
  cp_ble_failures : Z;
  cp_last_seen : Instant;
  cp_last_join_nudge : option Instant;
}.

Definition JOIN_NUDGE_MIN_INTERVAL : Duration := from_secs 5.

Definition set_cp_nickname (n : option Text) (p : PeerState) : PeerState :=
  mkPeerState (cp_id p) n (cp_gossip p) (cp_ble_phase p) (cp_ble_path p) (cp_ble_failures p)
    (cp_last_seen p) (cp_last_join_nudge p).
Definition set_cp_gossip (g : option GossipStatus.t) (p : PeerState) : PeerState :=
  mkPeerState (cp_id p) (cp_nickname p) g (cp_ble_phase p) (cp_ble_path p) (cp_ble_failures p)
    (cp_last_seen p) (cp_last_join_nudge p).
Definition set_cp_ble (ph : option BlePeerPhase.t) (path : option string) (n : Z) (p : PeerState)
    : PeerState :=
  mkPeerState (cp_id p) (cp_nickname p) (cp_gossip p) ph path n (cp_last_seen p)
    (cp_last_join_nudge p).
Definition set_cp_last_seen (t : Instant) (p : PeerState) : PeerState :=
  mkPeerState (cp_id p) (cp_nickname p) (cp_gossip p) (cp_ble_phase p) (cp_ble_path p)
    (cp_ble_failures p) t (cp_last_join_nudge p).
Definition set_cp_nudge (t : option Instant) (p : PeerState) : PeerState :=
  mkPeerState (cp_id p) (cp_nickname p) (cp_gossip p) (cp_ble_phase p) (cp_ble_path p)
    (cp_ble_failures p) (cp_last_seen p) t.

Definition new_peer_entry (now : Instant) (id : EndpointId) : PeerState :=
  mkPeerState id None None None None 0 now None.

(** ** What the user sees *)

Record PeerStateUI := mkPeerStateUI {
  pu_id : Text;
  pu_nickname : option Text;
  pu_status : string;
  pu_ble_phase : option string;
  pu_ble_path : option string;
  pu_ble_failures : Z;
  pu_last_seen_secs_ago : Z;
}.

Definition ble_phase_str (phase : BlePeerPhase.t) : string :=
  match phase with
  | BlePeerPhase.Unknown => "unknown"
  | BlePeerPhase.Discovered => "discovered"
  | BlePeerPhase.PendingDial => "pending_dial"
  | BlePeerPhase.Connecting => "connecting"
  | BlePeerPhase.Handshaking => "handshaking"
  | BlePeerPhase.Connected => "connected"
  | BlePeerPhase.Draining => "draining"
  | BlePeerPhase.Reconnecting => "reconnecting"
  | BlePeerPhase.Dead => "dead"
  | BlePeerPhase.Restoring => "restoring"
  end.

(** The last case of the source for [Some(_)] covers phases the library may add. *)
Definition ui_status (p : PeerState) : string :=
  match cp_ble_phase p, cp_gossip p with
  | Some BlePeerPhase.Connected, Some GossipStatus.Direct => "connected"
  | Some BlePeerPhase.Connected, _ => "handshaking"
  | Some BlePeerPhase.Handshaking, _ => "handshaking"
  | Some BlePeerPhase.Connecting, _ => "connecting"
  | Some (BlePeerPhase.Reconnecting | BlePeerPhase.Restoring), _ => "reconnecting"
  | Some BlePeerPhase.PendingDial, _ => "pending_dial"
  | Some (BlePeerPhase.Discovered | BlePeerPhase.Unknown), gossip =>
      match gossip with
      | Some GossipStatus.Direct => "connected"
      | Some GossipStatus.InTopic => "in_topic"
      | _ => "nearby"
      end
  | Some BlePeerPhase.Draining, _ => "draining"
  | Some BlePeerPhase.Dead, _ => "dead"
  | None, gossip =>
      match gossip with
      | Some GossipStatus.Direct => "connected"
      | Some GossipStatus.InTopic => "in_topic"
      | Some GossipStatus.Stale => "stale"
      | None => "unknown"
      end
  end.

Definition gossip_status_str (status : option GossipStatus.t) : string :=
  match status with
  | Some GossipStatus.Direct => "direct"
  | Some GossipStatus.InTopic => "in_topic"
  | Some GossipStatus.Stale => "stale"
  | None => "none"
  end.

(** [elapsed()] at [now]. *)
Definition elapsed (now t : Instant) : Duration := saturating_duration_since now t.

Record BlePeerDebugUI := mkBlePeerDebugUI {
  bd_device_id : DeviceId;
  bd_phase : string;
  bd_consecutive_failures : Z;
  bd_path : option string;
}.
#[global] Instance BlePeerDebugUI_eq_dec : EqDecision BlePeerDebugUI.
Proof. solve_decision. Defined.

Definition path_str (p : ConnectPath.t) : string :=
  match p with ConnectPath.Gatt => "gatt" | ConnectPath.L2cap => "l2cap" end.

Definition from_info (info : BlePeerInfo) : BlePeerDebugUI :=
  mkBlePeerDebugUI (bpi_device_id info) (ble_phase_str (bpi_phase info))
    (bpi_consecutive_failures info) (path_str <$> bpi_connect_path info).

(** [tracing::Level], ordered by verbosity. *)
Module Level.
Inductive t := ERROR | WARN | INFO | DEBUG | TRACE.
Definition verbosity (l : t) : nat :=
  match l with ERROR => 0 | WARN => 1 | INFO => 2 | DEBUG => 3 | TRACE => 4 end.
End Level.

(** The events emitted to the web view. *)
Module UiEvent.
Inductive t :=
| PeerUpdated (u : PeerStateUI)
| PeerRemoved (id : Text)
| TopicJoined (active_peers : nat)
| ChatMsg (from_id nickname text : Text) (is_self : bool)
| ImageStart (from_id nickname : Text) (image_id size : Z) (is_self : bool)
| ImageProgress (image_id bytes total : Z) (is_self : bool)
| ChatImage (from_id nickname : Text) (image_id : Z) (data_uri : Text) (is_self : bool)
| ImageSendError (image_id : Z) (error : Text)
| BlePeerUpdated (u : BlePeerDebugUI)
| BlePeerRemoved (device_id : DeviceId)
| DebugLog (target : string) (level : Level.t) (message : Text).
End UiEvent.

(** What an operation asks of the rest of the world. *)
Module Out.
Inductive t :=
| Emit (e : UiEvent.t)
| JoinPeers (peers : list EndpointId)
| Broadcast (payload : Bytes)
| StreamImage (peer : EndpointId) (image_id : Z) (avif : Bytes)
| Restart.
End Out.

Section Peers.
Context {ET : EndpointText} {HI : HashIter}.
Abbreviation Peers := (gmap EndpointId PeerState) (only parsing).

Definition to_ui (now : Instant) (p : PeerState) : PeerStateUI :=
  mkPeerStateUI (ep_to_string (cp_id p)) (cp_nickname p) (ui_status p)
    (ble_phase_str <$> cp_ble_phase p) (cp_ble_path p) (cp_ble_failures p)
    (elapsed now (cp_last_seen p) / 1000000000).

Definition emit_peer (now : Instant) (p : PeerState) : Out.t :=
  Out.Emit (UiEvent.PeerUpdated (to_ui now p)).

(** ** Whom to join *)

Definition should_nudge_join_inbound (now : Instant) (gossip : option GossipStatus.t)
    (last_nudge : option Instant) : bool :=
  match gossip with
  | Some GossipStatus.Direct => false
  | _ =>
      match last_nudge with
      | Some t => JOIN_NUDGE_MIN_INTERVAL <=? elapsed now t
      | None => true
      end
  end.

Definition should_nudge_join_periodic (gossip : option GossipStatus.t) : bool :=
  match gossip with Some GossipStatus.Direct => false | _ => true end.

(** The loop of [collect_join_targets]. *)
Fixpoint join_targets (peers : Peers) (is_in_scan : EndpointId -> bool)
    (seen : gset EndpointId) (l : list EndpointId) : list EndpointId :=
  match l with
  | [] => []
  | id :: l' =>
      if decide (id ∈ seen) then join_targets peers is_in_scan seen l'
      else
        let peer := peers !! id in
        let rest := join_targets peers is_in_scan ({[id]} ∪ seen) l' in
        if bool_decide (peer = None) && negb (is_in_scan id) then rest
        else if should_nudge_join_periodic (peer ≫= cp_gossip) then id :: rest else rest
  end.

Definition collect_join_targets (own_id : EndpointId) (peers : Peers)
    (known_peers : list EndpointId) (is_in_scan : EndpointId -> bool) : list EndpointId :=
  join_targets peers is_in_scan ∅
    (filter (fun id => id <> own_id) (known_peers ++ hm_keys peers)).

(** ** Following the transport *)

Fixpoint merge_verified_ble_snapshot (now : Instant) (own_id : EndpointId)
    (snapshot : list BlePeerInfo) (peers : Peers) : list EndpointId * Peers :=
  match snapshot with
  | [] => ([], peers)
  | info :: rest =>
      match bpi_verified_endpoint info with
      | Some peer_id =>
          if decide (peer_id = own_id) then merge_verified_ble_snapshot now own_id rest peers
          else
            match peers !! peer_id with
            | None =>
                let '(inserted, peers) := merge_verified_ble_snapshot now own_id rest
                  (<[peer_id := new_peer_entry now peer_id]> peers) in
                (peer_id :: inserted, peers)
            | Some _ => merge_verified_ble_snapshot now own_id rest peers
            end
      | None => merge_verified_ble_snapshot now own_id rest peers
      end
  end.

(** [collect()] into a [HashMap]: a later entry replaces an earlier one. *)
Definition info_by_device (snapshot : list BlePeerInfo) : gmap DeviceId BlePeerInfo :=
  foldl (fun m info => <[bpi_device_id info := info]> m) ∅ snapshot.

Definition is_connected (ph : option BlePeerPhase.t) : bool :=
  bool_decide (ph = Some BlePeerPhase.Connected).

Definition forming (ph : option BlePeerPhase.t) : bool :=
  match ph with
  | Some (BlePeerPhase.Discovered | BlePeerPhase.Connecting | BlePeerPhase.Handshaking
          | BlePeerPhase.Connected) => true
  | _ => false
  end.

(** What [transport_state_tick] does to one entry: the entry, whether it is to be
    nudged, and the event. *)
Definition sync_peer (now : Instant) (info : option BlePeerInfo) (p : PeerState)
    : PeerState * bool * list Out.t :=
  let new_phase := bpi_phase <$> info in
  let new_failures := from_option bpi_consecutive_failures 0 info in
  let new_path := path_str <$> (info ≫= bpi_connect_path) in
  let is_fresh_sighting := bool_decide (cp_ble_phase p = None) && forming new_phase in
  let is_ble_restored := negb (is_connected (cp_ble_phase p)) && is_connected new_phase in
  let nudge := (is_fresh_sighting || is_ble_restored)
               && should_nudge_join_inbound now (cp_gossip p) (cp_last_join_nudge p) in
  let p := if nudge then set_cp_nudge (Some now) p else p in
  let p := match info with Some _ => set_cp_last_seen now p | None => p end in
  if bool_decide (cp_ble_phase p = new_phase) && (cp_ble_failures p =? new_failures)
     && bool_decide (cp_ble_path p = new_path)
  then (p, nudge, [])
  else
    let p := set_cp_ble new_phase new_path new_failures p in
    (p, nudge, [emit_peer now p]).

(** The log line of [send_message]. *)
Definition summarize_join_targets (peers : Peers) (targets : list EndpointId) : Text :=
  join_with (str ", ") ((fun id =>
     match peers !! id with
     | Some p =>
         ep_short id ++ str "(gossip=" ++ str (gossip_status_str (cp_gossip p))
         ++ str ",ble_phase=" ++ str (from_option ble_phase_str "none"%string (cp_ble_phase p))
         ++ str ",ble_path=" ++ str (default "none"%string (cp_ble_path p)) ++ str ")"
     | None => ep_short id ++ str "(unknown)"
     end) <$> targets).
End Peers.

(** ** Facts *)

Section PeersFacts.
Context {ET : EndpointText} {HI : HashIter}.
Implicit Types (peers : gmap EndpointId PeerState).

(** A peer is shown as connected only when gossip has it as a direct neighbour. *)
Lemma ui_connected p : ui_status p = "connected"%string -> cp_gossip p = Some GossipStatus.Direct.
Proof.
  unfold ui_status. destruct (cp_ble_phase p) as [[]|], (cp_gossip p) as [[]|]; done.
Qed.

(** Whether the loop takes an identity it has not seen. *)
Definition eligible peers (scan : EndpointId -> bool) (id : EndpointId) : Prop :=
  match peers !! id with
  | Some p => cp_gossip p <> Some GossipStatus.Direct
  | None => scan id = true
  end.

Lemma join_targets_cons peers scan seen x l :
  x ∉ seen ->
  exists taken, join_targets peers scan seen (x :: l)
      = taken ++ join_targets peers scan ({[x]} ∪ seen) l /\
    ((eligible peers scan x /\ taken = [x]) \/ (~ eligible peers scan x /\ taken = [])).
Proof.
  intros Hx. cbn [join_targets]. rewrite decide_False by done. unfold eligible.
  destruct (peers !! x) as [p|]; cbn.
  - destruct (cp_gossip p) as [[]|]; cbn; [exists []|exists [x]..]; naive_solver.
  - destruct (scan x); cbn; [exists [x]|exists []]; naive_solver.
Qed.

Lemma join_targets_spec peers scan seen l :
  NoDup (join_targets peers scan seen l) /\
  forall id, id ∈ join_targets peers scan seen l <-> id ∈ l /\ (id ∉ seen) /\ eligible peers scan id.
Proof.
  revert seen. induction l as [|x l IH]; intros seen; [split; [constructor|set_solver]|].
  destruct (decide (x ∈ seen)) as [Hx|Hx].
  { cbn [join_targets]. rewrite decide_True by done. destruct (IH seen) as [Hn Hi]. split; [done|].
    intros id. rewrite Hi, elem_of_cons. naive_solver. }
  destruct (join_targets_cons peers scan seen x l Hx) as (taken & -> & Ht).
  destruct (IH ({[x]} ∪ seen)) as [Hn Hi].
  destruct Ht as [[He ->]|[He ->]]; cbn [app]; split.
  - constructor; [|done]. rewrite Hi, elem_of_union, elem_of_singleton. naive_solver.
  - intros id. rewrite !elem_of_cons, Hi, elem_of_union, elem_of_singleton.
    destruct (decide (id = x)) as [->|]; naive_solver.
  - done.
  - intros id. rewrite elem_of_cons, Hi, elem_of_union, elem_of_singleton.
    destruct (decide (id = x)) as [->|]; naive_solver.
Qed.

(** Whom [reconnect_tick] and [send_message] ask gossip to join: nobody twice and
    never the node itself; exactly the known and the tracked peers that are not
    direct neighbours already, those only remembered from earlier sessions only
    while scanning sees them; whatever the order of the map. *)
Theorem join_targets_exact (own_id : EndpointId) peers (known : list EndpointId)
    (is_in_scan : EndpointId -> bool) :
  NoDup (collect_join_targets own_id peers known is_in_scan) /\
  forall id, id ∈ collect_join_targets own_id peers known is_in_scan <->
    id <> own_id /\
    match peers !! id with
    | Some p => cp_gossip p <> Some GossipStatus.Direct
    | None => id ∈ known /\ is_in_scan id = true
    end.
Proof.
  unfold collect_join_targets.
  destruct (join_targets_spec peers is_in_scan ∅
    (filter (fun id => id <> own_id) (known ++ hm_keys peers))) as [Hn Hi].
  split; [done|]. intros id. rewrite Hi, list_elem_of_filter, elem_of_app, elem_of_hm_keys.
  unfold eligible. pose proof (not_elem_of_empty (C := gset EndpointId) id).
  destruct (peers !! id) as [p|]; [|naive_solver (by eapply is_Some_None)].
  naive_solver eauto.
Qed.

(** Merging a snapshot: what it inserts is new, verified and not this node; what
    was there stays. *)
Lemma merge_spec now own_id snapshot peers :
  let '(inserted, peers') := merge_verified_ble_snapshot now own_id snapshot peers in
  NoDup inserted /\
  (forall id, id ∈ inserted <-> peers !! id = None /\ id <> own_id /\
     exists info, info ∈ snapshot /\ bpi_verified_endpoint info = Some id) /\
  forall id, peers' !! id =
    (if decide (id ∈ inserted) then Some (new_peer_entry now id) else peers !! id).
Proof.
  revert peers. induction snapshot as [|info rest IH]; intros peers; cbn [merge_verified_ble_snapshot].
  { split_and!; [constructor|set_solver|]. intros id. by rewrite decide_False by set_solver. }
  destruct (bpi_verified_endpoint info) as [v|] eqn:Ev; [destruct (decide (v = own_id)) as [->|Hv];
    [|destruct (peers !! v) as [p|] eqn:Ep]|].
  all: try (specialize (IH peers); destruct (merge_verified_ble_snapshot _ _ _ _) as [ins ps];
    destruct IH as (Hn & Hi & Hl); split_and!; [done| |done]; intros id; rewrite Hi;
    setoid_rewrite elem_of_cons; naive_solver).
  specialize (IH (<[v:=new_peer_entry now v]> peers)).
  destruct (merge_verified_ble_snapshot _ _ _ _) as [ins ps]. destruct IH as (Hn & Hi & Hl).
  assert (v ∉ ins) as Hvi by (rewrite Hi, lookup_insert_eq; naive_solver).
  split_and!; [by constructor| |].
  - intros id. setoid_rewrite elem_of_cons. rewrite Hi.
    destruct (decide (id = v)) as [->|]; [naive_solver|]. rewrite lookup_insert_ne by done. naive_solver.
  - intros id. rewrite Hl. destruct (decide (id = v)) as [->|].
    + by rewrite decide_False, lookup_insert_eq, decide_True by (try done; left).
    + rewrite lookup_insert_ne by done. destruct (decide (id ∈ ins)) as [H|H].
      * by rewrite decide_True by by right.
      * rewrite decide_False; [done|]. by intros [->|?]%elem_of_cons.
Qed.

(** The entry follows the transport: afterwards it has the phase, failures and
    path of the snapshot, the user is told of a change, and the identity, the
    nickname and the gossip status are kept. *)
Lemma sync_peer_spec now info p :
  let '(p', nudge, out) := sync_peer now info p in
  cp_ble_phase p' = bpi_phase <$> info /\
  cp_ble_failures p' = from_option bpi_consecutive_failures 0 info /\
  cp_ble_path p' = path_str <$> (info ≫= bpi_connect_path) /\
  cp_id p' = cp_id p /\ cp_nickname p' = cp_nickname p /\ cp_gossip p' = cp_gossip p /\
  cp_last_join_nudge p' = (if nudge then Some now else cp_last_join_nudge p) /\
  (nudge = true -> should_nudge_join_inbound now (cp_gossip p) (cp_last_join_nudge p) = true) /\
  out = (if decide (cp_ble_phase p = cp_ble_phase p' /\ cp_ble_failures p = cp_ble_failures p' /\
                    cp_ble_path p = cp_ble_path p') then [] else [emit_peer now p']).
Proof.
  unfold sync_peer. set (fresh := bool_decide (cp_ble_phase p = None) && _ || _).
  set (nudge := fresh && _).
  assert (nudge = true -> should_nudge_join_inbound now (cp_gossip p) (cp_last_join_nudge p) = true)
    as Hn by (by intros [_ ?]%andb_true_iff).
  clearbody nudge. cbn zeta.
  set (q := match info with Some _ => set_cp_last_seen now _ | None => _ end).
  assert (cp_ble_phase q = cp_ble_phase p /\ cp_ble_failures q = cp_ble_failures p /\
    cp_ble_path q = cp_ble_path p /\ cp_id q = cp_id p /\ cp_nickname q = cp_nickname p /\
    cp_gossip q = cp_gossip p /\
    cp_last_join_nudge q = (if nudge then Some now else cp_last_join_nudge p))
    as (Hph & Hf & Hpa & Hid & Hni & Hg & Hj) by (subst q; by destruct info, nudge).
  clearbody q. rewrite Hph, Hf, Hpa.
  destruct (bool_decide_reflect (cp_ble_phase p = bpi_phase <$> info)),
    (Z.eqb_spec (cp_ble_failures p) (from_option bpi_consecutive_failures 0 info)),
    (bool_decide_reflect (cp_ble_path p = path_str <$> (info ≫= bpi_connect_path)));
    cbn [andb set_cp_ble cp_ble_phase cp_ble_failures cp_ble_path cp_id cp_nickname cp_gossip
         cp_last_join_nudge]; split_and!; try congruence; try done.
  1: rewrite decide_True by (split_and!; congruence); done.
  all: rewrite decide_False by (intros (?&?&?); congruence); done.
Qed.
End PeersFacts.
