(* ===== verification/ChatImage.v ===== *)
(** * ChatImage: images in the chat demo ([iroh-ble-chat/src-tauri/src/image.rs], [lib.rs])

    An image is announced over gossip with an [ImageStart] and sent on a stream
    of its own; the receiver matches the two in the map of pending images.  The
    image decoder, the AVIF encoder and base64 are code outside the repository:
    the class [ImageCodec]. *)

From S2P Require Import Prelude Peer Reliable ReliableFacts ChatProtocol ChatState.
Open Scope Z_scope.

(** ** Encoding *)

Definition MAX_DIMENSION : Z := 800.

Record RgbaImage := mkRgbaImage {
  ri_width : Z;
  ri_height : Z;
  ri_pixels : list (Z * Z * Z * Z);
}.

(** [DynamicImage] and the crates that make and take it; an error is its text.
    [resize] is documented to fit the image within the bounds. *)
Class ImageCodec := {
  DynamicImage : Type;
  with_guessed_format : Bytes -> Text + Bytes;
  decode_image : Bytes -> Text + DynamicImage;
  resize : Z -> Z -> DynamicImage -> DynamicImage;
  to_rgba8 : DynamicImage -> RgbaImage;
  encode_rgba : RgbaImage -> Text + Bytes;
  base64 : Bytes -> Text;
  resize_fits w h i :
    ri_width (to_rgba8 (resize w h i)) <= w /\ ri_height (to_rgba8 (resize w h i)) <= h;
}.

Record PendingImage := mkPendingImage {
  pi_from_id : Text;
  pi_nickname : Text;
  pi_size : Z;
}.
Abbreviation PendingImages := (gmap Z PendingImage) (only parsing).

Definition MAX_IMAGE_SIZE : Z := 2 * 1024 * 1024.

(** The chunks of the sender, and the buffer of the receiver. *)
Definition IMAGE_CHUNK : nat := Z.to_nat 8192.

(** ** The sender *)

(** How the calls on the endpoint and the stream turn out: [None] for a connect
    that takes more than a minute; [se_write n] is the error of the [n]th
    [write_all]. *)
Record StreamEnv := mkStreamEnv {
  se_connect : option (Text + unit);
  se_open_uni : Text + unit;
  se_write : nat -> option Text;
  se_finish : option Text;
}.

(** The loop over the chunks: what was written, and the error. *)
Fixpoint write_chunks (env : StreamEnv) (n : nat) (written : Z) (l : list Bytes)
    : list Bytes * (Text + unit) :=
  match l with
  | [] => ([], inr tt)
  | c :: l' =>
      match se_write env n with
      | Some e => ([], inl (str "write data at offset " ++ str (pretty written) ++ str ": " ++ e))
      | None =>
          let '(ws, r) := write_chunks env (S n) (written + Z.of_nat (length c)) l' in (c :: ws, r)
      end
  end.

Definition stream_image_to_peer (env : StreamEnv) (image_id : Z) (avif_bytes : Bytes)
    : list Bytes * (Text + unit) :=
  match se_connect env with
  | None => ([], inl (str "connect timed out after 60s"))
  | Some (inl e) => ([], inl (str "connect: " ++ e))
  | Some (inr _) =>
      match se_open_uni env with
      | inl e => ([], inl (str "open_uni: " ++ e))
      | inr _ =>
          match se_write env 0 with
          | Some e => ([], inl (str "write header: " ++ e))
          | None =>
              let '(ws, r) := write_chunks env 1 0 (chunks (length avif_bytes) IMAGE_CHUNK avif_bytes) in
              (to_le_bytes 8 image_id :: ws,
               match r, se_finish env with
               | inr _, Some e => inl (str "finish: " ++ e)
               | r, _ => r
               end)
          end
      end
  end.

Section Image.
Context {IC : ImageCodec}.

Definition encode_image_from_bytes (data : Bytes) : Text + Bytes :=
  match with_guessed_format data with
  | inl e => inl (str "Failed to guess image format: " ++ e)
  | inr reader =>
      match decode_image reader with
      | inl e => inl (str "Failed to decode image: " ++ e)
      | inr img =>
          let resized := (MAX_DIMENSION <? ri_width (to_rgba8 img))
                         || (MAX_DIMENSION <? ri_height (to_rgba8 img)) in
          let img := if resized then resize MAX_DIMENSION MAX_DIMENSION img else img in
          match encode_rgba (to_rgba8 img) with
          | inl e => inl (str "AVIF encode failed: " ++ e)
          | inr avif_file => inr avif_file
          end
      end
  end.

Definition avif_to_data_uri (avif_bytes : Bytes) : Text :=
  str "data:image/avif;base64," ++ base64 avif_bytes.

(** ** The receiver *)

(** [polls k] is the map of pending images at the [k]th look: the first at once,
    then one every 500 ms. *)
Fixpoint poll_pending (polls : nat -> PendingImages) (image_id : Z) (k left : nat)
    : option PendingImage :=
  match polls k !! image_id with
  | Some info => Some info
  | None => match left with O => None | S left' => poll_pending polls image_id (S k) left' end
  end.

Definition wait_for_pending (polls : nat -> PendingImages) (image_id : Z) : option PendingImage :=
  poll_pending polls image_id 0 20.

(** The reads that a stream gives to a buffer of [n] bytes. *)
Definition stream_reads (n : nat) (l : list Bytes) : list Bytes :=
  l ≫= fun c => match c with [] => [[]] | _ => chunks (length c) n c end.

(** The loop of [handle_image_stream]. *)
Fixpoint recv_image (info : option PendingImage) (image_id : Z) (avif_data : Bytes)
    (reads : list Bytes) (err : option Text) : list UiEvent.t * (Text + Bytes) :=
  match reads with
  | [] => ([], match err with
               | Some e => inl (str "stream read error: " ++ e)
               | None => inr avif_data
               end)
  | r :: reads' =>
      let avif_data := avif_data ++ r in
      if MAX_IMAGE_SIZE <? Z.of_nat (length avif_data) then ([], inl (str "image too large"))
      else
        let '(evs, res) := recv_image info image_id avif_data reads' err in
        (match info with
         | Some i => [UiEvent.ImageProgress image_id (Z.of_nat (length avif_data)) (pi_size i) false]
         | None => []
         end ++ evs, res)
  end.

Definition uni_error (e : ReadError.t) : Text :=
  match e with
  | ReadError.UnexpectedEof n => str "unexpected EOF after " ++ str (pretty n) ++ str " bytes"
  | ReadError.Stream e => str "read error: " ++ e
  | ReadError.TooLarge _ | ReadError.Decode => []
  end.

(** [pending] is the map of pending images when the stream has ended. *)
Definition handle_image_stream (polls : nat -> PendingImages) (recv : RecvStream)
    (pending : PendingImages) : list UiEvent.t * (Text + unit) * PendingImages :=
  match read_exact 8 [] (rs_chunks recv) (rs_error recv) with
  | (inl e, _) => ([], inl (uni_error e), pending)
  | (inr id_buf, recv) =>
      let image_id := from_le_bytes id_buf in
      let info := wait_for_pending polls image_id in
      match recv_image info image_id [] (stream_reads IMAGE_CHUNK (rs_chunks recv)) (rs_error recv) with
      | (evs, inl e) => (evs, inl e, pending)
      | (evs, inr avif_data) =>
          let '(from_id, nickname) :=
            match info with
            | Some i => (pi_from_id i, pi_nickname i)
            | None => (str "unknown", str "Unknown")
            end in
          (evs ++ [UiEvent.ChatImage from_id nickname image_id (avif_to_data_uri avif_data) false],
           inr tt, delete image_id pending)
      end
  end.
End Image.

(** ** Facts *)

Section ImageFacts.
Context {IC : ImageCodec}.

(** The encoder never sees an image beyond the limit. *)
Lemma encode_image_bounded data avif :
  encode_image_from_bytes data = inr avif ->
  exists img, encode_rgba img = inr avif /\
    ri_width img <= MAX_DIMENSION /\ ri_height img <= MAX_DIMENSION.
Proof.
  unfold encode_image_from_bytes. destruct (with_guessed_format data) as [|r]; [done|].
  destruct (decode_image r) as [|img]; [done|]. cbn zeta.
  set (img' := if _ || _ then _ else _). intros H. exists (to_rgba8 img').
  destruct (encode_rgba (to_rgba8 img')) as [|f]; [done|]. injection H as ->. split; [done|].
  subst img'. destruct (_ || _) eqn:E; [apply resize_fits|].
  apply orb_false_iff in E as [?%Z.ltb_ge ?%Z.ltb_ge]. done.
Qed.

(** The announcement is found at the first look that shows it. *)
Lemma wait_for_pending_found polls image_id k info :
  (k <= 20)%nat -> polls k !! image_id = Some info ->
  (forall j, (j < k)%nat -> polls j !! image_id = None) ->
  wait_for_pending polls image_id = Some info.
Proof.
  unfold wait_for_pending. intros Hk Hi Hb.
  assert (forall left j, (j <= k)%nat -> (k <= j + left)%nat ->
    poll_pending polls image_id j left = Some info) as H; [|apply H; lia].
  induction left as [|left IH]; intros j Hj Hl; cbn [poll_pending].
  - assert (j = k) as -> by lia. by rewrite Hi.
  - destruct (decide (j = k)) as [->|]; [by rewrite Hi|]. rewrite Hb by lia. apply IH; lia.
Qed.

Lemma wait_for_pending_None polls image_id :
  (forall k, (k <= 20)%nat -> polls k !! image_id = None) -> wait_for_pending polls image_id = None.
Proof.
  unfold wait_for_pending. intros H.
  assert (forall left j, (j + left <= 20)%nat -> poll_pending polls image_id j left = None) as Hp;
    [|by apply Hp].
  induction left as [|left IH]; intros j Hj; cbn [poll_pending]; rewrite H by lia; [done|].
  apply IH. lia.
Qed.

Lemma mjoin_concat {A} (l : list (list A)) : mjoin l = concat l.
Proof. by induction l as [|x l IH]; [|cbn; f_equal]. Qed.

Lemma stream_reads_join n l : (0 < n)%nat -> mjoin (stream_reads n l) = mjoin l.
Proof.
  intros Hn. unfold stream_reads. induction l as [|c l IH]; [done|]. cbn.
  rewrite join_app, IH. f_equal. destruct c as [|b c]; [done|].
  rewrite mjoin_concat. by apply chunks_spec.
Qed.

(** What the loop gives: the bytes of the stream, with the progress after every
    read, unless they are too many. *)
Lemma recv_image_spec info image_id acc reads err :
  let all := acc ++ mjoin reads in
  Z.of_nat (length acc) <= MAX_IMAGE_SIZE ->
  let '(evs, res) := recv_image info image_id acc reads err in
  res = (if MAX_IMAGE_SIZE <? Z.of_nat (length all) then inl (str "image too large")
         else match err with Some e => inl (str "stream read error: " ++ e) | None => inr all end) /\
  forall i, info = Some i -> exists counts,
    evs = (fun n => UiEvent.ImageProgress image_id n (pi_size i) false) <$> counts /\
    StronglySorted Z.le (Z.of_nat (length acc) :: counts) /\
    (Z.of_nat (length all) <= MAX_IMAGE_SIZE ->
     List.last counts (Z.of_nat (length acc)) = Z.of_nat (length all)).
Proof.
  cbn zeta. revert acc. induction reads as [|r reads IH]; intros acc Hacc; cbn [recv_image].
  - cbn. rewrite app_nil_r. destruct (Z.ltb_spec MAX_IMAGE_SIZE (Z.of_nat (length acc))); [lia|].
    split; [by destruct err|]. intros i _. exists []. split_and!; try done. repeat constructor.
  - cbn zeta. cbn [mjoin list_join]. rewrite app_assoc.
    destruct (Z.ltb_spec MAX_IMAGE_SIZE (Z.of_nat (length (acc ++ r)))) as [Hbig|Hok].
    + rewrite !length_app in *. split; [by rewrite (proj2 (Z.ltb_lt _ _)) by lia|].
      intros i _. exists []. split_and!; [done|repeat constructor|lia].
    + specialize (IH (acc ++ r)). cbn zeta in IH. specialize (IH Hok).
      destruct (recv_image _ _ (acc ++ r) reads err) as [evs res]. destruct IH as [-> Hp].
      split; [done|]. intros i ->. destruct (Hp i eq_refl) as (counts & -> & Hs & Hl).
      exists (Z.of_nat (length (acc ++ r)) :: counts). split_and!; [done| |].
      * constructor; [done|]. apply StronglySorted_inv in Hs as [_ Hs].
        constructor; [rewrite length_app; lia|]. eapply Forall_impl; [exact Hs|].
        rewrite length_app. cbn. lia.
      * intros Hm. specialize (Hl Hm). etransitivity; [|exact Hl]. clear.
        generalize (Z.of_nat (length (acc ++ r))) (Z.of_nat (length acc)). intros x y.
        destruct counts as [|c cs]; [done|]. cbn. revert c. induction cs; [done|]. intros c. apply IHcs.
Qed.

(** Calls that succeed. *)
Definition env_ok : StreamEnv := mkStreamEnv (Some (inr tt)) (inr tt) (fun _ => None) None.

(** A sender that reports no error has written the header and the image. *)
Lemma stream_image_sent env image_id avif :
  (stream_image_to_peer env image_id avif).2 = inr tt ->
  mjoin (stream_image_to_peer env image_id avif).1 = to_le_bytes 8 image_id ++ avif.
Proof.
  unfold stream_image_to_peer. generalize (to_le_bytes 8 image_id). intros hdr.
  destruct (se_connect env) as [[|]|]; [done| |done].
  destruct (se_open_uni env); [done|]. destruct (se_write env 0); [done|].
  assert (forall l n w, (write_chunks env n w l).2 = inr tt -> (write_chunks env n w l).1 = l) as Hw.
  { induction l as [|c l IH]; intros n w; [done|]. cbn [write_chunks].
    destruct (se_write env n); [done|]. specialize (IH (S n) (w + Z.of_nat (length c))).
    destruct (write_chunks _ _ _ l) as [ws r]. cbn in *. intros Hr. by rewrite IH. }
  specialize (Hw (chunks (length avif) IMAGE_CHUNK avif) 1%nat 0).
  destruct (write_chunks _ _ _ _) as [ws r]. cbn in *.
  destruct r as [|[]]; [by destruct (se_finish env)|]. intros _. rewrite Hw by done.
  rewrite mjoin_concat. f_equal. apply chunks_spec; [unfold IMAGE_CHUNK; lia|done].
Qed.

(** The stream of an image, cut into pieces in any way. *)
Lemma handle_image_stream_ok polls recv pending image_id avif :
  0 <= image_id < 2 ^ 64 ->
  mjoin (rs_chunks recv) = to_le_bytes 8 image_id ++ avif -> rs_error recv = None ->
  let info := wait_for_pending polls image_id in
  let '(evs, res, pending') := handle_image_stream polls recv pending in
  if MAX_IMAGE_SIZE <? Z.of_nat (length avif)
  then res = inl (str "image too large") /\ pending' = pending
  else
    res = inr tt /\ pending' = delete image_id pending /\
    exists progress, evs = progress ++
      [UiEvent.ChatImage (from_option pi_from_id (str "unknown") info)
         (from_option pi_nickname (str "Unknown") info) image_id (avif_to_data_uri avif) false] /\
    forall i, info = Some i -> exists counts,
      progress = (fun n => UiEvent.ImageProgress image_id n (pi_size i) false) <$> counts /\
      StronglySorted Z.le (0 :: counts) /\ List.last counts 0 = Z.of_nat (length avif).
Proof.
  intros Hid Hj He info. unfold handle_image_stream.
  pose proof (read_exact_spec 8 [] (rs_chunks recv) (rs_error recv) ltac:(cbn; lia)) as H.
  cbn zeta in H. cbn [app] in H. rewrite Hj in H.
  assert (length (to_le_bytes 8 image_id) = 8%nat) as H8 by apply length_to_le_bytes.
  destruct (read_exact 8 [] _ _) as [[e|id_buf] s].
  { destruct H as [H _]. rewrite length_app in H. lia. }
  destruct H as (_ & -> & Hr & Hs). rewrite He in Hs.
  rewrite <- H8, drop_app_length in Hr.
  assert (take 8 (to_le_bytes 8 image_id ++ avif) = to_le_bytes 8 image_id) as ->
    by (rewrite <- H8 at 1; apply take_app_length).
  rewrite from_to_le_bytes by exact Hid. fold info. rewrite Hs.
  pose proof (recv_image_spec info image_id [] (stream_reads IMAGE_CHUNK (rs_chunks s)) None) as R.
  cbn zeta in R. rewrite stream_reads_join in R by (unfold IMAGE_CHUNK; lia). cbn [app length] in R.
  rewrite Hr in R. specialize (R ltac:(done)).
  destruct (recv_image _ _ _ _ _) as [evs res]. destruct R as [-> Hp].
  destruct (Z.ltb_spec MAX_IMAGE_SIZE (Z.of_nat (length avif))); [done|].
  destruct info as [i|]; cbn; split_and!; try done; exists evs; (split; [done|]); [|done].
  intros i' [= <-]. destruct (Hp i eq_refl) as (counts & -> & Hsrt & Hl). exists counts.
  split_and!; [done|done|]. by apply Hl.
Qed.

(** A stream that breaks off leaves its announcement in the map of pending
    images; nothing else removes it. *)
Lemma broken_stream_keeps_announcement polls recv pending :
  (exists e, (handle_image_stream polls recv pending).1.2 = inl e) ->
  (handle_image_stream polls recv pending).2 = pending.
Proof.
  intros [e He]. revert He. unfold handle_image_stream.
  destruct (read_exact _ _ _ _) as [[?|?] s]; [done|]. cbn zeta.
  destruct (recv_image _ _ _ _ _) as [evs [?|?]]; [done|].
  destruct (wait_for_pending polls _); done.
Qed.
End ImageFacts.

(** Raw pixels as a codec. *)
#[refine] Definition raw_codec : ImageCodec := {|
  DynamicImage := RgbaImage;
  with_guessed_format data := inr data;
  decode_image data := inr (mkRgbaImage (Z.of_nat (length data)) 1 ((fun b => (b, b, b, 255)) <$> data));
  resize w h i := mkRgbaImage (Z.min w (ri_width i)) (Z.min h (ri_height i))
                    (take (Z.to_nat w) (ri_pixels i));
  to_rgba8 i := i;
  encode_rgba i := inr ((fun '(r, _, _, _) => r) <$> ri_pixels i);
  base64 bs := bs |}.
Proof. intros w h i. cbn. lia. Defined.
