(* ===== verification/ChatApp.v ===== *)
(** * ChatApp: the chat demo's handlers ([iroh-ble-chat/src-tauri/src/lib.rs])

    The application's state, one definition per command of the web view, per tick
    and per gossip event, and [start_node] on top of [Construct].  A handler
    holds the lock of the state while it works, so it is one function on the
    state; what it asks of the web view and of gossip is its output, and what
    gossip and iroh answer is an argument.  [Peers], the map of pending images and
    the files are the state.  Log lines are left out. *)

From S2P Require Import Prelude Async Peer Interface Blew Routing Registry Store Transport Construct.
From S2P Require Import ChatProtocol ChatState ChatImage.
Open Scope Z_scope.

(** [None]s of the source are [false]: the handles are only used to talk to the
    outside.  The router is held and never read. *)
Record AppState := mkAppState {
  ap_secret_key : Bytes;
  ap_nickname : Text;
  ap_cache_dir : CacheDir;
  ap_endpoint : bool;
  ap_gossip_sender : bool;
  ap_ble_transport : bool;
  ap_peers : gmap EndpointId PeerState;
  ap_debug_enabled : bool;
  ap_pending_images : gmap Z PendingImage;
}.

Definition set_ap_nickname (n : Text) (a : AppState) : AppState :=
  mkAppState (ap_secret_key a) n (ap_cache_dir a) (ap_endpoint a) (ap_gossip_sender a)
    (ap_ble_transport a) (ap_peers a) (ap_debug_enabled a) (ap_pending_images a).
Definition set_ap_cache (c : CacheDir) (a : AppState) : AppState :=
  mkAppState (ap_secret_key a) (ap_nickname a) c (ap_endpoint a) (ap_gossip_sender a)
    (ap_ble_transport a) (ap_peers a) (ap_debug_enabled a) (ap_pending_images a).
Definition set_ap_peers (ps : gmap EndpointId PeerState) (a : AppState) : AppState :=
  mkAppState (ap_secret_key a) (ap_nickname a) (ap_cache_dir a) (ap_endpoint a)
    (ap_gossip_sender a) (ap_ble_transport a) ps (ap_debug_enabled a) (ap_pending_images a).
Definition set_ap_debug (d : bool) (a : AppState) : AppState :=
  mkAppState (ap_secret_key a) (ap_nickname a) (ap_cache_dir a) (ap_endpoint a)
    (ap_gossip_sender a) (ap_ble_transport a) (ap_peers a) d (ap_pending_images a).
Definition set_ap_pending (m : gmap Z PendingImage) (a : AppState) : AppState :=
  mkAppState (ap_secret_key a) (ap_nickname a) (ap_cache_dir a) (ap_endpoint a)
    (ap_gossip_sender a) (ap_ble_transport a) (ap_peers a) (ap_debug_enabled a) m.
Definition set_ap_started (a : AppState) : AppState :=
  mkAppState (ap_secret_key a) (ap_nickname a) (ap_cache_dir a) true true true (ap_peers a)
    (ap_debug_enabled a) (ap_pending_images a).

(** [iroh_gossip::api::Event]. *)
Module GossipEvent.
Inductive t :=
| NeighborUp (peer_id : EndpointId)
| NeighborDown (peer_id : EndpointId)
| Received (content : Bytes)
| Lagged.
End GossipEvent.

Definition is_direct (p : PeerState) : bool :=
  match cp_gossip p with Some GossipStatus.Direct => true | _ => false end.

Section App.
Context {ET : EndpointText} {PC : Postcard} {IC : ImageCodec} {HI : HashIter}.
(** [SecretKey::public]. *)
Context (public : Bytes -> EndpointId).
Context (fs_write : Bytes -> option Bytes -> option Bytes).
Implicit Types a : AppState.

Definition own_id a : EndpointId := public (ap_secret_key a).

(** ** Names *)

Definition load_nickname (c : CacheDir) : option Text := nickname_txt c.

Definition save_nickname (nickname : Text) (c : CacheDir) : CacheDir :=
  mkCacheDir (private_key c) (peers_txt c) (fs_write nickname (nickname_txt c)).

Definition default_nickname (id : EndpointId) : Text :=
  let short := ep_short id in str "user_" ++ take (Nat.min (length short) 6) short.

(** The state that [run] sets up; [generated] is a fresh secret key. *)
Definition setup (generated : Bytes) (c : CacheDir) : AppState :=
  let '(secret_key, c) := load_or_generate_key_in fs_write generated c in
  let nickname := default (default_nickname (public secret_key)) (load_nickname c) in
  mkAppState secret_key nickname c false false false ∅ false ∅.

Definition get_node_id a : Text := ep_to_string (own_id a).

(** ** Gossip events *)

Definition remember_known_peer (peer_id : EndpointId) (c : CacheDir) : CacheDir :=
  let known := load_known_peers c in
  if decide (peer_id ∈ known) then c else save_known_peers fs_write (known ++ [peer_id]) c.

Definition or_insert_peer (now : Instant) (id : EndpointId) (ps : gmap EndpointId PeerState)
    : PeerState := default (new_peer_entry now id) (ps !! id).

(** The block that begins the handling of every message: the entry of the sender
    and whether to ask gossip to join it. *)
Definition inbound_peer (now : Instant) (nickname : Text) (peer : PeerState) : PeerState * bool :=
  let peer := set_cp_nickname (Some nickname) peer in
  let needs_join_nudge := should_nudge_join_inbound now (cp_gossip peer) (cp_last_join_nudge peer) in
  let peer := if needs_join_nudge then set_cp_nudge (Some now) peer else peer in
  let peer := match cp_gossip peer with
              | None => set_cp_gossip (Some GossipStatus.InTopic) peer
              | Some _ => peer
              end in
  (set_cp_last_seen now peer, needs_join_nudge).

(** [rest]: what the message itself is told to the web view. *)
Definition on_inbound (now : Instant) (from : EndpointId) (nickname : Text) (rest : list Out.t) a
    : AppState * list Out.t :=
  let '(peer, nudge) := inbound_peer now nickname (or_insert_peer now from (ap_peers a)) in
  (set_ap_cache (remember_known_peer from (ap_cache_dir a))
     (set_ap_peers (<[from := peer]> (ap_peers a)) a),
   emit_peer now peer :: rest ++ (if nudge then [Out.JoinPeers [from]] else [])).

(** One definition per kind of message; a message of the node's own is ignored. *)
Definition on_hello (now : Instant) (from : EndpointId) (nickname : Text) a : AppState * list Out.t :=
  if decide (from = own_id a) then (a, []) else on_inbound now from nickname [] a.

Definition on_text (now : Instant) (from : EndpointId) (nickname text : Text) a
    : AppState * list Out.t :=
  if decide (from = own_id a) then (a, [])
  else on_inbound now from nickname
         [Out.Emit (UiEvent.ChatMsg (ep_to_string from) nickname text false)] a.

Definition on_nickname_changed (now : Instant) (from : EndpointId) (new_nickname : Text) a
    : AppState * list Out.t :=
  if decide (from = own_id a) then (a, []) else on_inbound now from new_nickname [] a.

Definition on_image_start (now : Instant) (from : EndpointId) (nickname : Text) (image_id size : Z) a
    : AppState * list Out.t :=
  if decide (from = own_id a) then (a, [])
  else
    let '(a, out) := on_inbound now from nickname
      [Out.Emit (UiEvent.ImageStart (ep_to_string from) nickname image_id size false)] a in
    (set_ap_pending (<[image_id := mkPendingImage (ep_to_string from) nickname size]>
       (ap_pending_images a)) a, out).

Definition on_message (now : Instant) (m : ChatMsg.t) a : AppState * list Out.t :=
  match m with
  | ChatMsg.Hello from nickname => on_hello now from nickname a
  | ChatMsg.Text from nickname text => on_text now from nickname text a
  | ChatMsg.NicknameChanged from new_nickname => on_nickname_changed now from new_nickname a
  | ChatMsg.ImageStart from nickname image_id size => on_image_start now from nickname image_id size a
  end.

(** One turn of [gossip_event_pump]. *)
Definition pump_event (now : Instant) (topic_joined : bool) (e : GossipEvent.t) a
    : AppState * bool * list Out.t :=
  match e with
  | GossipEvent.NeighborUp peer_id =>
      if decide (peer_id = own_id a) then (a, topic_joined, [])
      else
        let peer := set_cp_last_seen now (set_cp_gossip (Some GossipStatus.Direct)
                      (or_insert_peer now peer_id (ap_peers a))) in
        let a := set_ap_cache (remember_known_peer peer_id (ap_cache_dir a))
                   (set_ap_peers (<[peer_id := peer]> (ap_peers a)) a) in
        (a, true, emit_peer now peer ::
           if topic_joined then []
           else [Out.Emit (UiEvent.TopicJoined
                  (length (List.filter is_direct (hm_values (ap_peers a)))))])
  | GossipEvent.NeighborDown peer_id =>
      if decide (peer_id = own_id a) then (a, topic_joined, [])
      else
        match ap_peers a !! peer_id with
        | Some peer =>
            let peer := set_cp_gossip (Some GossipStatus.InTopic) peer in
            (set_ap_peers (<[peer_id := peer]> (ap_peers a)) a, topic_joined, [emit_peer now peer])
        | None => (a, topic_joined, [])
        end
  | GossipEvent.Received content =>
      match from_bytes content with
      | None => (a, topic_joined, [])
      | Some m => let '(a, out) := on_message now m a in (a, topic_joined, out)
      end
  | GossipEvent.Lagged => (a, topic_joined, [])
  end.

(** ** Ticks *)

(** The closure passed to [collect_join_targets]; [scan] is
    [has_scan_hint_for_endpoint] of the transport. *)
Definition is_in_scan (scan : EndpointId -> bool) a (id : EndpointId) : bool :=
  ap_ble_transport a && scan id.

Definition app_join_targets (scan : EndpointId -> bool) a : list EndpointId :=
  collect_join_targets (own_id a) (ap_peers a) (load_known_peers (ap_cache_dir a)) (is_in_scan scan a).

Definition join_out (targets : list EndpointId) : list Out.t :=
  match targets with [] => [] | _ => [Out.JoinPeers targets] end.

Definition reconnect_tick (scan : EndpointId -> bool) a : list Out.t :=
  if ap_gossip_sender a then join_out (app_join_targets scan a) else [].

Definition STALE_THRESHOLD : Duration := from_secs 120.

Definition stale_peer (now : Instant) (p : PeerState) : option PeerState :=
  if (STALE_THRESHOLD <? elapsed now (cp_last_seen p))
     && bool_decide (cp_gossip p = Some GossipStatus.InTopic)
  then Some (set_cp_gossip (Some GossipStatus.Stale) p) else None.

(** [stale_tick]; the loop changes entries in place. *)
Fixpoint stale_peers (now : Instant) (l : list (EndpointId * PeerState))
    (ps : gmap EndpointId PeerState) : gmap EndpointId PeerState * list Out.t :=
  match l with
  | [] => (ps, [])
  | (k, p) :: l' =>
      match stale_peer now p with
      | Some p' =>
          let '(ps, out) := stale_peers now l' (<[k := p']> ps) in (ps, emit_peer now p' :: out)
      | None => stale_peers now l' ps
      end
  end.

Definition stale_tick (now : Instant) a : AppState * list Out.t :=
  let '(ps, out) := stale_peers now (hm_iter (ap_peers a)) (ap_peers a) in (set_ap_peers ps a, out).

(** The loop of [transport_state_tick] over the entries, in place; [info_of] is the
    lookup through [device_for_endpoint]. *)
Fixpoint sync_peers (now : Instant) (info_of : EndpointId -> option BlePeerInfo)
    (l : list (EndpointId * PeerState)) (ps : gmap EndpointId PeerState)
    : gmap EndpointId PeerState * list EndpointId * list Out.t :=
  match l with
  | [] => (ps, [], [])
  | (k, p) :: l' =>
      let '(p', nudge, out) := sync_peer now (info_of (cp_id p)) p in
      let '(ps, targets, out') := sync_peers now info_of l' (<[k := p']> ps) in
      (ps, (if nudge : bool then [cp_id p] else []) ++ targets, out ++ out')
  end.

(** The part after the lock: the panel of BLE peers in the web view. *)
Definition current_panel (snapshot : list BlePeerInfo) : gmap DeviceId BlePeerDebugUI :=
  foldl (fun m info => <[bpi_device_id info := from_info info]> m) ∅ snapshot.

Definition panel_events (last_emitted current : gmap DeviceId BlePeerDebugUI) : list UiEvent.t :=
  (UiEvent.BlePeerUpdated <$>
     (filter (fun '(d, ui) => last_emitted !! d <> Some ui) (hm_iter current)).*2) ++
  (UiEvent.BlePeerRemoved <$> filter (fun d => current !! d = None) (hm_keys last_emitted)).

(** A turn of [transport_state_tick]: [snapshot] and [device_for] are what the
    transport answers, [last_emitted] the state of the task. *)
Definition transport_state_tick (now : Instant) (snapshot : list BlePeerInfo)
    (device_for : EndpointId -> option DeviceId) (last_emitted : gmap DeviceId BlePeerDebugUI) a
    : AppState * gmap DeviceId BlePeerDebugUI * list Out.t :=
  let infos := info_by_device snapshot in
  let '(inserted, ps) := merge_verified_ble_snapshot now (own_id a) snapshot (ap_peers a) in
  let cache := foldl (fun c id => remember_known_peer id c) (ap_cache_dir a) inserted in
  let '(ps, targets, out) :=
    sync_peers now (fun id => device_for id ≫= fun d => infos !! d) (hm_iter ps) ps in
  let nudges := if ap_gossip_sender a then (fun id => Out.JoinPeers [id]) <$> targets else [] in
  let current := current_panel snapshot in
  (set_ap_cache cache (set_ap_peers ps a), current,
   out ++ nudges ++ (Out.Emit <$> panel_events last_emitted current)).

(** ** Commands *)

(** A message that cannot be serialised is sent empty. *)
Definition encode_or_empty (m : ChatMsg.t) : Bytes := default [] (to_allocvec m).

Definition set_nickname (nickname : Text) a : AppState * list Out.t :=
  let a := set_ap_cache (save_nickname nickname (ap_cache_dir a)) (set_ap_nickname nickname a) in
  (a, if ap_gossip_sender a
      then [Out.Broadcast (encode_or_empty (ChatMsg.NicknameChanged (own_id a) nickname))] else []).

(** [joined]: the error of [join_peers]; [parse_error] is the text of the error of
    [FromStr]. *)
Definition add_peer (now : Instant) (parse_error : Text) (joined : option Text) (id_str : Text) a
    : AppState * list Out.t * (Text + unit) :=
  match ep_parse id_str with
  | None => (a, [], inl parse_error)
  | Some peer_id =>
      if ap_gossip_sender a then
        let '(ps, out) :=
          match ap_peers a !! peer_id with
          | Some _ => (ap_peers a, [])
          | None =>
              let peer := set_cp_ble (Some BlePeerPhase.Connecting) None 0
                            (new_peer_entry now peer_id) in
              (<[peer_id := peer]> (ap_peers a), [emit_peer now peer])
          end in
        (set_ap_cache (remember_known_peer peer_id (ap_cache_dir a)) (set_ap_peers ps a),
         out ++ [Out.JoinPeers [peer_id]],
         match joined with Some e => inl (str "join_peers: " ++ e) | None => inr tt end)
      else (a, [], inl (str "Node not started"))
  end.

(** What [remove_peer] does under the lock of the state: on success, the peer that
    is gone. *)
Definition remove_peer_locked (parse_error : Text) (id_str : Text) a
    : AppState * (Text + EndpointId) :=
  match ep_parse id_str with
  | None => (a, inl parse_error)
  | Some peer_id =>
      if decide (peer_id = own_id a) then (a, inl (str "cannot remove self"))
      else
        let known := load_known_peers (ap_cache_dir a) in
        let known' := filter (fun p => p <> peer_id) known in
        let c := if (length known' =? length known)%nat then ap_cache_dir a
                 else save_known_peers fs_write known' (ap_cache_dir a) in
        (set_ap_cache c (set_ap_peers (delete peer_id (ap_peers a)) a), inr peer_id)
  end.

(** The rest of it, once the lock is released: any handler may run in between. *)
Definition remove_peer_emit (peer_id : EndpointId) : list Out.t :=
  [Out.Emit (UiEvent.PeerRemoved (ep_to_string peer_id))].

(** The command when nothing runs in between. *)
Definition remove_peer (parse_error : Text) (id_str : Text) a
    : AppState * list Out.t * (Text + unit) :=
  match remove_peer_locked parse_error id_str a with
  | (a, inl e) => (a, [], inl e)
  | (a, inr peer_id) => (a, remove_peer_emit peer_id, inr tt)
  end.

(** [sent]: the error of [broadcast]. *)
Definition send_message (scan : EndpointId -> bool) (sent : option Text) (text : Text) a
    : list Out.t * (Text + unit) :=
  if ap_gossip_sender a then
    let payload := encode_or_empty (ChatMsg.Text (own_id a) (ap_nickname a) text) in
    let out := join_out (app_join_targets scan a) ++ [Out.Broadcast payload] in
    match sent with
    | Some e => (out, inl (str "broadcast: " ++ e))
    | None =>
        (out ++ [Out.Emit (UiEvent.ChatMsg (ep_to_string (own_id a)) (ap_nickname a) text true)],
         inr tt)
    end
  else ([], inl (str "Node not started")).

(** [picked]: the file the user picked, as read ([None]: cancelled); [join_error]:
    the encoder's task panicked. *)
Definition send_image (picked : option (Text + Bytes)) (image_id : Z) (join_error : option Text) a
    : list Out.t * (Text + unit) :=
  match picked with
  | None => ([], inr tt)
  | Some file =>
      let started := [Out.Emit (UiEvent.ImageStart [] [] image_id 0 true)] in
      match file with
      | inl e => (started, inl (str "Failed to read image: " ++ e))
      | inr image_bytes =>
          match join_error with
          | Some e => (started, inl (str "spawn_blocking: " ++ e))
          | None =>
              match encode_image_from_bytes image_bytes with
              | inl e => (started, inl e)
              | inr avif_bytes =>
                  if ap_gossip_sender a && ap_endpoint a then
                    let peer_ids := cp_id <$> List.filter is_direct (hm_values (ap_peers a)) in
                    (started ++
                     [Out.Emit (UiEvent.ChatImage (ep_to_string (own_id a)) (ap_nickname a) image_id
                                  (avif_to_data_uri avif_bytes) true);
                      Out.Broadcast (encode_or_empty (ChatMsg.ImageStart (own_id a) (ap_nickname a)
                                       image_id (Z.of_nat (length avif_bytes))))] ++
                     ((fun id => Out.StreamImage id image_id avif_bytes) <$> peer_ids), inr tt)
                  else (started, inl (str "Node not started"))
              end
          end
      end
  end.

(** The task [send_image] spawns for a peer. *)
Definition stream_task (env : StreamEnv) (image_id : Z) (avif_bytes : Bytes)
    : list Bytes * list UiEvent.t :=
  let '(written, r) := stream_image_to_peer env image_id avif_bytes in
  (written, match r with inl e => [UiEvent.ImageSendError image_id e] | inr _ => [] end).

Definition status_rank (s : string) : Z :=
  if decide (s = "connected"%string) then 0
  else if decide (s = "handshaking"%string) then 1
  else if decide (s = "connecting"%string) then 2
  else if decide (s = "reconnecting"%string) then 3
  else if decide (s = "in_topic"%string) then 4
  else if decide (s = "nearby"%string) then 5
  else if decide (s = "draining"%string) then 6
  else if decide (s = "stale"%string) then 7
  else if decide (s = "dead"%string) then 8
  else 9.

(** [Ord] of [Option<String>]. *)
Definition nickname_le (x y : option Text) : Prop :=
  match x, y with
  | None, _ => True
  | Some _, None => False
  | Some x, Some y => bytes_cmp x y <> Gt
  end.

Definition ui_le (x y : PeerStateUI) : Prop :=
  status_rank (pu_status x) < status_rank (pu_status y) \/
  status_rank (pu_status x) = status_rank (pu_status y) /\ nickname_le (pu_nickname x) (pu_nickname y).

#[local] Instance nickname_le_dec x y : Decision (nickname_le x y).
Proof. destruct x, y; cbn; apply _. Defined.
#[local] Instance ui_le_dec : RelDecision ui_le.
Proof. intros x y. unfold ui_le. apply _. Defined.

Definition get_peers (now : Instant) a : list PeerStateUI :=
  mkPeerStateUI (ep_to_string (own_id a)) (Some (ap_nickname a)) "self" None None 0 0
  :: merge_sort ui_le (to_ui now <$> hm_values (ap_peers a)).

Definition set_debug (enabled : bool) a : AppState := set_ap_debug enabled a.

(** [DebugLogLayer::on_event]: a log event with its fields, as name and [Debug]
    text, in order. *)
Definition debug_log (level : Level.t) (target : string) (fields : list (string * Text)) a
    : list Out.t :=
  let message := from_option snd [] (last (filter (fun f => f.1 = "message"%string) fields)) in
  let others := (fun '(name, val) => str name ++ str "=" ++ val) <$>
                  filter (fun f => f.1 <> "message"%string) fields in
  if negb (ap_debug_enabled a) then []
  else if negb (String.prefix "iroh_ble" target || String.prefix "iroh_gossip" target
                || String.prefix "blew" target) then []
  else if (Level.verbosity Level.DEBUG <? Level.verbosity level)%nat then []
  else [Out.Emit (UiEvent.DebugLog target level
          (match others with [] => message | _ => message ++ str " " ++ join_with (str " ") others end))].

(** [removed]: whether a file could be removed, by name; [ios]: the target. *)
Definition reset_app (ios : bool) (removed : string -> bool) a : AppState * list Out.t :=
  let rm name (f : option Text) := if removed name then None else f in
  let c := ap_cache_dir a in
  (set_ap_cache (mkCacheDir (rm "private.key" (private_key c))%string
                   (rm "peers.txt" (peers_txt c))%string
                   (rm "nickname.txt" (nickname_txt c))%string) a,
   if ios then [] else [Out.Restart]).
End App.
