(* ===== verification/ChatStart.v ===== *)
(** * ChatStart: how the chat demo comes up ([iroh-ble-chat/src-tauri/src/lib.rs])

    [start_node] on top of [Construct]: the two constructors of [blew] under a
    deadline, [BleTransport::build], the endpoint and the subscription, whose
    outcomes are arguments; and the messages that tell a user what went wrong. *)

From S2P Require Import Prelude Async Peer Interface Blew Routing Registry Store Transport Construct.
From S2P Require Import ChatProtocol ChatState ChatImage ChatApp.
Open Scope Z_scope.

Definition BLE_INIT_TIMEOUT : Duration := from_secs 20.

Definition BLUETOOTH_OFF_MESSAGE : string :=
  "Bluetooth is turned off. Please enable Bluetooth in Settings and restart the app.".
Definition BLUETOOTH_UNAVAILABLE_MESSAGE : string :=
  "Bluetooth is unavailable. Check that this app is allowed to use Bluetooth in Settings — simulators and emulators have no Bluetooth adapter.".
Definition BLE_STACK_STUCK_MESSAGE : string :=
  "Bluetooth did not finish starting up. Toggle Bluetooth off and on, then restart the app.".

(** [str::contains]. *)
Definition contains (pat msg : string) : bool :=
  match String.index 0 pat msg with Some _ => true | None => false end.

Definition ble_init_error_message (msg : string) : string :=
  if contains "adapter not found" msg || contains "AdapterNotFound" msg
  then BLUETOOTH_UNAVAILABLE_MESSAGE
  else if contains "not powered" msg || contains "timed out waiting for Bluetooth" msg
          || contains "power on" msg || contains "adapter is off" msg
  then BLUETOOTH_OFF_MESSAGE
  else if contains "timed out at stage" msg then BLE_STACK_STUCK_MESSAGE
  else msg.

(** [request_ble_permissions]: [granted] before the dialog; [event] is the first
    status within a minute ([None]: none came, [Some None]: the stream ended);
    [granted_later] is asked again in those cases. *)
Definition request_ble_permissions (android granted : bool) (event : option (option bool))
    (granted_later : bool) : bool :=
  if android then
    if granted then true
    else match event with
         | Some (Some status) => status
         | Some None | None => granted_later
         end
  else true.

Section Start.
Context {N : Type} {BL : Blew N} {BF : BlewFmt}.
Context {ET : EndpointText} {PC : Postcard} (public : Bytes -> EndpointId).
Abbreviation Radio := (BlewDriver N).
Implicit Types a : AppState.

Definition ble_init_step {T} (on_timeout : string) (fut : Async Radio (BlewError.t + T))
    : Async Radio (string + T) :=
  r ← timeout BLE_INIT_TIMEOUT fut;
  mret (match r with
        | Some (inr v) => inr v
        | Some (inl e) => inl (ble_init_error_message (blew_display e))
        | None => inl on_timeout
        end).

(** The peers of earlier sessions, in the order of the file. *)
Fixpoint restore_peers (now : Instant) (own : EndpointId) (known : list EndpointId)
    (ps : gmap EndpointId PeerState) : gmap EndpointId PeerState * list Out.t :=
  match known with
  | [] => (ps, [])
  | id :: known' =>
      if decide (id = own) then restore_peers now own known' ps
      else
        let peer := or_insert_peer now id ps in
        let '(ps, out) := restore_peers now own known' (<[id := peer]> ps) in
        (ps, emit_peer now peer :: out)
  end.

(** What follows a successful [build]: [bound] and [subscribed] are the errors of
    [bind] and [subscribe]. *)
Definition finish_start (now : Instant) (bound subscribed : option Text) a
    : AppState * list Out.t * (Text + (Text * Text)) :=
  match bound with
  | Some e => (a, [], inl e)
  | None =>
      let '(ps, out) :=
        restore_peers now (own_id public a) (load_known_peers (ap_cache_dir a)) (ap_peers a) in
      let a := set_ap_peers ps a in
      match subscribed with
      | Some e => (a, out, inl (str "gossip subscribe: " ++ e))
      | None =>
          let a := set_ap_started a in
          (a, out ++ [Out.Broadcast (encode_or_empty
                        (ChatMsg.Hello (own_id public a) (ap_nickname a)))],
           inr (ep_to_string (own_id public a), ap_nickname a))
      end
  end.

Definition EMULATOR_MESSAGE : string :=
  "BLE is not supported on emulators or simulators. Please run on a physical device.".

Definition build_transport (id : EndpointId)
    (central_with_config peripheral_new : Async Radio (BlewError.t + unit))
    : Async Radio (string + BleTransport) :=
  try_bind (ble_init_step BLUETOOTH_OFF_MESSAGE central_with_config) (fun _ =>
  try_bind (ble_init_step BLUETOOTH_OFF_MESSAGE peripheral_new) (fun _ =>
  r ← build id (mkBuilder (S := Empty_set) L2capPolicy.PreferL2cap true true None);
  mret (match r with
        | inl e => inl (ble_init_error_message (BleError.display e))
        | inr (t, _) => inr t
        end))).

(** The lock of the state is held throughout. *)
Definition start_node (now : Instant) (emulator permitted : bool)
    (central_with_config peripheral_new : Async Radio (BlewError.t + unit))
    (bound subscribed : option Text) a
    : Async Radio (AppState * list Out.t * (Text + (Text * Text))) :=
  if ap_endpoint a then mret (a, [], inr (ep_to_string (own_id public a), ap_nickname a))
  else if emulator then mret (a, [], inl (str EMULATOR_MESSAGE))
  else if negb permitted then mret (a, [], inl (str "ble_permissions_required"))
  else
    r ← build_transport (own_id public a) central_with_config peripheral_new;
    mret (match r with
          | inl e => (a, [], inl (str e))
          | inr _ => finish_start now bound subscribed a
          end).
End Start.
