(* ===== verification/ChatRun.v ===== *)
(** * ChatRun: runs of the chat demo

    The handlers of [ChatApp] interleaved in any order.  Every step is described
    entry by entry ([entry_step]): what it does to the entry of one peer, what it
    tells the web view about it, and how often it asks gossip to join it.  The
    theorems follow from that. *)

From S2P Require Import Prelude Async Peer Routing Registry Transport.
From S2P Require Import ChatProtocol ChatState ChatImage ChatApp ChatStart.
Open Scope Z_scope.

Module AppStep.
Inductive t :=
| Start (bound subscribed : option Text)
| Pump (e : GossipEvent.t)
| Reconnect (scan : EndpointId -> bool)
| StaleTick
| TransportTick (snapshot : list BlePeerInfo) (device_for : EndpointId -> option DeviceId)
| SetNickname (nickname : Text)
| AddPeer (parse_error : Text) (joined : option Text) (id_str : Text)
| RemovePeer (parse_error : Text) (id_str : Text)
| EmitRemoved (i : nat)
| SendMessage (scan : EndpointId -> bool) (sent : option Text) (text : Text)
| SendImage (picked : option (Text + Bytes)) (image_id : Z) (join_error : option Text)
| ImageStream (polls : nat -> gmap Z PendingImage) (recv : RecvStream)
| SetDebug (enabled : bool)
| ResetApp (ios : bool) (removed : string -> bool).
End AppStep.

(** The state, what the pump and the transport tick remember, and the peers whose
    [remove_peer] has released the lock and has not told the web view yet. *)
Record AppSys := mkAppSys {
  sy_app : AppState;
  sy_topic_joined : bool;
  sy_last_emitted : gmap DeviceId BlePeerDebugUI;
  sy_removals : list EndpointId;
}.

(** ** Loops over a map *)

Section Loops.
Context {HI : HashIter} {K : Type} `{Countable K} {V : Type}.
Implicit Types (m : gmap K V) (l : list (K * V)).

Lemma NoDup_hm_fst m : NoDup (hm_iter m).*1.
Proof. apply (NoDup_hm_keys m). Qed.

(** Changing the entries in place. *)
Definition in_place (f : V -> V) l m : gmap K V := foldl (fun m '(k, v) => <[k := f v]> m) m l.

Lemma lookup_in_place f m k : in_place f (hm_iter m) m !! k = f <$> m !! k.
Proof.
  assert (forall l (m' : gmap K V), NoDup l.*1 ->
    (forall v, (k, v) ∈ l -> in_place f l m' !! k = Some (f v)) /\
    (k ∉ l.*1 -> in_place f l m' !! k = m' !! k)) as Hl.
  { induction l as [|[k' v'] l IH]; intros m' Hn; [split; [set_solver|done]|].
    change (in_place f ((k', v') :: l) m') with (in_place f l (<[k':=f v']> m')).
    cbn in Hn. apply NoDup_cons in Hn as [Hk' Hn]. destruct (IH (<[k':=f v']> m') Hn) as [H1 H2].
    split; [|intros Hk; rewrite H2, lookup_insert_ne by set_solver; done].
    intros v [[= -> ->]|Hv]%elem_of_cons; [|by apply H1].
    by rewrite H2, lookup_insert_eq. }
  destruct (Hl (hm_iter m) m (NoDup_hm_fst m)) as [H1 H2]. destruct (m !! k) as [v|] eqn:E; cbn.
  - apply H1. by apply elem_of_hm_iter.
  - rewrite H2; [done|]. intros [[k' v] [-> Hv%elem_of_hm_iter]]%list_elem_of_fmap. cbn in E. congruence.
Qed.

(** Of the outputs of a loop only those of one key concern it. *)
Lemma omap_loop {A B} (h : A -> option B) (g : K * V -> list A) m k :
  (forall k' v, m !! k' = Some v -> k' <> k -> omap h (g (k', v)) = []) ->
  omap h (hm_iter m ≫= g) = match m !! k with Some v => omap h (g (k, v)) | None => [] end.
Proof.
  intros Ho. assert (forall k' v, (k', v) ∈ hm_iter m -> k' <> k -> omap h (g (k', v)) = []) as Ho'
    by (intros k' v Hin; apply Ho; by apply elem_of_hm_iter).
  assert (forall l, NoDup l.*1 -> (forall k' v, (k', v) ∈ l -> k' <> k -> omap h (g (k', v)) = []) ->
    (k ∉ l.*1 -> omap h (l ≫= g) = []) /\
    forall v, (k, v) ∈ l -> omap h (l ≫= g) = omap h (g (k, v))) as Hl.
  { clear. induction l as [|[k' v'] l IH]; intros Hn Ho; cbn; [split; [done|set_solver]|].
    cbn in Hn. apply NoDup_cons in Hn as [Hk' Hn].
    destruct (IH Hn) as [H1 H2]; [intros; apply Ho; [by right|done]|]. rewrite omap_app. split.
    - intros Hk. rewrite H1 by set_solver. rewrite Ho by set_solver. done.
    - intros v [[= -> ->]|Hv]%elem_of_cons; [by rewrite H1, app_nil_r|].
      rewrite Ho, (H2 v Hv); [done|by left|]. intros ->. apply Hk', list_elem_of_fmap. by exists (k, v). }
  destruct (Hl (hm_iter m) (NoDup_hm_fst m) Ho') as [H1 H2]. destruct (m !! k) as [v|] eqn:E.
  - apply H2. by apply elem_of_hm_iter.
  - apply H1. intros [[k' v] [-> Hv%elem_of_hm_iter]]%list_elem_of_fmap. cbn in E. congruence.
Qed.
End Loops.

Definition msg_from (m : ChatMsg.t) : EndpointId :=
  match m with
  | ChatMsg.Hello f _ | ChatMsg.Text f _ _ | ChatMsg.NicknameChanged f _
  | ChatMsg.ImageStart f _ _ _ => f
  end.

(** The handler of one message. *)
Ltac open_message :=
  cbn [on_message msg_from] in *; unfold on_hello, on_text, on_nickname_changed, on_image_start in *.

Section Run.
Context {ET : EndpointText} {PC : Postcard} {IC : ImageCodec} {HI : HashIter}.
Context (public : Bytes -> EndpointId) (fs_write : Bytes -> option Bytes -> option Bytes).
Implicit Types (a : AppState) (s : AppSys) (x : AppStep.t).

Definition with_app s (r : AppState * list Out.t) : AppSys * list Out.t :=
  (mkAppSys r.1 (sy_topic_joined s) (sy_last_emitted s) (sy_removals s), r.2).

(** One step at time [now]; a command's result is told to its caller only. *)
Definition app_step (now : Instant) x s : AppSys * list Out.t :=
  let a := sy_app s in
  match x with
  | AppStep.Start bound subscribed =>
      if ap_endpoint a then (s, [])
      else with_app s (finish_start public now bound subscribed a).1
  | AppStep.Pump e =>
      let '(a, joined, out) := pump_event public fs_write now (sy_topic_joined s) e a in
      (mkAppSys a joined (sy_last_emitted s) (sy_removals s), out)
  | AppStep.Reconnect scan => (s, reconnect_tick public scan a)
  | AppStep.StaleTick => with_app s (stale_tick now a)
  | AppStep.TransportTick snapshot device_for =>
      let '(a, last, out) :=
        transport_state_tick public fs_write now snapshot device_for (sy_last_emitted s) a in
      (mkAppSys a (sy_topic_joined s) last (sy_removals s), out)
  | AppStep.SetNickname n => with_app s (set_nickname public fs_write n a)
  | AppStep.AddPeer pe joined id => with_app s (add_peer fs_write now pe joined id a).1
  | AppStep.RemovePeer pe id =>
      let '(a, r) := remove_peer_locked public fs_write pe id a in
      (mkAppSys a (sy_topic_joined s) (sy_last_emitted s)
         (match r with inr k => sy_removals s ++ [k] | inl _ => sy_removals s end), [])
  | AppStep.EmitRemoved i =>
      match sy_removals s !! i with
      | Some k =>
          (mkAppSys a (sy_topic_joined s) (sy_last_emitted s) (delete i (sy_removals s)),
           remove_peer_emit k)
      | None => (s, [])
      end
  | AppStep.SendMessage scan sent text => (s, (send_message public scan sent text a).1)
  | AppStep.SendImage picked id je => (s, (send_image public picked id je a).1)
  | AppStep.ImageStream polls recv =>
      let '(evs, _, pending) := handle_image_stream polls recv (ap_pending_images a) in
      with_app s (set_ap_pending pending a, Out.Emit <$> evs)
  | AppStep.SetDebug b => with_app s (set_debug b a, [])
  | AppStep.ResetApp ios removed => with_app s (reset_app ios removed a)
  end.

(** A run, with what every step puts out. *)
Fixpoint app_run (l : list (Instant * AppStep.t)) s : AppSys * list (Instant * AppStep.t * list Out.t) :=
  match l with
  | [] => (s, [])
  | (now, x) :: l' =>
      let '(s1, out) := app_step now x s in
      let '(s2, tr) := app_run l' s1 in (s2, (now, x, out) :: tr)
  end.

(** ** What the web view is told of a peer, and how often it is nudged *)

(** [Some (Some u)]: the event shows [u]; [Some None]: it removes the peer. *)
Definition about (id : EndpointId) (o : Out.t) : option (option PeerStateUI) :=
  match o with
  | Out.Emit (UiEvent.PeerUpdated u) => if decide (pu_id u = ep_to_string id) then Some (Some u) else None
  | Out.Emit (UiEvent.PeerRemoved t) => if decide (t = ep_to_string id) then Some None else None
  | _ => None
  end.

(** The requests to join a peer that are to be throttled: on an inbound message or
    a sighting, not those of [reconnect_tick], [send_message] and [add_peer]. *)
Definition throttled x : bool :=
  match x with AppStep.Pump _ | AppStep.TransportTick _ _ => true | _ => false end.

Definition nudge_of (id : EndpointId) (o : Out.t) : option unit :=
  match o with Out.JoinPeers [i] => if decide (i = id) then Some tt else None | _ => None end.

Definition nudges (id : EndpointId) x (out : list Out.t) : nat :=
  if throttled x then length (omap (nudge_of id) out) else O.

(** What is shown of an entry, but for the time since it was seen. *)
Definition same_view (p q : PeerState) : Prop :=
  cp_id p = cp_id q /\ cp_nickname p = cp_nickname q /\ cp_gossip p = cp_gossip q /\
  cp_ble_phase p = cp_ble_phase q /\ cp_ble_path p = cp_ble_path q /\
  cp_ble_failures p = cp_ble_failures q.

#[global] Instance same_view_equiv : Equivalence same_view.
Proof.
  split; [intros p; by split_and!|intros p q (?&?&?&?&?&?)|intros p q r (?&?&?&?&?&?) (?&?&?&?&?&?)];
    split_and!; congruence.
Qed.

(** A step seen from one peer. *)
Record entry_step (now : Instant) (id : EndpointId) (old new : option PeerState)
    (ui : list (option PeerStateUI)) (n : nat) : Prop := mk_entry_step {
  (** The entry is about this peer. *)
  es_id p : new = Some p -> cp_id p = id;
  (** What is shown: nothing new, or the entry. *)
  es_quiet : ui = [] ->
    match old, new with
    | Some p, Some q => same_view p q
    | None, Some q => same_view (new_peer_entry now id) q
    | _, None => True
    end;
  es_shown : ui <> [] -> last ui = Some (to_ui now <$> new);
  (** No entry is dropped. *)
  es_kept : is_Some old -> is_Some new;
  (** A nudge is marked, and does not follow the one before too soon. *)
  es_nudge : (n <= 1)%nat /\ forall q, new = Some q ->
    (cp_last_join_nudge q = (old ≫= cp_last_join_nudge) /\ n = 0%nat) \/
    (cp_last_join_nudge q = Some now /\
     forall t, (old ≫= cp_last_join_nudge) = Some t -> t + JOIN_NUDGE_MIN_INTERVAL <= now);
  es_nudged : new = None -> n = 0%nat;
}.

(** ** Entry by entry *)

Definition ids_ok (ps : gmap EndpointId PeerState) : Prop :=
  forall id p, ps !! id = Some p -> cp_id p = id /\ ep_valid id.

Lemma ep_to_string_inj i j : ep_valid i -> ep_valid j -> ep_to_string i = ep_to_string j -> i = j.
Proof.
  intros Hi%ep_parse_to_string Hj%ep_parse_to_string E. rewrite E, Hj in Hi. by injection Hi.
Qed.

Lemma about_emit_eq now p : about (cp_id p) (emit_peer now p) = Some (Some (to_ui now p)).
Proof. cbn. by rewrite decide_True. Qed.

Lemma about_emit_ne now p id :
  ep_valid (cp_id p) -> ep_valid id -> cp_id p <> id -> about id (emit_peer now p) = None.
Proof. intros Hp Hi Hne. cbn. rewrite decide_False; [done|]. by intros ?%ep_to_string_inj. Qed.

Lemma nudge_gap now g last t :
  should_nudge_join_inbound now g last = true -> last = Some t -> t + JOIN_NUDGE_MIN_INTERVAL <= now.
Proof.
  intros H ->. unfold should_nudge_join_inbound in H.
  assert (JOIN_NUDGE_MIN_INTERVAL <= elapsed now t) as H1
    by (destruct g as [[]|]; [done|by apply Z.leb_le..]).
  unfold elapsed, saturating_duration_since, JOIN_NUDGE_MIN_INTERVAL, from_secs in *. lia.
Qed.

Section Entry.
Context (now : Instant) (id : EndpointId).

(** Nothing happens to this peer. *)
Lemma entry_same old : (forall p, old = Some p -> cp_id p = id) -> entry_step now id old old [] 0.
Proof.
  intros Hid. split; try done.
  - by destruct old.
  - split; [lia|]. intros q ->. by left.
Qed.

(** The entry is changed and shown. *)
Lemma entry_shown old q ui n :
  cp_id q = id -> last ui = Some (Some (to_ui now q)) -> (n <= 1)%nat ->
  (cp_last_join_nudge q = (old ≫= cp_last_join_nudge) /\ n = 0%nat \/
   cp_last_join_nudge q = Some now /\
   forall t, (old ≫= cp_last_join_nudge) = Some t -> t + JOIN_NUDGE_MIN_INTERVAL <= now) ->
  entry_step now id old (Some q) ui n.
Proof.
  intros Hid Hl Hn Hj. split; try done.
  - by intros p [= <-].
  - by intros ->.
  - split; [done|]. by intros q' [= <-].
Qed.
End Entry.

Lemma or_insert_id now id ps : ids_ok ps -> cp_id (or_insert_peer now id ps) = id.
Proof. intros H. unfold or_insert_peer. destruct (ps !! id) as [p|] eqn:E; [by apply H|done]. Qed.

Lemma or_insert_nudge now id ps :
  cp_last_join_nudge (or_insert_peer now id ps) = (ps !! id ≫= cp_last_join_nudge).
Proof. unfold or_insert_peer. by destruct (ps !! id). Qed.

Lemma inbound_peer_spec now nick p :
  let '(q, nudge) := inbound_peer now nick p in
  cp_id q = cp_id p /\ cp_nickname q = Some nick /\
  cp_last_join_nudge q = (if nudge then Some now else cp_last_join_nudge p) /\
  (nudge = true -> should_nudge_join_inbound now (cp_gossip p) (cp_last_join_nudge p) = true).
Proof.
  unfold inbound_peer. cbn [set_cp_nickname cp_gossip cp_last_join_nudge].
  destruct (should_nudge_join_inbound _ _ _); cbn; destruct (cp_gossip p) eqn:E; cbn;
    rewrite ?E; done.
Qed.

(** What the message itself shows is not about the peer list. *)
Definition plain (out : list Out.t) : Prop :=
  forall id, omap (about id) out = [] /\ omap (nudge_of id) out = [].

Lemma on_inbound_entry now from nick rest a id :
  ids_ok (ap_peers a) -> ep_valid from -> ep_valid id -> plain rest ->
  let '(a', out) := on_inbound fs_write now from nick rest a in
  entry_step now id (ap_peers a !! id) (ap_peers a' !! id)
    (omap (about id) out) (length (omap (nudge_of id) out)).
Proof.
  intros Ha Hf Hid Hr. unfold on_inbound.
  pose proof (inbound_peer_spec now nick (or_insert_peer now from (ap_peers a))) as H.
  destruct (inbound_peer _ _ _) as [q nudge]. destruct H as (Hq & _ & Hj & Hn).
  rewrite or_insert_id in Hq by done. cbn [set_ap_cache set_ap_peers ap_peers omap list_omap].
  destruct (Hr id) as [Hr1 Hr2]. rewrite !omap_app, Hr1, Hr2. cbn [app nudge_of emit_peer].
  destruct (decide (id = from)) as [->|Hne].
  - rewrite lookup_insert_eq. apply entry_shown; [done| | |].
    + rewrite <- Hq at 1. rewrite about_emit_eq. by destruct nudge.
    + destruct nudge; cbn; [rewrite decide_True by done|]; cbn; lia.
    + rewrite or_insert_nudge in Hj. destruct nudge; [right|left]; cbn; [|done].
      split; [done|]. intros t Ht. eapply nudge_gap; [by apply Hn|]. by rewrite or_insert_nudge.
  - rewrite lookup_insert_ne by done. rewrite about_emit_ne by (congruence || by rewrite Hq).
    assert (omap (about id) (if nudge then [Out.JoinPeers [from]] else []) = [] /\
      omap (nudge_of id) (if nudge then [Out.JoinPeers [from]] else []) = []) as [-> ->].
    { destruct nudge; cbn; [|done]. by rewrite decide_False by congruence. }
    apply entry_same. intros p Hp. by apply Ha.
Qed.

(** The identities the outside hands in are identities. *)
Definition step_ok x : Prop :=
  match x with
  | AppStep.Pump (GossipEvent.NeighborUp id | GossipEvent.NeighborDown id) => ep_valid id
  | AppStep.Pump (GossipEvent.Received c) => forall m, from_bytes c = Some m -> ep_valid (msg_from m)
  | AppStep.TransportTick snapshot _ =>
      Forall (fun i => forall v, bpi_verified_endpoint i = Some v -> ep_valid v) snapshot
  | _ => True
  end.

Lemma on_message_entry now m a id :
  ids_ok (ap_peers a) -> ep_valid (msg_from m) -> ep_valid id ->
  let '(a', out) := on_message public fs_write now m a in
  entry_step now id (ap_peers a !! id) (ap_peers a' !! id)
    (omap (about id) out) (length (omap (nudge_of id) out)).
Proof.
  intros Ha Hm Hid.
  assert (entry_step now id (ap_peers a !! id) (ap_peers a !! id) [] 0) as Hsame
    by (apply entry_same; intros p Hp; by apply Ha).
  destruct m as [f n|f n t|f n|f n i z]; open_message;
    (destruct (decide (f = own_id public a)); [exact Hsame|]).
  4: pose proof (on_inbound_entry now f n
       [Out.Emit (UiEvent.ImageStart (ep_to_string f) n i z false)] a id Ha Hm Hid ltac:(done)) as H;
     destruct (on_inbound _ _ _ _ _ _) as [a' out]; exact H.
  all: by apply on_inbound_entry.
Qed.

Lemma pump_entry now joined e a id :
  ids_ok (ap_peers a) -> step_ok (AppStep.Pump e) -> ep_valid id ->
  let '(a', _, out) := pump_event public fs_write now joined e a in
  entry_step now id (ap_peers a !! id) (ap_peers a' !! id)
    (omap (about id) out) (length (omap (nudge_of id) out)).
Proof.
  intros Ha He Hid.
  assert (entry_step now id (ap_peers a !! id) (ap_peers a !! id) [] 0) as Hsame
    by (apply entry_same; intros p Hp; by apply Ha).
  destruct e as [k|k|c|]; cbn [pump_event step_ok] in *; [| | |exact Hsame].
  - destruct (decide (k = own_id public a)); [exact Hsame|]. cbn zeta.
    set (q := set_cp_last_seen _ _). assert (cp_id q = k) as Hq by (subst q; by apply or_insert_id).
    cbn [set_ap_cache set_ap_peers ap_peers omap list_omap]. set (l := if joined then _ else _).
    assert (omap (about id) l = [] /\ omap (nudge_of id) l = []) as [E1 E2] by (subst l; by destruct joined).
    rewrite E1, E2. cbn [nudge_of emit_peer]. destruct (decide (id = k)) as [->|Hne].
    + rewrite lookup_insert_eq, <- Hq, about_emit_eq. rewrite Hq.
      apply entry_shown; [done|done|cbn; lia|left]. split; [|done]. subst q. cbn.
      apply or_insert_nudge.
    + rewrite lookup_insert_ne, about_emit_ne by congruence. exact Hsame.
  - destruct (decide (k = own_id public a)); [exact Hsame|].
    destruct (ap_peers a !! k) as [p|] eqn:E; [|exact Hsame]. destruct (Ha _ _ E) as [Hp _].
    cbn [set_ap_peers ap_peers omap list_omap nudge_of emit_peer].
    destruct (decide (id = k)) as [->|Hne].
    + rewrite lookup_insert_eq, E. set (q := set_cp_gossip _ p).
      assert (cp_id q = k) as Hq by done. pose proof (about_emit_eq now q) as Hs. rewrite Hq in Hs. rewrite Hs.
      apply entry_shown; [done|done|cbn; lia|by left].
    + rewrite lookup_insert_ne, about_emit_ne by (done || by rewrite <- ?Hp in *). exact Hsame.
  - destruct (from_bytes c) as [m|] eqn:E; [|exact Hsame].
    pose proof (on_message_entry now m a id Ha (He _ eq_refl) Hid) as H.
    by destruct (on_message _ _ _ _ _) as [a' out].
Qed.

(** The loops of the ticks. *)
Lemma sync_peers_eq now info_of l ps :
  sync_peers now info_of l ps =
  (in_place (fun p => (sync_peer now (info_of (cp_id p)) p).1.1) l ps,
   l ≫= (fun '(_, p) => if (sync_peer now (info_of (cp_id p)) p).1.2 then [cp_id p] else []),
   l ≫= (fun '(_, p) => (sync_peer now (info_of (cp_id p)) p).2)).
Proof.
  revert ps. induction l as [|[k p] l IH]; intros ps; [done|]. cbn [sync_peers].
  destruct (sync_peer now (info_of (cp_id p)) p) as [[p' nudge] out] eqn:E. rewrite IH. cbn.
  by rewrite E.
Qed.

Lemma stale_peers_eq now l ps :
  (forall k p, (k, p) ∈ l -> ps !! k = Some p) -> NoDup l.*1 ->
  stale_peers now l ps =
  (in_place (fun p => default p (stale_peer now p)) l ps,
   l ≫= (fun '(_, p) => match stale_peer now p with Some q => [emit_peer now q] | None => [] end)).
Proof.
  revert ps. induction l as [|[k p] l IH]; intros ps Hl Hn; [done|]. cbn [stale_peers].
  cbn in Hn. apply NoDup_cons in Hn as [Hk Hn].
  assert (forall q k' p', (k', p') ∈ l -> <[k:=q]> ps !! k' = Some p') as Hl'.
  { intros q k' p' Hin. rewrite lookup_insert_ne; [apply Hl; by right|].
    intros ->. apply Hk, list_elem_of_fmap. by exists (k', p'). }
  cbn. destruct (stale_peer now p) as [q|]; cbn.
  - rewrite IH by auto. done.
  - rewrite (IH ps) by (done || (intros; apply Hl; by right)). cbn. rewrite insert_id; [done|].
    apply Hl. by left.
Qed.

Lemma stale_entry now a id :
  ids_ok (ap_peers a) -> ep_valid id ->
  let '(a', out) := stale_tick now a in
  entry_step now id (ap_peers a !! id) (ap_peers a' !! id) (omap (about id) out) 0.
Proof.
  intros Ha Hid. unfold stale_tick.
  rewrite stale_peers_eq by (intros; by apply elem_of_hm_iter || apply NoDup_hm_fst).
  cbn [set_ap_peers ap_peers]. rewrite lookup_in_place, (omap_loop _ _ _ id).
  2: { intros k p Hp Hne. destruct (Ha _ _ Hp) as [Hk Hv]. unfold stale_peer.
    destruct (_ && _); [|done]. cbn [omap list_omap].
    rewrite about_emit_ne; [done|by rewrite <- Hk in Hv|done|by rewrite <- Hk in Hne]. }
  destruct (ap_peers a !! id) as [p|] eqn:E; cbn [fmap option_fmap option_map]; [|by apply entry_same].
  destruct (Ha _ _ E) as [Hp _]. unfold stale_peer. destruct (_ && _).
  - set (q := set_cp_gossip _ p). pose proof (about_emit_eq now q) as Hs.
    assert (cp_id q = id) as Hq by done. rewrite Hq in Hs. cbn [omap list_omap]. rewrite Hs.
    cbn. apply entry_shown; [done|done|lia|by left].
  - apply entry_same. by intros p' [= <-].
Qed.

(** An entry, perhaps new, that follows the transport. *)
Lemma sync_entry now id info old p n :
  cp_id p = id -> old = Some p \/ old = None /\ p = new_peer_entry now id ->
  (n <= if (sync_peer now info p).1.2 then 1 else 0)%nat ->
  entry_step now id old (Some (sync_peer now info p).1.1)
    (omap (about id) (sync_peer now info p).2) n.
Proof.
  intros Hp Ho Hn. pose proof (sync_peer_spec now info p) as H.
  destruct (sync_peer now info p) as [[q nudge] out]. cbn [fst snd] in *.
  destruct H as (Hph & Hf & Hpa & Hid & Hni & Hg & Hj & Hs & Hout).
  assert ((old ≫= cp_last_join_nudge) = cp_last_join_nudge p) as Ej
    by (destruct Ho as [->|[-> ->]]; done).
  assert (omap (about id) out = [] /\ same_view p q \/
          omap (about id) out = [Some (to_ui now q)]) as Hv.
  { subst out. destruct (decide _) as [(E1 & E2 & E3)|_]; [left|right].
    - split; [done|]. split_and!; congruence.
    - pose proof (about_emit_eq now q) as Hq. rewrite Hid, Hp in Hq. cbn [omap list_omap]. by rewrite Hq. }
  split.
  - intros p' [= <-]. congruence.
  - intros E. destruct Hv as [[_ Hv]|Hv]; [|congruence]. by destruct Ho as [->|[-> ->]].
  - intros E. destruct Hv as [[Hv _]|Hv]; [done|]. by rewrite Hv.
  - eauto.
  - split; [destruct nudge; lia|]. intros q' [= <-]. rewrite Ej. destruct nudge.
    + right. split; [done|]. intros t Ht. eapply nudge_gap; [by apply Hs|done].
    + left. split; [done|]. lia.
  - done.
Qed.

Lemma panel_plain id last current : omap (about id) (Out.Emit <$> panel_events last current) = [] /\
  omap (nudge_of id) (Out.Emit <$> panel_events last current) = [].
Proof.
  unfold panel_events. rewrite fmap_app, !omap_app.
  split; apply app_nil; split; [generalize (filter (fun '(d, ui) => last !! d <> Some ui) (hm_iter current)).*2
    |generalize (filter (fun d => current !! d = None) (hm_keys last))
    |generalize (filter (fun '(d, ui) => last !! d <> Some ui) (hm_iter current)).*2
    |generalize (filter (fun d => current !! d = None) (hm_keys last))];
    intros l; by induction l.
Qed.

Lemma merge_ids_ok now snapshot a :
  ids_ok (ap_peers a) -> step_ok (AppStep.TransportTick snapshot (fun _ => None)) ->
  ids_ok (merge_verified_ble_snapshot now (own_id public a) snapshot (ap_peers a)).2.
Proof.
  intros Ha Hs k p. pose proof (merge_spec now (own_id public a) snapshot (ap_peers a)) as H.
  destruct (merge_verified_ble_snapshot _ _ _ _) as [ins ps]. destruct H as (_ & Hi & Hl). cbn.
  rewrite Hl. destruct (decide (k ∈ ins)) as [Hin|]; [|apply Ha]. intros [= <-]. split; [done|].
  apply Hi in Hin as (_ & _ & i & Hin & Hv). cbn in Hs. rewrite Forall_forall in Hs. by eapply Hs.
Qed.

Lemma sync_out_cases now info p :
  (sync_peer now info p).2 = [] \/
  exists q, cp_id q = cp_id p /\ (sync_peer now info p).2 = [emit_peer now q].
Proof.
  pose proof (sync_peer_spec now info p) as H.
  destruct (sync_peer now info p) as [[q nudge] out]. cbn [fst snd].
  destruct H as (_ & _ & _ & Hid & _ & _ & _ & _ & ->). destruct (decide _); [by left|right; eauto].
Qed.

(** How often the entries' nudges concern one peer. *)
Lemma nudges_one (sender : bool) id (sync : PeerState -> bool) ps :
  ids_ok ps ->
  (length (omap (nudge_of id)
     (if sender then (fun i => Out.JoinPeers [i]) <$>
        (hm_iter ps ≫= fun '(_, p) => if sync p then [cp_id p] else []) else []))
   <= match ps !! id with Some p => if sync p then 1 else 0 | None => 0 end)%nat.
Proof.
  intros Hps. destruct sender; [|cbn; lia].
  set (h := fun i : EndpointId => if decide (i = id) then Some tt else None).
  assert (forall l, omap (nudge_of id) ((fun i => Out.JoinPeers [i]) <$> l) = omap h l) as ->.
  { induction l as [|i l IH]; [done|]. cbn [fmap list_fmap omap list_omap].
    cbn. by rewrite <- IH. }
  rewrite (omap_loop h _ _ id).
  - destruct (ps !! id) as [p|]; [|cbn; lia]. destruct (sync p); cbn; [|lia].
    unfold h. destruct (decide _); cbn; lia.
  - intros k p Hp Hne. destruct (Hps _ _ Hp) as [Hk _]. destruct (sync p); [|done]. cbn.
    unfold h. by rewrite decide_False by congruence.
Qed.

Lemma transport_entry now snapshot device_for last a id :
  ids_ok (ap_peers a) -> step_ok (AppStep.TransportTick snapshot device_for) -> ep_valid id ->
  let '(a', _, out) := transport_state_tick public fs_write now snapshot device_for last a in
  entry_step now id (ap_peers a !! id) (ap_peers a' !! id)
    (omap (about id) out) (length (omap (nudge_of id) out)).
Proof.
  intros Ha Hs Hid. unfold transport_state_tick.
  pose proof (merge_spec now (own_id public a) snapshot (ap_peers a)) as Hm.
  pose proof (merge_ids_ok now snapshot a Ha Hs) as Hps.
  destruct (merge_verified_ble_snapshot _ _ _ _) as [ins ps]. destruct Hm as (_ & Hi & Hl).
  set (info_of := fun id => device_for id ≫= fun d => info_by_device snapshot !! d).
  clearbody info_of. rewrite sync_peers_eq. cbn [snd set_ap_cache set_ap_peers ap_peers] in *.
  rewrite !omap_app. destruct (panel_plain id last (current_panel snapshot)) as [-> ->].
  rewrite lookup_in_place, !app_nil_r, length_app.
  rewrite (omap_loop (about id) _ _ id), (omap_loop (nudge_of id) _ _ id).
  2: { intros k p _ _. destruct (sync_out_cases now (info_of (cp_id p)) p) as [->|(q & _ & ->)]; done. }
  2: { intros k p Hp Hne. destruct (Hps _ _ Hp) as [Hk Hv].
    destruct (sync_out_cases now (info_of (cp_id p)) p) as [->|(q & Hq & ->)]; [done|].
    cbn [omap list_omap]. by rewrite about_emit_ne by (rewrite ?Hq, ?Hk; done). }
  pose proof (nudges_one (ap_gossip_sender a) id
    (fun p => (sync_peer now (info_of (cp_id p)) p).1.2) ps Hps) as Hnu.
  assert (forall l : list EndpointId, omap (about id)
    (if ap_gossip_sender a then (fun i => Out.JoinPeers [i]) <$> l else []) = []) as ->
    by (intros l; destruct (ap_gossip_sender a); [by induction l|done]).
  rewrite app_nil_r. destruct (ps !! id) as [p|] eqn:E; cbn [fmap option_fmap option_map].
  - destruct (Hps _ _ E) as [Hp _]. apply sync_entry; [done| |].
    + rewrite Hl in E. destruct (decide (id ∈ ins)) as [Hin|]; [right|by left].
      apply Hi in Hin as [Hnone _]. split; [done|congruence].
    + destruct (sync_out_cases now (info_of (cp_id p)) p) as [->|(q & _ & ->)]; exact Hnu.
  - rewrite Hl in E. destruct (decide (id ∈ ins)); [done|]. rewrite E.
    apply Nat.le_0_r in Hnu. cbn [length Nat.add]. rewrite Hnu. by apply entry_same.
Qed.

Lemma load_known_valid c : Forall ep_valid (load_known_peers c).
Proof.
  unfold load_known_peers. apply Forall_forall. intros id (l & _ & Hp)%list_elem_of_omap.
  by eapply ep_parse_valid.
Qed.

Lemma restore_spec now own known ps id :
  ids_ok ps -> Forall ep_valid known -> ep_valid id ->
  let '(ps', out) := restore_peers now own known ps in
  ps' !! id = (if decide (id ∈ known /\ id <> own) then Some (or_insert_peer now id ps) else ps !! id) /\
  if decide (id ∈ known /\ id <> own)
  then last (omap (about id) out) = Some (Some (to_ui now (or_insert_peer now id ps)))
  else omap (about id) out = [].
Proof.
  clear public fs_write. intros Hps Hk Hid. revert ps Hps.
  induction Hk as [|k known Hkv Hk IH]; intros ps Hps; cbn [restore_peers].
  { by rewrite !decide_False by set_solver. }
  destruct (decide (k = own)) as [->|Hne].
  { specialize (IH ps Hps). destruct (restore_peers _ _ _ _) as [ps' out].
    destruct (decide (id ∈ known /\ id <> own)) as [Hin|Hin].
    - by rewrite !decide_True by set_solver.
    - by rewrite !decide_False by set_solver. }
  set (q := or_insert_peer now k ps). assert (cp_id q = k) as Hq by by apply or_insert_id.
  assert (ids_ok (<[k:=q]> ps)) as Hps'.
  { intros i p [[<- <-]|[_ Hp]]%lookup_insert_Some; [by split|by apply Hps]. }
  specialize (IH _ Hps'). destruct (restore_peers _ _ _ _) as [ps' out]. destruct IH as [IH1 IH2].
  cbn [omap list_omap]. destruct (decide (id = k)) as [->|Hik].
  - rewrite !(decide_True (P := k ∈ k :: known /\ _)) by set_solver.
    pose proof (about_emit_eq now q) as Hs. rewrite Hq in Hs. rewrite Hs.
    assert (or_insert_peer now k (<[k:=q]> ps) = q) as Eq
      by (unfold or_insert_peer at 1; by rewrite lookup_insert_eq).
    rewrite Eq in *. rewrite IH1, lookup_insert_eq. split; [by destruct (decide _)|].
    destruct (decide _); [by rewrite last_cons, IH2|by rewrite IH2].
  - rewrite about_emit_ne by congruence. rewrite lookup_insert_ne in IH1 by done.
    assert (or_insert_peer now id (<[k:=q]> ps) = or_insert_peer now id ps) as Eq
      by (unfold or_insert_peer; by rewrite lookup_insert_ne).
    rewrite Eq in *. destruct (decide (id ∈ known /\ id <> own)) as [Hin|Hin].
    + by rewrite !decide_True by set_solver.
    + by rewrite !decide_False by set_solver.
Qed.

Lemma start_entry now bound subscribed a id :
  ids_ok (ap_peers a) -> ep_valid id ->
  let '(a', out) := (finish_start public now bound subscribed a).1 in
  entry_step now id (ap_peers a !! id) (ap_peers a' !! id) (omap (about id) out) 0.
Proof.
  intros Ha Hid. unfold finish_start.
  assert (entry_step now id (ap_peers a !! id) (ap_peers a !! id) [] 0) as Hsame
    by (apply entry_same; intros p Hp; by apply Ha).
  destruct bound; [exact Hsame|].
  pose proof (restore_spec now (own_id public a) (load_known_peers (ap_cache_dir a)) (ap_peers a) id
    Ha (load_known_valid _) Hid) as H.
  destruct (restore_peers _ _ _ _) as [ps out]. destruct H as [H1 H2].
  assert (entry_step now id (ap_peers a !! id) (ps !! id) (omap (about id) out) 0) as H.
  { rewrite H1. destruct (decide _); [|by rewrite H2].
    apply entry_shown; [by apply or_insert_id|done|lia|left]. split; [apply or_insert_nudge|done]. }
  destruct subscribed; [exact H|]. cbn. rewrite omap_app. cbn. by rewrite app_nil_r.
Qed.

Lemma add_entry now pe joined id_str a id :
  ids_ok (ap_peers a) -> ep_valid id ->
  let '(a', out) := (add_peer fs_write now pe joined id_str a).1 in
  entry_step now id (ap_peers a !! id) (ap_peers a' !! id) (omap (about id) out) 0.
Proof.
  intros Ha Hid. unfold add_peer.
  assert (entry_step now id (ap_peers a !! id) (ap_peers a !! id) [] 0) as Hsame
    by (apply entry_same; intros p Hp; by apply Ha).
  destruct (ep_parse id_str) as [k|] eqn:Ek; [|exact Hsame]. apply ep_parse_valid in Ek.
  destruct (ap_gossip_sender a); [|exact Hsame].
  destruct (ap_peers a !! k) eqn:E; [exact Hsame|].
  cbn [fst set_ap_cache set_ap_peers ap_peers app omap list_omap].
  set (q := set_cp_ble _ _ _ _). assert (cp_id q = k) as Hq by done.
  destruct (decide (id = k)) as [->|Hne].
  - rewrite lookup_insert_eq, E. pose proof (about_emit_eq now q) as Hs. rewrite Hq in Hs.
    rewrite Hs. apply entry_shown; [done|done|lia|by left].
  - by rewrite lookup_insert_ne, about_emit_ne by congruence.
Qed.

(** A removal takes the entry out of the table and leaves the event to be sent. *)
Lemma remove_spec now pe id_str s :
  let '(s', out) := app_step now (AppStep.RemovePeer pe id_str) s in
  out = [] /\
  (s' = s \/
   exists k, ep_valid k /\ ep_parse id_str = Some k /\
     ap_peers (sy_app s') = delete k (ap_peers (sy_app s)) /\
     sy_removals s' = sy_removals s ++ [k]).
Proof.
  cbn [app_step]. unfold remove_peer_locked. destruct (ep_parse id_str) as [k|] eqn:Ek.
  - destruct (decide _); [by split; [|left; destruct s]|]. split; [done|right].
    exists k. split_and!; try done. by eapply ep_parse_valid.
  - by split; [|left; destruct s].
Qed.

(** The event only shows. *)
Lemma emit_spec now i s id :
  Forall ep_valid (sy_removals s) -> ep_valid id ->
  let '(s', out) := app_step now (AppStep.EmitRemoved i) s in
  sy_app s' = sy_app s /\
  if decide (sy_removals s !! i = Some id)
  then omap (about id) out = [None]
  else omap (about id) out = [] /\ (id ∈ sy_removals s -> id ∈ sy_removals s').
Proof.
  intros Hr Hid. cbn [app_step]. destruct (sy_removals s !! i) as [k|] eqn:E; [|by split].
  split; [done|]. cbn [remove_peer_emit omap list_omap about]. destruct (decide (Some k = Some id)) as [[= ->]|Hne].
  - by rewrite decide_True.
  - assert (ep_valid k) as Hk by (by eapply Forall_lookup_1).
    rewrite decide_False by (intros ?%ep_to_string_inj; congruence). split; [done|].
    cbn [sy_removals]. intros [j Hj]%list_elem_of_lookup.
    assert (j <> i) as Hij by (intros ->; congruence).
    rewrite <- (take_drop_middle _ _ _ E) in Hj. rewrite delete_take_drop.
    apply list_elem_of_lookup_2 in Hj. set_solver.
Qed.

Lemma image_plain polls recv pending id :
  omap (about id) (Out.Emit <$> (handle_image_stream polls recv pending).1.1) = [].
Proof.
  assert (forall info i acc reads err,
    omap (about id) (Out.Emit <$> (recv_image info i acc reads err).1) = []) as H.
  { intros info i acc reads. revert acc. induction reads as [|r reads IH]; intros acc err; [done|].
    cbn [recv_image]. cbn zeta. destruct (_ <? _); [done|]. specialize (IH (acc ++ r) err).
    destruct (recv_image _ _ _ _ _) as [evs res]. cbn [fst] in *. rewrite fmap_app, omap_app, IH.
    by destruct info. }
  unfold handle_image_stream. destruct (read_exact _ _ _ _) as [[?|bs] s]; [done|]. cbn zeta.
  specialize (H (wait_for_pending polls (from_le_bytes bs)) (from_le_bytes bs) []
    (stream_reads IMAGE_CHUNK (rs_chunks s)) (rs_error s)).
  destruct (recv_image _ _ _ _ _) as [evs [?|?]]; [exact H|]. cbn [fst] in H.
  destruct (wait_for_pending _ _); cbn [fst]; by rewrite fmap_app, omap_app, H.
Qed.

Lemma join_plain id targets : omap (about id) (join_out targets) = [].
Proof. by destruct targets. Qed.

Lemma send_plain id (l : list EndpointId) image_id avif :
  omap (about id) ((fun i => Out.StreamImage i image_id avif) <$> l) = [].
Proof. by induction l. Qed.

(** A step that tells the web view what it changes before it releases the lock. *)
Definition told_at_once x : Prop :=
  match x with AppStep.RemovePeer _ _ | AppStep.EmitRemoved _ => False | _ => True end.

(** Every such step, seen from one peer. *)
Lemma app_step_entry now x s id :
  ids_ok (ap_peers (sy_app s)) -> step_ok x -> told_at_once x -> ep_valid id ->
  let '(s', out) := app_step now x s in
  entry_step now id (ap_peers (sy_app s) !! id) (ap_peers (sy_app s') !! id)
    (omap (about id) out) (nudges id x out).
Proof.
  intros Ha Hx Ht Hid.
  assert (entry_step now id (ap_peers (sy_app s) !! id) (ap_peers (sy_app s) !! id) [] 0) as Hsame
    by (apply entry_same; intros p Hp; by apply Ha).
  destruct x; try contradiction; cbn [app_step]; unfold nudges; cbn [throttled].
  - destruct (ap_endpoint _); [exact Hsame|].
    pose proof (start_entry now bound subscribed (sy_app s) id Ha Hid) as H.
    by destruct (finish_start _ _ _ _ _) as [[a' out] r].
  - pose proof (pump_entry now (sy_topic_joined s) e (sy_app s) id Ha Hx Hid) as H.
    by destruct (pump_event _ _ _ _ _ _) as [[a' j] out].
  - unfold reconnect_tick. destruct (ap_gossip_sender _); [|exact Hsame]. by rewrite join_plain.
  - pose proof (stale_entry now (sy_app s) id Ha Hid) as H. by destruct (stale_tick _ _) as [a' out].
  - pose proof (transport_entry now snapshot device_for (sy_last_emitted s) (sy_app s) id Ha Hx Hid) as H.
    by destruct (transport_state_tick _ _ _ _ _ _ _) as [[a' j] out].
  - unfold set_nickname. cbn. by destruct (ap_gossip_sender _).
  - pose proof (add_entry now parse_error joined id_str (sy_app s) id Ha Hid) as H.
    by destruct (add_peer _ _ _ _ _ _) as [[a' out] r].
  - unfold send_message. destruct (ap_gossip_sender _); [|exact Hsame].
    destruct sent; cbn [fst]; rewrite ?omap_app, join_plain; exact Hsame.
  - unfold send_image. destruct picked as [[|]|]; [exact Hsame| |exact Hsame].
    destruct join_error; [exact Hsame|]. destruct (encode_image_from_bytes _); [exact Hsame|].
    destruct (_ && _); [|exact Hsame]. cbn [fst]. rewrite omap_app. cbn. by rewrite send_plain.
  - pose proof (image_plain polls recv (ap_pending_images (sy_app s)) id) as H.
    destruct (handle_image_stream _ _ _) as [[evs r] pend]. cbn in *. by rewrite H.
  - exact Hsame.
  - unfold reset_app. by destruct ios.
Qed.

(** ** The table stays well formed *)

Definition keys_ok (ps : gmap EndpointId PeerState) : Prop := forall id, is_Some (ps !! id) -> ep_valid id.

Lemma keys_insert ps id p : keys_ok ps -> ep_valid id -> keys_ok (<[id:=p]> ps).
Proof. intros Hps Hid i [q [[<- _]|[_ Hq]]%lookup_insert_Some]; [done|]. apply Hps. eauto. Qed.

Lemma restore_keys now own known ps :
  keys_ok ps -> Forall ep_valid known -> keys_ok (restore_peers now own known ps).1.
Proof.
  intros Hps Hk. revert ps Hps. induction Hk as [|k known Hv Hk IH]; intros ps Hps; [done|].
  cbn [restore_peers]. destruct (decide _); [by apply IH|]. cbn zeta.
  specialize (IH (<[k:=or_insert_peer now k ps]> ps) (keys_insert _ _ _ Hps Hv)).
  by destruct (restore_peers _ _ _ _).
Qed.

Lemma in_place_keys f ps : keys_ok ps -> keys_ok (in_place f (hm_iter ps) ps).
Proof. intros H id. rewrite lookup_in_place, fmap_is_Some. apply H. Qed.

Lemma app_step_ids now x s :
  ids_ok (ap_peers (sy_app s)) -> step_ok x -> ids_ok (ap_peers (sy_app (app_step now x s).1)).
Proof.
  intros Ha Hx.
  assert (told_at_once x \/ forall id p, ap_peers (sy_app (app_step now x s).1) !! id = Some p ->
    ap_peers (sy_app s) !! id = Some p) as [Ht|Hr].
  { destruct x; try (by left); right; intros id p.
    - pose proof (remove_spec now parse_error id_str s) as H. destruct (app_step _ _ _) as [s' out].
      destruct H as [_ [->|(k & _ & _ & E & _)]]; [done|]. cbn. rewrite E. by intros [_ ?]%lookup_delete_Some.
    - cbn. by destruct (sy_removals s !! i). }
  2: { intros id p Hp%Hr. by apply Ha. }
  assert (keys_ok (ap_peers (sy_app s))) as Hk by (intros id [p Hp]; by eapply Ha).
  assert (keys_ok (ap_peers (sy_app (app_step now x s).1))) as Hk'.
  { destruct x; cbn [app_step]; try done.
    - destruct (ap_endpoint _); [done|]. unfold finish_start. destruct bound; [done|].
      pose proof (restore_keys now (own_id public (sy_app s)) _ _ Hk
        (load_known_valid (ap_cache_dir (sy_app s)))) as H.
      destruct (restore_peers _ _ _ _) as [ps out]. by destruct subscribed.
    - assert (forall f n rest, ep_valid f ->
        keys_ok (ap_peers (on_inbound fs_write now f n rest (sy_app s)).1)) as Hin.
      { intros f n rest Hf. unfold on_inbound. destruct (inbound_peer _ _ _). by apply keys_insert. }
      destruct e as [k|k|c|]; cbn [pump_event]; [| | |done].
      + destruct (decide _); [done|]. by apply keys_insert.
      + destruct (decide _); [done|]. destruct (ap_peers _ !! k); [|done]. by apply keys_insert.
      + cbn in Hx. destruct (from_bytes c) as [m|]; [|done]. specialize (Hx m eq_refl).
        destruct m as [f n|f n t|f n|f n i z]; open_message;
          destruct (decide _); try done.
        1-3: match goal with |- context [on_inbound ?w ?t ?f ?n ?r ?a] =>
               specialize (Hin f n r Hx); by destruct (on_inbound w t f n r a) end.
        specialize (Hin f n [Out.Emit (UiEvent.ImageStart (ep_to_string f) n i z false)] Hx).
        by destruct (on_inbound _ _ _ _ _ _).
    - unfold stale_tick.
      rewrite stale_peers_eq by (intros; by apply elem_of_hm_iter || apply NoDup_hm_fst).
      by apply in_place_keys.
    - unfold transport_state_tick.
      pose proof (merge_ids_ok now snapshot (sy_app s) Ha Hx) as Hm.
      destruct (merge_verified_ble_snapshot _ _ _ _) as [ins ps]. rewrite sync_peers_eq.
      apply in_place_keys. intros id [p Hp]. by eapply Hm.
    - unfold add_peer. destruct (ep_parse id_str) as [k|] eqn:E; [|done]. apply ep_parse_valid in E.
      destruct (ap_gossip_sender _); [|done]. destruct (ap_peers _ !! k); [done|]. by apply keys_insert.
    - by destruct (handle_image_stream _ _ _) as [[? ?] ?]. }
  intros id p Hp. assert (ep_valid id) as Hid by (apply Hk'; eauto). split; [|done].
  pose proof (app_step_entry now x s id Ha Hx Ht Hid) as H. destruct (app_step now x s) as [s' out].
  by eapply es_id.
Qed.

(** Only [remove_peer] leaves events to be sent. *)
Lemma app_step_removals now x s :
  match x with AppStep.RemovePeer _ _ | AppStep.EmitRemoved _ => True
  | _ => sy_removals (app_step now x s).1 = sy_removals s end.
Proof.
  destruct x; cbn [app_step]; try done.
  - by destruct (ap_endpoint _).
  - by destruct (pump_event _ _ _ _ _ _) as [[? ?] ?].
  - by destruct (transport_state_tick _ _ _ _ _ _ _) as [[? ?] ?].
  - by destruct (handle_image_stream _ _ _) as [[? ?] ?].
Qed.

(** The identities of the state are identities. *)
Definition sys_ok s : Prop := ids_ok (ap_peers (sy_app s)) /\ Forall ep_valid (sy_removals s).

Lemma app_step_ok now x s : sys_ok s -> step_ok x -> sys_ok (app_step now x s).1.
Proof.
  intros [Ha Hr] Hx. split; [by apply app_step_ids|].
  pose proof (app_step_removals now x s) as H. destruct x; try by rewrite H.
  - pose proof (remove_spec now parse_error id_str s) as R. destruct (app_step _ _ _) as [s' out].
    destruct R as [_ [->|(k & Hk & _ & _ & E)]]; [done|]. cbn. rewrite E.
    apply Forall_app_2; [done|by apply Forall_singleton].
  - cbn. destruct (sy_removals s !! i); [|done]. cbn. by apply Forall_delete.
Qed.

Lemma app_run_ok l s :
  sys_ok s -> Forall (fun '(_, x) => step_ok x) l -> sys_ok (app_run l s).1.
Proof.
  intros Hs Hl. revert s Hs. induction Hl as [|[now x] l Hx Hl IH]; intros s Hs; [done|]. cbn [app_run].
  pose proof (app_step_ok now x s Hs Hx) as Hs1. destruct (app_step now x s) as [s1 out].
  specialize (IH s1 Hs1). by destruct (app_run l s1).
Qed.

Lemma app_run_app l k s :
  app_run (l ++ k) s =
  (let '(s1, t1) := app_run l s in let '(s2, t2) := app_run k s1 in (s2, t1 ++ t2)).
Proof.
  revert s. induction l as [|[now x] l IH]; intros s; cbn [app app_run].
  - by destruct (app_run k s).
  - destruct (app_step now x s) as [s1 out]. rewrite IH.
    destruct (app_run l s1) as [s2 t1]. by destruct (app_run k s2) as [s3 t2].
Qed.
End Run.
