(* ===== verification/ChatFacts.v ===== *)
(** * ChatFacts: what the chat demo guarantees

    Over every interleaving of its handlers: the web view shows the peer table,
    nudges are throttled, the table is on disk, the panel of BLE peers is the
    transport's snapshot; and what a user sends is what the others are shown. *)

From S2P Require Import Prelude Async Peer Interface Blew Routing Registry Transport Construct.
From S2P Require Import ChatProtocol ChatState ChatImage ChatApp ChatStart ChatRun.
Open Scope Z_scope.

Section Facts.
Context {ET : EndpointText} {PC : Postcard} {IC : ImageCodec} {HI : HashIter}.
Context (public : Bytes -> EndpointId) (fs_write : Bytes -> option Bytes -> option Bytes).
Implicit Types (a : AppState) (s : AppSys) (l : list (Instant * AppStep.t)).
Abbreviation run := (app_run public fs_write).

(** A state before the node is started. *)
Definition fresh_sys a : AppSys := mkAppSys a false ∅ [].

Definition run_ok l : Prop := Forall (fun '(_, x) => step_ok x) l.

(** ** The web view *)

(** What the web view shows of a peer after the outputs of a run. *)
Definition shown (id : EndpointId) (tr : list (Instant * AppStep.t * list Out.t)) : option PeerStateUI :=
  mjoin (last (omap (about id) (tr ≫= snd))).

(** The entry [p] is what [u] shows, but for the time since it was seen. *)
Definition shows (p : PeerState) (u : PeerStateUI) : Prop :=
  exists now q, u = to_ui now q /\ same_view q p.

(** The table and the view agree on a peer. *)
Definition mirrored (id : EndpointId) (p : option PeerState) (v : option PeerStateUI) : Prop :=
  match p, v with
  | Some p, Some u => shows p u
  | Some p, None => exists now, same_view (new_peer_entry now id) p
  | None, v => v = None
  end.

Lemma mirrored_step now id old new ui n v :
  entry_step now id old new ui n -> mirrored id old v ->
  mirrored id new (match last ui with Some u => u | None => v end).
Proof.
  intros He Hm. destruct (decide (ui = [])) as [->|Hne]; cbn [last].
  - pose proof (es_quiet _ _ _ _ _ _ He eq_refl) as Hq. destruct old as [p|], new as [q|]; try done.
    + destruct v as [u|]; cbn in *.
      * destruct Hm as (t & r & -> & Hr). exists t, r. split; [done|]. by etransitivity.
      * destruct Hm as [t Ht]. exists t. by etransitivity.
    + by destruct (es_kept _ _ _ _ _ _ He) as [? ?].
    + cbn in Hm. subst v. by exists now.
  - rewrite (es_shown _ _ _ _ _ _ He Hne). destruct new as [q|]; cbn; [|done]. by exists now, q.
Qed.

Lemma last_app_from {A} (l k : list A) d :
  match last (l ++ k) with Some x => x | None => d end =
  match last k with Some x => x | None => match last l with Some x => x | None => d end end.
Proof. rewrite last_app. by destruct (last k). Qed.

(** The event of a removal came after the peer was tracked again, and nothing was
    sent about the peer since. *)
Definition overtaken (id : EndpointId) l s : Prop :=
  exists l1 now i l2, l = l1 ++ (now, AppStep.EmitRemoved i) :: l2 /\
  let s1 := (run l1 s).1 in
  sy_removals s1 !! i = Some id /\ is_Some (ap_peers (sy_app s1) !! id) /\
  omap (about id) ((run l2 (app_step public fs_write now (AppStep.EmitRemoved i) s1).1).2 ≫= snd) = [].

Lemma overtaken_snoc id l s now x :
  overtaken id l s -> omap (about id) (app_step public fs_write now x (run l s).1).2 = [] ->
  overtaken id (l ++ [(now, x)]) s.
Proof.
  intros (l1 & t & i & l2 & -> & H1 & H2 & H3) Hx. exists l1, t, i, (l2 ++ [(now, x)]).
  split; [by rewrite <- app_assoc|]. split_and!; [done|done|]. rewrite app_run_app in Hx.
  destruct (run l1 s) as [s1 t1]. cbn [app_run fst] in *. rewrite app_run_app.
  destruct (app_step _ _ t _ s1) as [s2 out2]. cbn [fst] in *.
  destruct (run l2 s2) as [s3 t3]. cbn [fst snd app_run] in *.
  destruct (app_step _ _ now x s3) as [s4 out4]. cbn [fst snd] in *.
  rewrite bind_app, omap_app, H3. cbn. by rewrite app_nil_r.
Qed.

(** The view of a peer: a removal is still to be shown, it shows the entry, or a
    late event hides the entry. *)
Definition view_ok (id : EndpointId) l s : Prop :=
  let '(s', tr) := run l s in
  id ∈ sy_removals s' \/ mirrored id (ap_peers (sy_app s') !! id) (shown id tr) \/ overtaken id l s.

Lemma view_ok_snoc id l s now x :
  sys_ok (run l s).1 -> step_ok x -> ep_valid id -> view_ok id l s -> view_ok id (l ++ [(now, x)]) s.
Proof.
  intros [Hs Hr] Hx Hid Hv. pose proof (fun H => overtaken_snoc id l s now x H) as Ho.
  unfold view_ok in *. rewrite app_run_app. destruct (run l s) as [s1 tr] eqn:Er. cbn [fst app_run] in *.
  assert (forall out, shown id (tr ++ [(now, x, out)]) =
    match last (omap (about id) out) with Some u => u | None => shown id tr end) as Hsh.
  { intros out. unfold shown. rewrite bind_app, omap_app, last_app. cbn. rewrite app_nil_r.
    by destruct (last (omap (about id) out)) as [[]|]. }
  pose proof (app_step_removals public fs_write now x s1) as Hq.
  assert (told_at_once x \/ ~ told_at_once x) as [Ht|Ht] by (destruct x; cbn; tauto).
  - pose proof (app_step_entry public fs_write now x s1 id Hs Hx Ht Hid) as He.
    destruct (app_step public fs_write now x s1) as [s2 out]. cbn [fst snd] in *. rewrite Hsh.
    assert (sy_removals s2 = sy_removals s1) as -> by by destruct x.
    destruct Hv as [Hv|[Hv|Hv]]; [by left|right; left; by eapply mirrored_step|right].
    destruct (decide (omap (about id) out = [])) as [E|E]; [right; by apply Ho|left].
    rewrite (es_shown _ _ _ _ _ _ He E). destruct (ap_peers (sy_app s2) !! id) as [q|]; cbn; [|done].
    by exists now, q.
  - destruct x; try (by destruct Ht); clear Hq.
    + pose proof (remove_spec public fs_write now parse_error id_str s1) as H.
      destruct (app_step public fs_write now _ s1) as [s2 out]. cbn [snd] in Ho.
      destruct H as [-> H]. rewrite Hsh. cbn [omap list_omap last].
      assert (id ∈ sy_removals s2 \/ (id ∈ sy_removals s1 -> id ∈ sy_removals s2) /\
        ap_peers (sy_app s2) !! id = ap_peers (sy_app s1) !! id) as [?|[Hq ->]]; [|by left|naive_solver].
      destruct H as [->|(k & _ & _ & -> & ->)]; [by right|].
      destruct (decide (k = id)) as [->|Hne]; [left; set_solver|right].
      split; [set_solver|by apply lookup_delete_ne].
    + pose proof (emit_spec public fs_write now i s1 id Hr Hid) as H.
      destruct (app_step public fs_write now _ s1) as [s2 out] eqn:Ex. cbn [snd] in Ho.
      destruct H as [Ea H]. rewrite Hsh, Ea. destruct (decide _) as [E|E].
      * rewrite H. cbn [last]. right. destruct (ap_peers (sy_app s1) !! id) eqn:Ep; [right|by left].
        exists l, now, i, []. rewrite Er. by split_and!.
      * destruct H as [E1 E2]. rewrite E1 in *. cbn [last]. naive_solver.
Qed.

Lemma view_ok_run id l s :
  sys_ok s -> run_ok l -> ep_valid id -> view_ok id [] s -> view_ok id l s.
Proof.
  intros Hs Hl Hid H0. induction l as [|[now x] l IH] using rev_ind; [done|].
  apply Forall_app in Hl as [Hl [Hx _]%Forall_cons].
  apply view_ok_snoc; [by apply app_run_ok|done|done|by apply IH].
Qed.

Lemma setup_peers g c : ap_peers (setup public fs_write g c) = ∅.
Proof. unfold setup. by destruct (load_or_generate_key_in _ _ _). Qed.

Lemma ids_ok_setup g c : ids_ok (ap_peers (sy_app (fresh_sys (setup public fs_write g c)))).
Proof. cbn. rewrite setup_peers. intros id p. by rewrite lookup_empty. Qed.

Lemma sys_ok_setup g c : sys_ok (fresh_sys (setup public fs_write g c)).
Proof. split; [apply ids_ok_setup|constructor]. Qed.

(** C27. The list of peers in the web view is the application's table, but for
    removals by the user.  From the start of the application, over any
    interleaving of gossip events, ticks, commands and of the event that
    [remove_peer] sends after it has released the lock, one of three holds of
    every peer: the event of a removal of it is still to be sent; or what the web
    view has been sent shows the nickname, status, phase, path and failures of its
    entry, shows nothing if it is not tracked, and shows nothing of a tracked peer
    only if neither gossip nor the radio told anything of it yet; or the last
    thing the web view was sent of it is the event of a removal, and the peer was
    tracked again before that event was sent. *)
Theorem web_view_mirrors_peers (generated : Bytes) (c : CacheDir) l (id : EndpointId) :
  run_ok l -> ep_valid id ->
  let s0 := fresh_sys (setup public fs_write generated c) in
  let '(s, tr) := run l s0 in
  id ∈ sy_removals s \/
  mirrored id (ap_peers (sy_app s) !! id) (shown id tr) \/
  overtaken id l s0.
Proof.
  intros Hl Hid. cbn zeta. apply (view_ok_run id l _ (sys_ok_setup _ _) Hl Hid).
  right. left. cbn. by rewrite setup_peers, lookup_empty.
Qed.

(** The user does not remove the peer. *)
Definition keeps (id : EndpointId) (x : AppStep.t) : Prop :=
  match x with AppStep.RemovePeer _ t => ep_parse t <> Some id | _ => True end.

Lemma keeps_entry now x s id :
  keeps id x -> ~ told_at_once x ->
  let '(s', out) := app_step public fs_write now x s in
  ap_peers (sy_app s') !! id = ap_peers (sy_app s) !! id /\ nudges id x out = 0%nat.
Proof.
  intros Hk Ht. destruct x; try (by destruct Ht).
  - pose proof (remove_spec public fs_write now parse_error id_str s) as H.
    destruct (app_step _ _ _ _ _) as [s' out]. destruct H as [_ [->|(k & _ & E & -> & _)]]; [done|].
    cbn in Hk. split; [|done]. apply lookup_delete_ne. congruence.
  - cbn. by destruct (sy_removals s !! i).
Qed.

Lemma keeps_removals id l s :
  id ∉ sy_removals s -> Forall (fun '(_, x) => keeps id x) l -> id ∉ sy_removals (run l s).1.
Proof.
  intros Hs Hl. revert s Hs. induction Hl as [|[now x] l Hx Hl IH]; intros s Hs; [done|]. cbn [app_run].
  assert (id ∉ sy_removals (app_step public fs_write now x s).1) as Hs1.
  { pose proof (app_step_removals public fs_write now x s) as H. destruct x; try by rewrite H.
    - pose proof (remove_spec public fs_write now parse_error id_str s) as R.
      destruct (app_step _ _ _ _ _) as [s' out].
      destruct R as [_ [->|(k & _ & E & _ & R)]]; [done|]. cbn in *. rewrite R.
      intros [?|Hk%list_elem_of_singleton]%elem_of_app; congruence.
    - cbn. destruct (sy_removals s !! i) eqn:E; [|done]. cbn. rewrite delete_take_drop.
      rewrite <- (take_drop_middle _ _ _ E) in Hs. set_solver. }
  destruct (app_step public fs_write now x s) as [s1 out]. specialize (IH s1 Hs1).
  by destruct (run l s1).
Qed.

(** As long as the user does not remove a peer, the view shows its entry. *)
Lemma kept_peer_mirrored generated c l id :
  run_ok l -> Forall (fun '(_, x) => keeps id x) l -> ep_valid id ->
  let '(s, tr) := run l (fresh_sys (setup public fs_write generated c)) in
  mirrored id (ap_peers (sy_app s) !! id) (shown id tr).
Proof.
  intros Hl Hk Hid. set (s0 := fresh_sys _).
  assert (view_ok id l s0) as Hv.
  { apply view_ok_run; [apply sys_ok_setup|done|done|]. right. left. cbn. by rewrite setup_peers, lookup_empty. }
  pose proof (keeps_removals id l s0 ltac:(apply not_elem_of_nil) Hk) as Hr.
  unfold view_ok in Hv. destruct (run l s0) as [s tr]. destruct Hv as [?|[?|Ho]]; [done|done|exfalso].
  destruct Ho as (l1 & now & i & l2 & -> & H1 & _). apply Forall_app in Hk as [Hk _].
  apply list_elem_of_lookup_2 in H1. revert H1. apply keeps_removals; [apply not_elem_of_nil|done].
Qed.

(** A removal can be overtaken: gossip reports the peer between the removal and its
    event, and the peer is tracked and hidden. *)
Lemma removal_overtaken now pe s id :
  ep_valid id -> id <> own_id public (sy_app s) -> sy_removals s = [] ->
  let '(s', tr) := run [(now, AppStep.RemovePeer pe (ep_to_string id));
                        (now, AppStep.Pump (GossipEvent.NeighborUp id));
                        (now, AppStep.EmitRemoved 0)] s in
  (exists p, ap_peers (sy_app s') !! id = Some p /\ cp_gossip p = Some GossipStatus.Direct) /\
  sy_removals s' = [] /\ shown id tr = None.
Proof.
  intros Hid Hne Hr. cbn [app_run app_step]. unfold remove_peer_locked. rewrite (ep_parse_to_string _ Hid).
  rewrite decide_False by done. cbn [pump_event]. cbn zeta. cbn [sy_app sy_removals].
  rewrite decide_False by done. rewrite Hr. cbn -[own_id about].
  split; [eexists; split; [apply lookup_insert_eq|done]|]. split; [done|].
  unfold shown. cbn [mbind list_bind snd app]. rewrite app_comm_cons, omap_app.
  unfold remove_peer_emit. cbn [app omap list_omap about]. by rewrite decide_True, last_snoc.
Qed.

(** ** Nudges *)

Definition nudge_times (id : EndpointId) (tr : list (Instant * AppStep.t * list Out.t)) : list Instant :=
  tr ≫= fun '(now, x, out) => replicate (nudges id x out) now.

Lemma nudges_run l s id :
  ids_ok (ap_peers (sy_app s)) -> run_ok l -> Forall (fun '(_, x) => keeps id x) l -> ep_valid id ->
  let '(s', tr) := run l s in
  StronglySorted (fun t t' => t + JOIN_NUDGE_MIN_INTERVAL <= t') (nudge_times id tr) /\
  forall t, (ap_peers (sy_app s) !! id ≫= cp_last_join_nudge) = Some t ->
    Forall (fun t' => t + JOIN_NUDGE_MIN_INTERVAL <= t') (nudge_times id tr).
Proof.
  intros Hs Hl Hk Hid. revert s Hs. induction Hl as [|[now x] l Hx Hl IH]; intros s Hs; cbn [app_run].
  { split; [constructor|by intros]. }
  apply Forall_cons in Hk as [Hkx Hk]. specialize (IH Hk).
  pose proof (app_step_entry public fs_write now x s id Hs Hx) as He.
  pose proof (keeps_entry now x s id Hkx) as Hkept.
  pose proof (app_step_ids public fs_write now x s Hs Hx) as Hs1.
  destruct (app_step public fs_write now x s) as [s1 out]. cbn [fst] in Hs1. specialize (IH s1 Hs1).
  destruct (run l s1) as [s2 tr]. destruct IH as [IH1 IH2].
  change (nudge_times id ((now, x, out) :: tr)) with
    (replicate (nudges id x out) now ++ nudge_times id tr).
  assert (told_at_once x \/ ~ told_at_once x) as [Ht|Ht] by (destruct x; cbn; tauto).
  2: { destruct (Hkept Ht) as [E ->]. rewrite E in IH2. by split. }
  specialize (He Ht Hid). assert (0 < JOIN_NUDGE_MIN_INTERVAL) by done.
  destruct (es_nudge _ _ _ _ _ _ He) as [Hn1 Hn2].
  destruct (ap_peers (sy_app s1) !! id) as [q|] eqn:Eq.
  - destruct (Hn2 q eq_refl) as [[E1 ->]|[E1 Hgap]]; cbn [mbind option_bind] in IH2.
    + rewrite E1 in IH2. done.
    + specialize (IH2 now E1). split.
      * destruct (nudges id x out) as [|[|k]]; [done| |lia]. by constructor.
      * intros t Ht'%Hgap. apply Forall_app. split.
        -- by apply Forall_replicate.
        -- eapply Forall_impl; [exact IH2|]. cbn. lia.
  - rewrite (es_nudged _ _ _ _ _ _ He eq_refl). split; [done|]. intros t E.
    destruct (ap_peers (sy_app s) !! id) as [p|] eqn:Ep; [|done].
    destruct (es_kept _ _ _ _ _ _ He) as [q Hq]; [eauto|]. done.
Qed.

(** Join nudges are throttled.  Over any interleaving, while a peer is not removed
    by the user, two requests to join it because of an inbound message or a
    sighting by the radio are at least [JOIN_NUDGE_MIN_INTERVAL] apart, whatever
    bursts of messages arrive and however the clock is read. *)
Theorem nudges_throttled (generated : Bytes) (c : CacheDir) l (id : EndpointId) :
  run_ok l -> Forall (fun '(_, x) => keeps id x) l -> ep_valid id ->
  let '(s, tr) := run l (fresh_sys (setup public fs_write generated c)) in
  StronglySorted (fun t t' => t + JOIN_NUDGE_MIN_INTERVAL <= t') (nudge_times id tr).
Proof.
  intros Hl Hk Hid. pose proof (nudges_run l _ id (ids_ok_setup generated c) Hl Hk Hid) as H.
  destruct (run l _) as [s tr]. by apply H.
Qed.

(** ** The file of known peers *)

Section Persist.
Hypothesis fs_ok : forall new old, fs_write new old = Some new.

Definition known a : list EndpointId := load_known_peers (ap_cache_dir a).

Lemma load_remember id c :
  ep_valid id -> load_known_peers (remember_known_peer fs_write id c) =
  load_known_peers c ++ (if decide (id ∈ load_known_peers c) then [] else [id]).
Proof.
  intros Hid. unfold remember_known_peer. destruct (decide _); [by rewrite app_nil_r|].
  apply load_save; [done|]. apply Forall_app. split; [apply load_known_valid|by constructor].
Qed.

Lemma remember_in id c : ep_valid id -> id ∈ load_known_peers (remember_known_peer fs_write id c).
Proof. intros H. rewrite load_remember, elem_of_app by done. destruct (decide _); [by left|right; by left]. Qed.

Lemma remember_mono id i c :
  ep_valid id -> i ∈ load_known_peers c -> i ∈ load_known_peers (remember_known_peer fs_write id c).
Proof. intros H. rewrite load_remember by done. set_solver. Qed.

Lemma remember_all ids c :
  Forall ep_valid ids ->
  let c' := foldl (fun c id => remember_known_peer fs_write id c) c ids in
  forall i, i ∈ ids \/ i ∈ load_known_peers c -> i ∈ load_known_peers c'.
Proof.
  cbn zeta. intros H. revert c. induction H as [|id ids Hid H IH]; intros c i Hi; cbn [foldl].
  - set_solver.
  - apply IH. destruct Hi as [[->|Hi]%elem_of_cons|Hi]; [right|by left|right].
    + by apply remember_in.
    + by apply remember_mono.
Qed.

(** Every tracked peer is on disk. *)
Definition persisted a : Prop := forall id, is_Some (ap_peers a !! id) -> id ∈ known a.

Lemma persisted_insert a id p :
  ep_valid id -> persisted a ->
  persisted (set_ap_cache (remember_known_peer fs_write id (ap_cache_dir a))
    (set_ap_peers (<[id := p]> (ap_peers a)) a)).
Proof.
  intros Hid Ha i [q Hq]. unfold known. cbn in *. apply lookup_insert_Some in Hq as [[<- _]|[_ Hq]].
  - by apply remember_in.
  - apply remember_mono; [done|]. apply Ha. eauto.
Qed.

Lemma on_inbound_persisted now f n rest a :
  ep_valid f -> persisted a -> persisted (on_inbound fs_write now f n rest a).1.
Proof. intros Hf Ha. unfold on_inbound. destruct (inbound_peer _ _ _). by apply persisted_insert. Qed.

Lemma restore_tracked now own ks ps id :
  is_Some ((restore_peers now own ks ps).1 !! id) -> is_Some (ps !! id) \/ id ∈ ks.
Proof.
  clear public fs_write fs_ok. revert ps.
  induction ks as [|k ks IH]; intros ps; cbn [restore_peers]; [by left|].
  destruct (decide (k = own)) as [->|]; [intros [H|H]%IH; set_solver|]. cbn zeta.
  specialize (IH (<[k:=or_insert_peer now k ps]> ps)). destruct (restore_peers _ _ _ _) as [ps' out].
  intros [[q [[<- _]|[_ Hq]]%lookup_insert_Some]|H]%IH; [right|left|right]; [set_solver|eauto|set_solver].
Qed.

Definition no_reset x : Prop := match x with AppStep.ResetApp _ _ => False | _ => True end.

Lemma pump_persisted now j e a :
  step_ok (AppStep.Pump e) -> persisted a -> persisted (pump_event public fs_write now j e a).1.1.
Proof.
  intros Hx Ha. destruct e as [k|k|c|]; cbn [pump_event step_ok] in *; [| | |done].
  - destruct (decide _); [done|]. by apply persisted_insert.
  - destruct (decide _); [done|]. destruct (ap_peers _ !! k) eqn:E; [|done]. cbn.
    intros i [q Hq]. cbn in Hq. apply lookup_insert_Some in Hq as [[<- _]|[_ Hq]]; apply Ha; eauto.
  - destruct (from_bytes c) as [m|]; [|done]. specialize (Hx m eq_refl).
    destruct m as [f n|f n t|f n|f n i z]; open_message;
      (destruct (decide _); [done|]);
      match goal with |- context [on_inbound ?w ?t ?f ?n ?r ?a] =>
        pose proof (on_inbound_persisted t f n r a Hx Ha) as H;
        destruct (on_inbound w t f n r a) end; exact H.
Qed.

Lemma transport_persisted now snapshot dev last a :
  ids_ok (ap_peers a) -> step_ok (AppStep.TransportTick snapshot dev) -> persisted a ->
  persisted (transport_state_tick public fs_write now snapshot dev last a).1.1.
Proof.
  intros Hi Hx Ha. unfold transport_state_tick.
  pose proof (merge_spec now (own_id public a) snapshot (ap_peers a)) as Hm.
  destruct (merge_verified_ble_snapshot _ _ _ _) as [ins ps]. destruct Hm as (_ & Hin & Hl).
  rewrite sync_peers_eq. intros id. unfold known. cbn. rewrite lookup_in_place, fmap_is_Some, Hl.
  assert (Forall ep_valid ins) as Hv.
  { apply Forall_forall. intros i (_ & _ & f & Hf & Hv)%Hin. cbn in Hx.
    rewrite Forall_forall in Hx. by eapply Hx. }
  intros H. apply (remember_all ins (ap_cache_dir a) Hv).
  destruct (decide (id ∈ ins)); [by left|]. right. by apply Ha.
Qed.

Lemma remove_persisted pe id_str a :
  persisted a -> persisted (remove_peer_locked public fs_write pe id_str a).1.
Proof.
  intros Ha. unfold remove_peer_locked. destruct (ep_parse id_str) as [k|]; [|done].
  destruct (decide _); [done|]. intros id [p Hp]. cbn in Hp. apply lookup_delete_Some in Hp as [Hne Hp].
  assert (id ∈ known a) as Hk by (apply Ha; eauto). unfold known in *. cbn.
  destruct (_ =? _)%nat; [done|]. rewrite load_save; [by apply list_elem_of_filter|done|].
  pose proof (load_known_valid (ap_cache_dir a)) as Hv. rewrite Forall_forall in Hv.
  apply Forall_forall. intros i [_ Hin]%list_elem_of_filter. by apply Hv.
Qed.

Lemma app_step_persisted now x s :
  ids_ok (ap_peers (sy_app s)) -> step_ok x -> no_reset x -> persisted (sy_app s) ->
  persisted (sy_app (app_step public fs_write now x s).1).
Proof.
  intros Hi Hx Hr Ha. destruct x; cbn [app_step]; try done.
  - destruct (ap_endpoint _); [done|]. unfold finish_start. destruct bound; [done|].
    pose proof (restore_tracked now (own_id public (sy_app s)) (known (sy_app s)) (ap_peers (sy_app s))) as H.
    unfold known in H. destruct (restore_peers _ _ _ _) as [ps out].
    assert (persisted (set_ap_peers ps (sy_app s))) as Hp by (intros id [Hid|Hid]%H; [by apply Ha|done]).
    by destruct subscribed.
  - pose proof (pump_persisted now (sy_topic_joined s) e _ Hx Ha) as H.
    by destruct (pump_event _ _ _ _ _ _) as [[? ?] ?].
  - unfold stale_tick.
    rewrite stale_peers_eq by (intros; by apply elem_of_hm_iter || apply NoDup_hm_fst).
    intros id. cbn. rewrite lookup_in_place, fmap_is_Some. apply Ha.
  - pose proof (transport_persisted now snapshot device_for (sy_last_emitted s) _ Hi Hx Ha) as H.
    by destruct (transport_state_tick _ _ _ _ _ _ _) as [[? ?] ?].
  - unfold add_peer. destruct (ep_parse id_str) as [k|] eqn:E; [|done]. apply ep_parse_valid in E.
    destruct (ap_gossip_sender _); [|done]. destruct (ap_peers _ !! k) eqn:Ek; [|by apply persisted_insert].
    intros id Hid. unfold known. cbn. apply remember_mono; [done|]. by apply Ha.
  - pose proof (remove_persisted parse_error id_str _ Ha) as H.
    by destruct (remove_peer_locked _ _ _ _ _) as [? ?].
  - by destruct (sy_removals s !! i).
  - by destruct (handle_image_stream _ _ _) as [[? ?] ?].
Qed.

Lemma run_persisted l s :
  run_ok l -> Forall (fun '(_, x) => no_reset x) l ->
  ids_ok (ap_peers (sy_app s)) -> persisted (sy_app s) ->
  persisted (sy_app (run l s).1) /\ ids_ok (ap_peers (sy_app (run l s).1)).
Proof.
  intros Hl Hr. revert s. induction Hl as [|[t x] l Hx Hl IH]; [done|].
  apply Forall_cons in Hr as [Hr1 Hr]. intros s Hi Hs. cbn [app_run].
  pose proof (app_step_persisted t x s Hi Hx Hr1 Hs) as Hs1.
  pose proof (app_step_ids public fs_write t x s Hi Hx) as Hi1.
  destruct (app_step public fs_write t x s) as [s1 out]. cbn [fst] in *.
  specialize (IH Hr s1 Hi1 Hs1). by destruct (run l s1).
Qed.

Lemma known_setup g c : known (setup public fs_write g c) = load_known_peers c.
Proof.
  unfold known, setup. destruct (load_or_generate_key_in _ _ _) as [k c'] eqn:E. cbn.
  unfold load_or_generate_key_in in E. unfold load_known_peers.
  repeat case_match; by injection E as <- <-.
Qed.

(** A fresh application that starts shows the peers of the file. *)
Lemma start_restores g c now id :
  ep_valid id -> id ∈ load_known_peers c -> id <> own_id public (setup public fs_write g c) ->
  ap_peers (sy_app (app_step public fs_write now (AppStep.Start None None)
    (fresh_sys (setup public fs_write g c))).1) !! id = Some (new_peer_entry now id).
Proof.
  intros Hv Hk Hne. set (a := setup public fs_write g c) in *.
  assert (ap_endpoint a = false /\ ap_peers a = ∅) as [He Hp]
    by (subst a; unfold setup; by destruct (load_or_generate_key_in _ _ _)).
  pose proof (restore_spec now (own_id public a) (known a) (ap_peers a) id
    (ids_ok_setup g c) (load_known_valid _) Hv) as R.
  cbn. rewrite He. unfold finish_start. fold (known a).
  destruct (restore_peers _ _ _ _) as [ps out]. destruct R as [R _]. cbn.
  rewrite R, decide_True by (subst a; by rewrite known_setup).
  unfold or_insert_peer. by rewrite Hp, lookup_empty.
Qed.

(** C28. Tracked peers are remembered.  When the file system works, over any
    interleaving without a reset, every peer in the table is in the file of known
    peers, and an application started again from the files left behind tracks all
    of them but the node itself. *)
Theorem tracked_peers_persisted (generated generated' : Bytes) (c : CacheDir) l (now : Instant) :
  run_ok l -> Forall (fun '(_, x) => no_reset x) l ->
  let s := (run l (fresh_sys (setup public fs_write generated c))).1 in
  let a' := setup public fs_write generated' (ap_cache_dir (sy_app s)) in
  let s' := (app_step public fs_write now (AppStep.Start None None) (fresh_sys a')).1 in
  forall id p, ap_peers (sy_app s) !! id = Some p ->
    id ∈ load_known_peers (ap_cache_dir (sy_app s)) /\
    (id <> own_id public a' -> ap_peers (sy_app s') !! id = Some (new_peer_entry now id)).
Proof.
  intros Hl Hr. cbn zeta.
  destruct (run_persisted l (fresh_sys (setup public fs_write generated c)) Hl Hr) as [Hp Hi].
  { apply ids_ok_setup. }
  { intros id [p Hid]. cbn in Hid. by rewrite setup_peers, lookup_empty in Hid. }
  intros id p Hid. assert (id ∈ known (sy_app (run l (fresh_sys (setup public fs_write generated c))).1))
    as Hk by (apply Hp; eauto).
  split; [done|]. intros Hne. destruct (Hi _ _ Hid) as [_ Hv]. by apply start_restores.
Qed.
End Persist.

(** ** The panel of BLE peers *)

(** What the web view makes of the events. *)
Definition panel_step (m : gmap DeviceId BlePeerDebugUI) (o : Out.t) : gmap DeviceId BlePeerDebugUI :=
  match o with
  | Out.Emit (UiEvent.BlePeerUpdated u) => <[bd_device_id u := u]> m
  | Out.Emit (UiEvent.BlePeerRemoved d) => delete d m
  | _ => m
  end.
Definition replay_panel (m : gmap DeviceId BlePeerDebugUI) (out : list Out.t) : gmap DeviceId BlePeerDebugUI :=
  foldl panel_step m out.

Lemma current_panel_keys snapshot d u : current_panel snapshot !! d = Some u -> bd_device_id u = d.
Proof.
  unfold current_panel. assert (forall m : gmap DeviceId BlePeerDebugUI,
    (forall d u, m !! d = Some u -> bd_device_id u = d) ->
    forall d u, foldl (fun m info => <[bpi_device_id info := from_info info]> m) m snapshot !! d = Some u ->
      bd_device_id u = d) as H.
  { induction snapshot as [|i l IH]; intros m Hm; cbn; [done|]. apply IH.
    intros d' u' [[<- <-]|[_ H]]%lookup_insert_Some; [done|by apply Hm]. }
  apply H. intros d' u'. by rewrite lookup_empty.
Qed.

Lemma replay_updates (l : list (DeviceId * BlePeerDebugUI)) m d :
  NoDup l.*1 -> (forall k u, (k, u) ∈ l -> bd_device_id u = k) ->
  let m' := replay_panel m (Out.Emit <$> (UiEvent.BlePeerUpdated <$> l.*2)) in
  (forall u, (d, u) ∈ l -> m' !! d = Some u) /\ (d ∉ l.*1 -> m' !! d = m !! d).
Proof.
  cbn zeta. revert m. induction l as [|[k u] l IH]; intros m Hn Hk.
  { split; [set_solver|done]. }
  cbn in Hn. apply NoDup_cons in Hn as [Hkl Hn].
  destruct (IH (<[k:=u]> m) Hn) as [H1 H2]; [intros; apply Hk; by right|].
  unfold replay_panel in *. cbn. rewrite (Hk k u) by by left. split.
  - intros u' [[= -> ->]|Hu]%elem_of_cons; [by rewrite H2, lookup_insert_eq|by apply H1].
  - intros Hd. rewrite H2, lookup_insert_ne by set_solver. done.
Qed.

Lemma replay_removals (l : list DeviceId) m d :
  replay_panel m (Out.Emit <$> (UiEvent.BlePeerRemoved <$> l)) !! d =
  (if decide (d ∈ l) then None else m !! d).
Proof.
  unfold replay_panel. revert m. induction l as [|k l IH]; intros m; cbn.
  { by rewrite decide_False by set_solver. }
  rewrite IH. destruct (decide (d = k)) as [->|Hne].
  - rewrite lookup_delete_eq, (decide_True (P := k ∈ k :: l)) by by left. by destruct (decide _).
  - rewrite lookup_delete_ne by done. destruct (decide (d ∈ l)) as [H|H].
    + by rewrite decide_True by by right.
    + rewrite decide_False; [done|]. by intros [->|?]%elem_of_cons.
Qed.

(** The differences take the old panel to the new one. *)
Lemma replay_panel_events (last current : gmap DeviceId BlePeerDebugUI) :
  (forall d u, current !! d = Some u -> bd_device_id u = d) ->
  replay_panel last (Out.Emit <$> panel_events last current) = current.
Proof.
  intros Hk. apply map_eq. intros d. unfold panel_events, replay_panel.
  rewrite fmap_app, foldl_app. fold (replay_panel last
    (Out.Emit <$> (UiEvent.BlePeerUpdated <$> (filter (fun '(d, ui) => last !! d <> Some ui) (hm_iter current)).*2))).
  match goal with |- foldl _ ?m _ !! _ = _ => set (m1 := m) end.
  fold (replay_panel m1 (Out.Emit <$> (UiEvent.BlePeerRemoved <$> filter (fun d => current !! d = None) (hm_keys last)))).
  rewrite replay_removals.
  destruct (replay_updates (filter (fun '(d, ui) => last !! d <> Some ui) (hm_iter current)) last d) as [H1 H2].
  { apply NoDup_fmap_fst.
    - intros k u1 u2 [_ E1%elem_of_hm_iter]%list_elem_of_filter [_ E2%elem_of_hm_iter]%list_elem_of_filter.
      congruence.
    - apply NoDup_filter. apply (NoDup_fmap_1 fst), NoDup_hm_fst. }
  { intros k u [_ Hu%elem_of_hm_iter]%list_elem_of_filter. by apply Hk. }
  fold m1 in H1, H2. setoid_rewrite list_elem_of_filter in H1. setoid_rewrite elem_of_hm_iter in H1.
  destruct (decide (d ∈ _)) as [[Hc _]%list_elem_of_filter|Hd]; [done|].
  rewrite list_elem_of_filter, elem_of_hm_keys in Hd.
  destruct (current !! d) as [u|] eqn:E.
  - destruct (decide (last !! d = Some u)) as [El|El]; [|by apply H1].
    rewrite H2; [done|]. intros [[k u'] [-> [Hne Hin%elem_of_hm_iter]%list_elem_of_filter]]%list_elem_of_fmap.
    cbn in *. congruence.
  - rewrite H2.
    + destruct (last !! d) eqn:El; [|done]. exfalso. apply Hd. eauto.
    + intros [[k u'] [-> [_ Hin%elem_of_hm_iter]%list_elem_of_filter]]%list_elem_of_fmap. cbn in *. congruence.
Qed.

(** No other handler touches the panel. *)
Definition off_panel (o : Out.t) : Prop :=
  match o with Out.Emit (UiEvent.BlePeerUpdated _ | UiEvent.BlePeerRemoved _) => False | _ => True end.

Lemma replay_off_panel m out : Forall off_panel out -> replay_panel m out = m.
Proof.
  unfold replay_panel. induction 1 as [|o out Ho _ IH]; [done|]. cbn.
  destruct o as [[]| | | |]; done.
Qed.

Lemma join_off targets : Forall off_panel (join_out targets).
Proof. destruct targets; by repeat constructor. Qed.

Lemma on_inbound_off now f n rest a :
  Forall off_panel rest -> Forall off_panel (on_inbound fs_write now f n rest a).2.
Proof.
  intros Hr. unfold on_inbound. destruct (inbound_peer _ _ _) as [q []];
    (constructor; [done|]); apply Forall_app; split; try done; by repeat constructor.
Qed.

Lemma pump_off now j e a : Forall off_panel (pump_event public fs_write now j e a).2.
Proof.
  destruct e as [k|k|c|]; cbn [pump_event].
  - destruct (decide _); [constructor|]. destruct j; by repeat constructor.
  - destruct (decide _); [constructor|]. destruct (_ !! k); by repeat constructor.
  - destruct (from_bytes c) as [m|]; [|constructor]. destruct m as [f n|f n t|f n|f n i z];
      open_message; (destruct (decide _); [constructor|]);
      match goal with |- context [on_inbound ?w ?t ?f ?n ?r ?a] =>
        pose proof (on_inbound_off t f n r a ltac:(by repeat constructor)) as H;
        destruct (on_inbound w t f n r a) end; exact H.
  - constructor.
Qed.

Lemma restore_off now own ks ps : Forall off_panel (restore_peers now own ks ps).2.
Proof.
  clear public fs_write. revert ps. induction ks as [|k ks IH]; intros ps; cbn [restore_peers]; [constructor|].
  destruct (decide _); [apply IH|]. cbn zeta. specialize (IH (<[k:=or_insert_peer now k ps]> ps)).
  destruct (restore_peers _ _ _ _). by constructor.
Qed.

Lemma image_off polls recv pending :
  Forall off_panel (Out.Emit <$> (handle_image_stream polls recv pending).1.1).
Proof.
  assert (forall info i acc reads err, Forall off_panel (Out.Emit <$> (recv_image info i acc reads err).1)) as H.
  { intros info i acc reads. revert acc. induction reads as [|r reads IH]; intros acc err; [constructor|].
    cbn [recv_image]. cbn zeta. destruct (_ <? _); [constructor|]. specialize (IH (acc ++ r) err).
    destruct (recv_image _ _ _ _ _). cbn [fst] in *. rewrite fmap_app. apply Forall_app. split; [|done].
    destruct info; by repeat constructor. }
  unfold handle_image_stream. destruct (read_exact _ _ _ _) as [[?|bs] s]; [constructor|]. cbn zeta.
  specialize (H (wait_for_pending polls (from_le_bytes bs)) (from_le_bytes bs) []
    (stream_reads IMAGE_CHUNK (rs_chunks s)) (rs_error s)).
  destruct (recv_image _ _ _ _ _) as [evs [?|?]]; [exact H|]. cbn [fst] in H.
  destruct (wait_for_pending _ _); cbn [fst]; rewrite fmap_app; apply Forall_app;
    (split; [exact H|by repeat constructor]).
Qed.

Lemma sync_off now info_of (l : list (EndpointId * PeerState)) :
  Forall off_panel (l ≫= fun '(_, p) => (sync_peer now (info_of (cp_id p)) p).2).
Proof.
  apply Forall_bind, Forall_forall. intros [k p] _. unfold compose.
  destruct (sync_out_cases now (info_of (cp_id p)) p) as [->|(q & _ & ->)]; by repeat constructor.
Qed.

(** The web view's panel follows what the tick remembers to have told it. *)
Lemma app_step_panel now x s :
  replay_panel (sy_last_emitted s) (app_step public fs_write now x s).2
  = sy_last_emitted (app_step public fs_write now x s).1.
Proof.
  destruct x; cbn [app_step].
  5: { unfold transport_state_tick. destruct (merge_verified_ble_snapshot _ _ _ _) as [ins ps].
    rewrite sync_peers_eq. cbn [fst snd sy_last_emitted]. unfold replay_panel. rewrite !foldl_app.
    fold (replay_panel (sy_last_emitted s)
      (hm_iter ps ≫= fun '(_, p) => (sync_peer now
         (device_for (cp_id p) ≫= fun d => info_by_device snapshot !! d) p).2)).
    rewrite (replay_off_panel (sy_last_emitted s)) by apply (sync_off now
      (fun id => device_for id ≫= fun d => info_by_device snapshot !! d)).
    match goal with |- foldl _ (foldl _ ?m ?o) _ = _ => fold (replay_panel m o) end.
    rewrite (replay_off_panel (sy_last_emitted s)).
    - apply replay_panel_events, current_panel_keys.
    - destruct (ap_gossip_sender _); [|constructor]. by apply Forall_fmap, Forall_true. }
  - destruct (ap_endpoint _); [done|]. unfold finish_start. destruct bound; [done|].
    pose proof (restore_off now (own_id public (sy_app s)) (load_known_peers (ap_cache_dir (sy_app s)))
      (ap_peers (sy_app s))) as H.
    destruct (restore_peers _ _ _ _) as [ps out]. destruct subscribed; [by apply replay_off_panel|].
    apply replay_off_panel, Forall_app. split; [done|by repeat constructor].
  - pose proof (pump_off now (sy_topic_joined s) e (sy_app s)) as H.
    destruct (pump_event _ _ _ _ _ _) as [[a j] out]. by apply replay_off_panel.
  - unfold reconnect_tick. destruct (ap_gossip_sender _); [|done]. apply replay_off_panel, join_off.
  - unfold stale_tick.
    rewrite stale_peers_eq by (intros; by apply elem_of_hm_iter || apply NoDup_hm_fst).
    apply replay_off_panel, Forall_bind, Forall_forall. intros [k p] _. unfold compose.
    destruct (stale_peer now p); by repeat constructor.
  - unfold set_nickname. cbn. by destruct (ap_gossip_sender _).
  - unfold add_peer. destruct (ep_parse id_str) as [k|]; [|done]. destruct (ap_gossip_sender _); [|done].
    by destruct (ap_peers _ !! k).
  - by destruct (remove_peer_locked _ _ _ _ _) as [? ?].
  - by destruct (sy_removals s !! i).
  - unfold send_message. destruct (ap_gossip_sender _); [|done].
    destruct sent; apply replay_off_panel; cbn [fst snd]; repeat (apply Forall_app; split);
      try apply join_off; by repeat constructor.
  - unfold send_image. destruct picked as [[|]|]; [done| |done].
    destruct join_error; [done|]. destruct (encode_image_from_bytes _); [done|].
    destruct (_ && _); [|done]. apply replay_off_panel. cbn. repeat (constructor; [done|]).
    by apply Forall_fmap, Forall_true.
  - pose proof (image_off polls recv (ap_pending_images (sy_app s))) as H.
    destruct (handle_image_stream _ _ _) as [[evs r] pend]. by apply replay_off_panel.
  - done.
  - unfold reset_app. by destruct ios.
Qed.

Lemma run_panel l s m :
  m = sy_last_emitted s -> replay_panel m ((run l s).2 ≫= snd) = sy_last_emitted (run l s).1.
Proof.
  intros ->. revert s. induction l as [|[now x] l IH]; intros s; cbn [app_run]; [done|].
  pose proof (app_step_panel now x s) as Hp.
  destruct (app_step public fs_write now x s) as [s1 out]. specialize (IH s1).
  destruct (run l s1) as [s2 tr]. cbn [fst snd mbind list_bind] in *. unfold replay_panel in *.
  rewrite foldl_app, Hp. exact IH.
Qed.

(** A device in the snapshot of the transport. *)
Definition panel_entry (d : DeviceId) (st : PeerStateSummary) : option BlePeerDebugUI :=
  match phase_kind st with
  | PhaseKind.Unknown | PhaseKind.Dead => None
  | k => Some (mkBlePeerDebugUI d (ble_phase_str (BlePeerPhase.from k)) (sum_consecutive_failures st)
                 (path_str <$> connect_path st))
  end.

Lemma current_panel_lookup (L : list BlePeerInfo) d (u : option BlePeerDebugUI) :
  (forall i, i ∈ L -> bpi_device_id i = d -> u = Some (from_info i)) ->
  (is_Some u -> exists i, i ∈ L /\ bpi_device_id i = d) ->
  current_panel L !! d = u.
Proof.
  unfold current_panel. induction L as [|i L IH] using rev_ind; intros Hall Hex.
  - cbn. rewrite lookup_empty. destruct u; [|done]. destruct Hex as (i & Hi & _); [done|].
    by apply not_elem_of_nil in Hi.
  - rewrite foldl_snoc. destruct (decide (bpi_device_id i = d)) as [<-|Hne].
    + rewrite lookup_insert_eq. symmetry. apply Hall; [|done]. apply elem_of_app. right. by left.
    + rewrite lookup_insert_ne by done. apply IH.
      * intros j Hj. apply Hall, elem_of_app. by left.
      * intros (j & [Hj|Hj%list_elem_of_singleton]%elem_of_app & Ej)%Hex; [eauto|congruence].
Qed.

Lemma lookup_current_panel (snap : gmap DeviceId PeerStateSummary) d :
  current_panel (snapshot_peers snap) !! d = (snap !! d ≫= panel_entry d).
Proof.
  assert (forall i, i ∈ snapshot_peers snap <-> exists k st, snap !! k = Some st /\
    phase_kind st <> PhaseKind.Unknown /\ phase_kind st <> PhaseKind.Dead /\
    i = mkBlePeerInfo k (BlePeerPhase.from (phase_kind st)) (sum_consecutive_failures st)
          (connect_path st) (sum_verified_endpoint st)) as Hin.
  { intros i. unfold snapshot_peers. rewrite list_elem_of_fmap. split.
    - intros ([k st] & -> & [Hs%list_elem_of_In%elem_of_hm_iter Hf]%list_elem_of_In%List.filter_In).
      exists k, st. split_and!; try done; intros E; by rewrite E in Hf.
    - intros (k & st & Hs & Hu & Hd & ->). exists (k, st). split; [done|].
      apply list_elem_of_In, List.filter_In. split; [by apply list_elem_of_In, elem_of_hm_iter|].
      by destruct (phase_kind st). }
  apply current_panel_lookup.
  - intros i (k & st & Hs & Hu & Hd & ->)%Hin <-. cbn. rewrite Hs. cbn. unfold panel_entry, from_info. cbn.
    by destruct (phase_kind st).
  - destruct (snap !! d) as [st|] eqn:E; [|by intros [? ?]]. cbn. intros Hs.
    eexists. split; [apply Hin; exists d, st; split_and!; try done|done];
      intros Ek; unfold panel_entry in Hs; rewrite Ek in Hs; by destruct Hs.
Qed.

(** The panel of BLE peers shows the transport's snapshot.  Over any
    interleaving, replaying the differences sent to the web view gives exactly
    what the tick remembers; and after a tick that read the registry's snapshot
    [snap], the panel has one line per device of [snap] that is neither unknown
    nor dead, with its phase, failures and path, and no other. *)
Theorem ble_panel_shows_snapshot (generated : Bytes) (c : CacheDir) l (now : Instant)
    (snap : gmap DeviceId PeerStateSummary) (device_for : EndpointId -> option DeviceId) (d : DeviceId) :
  let r := run (l ++ [(now, AppStep.TransportTick (snapshot_peers snap) device_for)])
             (fresh_sys (setup public fs_write generated c)) in
  replay_panel ∅ (r.2 ≫= snd) = sy_last_emitted r.1 /\
  replay_panel ∅ (r.2 ≫= snd) !! d = (snap !! d ≫= panel_entry d).
Proof.
  cbn zeta. rewrite run_panel by done. split; [done|]. rewrite app_run_app.
  destruct (run l _) as [s1 t1]. cbn [app_run app_step].
  unfold transport_state_tick. destruct (merge_verified_ble_snapshot _ _ _ _) as [ins ps].
  rewrite sync_peers_eq. apply lookup_current_panel.
Qed.
End Facts.

(** ** Concrete runs *)

(** A node with identity [1] that meets the peer [5]. *)
Definition disk (new : Bytes) (_ : option Bytes) : option Bytes := Some new.
Definition key_id (secret : Bytes) : EndpointId := take 1 secret.
Definition demo_key : Bytes := 1 :: replicate 31 0.
Definition demo_cache : CacheDir := mkCacheDir (Some demo_key) None None.

Definition seen_info : BlePeerInfo :=
  mkBlePeerInfo "d5" BlePeerPhase.Connected 0 (Some ConnectPath.Gatt) (Some [5]).
Definition demo_run : list (Instant * AppStep.t) :=
  [(0, AppStep.Start None None);
   (1, AppStep.TransportTick [seen_info] (fun _ => Some "d5"%string));
   (2, AppStep.Pump (GossipEvent.Received (encode_or_empty (PC := bit_postcard)
         (ChatMsg.Hello [5] (str "eve")))));
   (6000000000, AppStep.Pump (GossipEvent.Received (encode_or_empty (PC := bit_postcard)
         (ChatMsg.Text [5] (str "eve") (str "hi")))))].

Lemma byte5 : ep_valid [5].
Proof. split; [|done]. constructor; [|constructor]. unfold is_byte, u8_max. lia. Defined.

Lemma bits_decoded m :
  from_bytes (Postcard := bit_postcard) (encode_or_empty (PC := bit_postcard) m) = Some m.
Proof. by apply (from_to_allocvec (Postcard := bit_postcard)). Defined.

Lemma demo_run_ok : run_ok (PC := bit_postcard) demo_run.
Proof.
  unfold run_ok, demo_run. repeat (apply Forall_cons; split); try done.
  - intros v [= <-]. apply byte5.
  - intros m. rewrite bits_decoded. intros [= <-]. apply byte5.
  - intros m. rewrite bits_decoded. intros [= <-]. apply byte5.
Defined.

Abbreviation demo_result := (app_run (ET := hex_text) (PC := bit_postcard) (IC := raw_codec)
  (HI := canonical_iter) key_id disk demo_run (fresh_sys (setup (ET := hex_text) key_id disk [] demo_cache)))
  (only parsing).

Lemma web_view_mirrors_peers_witness :
  let '(s, tr) := demo_result in
  mirrored (ET := hex_text) [5] (ap_peers (sy_app s) !! [5]) (shown (ET := hex_text) [5] tr) /\
  (ap_peers (sy_app s) !! [5] ≫= cp_nickname) = Some (str "eve").
Proof.
  pose proof (web_view_mirrors_peers (ET := hex_text) (PC := bit_postcard) (IC := raw_codec)
    (HI := canonical_iter) key_id disk [] demo_cache demo_run [5] demo_run_ok byte5) as H.
  assert ((ap_peers (sy_app demo_result.1) !! [5] ≫= cp_nickname) = Some (str "eve") /\
    sy_removals demo_result.1 = []) as [E1 E2] by (split; vm_compute; reflexivity).
  cbn zeta in H. destruct demo_result as [s tr]. cbn [fst] in *. split; [|exact E1].
  destruct H as [Hin|[H|(l1 & now & i & l2 & Ho & _)]]; [|exact H|]; exfalso.
  - rewrite E2 in Hin. by apply not_elem_of_nil in Hin.
  - assert ((now, AppStep.EmitRemoved i) ∈ demo_run) as Hin by (rewrite Ho; set_solver).
    unfold demo_run in Hin. set_solver.
Defined.

(** The sighting nudges, the greeting right after it does not, the text six
    seconds later does. *)
Lemma nudges_throttled_witness :
  let '(s, tr) := demo_result in
  nudge_times [5] tr = [1; 6000000000] /\
  StronglySorted (fun t t' => t + JOIN_NUDGE_MIN_INTERVAL <= t') (nudge_times [5] tr).
Proof.
  pose proof (nudges_throttled (ET := hex_text) (PC := bit_postcard) (IC := raw_codec)
    (HI := canonical_iter) key_id disk [] demo_cache demo_run [5] demo_run_ok
    ltac:(by repeat constructor) byte5) as H.
  assert (nudge_times [5] demo_result.2 = [1; 6000000000]) as E by (vm_compute; reflexivity).
  destruct demo_result as [s tr]. by split.
Defined.

Lemma tracked_peers_persisted_witness :
  let s := demo_result.1 in
  [5] ∈ load_known_peers (ET := hex_text) (ap_cache_dir (sy_app s)).
Proof.
  pose proof (tracked_peers_persisted (ET := hex_text) (PC := bit_postcard) (IC := raw_codec)
    (HI := canonical_iter) key_id disk (fun _ _ => eq_refl) [] [] demo_cache demo_run 0 demo_run_ok
    ltac:(by repeat constructor) [5]) as H.
  assert (exists p, ap_peers (sy_app demo_result.1) !! [5] = Some p) as [p Hp]
    by (eexists; vm_compute; reflexivity).
  exact (proj1 (H p Hp)).
Defined.
