(* ===== verification/ChatDelivery.v ===== *)
(** * ChatDelivery: from one chat application to another, and coming up

    What is typed or picked on one node is what the web view of another shows;
    how [start_node] ends; and behaviour of the demo at odds with its intent. *)

From S2P Require Import Prelude Async Peer Interface Blew Routing Registry Transport Construct.
From S2P Require Import ChatProtocol ChatState ChatImage ChatApp ChatStart ChatRun ChatFacts.
Open Scope Z_scope.

Section Delivery.
Context {ET : EndpointText} {PC : Postcard} {IC : ImageCodec} {HI : HashIter}.
Context (public : Bytes -> EndpointId) (fs_write : Bytes -> option Bytes -> option Bytes).
Implicit Types (a b : AppState).

(** ** Messages *)

(** What a message adds to the chat of the web view. *)
Definition chat_lines (out : list Out.t) : list UiEvent.t :=
  omap (fun o => match o with
                 | Out.Emit (UiEvent.ChatMsg _ _ _ _ as e) => Some e
                 | Out.Emit (UiEvent.ChatImage _ _ _ _ _ as e) => Some e
                 | _ => None
                 end) out.

Lemma on_inbound_lines now from nick rest b :
  chat_lines (on_inbound fs_write now from nick rest b).2 = chat_lines rest.
Proof.
  unfold on_inbound, chat_lines. destruct (inbound_peer _ _ _) as [p []]; cbn [fst snd];
    cbn [omap list_omap emit_peer]; rewrite omap_app; cbn; by rewrite app_nil_r.
Qed.

Lemma on_inbound_nickname now from nick rest b :
  exists p, ap_peers (on_inbound fs_write now from nick rest b).1 !! from = Some p /\
    cp_nickname p = Some nick /\ is_Some (cp_gossip p).
Proof.
  unfold on_inbound, inbound_peer. set (p := or_insert_peer now from (ap_peers b)). clearbody p.
  destruct (should_nudge_join_inbound _ _ _); cbn; rewrite lookup_insert_eq;
    destruct (cp_gossip p) as [g|] eqn:E; cbn; rewrite ?E; cbn; eauto.
Qed.

Lemma broadcasts_send scan text a :
  omap (fun o => match o with Out.Broadcast m => Some m | _ => None end)
    (send_message public scan None text a).1 =
  (if ap_gossip_sender a then [encode_or_empty (ChatMsg.Text (own_id public a) (ap_nickname a) text)] else []).
Proof.
  unfold send_message. destruct (ap_gossip_sender a); [|done]. cbn [fst].
  rewrite !omap_app. by destruct (app_join_targets public scan a).
Qed.

(** What is typed on one node is what another shows.  A started node broadcasts
    exactly one message and shows the text as its own; a node with another
    identity that receives the message shows one line, with the sender's
    identity, nickname and text, and from then on tracks the sender under that
    nickname; the sender itself, were it to receive the message, shows nothing. *)
Theorem text_delivered (a b : AppState) (scan : EndpointId -> bool) (text payload : Bytes)
    (now : Instant) (joined : bool) :
  ap_gossip_sender a = true ->
  to_allocvec (ChatMsg.Text (own_id public a) (ap_nickname a) text) = Some payload ->
  let '(out, res) := send_message public scan None text a in
  let '(b', _, out') := pump_event public fs_write now joined (GossipEvent.Received payload) b in
  let line := UiEvent.ChatMsg (ep_to_string (own_id public a)) (ap_nickname a) text in
  res = inr tt /\
  omap (fun o => match o with Out.Broadcast m => Some m | _ => None end) out = [payload] /\
  chat_lines out = [line true] /\
  if decide (own_id public a = own_id public b) then b' = b /\ out' = []
  else chat_lines out' = [line false] /\
    exists p, ap_peers b' !! own_id public a = Some p /\ cp_nickname p = Some (ap_nickname a).
Proof.
  intros Hs Hp. pose proof (broadcasts_send scan text a) as Hb. rewrite Hs in Hb.
  unfold send_message in *. rewrite Hs in *. cbn [fst] in Hb.
  cbn [pump_event]. rewrite (from_to_allocvec _ _ Hp). open_message.
  assert (encode_or_empty (ChatMsg.Text (own_id public a) (ap_nickname a) text) = payload) as He
    by (unfold encode_or_empty; by rewrite Hp).
  rewrite He in *.
  assert (chat_lines ((join_out (app_join_targets public scan a) ++ [Out.Broadcast payload]) ++
    [Out.Emit (UiEvent.ChatMsg (ep_to_string (own_id public a)) (ap_nickname a) text true)]) =
    [UiEvent.ChatMsg (ep_to_string (own_id public a)) (ap_nickname a) text true]) as Hl
    by (unfold chat_lines; rewrite !omap_app; by destruct (app_join_targets public scan a)).
  destruct (decide _) as [Heq|Hne]; [done|].
  pose proof (on_inbound_lines now (own_id public a) (ap_nickname a)
    [Out.Emit (UiEvent.ChatMsg (ep_to_string (own_id public a)) (ap_nickname a) text false)] b) as H1.
  pose proof (on_inbound_nickname now (own_id public a) (ap_nickname a)
    [Out.Emit (UiEvent.ChatMsg (ep_to_string (own_id public a)) (ap_nickname a) text false)] b) as (p & Hp1 & Hp2 & _).
  destruct (on_inbound _ _ _ _ _ _) as [b' out']. cbn [fst snd] in *.
  split_and!; try done. by exists p.
Qed.

(** ** Images *)

(** The announcement of an image reaches the map of pending images. *)
Lemma image_announced now joined a b image_id size payload :
  to_allocvec (ChatMsg.ImageStart (own_id public a) (ap_nickname a) image_id size) = Some payload ->
  own_id public a <> own_id public b ->
  let '(b', _, out) := pump_event public fs_write now joined (GossipEvent.Received payload) b in
  ap_pending_images b' =
    <[image_id := mkPendingImage (ep_to_string (own_id public a)) (ap_nickname a) size]>
      (ap_pending_images b).
Proof.
  intros Hp Hne. cbn [pump_event]. rewrite (from_to_allocvec _ _ Hp). open_message.
  rewrite decide_False by done. unfold on_inbound. by destruct (inbound_peer _ _ _).
Qed.

(** C29. An image arrives as it was sent.  Picking an image on a started node shows it
    there and broadcasts one announcement; every stream that reported no error
    carried the whole image, and a node that receives the announcement and reads
    that stream, cut into pieces in any way, shows the same image under the
    sender's identity and nickname if the announcement is there by the last of
    the 21 looks, with a progress that grows to the full size, and forgets the
    announcement; an image above the limit is refused. *)
Theorem image_delivered (a b : AppState) (data avif payload : Bytes) (image_id : Z)
    (now : Instant) (joined : bool) (env : StreamEnv) (recv : RecvStream)
    (polls : nat -> gmap Z PendingImage) (k : nat) (pending : gmap Z PendingImage) :
  ap_gossip_sender a = true -> ap_endpoint a = true -> own_id public a <> own_id public b ->
  0 <= image_id < 2 ^ 64 -> encode_image_from_bytes data = inr avif ->
  to_allocvec (ChatMsg.ImageStart (own_id public a) (ap_nickname a) image_id (Z.of_nat (length avif)))
    = Some payload ->
  (stream_image_to_peer env image_id avif).2 = inr tt ->
  mjoin (rs_chunks recv) = mjoin (stream_image_to_peer env image_id avif).1 -> rs_error recv = None ->
  (k <= 20)%nat -> (forall j, (j < k)%nat -> polls j !! image_id = None) ->
  let '(out, res) := send_image public (Some (inr data)) image_id None a in
  let '(b', _, _) := pump_event public fs_write now joined (GossipEvent.Received payload) b in
  polls k = ap_pending_images b' ->
  let '(evs, res', pending') := handle_image_stream polls recv pending in
  let line := UiEvent.ChatImage (ep_to_string (own_id public a)) (ap_nickname a) image_id
                (avif_to_data_uri avif) in
  res = inr tt /\ chat_lines out = [line true] /\
  omap (fun o => match o with Out.Broadcast m => Some m | _ => None end) out = [payload] /\
  if MAX_IMAGE_SIZE <? Z.of_nat (length avif)
  then res' = inl (str "image too large")
  else res' = inr tt /\ pending' = delete image_id pending /\
    exists counts,
      evs = ((fun n => UiEvent.ImageProgress image_id n (Z.of_nat (length avif)) false) <$> counts)
            ++ [line false] /\
      StronglySorted Z.le (0 :: counts) /\ List.last counts 0 = Z.of_nat (length avif).
Proof.
  intros Hs He Hne Hid Henc Hp Hsent Hj Herr Hk Hbefore.
  pose proof (image_announced now joined a b image_id _ payload Hp Hne) as Han.
  destruct (pump_event _ _ _ _ _ _) as [[b' ?] ?].
  unfold send_image. rewrite Henc, Hs, He. cbn [andb]. intros Hpoll.
  rewrite stream_image_sent in Hj by done.
  assert (wait_for_pending polls image_id = Some (mkPendingImage (ep_to_string (own_id public a))
    (ap_nickname a) (Z.of_nat (length avif)))) as Hw.
  { apply (wait_for_pending_found _ _ k); [done| |done]. by rewrite Hpoll, Han, lookup_insert_eq. }
  pose proof (handle_image_stream_ok polls recv pending image_id avif Hid Hj Herr) as H.
  cbn zeta in H. rewrite Hw in H. destruct (handle_image_stream _ _ _) as [[evs res'] pending'].
  assert (encode_or_empty (ChatMsg.ImageStart (own_id public a) (ap_nickname a) image_id
    (Z.of_nat (length avif))) = payload) as -> by (unfold encode_or_empty; by rewrite Hp).
  split_and!; [done| | |].
  - unfold chat_lines. cbn. by induction (List.filter _ _).
  - cbn. f_equal. by induction (List.filter _ _).
  - destruct (MAX_IMAGE_SIZE <? Z.of_nat (length avif)); [by destruct H|].
    destruct H as (-> & -> & progress & -> & Hc). destruct (Hc _ eq_refl) as (counts & -> & ? & ?).
    split_and!; try done. by exists counts.
Qed.

(** ** The list of peers *)

#[local] Instance nickname_le_total : Total nickname_le.
Proof.
  intros [x|] [y|]; cbn; auto. rewrite (bytes_cmp_antisym x y). destruct (bytes_cmp x y); cbn; auto.
Qed.
#[local] Instance ui_le_total : Total ui_le.
Proof.
  intros x y. unfold ui_le.
  destruct (Z.lt_trichotomy (status_rank (pu_status x)) (status_rank (pu_status y))) as [H|[H|H]]; [by left; left| |by right; left].
  destruct (nickname_le_total (pu_nickname x) (pu_nickname y)); [left|right]; right; done.
Qed.

(** [get_peers] lists the node itself and then every tracked peer once, best status
    first. *)
Lemma get_peers_sorted now a :
  exists others, get_peers public now a =
    mkPeerStateUI (ep_to_string (own_id public a)) (Some (ap_nickname a)) "self" None None 0 0 :: others /\
    others ≡ₚ (to_ui now <$> hm_values (ap_peers a)) /\ Sorted ui_le others.
Proof.
  eexists. split; [done|]. split; [apply merge_sort_Permutation|apply Sorted_merge_sort; apply _].
Qed.
End Delivery.

(** ** Coming up *)

Section Starting.
Context {N : Type} {BL : Blew N} {BF : BlewFmt}.
Context {ET : EndpointText} {PC : Postcard} (public : Bytes -> EndpointId).
Implicit Types a : AppState.

(** A constructor that hangs is given up after the deadline. *)
Lemma ble_init_step_returns {T} m (fut : Async (BlewDriver N) (BlewError.t + T)) :
  Timely fut -> returns_within BLE_INIT_TIMEOUT (ble_init_step m fut) (fun _ => True).
Proof.
  intros Hf. unfold ble_init_step.
  replace BLE_INIT_TIMEOUT with (BLE_INIT_TIMEOUT + 0) by done.
  eapply returns_bind; [by apply timeout_returns|]. intros r _. by apply returns_ret.
Qed.

Lemma ble_init_step_hung {T} m (fut : Async (BlewDriver N) (BlewError.t + T)) b b' :
  fut (Some BLE_INIT_TIMEOUT) b = (None, b') ->
  ble_init_step m fut None b = (Some (BLE_INIT_TIMEOUT, inl m), b').
Proof. intros H. unfold ble_init_step, mbind, Async_bind, timeout. by rewrite H. Qed.

Lemma ble_init_step_answers {T} m (fut : Async (BlewDriver N) (BlewError.t + T)) b t v b' :
  fut (Some BLE_INIT_TIMEOUT) b = (Some (t, v), b') ->
  ble_init_step m fut None b
  = (Some (t, match v with
              | inr v => inr v
              | inl e => inl (ble_init_error_message (blew_display e))
              end), b').
Proof.
  intros H. unfold ble_init_step, mbind, Async_bind, timeout. rewrite H. cbn. by rewrite Z.add_0_r.
Qed.

(** What the user is told of the errors of [construct]. *)
Lemma init_messages :
  ble_init_error_message (BleError.display BleError.AdapterOff) = BLUETOOTH_OFF_MESSAGE /\
  ble_init_error_message (BleError.display BleError.AdapterNotFound) = BLUETOOTH_UNAVAILABLE_MESSAGE /\
  Forall (fun stage => ble_init_error_message (BleError.display (BleError.Timeout stage))
                       = BLE_STACK_STUCK_MESSAGE)
    ["register_gatt_services"; "start_advertising"; "start_scan"; "l2cap_listener"]%string.
Proof. split_and!; [vm_compute; reflexivity..|]. repeat constructor; vm_compute; reflexivity. Qed.

(** A node that is not started. *)
Definition stopped a : Prop :=
  ap_endpoint a = false /\ ap_gossip_sender a = false /\ ap_ble_transport a = false.

Definition says_hello (out : list Out.t) : list Bytes :=
  omap (fun o => match o with Out.Broadcast m => Some m | _ => None end) out.

Lemma restore_says_nothing now own ks ps : says_hello (restore_peers now own ks ps).2 = [].
Proof.
  revert ps. induction ks as [|k ks IH]; intros ps; cbn [restore_peers]; [done|].
  destruct (decide _); [apply IH|]. cbn zeta. specialize (IH (<[k:=or_insert_peer now k ps]> ps)).
  by destruct (restore_peers _ _ _ _).
Qed.

Lemma finish_start_spec now bound subscribed a :
  stopped a ->
  let '(a', out, res) := finish_start public now bound subscribed a in
  match res with
  | inr (id, nick) => id = ep_to_string (own_id public a) /\ nick = ap_nickname a /\
      ap_endpoint a' = true /\ ap_gossip_sender a' = true /\ ap_ble_transport a' = true /\
      says_hello out = [encode_or_empty (ChatMsg.Hello (own_id public a) (ap_nickname a))]
  | inl _ => stopped a' /\ says_hello out = [] /\ (is_Some bound \/ is_Some subscribed)
  end.
Proof.
  intros Ha. unfold finish_start. destruct bound; [split_and!; try done; left; eauto|].
  pose proof (restore_says_nothing now (own_id public a) (load_known_peers (ap_cache_dir a))
    (ap_peers a)) as H.
  destruct (restore_peers _ _ _ _) as [ps out]. cbn [snd] in H. destruct subscribed.
  - split_and!; try done; [apply Ha..|right; eauto].
  - split_and!; try done. unfold says_hello in *. rewrite omap_app, H. done.
Qed.

(** C30. How [start_node] ends.  Called again on a running node it answers at once and
    leaves the radio alone.  Otherwise: on a device that may not use Bluetooth it
    does not touch the radio; either of the two constructors of the radio that does
    not answer is given up after twenty seconds, which ends in the message that
    Bluetooth is off, and one that answers with an error ends the start with the
    message for it; and whenever it returns, either the node is started, with its
    own identity and one [Hello] sent, or an error is returned, nothing was sent and
    the node is not started, so that the user can try again. *)
Theorem start_node_outcome (a : AppState) (now : Instant) (emulator permitted : bool)
    (central peripheral : Async (BlewDriver N) (BlewError.t + unit)) (bound subscribed : option Text)
    (r : BlewDriver N) :
  (ap_endpoint a = true ->
     start_node public now emulator permitted central peripheral bound subscribed a None r
     = (Some (0, (a, [], inr (ep_to_string (own_id public a), ap_nickname a))), r)) /\
  (stopped a ->
     (emulator = true \/ permitted = false -> exists e,
        start_node public now emulator permitted central peripheral bound subscribed a None r
        = (Some (0, (a, [], inl e)), r)) /\
     (emulator = false -> permitted = true -> forall r',
        central (Some BLE_INIT_TIMEOUT) r = (None, r') ->
        start_node public now emulator permitted central peripheral bound subscribed a None r
        = (Some (BLE_INIT_TIMEOUT, (a, [], inl (str BLUETOOTH_OFF_MESSAGE))), r')) /\
     (emulator = false -> permitted = true -> forall t r1 r',
        central (Some BLE_INIT_TIMEOUT) r = (Some (t, inr tt), r1) ->
        peripheral (Some BLE_INIT_TIMEOUT) r1 = (None, r') ->
        start_node public now emulator permitted central peripheral bound subscribed a None r
        = (Some (t + BLE_INIT_TIMEOUT, (a, [], inl (str BLUETOOTH_OFF_MESSAGE))), r')) /\
     (emulator = false -> permitted = true -> forall t e r',
        central (Some BLE_INIT_TIMEOUT) r = (Some (t, inl e), r') ->
        start_node public now emulator permitted central peripheral bound subscribed a None r
        = (Some (t, (a, [], inl (str (ble_init_error_message (blew_display e))))), r')) /\
     (emulator = false -> permitted = true -> forall t t' e r1 r',
        central (Some BLE_INIT_TIMEOUT) r = (Some (t, inr tt), r1) ->
        peripheral (Some BLE_INIT_TIMEOUT) r1 = (Some (t', inl e), r') ->
        start_node public now emulator permitted central peripheral bound subscribed a None r
        = (Some (t + t', (a, [], inl (str (ble_init_error_message (blew_display e))))), r')) /\
     forall t a' out res r',
       start_node public now emulator permitted central peripheral bound subscribed a None r
         = (Some (t, (a', out, res)), r') ->
       match res with
       | inr (id, nick) => id = ep_to_string (own_id public a) /\ nick = ap_nickname a /\
           ap_endpoint a' = true /\ ap_gossip_sender a' = true /\ ap_ble_transport a' = true /\
           says_hello out = [encode_or_empty (ChatMsg.Hello (own_id public a) (ap_nickname a))]
       | inl _ => stopped a' /\ says_hello out = []
       end).
Proof.
  unfold start_node. split; [by intros ->|]. intros Ha. pose proof Ha as [He _]. rewrite He.
  split_and!.
  - destruct emulator; [by eexists|]. intros [?| ->]; [done|]. by eexists.
  - intros -> -> r' Hc. unfold build_transport, try_bind, mbind, Async_bind. cbn [negb].
    by rewrite (ble_init_step_hung _ _ _ _ Hc).
  - intros -> -> t r1 r' Hc Hp. unfold build_transport, try_bind, mbind, Async_bind. cbn [negb].
    rewrite (ble_init_step_answers _ _ _ _ _ _ Hc). cbn [left_of fmap option_fmap option_map].
    rewrite (ble_init_step_hung _ _ _ _ Hp). cbn. by rewrite !Z.add_0_r.
  - intros -> -> t e r' Hc. unfold build_transport, try_bind, mbind, Async_bind. cbn [negb].
    rewrite (ble_init_step_answers _ _ _ _ _ _ Hc). cbn. by rewrite !Z.add_0_r.
  - intros -> -> t t' e r1 r' Hc Hp. unfold build_transport, try_bind, mbind, Async_bind. cbn [negb].
    rewrite (ble_init_step_answers _ _ _ _ _ _ Hc). cbn [left_of fmap option_fmap option_map].
    rewrite (ble_init_step_answers _ _ _ _ _ _ Hp). cbn. by rewrite !Z.add_0_r.
  - intros t a' out res r'. destruct emulator; [by intros [= <- <- <- <- <-]|].
    destruct permitted; [|by intros [= <- <- <- <- <-]]. cbn [negb].
    unfold mbind at 1, Async_bind. destruct (build_transport _ _ _ _ _) as [[[t1 [e|tr]]|] r1]; [| |done].
    + by intros [= <- <- <- <- <-].
    + pose proof (finish_start_spec now bound subscribed a Ha) as H. cbn.
      destruct (finish_start _ _ _ _ _) as [[a2 out2] res2]. intros [= <- <- <- <- <-].
      destruct res2 as [|[]]; [|done]. by destruct H as (? & ? & _).
Qed.
End Starting.

(** ** Behaviour at odds with the intent *)

(** [build] is awaited without a deadline because it is said to return on its own.
    On a stack that does not answer requests about scanning it does not, and
    [start_node] keeps the lock of the state for ever. *)
Lemma start_node_can_hang {BF : BlewFmt} {ET : EndpointText} {PC : Postcard}
    (public : Bytes -> EndpointId) a now bound subscribed (b : BlewDriver unit) :
  ap_endpoint a = false ->
  (start_node (BL := wedged_radio) public now false true (mret (inr tt)) (mret (inr tt))
     bound subscribed a None b).1 = None.
Proof. intros Ha. unfold start_node. rewrite Ha. reflexivity. Qed.

Section Hazards.
Context {ET : EndpointText} {PC : Postcard} {IC : ImageCodec} {HI : HashIter}.
Context (public : Bytes -> EndpointId) (fs_write : Bytes -> option Bytes -> option Bytes).
Implicit Types a : AppState.

(** A node can be added as a peer of itself, is then listed twice, and cannot be
    removed. *)
Lemma own_id_added now pe a :
  ap_gossip_sender a = true -> ep_valid (own_id public a) -> ap_peers a !! own_id public a = None ->
  let me := ep_to_string (own_id public a) in
  let a' := (add_peer fs_write now pe None me a).1.1 in
  (add_peer fs_write now pe None me a).2 = inr tt /\
  own_id public a' = own_id public a /\
  ap_peers a' !! own_id public a =
    Some (set_cp_ble (Some BlePeerPhase.Connecting) None 0 (new_peer_entry now (own_id public a))) /\
  remove_peer public fs_write pe me a' = (a', [], inl (str "cannot remove self")) /\
  (exists u, u ∈ tail (get_peers public now a') /\ pu_id u = me).
Proof.
  intros Hs Hv Hn. cbn zeta. unfold add_peer, remove_peer, remove_peer_locked. rewrite (ep_parse_to_string _ Hv), Hs, Hn. cbn.
  split_and!; [done|done|by rewrite lookup_insert_eq| |].
  - by rewrite decide_True.
  - eexists. split; [|].
    + unfold get_peers. cbn [tail]. rewrite merge_sort_Permutation. apply list_elem_of_fmap.
      eexists. split; [done|]. apply elem_of_hm_values. exists (own_id public a). cbn. by rewrite lookup_insert_eq.
    + done.
Qed.

(** After [reset_app] the application that keeps running writes the peers back: a
    message from a tracked peer is enough. *)
Lemma reset_undone now j a m payload :
  (forall new old, fs_write new old = Some new) ->
  to_allocvec m = Some payload -> ep_valid (msg_from m) -> msg_from m <> own_id public a ->
  let a1 := (reset_app true (fun _ => true) a).1 in
  known a1 = [] /\
  known (pump_event public fs_write now j (GossipEvent.Received payload) a1).1.1 = [msg_from m].
Proof.
  intros Hfs Hm Hv Hne. cbn zeta. set (a1 := (reset_app _ _ _).1).
  assert (own_id public a1 = own_id public a) as Ho by done.
  assert (load_known_peers (ap_cache_dir a1) = []) as Hk by done.
  split; [done|]. cbn [pump_event]. rewrite (from_to_allocvec _ _ Hm).
  assert (forall n rest, known (on_inbound fs_write now (msg_from m) n rest a1).1 = [msg_from m]) as H.
  { intros n rest. unfold on_inbound. destruct (inbound_peer _ _ _). unfold known. cbn [fst set_ap_cache set_ap_peers ap_cache_dir].
    rewrite load_remember by done. rewrite Hk. by rewrite decide_False by set_solver. }
  destruct m; open_message; rewrite Ho, decide_False by done.
  4: match goal with |- context [on_inbound ?w ?t ?f ?n ?r ?a] =>
       specialize (H n r); destruct (on_inbound w t f n r a); exact H end.
  all: match goal with |- context [on_inbound ?w ?t ?f ?n ?r ?a] =>
       specialize (H n r); by destruct (on_inbound w t f n r a) end.
Qed.
End Hazards.

(** ** Concrete instances *)

(** Two started nodes, [1] called ada and [5]. *)
Definition node (id : Z) (name : string) : AppState :=
  mkAppState (id :: replicate 31 0) (str name) (mkCacheDir None None None) true true true ∅ false ∅.

(** Three pixels in two pieces, the announcement at the second look. *)
Definition demo_polls (k : nat) : gmap Z PendingImage :=
  match k with
  | O => ∅
  | _ => {[ 9 := mkPendingImage (to_hex [1]) (str "ada") 3 ]}
  end.

Lemma image_delivered_witness :
  let recv := mkRecvStream [[9; 0; 0]; [0; 0; 0; 0; 0; 10; 20]; [30]] None in
  (handle_image_stream (IC := raw_codec) demo_polls recv (demo_polls 1)).1.2 = inr tt /\
  exists counts, (handle_image_stream (IC := raw_codec) demo_polls recv (demo_polls 1)).1.1 =
    ((fun n => UiEvent.ImageProgress 9 n 3 false) <$> counts) ++
    [UiEvent.ChatImage (to_hex [1]) (str "ada") 9 (avif_to_data_uri (IC := raw_codec) [10; 20; 30]) false] /\
    List.last counts 0 = 3.
Proof.
  cbn zeta. set (recv := mkRecvStream _ _). set (m := ChatMsg.ImageStart [1] (str "ada") 9 3).
  pose proof (image_delivered (ET := hex_text) (PC := bit_postcard) (IC := raw_codec)
    (HI := canonical_iter) key_id disk (node 1 "ada") (node 5 "eve") [10; 20; 30] [10; 20; 30]
    (bits_of (encode m)) 9 0 false env_ok recv demo_polls 1 (demo_polls 1)
    eq_refl eq_refl ltac:(done) ltac:(lia) eq_refl eq_refl ltac:(vm_compute; reflexivity)
    ltac:(vm_compute; reflexivity) eq_refl ltac:(lia)
    ltac:(intros j Hj; assert (j = 0%nat) as -> by lia; reflexivity)) as H.
  pose proof (image_announced (ET := hex_text) (PC := bit_postcard) (HI := canonical_iter)
    key_id disk 0 false (node 1 "ada") (node 5 "eve") 9 3 (bits_of (encode m)) eq_refl ltac:(done)) as Ha.
  destruct (send_image _ _ _ _ _) as [out res]. destruct (pump_event _ _ _ _ _ _) as [[b' j] out'].
  specialize (H ltac:(rewrite Ha; reflexivity)).
  destruct (handle_image_stream demo_polls recv (demo_polls 1)) as [[evs res'] pend].
  destruct H as (_ & _ & _ & H). cbn in H. destruct H as (-> & _ & counts & -> & _ & Hl).
  split; [done|]. exists counts. by split.
Defined.

(** A radio whose constructor hangs. *)
Definition hung {N : Type} : Async (BlewDriver N) (BlewError.t + unit) := fun _ b => (None, b).
Definition blank_fmt : BlewFmt := {| blew_display _ := ""%string; cause_debug _ := ""%string |}.
Definition idle_node : AppState :=
  mkAppState (1 :: replicate 31 0) (str "ada") (mkCacheDir None None None) false false false ∅ false ∅.
Definition idle_radio : BlewDriver unit := BlewDriver_new tt [] [] (mkAdvertisingConfig []) false.

Lemma start_node_outcome_witness :
  start_node (BL := wedged_radio) (BF := blank_fmt) (ET := hex_text) (PC := bit_postcard)
    key_id 0 false true (sleep 3;; mret (inr tt)) hung None None idle_node None idle_radio
  = (Some (3 + BLE_INIT_TIMEOUT, (idle_node, [], inl (str BLUETOOTH_OFF_MESSAGE))), idle_radio).
Proof.
  pose proof (start_node_outcome (BL := wedged_radio) (BF := blank_fmt) (ET := hex_text)
    (PC := bit_postcard) key_id idle_node 0 false true
    (sleep 3;; mret (inr tt)) hung None None idle_radio) as [_ H].
  destruct (H ltac:(by split_and!)) as (_ & _ & H3 & _).
  exact (H3 eq_refl eq_refl 3 idle_radio idle_radio eq_refl eq_refl).
Defined.

Lemma text_delivered_witness :
  chat_lines (pump_event (ET := hex_text) (PC := bit_postcard) (HI := canonical_iter) key_id disk 0
    true (GossipEvent.Received (bits_of (encode (ChatMsg.Text [1] (str "ada") (str "hi"))))) (node 5 "eve")).2
  = [UiEvent.ChatMsg (to_hex [1]) (str "ada") (str "hi") false].
Proof.
  pose proof (text_delivered (ET := hex_text) (PC := bit_postcard) (HI := canonical_iter)
    key_id disk (node 1 "ada") (node 5 "eve") (fun _ => false) (str "hi")
    (bits_of (encode (ChatMsg.Text [1] (str "ada") (str "hi")))) 0 true eq_refl eq_refl) as H.
  destruct (send_message _ _ _ _ _) as [out res].
  match goal with |- chat_lines ?x.2 = _ => set (r := x) in *; clearbody r end.
  destruct r as [[b' j] out']. destruct H as (_ & _ & _ & H).
  destruct (decide _) as [E|_] in H; [vm_compute in E; discriminate E|]. exact (proj1 H).
Defined.
